(* ===== verification/_CoqProject ===== *)
-Q . S2P
Prelude.v
Outcome.v
BTree.v
Bytes.v
Text.v
Id.v
Error.v
Worklist.v
Scalar.v
Causal.v
Merge.v
ScalarMerge.v
State.v
Working.v
Finalization.v
Domain.v
Durability.v
Reader.v
RegisterCodec.v
Projection.v
Codec.v
Crypto.v
Protected.v
Wire.v
Recovery.v
Transport.v
Session.v
Batch.v
RecordStore.v
FsRecovery.v
Fs.v
FsStorage.v
FsLaws.v
FsAllocate.v
SyncWorker.v
CrashWorker.v
GitHub.v
GitHubLaws.v
GitHubFake.v
GitHubCursor.v
TrustedState.v
TrustedStateSet.v
Publication.v
PublicationSet.v
Receive.v
ReceiveSet.v
Catchup.v
CatchupSet.v
Resume.v
ResumeSet.v
ResumeBatch.v
ResumeRecovery.v
ForegroundRecovery.v
Display.v
SessionRuns.v
RuntimeLaws.v
CatchupLaws.v
ResumeSetLaws.v
ResumeLaws.v
ResumeSingle.v
RecoveryLaws.v
CatchupSetLaws.v
ResumeRecoveryLaws.v
StagedSends.v
ProbeRemote.v
RecoveryProbe.v
AndroidBridge.v
ProbeLaws.v
ProbeReopen.v
ProbeResume.v
CoreProperties.v
SyncProperties.v
SessionProperties.v
FsProperties.v
GitHubProperties.v
RuntimeProperties.v
ResumeProperties.v
RecoveryProperties.v
ProbeProperties.v
WorkerProperties.v
