(* ===== verification/Prelude.v ===== *)
(** * A.P.C.: Atomic Private Continuum, verified

    A Rocq model of the Rust workspace under src/crates/, and the theorems that
    make it correct.

    ** The program

    A.P.C. keeps _scalar registers_: maps from revision identities to immutable
    statements, each naming the causal frontier its author observed.  A replica
    edits a register through a private _working epoch_, seals the epoch into a
    local revision, _finalizes_ it (freezes its statement), and _hands it off_:
    the revision and its causal dependencies become exposed, are encrypted into
    opaque objects and put in a durable _outbox_.  A transport that sees only
    opaque bytes carries them; other replicas fetch, authenticate, assemble and
    _observe_ them, merging registers by union.  Local state, transport cursor and
    outbox are one durable record, committed atomically and encrypted at rest.
    After a crash or a lost acknowledgement the _resume_ passes catch up from the
    durable cursor, retire what the remote history proves was delivered, and
    send the rest, with the exact staged bytes.

    The crates, bottom up: apc-core (registers, merge, working epochs,
    finalization, local domains, the durability contract), apc-crypto (the
    authenticated envelope), apc-sync (projections, codecs, multipart inbox,
    durable record, sessions, the transport contract and its foreground gate),
    apc-storage-fs (the durability contract on a Unix filesystem),
    apc-transport-github (the transport contract on a Git branch), apc-runtime
    (the coordinators that compose all of them, for one domain and for a
    container of domains), apc-android-bridge (the native calls of the Android
    application, which run the runtime's lost-acknowledgement probe).

    ** Files

    Foundations: [Prelude] (results, stateful programs, loops, tactics, the hint
    database [apc]), [Outcome] (postconditions of stateful programs), [BTree]
    (ordered keys and iteration order), [Bytes] (machine integers, arrays),
    [Text] (UTF-8, decimal and hexadecimal text), [Worklist] (the depth-first
    loop), [Reader] (readers, writers, grammars).

    apc-core: [Id] (id.rs), [Error] (error.rs), [Scalar] (scalar.rs; its theory in
    [Causal] and [ScalarMerge]), [Merge] (merge.rs), [State] (state.rs), [Working]
    (working.rs), [Finalization] (finalization.rs), [Domain] (domain.rs),
    [Durability] (durability.rs and the crash simulator of its tests).

    apc-crypto: [Crypto] (lib.rs).

    apc-sync: [Projection] (projection.rs), [Codec] (codec.rs, with
    [RegisterCodec], which trusted_state.rs shares), [Protected] (protected.rs),
    [Wire] (wire.rs), [Recovery] (recovery.rs), [Transport] (transport.rs and
    foreground.rs), [Session] (session.rs), [Batch] (batch.rs and rebase.rs),
    [RecordStore] (record_store.rs).

    apc-storage-fs: [FsRecovery] (recovery.rs), [Fs] (the filesystem below),
    [FsStorage] (lib.rs), [FsLaws] and [FsAllocate] (its theory).

    apc-transport-github: [GitHub] (lib.rs), [GitHubLaws] (its theory over any API
    that keeps the laws of a branch), [GitHubFake] (the branch of its tests).

    apc-runtime, one domain: [GitHubCursor] (lib.rs), [TrustedState]
    (trusted_state.rs), [Publication] (publication.rs), [Receive] (receive.rs),
    [Catchup] (catchup.rs), [Resume] (resume.rs, resume_cycle.rs), [ResumeBatch]
    (resume_batch.rs, resume_batch_cycle.rs).  Several domains: [TrustedStateSet]
    (trusted_state_set.rs), [PublicationSet] (publication_set.rs), [ReceiveSet]
    (receive_set.rs), [CatchupSet] (catchup_set.rs), [ResumeRecovery]
    (resume_recovery_batch.rs, resume_recovery_cycle.rs), [ForegroundRecovery]
    (foreground_recovery.rs).  [ResumeSet] is the body that the two batch files
    share.  Theory: [SessionRuns], [RuntimeLaws], [CatchupLaws], [ResumeSetLaws],
    [ResumeLaws], [ResumeSingle]; and [RecoveryLaws], [CatchupSetLaws],
    [ResumeRecoveryLaws], [StagedSends].

    apc-android-bridge: [ProbeRemote] (the simulated remote of recovery_probe.rs),
    [RecoveryProbe] (the rest of recovery_probe.rs), [AndroidBridge] (lib.rs),
    [ProbeLaws], [ProbeReopen] and [ProbeResume] (theory).

    The worker processes of the tests: [SyncWorker]
    (apc-sync/src/bin/apc-sync-process-worker.rs) and [CrashWorker]
    (apc-storage-fs/src/bin/apc-storage-crash-worker.rs), each with its theory.
    Across the crates: [Display] (what each error type writes, and the [Debug] texts
    it quotes; these texts are UTF-8).

    A Rust struct is a [Record] or [Inductive] of the same name and its methods a
    [Module] of that name; a free function is a definition of its own.  [*_ok],
    [valid] and the relations named in the laws files are specification; nothing
    the code computes is stated only as a relation.

    ** Conventions

    [Result<A, E>] is [result E A], whose third case [Panic] stands for [expect],
    [unwrap], an out-of-range index and a capacity overflow.  A method that takes
    [&mut self] is a [stateful] program: a function from the state to a new state
    and a result, so that what an error leaves behind is visible.  A coordinator's
    state is the tuple of what the caller lends it (live domain, record, store,
    transport).  [BTreeMap] and [BTreeSet] are stdpp's [gmap] and [gset], iterated
    in ascending key order, which decides the bytes an encoder writes and the
    error a loop reports first.  [u8] is [byte]; wider integers are [N], with the
    checks and the wrapping of the code written out; [usize] has 64 bits.

    Fuel.  [worklist] gets one unit per possible pop and [worklist_total] proves
    that it is enough; [visit_for_cycle] gets the number of revisions, since a
    path of distinct revisions is no longer than that ([visit_for_cycle_spec]);
    [allocate_loop] gets one more than the existing names, which the loop cannot
    all hit ([allocate_loop_spec]).  No fuel appears in a theorem's statement, and
    the value returned when fuel is out is never returned.

    ** Interfaces

    A client is proved against a class, and an implementation has an instance:
    - [MergeLaws]: registers, atom maps, continuum states, projections;
    - [DurabilityLaws] over [CrashModel]: what a power loss may leave;
      [CrashBackend] and [UnixFsDurabilityBackend];
    - [SyncRecordStoreLaws]: the durable record; [ProtectedSyncRecordStore] over
      any lawful backend and cipher;
    - [OpaqueTransport]: the GitHub transport, the foreground guard, the probe's
      simulated remote;
      [GitHubApiLaws]: the in-memory branch;
    - [TrustedStateLaws], [RecoveryStateLaws]: the development codecs;
    - [Display] and [Debug], with [DisplayLaws] and [DebugLaws]: texts of errors;
    - [LiveState], [CatchUpOutcome], [ProvesObserved]: what the settling pass
      needs to know of one domain or of a container; an instance for each.

    Parameters, since their code is not in the repository: XChaCha20-Poly1305
    ([Aead], with the laws of a deterministic authenticated cipher in [AeadLaws]),
    the operating system's randomness (the nonces are arguments), SHA-256
    ([Sha256]), the GitHub API ([GitHubApi], [GitHubApiLaws]) and the texts that
    the code quotes but does not write ([ErrorTexts]: an operating system error, what
    [derive(Debug)] makes of two error types; the errors of the [jni] crate), and which
    directory a path names ([Locations], the same at every call).  std::fs is
    modelled in [Fs]: each call may fail; a directory's changes become durable in
    order, up to some prefix past the last sync of that directory; a file's
    contents are durable once [sync_all] returned.  The two directories of a store
    exist in [FsStorage]; the probe, which removes and creates them, keeps what their
    unsynced parent may show again after a power loss ([StorePath]).

    ** Theorems

    - [CoreProperties]: merge of registers is the union or a conflict, a semilattice
      on valid registers, lifted to convergence of replicas; the invariant of a
      local domain over every sequence of calls; what a hand-off exposes; sealing
      before observation; the commit protocol under power loss.
    - [SyncProperties]: the codecs accept exactly their formats; a protected part
      opens only in its own context; unpublished work survives reception.
    - [SessionProperties]: multipart assembly does not depend on arrival order; a
      session refines an atomic durable record under power loss; staged bytes never
      change; the encrypted store keeps the store's contract.
    - [FsProperties]: commits on a filesystem that may fail at any call and lose
      power at any moment; corruption is detected; candidate numbers, which are
      never reused and never overflow.
    - [GitHubProperties]: a fetch returns exactly the objects after the cursor,
      whatever other devices push meanwhile; what is published is fetched.
    - [RuntimeProperties]: staging and reception of one domain, crash-safe.
    - [ResumeProperties]: catch-up is atomic; a resume pass retires only what was
      proven delivered; a cycle is at most two passes; one publication is a set of
      one.
    - [RecoveryProperties]: the same for a container of domains, isolation of
      domains, the container's type invariant and codec; the foreground gate; a
      cycle delivers the outbox when nothing interferes; and a published selection
      arrives at another replica.
    - [ProbeProperties]: the probe on a real filesystem: a publication whose
      acknowledgement is lost is accepted by the remote once, whatever native calls
      but that of staging the scenario again follow, whatever fails and whenever the
      process dies or the power is lost; on devices that work the resumption settles
      it without sending; a staged record is found again.  Each says what may be
      found when a power loss puts an earlier state of the unsynced parent back.
    - [WorkerProperties]: two processes that meet only in files converge; a worker
      killed at a named stage of a commit leaves what the test of that stage expects.

    Hypotheses that a property keeps are stated in it, and its witness discharges
    them on a concrete run, with a toy cipher and the in-memory branch.

    ** Not modelled

    [Error::source] of the error types, which no code of the crates calls; [Drop]
    and zeroization of keys (no observable state); the JNI marshalling of the Android
    bridge (the conversion of a Java string is an argument of the definitions that
    use it); the bodies of the tests, which are more than half of the lines of most
    files and state expectations of the code that is modelled; the Python reference
    model, which the crates do not call; native calls from several threads at once. *)
From stdpp Require Import base tactics option list gmap sorting numbers.
From Stdlib Require Import Lia.

(** ** Results

    [result E A] is Rust's [Result<A, E>] with a third outcome for a panic
    ([expect], [unwrap], capacity overflow): a panic is not an error value the
    caller can observe, so it is kept apart from [Err]. *)
Inductive result (E A : Type) : Type :=
  | Ok (a : A)
  | Err (e : E)
  | Panic.
Arguments Ok {E A} a.
Arguments Err {E A} e.
Arguments Panic {E A}.

#[export] Instance result_ret (E : Type) : MRet (result E) := λ A a, Ok a.
#[export] Instance result_bind (E : Type) : MBind (result E) := λ A B f r,
  match r with
  | Ok a => f a
  | Err e => Err e
  | Panic => Panic
  end.
#[export] Instance result_eq_dec (E A : Type) `{EqDecision E, EqDecision A} :
  EqDecision (result E A).
Proof. solve_decision. Defined.

#[export] Instance Ok_inj (E A : Type) : Inj (=) (=) (@Ok E A).
Proof. by intros a b [=]. Qed.

(** [Result::map_err]. *)
Definition map_err {E E' A : Type} (f : E → E') (r : result E A) : result E' A :=
  match r with
  | Ok a => Ok a
  | Err e => Err (f e)
  | Panic => Panic
  end.

(** [Option::ok_or]. *)
Definition ok_or {E A : Type} (e : E) (o : option A) : result E A :=
  match o with
  | Some a => Ok a
  | None => Err e
  end.

(** [Option::expect]. *)
Definition expect {E A : Type} (o : option A) : result E A :=
  match o with
  | Some a => Ok a
  | None => Panic
  end.

(** [Option<Result<A, E>>::transpose]. *)
Definition transpose {E A : Type} (o : option (result E A)) : result E (option A) :=
  match o with
  | Some r => r ≫= λ a, mret (Some a)
  | None => mret None
  end.

Definition is_ok {E A : Type} (r : result E A) : Prop := ∃ a, r = Ok a.

(** [Result::is_ok]. *)
Definition succeeds {E A : Type} (r : result E A) : bool :=
  match r with
  | Ok _ => true
  | _ => false
  end.

(** A [for] loop whose body can return early with [?]. *)
Fixpoint try_fold {E A B : Type} (f : B → A → result E B) (b : B) (l : list A) : result E B :=
  match l with
  | [] => Ok b
  | x :: l' => f b x ≫= λ b', try_fold f b' l'
  end.

(** A [for] loop that collects nothing and only checks. *)
Fixpoint try_for_each {E A : Type} (f : A → result E unit) (l : list A) : result E unit :=
  match l with
  | [] => Ok tt
  | x :: l' => f x ≫= λ _, try_for_each f l'
  end.

(** [iter.map(f).collect::<Result<Vec<_>, _>>()]. *)
Fixpoint try_map {E A B : Type} (f : A → result E B) (l : list A) : result E (list B) :=
  match l with
  | [] => Ok []
  | x :: l' => f x ≫= λ y, try_map f l' ≫= λ ys, Ok (y :: ys)
  end.

(** ** State and errors

    A method [fn op(&mut self, ..) -> Result<A, E>] is a function from the
    state before to the state after and the returned value.  An early return
    through [?] keeps the mutations made so far, as in Rust. *)
Definition stateful (S E A : Type) : Type := S → S * result E A.

#[export] Instance stateful_ret (S E : Type) : MRet (stateful S E) := λ A a s, (s, Ok a).
#[export] Instance stateful_bind (S E : Type) : MBind (stateful S E) := λ A B f m s,
  match m s with
  | (s', Ok a) => f a s'
  | (s', Err e) => (s', Err e)
  | (s', Panic) => (s', Panic)
  end.

Definition get_state {S E : Type} : stateful S E S := λ s, (s, Ok s).
Definition put_state {S E : Type} (s' : S) : stateful S E unit := λ _, (s', Ok tt).
Definition lift_result {S E A : Type} (r : result E A) : stateful S E A := λ s, (s, r).
Definition throw {S E A : Type} (e : E) : stateful S E A := λ s, (s, Err e).

(** A [for] loop over a list whose body mutates the state and may return early. *)
Fixpoint st_for_each {S E A : Type} (f : A → stateful S E unit) (l : list A) : stateful S E unit :=
  match l with
  | [] => mret tt
  | x :: l' => f x ≫= λ _, st_for_each f l'
  end.

(** Runs a method of a field of the state. *)
Definition on_field {S F E A : Type} (get : S → F) (set : F → S → S) (m : stateful F E A) :
  stateful S E A := λ s,
  let '(f, r) := m (get s) in (set f s, r).

(** The two components of a state [(left, right)], for functions with two
    mutable arguments. *)
Definition on_fst {S F E A : Type} (m : stateful S E A) : stateful (S * F) E A :=
  on_field fst (λ s p, (s, p.2)) m.
Definition on_snd {S F E A : Type} (m : stateful F E A) : stateful (S * F) E A :=
  on_field snd (λ f p, (p.1, f)) m.

(** [Result::map_err] after a stateful call. *)
Definition map_err_st {S E E' A : Type} (f : E → E') (m : stateful S E A) : stateful S E' A := λ s,
  let '(s', r) := m s in (s', map_err f r).

(** ** Reasoning about results *)

(** How a call failed, if it did: [Some (Some e)] for [Err e], [Some None] for
    a panic. *)
Definition failure {E A : Type} (r : result E A) : option (option E) :=
  match r with
  | Ok _ => None
  | Err e => Some (Some e)
  | Panic => Some None
  end.

(** The same failure at another success type. *)
Definition fail_with {E A : Type} (x : option E) : result E A :=
  match x with
  | Some e => Err e
  | None => Panic
  end.

Create HintDb apc discriminated.

Section results.
Context {E A B : Type}.
Implicit Types (r : result E A) (f : A → result E B).

Lemma bind_Ok r f b : r ≫= f = Ok b ↔ ∃ a, r = Ok a ∧ f a = Ok b.
Proof. destruct r; naive_solver. Qed.

Lemma bind_Err r f e : r ≫= f = Err e ↔ r = Err e ∨ ∃ a, r = Ok a ∧ f a = Err e.
Proof. destruct r; naive_solver. Qed.

Lemma bind_Panic r f : r ≫= f = Panic ↔ r = Panic ∨ ∃ a, r = Ok a ∧ f a = Panic.
Proof. destruct r; naive_solver. Qed.

Lemma succeeds_Ok r : succeeds r = true → ∃ a, r = Ok a.
Proof. destruct r; [eauto|done..]. Qed.

Lemma failure_None r : failure r = None ↔ is_ok r.
Proof. unfold is_ok. destruct r; naive_solver. Qed.

Lemma failure_Some r x : failure r = Some x ↔ r = fail_with x.
Proof. destruct r, x; naive_solver. Qed.

Lemma failure_bind r f x :
  failure (r ≫= f) = Some x ↔ failure r = Some x ∨ ∃ a, r = Ok a ∧ failure (f a) = Some x.
Proof. destruct r; naive_solver. Qed.

Lemma result_eq_failure (r r' : result E A) :
  (∀ a, r = Ok a ↔ r' = Ok a) → (∀ x, failure r = Some x ↔ failure r' = Some x) → r = r'.
Proof.
  intros Hok Hfail. destruct r as [a|e|].
  - symmetry. by apply Hok.
  - symmetry. by apply (failure_Some r' (Some e)), Hfail.
  - symmetry. by apply (failure_Some r' None), Hfail.
Qed.
End results.

Lemma map_err_Ok {E E' A} (g : E → E') (r : result E A) a : map_err g r = Ok a ↔ r = Ok a.
Proof. destruct r; naive_solver. Qed.

Lemma map_err_Panic {E E' A} (g : E → E') (r : result E A) : map_err g r = Panic ↔ r = Panic.
Proof. destruct r; naive_solver. Qed.

Lemma ok_or_Ok {E A} (e : E) (o : option A) a : ok_or e o = Ok a ↔ o = Some a.
Proof. destruct o; naive_solver. Qed.

Lemma ok_or_Panic {E A} (e : E) (o : option A) : ok_or e o ≠ Panic.
Proof. by destruct o. Qed.

Lemma expect_Ok {E A} (o : option A) a : @expect E A o = Ok a ↔ o = Some a.
Proof. destruct o; naive_solver. Qed.

#[export] Hint Rewrite @bind_Ok @bind_Err @bind_Panic @map_err_Ok @ok_or_Ok @expect_Ok : results.

(** Splits hypotheses of the shape [m ≫= f = Ok _] into the successful steps. *)
Ltac inv_ok :=
  repeat match goal with
  | H : (_ ≫= _) = Ok _ |- _ => apply bind_Ok in H; destruct H as (? & ? & H)
  | H : map_err _ _ = Ok _ |- _ => apply map_err_Ok in H
  | H : ok_or _ _ = Ok _ |- _ => apply ok_or_Ok in H
  | H : expect _ = Ok _ |- _ => apply expect_Ok in H
  | H : mret _ = Ok _ |- _ => unfold mret, result_ret in H
  | H : Ok _ = Ok _ |- _ => injection H as H
  | H : Err _ = Ok _ |- _ => discriminate H
  | H : Panic = Ok _ |- _ => discriminate H
  end; try subst.

(** Combines several results known for the same call. *)
Ltac simplify_res :=
  repeat match goal with
  | H1 : ?x = Ok _, H2 : ?x = _ |- _ => first [constr_eq H1 H2; fail 1 | rewrite H1 in H2]
  | H1 : ?x = Err _, H2 : ?x = _ |- _ => first [constr_eq H1 H2; fail 1 | rewrite H1 in H2]
  | H : Ok _ = _ |- _ => first [discriminate H | injection H as H]
  | H : Err _ = _ |- _ => first [discriminate H | injection H as H]
  | H : Panic = _ |- _ => discriminate H
  end; simplify_eq.

(** *** Running a stateful program *)
Section stateful_run.
Context {S E A B : Type}.
Implicit Types (s : S) (m : stateful S E A) (f : A → stateful S E B).

Lemma st_bind m f s :
  (m ≫= f) s =
  match m s with
  | (s', Ok a) => f a s'
  | (s', Err e) => (s', Err e)
  | (s', Panic) => (s', Panic)
  end.
Proof. reflexivity. Qed.

Lemma st_ret (a : A) s : (mret a : stateful S E A) s = (s, Ok a).
Proof. reflexivity. Qed.

Lemma st_get (f : S → stateful S E B) s : (get_state ≫= f) s = f s s.
Proof. reflexivity. Qed.

Lemma st_put (f : unit → stateful S E B) s s' : (put_state s' ≫= f) s = f tt s'.
Proof. reflexivity. Qed.

Lemma st_put_last s s' : put_state (E := E) s' s = (s', Ok tt).
Proof. reflexivity. Qed.

Lemma st_throw (e : E) s : throw (A := A) e s = (s, Err e).
Proof. reflexivity. Qed.

Lemma st_lift (r : result E A) f s :
  (lift_result r ≫= f) s =
  match r with
  | Ok a => f a s
  | Err e => (s, Err e)
  | Panic => (s, Panic)
  end.
Proof. by destruct r. Qed.

Lemma st_lift_last (r : result E A) s : lift_result r s = (s, r).
Proof. reflexivity. Qed.
End stateful_run.

#[export] Hint Rewrite @st_get @st_put @st_lift @st_ret @st_put_last @st_throw @st_lift_last :
  stateful.

Ltac run_st := autorewrite with stateful.

(** Decides a closed proposition by evaluating its decision procedure; only the
    boolean is read back, so sets and maps are not printed as normal forms. *)
Ltac by_compute :=
  match goal with |- ?P => apply (bool_decide_eq_true_1 P); vm_compute; reflexivity end.

(** Case analysis on the scrutinees of a stateful program in a hypothesis. *)
Ltac case_run :=
  repeat match goal with
  | H : context [match ?x with _ => _ end] |- _ =>
      lazymatch x with
      | context [match _ with _ => _ end] => fail
      | _ => let E := fresh "Hcase" in destruct x eqn:E; simplify_eq/=
      end
  end.

(** What holds of the items of a list, one by one. *)
Lemma forall_in {A} (P : A → Prop) l : Forall P l → ∀ x, x ∈ l → P x.
Proof. intros Hl. by apply list.Forall_forall. Qed.

Section folds.
Context {E A B : Type}.

Lemma try_fold_app (f : B → A → result E B) b l1 l2 :
  try_fold f b (l1 ++ l2) = try_fold f b l1 ≫= λ b', try_fold f b' l2.
Proof.
  revert b. induction l1 as [|x l1 IH]; intros b; simpl; [done|].
  destruct (f b x); simpl; [apply IH|done..].
Qed.

Lemma try_fold_ext (f g : B → A → result E B) b l :
  (∀ b x, x ∈ l → f b x = g b x) → try_fold f b l = try_fold g b l.
Proof.
  revert b. induction l as [|x l IH]; intros b Hfg; simpl; [done|].
  rewrite Hfg by left. destruct (g b x); simpl; [|done..].
  apply IH. intros ???. apply Hfg. by right.
Qed.

(** A loop invariant holds at the end of a completed loop. *)
Lemma try_fold_inv (P : B → Prop) (f : B → A → result E B) b l b' :
  P b → (∀ b x c, x ∈ l → P b → f b x = Ok c → P c) → try_fold f b l = Ok b' → P b'.
Proof.
  revert b. induction l as [|x l IH]; intros b Hb Hstep Hf; simpl in *; inv_ok; [done|].
  eapply IH; [|intros; eapply Hstep; [by right|..]; done|done].
  eapply Hstep; [by left|done..].
Qed.

Lemma try_for_each_Ok (f : A → result E unit) l u :
  try_for_each f l = Ok u ↔ ∀ x, x ∈ l → f x = Ok tt.
Proof.
  destruct u. induction l as [|x l IH]; simpl.
  - split; [intros _ x Hx; by apply not_elem_of_nil in Hx|done].
  - rewrite bind_Ok. split.
    + intros ([] & Hx & Hl) y [->|Hy]%elem_of_cons; [done|]. by apply (proj1 IH Hl).
    + intros Hl. exists tt. split; [apply Hl; left|]. apply IH.
      intros y Hy. apply Hl. by right.
Qed.

Lemma try_for_each_not_panic (f : A → result E unit) l :
  (∀ x, f x ≠ Panic) → try_for_each f l ≠ Panic.
Proof.
  intros Hf. induction l as [|x l IH]; [done|]. cbn. intros [Hp|(? & _ & Hp)]%bind_Panic; [by apply (Hf x)|done].
Qed.

Lemma try_for_each_fail (f : A → result E unit) l x :
  failure (try_for_each f l) = Some x →
  ∃ l1 a l2, l = l1 ++ a :: l2 ∧ failure (f a) = Some x ∧ ∀ y, y ∈ l1 → f y = Ok tt.
Proof.
  induction l as [|a l IH]; simpl; [done|].
  rewrite failure_bind. intros [Ha|([] & Ha & Hl)].
  - exists [], a, l. split_and!; [done..|]. intros y Hy. by apply not_elem_of_nil in Hy.
  - destruct (IH Hl) as (l1 & a' & l2 & -> & Ha' & Hl1).
    exists (a :: l1), a', l2. split_and!; [done..|].
    intros y [->|Hy]%elem_of_cons; auto.
Qed.

Lemma try_map_Ok (f : A → result E B) l l' :
  try_map f l = Ok l' ↔ Forall2 (λ x y, f x = Ok y) l l'.
Proof.
  revert l'. induction l as [|x l IH]; intros l'; simpl.
  - split; [intros [= <-]; constructor|by inversion 1].
  - split.
    + intros Hl. inv_ok. constructor; [done|]. by apply IH.
    + inversion_clear 1 as [|? y ? ys Hx Hys]. rewrite Hx. simpl.
      apply IH in Hys. by rewrite Hys.
Qed.
End folds.
