(* ===== verification/Outcome.v ===== *)
(** * Postconditions of stateful programs

    [outcome m s Q X]: run from [s], [m] ends in a state and a value that
    satisfy [Q], or fails in a state that satisfies [X]. *)
From stdpp Require Import base tactics.
From S2P Require Import Prelude.

Section outcome.
Context {S E A : Type}.

(** [Q] holds after success and [X] after a failure. *)
Definition outcome (m : stateful S E A) (s : S) (Q : S → A → Prop) (X : S → Prop) : Prop :=
  match m s with
  | (s', Ok a) => Q s' a
  | (s', _) => X s'
  end.

Lemma outcome_mono m s (Q Q' : S → A → Prop) (X X' : S → Prop) :
  outcome m s Q X → (∀ s' a, Q s' a → Q' s' a) → (∀ s', X s' → X' s') → outcome m s Q' X'.
Proof. unfold outcome. destruct (m s) as [s' [a|e|]]; auto. Qed.

Lemma outcome_ret (a : A) s Q X : Q s a → outcome (mret a) s Q X.
Proof. done. Qed.

Lemma outcome_lift (r : result E A) s (Q : S → A → Prop) (X : S → Prop) :
  (∀ a, r = Ok a → Q s a) → X s → outcome (lift_result r) s Q X.
Proof. unfold outcome, lift_result. destruct r; auto. Qed.
End outcome.

Lemma outcome_bind {S E A B} (m : stateful S E A) (f : A → stateful S E B) s Q X :
  outcome m s (λ s' a, outcome (f a) s' Q X) X → outcome (m ≫= f) s Q X.
Proof. unfold outcome. rewrite st_bind. by destruct (m s) as [s' [a|e|]]. Qed.

Lemma outcome_get {S E B} (f : S → stateful S E B) s Q X :
  outcome (f s) s Q X → outcome (get_state ≫= f) s Q X.
Proof. done. Qed.

Lemma outcome_map_err {S E E' A} (g : E → E') (m : stateful S E A) s Q X :
  outcome m s Q X → outcome (map_err_st g m) s Q X.
Proof. unfold outcome, map_err_st. by destruct (m s) as [s' [a|e|]]. Qed.

(** Reads a postcondition off a call's result. *)
Lemma outcome_result {S E A} (m : stateful S E A) (st st' : S) (r : result E A) Q X :
  outcome m st Q X → m st = (st', r) →
  match r with Ok a => Q st' a | _ => X st' end.
Proof. unfold outcome. intros Ho Hm. by rewrite Hm in Ho. Qed.

(** ** What a program can return

    [yields m P]: whatever state [m] runs from, a value it returns satisfies
    [P]. *)
Section yields.
Context {S E : Type}.

Definition yields {A : Type} (m : stateful S E A) (P : A → Prop) : Prop :=
  ∀ s s' a, m s = (s', Ok a) → P a.

Lemma yields_ret {A} (a : A) (P : A → Prop) : P a → yields (mret a) P.
Proof. intros Ha s s' a' [= _ <-]. done. Qed.

Lemma yields_throw {A} (e : E) (P : A → Prop) : yields (throw e) P.
Proof. intros s s' a [=]. Qed.

Lemma yields_lift {A} (r : result E A) (P : A → Prop) : (∀ a, r = Ok a → P a) → yields (lift_result r) P.
Proof. intros Hr s s' a [= _ Ha]. by apply Hr. Qed.

Lemma yields_any {A} (m : stateful S E A) : yields m (λ _, True).
Proof. done. Qed.

Lemma yields_bind {A B} (m : stateful S E A) (f : A → stateful S E B) P Q :
  yields m P → (∀ a, P a → yields (f a) Q) → yields (m ≫= f) Q.
Proof.
  intros Hm Hf s s' b. rewrite st_bind. destruct (m s) as [s1 [a|e|]] eqn:Ha; [|done..].
  apply Hf. by eapply Hm.
Qed.

Lemma yields_if {A} (Q : Prop) `{Decision Q} (m n : stateful S E A) P :
  yields m P → yields n P → yields (if decide Q then m else n) P.
Proof. by case_decide. Qed.
End yields.

(** ** What every run keeps

    [keeps P m]: from a state that satisfies [P], [m] ends in one, whether it
    succeeds, fails or panics. *)
Section keeps.
Context {S : Type} (P : S → Prop).

Definition keeps {E A : Type} (m : stateful S E A) : Prop := ∀ s, P s → P (m s).1.

Lemma keeps_ret {E A} (a : A) : keeps (mret a : stateful S E A).
Proof. by intros s. Qed.

Lemma keeps_lift {E A} (r : result E A) : keeps (lift_result r).
Proof. by intros s. Qed.

Lemma keeps_get {E} : keeps (get_state : stateful S E S).
Proof. by intros s. Qed.

Lemma keeps_bind {E A B} (m : stateful S E A) (f : A → stateful S E B) :
  keeps m → (∀ a, keeps (f a)) → keeps (m ≫= f).
Proof.
  intros Hm Hf s Hs. rewrite st_bind. specialize (Hm s Hs). destruct (m s) as [s' [a|e|]]; [by apply Hf|done..].
Qed.

(** What is put depends on the state only through what it keeps. *)
Lemma keeps_update {E} (f : S → S) :
  (∀ s, P s → P (f s)) → keeps (s ← get_state; put_state (f s) : stateful S E unit).
Proof. intros Hf s Hs. exact (Hf s Hs). Qed.

Lemma keeps_map_err {E E' A} (g : E → E') (m : stateful S E A) : keeps m → keeps (map_err_st g m).
Proof. intros Hm s Hs. specialize (Hm s Hs). unfold map_err_st. by destruct (m s) as [s' r]. Qed.
End keeps.

#[export] Hint Resolve keeps_ret keeps_lift keeps_get keeps_bind keeps_map_err : keeps.
