(* ===== verification/BTree.v ===== *)
(** * Ordered maps and sets

    The code's [BTreeMap] and [BTreeSet] are stdpp's [gmap] and [gset]: equality
    is extensional, as in Rust, and the iteration order is the ascending order
    of the keys.  Iteration matters for the encoders and for which error a loop
    reports, so [elements_asc] and [entries_asc] make it explicit. *)
From stdpp Require Import base tactics option list gmap sorting.
From S2P Require Import Prelude.

(** ** Keys with a total order (Rust's [Ord]) *)
Class Ord (K : Type) := cmp : K → K → comparison.

Class OrdLaws (K : Type) `{Ord K} : Prop := {
  cmp_eq_iff (x y : K) : cmp x y = Eq ↔ x = y;
  cmp_opp (x y : K) : cmp y x = CompOpp (cmp x y);
  cmp_lt_trans (x y z : K) : cmp x y = Lt → cmp y z = Lt → cmp x z = Lt;
}.

Definition ord_le {K : Type} `{Ord K} (x y : K) : Prop := cmp x y ≠ Gt.
Definition ord_lt {K : Type} `{Ord K} (x y : K) : Prop := cmp x y = Lt.

#[export] Instance ord_le_dec {K : Type} `{Ord K} : RelDecision (ord_le (K := K)).
Proof. intros x y. unfold ord_le. destruct (cmp x y); solve_decision. Defined.

Section ord_laws.
Context {K : Type} `{OrdLaws K}.
Implicit Types x y z : K.

Lemma cmp_refl x : cmp x x = Eq.
Proof. by apply cmp_eq_iff. Qed.

Lemma cmp_gt_lt x y : cmp x y = Gt ↔ cmp y x = Lt.
Proof. rewrite (cmp_opp x y). destruct (cmp x y); naive_solver. Qed.

Lemma ord_le_lt_eq x y : ord_le x y ↔ ord_lt x y ∨ x = y.
Proof.
  unfold ord_le, ord_lt. rewrite <-(cmp_eq_iff x y).
  destruct (cmp x y); naive_solver.
Qed.

Lemma ord_lt_irrefl x : ¬ ord_lt x x.
Proof. unfold ord_lt. by rewrite cmp_refl. Qed.

#[export] Instance ord_lt_transitive : Transitive (ord_lt (K := K)).
Proof. intros x y z. apply cmp_lt_trans. Qed.

#[export] Instance ord_le_transitive : Transitive (ord_le (K := K)).
Proof.
  intros x y z. rewrite !ord_le_lt_eq.
  intros [Hxy| ->] [Hyz| ->]; auto. left. by etrans.
Qed.

#[export] Instance ord_le_total : Total (ord_le (K := K)).
Proof.
  intros x y. unfold ord_le. rewrite (cmp_opp x y).
  destruct (cmp x y); simpl; naive_solver.
Qed.

#[export] Instance ord_le_anti_symm : AntiSymm (=) (ord_le (K := K)).
Proof.
  intros x y. rewrite !ord_le_lt_eq. intros [Hxy|Hxy] [Hyx|Hyx]; auto.
  destruct (ord_lt_irrefl x). by apply (ord_lt_transitive x y x).
Qed.
End ord_laws.

(** Lexicographic combination, as derived by [#[derive(Ord)]]. *)
Definition cmp_then (c d : comparison) : comparison :=
  match c with
  | Eq => d
  | _ => c
  end.

Section derived_orders.
Context {A B : Type}.

(** The order a type inherits through an injection. *)
Definition ord_via `{Ord B} (f : A → B) : Ord A := λ x y, cmp (f x) (f y).

Lemma ord_via_laws `{OrdLaws B} (f : A → B) : Inj (=) (=) f → @OrdLaws A (ord_via f).
Proof.
  intros Hf. split; unfold cmp at 1, ord_via.
  - intros x y. split; [by intros ?%(cmp_eq_iff (f x))%(inj f)|].
    intros ->. apply (cmp_refl (f y)).
  - intros x y. apply (cmp_opp (f x)).
  - intros x y z. apply (cmp_lt_trans (f x)).
Qed.

Definition cmp_pair `{Ord A, Ord B} (p q : A * B) : comparison :=
  cmp_then (cmp p.1 q.1) (cmp p.2 q.2).
#[export] Instance pair_ord `{Ord A, Ord B} : Ord (A * B) := cmp_pair.

#[export] Instance pair_ord_laws `{OrdLaws A, OrdLaws B} : OrdLaws (A * B).
Proof.
  split.
  - intros [a b] [a' b']. change (cmp_pair (a, b) (a', b') = Eq ↔ (a, b) = (a', b')).
    unfold cmp_pair, cmp_then; simpl. destruct (cmp a a') eqn:Ha.
    + apply cmp_eq_iff in Ha as ->. rewrite cmp_eq_iff. naive_solver.
    + split; [done|]. intros [= -> _]. by rewrite cmp_refl in Ha.
    + split; [done|]. intros [= -> _]. by rewrite cmp_refl in Ha.
  - intros [a b] [a' b'].
    change (cmp_pair (a', b') (a, b) = CompOpp (cmp_pair (a, b) (a', b'))).
    unfold cmp_pair; simpl. rewrite (cmp_opp a a'), (cmp_opp b b'). by destruct (cmp a a').
  - intros [a b] [a' b'] [a'' b''].
    change (cmp_pair (a, b) (a', b') = Lt → cmp_pair (a', b') (a'', b'') = Lt →
      cmp_pair (a, b) (a'', b'') = Lt).
    unfold cmp_pair, cmp_then; simpl.
    destruct (cmp a a') eqn:Ha; [|destruct (cmp a' a'') eqn:Ha'|done].
    + apply cmp_eq_iff in Ha as ->. destruct (cmp a' a''); [apply cmp_lt_trans|done..].
    + apply cmp_eq_iff in Ha' as ->. by rewrite Ha.
    + by rewrite (cmp_lt_trans a a' a'').
    + done.
Qed.
End derived_orders.

(** ** Lexicographic order on lists (Rust's order on slices and [Vec]) *)
Fixpoint cmp_list {A : Type} `{Ord A} (l1 l2 : list A) : comparison :=
  match l1, l2 with
  | [], [] => Eq
  | [], _ :: _ => Lt
  | _ :: _, [] => Gt
  | x :: l1, y :: l2 => cmp_then (cmp x y) (cmp_list l1 l2)
  end.

#[export] Instance list_ord {A : Type} `{Ord A} : Ord (list A) := cmp_list.

Section list_order.
Context {A : Type} `{OrdLaws A}.

Lemma cmp_list_eq (x y : list A) : cmp_list x y = Eq ↔ x = y.
Proof.
  revert y. induction x as [|a x IH]; intros [|b y]; simpl; [done..|].
  unfold cmp_then. destruct (cmp a b) eqn:Hab.
  - apply cmp_eq_iff in Hab as ->. rewrite IH. naive_solver.
  - split; [done|]. intros [= -> _]. by rewrite cmp_refl in Hab.
  - split; [done|]. intros [= -> _]. by rewrite cmp_refl in Hab.
Qed.

Lemma cmp_list_opp (x y : list A) : cmp_list y x = CompOpp (cmp_list x y).
Proof.
  revert y. induction x as [|a x IH]; intros [|b y]; simpl; [done..|].
  rewrite (cmp_opp a b), IH. by destruct (cmp a b).
Qed.

Lemma cmp_list_lt_trans (x y z : list A) :
  cmp_list x y = Lt → cmp_list y z = Lt → cmp_list x z = Lt.
Proof.
  revert y z. induction x as [|a x IH]; intros [|b y] [|c z]; simpl; try done.
  unfold cmp_then. destruct (cmp a b) eqn:Hab; [|destruct (cmp b c) eqn:Hbc|done].
  - apply cmp_eq_iff in Hab as ->. destruct (cmp b c); [apply IH|done..].
  - apply cmp_eq_iff in Hbc as ->. by rewrite Hab.
  - by rewrite (cmp_lt_trans a b c).
  - done.
Qed.

#[export] Instance list_ord_laws : OrdLaws (list A).
Proof. split; [apply cmp_list_eq|apply cmp_list_opp|apply cmp_list_lt_trans]. Qed.
End list_order.

(** ** Iteration in ascending key order *)
Section iteration.
Context {K : Type} `{OrdLaws K} `{!EqDecision K, !Countable K}.

(** [BTreeSet::iter]. *)
Definition elements_asc (s : gset K) : list K := merge_sort ord_le (elements s).

(** [BTreeMap::keys]. *)
Definition keys_asc {V : Type} (m : gmap K V) : list K := elements_asc (dom m).

(** [BTreeMap::iter]. *)
Definition entries_asc {V : Type} (m : gmap K V) : list (K * V) :=
  omap (λ k, v ← m !! k; Some (k, v)) (keys_asc m).

(** [BTreeMap::values]. *)
Definition values_asc {V : Type} (m : gmap K V) : list V := (entries_asc m).*2.

Lemma elements_asc_perm s : elements_asc s ≡ₚ elements s.
Proof. apply merge_sort_Permutation. Qed.

Lemma elem_of_elements_asc x s : x ∈ elements_asc s ↔ x ∈ s.
Proof. by rewrite elements_asc_perm, elem_of_elements. Qed.

Lemma NoDup_elements_asc s : NoDup (elements_asc s).
Proof. rewrite elements_asc_perm. apply NoDup_elements. Qed.

Lemma sorted_elements_asc s : StronglySorted ord_le (elements_asc s).
Proof. apply StronglySorted_merge_sort; apply _. Qed.

Lemma length_elements_asc s : length (elements_asc s) = size s.
Proof. by rewrite elements_asc_perm. Qed.

Lemma list_to_set_elements_asc s : list_to_set (elements_asc s) = s.
Proof. apply set_eq. intros x. by rewrite elem_of_list_to_set, elem_of_elements_asc. Qed.

(** The ascending enumeration is the only one. *)
Lemma elements_asc_unique s l :
  StronglySorted ord_le l → NoDup l → (∀ x, x ∈ l ↔ x ∈ s) → elements_asc s = l.
Proof.
  intros Hsort Hnd Hl. apply (StronglySorted_unique ord_le);
    [apply sorted_elements_asc|done|].
  apply NoDup_Permutation; [apply NoDup_elements_asc|done|].
  intros x. by rewrite elem_of_elements_asc, Hl.
Qed.

Lemma elem_of_keys_asc {V} x (m : gmap K V) : x ∈ keys_asc m ↔ is_Some (m !! x).
Proof. unfold keys_asc. by rewrite elem_of_elements_asc, elem_of_dom. Qed.

Lemma elem_of_entries_asc {V} k v (m : gmap K V) : (k, v) ∈ entries_asc m ↔ m !! k = Some v.
Proof.
  unfold entries_asc. rewrite list_elem_of_omap. split.
  - intros (k' & _ & Hk). destruct (m !! k') eqn:Hm; simplify_eq/=. done.
  - intros Hm. exists k. rewrite elem_of_keys_asc, Hm. eauto.
Qed.

Lemma omap_keys {V} (m : gmap K V) l :
  (∀ k, k ∈ l → is_Some (m !! k)) → (omap (λ k, v ← m !! k; Some (k, v)) l).*1 = l.
Proof.
  induction l as [|k l IH]; intros Hl; simpl; [done|].
  destruct (Hl k) as [v Hv]; [by left|]. rewrite Hv. simpl.
  f_equal. apply IH. intros k' Hk'. apply Hl. by right.
Qed.

Lemma entries_asc_keys {V} (m : gmap K V) : (entries_asc m).*1 = keys_asc m.
Proof. apply omap_keys. intros k. by rewrite elem_of_keys_asc. Qed.

Lemma NoDup_entries_asc {V} (m : gmap K V) : NoDup (entries_asc m).*1.
Proof. rewrite entries_asc_keys. apply NoDup_elements_asc. Qed.

Lemma list_to_map_entries_asc {V} (m : gmap K V) : list_to_map (entries_asc m) = m.
Proof.
  apply map_eq. intros k. destruct (m !! k) as [v|] eqn:Hm.
  - apply elem_of_list_to_map_1; [apply NoDup_entries_asc|]. by apply elem_of_entries_asc.
  - apply not_elem_of_list_to_map_1. rewrite entries_asc_keys, elem_of_keys_asc, Hm.
    by intros [??].
Qed.

Lemma length_entries_asc {V} (m : gmap K V) : length (entries_asc m) = size m.
Proof.
  rewrite <-(length_fmap fst), entries_asc_keys. unfold keys_asc.
  by rewrite length_elements_asc, size_dom.
Qed.

Lemma elem_of_values_asc {V} v (m : gmap K V) : v ∈ values_asc m ↔ ∃ k, m !! k = Some v.
Proof.
  unfold values_asc. rewrite list_elem_of_fmap. split.
  - intros ([k v'] & -> & Hk%elem_of_entries_asc). eauto.
  - intros [k Hk%elem_of_entries_asc]. by exists (k, v).
Qed.

(** Keys before a split point are smaller than the key at it. *)
Lemma elements_asc_split s l1 x l2 :
  elements_asc s = l1 ++ x :: l2 → ∀ y, y ∈ s → ord_lt y x ↔ y ∈ l1.
Proof.
  intros Heq y Hy. pose proof (sorted_elements_asc s) as Hs.
  pose proof (NoDup_elements_asc s) as Hnd. rewrite Heq in Hs, Hnd.
  apply StronglySorted_app in Hs as (Hcross & _ & Hs2).
  apply StronglySorted_cons in Hs2 as [Hx2 _].
  apply NoDup_app in Hnd as (_ & Hdisj & [Hx _]%NoDup_cons).
  rewrite <-elem_of_elements_asc, Heq, elem_of_app, elem_of_cons in Hy.
  split.
  - intros Hlt. destruct Hy as [?|[-> |Hy2]]; [done|by destruct (ord_lt_irrefl x)|].
    rewrite Forall_forall in Hx2. apply Hx2, ord_le_lt_eq in Hy2 as [?| ->].
    + destruct (ord_lt_irrefl x). by trans y.
    + by destruct (ord_lt_irrefl y).
  - intros Hy1. destruct (proj1 (ord_le_lt_eq y x)) as [?| ->]; [|done|].
    + apply Hcross; [done|]. by left.
    + exfalso. apply (Hdisj x); [done|]. by left.
Qed.
End iteration.

(** ** Loops that update one entry per key

    [for (k, v) in &other { match map.get(k) { .. map.insert(k, ..) } }]: the
    code merges registers, atom maps and sync projections this way.  [g] is the
    body's result for one key, from the entry before and the incoming value. *)
Section upsert.
Context {K : Type} `{OrdLaws K} `{!EqDecision K, !Countable K}.
Context {E V : Type} (g : K → option V → V → result E V).

Definition upsert_step (m : gmap K V) (kv : K * V) : result E (gmap K V) :=
  g kv.1 (m !! kv.1) kv.2 ≫= λ x, Ok (<[kv.1 := x]> m).

Definition upsert_all (m1 m2 : gmap K V) : result E (gmap K V) :=
  try_fold upsert_step m1 (entries_asc m2).

Lemma upsert_fold_Ok m1 l m :
  NoDup l.*1 →
  try_fold upsert_step m1 l = Ok m ↔
  ∀ k, match (list_to_map l : gmap K V) !! k with
       | Some v => ∃ x, g k (m1 !! k) v = Ok x ∧ m !! k = Some x
       | None => m !! k = m1 !! k
       end.
Proof.
  revert m1. induction l as [|[k v] l IH]; intros m1 Hnd; simpl.
  - split; [intros [= ->] k; by rewrite lookup_empty|].
    intros Hm. f_equal. apply map_eq. intros k. specialize (Hm k).
    by rewrite lookup_empty in Hm.
  - apply NoDup_cons in Hnd as [Hk Hnd]. cbn [fst] in Hk. rewrite bind_Ok. split.
    + intros (m1' & Hs & Hf) k'. unfold upsert_step in Hs.
      apply bind_Ok in Hs as (y & Hy & [= <-]). simpl in Hy.
      rewrite IH in Hf by done. specialize (Hf k').
      destruct (decide (k = k')) as [<-|Hne].
      * rewrite not_elem_of_list_to_map_1 in Hf by done.
        rewrite lookup_insert_eq in *. eauto.
      * by rewrite lookup_insert_ne in * by done.
    + intros Hm. pose proof (Hm k) as Hmk. rewrite lookup_insert_eq in Hmk.
      destruct Hmk as (y & Hy & Hmk). exists (<[k:=y]> m1).
      unfold upsert_step; simpl. rewrite Hy. split; [done|]. apply IH; [done|].
      intros k'. destruct (decide (k = k')) as [<-|Hne].
      * rewrite not_elem_of_list_to_map_1 by done. by rewrite lookup_insert_eq.
      * specialize (Hm k'). by rewrite lookup_insert_ne in * by done.
Qed.

Lemma upsert_fold_fail m1 l x :
  NoDup l.*1 →
  failure (try_fold upsert_step m1 l) = Some x ↔
  ∃ l1 k v l2, l = l1 ++ (k, v) :: l2 ∧ failure (g k (m1 !! k) v) = Some x ∧
    ∀ k' v', (k', v') ∈ l1 → is_ok (g k' (m1 !! k') v').
Proof.
  revert m1. induction l as [|[k v] l IH]; intros m1 Hnd; simpl.
  - split; [done|]. by intros ([|??] & ? & ? & ? & ? & _).
  - apply NoDup_cons in Hnd as [Hk Hnd]. cbn [fst] in Hk.
    assert (∀ y k' v', (k', v') ∈ l → (<[k:=y]> m1) !! k' = m1 !! k') as Hother.
    { intros y k' v' Hin. apply lookup_insert_ne. intros ->. apply Hk.
      apply list_elem_of_fmap. by exists (k', v'). }
    rewrite failure_bind. split.
    + intros [Hf|(m & Hm & Hf)].
      * unfold upsert_step in Hf. rewrite failure_bind in Hf.
        destruct Hf as [Hf|(?&?&[=])]. exists [], k, v, l. split_and!; [done..|].
        intros ?? Hin. by apply not_elem_of_nil in Hin.
      * unfold upsert_step in Hm. apply bind_Ok in Hm as (y & Hy & [= <-]). simpl in *.
        apply IH in Hf as (l1 & k1 & v1 & l2 & -> & Hf & Hl1); [|done].
        exists ((k, v) :: l1), k1, v1, l2. split_and!; [done|..].
        -- rewrite (Hother _ k1 v1) in Hf; [done|]. set_solver.
        -- intros k' v' [[= -> ->]|Hin]%elem_of_cons; [by eexists|].
           specialize (Hl1 k' v' Hin). rewrite (Hother _ k' v') in Hl1; [done|]. set_solver.
    + intros ([|[k0 v0] l1] & k1 & v1 & l2 & [= -> ->] & Hf & Hl1).
      * left. unfold upsert_step. rewrite failure_bind. auto.
      * simplify_eq/=. destruct (Hl1 k0 v0) as [y Hy]; [by left|].
        right. exists (<[k0:=y]> m1). unfold upsert_step; simpl. rewrite Hy.
        split; [done|]. apply IH; [done|]. exists l1, k1, v1, l2. split_and!; [done|..].
        -- rewrite (Hother _ k1 v1); [done|]. set_solver.
        -- intros k' v' Hin. rewrite (Hother _ k' v'); [|set_solver]. apply Hl1. by right.
Qed.

Lemma upsert_all_Ok m1 m2 m :
  upsert_all m1 m2 = Ok m ↔
  ∀ k, match m2 !! k with
       | Some v => ∃ x, g k (m1 !! k) v = Ok x ∧ m !! k = Some x
       | None => m !! k = m1 !! k
       end.
Proof.
  unfold upsert_all. rewrite upsert_fold_Ok by apply NoDup_entries_asc.
  by rewrite list_to_map_entries_asc.
Qed.

(** The loop fails at the smallest key whose body fails. *)
Lemma upsert_all_fail m1 m2 x :
  failure (upsert_all m1 m2) = Some x ↔
  ∃ k v, m2 !! k = Some v ∧ failure (g k (m1 !! k) v) = Some x ∧
    ∀ k' v', m2 !! k' = Some v' → ord_lt k' k → is_ok (g k' (m1 !! k') v').
Proof.
  unfold upsert_all. rewrite upsert_fold_fail by apply NoDup_entries_asc.
  assert (∀ l1 k v l2, entries_asc m2 = l1 ++ (k, v) :: l2 →
    ∀ k' v', m2 !! k' = Some v' → ord_lt k' k ↔ (k', v') ∈ l1) as Hsplit.
  { intros l1 k v l2 Hl k' v' Hk'.
    assert (keys_asc m2 = l1.*1 ++ k :: l2.*1) as Hkeys.
    { by rewrite <-entries_asc_keys, Hl, fmap_app. }
    rewrite (elements_asc_split _ _ _ _ Hkeys) by (apply elem_of_dom; eauto).
    rewrite list_elem_of_fmap. split; [|intros; by exists (k', v')].
    intros ([k2 v2] & -> & Hin). simpl in *.
    assert ((k2, v2) ∈ entries_asc m2) as Hin2 by (rewrite Hl; set_solver).
    apply elem_of_entries_asc in Hin2. by simplify_eq. }
  split.
  - intros (l1 & k & v & l2 & Hl & Hf & Hl1). exists k, v. split_and!; [|done|].
    + apply elem_of_entries_asc. rewrite Hl. set_solver.
    + intros k' v' Hk' Hlt. apply Hl1. by apply (Hsplit _ _ _ _ Hl).
  - intros (k & v & Hk & Hf & Hlt).
    apply elem_of_entries_asc, list_elem_of_split in Hk as (l1 & l2 & Hl).
    exists l1, k, v, l2. split_and!; [done..|]. intros k' v' Hin.
    assert (m2 !! k' = Some v') as Hk'.
    { apply elem_of_entries_asc. rewrite Hl. set_solver. }
    apply (Hlt k' v'); [done|]. by apply (Hsplit _ _ _ _ Hl k' v').
Qed.
End upsert.

Section upsert_merge.
Context {K : Type} `{OrdLaws K} `{!EqDecision K, !Countable K}.
Context {E V : Type} (f : K → V → V → result E V).

(** The body of a merge loop: an absent key takes the incoming value. *)
Definition merge_entry (k : K) (current : option V) (incoming : V) : result E V :=
  match current with
  | Some v => f k v incoming
  | None => Ok incoming
  end.

Lemma upsert_merge_Ok m1 m2 m :
  upsert_all merge_entry m1 m2 = Ok m ↔
  ∀ k, match m1 !! k, m2 !! k with
       | Some v1, Some v2 => ∃ v, f k v1 v2 = Ok v ∧ m !! k = Some v
       | Some v, None | None, Some v => m !! k = Some v
       | None, None => m !! k = None
       end.
Proof.
  rewrite upsert_all_Ok. apply forall_proper. intros k. unfold merge_entry.
  destruct (m1 !! k), (m2 !! k); simpl; naive_solver.
Qed.

Lemma upsert_merge_fail m1 m2 x :
  failure (upsert_all merge_entry m1 m2) = Some x ↔
  ∃ k v1 v2, m1 !! k = Some v1 ∧ m2 !! k = Some v2 ∧ failure (f k v1 v2) = Some x ∧
    ∀ k' v1' v2', m1 !! k' = Some v1' → m2 !! k' = Some v2' → ord_lt k' k →
      is_ok (f k' v1' v2').
Proof.
  rewrite upsert_all_fail. unfold merge_entry. split.
  - intros (k & v2 & Hk2 & Hf & Hlt). destruct (m1 !! k) as [v1|] eqn:Hk1; [|done].
    exists k, v1, v2. split_and!; [done..|]. intros k' v1' v2' Hk1' Hk2' Hk'.
    specialize (Hlt k' v2' Hk2' Hk'). by rewrite Hk1' in Hlt.
  - intros (k & v1 & v2 & Hk1 & Hk2 & Hf & Hlt). exists k, v2. rewrite Hk1.
    split_and!; [done..|]. intros k' v2' Hk2' Hk'.
    destruct (m1 !! k') eqn:Hk1'; [eauto|by eexists].
Qed.

(** Merging in either direction gives the same outcome, errors included. *)
Lemma upsert_merge_comm m1 m2 :
  (∀ k v1 v2, m1 !! k = Some v1 → m2 !! k = Some v2 → f k v1 v2 = f k v2 v1) →
  upsert_all merge_entry m1 m2 = upsert_all merge_entry m2 m1.
Proof.
  intros Hcomm. apply result_eq_failure.
  - intros m. rewrite !upsert_merge_Ok. apply forall_proper. intros k.
    destruct (m1 !! k) eqn:Hk1, (m2 !! k) eqn:Hk2; simpl; [|done..].
    by rewrite (Hcomm k).
  - intros x. rewrite !upsert_merge_fail. split.
    + intros (k & v1 & v2 & Hk1 & Hk2 & Hf & Hlt). exists k, v2, v1.
      rewrite (Hcomm k) in Hf by done. split_and!; [done..|].
      intros k' v2' v1' Hk2' Hk1' Hk'. rewrite <-(Hcomm k') by done. eauto.
    + intros (k & v2 & v1 & Hk2 & Hk1 & Hf & Hlt). exists k, v1, v2.
      rewrite (Hcomm k) by done. split_and!; [done..|].
      intros k' v1' v2' Hk1' Hk2' Hk'. rewrite (Hcomm k') by done. eauto.
Qed.
End upsert_merge.
