(* ===== verification/Bytes.v ===== *)
(** * Bytes, fixed-width integers and byte arrays

    [u8] is the inductive [byte]; [u16], [u32], [u64] and [usize] are [N] with
    their bounds written out where the code checks or wraps.  The host is
    64-bit: [usize_max = u64_max]. *)
From stdpp Require Import base tactics option list gmap sorting numbers.
From Stdlib Require Import Strings.Byte Lia.
From Stdlib Require Strings.String.
Export String.StringSyntax.
From S2P Require Import Prelude BTree.
Local Open Scope N_scope.

#[export] Instance byte_eq_dec : EqDecision byte := Byte.byte_eq_dec.
#[export] Program Instance byte_countable : Countable byte := {|
  encode b := encode (Byte.to_N b);
  decode p := n ← decode p; Byte.of_N n;
|}.
Next Obligation. intros b; cbv beta. rewrite decode_encode; simpl. apply Byte.of_to_N. Qed.

#[export] Instance N_ord : Ord N := N.compare.
#[export] Instance N_ord_laws : OrdLaws N.
Proof.
  split; unfold cmp, N_ord.
  - apply N.compare_eq_iff.
  - intros x y. apply N.compare_antisym.
  - intros x y z. rewrite !N.compare_lt_iff. lia.
Qed.

#[export] Instance byte_to_N_inj : Inj (=) (=) Byte.to_N.
Proof.
  intros x y Heq. pose proof (Byte.of_to_N x) as Hx.
  rewrite Heq, Byte.of_to_N in Hx. congruence.
Qed.

#[export] Instance byte_ord : Ord byte := ord_via Byte.to_N.
#[export] Instance byte_ord_laws : OrdLaws byte := ord_via_laws Byte.to_N _.

(** ASCII literals, Rust's [b"..."]. *)
Definition b_ (s : String.string) : list byte := String.list_byte_of_string s.

Arguments b_ _%_string_scope.

Definition u16_max : N := 2 ^ 16 - 1.
Definition u32_max : N := 2 ^ 32 - 1.
Definition u64_max : N := 2 ^ 64 - 1.
Definition usize_max : N := u64_max.
Definition isize_max : N := 2 ^ 63 - 1.

Lemma isize_usize : isize_max < usize_max.
Proof. reflexivity. Qed.

(** Length of a slice as a [usize]. *)
Definition len {A : Type} (l : list A) : N := N.of_nat (length l).

(** [u64::try_from(usize)] and [usize::try_from(u64)]. *)
Definition u64_try_from (n : N) : option N := if decide (n ≤ u64_max) then Some n else None.
Definition usize_try_from (n : N) : option N := if decide (n ≤ usize_max) then Some n else None.

(** [usize::checked_add], [u64::checked_add]. *)
Definition usize_checked_add (x y : N) : option N :=
  if decide (x + y ≤ usize_max) then Some (x + y) else None.
Definition u64_checked_add (x y : N) : option N :=
  if decide (x + y ≤ u64_max) then Some (x + y) else None.

Lemma len_app {A} (l l' : list A) : len (l ++ l') = len l + len l'.
Proof. unfold len. rewrite length_app. lia. Qed.

Lemma len_nil_inv {A} (l : list A) : len l = 0 → l = [].
Proof. destruct l; [done|]. unfold len. cbn. lia. Qed.

(** ** Slices *)

(** [bytes.get(start..finish)]. *)
Definition get_range (bytes : list byte) (start finish : N) : option (list byte) :=
  if decide (start ≤ finish ∧ finish ≤ len bytes) then
    Some (take (N.to_nat (finish - start)) (drop (N.to_nat start) bytes))
  else None.

(** [bytes[start..finish]] and [bytes[i]] panic out of range. *)
Definition slice {E : Type} (bytes : list byte) (start finish : N) : result E (list byte) :=
  expect (get_range bytes start finish).
Definition index_at {E : Type} (bytes : list byte) (i : N) : result E byte :=
  expect (bytes !! N.to_nat i).

(** The slice between a prefix and a suffix. *)
Lemma get_range_mid (l a b c : list byte) (start finish : N) :
  l = a ++ b ++ c → start = len a → finish = len a + len b → get_range l start finish = Some b.
Proof.
  intros -> -> ->. unfold get_range. rewrite decide_True by (rewrite !len_app; lia).
  f_equal. replace (N.to_nat (len a)) with (length a) by (unfold len; lia).
  rewrite drop_app_length. replace (N.to_nat _) with (length b) by (unfold len; lia).
  apply take_app_length.
Qed.

Lemma slice_mid {E} (l a b c : list byte) (start finish : N) :
  l = a ++ b ++ c → start = len a → finish = len a + len b → slice (E := E) l start finish = Ok b.
Proof. intros. unfold slice. by rewrite (get_range_mid l a b c). Qed.

Lemma index_at_mid {E} (l a c : list byte) x (i : N) :
  l = a ++ x :: c → i = len a → index_at (E := E) l i = Ok x.
Proof.
  intros -> ->. unfold index_at, len. rewrite Nat2N.id. by rewrite list_lookup_middle.
Qed.

(** A list at least [n] long has a prefix of length [n]. *)
Lemma split_len {A} (l : list A) (n : N) : n ≤ len l → ∃ a b, l = a ++ b ∧ len a = n.
Proof.
  intros Hn. exists (take (N.to_nat n) l), (drop (N.to_nat n) l). rewrite take_drop.
  split; [done|]. unfold len in *. rewrite length_take. lia.
Qed.

(** ** Big-endian encodings ([to_be_bytes] and [from_be_bytes]) *)
Definition byte_of_N (n : N) : byte := default x00 (Byte.of_N (n mod 256)).

Fixpoint le_bytes (width : nat) (n : N) : list byte :=
  match width with
  | O => []
  | S w => byte_of_N n :: le_bytes w (n / 256)
  end.

Fixpoint le_value (l : list byte) : N :=
  match l with
  | [] => 0
  | b :: l => Byte.to_N b + 256 * le_value l
  end.

Definition be_bytes (width : nat) (n : N) : list byte := reverse (le_bytes width n).
Definition be_value (l : list byte) : N := le_value (reverse l).

Lemma byte_to_N_bound b : Byte.to_N b < 256.
Proof. pose proof (Byte.to_N_bounded b). lia. Qed.

Lemma byte_of_N_to_N n : Byte.to_N (byte_of_N n) = n mod 256.
Proof.
  unfold byte_of_N. destruct (Byte.of_N (n mod 256)) as [b|] eqn:Hb; simpl.
  - by apply Byte.to_of_N in Hb.
  - apply Byte.of_N_None_iff in Hb. pose proof (N.mod_lt n 256). lia.
Qed.

Lemma byte_to_N_of_N b : byte_of_N (Byte.to_N b) = b.
Proof.
  unfold byte_of_N. rewrite N.mod_small by apply byte_to_N_bound.
  by rewrite Byte.of_to_N.
Qed.

Lemma length_le_bytes w n : length (le_bytes w n) = w.
Proof. revert n. induction w; intros; simpl; congruence. Qed.

Lemma le_value_bytes w n : le_value (le_bytes w n) = n mod 256 ^ N.of_nat w.
Proof.
  revert n. induction w as [|w IH]; intros n; [by rewrite N.mod_1_r|].
  cbn [le_bytes le_value]. rewrite IH, byte_of_N_to_N, Nat2N.inj_succ, N.pow_succ_r'.
  by rewrite N.Div0.mod_mul_r.
Qed.

Lemma le_value_bound l : le_value l < 256 ^ len l.
Proof.
  unfold len. induction l as [|b l IH]; [done|].
  cbn [le_value length]. rewrite Nat2N.inj_succ, N.pow_succ_r'.
  pose proof (byte_to_N_bound b). lia.
Qed.

Lemma le_bytes_value l : le_bytes (length l) (le_value l) = l.
Proof.
  induction l as [|b l IH]; [done|]. cbn [le_value length le_bytes]. f_equal.
  - unfold byte_of_N. replace ((Byte.to_N b + 256 * le_value l) mod 256) with (Byte.to_N b mod 256).
    + apply byte_to_N_of_N.
    + by rewrite N.mul_comm, N.Div0.mod_add.
  - rewrite N.mul_comm, N.div_add by done.
    by rewrite N.div_small, N.add_0_l by apply byte_to_N_bound.
Qed.

Lemma length_be_bytes w n : length (be_bytes w n) = w.
Proof. unfold be_bytes. by rewrite length_reverse, length_le_bytes. Qed.

Lemma be_value_bytes w n : n < 256 ^ N.of_nat w → be_value (be_bytes w n) = n.
Proof.
  intros Hn. unfold be_value, be_bytes. rewrite reverse_involutive, le_value_bytes.
  by apply N.mod_small.
Qed.

Lemma be_bytes_value l : be_bytes (length l) (be_value l) = l.
Proof.
  unfold be_value, be_bytes. rewrite <-(length_reverse l), le_bytes_value.
  apply reverse_involutive.
Qed.

Lemma be_value_bound l : be_value l < 256 ^ len l.
Proof.
  unfold be_value. pose proof (le_value_bound (reverse l)) as Hl.
  unfold len in *. by rewrite length_reverse in Hl.
Qed.

(** ** Fixed-size arrays [[u8; n]] *)
Definition byte_array (n : nat) : Type := { l : list byte | bool_decide (length l = n) }.

Definition array_bytes {n : nat} (a : byte_array n) : list byte := proj1_sig a.

(** [<[u8; n]>::try_from(slice)]. *)
Definition try_into_array (n : nat) (l : list byte) : option (byte_array n) :=
  match decide (length l = n) with
  | left Hl => Some (l ↾ bool_decide_pack _ Hl)
  | right _ => None
  end.

Lemma array_bytes_inj {n} (a b : byte_array n) : array_bytes a = array_bytes b → a = b.
Proof. apply (sig_eq_pi _). Qed.

Lemma length_array_bytes {n} (a : byte_array n) : length (array_bytes a) = n.
Proof. exact (bool_decide_unpack _ (proj2_sig a)). Qed.

Lemma try_into_array_Some n l a : try_into_array n l = Some a ↔ array_bytes a = l.
Proof.
  unfold try_into_array. destruct (decide (length l = n)) as [Hl|Hl]; split.
  - by intros [= <-].
  - intros Ha. f_equal. by apply array_bytes_inj.
  - done.
  - intros <-. by destruct Hl; rewrite length_array_bytes.
Qed.

Lemma try_into_array_bytes {n} (a : byte_array n) : try_into_array n (array_bytes a) = Some a.
Proof. by apply try_into_array_Some. Qed.

Lemma try_into_array_is_Some n l : length l = n → is_Some (try_into_array n l).
Proof. intros Hl. unfold try_into_array. destruct (decide _); [by eexists|done]. Qed.

#[export] Instance byte_array_eq_dec n : EqDecision (byte_array n).
Proof.
  refine (λ a b, cast_if (decide (array_bytes a = array_bytes b))).
  - abstract by apply array_bytes_inj.
  - abstract congruence.
Defined.

#[export] Program Instance byte_array_countable n : Countable (byte_array n) := {|
  encode a := encode (array_bytes a);
  decode p := l ← decode p; try_into_array n l;
|}.
Next Obligation. intros n a; cbv beta. rewrite decode_encode; simpl. apply try_into_array_bytes. Qed.

#[export] Instance array_bytes_inj' n : Inj (=) (=) (@array_bytes n).
Proof. intros a b. apply array_bytes_inj. Qed.

#[export] Instance byte_array_ord n : Ord (byte_array n) := ord_via array_bytes.
#[export] Instance byte_array_ord_laws n : OrdLaws (byte_array n) := ord_via_laws array_bytes _.

Lemma be_bytes_1 n : be_bytes 1 n = [byte_of_N n].
Proof. reflexivity. Qed.

Lemma len_be_bytes w n : len (be_bytes w n) = N.of_nat w.
Proof. unfold len. by rewrite length_be_bytes. Qed.

Lemma len_array {n} (a : byte_array n) : len (array_bytes a) = N.of_nat n.
Proof. unfold len. by rewrite length_array_bytes. Qed.

Lemma app_inj_len {A} (a b c d : list A) : len a = len c → a ++ b = c ++ d → a = c ∧ b = d.
Proof. intros Hl. apply app_inj_1. unfold len in Hl. lia. Qed.

Lemma be_bytes_inj w m n :
  m < 256 ^ N.of_nat w → n < 256 ^ N.of_nat w → be_bytes w m = be_bytes w n → m = n.
Proof. intros Hm Hn Heq. rewrite <-(be_value_bytes w m), <-(be_value_bytes w n) by done. by f_equal. Qed.
