(* ===== verification/Text.v ===== *)
(** * Text

    What the repository uses of [str] on UTF-8 bytes: validity, trimming,
    prefixes and suffixes, decimal and hexadecimal digits. *)
From Stdlib Require Import Lia NArith Strings.Byte.
From stdpp Require Import base tactics option list numbers.
From S2P Require Import Prelude BTree Bytes.
Local Open Scope N_scope.

(** [str::from_utf8(bytes).is_ok()]. *)
Definition in_range (lo hi n : N) : bool := (lo <=? n) && (n <=? hi).
Definition continuation (b : byte) : bool := in_range 0x80 0xBF (Byte.to_N b).

(** The second byte a three- or four-byte sequence allows. *)
Definition second_of_3 (n : N) (b : byte) : bool :=
  let m := Byte.to_N b in
  if n =? 0xE0 then in_range 0xA0 0xBF m
  else if n =? 0xED then in_range 0x80 0x9F m
  else in_range 0x80 0xBF m.
Definition second_of_4 (n : N) (b : byte) : bool :=
  let m := Byte.to_N b in
  if n =? 0xF0 then in_range 0x90 0xBF m
  else if n =? 0xF4 then in_range 0x80 0x8F m
  else in_range 0x80 0xBF m.

Fixpoint utf8_valid (l : list byte) : bool :=
  match l with
  | [] => true
  | b :: l0 =>
      let n := Byte.to_N b in
      if n <? 0x80 then utf8_valid l0 else
      match l0 with
      | [] => false
      | b1 :: l1 =>
          if in_range 0xC2 0xDF n then continuation b1 && utf8_valid l1 else
          match l1 with
          | [] => false
          | b2 :: l2 =>
              if in_range 0xE0 0xEF n then second_of_3 n b1 && continuation b2 && utf8_valid l2 else
              match l2 with
              | [] => false
              | b3 :: l3 =>
                  in_range 0xF0 0xF4 n && second_of_4 n b1 && continuation b2 && continuation b3 &&
                  utf8_valid l3
              end
          end
      end
  end.

(** [text.trim_end_matches(c)], for an ASCII [c]. *)
Fixpoint trim_end (c : byte) (l : list byte) : list byte :=
  match l with
  | [] => []
  | b :: l =>
      match trim_end c l with
      | [] => if decide (b = c) then [] else [b]
      | l => b :: l
      end
  end.

(** [text.strip_prefix(p)] and [text.strip_suffix(p)]. *)
Fixpoint strip_prefix (p l : list byte) : option (list byte) :=
  match p, l with
  | [], _ => Some l
  | c :: p, b :: l => if decide (c = b) then strip_prefix p l else None
  | _, [] => None
  end.
Definition strip_suffix (p l : list byte) : option (list byte) :=
  reverse <$> strip_prefix (reverse p) (reverse l).

(** [byte.is_ascii_digit()]. *)
Definition is_ascii_digit (b : byte) : bool := in_range 48 57 (Byte.to_N b).

(** The decimal digits of [n], padded with zeros to [width]. *)
Fixpoint decimal (width : nat) (n : N) : list byte :=
  match width with
  | O => []
  | S width => decimal width (n / 10) ++ [byte_of_N (48 + n mod 10)]
  end.

(** [{n}]: the digits of a 64-bit integer without leading zeros. *)
Fixpoint strip_zeros (digits : list byte) : list byte :=
  match digits with
  | x30 :: digits => strip_zeros digits
  | digits => digits
  end.
Definition decimal_text (n : N) : list byte :=
  match strip_zeros (decimal 20 n) with
  | [] => [x30]
  | digits => digits
  end.

(** [digits.parse::<u64>()] of decimal digits. *)
Definition decimal_value (l : list byte) : N :=
  foldl (λ n b, 10 * n + (Byte.to_N b - 48)) 0 l.
Definition parse_u64 (l : list byte) : option N :=
  let n := decimal_value l in if decide (n ≤ u64_max) then Some n else None.

(** *** Text lemmas *)
Lemma strip_prefix_Some p l r : strip_prefix p l = Some r ↔ l = p ++ r.
Proof.
  revert l. induction p as [|c p IH]; intros l; cbn; [naive_solver|].
  destruct l as [|b l]; [naive_solver|]. case_decide as Hc; [subst; rewrite IH|]; naive_solver.
Qed.

Lemma strip_suffix_Some p l r : strip_suffix p l = Some r ↔ l = r ++ p.
Proof.
  unfold strip_suffix. rewrite fmap_Some. setoid_rewrite strip_prefix_Some. split.
  - intros (x & Hl & ->). rewrite <-(reverse_involutive l), Hl, reverse_app. by rewrite !reverse_involutive.
  - intros ->. exists (reverse r). by rewrite reverse_app, !reverse_involutive.
Qed.

Lemma length_decimal w n : length (decimal w n) = w.
Proof. revert n. induction w as [|w IH]; intros n; cbn; [done|]. rewrite length_app, IH. cbn. lia. Qed.

Lemma digit_byte n : Byte.to_N (byte_of_N (48 + n mod 10)) = 48 + n mod 10.
Proof.
  rewrite byte_of_N_to_N. apply N.mod_small. pose proof (N.mod_lt n 10). lia.
Qed.

Lemma decimal_digits w n b : b ∈ decimal w n → is_ascii_digit b = true.
Proof.
  revert n. induction w as [|w IH]; intros n; cbn; [by intros ?%not_elem_of_nil|].
  intros [Hb|Hb]%elem_of_app; [by eapply IH|]. apply list_elem_of_singleton in Hb as ->.
  unfold is_ascii_digit, in_range. rewrite digit_byte.
  assert (n mod 10 < 10) as Hd by (by apply N.mod_lt). revert Hd.
  generalize (n mod 10). intros d Hd. apply andb_true_iff. split; apply N.leb_le; lia.
Qed.

Lemma decimal_value_decimal w n : n < 10 ^ N.of_nat w → decimal_value (decimal w n) = n.
Proof.
  revert n. induction w as [|w IH]; intros n Hn; cbn [decimal].
  - cbn in Hn. cbn. lia.
  - rewrite Nat2N.inj_succ, N.pow_succ_r' in Hn. unfold decimal_value. rewrite foldl_app. cbn.
    fold (decimal_value (decimal w (n / 10))). rewrite IH, digit_byte.
    + replace (48 + n mod 10 - 48) with (n mod 10) by (generalize (n mod 10); lia).
      symmetry. apply N.div_mod'.
    + apply N.Div0.div_lt_upper_bound. lia.
Qed.

Lemma utf8_ascii l : (∀ b, b ∈ l → Byte.to_N b < 0x80) → utf8_valid l = true.
Proof.
  induction l as [|b l IH]; intros Hl; [done|]. cbn.
  assert (Byte.to_N b < 0x80) as Hb by (apply Hl; left).
  apply N.ltb_lt in Hb. rewrite Hb. apply IH. intros b' Hb'. apply Hl. by right.
Qed.

(** Text after text is text. *)
Lemma utf8_app_n n a l :
  (length a ≤ n)%nat → utf8_valid a = true → utf8_valid l = true → utf8_valid (a ++ l) = true.
Proof.
  revert a. induction n as [|n IH]; intros [|b a] Hn Ha Hl; cbn [length] in Hn; try done; [lia|].
  cbn [app utf8_valid] in *. destruct (Byte.to_N b <? 128); [apply IH; [lia|done..]|].
  destruct a as [|b1 a]; [done|]. cbn [app length] in *. destruct (in_range 194 223 _).
  { apply andb_true_iff in Ha as [-> Ha]. apply IH; [lia|done..]. }
  destruct a as [|b2 a]; [done|]. cbn [app length] in *. destruct (in_range 224 239 _).
  { apply andb_true_iff in Ha as [-> Ha]. apply IH; [lia|done..]. }
  destruct a as [|b3 a]; [done|]. cbn [app length] in *. apply andb_true_iff in Ha as [-> Ha]. apply IH; [lia|done..].
Qed.

Lemma utf8_app a l : utf8_valid a = true → utf8_valid l = true → utf8_valid (a ++ l) = true.
Proof. by apply (utf8_app_n (length a)). Qed.

Lemma trim_end_other c l b : b ≠ c → trim_end c (l ++ [b]) = l ++ [b].
Proof.
  intros Hb. induction l as [|x l IH]; cbn; [by rewrite decide_False|].
  rewrite IH. by destruct l.
Qed.

Lemma trim_end_one c l b : b ≠ c → trim_end c (l ++ [b; c]) = l ++ [b].
Proof.
  intros Hb. induction l as [|x l IH]; cbn.
  - rewrite decide_True by done. by rewrite decide_False.
  - rewrite IH. by destruct l.
Qed.

(** [text.starts_with(p)]. *)
Definition starts_with (p l : list byte) : bool :=
  match strip_prefix p l with Some _ => true | None => false end.

Lemma starts_with_app p l : starts_with p (p ++ l) = true.
Proof. unfold starts_with. by rewrite (proj2 (strip_prefix_Some p (p ++ l) l) eq_refl). Qed.

(** [text.is_ascii()]. *)
Definition is_ascii (l : list byte) : bool := forallb (λ b, Byte.to_N b <? 0x80) l.

Lemma utf8_is_ascii l : is_ascii l = true → utf8_valid l = true.
Proof.
  unfold is_ascii. rewrite forallb_forall. intros Hl. apply utf8_ascii. intros b Hb.
  by apply N.ltb_lt, Hl, list_elem_of_In.
Qed.

(** A lower-case hexadecimal digit, and [{byte:02x}] of each byte. *)
Definition hex_digit (n : N) : byte := byte_of_N (if n <? 10 then 48 + n else 87 + n).
Definition hex (l : list byte) : list byte :=
  l ≫= λ b, [hex_digit (Byte.to_N b / 16); hex_digit (Byte.to_N b mod 16)].

(** [{n:0width$x}], for an [n] that fits. *)
Fixpoint hex_padded (width : nat) (n : N) : list byte :=
  match width with
  | O => []
  | S width => hex_padded width (n / 16) ++ [hex_digit (n mod 16)]
  end.

Lemma hex_digit_inj x y : x < 16 → y < 16 → hex_digit x = hex_digit y → x = y.
Proof.
  intros Hx Hy Heq. apply (f_equal Byte.to_N) in Heq. unfold hex_digit in Heq.
  rewrite !byte_of_N_to_N in Heq.
  destruct (N.ltb_spec x 10), (N.ltb_spec y 10); rewrite !N.mod_small in Heq; lia.
Qed.

Lemma hex_inj l l' : hex l = hex l' → l = l'.
Proof.
  revert l'. induction l as [|b l IH]; intros [|b' l'] Heq; try done. unfold hex in Heq. cbn in Heq.
  injection Heq as H1 H2 H3. f_equal; [|by apply IH].
  assert (∀ c, Byte.to_N c < 256) as Hb by (intros c; pose proof (Byte.to_N_bounded c); lia).
  apply hex_digit_inj in H1; [|by apply N.Div0.div_lt_upper_bound; apply Hb..].
  apply hex_digit_inj in H2; [|by apply N.mod_lt..].
  apply byte_to_N_inj. rewrite (N.div_mod' (Byte.to_N b) 16), (N.div_mod' (Byte.to_N b') 16). congruence.
Qed.

Lemma length_hex_padded w n : length (hex_padded w n) = w.
Proof. revert n. induction w as [|w IH]; intros n; cbn; [done|]. rewrite length_app, IH. cbn. lia. Qed.

Lemma hex_padded_inj w x y :
  x < 16 ^ N.of_nat w → y < 16 ^ N.of_nat w → hex_padded w x = hex_padded w y → x = y.
Proof.
  revert x y. induction w as [|w IH]; intros x y Hx Hy; [cbn in *; lia|].
  rewrite Nat2N.inj_succ, N.pow_succ_r' in Hx, Hy. cbn [hex_padded]. intros [Hd Hl]%app_inj_2; [|done].
  injection Hl as Hl. apply hex_digit_inj in Hl; [|by apply N.mod_lt..].
  apply IH in Hd; [|apply N.Div0.div_lt_upper_bound; lia..].
  rewrite (N.div_mod' x 16), (N.div_mod' y 16). congruence.
Qed.

Lemma hex_digit_ascii n : n < 16 → Byte.to_N (hex_digit n) < 0x80.
Proof.
  intros Hn. unfold hex_digit. rewrite byte_of_N_to_N.
  destruct (N.ltb_spec n 10); rewrite N.mod_small; lia.
Qed.

Lemma hex_padded_ascii w n : is_ascii (hex_padded w n) = true.
Proof.
  revert n. induction w as [|w IH]; intros n; [done|]. cbn [hex_padded].
  unfold is_ascii. rewrite forallb_app. apply andb_true_iff. split; [apply IH|].
  cbn. rewrite andb_true_r. apply N.ltb_lt, hex_digit_ascii. by apply N.mod_lt.
Qed.
