(* ===== verification/Id.v ===== *)
(** * Logical identities (crates/apc-core/src/id.rs)

    The macro [opaque_id!] declares one struct per identity; here one record,
    indexed by the identity's kind so that kinds do not interchange. *)
From stdpp Require Import base tactics option list gmap.
From Stdlib Require Import Strings.Byte NArith.
From S2P Require Import Prelude BTree Bytes.

Definition LOGICAL_ID_BYTES : nat := 32.

Inductive id_kind : Set :=
  | ContinuumKind
  | AtomKind
  | ReplicaKind
  | RevisionKind
  | WorkingEpochKind
  | PublicationKind.

(** [pub struct $name([u8; LOGICAL_ID_BYTES])], with [from_bytes],
    [as_bytes] and [into_bytes]. *)
Record opaque_id (kind : id_kind) : Type := from_bytes {
  as_bytes : byte_array LOGICAL_ID_BYTES;
}.
Arguments from_bytes {kind} _.
Arguments as_bytes {kind} _.

Definition ContinuumId : Type := opaque_id ContinuumKind.
Definition AtomId : Type := opaque_id AtomKind.
Definition ReplicaId : Type := opaque_id ReplicaKind.
Definition RevisionId : Type := opaque_id RevisionKind.
Definition WorkingEpochId : Type := opaque_id WorkingEpochKind.

#[export] Instance opaque_id_eq_dec kind : EqDecision (opaque_id kind).
Proof. solve_decision. Defined.

#[export] Program Instance opaque_id_countable kind : Countable (opaque_id kind) :=
  inj_countable' as_bytes from_bytes _.
Next Obligation. by intros kind []. Qed.

#[export] Instance as_bytes_inj kind : Inj (=) (=) (@as_bytes kind).
Proof. by intros [] [] ?; simplify_eq/=. Qed.

(** [#[derive(PartialOrd, Ord)]]: unsigned lexicographic byte order. *)
#[export] Instance opaque_id_ord kind : Ord (opaque_id kind) := ord_via as_bytes.
#[export] Instance opaque_id_ord_laws kind : OrdLaws (opaque_id kind) := ord_via_laws as_bytes _.

(** The identity's bytes as a slice. *)
Definition id_slice {kind} (x : opaque_id kind) : list byte := array_bytes (as_bytes x).

(** [Id::from_bytes(slice.try_into().expect(..))]. *)
Definition id_try_from {kind} (l : list byte) : option (opaque_id kind) :=
  from_bytes <$> try_into_array LOGICAL_ID_BYTES l.

Lemma length_id_slice {kind} (x : opaque_id kind) : length (id_slice x) = LOGICAL_ID_BYTES.
Proof. apply length_array_bytes. Qed.

Lemma len_id_slice {kind} (x : opaque_id kind) : len (id_slice x) = 32%N.
Proof. unfold len. by rewrite length_id_slice. Qed.

Lemma id_slice_inj {kind} (x y : opaque_id kind) : id_slice x = id_slice y → x = y.
Proof. destruct x, y. unfold id_slice; simpl. by intros ->%array_bytes_inj. Qed.

Lemma id_try_from_slice {kind} (x : opaque_id kind) : id_try_from (id_slice x) = Some x.
Proof. destruct x. unfold id_try_from, id_slice; simpl. by rewrite try_into_array_bytes. Qed.

Lemma id_try_from_is_Some {kind} l :
  length l = LOGICAL_ID_BYTES → is_Some (@id_try_from kind l).
Proof.
  intros Hl. destruct (try_into_array_is_Some _ _ Hl) as [a Ha].
  unfold id_try_from. rewrite Ha. by eexists.
Qed.

(** The identity whose last eight bytes hold [n] in big-endian order, as the
    code's tests build them. *)
Definition numbered_bytes (n : N) : byte_array LOGICAL_ID_BYTES :=
  be_bytes LOGICAL_ID_BYTES n ↾ bool_decide_pack _ (length_be_bytes LOGICAL_ID_BYTES n).
Definition numbered {kind} (n : N) : opaque_id kind := from_bytes (numbered_bytes n).
Definition rid (n : N) : RevisionId := numbered n.
Definition wid (n : N) : WorkingEpochId := numbered n.
Definition aid (n : N) : AtomId := numbered n.
Definition cid (n : N) : ContinuumId := numbered n.
