(* ===== verification/Error.v ===== *)
(** * Core errors (crates/apc-core/src/error.rs) *)
From stdpp Require Import base tactics decidable.
From S2P Require Import Id.

Inductive CoreError : Type :=
  | DuplicateRevisionConflict (revision_id : RevisionId)
  | RevisionAlreadyKnown (revision_id : RevisionId)
  | UnknownRevision (revision_id : RevisionId)
  | MissingParent (revision_id parent_id : RevisionId)
  | CausalCycle (revision_id : RevisionId)
  | DuplicateAtomId (atom_id : AtomId)
  | ContinuumMismatch (left right : ContinuumId)
  | WorkingEpochAlreadyOpen (epoch_id : WorkingEpochId)
  | NoWorkingEpoch
  | DirtyObservationRequiresSeal
  | UnexpectedPreObservationRevision (revision_id : RevisionId)
  | InvalidWorkingSnapshot
  | UnknownLocalRevision (revision_id : RevisionId)
  | FinalizedStatementConflict (revision_id : RevisionId)
  | HandoffRequiresFinalizedRevision (revision_id : RevisionId)
  | InvalidFinalizationSnapshot.

#[export] Instance CoreError_eq_dec : EqDecision CoreError.
Proof. solve_decision. Defined.
