(* ===== verification/Worklist.v ===== *)
(** * Depth-first worklists

    The code walks causal parents with one loop shape:
    [while let Some(id) = stack.pop() { .. if !seen.insert(id) { continue; } ..
    stack.extend(parents) }].  It occurs in [ScalarRegister::frontier_ids],
    [ScalarRegister::is_ancestor], [FinalizationLedger::handoff] and
    [dependency_closure].  The stack's top is the head of the list, so
    [extend] pushes the ascending parents in reverse.

    Fuel bounds the number of pops; [worklist_total] shows that the number of
    entries initially on the stack plus the number of edges is enough. *)
From stdpp Require Import base tactics option list gmap relations sorting.
From Stdlib Require Import Lia.
From S2P Require Import Prelude BTree.

Section worklist.
Context {K R : Type} `{OrdLaws K} `{!EqDecision K, !Countable K}.

(** [stop] is a test made on every popped identity before it is marked,
    [missing] what happens when a marked identity has no entry. *)
Context (stop missing : K → option R) (graph : gmap K (gset K)).

Fixpoint worklist (fuel : nat) (stack : list K) (seen : gset K) : option (R + gset K) :=
  match stack with
  | [] => Some (inr seen)
  | id :: rest =>
      match fuel with
      | O => None
      | S fuel =>
          match stop id with
          | Some r => Some (inl r)
          | None =>
              if decide (id ∈ seen) then worklist fuel rest seen
              else
                match graph !! id with
                | Some next =>
                    worklist fuel (reverse (elements_asc next) ++ rest) ({[id]} ∪ seen)
                | None =>
                    match missing id with
                    | Some r => Some (inl r)
                    | None => worklist fuel rest ({[id]} ∪ seen)
                    end
                end
          end
      end
  end.

(** [y] is a direct successor of [x]. *)
Definition edge (x y : K) : Prop := ∃ next, graph !! x = Some next ∧ y ∈ next.

Definition weight (seen : gset K) (l : list (K * gset K)) : nat :=
  sum_list ((λ e, if decide (e.1 ∈ seen) then 0 else size e.2) <$> l).

Definition worklist_fuel (stack : list K) : nat :=
  length stack + weight ∅ (map_to_list graph).

Lemma weight_seen id next seen l :
  NoDup l.*1 → (id, next) ∈ l → id ∉ seen →
  weight ({[id]} ∪ seen) l + size next = weight seen l.
Proof.
  unfold weight. induction l as [|[k s] l IH]; csimpl;
    intros Hnd Hin Hseen; [by apply not_elem_of_nil in Hin|].
  apply NoDup_cons in Hnd as [Hk Hnd]. apply elem_of_cons in Hin as [[= <- <-]|Hin].
  - rewrite decide_True, decide_False by set_solver.
    assert (((λ e : K * gset K, if decide (e.1 ∈ {[id]} ∪ seen) then 0 else size e.2) <$> l) =
      ((λ e, if decide (e.1 ∈ seen) then 0 else size e.2) <$> l)) as ->; [|lia].
    apply list_fmap_ext. intros i [k' s'] Hi. csimpl.
    assert (k' ≠ id) as Hne.
    { intros ->. apply Hk. apply list_elem_of_fmap. exists (id, s').
      split; [done|]. by eapply list_elem_of_lookup_2. }
    destruct (decide (k' ∈ {[id]} ∪ seen)), (decide (k' ∈ seen)); set_solver.
  - assert (k ≠ id) as Hne.
    { intros ->. apply Hk. apply list_elem_of_fmap. by exists (id, next). }
    rewrite <-(IH Hnd Hin Hseen).
    destruct (decide (k ∈ {[id]} ∪ seen)), (decide (k ∈ seen)); try lia; set_solver.
Qed.

Lemma weight_graph id next seen :
  graph !! id = Some next → id ∉ seen →
  weight ({[id]} ∪ seen) (map_to_list graph) + size next = weight seen (map_to_list graph).
Proof.
  intros Hid. apply weight_seen; [apply NoDup_fst_map_to_list|].
  by apply elem_of_map_to_list.
Qed.

Lemma weight_mono id seen l : weight ({[id]} ∪ seen) l ≤ weight seen l.
Proof.
  unfold weight. induction l as [|[k s] l IH]; csimpl; [done|].
  destruct (decide (k ∈ {[id]} ∪ seen)), (decide (k ∈ seen)); try lia; set_solver.
Qed.

(** The loop ends: enough fuel always gives a result. *)
Lemma worklist_enough fuel stack seen :
  length stack + weight seen (map_to_list graph) ≤ fuel →
  is_Some (worklist fuel stack seen).
Proof.
  revert stack seen. induction fuel as [|fuel IH]; intros [|id rest] seen Hfuel;
    csimpl in *; try done; [lia|].
  destruct (stop id); [done|]. case_decide as Hseen; [apply IH; lia|].
  destruct (graph !! id) as [next|] eqn:Hid.
  - apply IH. rewrite length_app, length_reverse, length_elements_asc.
    pose proof (weight_graph id next seen Hid Hseen). lia.
  - destruct (missing id); [done|]. apply IH.
    pose proof (weight_mono id seen (map_to_list graph)). lia.
Qed.

Lemma weight_empty_ge seen l : weight seen l ≤ weight ∅ l.
Proof.
  unfold weight. induction l as [|[k s] l IH]; csimpl; [done|].
  rewrite (decide_False (P := k ∈ ∅)) by set_solver. case_decide; lia.
Qed.

Lemma worklist_total stack seen : is_Some (worklist (worklist_fuel stack) stack seen).
Proof.
  apply worklist_enough. unfold worklist_fuel.
  pose proof (weight_empty_ge seen (map_to_list graph)). lia.
Qed.

(** The loop, run with the fuel that [worklist_total] justifies. *)
Definition run_worklist (stack : list K) (seen : gset K) : R + gset K :=
  match worklist (worklist_fuel stack) stack seen with
  | Some r => r
  | None => inr seen
  end.

Lemma run_worklist_eq stack seen :
  worklist (worklist_fuel stack) stack seen = Some (run_worklist stack seen).
Proof. unfold run_worklist. by destruct (worklist_total stack seen) as [r ->]. Qed.

Definition reachable (stack : list K) (y : K) : Prop := ∃ x, x ∈ stack ∧ rtc edge x y.

Lemma reachable_cons id rest y : reachable (id :: rest) y ↔ rtc edge id y ∨ reachable rest y.
Proof. unfold reachable. set_solver. Qed.

Lemma reachable_next id next rest y :
  graph !! id = Some next →
  reachable (reverse (elements_asc next) ++ rest) y → reachable (id :: rest) y.
Proof.
  intros Hid (x & Hx & Hy). apply elem_of_app in Hx as [Hx|Hx].
  - apply elem_of_reverse, elem_of_elements_asc in Hx.
    exists id. split; [by left|]. eapply rtc_l; [|done]. by exists next.
  - exists x. split; [by right|done].
Qed.

(** Everything marked was reachable, and no test or missing entry fired on
    it. *)
Lemma worklist_visited_sound fuel stack seen s' :
  worklist fuel stack seen = Some (inr s') →
  ∀ y, y ∈ s' → y ∈ seen ∨
    (reachable stack y ∧ stop y = None ∧ (graph !! y = None → missing y = None)).
Proof.
  revert stack seen. induction fuel as [|fuel IH]; intros [|id rest] seen Hw y Hy;
    csimpl in *; simplify_eq; auto.
  destruct (stop id) eqn:Hstop; [done|]. case_decide as Hseen.
  { destruct (IH _ _ Hw y Hy) as [?|(?&?&?)]; [by left|right].
    rewrite reachable_cons. auto. }
  destruct (graph !! id) as [next|] eqn:Hid.
  - destruct (IH _ _ Hw y Hy) as [[->%elem_of_singleton|?]%elem_of_union|(?&?&?)]; auto.
    + right. split_and!; [|done|by rewrite Hid]. exists id. split; [by left|done].
    + right. split_and!; [by eapply reachable_next|done..].
  - destruct (missing id) eqn:Hmiss; [done|].
    destruct (IH _ _ Hw y Hy) as [[->%elem_of_singleton|?]%elem_of_union|(?&?&?)]; auto.
    + right. split_and!; [|done..]. exists id. split; [by left|done].
    + right. rewrite reachable_cons. auto.
Qed.

Definition closed_upto (seen : gset K) (stack : list K) : Prop :=
  ∀ x y, x ∈ seen → edge x y → y ∈ seen ∨ y ∈ stack.

(** At the end the marked set contains the stack and is closed. *)
Lemma worklist_visited_closed fuel stack seen s' :
  worklist fuel stack seen = Some (inr s') → closed_upto seen stack →
  seen ⊆ s' ∧ (∀ x, x ∈ stack → x ∈ s') ∧ closed_upto s' [].
Proof.
  revert stack seen. induction fuel as [|fuel IH]; intros [|id rest] seen Hw Hcl;
    csimpl in *; simplify_eq.
  1, 2: split_and!; [done| |done]; intros ? Hx; by apply not_elem_of_nil in Hx.
  destruct (stop id); [done|]. case_decide as Hseen.
  { destruct (IH _ _ Hw) as (Hs1 & Hs2 & Hs3); [|set_solver].
    intros x y Hx Hxy. destruct (Hcl x y Hx Hxy) as [?|[-> |?]%elem_of_cons]; auto. }
  destruct (graph !! id) as [next|] eqn:Hid.
  - destruct (IH _ _ Hw) as (Hs1 & Hs2 & Hs3); [|set_solver].
    intros x y [->%elem_of_singleton|Hx]%elem_of_union Hxy.
    + destruct Hxy as (next' & Hnext & Hy). simplify_eq. right.
      rewrite elem_of_app, elem_of_reverse, elem_of_elements_asc. auto.
    + destruct (Hcl x y Hx Hxy) as [?|[-> |?]%elem_of_cons]; set_solver.
  - destruct (missing id); [done|].
    destruct (IH _ _ Hw) as (Hs1 & Hs2 & Hs3); [|set_solver].
    intros x y [->%elem_of_singleton|Hx]%elem_of_union Hxy.
    + destruct Hxy as (next' & Hnext & Hy). by simplify_eq.
    + destruct (Hcl x y Hx Hxy) as [?|[-> |?]%elem_of_cons]; set_solver.
Qed.

(** A completed walk marks exactly what is reachable from the stack. *)
Lemma worklist_visited fuel stack seen s' :
  worklist fuel stack seen = Some (inr s') → closed_upto seen stack →
  ∀ y, y ∈ s' ↔ y ∈ seen ∨ reachable stack y.
Proof.
  intros Hw Hcl y.
  destruct (worklist_visited_closed _ _ _ _ Hw Hcl) as (Hseen & Hstack & Hclosed).
  split.
  - intros Hy. destruct (worklist_visited_sound _ _ _ _ Hw y Hy) as [?|[? _]]; auto.
  - intros [Hy|(x & Hx & Hxy)]; [by apply Hseen|].
    apply Hstack in Hx. induction Hxy as [|x z y Hxz _ IH]; [done|].
    apply IH. destruct (Hclosed x z Hx Hxz) as [?|Hnil]; [done|].
    by apply not_elem_of_nil in Hnil.
Qed.

(** An early return names a reachable identity. *)
Lemma worklist_returned fuel stack seen r :
  worklist fuel stack seen = Some (inl r) →
  ∃ y, reachable stack y ∧ (stop y = Some r ∨ (graph !! y = None ∧ missing y = Some r)).
Proof.
  revert stack seen. induction fuel as [|fuel IH]; intros [|id rest] seen Hw;
    csimpl in *; simplify_eq.
  destruct (stop id) eqn:Hstop; simplify_eq.
  { exists id. split; [|by left]. exists id. split; [by left|done]. }
  case_decide as Hseen.
  { destruct (IH _ _ Hw) as (y & Hy & ?). exists y. rewrite reachable_cons. auto. }
  destruct (graph !! id) as [next|] eqn:Hid.
  - destruct (IH _ _ Hw) as (y & Hy & ?). exists y. split; [by eapply reachable_next|done].
  - destruct (missing id) eqn:Hmiss; simplify_eq.
    + exists id. split; [|auto]. exists id. split; [by left|done].
    + destruct (IH _ _ Hw) as (y & Hy & ?). exists y. rewrite reachable_cons. auto.
Qed.

Lemma run_visited stack seen s' :
  run_worklist stack seen = inr s' → closed_upto seen stack →
  ∀ y, y ∈ s' ↔ y ∈ seen ∨ reachable stack y.
Proof.
  intros Hrun. apply (worklist_visited (worklist_fuel stack)).
  by rewrite run_worklist_eq, Hrun.
Qed.

Lemma run_visited_sound stack seen s' :
  run_worklist stack seen = inr s' →
  ∀ y, y ∈ s' → y ∈ seen ∨
    (reachable stack y ∧ stop y = None ∧ (graph !! y = None → missing y = None)).
Proof.
  intros Hrun. apply (worklist_visited_sound (worklist_fuel stack)).
  by rewrite run_worklist_eq, Hrun.
Qed.

Lemma run_visited_closed stack seen s' :
  run_worklist stack seen = inr s' → closed_upto seen stack → closed_upto s' [].
Proof.
  intros Hrun Hcl. eapply (worklist_visited_closed (worklist_fuel stack)); [|exact Hcl].
  by rewrite run_worklist_eq, Hrun.
Qed.

Lemma run_returned stack seen r :
  run_worklist stack seen = inl r →
  ∃ y, reachable stack y ∧ (stop y = Some r ∨ (graph !! y = None ∧ missing y = Some r)).
Proof.
  intros Hrun. eapply (worklist_returned (worklist_fuel stack)).
  by rewrite run_worklist_eq, Hrun.
Qed.

Lemma closed_upto_empty stack : closed_upto ∅ stack.
Proof. intros x y Hx. set_solver. Qed.
End worklist.
