(* ===== verification/Scalar.v ===== *)
(** * Scalar registers (crates/apc-core/src/scalar.rs)

    A register is a map from revision identities to immutable statements; each
    statement names the causal frontier its author observed.  This file holds
    the data and the operations; [Causal] and [ScalarMerge] hold their theory. *)
From stdpp Require Import base tactics option list gmap relations sorting.
From S2P Require Import Prelude BTree Bytes Id Error Worklist.

Record ScalarRevision (T : Type) : Type := ScalarRevision_mk {
  sr_id : RevisionId;
  sr_value : T;
  sr_parents : gset RevisionId;
}.
Arguments ScalarRevision_mk {T} _ _ _.
Arguments sr_id {T} _.
Arguments sr_value {T} _.
Arguments sr_parents {T} _.

Module ScalarRevision.
Definition new {T : Type} (id : RevisionId) (value : T) (parents : gset RevisionId) :
    ScalarRevision T :=
  ScalarRevision_mk id value parents.
End ScalarRevision.

#[export] Instance ScalarRevision_eq_dec {T : Type} `{EqDecision T} :
  EqDecision (ScalarRevision T).
Proof. solve_decision. Defined.

Record ScalarRegister (T : Type) : Type := ScalarRegister_mk {
  revisions : gmap RevisionId (ScalarRevision T);
}.
Arguments ScalarRegister_mk {T} _.
Arguments revisions {T} _.

#[export] Instance ScalarRegister_eq_dec {T : Type} `{EqDecision T} :
  EqDecision (ScalarRegister T).
Proof. solve_decision. Defined.

Module ScalarRegister.
Section ScalarRegister.
Context {T : Type} `{!EqDecision T}.
Implicit Types (self other : ScalarRegister T) (revision : ScalarRevision T).

Definition new : ScalarRegister T := ScalarRegister_mk ∅.

Definition len self : nat := size (revisions self).

Definition is_empty self : bool := bool_decide (revisions self = ∅).

Definition revision self (id : RevisionId) : option (ScalarRevision T) := revisions self !! id.

(** [revisions()]: the statements in ascending order of their identities. *)
Definition revisions_iter self : list (ScalarRevision T) := values_asc (revisions self).

(** The direct parents of every known revision. *)
Definition parents_graph self : gmap RevisionId (gset RevisionId) := sr_parents <$> revisions self.

(** [revision.parents.iter().copied().collect::<Vec<_>>()], top of the stack first. *)
Definition parent_stack (parents : gset RevisionId) : list RevisionId :=
  reverse (elements_asc parents).

(** The inner loop of [frontier_ids]: marks everything above one revision. *)
Definition dominate self (dominated : gset RevisionId) revision : gset RevisionId :=
  match run_worklist (R := Empty_set) (λ _, None) (λ _, None) (parents_graph self)
          (parent_stack (sr_parents revision)) dominated with
  | inr dominated => dominated
  | inl r => match r with end
  end.

Definition dominated_ids self : gset RevisionId :=
  foldl (dominate self) ∅ (revisions_iter self).

(** The set of causally maximal revision identities. *)
Definition frontier_ids self : gset RevisionId :=
  filter (λ id, id ∉ dominated_ids self) (dom (revisions self)).

(** [frontier_ids().into_iter().next_back()], then the revision of that name. *)
Definition materialized_revision self : option (ScalarRevision T) :=
  winner ← last (elements_asc (frontier_ids self));
  revisions self !! winner.

Definition materialized self : option T := sr_value <$> materialized_revision self.

Definition is_ancestor self (ancestor descendant : RevisionId) : bool :=
  match revisions self !! descendant with
  | None => false
  | Some descendant_revision =>
      match run_worklist (λ id, if decide (id = ancestor) then Some true else None)
              (λ _, None) (parents_graph self)
              (parent_stack (sr_parents descendant_revision)) ∅ with
      | inl found => found
      | inr _ => false
      end
  end.

(** The check [self.revisions.contains_key(parent)] for one parent. *)
Definition check_parent self revision (parent : RevisionId) : result CoreError unit :=
  if decide (parent ∈ dom (revisions self)) then Ok tt
  else Err (MissingParent (sr_id revision) parent).

Definition check_parents self revision : result CoreError unit :=
  try_for_each (check_parent self revision) (elements_asc (sr_parents revision)).

(** Depth-first search; [fuel] bounds the recursion depth and running out of it
    is a panic ([Causal.validate_spec] shows it does not happen). *)
Fixpoint visit_for_cycle (fuel : nat) self (st : gset RevisionId * gset RevisionId)
    (id : RevisionId) : result CoreError (gset RevisionId * gset RevisionId) :=
  match fuel with
  | O => Panic
  | S fuel =>
      let '(visiting, complete) := st in
      if decide (id ∈ complete) then Ok (visiting, complete)
      else if decide (id ∈ visiting) then Err (CausalCycle id)
      else
        st' ← match revisions self !! id with
              | Some revision =>
                  try_fold (visit_for_cycle fuel self) ({[id]} ∪ visiting, complete)
                    (elements_asc (sr_parents revision))
              | None => Ok ({[id]} ∪ visiting, complete)
              end;
        Ok (st'.1 ∖ {[id]}, {[id]} ∪ st'.2)
  end.

Definition validate self : result CoreError unit :=
  _ ← try_for_each (check_parents self) (revisions_iter self);
  _ ← try_fold (visit_for_cycle (S (size (revisions self))) self) (∅, ∅)
        (keys_asc (revisions self));
  Ok tt.

Definition from_revisions_step (map : gmap RevisionId (ScalarRevision T)) revision :
    result CoreError (gmap RevisionId (ScalarRevision T)) :=
  match map !! sr_id revision with
  | Some existing =>
      if decide (existing = revision) then Ok map
      else Err (DuplicateRevisionConflict (sr_id revision))
  | None => Ok (<[sr_id revision := revision]> map)
  end.

Definition from_revisions (revisions : list (ScalarRevision T)) :
    result CoreError (ScalarRegister T) :=
  map ← try_fold from_revisions_step ∅ revisions;
  _ ← validate (ScalarRegister_mk map);
  Ok (ScalarRegister_mk map).

(** [insert_revision(&mut self, revision)]. *)
Definition insert_revision revision : stateful (ScalarRegister T) CoreError unit :=
  self ← get_state;
  match revisions self !! sr_id revision with
  | Some existing =>
      if decide (existing = revision) then mret tt
      else throw (DuplicateRevisionConflict (sr_id revision))
  | None =>
      _ ← lift_result (check_parents self revision);
      put_state (ScalarRegister_mk (<[sr_id revision := revision]> (revisions self)))
  end.

(** [assign(&mut self, id, value)]: a local successor of exactly the currently
    observed frontier. *)
Definition assign (id : RevisionId) (value : T) : stateful (ScalarRegister T) CoreError unit :=
  self ← get_state;
  insert_revision (ScalarRevision.new id value (frontier_ids self)).

Definition merge_step (merged : gmap RevisionId (ScalarRevision T))
    (entry : RevisionId * ScalarRevision T) :
    result CoreError (gmap RevisionId (ScalarRevision T)) :=
  let '(id, revision) := entry in
  match merged !! id with
  | Some existing =>
      if decide (existing = revision) then Ok merged
      else Err (DuplicateRevisionConflict id)
  | None => Ok (<[id := revision]> merged)
  end.

Definition merge self other : result CoreError (ScalarRegister T) :=
  merged ← try_fold merge_step (revisions self) (entries_asc (revisions other));
  _ ← validate (ScalarRegister_mk merged);
  Ok (ScalarRegister_mk merged).
End ScalarRegister.
End ScalarRegister.

(** ** Concrete registers, as the code's tests build them *)
Definition assign_all {T : Type} `{EqDecision T} (l : list (RevisionId * T)) :
    ScalarRegister T → ScalarRegister T :=
  λ r, foldl (λ r e, (ScalarRegister.assign e.1 e.2 r).1) r l.

Definition register_of {T : Type} `{EqDecision T} (l : list (RevisionId * T)) : ScalarRegister T :=
  assign_all l ScalarRegister.new.
