(* ===== verification/Causal.v ===== *)
(** * Causal theory of scalar registers

    Ancestry, validity and frontiers: what [validate], [frontier_ids],
    [is_ancestor] and [materialized] of [Scalar] compute, stated over the causal
    graph itself. *)
From stdpp Require Import base tactics option list gmap relations sorting.
From Stdlib Require Import Lia.
From S2P Require Import Prelude BTree Bytes Id Error Worklist Scalar.
Import ScalarRegister.

Section causal.
Context {T : Type}.
Implicit Types (r : ScalarRegister T) (x y : RevisionId).

(** [has_parent r c p]: revision [c] of [r] names [p] as a direct parent. *)
Definition has_parent r (c p : RevisionId) : Prop :=
  ∃ rev, revisions r !! c = Some rev ∧ p ∈ sr_parents rev.

(** [ancestor r a d]: [a] lies strictly before [d]. *)
Definition ancestor r (a d : RevisionId) : Prop := tc (has_parent r) d a.

(** Every statement is stored under its own identity. *)
Definition keyed r : Prop := ∀ x rev, revisions r !! x = Some rev → sr_id rev = x.

(** Every direct parent is present. *)
Definition closed r : Prop := ∀ c p, has_parent r c p → p ∈ dom (revisions r).

Definition acyclic r : Prop := ∀ x, ¬ ancestor r x x.

Definition valid r : Prop := keyed r ∧ closed r ∧ acyclic r.

(** Every chain of parents from [x] is finite. *)
Definition grounded r (x : RevisionId) : Prop := Acc (λ p c, has_parent r c p) x.

Lemma has_parent_dom r c p : has_parent r c p → c ∈ dom (revisions r).
Proof. intros (rev & Hc & _). apply elem_of_dom. by eexists. Qed.

Lemma ancestor_dom r a d : ancestor r a d → d ∈ dom (revisions r).
Proof. destruct 1; by eapply has_parent_dom. Qed.

Lemma ancestor_closed r a d : closed r → ancestor r a d → a ∈ dom (revisions r).
Proof. intros Hcl. induction 1; eauto. Qed.

Lemma ancestor_trans r a b c : ancestor r a b → ancestor r b c → ancestor r a c.
Proof. unfold ancestor. intros Hab Hbc. by eapply tc_transitive. Qed.

Lemma grounded_acyclic r x : grounded r x → ¬ ancestor r x x.
Proof.
  induction 1 as [x _ IH]. unfold ancestor in *. intros Hx.
  inversion Hx as [? ? Hxy|? y ? Hxy Hyx]; subst; [by apply (IH x)|].
  apply (IH y Hxy). by eapply tc_r.
Qed.

Lemma edge_parents_graph r x y : edge (parents_graph r) x y ↔ has_parent r x y.
Proof.
  unfold edge, has_parent, parents_graph. split.
  - intros (next & Hx & Hy). rewrite lookup_fmap in Hx.
    apply fmap_Some in Hx as (rev & Hx & ->). eauto.
  - intros (rev & Hx & Hy). exists (sr_parents rev). by rewrite lookup_fmap, Hx.
Qed.

Lemma elem_of_parent_stack x (ps : gset RevisionId) : x ∈ parent_stack ps ↔ x ∈ ps.
Proof. unfold parent_stack. by rewrite elem_of_reverse, elem_of_elements_asc. Qed.

Lemma rtc_edge r x y : rtc (edge (parents_graph r)) x y ↔ rtc (has_parent r) x y.
Proof.
  split; induction 1; try done; eapply rtc_l; eauto; by apply edge_parents_graph.
Qed.

(** What is reachable from the parents of a revision is its ancestry. *)
Lemma reachable_ancestor r x rev a :
  revisions r !! x = Some rev →
  reachable (parents_graph r) (parent_stack (sr_parents rev)) a ↔ ancestor r a x.
Proof.
  intros Hx. unfold reachable, ancestor. split.
  - intros (p & Hp%elem_of_parent_stack & Hpa). apply rtc_edge in Hpa.
    eapply tc_rtc_r; [|done]. apply tc_once. by exists rev.
  - intros Ha. inversion Ha as [? ? Hxp|? p ? Hxp Hpa]; subst.
    + destruct Hxp as (rev' & Hx' & Hp). simplify_eq.
      exists a. by rewrite elem_of_parent_stack.
    + destruct Hxp as (rev' & Hx' & Hp). simplify_eq.
      exists p. rewrite elem_of_parent_stack. split; [done|].
      by apply rtc_edge, tc_rtc.
Qed.
End causal.

(** ** [validate] *)
Section validate.
Context {T : Type} `{!EqDecision T}.
Implicit Types (r : ScalarRegister T).

Lemma check_parents_Ok r rev u :
  check_parents r rev = Ok u ↔ ∀ p, p ∈ sr_parents rev → p ∈ dom (revisions r).
Proof.
  unfold check_parents. rewrite try_for_each_Ok. apply forall_proper. intros p.
  rewrite elem_of_elements_asc. unfold check_parent. case_decide; naive_solver.
Qed.

Lemma check_parents_fail r rev x :
  failure (check_parents r rev) = Some x →
  ∃ p, p ∈ sr_parents rev ∧ p ∉ dom (revisions r) ∧ x = Some (MissingParent (sr_id rev) p).
Proof.
  intros (l1 & p & l2 & Hl & Hp & _)%try_for_each_fail.
  unfold check_parent in Hp. case_decide; simplify_eq/=.
  exists p. split_and!; [|done..]. apply elem_of_elements_asc. rewrite Hl. set_solver.
Qed.

Lemma check_all_Ok r u :
  try_for_each (check_parents r) (revisions_iter r) = Ok u ↔ closed r.
Proof.
  rewrite try_for_each_Ok. unfold closed, has_parent. split.
  - intros Hall c p (rev & Hc & Hp). eapply check_parents_Ok; [apply Hall|done].
    apply elem_of_values_asc. eauto.
  - intros Hcl rev [c Hc]%elem_of_values_asc. apply check_parents_Ok. eauto.
Qed.

Lemma check_all_fail r x :
  failure (try_for_each (check_parents r) (revisions_iter r)) = Some x →
  ∃ c rev p, revisions r !! c = Some rev ∧ p ∈ sr_parents rev ∧ p ∉ dom (revisions r) ∧
    x = Some (MissingParent (sr_id rev) p).
Proof.
  intros (l1 & rev & l2 & Hl & Hf & _)%try_for_each_fail.
  apply check_parents_fail in Hf as (p & ? & ? & ?).
  assert (rev ∈ revisions_iter r) as [c Hc]%elem_of_values_asc by (rewrite Hl; set_solver).
  eauto 10.
Qed.

(** What one visit guarantees: it leaves [visiting] as it was and completes the
    revision, or it reports a revision that is its own ancestor. *)
Definition visit_post r (visiting complete : gset RevisionId) (target : RevisionId → Prop)
    (res : result CoreError (gset RevisionId * gset RevisionId)) : Prop :=
  match res with
  | Ok (visiting', complete') =>
      visiting' = visiting ∧ complete ⊆ complete' ∧ (∀ x, target x → x ∈ complete') ∧
      (∀ x, x ∈ complete' → grounded r x)
  | Err e => ∃ x, e = CausalCycle x ∧ closed r ∧ ancestor r x x
  | Panic => False
  end.

Definition visit_pre r (fuel : nat) (visiting complete : gset RevisionId) : Prop :=
  closed r ∧ visiting ⊆ dom (revisions r) ∧
  size (revisions r) < fuel + size visiting ∧ (∀ x, x ∈ complete → grounded r x).

Lemma visit_loop r fuel visiting complete l :
  (∀ complete' p, p ∈ l → (∀ x, x ∈ complete' → grounded r x) →
    visit_post r visiting complete' (eq p) (visit_for_cycle fuel r (visiting, complete') p)) →
  (∀ x, x ∈ complete → grounded r x) →
  visit_post r visiting complete (λ p, p ∈ l)
    (try_fold (visit_for_cycle fuel r) (visiting, complete) l).
Proof.
  revert complete. induction l as [|p l IH]; intros complete Hvisit Hcomp; cbn [try_fold].
  - split_and!; [done..| |done]. intros ? Hx. by apply not_elem_of_nil in Hx.
  - pose proof (Hvisit complete p) as Hp. destruct (visit_for_cycle _ _ _ p)
      as [[visiting' complete']|e|]; simpl in *; [|by apply Hp; [left|]..].
    destruct Hp as (-> & Hsub & Hdone & Hgr); [by left|done|].
    specialize (IH complete').
    destruct (try_fold _ _ l) as [[visiting'' complete'']|e|]; simpl in *;
      [|apply IH; [|done]; intros; apply Hvisit; [by right|done]..].
    destruct IH as (-> & Hsub' & Hdone' & Hgr'); [|done|].
    { intros. apply Hvisit; [by right|done]. }
    split_and!; [done|by etrans| |done].
    intros x [-> |Hx]%elem_of_cons; [|by apply Hdone']. by apply Hsub', Hdone.
Qed.

Lemma visit_for_cycle_spec r fuel visiting complete id :
  visit_pre r fuel visiting complete → id ∈ dom (revisions r) →
  (∀ v, v ∈ visiting → ancestor r id v) →
  visit_post r visiting complete (eq id) (visit_for_cycle fuel r (visiting, complete) id).
Proof.
  revert visiting complete id. induction fuel as [|fuel IH];
    intros visiting complete id (Hcl & Hvis & Hfuel & Hcomp) Hid Hanc.
  { apply subseteq_size in Hvis. rewrite size_dom in Hvis. lia. }
  cbn [visit_for_cycle]. case_decide as Hc; [split_and!; naive_solver|].
  case_decide as Hv; [simpl; eauto|].
  apply elem_of_dom in Hid as [rev Hrev]. rewrite Hrev.
  assert (∀ complete' p, p ∈ elements_asc (sr_parents rev) →
    (∀ x, x ∈ complete' → grounded r x) →
    visit_post r ({[id]} ∪ visiting) complete' (eq p)
      (visit_for_cycle fuel r ({[id]} ∪ visiting, complete') p)) as Hvisit.
  { intros complete' p Hp%elem_of_elements_asc Hcomp'.
    assert (has_parent r id p) as Hidp by by exists rev. apply IH; [|by eapply Hcl|].
    - split_and!; [done| |rewrite size_union, size_singleton by set_solver; lia|done].
      apply union_subseteq. split; [|done]. apply singleton_subseteq_l.
      by eapply has_parent_dom.
    - intros v [->%elem_of_singleton|Hv']%elem_of_union; [by apply tc_once|].
      unfold ancestor. eapply tc_r; [by apply Hanc|done]. }
  pose proof (visit_loop _ _ _ _ _ Hvisit Hcomp) as Hloop.
  destruct (try_fold _ _ _) as [[visiting' complete']|e|]; [|done..].
  destruct Hloop as (-> & Hsub & Hdone & Hgr). simpl.
  split_and!; [set_solver|set_solver|set_solver|].
  intros x [->%elem_of_singleton|Hx]%elem_of_union; [|by apply Hgr].
  constructor. intros p (rev' & Hrev' & Hp). simplify_eq. apply Hgr, Hdone.
  by apply elem_of_elements_asc.
Qed.

(** The three outcomes of [validate]: there is no fourth, so the fuel and the
    [visiting] set never make it panic. *)
Lemma validate_spec r :
  match validate r with
  | Ok _ => closed r ∧ ∀ x, grounded r x
  | Err e =>
      (∃ c rev p, revisions r !! c = Some rev ∧ p ∈ sr_parents rev ∧
        p ∉ dom (revisions r) ∧ e = MissingParent (sr_id rev) p) ∨
      (∃ x, e = CausalCycle x ∧ closed r ∧ ancestor r x x)
  | Panic => False
  end.
Proof.
  unfold validate. destruct (try_for_each _ _) as [u|e|] eqn:Hc; cbn [mbind result_bind].
  - apply check_all_Ok in Hc.
    assert (visit_post r ∅ ∅ (λ p, p ∈ keys_asc (revisions r))
      (try_fold (visit_for_cycle (S (size (revisions r))) r) (∅, ∅) (keys_asc (revisions r))))
      as Hloop.
    { apply visit_loop; [|set_solver]. intros complete p Hp Hcomp.
      apply visit_for_cycle_spec; [|by apply elem_of_dom, elem_of_keys_asc|set_solver].
      split_and!; [done|set_solver|rewrite size_empty; lia|done]. }
    destruct (try_fold _ _ _) as [[visiting complete]|e|]; simpl in *; [|by right|done].
    destruct Hloop as (_ & _ & Hdone & Hgr). split; [done|]. intros x.
    destruct (revisions r !! x) as [rev|] eqn:Hx.
    + apply Hgr, Hdone, elem_of_keys_asc. by eexists.
    + constructor. intros p (? & ? & _). by simplify_eq.
  - left. destruct (check_all_fail r (Some e)) as (c & rev & p & ? & ? & ? & [= ->]);
      [by rewrite Hc|]. by exists c, rev, p.
  - destruct (check_all_fail r None) as (?&?&?&?&?&?&?); [by rewrite Hc|done].
Qed.

Lemma validate_Ok r u : validate r = Ok u ↔ closed r ∧ acyclic r.
Proof.
  destruct u. pose proof (validate_spec r) as Hspec. split.
  - intros Hv. rewrite Hv in Hspec. destruct Hspec as [Hcl Hgr].
    split; [done|]. intros x. by apply grounded_acyclic.
  - intros [Hcl Hac]. destruct (validate r) as [[]|e|]; [done| |done].
    destruct Hspec as [(c & rev & p & Hc & Hp & Hdom & _)|(x & _ & _ & Hx)].
    + destruct Hdom. apply (Hcl c). by exists rev.
    + by destruct (Hac x).
Qed.

Lemma valid_grounded r : valid r → ∀ x, grounded r x.
Proof.
  intros (_ & Hcl & Hac). pose proof (validate_spec r) as Hspec.
  assert (validate r = Ok tt) as Hv by by apply validate_Ok.
  rewrite Hv in Hspec. apply Hspec.
Qed.

Lemma validate_valid r u : keyed r → validate r = Ok u ↔ valid r.
Proof. intros Hk. rewrite validate_Ok. unfold valid. naive_solver. Qed.

Lemma validate_not_panic r : validate r ≠ Panic.
Proof. intros Hv. pose proof (validate_spec r) as Hspec. by rewrite Hv in Hspec. Qed.

Lemma validate_Err r e :
  validate r = Err e →
  (∃ c rev p, revisions r !! c = Some rev ∧ p ∈ sr_parents rev ∧
    p ∉ dom (revisions r) ∧ e = MissingParent (sr_id rev) p) ∨
  (∃ x, e = CausalCycle x ∧ closed r ∧ ancestor r x x).
Proof. intros Hv. pose proof (validate_spec r) as Hspec. by rewrite Hv in Hspec. Qed.
End validate.

(** ** [is_ancestor], [frontier_ids] and [materialized] *)
Section frontier.
Context {T : Type}.
Implicit Types (r : ScalarRegister T) (x y : RevisionId).

Lemma is_ancestor_spec r a d : is_ancestor r a d = true ↔ ancestor r a d.
Proof.
  unfold is_ancestor. destruct (revisions r !! d) as [rev|] eqn:Hd.
  - rewrite <-(reachable_ancestor r d rev a Hd).
    destruct (run_worklist _ _ _ _ _) as [b|seen] eqn:Hrun.
    + pose proof (run_returned _ _ _ _ _ _ Hrun) as (y & Hy & [Hstop|[_ [=]]]).
      case_decide; simplify_eq. done.
    + split; [done|]. intros Ha. exfalso.
      pose proof (proj2 (run_visited _ _ _ _ _ _ Hrun (closed_upto_empty _ _) a) (or_intror Ha))
        as Hseen.
      apply (run_visited_sound _ _ _ _ _ _ Hrun) in Hseen as [?|(_ & Hstop & _)]; [set_solver|].
      by case_decide.
  - split; [done|]. intros [rev Hrev]%ancestor_dom%elem_of_dom. by simplify_eq.
Qed.

#[export] Instance ancestor_dec r a d : Decision (ancestor r a d).
Proof.
  refine (cast_if (decide (is_ancestor r a d = true)));
    abstract (by rewrite <-is_ancestor_spec).
Defined.

Lemma dominate_spec r dominated x rev :
  revisions r !! x = Some rev → closed_upto (parents_graph r) dominated [] →
  closed_upto (parents_graph r) (dominate r dominated rev) [] ∧
  ∀ a, a ∈ dominate r dominated rev ↔ a ∈ dominated ∨ ancestor r a x.
Proof.
  intros Hx Hcl. unfold dominate.
  destruct (run_worklist _ _ _ _ _) as [[]|seen] eqn:Hrun.
  assert (closed_upto (parents_graph r) dominated (parent_stack (sr_parents rev))) as Hcl'.
  { intros a b Ha Hab. left. destruct (Hcl a b Ha Hab) as [?|Hb]; [done|].
    by apply not_elem_of_nil in Hb. }
  split; [by eapply run_visited_closed|]. intros a.
  rewrite (run_visited _ _ _ _ _ _ Hrun Hcl' a).
  by rewrite (reachable_ancestor r x rev a Hx).
Qed.

Lemma elem_of_dominated_ids r a : a ∈ dominated_ids r ↔ ∃ d, ancestor r a d.
Proof.
  unfold dominated_ids.
  assert (∀ l dominated, (∀ rev, rev ∈ l → ∃ x, revisions r !! x = Some rev) →
    closed_upto (parents_graph r) dominated [] →
    a ∈ foldl (dominate r) dominated l ↔
      a ∈ dominated ∨ ∃ rev x, rev ∈ l ∧ revisions r !! x = Some rev ∧ ancestor r a x) as Hl.
  { induction l as [|rev l IH]; intros dominated Hl Hcl; cbn [foldl].
    - split; [auto|]. intros [?|(? & ? & Hin & _)]; [done|by apply not_elem_of_nil in Hin].
    - destruct (Hl rev) as [x Hx]; [by left|].
      destruct (dominate_spec r dominated x rev Hx Hcl) as [Hcl' Hdom].
      rewrite IH, Hdom; [|intros; apply Hl; by right|done]. split.
      + intros [[?|?]|(? & ? & ? & ?)]; [by left|right|right]; set_solver.
      + intros [?|(rev' & y & [-> |?]%elem_of_cons & Hy & Ha)]; [auto| |naive_solver].
        left. right. inversion Ha as [? ? Hp|? ? ? Hp ?]; subst;
          destruct Hp as (rev'' & ? & ?); simplify_eq.
        * apply tc_once. by eexists.
        * eapply tc_l; [|done]. by eexists. }
  rewrite Hl; [|intros rev; apply elem_of_values_asc|apply closed_upto_empty]. split.
  - set_solver.
  - intros [d Hd]. right. pose proof (ancestor_dom _ _ _ Hd) as [rev Hrev]%elem_of_dom.
    exists rev, d. split_and!; [|done..]. apply elem_of_values_asc. eauto.
Qed.

(** The frontier holds exactly the present revisions that no revision
    descends from. *)
Lemma elem_of_frontier_ids r x :
  x ∈ frontier_ids r ↔ x ∈ dom (revisions r) ∧ ∀ d, ¬ ancestor r x d.
Proof.
  unfold frontier_ids. rewrite elem_of_filter, elem_of_dominated_ids. naive_solver.
Qed.

(** Every revision is on the frontier or an ancestor of a frontier member. *)
Lemma frontier_covers r x :
  acyclic r → x ∈ dom (revisions r) →
  ∃ f, f ∈ frontier_ids r ∧ (f = x ∨ ancestor r x f).
Proof.
  intros Hac Hx.
  set (S := filter (λ d, d = x ∨ ancestor r x d) (dom (revisions r))).
  assert (Transitive (λ a b : RevisionId, ancestor r b a)).
  { intros a b c Hab Hbc. by eapply ancestor_trans. }
  destruct (minimal_exists_elem_of_L (λ a b, ancestor r b a) S) as (f & Hf & Hmin).
  { assert (x ∈ S); [|set_solver]. unfold S. rewrite elem_of_filter. auto. }
  unfold S in Hf. rewrite elem_of_filter in Hf. destruct Hf as [Hxf Hf].
  exists f. split; [|done]. apply elem_of_frontier_ids. split; [done|].
  intros d Hd. assert (d ∈ S) as HdS.
  { unfold S. rewrite elem_of_filter. split; [|by eapply ancestor_dom].
    destruct Hxf as [-> |?]; [by right|]. right. by eapply ancestor_trans. }
  apply (Hac f). eapply ancestor_trans; [exact Hd|]. by apply (Hmin d HdS).
Qed.

Lemma frontier_nonempty r : acyclic r → revisions r ≠ ∅ → frontier_ids r ≠ ∅.
Proof.
  intros Hac (x & rev & Hx)%map_choose. destruct (frontier_covers r x) as (f & Hf & _);
    [done|apply elem_of_dom; by eexists|set_solver].
Qed.

Lemma frontier_antichain r x y :
  x ∈ frontier_ids r → y ∈ frontier_ids r → ¬ ancestor r x y.
Proof. intros Hx%elem_of_frontier_ids _. naive_solver. Qed.

Lemma frontier_subseteq r : frontier_ids r ⊆ dom (revisions r).
Proof. intros x. rewrite elem_of_frontier_ids. naive_solver. Qed.

(** The last element of an ascending enumeration is the maximum. *)
Lemma last_elements_asc (s : gset RevisionId) x :
  last (elements_asc s) = Some x ↔ x ∈ s ∧ ∀ y, y ∈ s → ord_le y x.
Proof.
  split.
  - intros Hl. apply last_Some in Hl as [l Hl]. split.
    + apply elem_of_elements_asc. rewrite Hl. set_solver.
    + intros y Hy. destruct (decide (y = x)) as [-> |Hne]; [by apply ord_le_lt_eq; right|].
      apply ord_le_lt_eq. left. apply (elements_asc_split s l x []); [done..|].
      apply elem_of_elements_asc in Hy. rewrite Hl in Hy. set_solver.
  - intros [Hx Hmax]. destruct (last (elements_asc s)) as [y|] eqn:Hl.
    + apply last_Some in Hl as [l Hl].
      assert (y ∈ s) as Hy by (apply elem_of_elements_asc; rewrite Hl; set_solver).
      f_equal. apply (anti_symm ord_le); [by apply Hmax|].
      destruct (decide (x = y)) as [-> |Hne]; [by apply ord_le_lt_eq; right|].
      apply ord_le_lt_eq. left. apply (elements_asc_split s l y []); [done..|].
      apply elem_of_elements_asc in Hx. rewrite Hl in Hx. set_solver.
    + apply last_None in Hl. apply elem_of_elements_asc in Hx. rewrite Hl in Hx.
      by apply not_elem_of_nil in Hx.
Qed.

Lemma materialized_revision_Some r x rev :
  keyed r → materialized_revision r = Some rev →
  sr_id rev = x ↔ x ∈ frontier_ids r ∧ revisions r !! x = Some rev ∧
    ∀ y, y ∈ frontier_ids r → ord_le y x.
Proof.
  intros Hk. unfold materialized_revision. rewrite bind_Some.
  intros (w & [Hw Hmax]%last_elements_asc & Hrev).
  pose proof (Hk _ _ Hrev) as Hid. split.
  - intros <-. by rewrite Hid.
  - intros (Hx & Hxr & _). by rewrite (Hk _ _ Hxr).
Qed.

Lemma materialized_revision_None r :
  acyclic r → materialized_revision r = None ↔ revisions r = ∅.
Proof.
  intros Hac. unfold materialized_revision. split.
  - intros Hm. destruct (decide (revisions r = ∅)) as [|Hne]; [done|].
    pose proof (frontier_nonempty r Hac Hne) as Hf.
    destruct (last (elements_asc (frontier_ids r))) as [w|] eqn:Hl.
    + apply last_elements_asc in Hl as [Hw _]. apply frontier_subseteq, elem_of_dom in Hw as [??].
      by simplify_eq/=.
    + apply last_None in Hl. exfalso. apply Hf. rewrite <-(list_to_set_elements_asc (frontier_ids r)).
      by rewrite Hl.
  - intros He. destruct (last _) as [w|]; simpl; [|done]. by rewrite He, lookup_empty.
Qed.
End frontier.
