(* ===== verification/Merge.v ===== *)
(** * State merge (crates/apc-core/src/merge.rs)

    [MergeState] is the trait; [MergeLaws] is what the code's comments and
    docs/LOGIC.md promise of every implementation: determinism, commutativity,
    associativity and idempotence for valid states.  The convergence theorem is
    proved once, against this interface. *)
From stdpp Require Import base tactics option list gmap.
From S2P Require Import Prelude BTree Id Error.

Class MergeState (A : Type) := merge_state : A → A → result CoreError A.

Class MergeLaws (A : Type) `{MergeState A} (ok : A → Prop) : Prop := {
  merge_comm a b : ok a → ok b → merge_state a b = merge_state b a;
  merge_idem a : ok a → merge_state a a = Ok a;
  merge_ok a b c : ok a → ok b → merge_state a b = Ok c → ok c;
  merge_assoc a b c ab abc :
    ok a → ok b → ok c → merge_state a b = Ok ab → merge_state ab c = Ok abc →
    ∃ bc, merge_state b c = Ok bc ∧ merge_state a bc = Ok abc;
  merge_no_panic a b : ok a → ok b → merge_state a b ≠ Panic;
}.

(** ** The order a merge induces *)
Section order.
Context {A : Type} `{MergeLaws A ok}.
Implicit Types a b c r u : A.

(** [b] already contains [a]. *)
Definition contained a b : Prop := merge_state a b = Ok b.

Lemma contained_refl a : ok a → contained a a.
Proof. apply merge_idem. Qed.

Lemma contained_antisymm a b : ok a → ok b → contained a b → contained b a → a = b.
Proof.
  unfold contained. intros Ha Hb Hab Hba. rewrite merge_comm in Hba by done.
  rewrite Hab in Hba. by simplify_res.
Qed.

Lemma contained_trans a b c :
  ok a → ok b → ok c → contained a b → contained b c → contained a c.
Proof.
  unfold contained. intros Ha Hb Hc Hab Hbc.
  destruct (merge_assoc a b c b c) as (bc & Hbc' & Habc); [done..|]. by simplify_res.
Qed.

Lemma merge_contains_l a b c : ok a → ok b → merge_state a b = Ok c → contained a c.
Proof.
  unfold contained. intros Ha Hb Hab.
  pose proof (merge_idem a Ha) as Haa.
  destruct (merge_assoc a a b a c) as (bc & Hbc & Habc); [done..|]. by simplify_res.
Qed.

Lemma merge_contains_r a b c : ok a → ok b → merge_state a b = Ok c → contained b c.
Proof.
  intros Ha Hb Hab. rewrite merge_comm in Hab by done. by apply (merge_contains_l b a).
Qed.

(** Two states below a common one can be merged, and the result is below it. *)
Lemma merge_bounded a b u :
  ok a → ok b → ok u → contained a u → contained b u →
  ∃ c, merge_state a b = Ok c ∧ contained c u.
Proof.
  unfold contained. intros Ha Hb Hu Hau Hbu.
  assert (merge_state u a = Ok u) as Hua by by rewrite merge_comm.
  assert (merge_state u b = Ok u) as Hub by by rewrite merge_comm.
  destruct (merge_assoc u a b u u) as (c & Hc & Huc); [done..|].
  exists c. split; [done|]. assert (ok c) by by apply (merge_ok a b). by rewrite merge_comm.
Qed.

(** ** Delivery of several states *)
Definition merge_all a (l : list A) : result CoreError A := try_fold merge_state a l.

Lemma merge_all_bound a l r :
  ok a → (∀ x, x ∈ l → ok x) → merge_all a l = Ok r →
  ok r ∧ (∀ x, x ∈ a :: l → contained x r).
Proof.
  unfold merge_all. revert a. induction l as [|b l IH]; intros a Ha Hl Hr; cbn [try_fold] in Hr.
  - simplify_res. split; [done|]. intros x Hx. apply list_elem_of_singleton in Hx as ->.
    by apply contained_refl.
  - apply bind_Ok in Hr as (ab & Hab & Hr).
    assert (ok b) as Hb by (apply Hl; left). assert (ok ab) as Hok by by apply (merge_ok a b).
    destruct (IH ab) as [Hr' Hcont]; [done|intros; apply Hl; by right|done|].
    split; [done|]. intros x [-> |[-> |Hx]%elem_of_cons]%elem_of_cons.
    + apply (contained_trans _ ab); [done..|by apply (merge_contains_l a b)|]. apply Hcont. by left.
    + apply (contained_trans _ ab); [done..|by apply (merge_contains_r a b)|]. apply Hcont. by left.
    + apply Hcont. by right.
Qed.

Lemma merge_all_least a l u :
  ok a → (∀ x, x ∈ l → ok x) → ok u → (∀ x, x ∈ a :: l → contained x u) →
  ∃ r, merge_all a l = Ok r ∧ contained r u.
Proof.
  unfold merge_all. revert a. induction l as [|b l IH]; intros a Ha Hl Hu Hcont; cbn [try_fold].
  - exists a. split; [done|]. apply Hcont. by left.
  - assert (ok b) as Hb by (apply Hl; left).
    destruct (merge_bounded a b u) as (ab & Hab & Habu); [done..| | |].
    { apply Hcont. by left. } { apply Hcont. right. by left. }
    rewrite Hab; cbn [mbind result_bind]. apply IH; [by apply (merge_ok a b)| |done|].
    + intros x Hx. apply Hl. by right.
    + intros x [-> |Hx]%elem_of_cons; [done|]. apply Hcont. right. by right.
Qed.

Lemma merge_all_no_panic a l :
  ok a → (∀ x, x ∈ l → ok x) → merge_all a l ≠ Panic.
Proof.
  unfold merge_all. revert a. induction l as [|b l IH]; intros a Ha Hl; cbn [try_fold]; [done|].
  assert (ok b) as Hb by (apply Hl; left).
  rewrite bind_Panic. intros [Hp|(ab & Hab & Hp)]; [by apply (merge_no_panic a b)|].
  revert Hp. apply IH; [by apply (merge_ok a b)|]. intros x Hx. apply Hl. by right.
Qed.

(** Two replicas that have received the same set of states hold the same state,
    whatever the order and the number of deliveries. *)
Lemma merge_all_converges a l b l' r :
  ok a → ok b → (∀ x, x ∈ l → ok x) → (∀ x, x ∈ l' → ok x) →
  (∀ x, x ∈ a :: l ↔ x ∈ b :: l') →
  merge_all a l = Ok r → merge_all b l' = Ok r.
Proof.
  intros Ha Hb Hl Hl' Hsame Hr.
  destruct (merge_all_bound a l r) as [Hok Hcont]; [done..|].
  destruct (merge_all_least b l' r) as (r' & Hr' & Hcont'); [done..| |].
  { intros x Hx. by apply Hcont, Hsame. }
  destruct (merge_all_bound b l' r') as [Hok' Hcont2]; [done..|].
  destruct (merge_all_least a l r') as (r2 & Hr2 & Hcont3); [done..| |].
  { intros x Hx. by apply Hcont2, Hsame. }
  simplify_res. rewrite Hr'. f_equal. by apply contained_antisymm.
Qed.
End order.

(** ** Merging maps of mergeable values *)
Section maps.
Context {K A : Type} `{OrdLaws K} `{!EqDecision K, !Countable K}.
Context `{MergeLaws A ok}.
Implicit Types m : gmap K A.

Definition merge_maps (m1 m2 : gmap K A) : result CoreError (gmap K A) :=
  upsert_all (merge_entry (λ _, merge_state)) m1 m2.

Definition ok_map m : Prop := ∀ k v, m !! k = Some v → ok v.

Lemma merge_maps_Ok m1 m2 m :
  merge_maps m1 m2 = Ok m ↔
  ∀ k, match m1 !! k, m2 !! k with
       | Some v1, Some v2 => ∃ v, merge_state v1 v2 = Ok v ∧ m !! k = Some v
       | Some v, None | None, Some v => m !! k = Some v
       | None, None => m !! k = None
       end.
Proof. apply upsert_merge_Ok. Qed.

Lemma merge_maps_total m1 m2 :
  (∀ k v1 v2, m1 !! k = Some v1 → m2 !! k = Some v2 → is_ok (merge_state v1 v2)) →
  is_ok (merge_maps m1 m2).
Proof.
  intros Hall. apply failure_None.
  destruct (failure (merge_maps m1 m2)) as [x|] eqn:Hf; [|done]. exfalso.
  apply upsert_merge_fail in Hf as (k & v1 & v2 & Hk1 & Hk2 & Hf & _).
  destruct (Hall k v1 v2) as [v Hv]; [done..|]. by rewrite Hv in Hf.
Qed.

(** Associativity at one key. *)
Lemma merge_maps_assoc_at m1 m2 m3 m12 m k v2 v3 :
  ok_map m1 → ok_map m2 → ok_map m3 → merge_maps m1 m2 = Ok m12 → merge_maps m12 m3 = Ok m →
  m2 !! k = Some v2 → m3 !! k = Some v3 →
  ∃ v23, merge_state v2 v3 = Ok v23 ∧
    match m1 !! k with
    | Some v1 => ∃ v, merge_state v1 v23 = Ok v ∧ m !! k = Some v
    | None => m !! k = Some v23
    end.
Proof.
  intros Hm1 Hm2 Hm3 H12 H123 Hk2 Hk3. rewrite merge_maps_Ok in H12, H123.
  specialize (H12 k). specialize (H123 k). rewrite Hk2 in H12. rewrite Hk3 in H123.
  destruct (m1 !! k) as [v1|] eqn:Hk1; simpl in *.
  - destruct H12 as (v12 & Hv12 & Hk12). rewrite Hk12 in H123. destruct H123 as (v & Hv & Hk).
    destruct (merge_assoc v1 v2 v3 v12 v) as (v23 & Hv23 & Hv'); eauto 10.
  - rewrite H12 in H123. destruct H123 as (v & Hv & Hk). eauto.
Qed.

Lemma merge_maps_laws : @MergeLaws (gmap K A) merge_maps ok_map.
Proof.
  split; unfold merge_state at 1.
  - intros m1 m2 Hm1 Hm2. apply upsert_merge_comm. intros k v1 v2 Hk1 Hk2.
    apply merge_comm; eauto.
  - intros m Hm. apply merge_maps_Ok. intros k.
    destruct (m !! k) as [v|] eqn:Hk; [|done]. exists v. split; [|done]. by apply merge_idem, (Hm k).
  - intros m1 m2 m Hm1 Hm2 Hm k v Hk. pose proof (proj1 (merge_maps_Ok m1 m2 m) Hm k) as Hmk. clear Hm. rename Hmk into Hm.
    rewrite Hk in Hm. destruct (m1 !! k) as [v1|] eqn:Hk1, (m2 !! k) as [v2|] eqn:Hk2;
      simpl in Hm; simplify_eq; eauto.
    destruct Hm as (v' & Hv' & [= ->]). eapply (merge_ok v1 v2); eauto.
  - intros m1 m2 m3 m12 m Hm1 Hm2 Hm3 H12 H123. unfold merge_state in *.
    pose proof (λ k v2 v3, merge_maps_assoc_at m1 m2 m3 m12 m k v2 v3 Hm1 Hm2 Hm3 H12 H123) as Hpoint.
    rewrite merge_maps_Ok in H12, H123. destruct (merge_maps_total m2 m3) as [m23 Hm23].
    { intros k v2 v3 Hk2 Hk3. destruct (Hpoint k v2 v3) as (v23 & ? & _); [done..|]. by exists v23. }
    exists m23. split; [done|]. apply merge_maps_Ok. intros k. rewrite merge_maps_Ok in Hm23.
    specialize (Hm23 k). specialize (H12 k). specialize (H123 k). specialize (Hpoint k).
    destruct (m2 !! k) as [v2|] eqn:Hk2, (m3 !! k) as [v3|] eqn:Hk3; simpl in *.
    + destruct (Hpoint v2 v3) as (v23 & Hv23 & Hp); [done..|].
      destruct Hm23 as (v23' & ? & Hk23). simplify_res. rewrite Hk23. by destruct (m1 !! k).
    + rewrite Hm23. destruct (m1 !! k); simpl in *; [|by rewrite H12 in H123].
      destruct H12 as (v12 & ? & Hk12). rewrite Hk12 in H123. eauto.
    + rewrite Hm23. destruct (m1 !! k); simpl in *; by rewrite H12 in H123.
    + rewrite Hm23. destruct (m1 !! k); simpl in *; by rewrite H12 in H123.
  - intros m1 m2 Hm1 Hm2 Hp.
    assert (failure (merge_maps m1 m2) = Some None) as Hf by by unfold merge_state in *; rewrite Hp.
    apply upsert_merge_fail in Hf as (k & v1 & v2 & Hk1 & Hk2 & Hf & _).
    apply (failure_Some _ None) in Hf. simpl in Hf.
    apply (merge_no_panic v1 v2); eauto.
Qed.
End maps.
