(* ===== verification/ScalarMerge.v ===== *)
(** * Merging and extending scalar registers

    The operations of [Scalar] that build registers: [merge],
    [from_revisions], [insert_revision] and [assign].  Valid registers form a
    partial join semilattice, an instance of [MergeLaws]. *)
From stdpp Require Import base tactics option list gmap relations sorting.
From Stdlib Require Import Lia.
From S2P Require Import Prelude BTree Bytes Id Error Worklist Scalar Causal Merge.
Import ScalarRegister.

#[export] Instance scalar_merge_state {T : Type} `{EqDecision T} :
  MergeState (ScalarRegister T) := ScalarRegister.merge.

Section merge.
Context {T : Type} `{!EqDecision T}.
Implicit Types (a b c r : ScalarRegister T).

(** No identity names two different statements. *)
Definition compatible a b : Prop :=
  ∀ x v w, revisions a !! x = Some v → revisions b !! x = Some w → v = w.

(** [x] names different statements in [a] and [b]. *)
Definition conflict a b (x : RevisionId) : Prop :=
  ∃ v w, revisions a !! x = Some v ∧ revisions b !! x = Some w ∧ v ≠ w.

Definition same_or_conflict (x : RevisionId) (v w : ScalarRevision T) :
    result CoreError (ScalarRevision T) :=
  if decide (v = w) then Ok v else Err (DuplicateRevisionConflict x).

Lemma same_or_conflict_Ok x v w u : same_or_conflict x v w = Ok u ↔ v = w ∧ u = v.
Proof. unfold same_or_conflict. case_decide; naive_solver. Qed.

Lemma merge_steps_upsert a b :
  try_fold merge_step (revisions a) (entries_asc (revisions b)) =
  upsert_all (merge_entry same_or_conflict) (revisions a) (revisions b).
Proof.
  apply try_fold_ext. intros m [x v] _. unfold upsert_step, merge_entry, same_or_conflict; simpl.
  destruct (m !! x) as [w|] eqn:Hx; simpl; [|done]. case_decide; simpl; [|done].
  by rewrite insert_id.
Qed.

Lemma merged_Ok a b m :
  upsert_all (merge_entry same_or_conflict) (revisions a) (revisions b) = Ok m ↔
  compatible a b ∧ m = revisions a ∪ revisions b.
Proof.
  rewrite upsert_merge_Ok. split.
  - intros Hm. split.
    + intros x v w Hv Hw. specialize (Hm x). rewrite Hv, Hw in Hm.
      by destruct Hm as (u & [-> _]%same_or_conflict_Ok & _).
    + apply map_eq. intros x. specialize (Hm x). rewrite lookup_union.
      destruct (revisions a !! x), (revisions b !! x); simpl; [|done..].
      by destruct Hm as (u & [_ ->]%same_or_conflict_Ok & ?).
  - intros [Hc ->] x. rewrite lookup_union.
    destruct (revisions a !! x) as [v|] eqn:Hv, (revisions b !! x) as [w|] eqn:Hw; [|done..].
    exists v. split; [|done]. apply same_or_conflict_Ok. split; [by eapply Hc|done].
Qed.

Lemma merged_fail a b x :
  failure (upsert_all (merge_entry same_or_conflict) (revisions a) (revisions b)) = Some x ↔
  ∃ y, x = Some (DuplicateRevisionConflict y) ∧ conflict a b y ∧
    ∀ z, conflict a b z → ord_le y z.
Proof.
  rewrite upsert_merge_fail. unfold conflict. split.
  - intros (y & v & w & Hv & Hw & Hf & Hlt). unfold same_or_conflict in Hf at 1.
    case_decide as Hvw; simplify_eq/=. exists y. split_and!; [done|eauto|].
    intros z (v' & w' & Hv' & Hw' & Hne). destruct (total ord_le y z) as [|Hzy]; [done|].
    apply ord_le_lt_eq in Hzy as [Hzy| ->]; [|by apply ord_le_lt_eq; right].
    destruct (Hlt z v' w' Hv' Hw' Hzy) as [u Hu]. by apply same_or_conflict_Ok in Hu as [? _].
  - intros (y & -> & (v & w & Hv & Hw & Hne) & Hmin). exists y, v, w.
    split_and!; [done..| |].
    + unfold same_or_conflict. by rewrite decide_False.
    + intros z v' w' Hv' Hw' Hlt. exists v'. apply same_or_conflict_Ok.
      destruct (decide (v' = w')) as [|Hne']; [done|]. exfalso.
      apply (ord_lt_irrefl z). destruct (proj1 (ord_le_lt_eq y z)) as [Hyz| ->]; [eauto 10| |done].
      by trans y.
Qed.

Lemma compatible_sym a b : compatible a b → compatible b a.
Proof. unfold compatible. intros Hc x v w Hv Hw. symmetry. eauto. Qed.

Lemma compatible_union_comm a b :
  compatible a b → revisions a ∪ revisions b = revisions b ∪ revisions a.
Proof.
  intros Hc. apply map_eq. intros x. rewrite !lookup_union.
  destruct (revisions a !! x) as [v|] eqn:Hv, (revisions b !! x) as [w|] eqn:Hw; [|done..].
  by rewrite (Hc x v w Hv Hw).
Qed.

(** ** The union of compatible valid registers is valid *)
Definition joined a b : ScalarRegister T := ScalarRegister_mk (revisions a ∪ revisions b).

Lemma joined_lookup_r a b x v :
  compatible a b → revisions b !! x = Some v → revisions (joined a b) !! x = Some v.
Proof.
  intros Hc Hv. simpl. rewrite compatible_union_comm by done. by apply lookup_union_Some_l.
Qed.

Lemma joined_has_parent a b x y :
  compatible a b → has_parent (joined a b) x y ↔ has_parent a x y ∨ has_parent b x y.
Proof.
  intros Hc. unfold has_parent. split.
  - intros (rev & [Hx|[_ Hx]]%lookup_union_Some_raw & Hy); eauto.
  - intros [(rev & Hx & Hy)|(rev & Hx & Hy)]; exists rev; split; try done.
    + by apply lookup_union_Some_l.
    + by apply joined_lookup_r.
Qed.

(** The ancestry of a revision of [a] lies inside [a]. *)
Lemma joined_ancestor_l a b x y :
  compatible a b → closed a → y ∈ dom (revisions a) →
  ancestor (joined a b) x y ↔ ancestor a x y.
Proof.
  intros Hc Hcl Hy.
  assert (∀ u v, u ∈ dom (revisions a) → has_parent (joined a b) u v → has_parent a u v) as Hloc.
  { intros u v [rev Hu]%elem_of_dom (rev' & Hu' & Hv).
    apply lookup_union_Some_raw in Hu' as [Hu'|[Hu' _]]; simplify_eq. by exists rev. }
  unfold ancestor. split.
  - intros Hxy. revert Hy. induction Hxy as [u v Huv|u v w Huv _ IH]; intros Hu.
    + apply tc_once. by apply Hloc.
    + apply Hloc in Huv; [|done]. eapply tc_l; [done|]. apply IH. by eapply Hcl.
  - intros Hxy. clear Hy. induction Hxy as [u v Huv|u v w Huv _ IH].
    + apply tc_once. apply joined_has_parent; auto.
    + eapply tc_l; [|done]. apply joined_has_parent; auto.
Qed.

Lemma joined_comm a b : compatible a b → joined a b = joined b a.
Proof. intros Hc. unfold joined. by rewrite compatible_union_comm. Qed.

Lemma joined_ancestor_r a b x y :
  compatible a b → closed b → y ∈ dom (revisions b) →
  ancestor (joined a b) x y ↔ ancestor b x y.
Proof.
  intros Hc. rewrite joined_comm by done. apply joined_ancestor_l. by apply compatible_sym.
Qed.

Lemma joined_valid a b : compatible a b → valid a → valid b → valid (joined a b).
Proof.
  intros Hc (Hka & Hca & Haa) (Hkb & Hcb & Hab). split_and!.
  - intros x rev [Hx|[_ Hx]]%lookup_union_Some_raw; eauto.
  - intros x p [Hp|Hp]%joined_has_parent; [| |done]; simpl; rewrite dom_union_L, elem_of_union;
      eauto.
  - intros x Hx. pose proof (ancestor_dom _ _ _ Hx) as Hd. simpl in Hd.
    rewrite dom_union_L, elem_of_union in Hd. destruct Hd as [Hd|Hd].
    + apply joined_ancestor_l in Hx; [|done..]. by apply (Haa x).
    + apply joined_ancestor_r in Hx; [|done..]. by apply (Hab x).
Qed.

(** ** [merge] *)
Lemma merge_Ok a b c :
  valid a → valid b → merge a b = Ok c ↔ compatible a b ∧ c = joined a b.
Proof.
  intros Ha Hb. unfold merge. rewrite merge_steps_upsert. split.
  - intros Hm. inv_ok. apply merged_Ok in H as [Hc ->]. done.
  - intros [Hc ->]. rewrite (proj2 (merged_Ok a b _) (conj Hc eq_refl)). cbn [mbind result_bind].
    destruct (joined_valid a b Hc Ha Hb) as (_ & Hcl & Hac).
    change (ScalarRegister_mk (revisions a ∪ revisions b)) with (joined a b).
    by rewrite (proj2 (validate_Ok (joined a b) tt)).
Qed.

Lemma merge_fail a b x :
  valid a → valid b →
  failure (merge a b) = Some x ↔
  ∃ y, x = Some (DuplicateRevisionConflict y) ∧ conflict a b y ∧
    ∀ z, conflict a b z → ord_le y z.
Proof.
  intros Ha Hb. rewrite <-merged_fail. unfold merge. rewrite merge_steps_upsert, failure_bind.
  split; [|auto]. intros [?|(m & [Hc ->]%merged_Ok & Hf)]; [done|]. exfalso.
  destruct (joined_valid a b Hc Ha Hb) as (_ & Hcl & Hac).
  change (ScalarRegister_mk (revisions a ∪ revisions b)) with (joined a b) in Hf.
  by rewrite (proj2 (validate_Ok (joined a b) tt)) in Hf.
Qed.

Lemma compatible_no_conflict a b : compatible a b ↔ ∀ x, ¬ conflict a b x.
Proof.
  unfold compatible, conflict. split; [naive_solver|].
  intros Hn x v w Hv Hw. destruct (decide (v = w)); [done|]. destruct (Hn x). eauto 10.
Qed.

Lemma conflict_sym a b x : conflict a b x ↔ conflict b a x.
Proof. unfold conflict. naive_solver. Qed.

#[export] Instance scalar_merge_laws : MergeLaws (ScalarRegister T) valid.
Proof.
  split; unfold merge_state, scalar_merge_state.
  - intros a b Ha Hb. apply result_eq_failure.
    + intros c. rewrite !merge_Ok by done. split; intros [Hc ->];
        (split; [by apply compatible_sym|]); apply joined_comm; [done|].
      done.
    + intros x. rewrite !merge_fail by done.
      setoid_rewrite (conflict_sym a b). done.
  - intros a Ha. apply merge_Ok; [done..|]. split.
    + intros x v w Hv Hw. congruence.
    + destruct a as [m]. unfold joined; simpl. f_equal. symmetry. apply (idemp (∪)).
  - intros a b c Ha Hb [Hc ->]%merge_Ok; [|done..]. by apply joined_valid.
  - intros a b c ab abc Ha Hb Hc [Hab ->]%merge_Ok H2; [|done..].
    apply merge_Ok in H2 as [Habc ->]; [|by apply joined_valid|done].
    assert (compatible b c) as Hbc.
    { intros x v w Hv Hw. eapply Habc; [|done]. by apply joined_lookup_r. }
    exists (joined b c). split; [by apply merge_Ok|].
    apply merge_Ok; [done|by apply joined_valid|]. split.
    + intros x v w Hv [Hw|[_ Hw]]%lookup_union_Some_raw; [by eapply Hab|].
      eapply Habc; [|done]. by apply lookup_union_Some_l.
    + unfold joined; simpl. by rewrite (assoc_L (∪)).
  - intros a b Ha Hb Hp. assert (failure (merge a b) = Some None) as Hf by by rewrite Hp.
    apply merge_fail in Hf as (? & ? & _); done.
Qed.

(** ** Nothing is rolled back *)
Lemma merge_ancestor_l a b c x y :
  valid a → valid b → merge a b = Ok c → y ∈ dom (revisions a) →
  ancestor c x y ↔ ancestor a x y.
Proof.
  intros Ha Hb [Hc ->]%merge_Ok Hy; [|done..]. apply joined_ancestor_l; [done| |done]. apply Ha.
Qed.

Lemma merge_ancestor_r a b c x y :
  valid a → valid b → merge a b = Ok c → y ∈ dom (revisions b) →
  ancestor c x y ↔ ancestor b x y.
Proof.
  intros Ha Hb [Hc ->]%merge_Ok Hy; [|done..]. apply joined_ancestor_r; [done| |done]. apply Hb.
Qed.

Lemma merge_dom a b c :
  valid a → valid b → merge a b = Ok c →
  dom (revisions c) = dom (revisions a) ∪ dom (revisions b).
Proof. intros Ha Hb [_ ->]%merge_Ok; [|done..]. apply dom_union_L. Qed.

(** The frontier of a merge: the revisions maximal on every side that knows
    them. *)
Lemma merge_frontier a b c x :
  valid a → valid b → merge a b = Ok c →
  x ∈ frontier_ids c ↔
  (x ∈ dom (revisions a) ∨ x ∈ dom (revisions b)) ∧
  (∀ d, ¬ ancestor a x d) ∧ (∀ d, ¬ ancestor b x d).
Proof.
  intros Ha Hb Hm. rewrite elem_of_frontier_ids, (merge_dom a b c), elem_of_union by done.
  apply and_iff_compat_l. split.
  - intros Hn. split; intros d Hd; apply (Hn d).
    + rewrite (merge_ancestor_l a b c); [done..|]. by eapply ancestor_dom.
    + rewrite (merge_ancestor_r a b c); [done..|]. by eapply ancestor_dom.
  - intros [Hna Hnb] d Hd. pose proof (ancestor_dom _ _ _ Hd) as Hdd.
    rewrite (merge_dom a b c), elem_of_union in Hdd by done. destruct Hdd as [Hdd|Hdd].
    + apply (Hna d). by rewrite <-(merge_ancestor_l a b c).
    + apply (Hnb d). by rewrite <-(merge_ancestor_r a b c).
Qed.

(** Merging a state that is already known changes nothing. *)
Lemma merge_stale a b :
  valid a → valid b → revisions b ⊆ revisions a → merge a b = Ok a.
Proof.
  intros Ha Hb Hsub. apply merge_Ok; [done..|]. split.
  - intros x v w Hv Hw. eapply lookup_weaken in Hw; [|done]. congruence.
  - destruct a as [m]. unfold joined; simpl in *. f_equal.
    symmetry. apply map_eq. intros x. rewrite lookup_union.
    destruct (m !! x) eqn:Hx; [by destruct (revisions b !! x)|].
    destruct (revisions b !! x) eqn:Hbx; [|done].
    eapply lookup_weaken in Hbx; [|done]. congruence.
Qed.
End merge.

(** ** Extending a register *)
Section extend.
Context {T : Type} `{!EqDecision T}.
Implicit Types (r : ScalarRegister T) (rev : ScalarRevision T).

Definition extended r rev : ScalarRegister T :=
  ScalarRegister_mk (<[sr_id rev := rev]> (revisions r)).

(** The outcome of [insert_revision] on every branch. *)
Lemma insert_revision_cases r rev :
  match revisions r !! sr_id rev with
  | Some existing =>
      insert_revision rev r =
        (r, if decide (existing = rev) then Ok tt
            else Err (DuplicateRevisionConflict (sr_id rev)))
  | None =>
      (sr_parents rev ⊆ dom (revisions r) ∧ insert_revision rev r = (extended r rev, Ok tt)) ∨
      (∃ p, p ∈ sr_parents rev ∧ p ∉ dom (revisions r) ∧
        insert_revision rev r = (r, Err (MissingParent (sr_id rev) p)))
  end.
Proof.
  unfold insert_revision, mbind, stateful_bind, get_state, lift_result.
  destruct (revisions r !! sr_id rev); [by case_decide|].
  destruct (check_parents r rev) as [u|e|] eqn:Hc.
  - left. split; [|done]. intros p. by apply (check_parents_Ok r rev u).
  - right. destruct (check_parents_fail r rev (Some e)) as (p & ? & ? & [= ->]); [by rewrite Hc|].
    eauto.
  - destruct (check_parents_fail r rev None) as (p & ? & ? & ?); [by rewrite Hc|done].
Qed.

Lemma extended_has_parent r rev c p :
  revisions r !! sr_id rev = None →
  has_parent (extended r rev) c p ↔ has_parent r c p ∨ (c = sr_id rev ∧ p ∈ sr_parents rev).
Proof.
  intros Hfresh. unfold has_parent, extended; simpl. split.
  - intros (rev' & [[<- <-]|[Hne Hc]]%lookup_insert_Some & Hp); eauto.
  - intros [(rev' & Hc & Hp)|[-> Hp]].
    + exists rev'. split; [|done]. rewrite lookup_insert_ne; [done|]. by intros <-; simplify_eq.
    + exists rev. by rewrite lookup_insert_eq.
Qed.

(** A fresh revision is above its parents and below nothing. *)
Lemma extended_ancestor r rev a d :
  closed r → revisions r !! sr_id rev = None → sr_parents rev ⊆ dom (revisions r) →
  ancestor (extended r rev) a d ↔
  ancestor r a d ∨
  (d = sr_id rev ∧ ∃ p, p ∈ sr_parents rev ∧ (a = p ∨ ancestor r a p)).
Proof.
  intros Hcl Hfresh Hps. unfold ancestor. split.
  - induction 1 as [d a Hda|d p a Hdp Hpa IH].
    + apply extended_has_parent in Hda as [?|[-> ?]]; [left; by apply tc_once|right; eauto|done].
    + apply extended_has_parent in Hdp; [|done].
      assert (p ≠ sr_id rev) as Hne.
      { intros ->. assert (sr_id rev ∈ dom (revisions r)) as [??]%elem_of_dom; [|by simplify_eq].
        destruct Hdp as [Hdp|[_ Hp]]; [by eapply Hcl|by apply Hps]. }
      destruct IH as [IH|[-> _]]; [|done].
      destruct Hdp as [Hdp|[-> Hp]]; [left; by eapply tc_l|right; eauto].
  - assert (∀ u v, has_parent r u v → has_parent (extended r rev) u v) as Hmono.
    { intros u v Huv. apply extended_has_parent; auto. }
    assert (∀ u v, tc (has_parent r) u v → tc (has_parent (extended r rev)) u v) as Hmono'.
    { induction 1; [apply tc_once; auto|eapply tc_l; eauto]. }
    intros [Hda|[-> (p & Hp & [-> |Hpa])]]; [by apply Hmono'|..].
    + apply tc_once. apply extended_has_parent; auto.
    + eapply tc_l; [apply extended_has_parent; [done|by right; eauto]|]. by apply Hmono'.
Qed.

Lemma extended_valid r rev :
  valid r → revisions r !! sr_id rev = None → sr_parents rev ⊆ dom (revisions r) →
  valid (extended r rev).
Proof.
  intros (Hk & Hcl & Hac) Hfresh Hps. split_and!.
  - intros x rev' Hx. simpl in Hx. apply lookup_insert_Some in Hx as [[<- <-]|[_ Hx]]; eauto.
  - intros c p Hp. simpl. rewrite dom_insert_L, elem_of_union. right.
    apply extended_has_parent in Hp as [Hp|[_ Hp]]; [by eapply Hcl|by apply Hps|done].
  - intros x [Hx|[-> (p & Hp & Hpx)]]%extended_ancestor; [by apply (Hac x)| |done..].
    assert (sr_id rev ∈ dom (revisions r)) as [??]%elem_of_dom; [|by simplify_eq].
    destruct Hpx as [-> |Hpx]; [by apply Hps|by eapply ancestor_closed].
Qed.

Lemma insert_revision_valid r rev : valid r → valid (insert_revision rev r).1.
Proof.
  intros Hv. pose proof (insert_revision_cases r rev) as Hi.
  destruct (revisions r !! sr_id rev) eqn:Hx; [by rewrite Hi|].
  destruct Hi as [[Hps ->]|(p & _ & _ & ->)]; [by apply extended_valid|done].
Qed.

(** A fresh assignment becomes the whole frontier. *)
Lemma assign_fresh r x (v : T) :
  valid r → revisions r !! x = None →
  let r' := extended r (ScalarRevision.new x v (frontier_ids r)) in
  assign x v r = (r', Ok tt) ∧ valid r' ∧ frontier_ids r' = {[x]} ∧
  materialized r' = Some v ∧ ∀ a, a ∈ dom (revisions r) → ancestor r' a x.
Proof.
  intros Hv Hx r'. set (rev := ScalarRevision.new x v (frontier_ids r)) in *.
  assert (valid r') as Hv' by (apply extended_valid; [done|done|apply frontier_subseteq]).
  assert (∀ a, a ∈ dom (revisions r) → ancestor r' a x) as Hall.
  { intros a Ha. destruct (frontier_covers r a) as (f & Hf & Hfa); [apply Hv|done|].
    apply (extended_ancestor r rev); [apply Hv|done|apply frontier_subseteq|].
    right. split; [done|]. exists f. destruct Hfa as [-> |?]; auto. }
  assert (frontier_ids r' = {[x]}) as Hf.
  { apply set_eq. intros y. rewrite elem_of_frontier_ids, elem_of_singleton. split.
    - intros [Hy Hn]. unfold r' in Hy; simpl in Hy. rewrite dom_insert_L in Hy.
      apply elem_of_union in Hy as [->%elem_of_singleton|Hy]; [done|].
      by destruct (Hn x (Hall y Hy)).
    - intros ->. split; [simpl; rewrite dom_insert_L; set_solver|].
      intros d Hd. apply (extended_ancestor r rev) in Hd; [|apply Hv|done|apply frontier_subseteq].
      assert (x ∉ dom (revisions r)) as Hnx by by apply not_elem_of_dom.
      apply Hnx. destruct Hd as [Hd|[_ (p & Hp & [-> |Hd])]].
      + eapply ancestor_closed; [apply Hv|done].
      + by apply frontier_subseteq in Hp.
      + eapply ancestor_closed; [apply Hv|done]. }
  split_and!; [|done..| |done].
  - unfold assign, mbind, stateful_bind, get_state. fold rev.
    pose proof (insert_revision_cases r rev) as Hi. simpl in Hi. rewrite Hx in Hi.
    destruct Hi as [[_ ->]|(p & Hp & Hnp & _)]; [done|].
    by apply frontier_subseteq in Hp.
  - unfold materialized, materialized_revision. rewrite Hf.
    assert (last (elements_asc ({[x]} : gset RevisionId)) = Some x) as ->.
    { apply last_elements_asc. split; [set_solver|]. intros y ->%elem_of_singleton.
      apply ord_le_lt_eq. by right. }
    simpl. by rewrite lookup_insert_eq.
Qed.

(** Reusing a known identity is always refused, even with the same value: the
    existing statement cannot have the current frontier as its parents. *)
Lemma assign_known r x (v : T) :
  valid r → x ∈ dom (revisions r) →
  assign x v r = (r, Err (DuplicateRevisionConflict x)).
Proof.
  intros (Hk & Hcl & Hac) Hdom. pose proof Hdom as [rev Hx]%elem_of_dom.
  unfold assign, mbind, stateful_bind, get_state.
  pose proof (insert_revision_cases r (ScalarRevision.new x v (frontier_ids r))) as Hi.
  simpl in Hi. rewrite Hx in Hi. rewrite Hi. rewrite decide_False; [done|]. intros ->.
  destruct (frontier_covers r x) as (f & Hf & Hfx); [done..|].
  assert (ancestor r f x) as Hxf by (apply tc_once; by eexists).
  destruct Hfx as [-> |Hfx]; [by apply (Hac x)|]. apply (Hac x). by eapply ancestor_trans.
Qed.
End extend.

(** ** [from_revisions] *)
Section import.
Context {T : Type} `{!EqDecision T}.
Implicit Types (r : ScalarRegister T) (m : gmap RevisionId (ScalarRevision T)).

Lemma from_revisions_step_eq m rev :
  from_revisions_step m rev =
  match m !! sr_id rev with
  | Some existing =>
      if decide (existing = rev) then Ok m else Err (DuplicateRevisionConflict (sr_id rev))
  | None => Ok (<[sr_id rev := rev]> m)
  end.
Proof. done. Qed.

Lemma from_revisions_steps_Ok m l m' :
  try_fold from_revisions_step m l = Ok m' ↔
  m ⊆ m' ∧ (∀ rev, rev ∈ l → m' !! sr_id rev = Some rev) ∧
  (∀ x rev, m' !! x = Some rev → m !! x = Some rev ∨ (rev ∈ l ∧ sr_id rev = x)).
Proof.
  revert m. induction l as [|rev l IH]; intros m; cbn [try_fold].
  - split.
    + intros [= ->]. split_and!; [done| |auto]. intros ? Hin. by apply not_elem_of_nil in Hin.
    + intros (Hsub & _ & Hback). f_equal. apply (anti_symm (⊆)); [done|].
      apply map_subseteq_spec. intros x rev Hx.
      destruct (Hback x rev Hx) as [?|[Hin _]]; [done|]. by apply not_elem_of_nil in Hin.
  - rewrite from_revisions_step_eq. destruct (m !! sr_id rev) as [existing|] eqn:Hx.
    + case_decide as Heq; cbn [mbind result_bind].
      * subst existing. rewrite IH. split.
        -- intros (Hsub & Hl & Hback). split_and!; [done| |].
           ++ intros rev' [-> |?]%elem_of_cons; [by eapply lookup_weaken|auto].
           ++ intros y rev' Hy. destruct (Hback y rev' Hy) as [?|[??]]; [auto|].
              right. split; [by right|done].
        -- intros (Hsub & Hl & Hback). split_and!; [done|intros; apply Hl; by right|].
           intros y rev' Hy. destruct (Hback y rev' Hy) as [?|[[-> |?]%elem_of_cons <-]]; auto.
      * split; [done|]. intros (Hsub & Hl & _). destruct Heq.
        eapply lookup_weaken in Hx; [|done]. rewrite (Hl rev) in Hx; [by simplify_eq|by left].
    + cbn [mbind result_bind]. rewrite IH. split.
      * intros (Hsub & Hl & Hback). split_and!.
        -- etrans; [by apply insert_subseteq|done].
        -- intros rev' [-> |?]%elem_of_cons; [|auto].
           eapply lookup_weaken; [|done]. by rewrite lookup_insert_eq.
        -- intros y rev' Hy. destruct (Hback y rev' Hy) as [Hy'|[??]].
           ++ apply lookup_insert_Some in Hy' as [[<- <-]|[_ ?]]; [right|by left].
              split; [by left|done].
           ++ right. split; [by right|done].
      * intros (Hsub & Hl & Hback). split_and!; [|intros; apply Hl; by right|].
        -- apply insert_subseteq_l; [|done]. apply Hl. by left.
        -- intros y rev' Hy. destruct (Hback y rev' Hy) as [Hy'|[[-> |?]%elem_of_cons <-]].
           ++ left. rewrite lookup_insert_ne; [done|]. by intros <-; simplify_eq.
           ++ left. by rewrite lookup_insert_eq.
           ++ by right.
Qed.

(** Import accepts a list exactly when it enumerates a valid register. *)
Lemma from_revisions_Ok l r :
  from_revisions l = Ok r ↔
  valid r ∧ ∀ rev, rev ∈ l ↔ revisions r !! sr_id rev = Some rev.
Proof.
  unfold from_revisions. split.
  - intros Hf. inv_ok. apply from_revisions_steps_Ok in H as (_ & Hl & Hback).
    assert (∀ y rev, x !! y = Some rev → rev ∈ l ∧ sr_id rev = y) as Hback'.
    { intros y rev Hy. destruct (Hback y rev Hy) as [He|?]; [|done]. by rewrite lookup_empty in He. }
    split.
    + apply validate_Ok in H0 as [??]. split_and!; [|done..].
      intros y rev Hy. by apply Hback'.
    + intros rev. split; [apply Hl|]. intros Hy. by apply Hback' in Hy as [? _].
  - intros ((Hk & Hcl & Hac) & Hl).
    assert (try_fold from_revisions_step ∅ l = Ok (revisions r)) as ->.
    { apply from_revisions_steps_Ok. split_and!; [apply map_empty_subseteq|apply Hl|].
      intros y rev Hy. right. pose proof (Hk y rev Hy) as Hid.
      split; [|done]. apply Hl. by rewrite Hid. }
    cbn [mbind result_bind]. destruct r as [m]; simpl.
    by rewrite (proj2 (validate_Ok (ScalarRegister_mk m) tt)).
Qed.

Lemma from_revisions_iter r : valid r → from_revisions (revisions_iter r) = Ok r.
Proof.
  intros Hv. apply from_revisions_Ok. split; [done|]. intros rev.
  unfold revisions_iter. rewrite elem_of_values_asc. split; [|by eauto].
  intros [x Hx]. by rewrite (proj1 Hv x rev Hx).
Qed.

Lemma from_revisions_not_panic (l : list (ScalarRevision T)) : from_revisions l ≠ Panic.
Proof.
  unfold from_revisions. intros Hp. apply bind_Panic in Hp as [Hp|(m & _ & Hp)].
  - revert Hp. generalize (∅ : gmap RevisionId (ScalarRevision T)) as m.
    induction l as [|rev l IH]; intros m; cbn [try_fold]; [done|].
    rewrite from_revisions_step_eq. destruct (m !! sr_id rev); [case_decide|];
      cbn [mbind result_bind]; [apply IH|done|apply IH].
  - apply bind_Panic in Hp as [Hp|(? & _ & [=])]. by apply validate_not_panic in Hp.
Qed.
End import.

Lemma new_valid {T : Type} : valid (ScalarRegister.new (T := T)).
Proof.
  split_and!.
  - intros x rev Hx. simpl in Hx. by rewrite lookup_empty in Hx.
  - intros c p (rev & Hc & _). simpl in Hc. by rewrite lookup_empty in Hc.
  - intros x Hx%ancestor_dom. set_solver.
Qed.

Lemma assign_valid {T : Type} `{EqDecision T} (r : ScalarRegister T) x v :
  valid r → valid (assign x v r).1.
Proof.
  intros Hv. destruct (revisions r !! x) as [rev|] eqn:Hx.
  - rewrite assign_known; [done..|]. apply elem_of_dom. by eexists.
  - destruct (assign_fresh r x v) as (-> & ? & _); done.
Qed.

Lemma assign_all_valid {T : Type} `{EqDecision T} l (r : ScalarRegister T) :
  valid r → valid (assign_all l r).
Proof.
  unfold assign_all. revert r. induction l as [|e l IH]; intros r Hr; [done|].
  apply IH. by apply assign_valid.
Qed.

Lemma register_of_valid {T : Type} `{EqDecision T} (l : list (RevisionId * T)) :
  valid (register_of l).
Proof. apply assign_all_valid, new_valid. Qed.
