(* ===== verification/State.v ===== *)
(** * Atom maps and continuum state (crates/apc-core/src/state.rs)

    [AtomMap] and [ContinuumState] lift a payload's merge to maps of atoms.
    Their laws are proved from the payload's [MergeLaws] alone. *)
From stdpp Require Import base tactics option list gmap.
From S2P Require Import Prelude BTree Bytes Id Error Merge.

Record AtomMap (A : Type) : Type := AtomMap_mk {
  atoms : gmap AtomId A;
}.
Arguments AtomMap_mk {A} _.
Arguments atoms {A} _.

Module AtomMap.
Section AtomMap.
Context {A : Type}.
Implicit Types (self other : AtomMap A).

Definition new : AtomMap A := AtomMap_mk ∅.
Definition len self : nat := size (atoms self).
Definition is_empty self : bool := bool_decide (size (atoms self) = 0).
Definition get self (atom_id : AtomId) : option A := atoms self !! atom_id.
Definition iter self : list (AtomId * A) := entries_asc (atoms self).

(** [get_mut]: runs an update on the atom's state when it is present. *)
Definition get_mut self (atom_id : AtomId) (update : A → A) : option (AtomMap A) :=
  atom ← atoms self !! atom_id;
  Some (AtomMap_mk (<[atom_id := update atom]> (atoms self))).

Definition insert_new (atom_id : AtomId) (atom : A) : stateful (AtomMap A) CoreError unit :=
  self ← get_state;
  if decide (is_Some (atoms self !! atom_id)) then throw (DuplicateAtomId atom_id)
  else put_state (AtomMap_mk (<[atom_id := atom]> (atoms self))).

Context `{!MergeState A}.

Definition merge_atom (merged : gmap AtomId A) (entry : AtomId * A) :
    result CoreError (gmap AtomId A) :=
  let '(atom_id, right_atom) := entry in
  match merged !! atom_id with
  | Some left_atom =>
      value ← merge_state left_atom right_atom;
      Ok (<[atom_id := value]> merged)
  | None => Ok (<[atom_id := right_atom]> merged)
  end.

Definition merge_state self other : result CoreError (AtomMap A) :=
  merged ← try_fold merge_atom (atoms self) (entries_asc (atoms other));
  Ok (AtomMap_mk merged).
End AtomMap.
End AtomMap.

#[export] Instance atom_map_merge_state {A : Type} `{MergeState A} : MergeState (AtomMap A) :=
  AtomMap.merge_state.

Record ContinuumState (A : Type) : Type := ContinuumState_mk {
  continuum_id : ContinuumId;
  continuum_atoms : AtomMap A;
}.
Arguments ContinuumState_mk {A} _ _.
Arguments continuum_id {A} _.
Arguments continuum_atoms {A} _.

Module ContinuumState.
Section ContinuumState.
Context {A : Type} `{!MergeState A}.
Implicit Types (self other : ContinuumState A).

Definition new (continuum_id : ContinuumId) : ContinuumState A :=
  ContinuumState_mk continuum_id AtomMap.new.

Definition merge_state self other : result CoreError (ContinuumState A) :=
  if decide (continuum_id self ≠ continuum_id other) then
    Err (ContinuumMismatch (continuum_id self) (continuum_id other))
  else
    atoms ← merge_state (continuum_atoms self) (continuum_atoms other);
    Ok (ContinuumState_mk (continuum_id self) atoms).
End ContinuumState.
End ContinuumState.

#[export] Instance continuum_merge_state {A : Type} `{MergeState A} :
  MergeState (ContinuumState A) := ContinuumState.merge_state.

(** ** Laws *)
Section laws.
Context {A : Type} `{MergeLaws A ok}.
Implicit Types (m : AtomMap A) (s : ContinuumState A).

Definition ok_atoms m : Prop := ok_map (ok := ok) (atoms m).

(** States of one continuum: states of different continua never merge. *)
Definition ok_continuum (c : ContinuumId) s : Prop :=
  continuum_id s = c ∧ ok_atoms (continuum_atoms s).

Lemma merge_atoms_eq (m1 m2 : gmap AtomId A) :
  try_fold AtomMap.merge_atom m1 (entries_asc m2) = merge_maps m1 m2.
Proof.
  apply try_fold_ext. intros m [x v] _. unfold upsert_step, merge_entry; simpl.
  by destruct (m !! x).
Qed.

Lemma atom_merge_Ok m1 m2 m :
  AtomMap.merge_state m1 m2 = Ok m ↔ merge_maps (atoms m1) (atoms m2) = Ok (atoms m).
Proof.
  unfold AtomMap.merge_state. rewrite merge_atoms_eq. destruct m as [m]; simpl.
  destruct (merge_maps _ _); simpl; naive_solver.
Qed.

#[export] Instance atom_map_merge_laws : MergeLaws (AtomMap A) ok_atoms.
Proof.
  pose proof (merge_maps_laws (K := AtomId) (ok := ok)) as L.
  split; unfold merge_state, atom_map_merge_state, ok_atoms.
  - intros a b Ha Hb. unfold AtomMap.merge_state. rewrite !merge_atoms_eq.
    pose proof (merge_comm (MergeLaws := L) _ _ Ha Hb) as Hc.
    unfold merge_state in Hc. by rewrite Hc.
  - intros a Ha. apply atom_merge_Ok. apply (merge_idem (MergeLaws := L) _ Ha).
  - intros a b c Ha Hb Hm%atom_merge_Ok. apply (merge_ok (MergeLaws := L) _ _ _ Ha Hb Hm).
  - intros a b c ab abc Ha Hb Hc H1%atom_merge_Ok H2%atom_merge_Ok.
    destruct (merge_assoc (MergeLaws := L) _ _ _ _ _ Ha Hb Hc H1 H2) as (bc & H3 & H4).
    exists (AtomMap_mk bc). by rewrite !atom_merge_Ok.
  - intros a b Ha Hb. unfold AtomMap.merge_state. rewrite merge_atoms_eq.
    intros [Hp|(? & _ & [=])]%bind_Panic. by apply (merge_no_panic (MergeLaws := L) _ _ Ha Hb).
Qed.

Lemma continuum_merge_Ok s1 s2 s :
  ContinuumState.merge_state s1 s2 = Ok s ↔
  continuum_id s1 = continuum_id s2 ∧ continuum_id s = continuum_id s1 ∧
  merge_state (continuum_atoms s1) (continuum_atoms s2) = Ok (continuum_atoms s).
Proof.
  unfold ContinuumState.merge_state. destruct s as [c m]; simpl. case_decide as Hc.
  - naive_solver.
  - destruct (merge_state _ _); simpl; naive_solver.
Qed.

#[export] Instance continuum_merge_laws c : MergeLaws (ContinuumState A) (ok_continuum c).
Proof.
  split; unfold merge_state at 1, continuum_merge_state at 1, ok_continuum.
  - intros a b [Ha1 Ha2] [Hb1 Hb2]. unfold merge_state at 1, continuum_merge_state.
    unfold ContinuumState.merge_state. rewrite Ha1, Hb1, merge_comm by done. done.
  - intros a [Ha1 Ha2]. apply continuum_merge_Ok. split_and!; [done..|]. by apply merge_idem.
  - intros a b c' [Ha1 Ha2] [Hb1 Hb2] (? & ? & Hm)%continuum_merge_Ok. split; [congruence|].
    by apply (merge_ok (continuum_atoms a) (continuum_atoms b)).
  - unfold merge_state at 1 2 3, continuum_merge_state.
    intros a b c' ab abc [Ha1 Ha2] [Hb1 Hb2] [Hc1 Hc2]
      (? & ? & Hm1)%continuum_merge_Ok (? & ? & Hm2)%continuum_merge_Ok.
    destruct (merge_assoc _ _ _ _ _ Ha2 Hb2 Hc2 Hm1 Hm2) as (bc & Hm3 & Hm4).
    exists (ContinuumState_mk c bc). rewrite !continuum_merge_Ok; simpl.
    split_and!; congruence || done.
  - intros a b [Ha1 Ha2] [Hb1 Hb2]. unfold ContinuumState.merge_state.
    rewrite decide_False by naive_solver congruence.
    intros [Hp|(? & _ & [=])]%bind_Panic. by apply (merge_no_panic _ _ Ha2 Hb2).
Qed.
End laws.
