(* ===== verification/Working.v ===== *)
(** * Working epochs (crates/apc-core/src/working.rs)

    [WorkingScalar] couples a portable register with at most one local editing
    epoch.  Its invariant [working_ok] is that a pending epoch still observes
    the register's current frontier: no operation may change the register under
    an open epoch without sealing it first. *)
From stdpp Require Import base tactics option list gmap.
From S2P Require Import Prelude BTree Bytes Id Error Worklist Scalar Causal Merge ScalarMerge.

Record WorkingEpoch (T : Type) : Type := WorkingEpoch_mk {
  we_id : WorkingEpochId;
  we_value : T;
  observed_frontier : gset RevisionId;
}.
Arguments WorkingEpoch_mk {T} _ _ _.
Arguments we_id {T} _.
Arguments we_value {T} _.
Arguments observed_frontier {T} _.

#[export] Instance WorkingEpoch_eq_dec {T : Type} `{EqDecision T} : EqDecision (WorkingEpoch T).
Proof. solve_decision. Defined.

Record WorkingSnapshot (T : Type) : Type := WorkingSnapshot_mk {
  ws_causal : ScalarRegister T;
  ws_pending : option (WorkingEpoch T);
}.
Arguments WorkingSnapshot_mk {T} _ _.
Arguments ws_causal {T} _.
Arguments ws_pending {T} _.

Record WorkingScalar (T : Type) : Type := WorkingScalar_mk {
  causal : ScalarRegister T;
  pending : option (WorkingEpoch T);
}.
Arguments WorkingScalar_mk {T} _ _.
Arguments causal {T} _.
Arguments pending {T} _.

#[export] Instance WorkingSnapshot_eq_dec {T : Type} `{EqDecision T} :
  EqDecision (WorkingSnapshot T).
Proof. solve_decision. Defined.

#[export] Instance WorkingScalar_eq_dec {T : Type} `{EqDecision T} :
  EqDecision (WorkingScalar T).
Proof. solve_decision. Defined.

Module WorkingScalar.
Section WorkingScalar.
Context {T : Type} `{!EqDecision T}.
Implicit Types (self : WorkingScalar T) (remote : ScalarRegister T).

Definition from_causal (causal : ScalarRegister T) : result CoreError (WorkingScalar T) :=
  _ ← ScalarRegister.validate causal;
  Ok (WorkingScalar_mk causal None).

Definition is_dirty self : bool := bool_decide (is_Some (pending self)).

Definition working_value self : option T :=
  match we_value <$> pending self with
  | Some value => Some value
  | None => ScalarRegister.materialized (causal self)
  end.

Definition begin_epoch (epoch_id : WorkingEpochId) (value : T) :
    stateful (WorkingScalar T) CoreError unit :=
  self ← get_state;
  match pending self with
  | Some epoch => throw (WorkingEpochAlreadyOpen (we_id epoch))
  | None =>
      put_state (WorkingScalar_mk (causal self)
        (Some (WorkingEpoch_mk epoch_id value (ScalarRegister.frontier_ids (causal self)))))
  end.

Definition update_pending (value : T) : stateful (WorkingScalar T) CoreError unit :=
  self ← get_state;
  match pending self with
  | None => throw NoWorkingEpoch
  | Some epoch =>
      put_state (WorkingScalar_mk (causal self)
        (Some (WorkingEpoch_mk (we_id epoch) value (observed_frontier epoch))))
  end.

Definition set_causal (causal : ScalarRegister T) self : WorkingScalar T :=
  WorkingScalar_mk causal (pending self).

Definition seal (revision_id : RevisionId) :
    stateful (WorkingScalar T) CoreError (ScalarRevision T) :=
  self ← get_state;
  match ScalarRegister.revision (causal self) revision_id with
  | Some _ => throw (RevisionAlreadyKnown revision_id)
  | None =>
      match pending self with
      | None => throw NoWorkingEpoch
      | Some epoch =>
          let revision :=
            ScalarRevision.new revision_id (we_value epoch) (observed_frontier epoch) in
          _ ← on_field causal set_causal (ScalarRegister.insert_revision revision);
          self ← get_state;
          _ ← put_state (WorkingScalar_mk (causal self) None);
          mret revision
      end
  end.

Definition observe_remote remote (pre_observation_revision_id : option RevisionId) :
    stateful (WorkingScalar T) CoreError (option (ScalarRevision T)) :=
  _ ← lift_result (ScalarRegister.validate remote);
  self ← get_state;
  sealed ← match pending self, pre_observation_revision_id with
           | Some _, Some revision_id =>
               revision ← seal revision_id;
               mret (Some revision)
           | Some _, None => throw DirtyObservationRequiresSeal
           | None, Some revision_id => throw (UnexpectedPreObservationRevision revision_id)
           | None, None => mret None
           end;
  self ← get_state;
  merged ← lift_result (ScalarRegister.merge (causal self) remote);
  _ ← put_state (set_causal merged self);
  mret sealed.

Definition snapshot self : WorkingSnapshot T := WorkingSnapshot_mk (causal self) (pending self).

Definition restore (snapshot : WorkingSnapshot T) : result CoreError (WorkingScalar T) :=
  _ ← ScalarRegister.validate (ws_causal snapshot);
  _ ← match ws_pending snapshot with
      | Some epoch =>
          if decide (observed_frontier epoch ≠ ScalarRegister.frontier_ids (ws_causal snapshot))
          then Err InvalidWorkingSnapshot else Ok tt
      | None => Ok tt
      end;
  Ok (WorkingScalar_mk (ws_causal snapshot) (ws_pending snapshot)).
End WorkingScalar.
End WorkingScalar.
Import WorkingScalar.

(** ** Theory *)
Section working.
Context {T : Type} `{!EqDecision T}.
Implicit Types (s : WorkingScalar T) (r remote : ScalarRegister T) (v : T).

(** An open epoch observes the register's current frontier. *)
Definition epoch_current r (o : option (WorkingEpoch T)) : Prop :=
  ∀ e, o = Some e → observed_frontier e = ScalarRegister.frontier_ids r.

Definition working_ok s : Prop := valid (causal s) ∧ epoch_current (causal s) (pending s).

(** The revision that sealing an epoch creates. *)
Definition sealed_revision (x : RevisionId) (e : WorkingEpoch T) : ScalarRevision T :=
  ScalarRevision.new x (we_value e) (observed_frontier e).

Lemma from_causal_ok r s : keyed r → from_causal r = Ok s → working_ok s.
Proof.
  unfold from_causal. intros Hk Hs. inv_ok. split; simpl; [by eapply validate_valid|].
  by intros e [=].
Qed.

Lemma begin_epoch_cases s w v :
  begin_epoch w v s =
  match pending s with
  | Some e => (s, Err (WorkingEpochAlreadyOpen (we_id e)))
  | None =>
      (WorkingScalar_mk (causal s)
         (Some (WorkingEpoch_mk w v (ScalarRegister.frontier_ids (causal s)))), Ok tt)
  end.
Proof. unfold begin_epoch. run_st. by destruct (pending s). Qed.

Lemma update_pending_cases s v :
  update_pending v s =
  match pending s with
  | Some e =>
      (WorkingScalar_mk (causal s) (Some (WorkingEpoch_mk (we_id e) v (observed_frontier e))), Ok tt)
  | None => (s, Err NoWorkingEpoch)
  end.
Proof. unfold update_pending. run_st. by destruct (pending s). Qed.

(** Sealing: the outcome on every branch. *)
Lemma seal_cases s x :
  working_ok s →
  seal x s =
  match revisions (causal s) !! x, pending s with
  | Some _, _ => (s, Err (RevisionAlreadyKnown x))
  | None, None => (s, Err NoWorkingEpoch)
  | None, Some e =>
      (WorkingScalar_mk (extended (causal s) (sealed_revision x e)) None,
       Ok (sealed_revision x e))
  end.
Proof.
  intros [Hv Hf]. unfold seal. run_st.
  unfold ScalarRegister.revision. destruct (revisions (causal s) !! x) eqn:Hx; [done|].
  destruct (pending s) as [e|] eqn:He; [|done].
  pose proof (insert_revision_cases (causal s) (sealed_revision x e)) as Hc.
  cbn [sr_id sealed_revision ScalarRevision.new] in Hc. rewrite Hx in Hc.
  rewrite st_bind. unfold on_field.
  destruct Hc as [[_ Hc]|(p & Hp & Hnp & _)].
  - change (ScalarRevision.new x (we_value e) (observed_frontier e)) with (sealed_revision x e).
    by rewrite Hc.
  - destruct Hnp. apply frontier_subseteq. rewrite <-(Hf e eq_refl). done.
Qed.

Lemma seal_extends s x e :
  working_ok s → revisions (causal s) !! x = None → pending s = Some e →
  extended (causal s) (sealed_revision x e) =
  extended (causal s) (ScalarRevision.new x (we_value e) (ScalarRegister.frontier_ids (causal s))).
Proof. intros [_ Hf] _ He. unfold sealed_revision. by rewrite (Hf e He). Qed.

Lemma sealed_valid s x e :
  working_ok s → revisions (causal s) !! x = None → pending s = Some e →
  valid (extended (causal s) (sealed_revision x e)).
Proof.
  intros Hok Hx He. rewrite seal_extends by done.
  by destruct (assign_fresh (causal s) x (we_value e) (proj1 Hok) Hx) as (_ & ? & _).
Qed.

(** The register a remote observation merges into: the current one, extended
    with the sealed epoch when there is one. *)
Definition observed_base s (pre : option RevisionId) : result CoreError
    (WorkingScalar T * option (ScalarRevision T)) :=
  match pending s, pre with
  | Some e, Some x =>
      if decide (is_Some (revisions (causal s) !! x)) then Err (RevisionAlreadyKnown x)
      else Ok (WorkingScalar_mk (extended (causal s) (sealed_revision x e)) None,
               Some (sealed_revision x e))
  | Some _, None => Err DirtyObservationRequiresSeal
  | None, Some x => Err (UnexpectedPreObservationRevision x)
  | None, None => Ok (s, None)
  end.

(** Remote observation on every branch.  A failing merge keeps the seal that
    preceded it. *)
Lemma observe_remote_cases s remote pre :
  working_ok s → valid remote →
  WorkingScalar.observe_remote remote pre s =
  match observed_base s pre with
  | Ok (s', sealed) =>
      match ScalarRegister.merge (causal s') remote with
      | Ok merged => (WorkingScalar_mk merged None, Ok sealed)
      | Err e => (s', Err e)
      | Panic => (s', Panic)
      end
  | Err e => (s, Err e)
  | Panic => (s, Panic)
  end.
Proof.
  intros Hok Hr. unfold WorkingScalar.observe_remote, observed_base.
  assert (ScalarRegister.validate remote = Ok tt) as Hval by (apply validate_valid; [apply Hr|done]).
  run_st. rewrite Hval. run_st. rewrite st_bind.
  destruct (pending s) as [e|] eqn:He, pre as [x|]; [|done..|].
  - rewrite st_bind, seal_cases by done. rewrite He.
    destruct (revisions (causal s) !! x) eqn:Hx.
    + by rewrite decide_True by eauto.
    + rewrite decide_False by (intros [? [=]]). run_st. cbn [causal].
      by destruct (ScalarRegister.merge _ remote).
  - run_st. unfold set_causal. rewrite He. by destruct (ScalarRegister.merge _ remote).
Qed.

Lemma observe_remote_invalid s remote pre :
  WorkingScalar.observe_remote remote pre s =
    match ScalarRegister.validate remote with
    | Ok _ => WorkingScalar.observe_remote remote pre s
    | Err e => (s, Err e)
    | Panic => (s, Panic)
    end.
Proof.
  destruct (ScalarRegister.validate remote) eqn:Hv; [done|..];
    unfold WorkingScalar.observe_remote, mbind, stateful_bind, lift_result; by rewrite Hv.
Qed.

Lemma observed_base_ok s pre s' sealed :
  working_ok s → observed_base s pre = Ok (s', sealed) → working_ok s' ∧ pending s' = None.
Proof.
  intros Hok. unfold observed_base. destruct (pending s) as [e|] eqn:He, pre as [x|];
    intros Hb; try done.
  - case_decide as Hx; [done|]. simplify_eq. apply eq_None_not_Some in Hx.
    split; [split|done]; simpl; [by apply sealed_valid|by intros ? [=]].
  - by simplify_eq.
Qed.

(** [keyed] is what the types guarantee of a register handed in from outside. *)
Lemma observe_remote_ok s remote pre :
  keyed remote → working_ok s → working_ok (WorkingScalar.observe_remote remote pre s).1.
Proof.
  intros Hk Hok. rewrite observe_remote_invalid.
  destruct (ScalarRegister.validate remote) as [u| |] eqn:Hval; [|done..].
  assert (valid remote) as Hr by by eapply validate_valid.
  rewrite observe_remote_cases by done.
  destruct (observed_base s pre) as [[s' sealed]| |] eqn:Hb; [|done..].
  apply observed_base_ok in Hb as [Hok' Hn]; [|done].
  destruct (ScalarRegister.merge (causal s') remote) as [m| |] eqn:Hm; [|done..].
  split; simpl; [|by intros ? [=]]. by apply (merge_ok (causal s') remote m (proj1 Hok') Hr).
Qed.

Lemma begin_epoch_ok s w v : working_ok s → working_ok (begin_epoch w v s).1.
Proof.
  intros Hok. rewrite begin_epoch_cases. destruct (pending s) eqn:He; [done|].
  split; [apply Hok|]. by intros e [= <-].
Qed.

Lemma update_pending_ok s v : working_ok s → working_ok (update_pending v s).1.
Proof.
  intros Hok. rewrite update_pending_cases. destruct (pending s) as [e|] eqn:He; [|done].
  split; [apply Hok|]. intros e' [= <-]. exact (proj2 Hok e He).
Qed.

Lemma seal_ok s x : working_ok s → working_ok (seal x s).1.
Proof.
  intros Hok. rewrite seal_cases by done.
  destruct (revisions (causal s) !! x) eqn:Hx; [done|]. destruct (pending s) as [e|] eqn:He; [|done].
  split; simpl; [by apply sealed_valid|by intros ? [=]].
Qed.

(** [restore] accepts exactly the snapshots of states that satisfy the
    invariant. *)
Lemma working_restore_Ok (snap : WorkingSnapshot T) s :
  keyed (ws_causal snap) →
  restore snap = Ok s ↔ snap = snapshot s ∧ working_ok s.
Proof.
  intros Hk. unfold restore, snapshot. split.
  - intros Hs. inv_ok. destruct snap as [r o]; simpl in *. split; [done|].
    split; simpl; [by eapply validate_valid|]. intros e ->.
    destruct (decide (observed_frontier e = ScalarRegister.frontier_ids r)) as [|Hne]; [done|].
    by rewrite decide_True in H0.
  - intros [-> [Hv Hf]]. cbn [ws_causal ws_pending].
    rewrite (proj2 (validate_valid (causal s) tt Hk) Hv). cbn [mbind result_bind].
    destruct s as [r o]; simpl in *. destruct o as [e|]; [|done].
    rewrite decide_False; [done|]. intros Hne. by apply Hne, Hf.
Qed.
End working.
