(* ===== verification/Finalization.v ===== *)
(** * Finalization ledger (crates/apc-core/src/finalization.rs)

    The ledger records which revisions this replica created, which of their
    statements are frozen, which may be externally observable and which were
    handed to a transport.  [ledger_ok] is its well-formedness relative to the
    register it accompanies. *)
From stdpp Require Import base tactics option list gmap relations.
From S2P Require Import Prelude BTree Bytes Id Error Worklist Scalar Causal Merge ScalarMerge.

Record FinalizedStatement (T : Type) : Type := FinalizedStatement_mk {
  st_revision_id : RevisionId;
  st_value : T;
  st_parents : gset RevisionId;
}.
Arguments FinalizedStatement_mk {T} _ _ _.
Arguments st_revision_id {T} _.
Arguments st_value {T} _.
Arguments st_parents {T} _.

#[export] Instance FinalizedStatement_eq_dec {T : Type} `{EqDecision T} :
  EqDecision (FinalizedStatement T).
Proof. solve_decision. Defined.

Module FinalizedStatement.
(** [impl From<&ScalarRevision<T>> for FinalizedStatement<T>]. *)
Definition from {T : Type} (revision : ScalarRevision T) : FinalizedStatement T :=
  FinalizedStatement_mk (sr_id revision) (sr_value revision) (sr_parents revision).
End FinalizedStatement.

Record FinalizationSnapshot (T : Type) : Type := FinalizationSnapshot_mk {
  fs_local_revision_ids : gset RevisionId;
  fs_finalized : gmap RevisionId (FinalizedStatement T);
  fs_exposed_local_ids : gset RevisionId;
  fs_handed_off_local_ids : gset RevisionId;
}.
Arguments FinalizationSnapshot_mk {T} _ _ _ _.
Arguments fs_local_revision_ids {T} _.
Arguments fs_finalized {T} _.
Arguments fs_exposed_local_ids {T} _.
Arguments fs_handed_off_local_ids {T} _.

Record FinalizationLedger (T : Type) : Type := FinalizationLedger_mk {
  local_revision_ids : gset RevisionId;
  finalized : gmap RevisionId (FinalizedStatement T);
  exposed_local_ids : gset RevisionId;
  handed_off_local_ids : gset RevisionId;
}.
Arguments FinalizationLedger_mk {T} _ _ _ _.
Arguments local_revision_ids {T} _.
Arguments finalized {T} _.
Arguments exposed_local_ids {T} _.
Arguments handed_off_local_ids {T} _.

#[export] Instance FinalizationSnapshot_eq_dec {T : Type} `{EqDecision T} :
  EqDecision (FinalizationSnapshot T).
Proof. solve_decision. Defined.

#[export] Instance FinalizationLedger_eq_dec {T : Type} `{EqDecision T} :
  EqDecision (FinalizationLedger T).
Proof. solve_decision. Defined.

Module FinalizationLedger.
Section FinalizationLedger.
Context {T : Type} `{!EqDecision T}.
Implicit Types (self : FinalizationLedger T) (causal : ScalarRegister T).

Definition new : FinalizationLedger T := FinalizationLedger_mk ∅ ∅ ∅ ∅.

Definition register_local causal (revision_id : RevisionId) :
    stateful (FinalizationLedger T) CoreError unit :=
  self ← get_state;
  match ScalarRegister.revision causal revision_id with
  | None => throw (UnknownRevision revision_id)
  | Some _ =>
      put_state (FinalizationLedger_mk ({[revision_id]} ∪ local_revision_ids self)
        (finalized self) (exposed_local_ids self) (handed_off_local_ids self))
  end.

Definition finalize causal (revision_id : RevisionId) :
    stateful (FinalizationLedger T) CoreError (FinalizedStatement T) :=
  self ← get_state;
  if decide (revision_id ∉ local_revision_ids self) then
    throw (UnknownLocalRevision revision_id)
  else
    revision ← lift_result
      (ok_or (UnknownRevision revision_id) (ScalarRegister.revision causal revision_id));
    let statement := FinalizedStatement.from revision in
    match finalized self !! revision_id with
    | Some existing =>
        if decide (existing ≠ statement) then throw (FinalizedStatementConflict revision_id)
        else mret existing
    | None =>
        _ ← put_state (FinalizationLedger_mk (local_revision_ids self)
              (<[revision_id := statement]> (finalized self))
              (exposed_local_ids self) (handed_off_local_ids self));
        mret statement
    end.

(** The body of the loop of [validate_against]. *)
Definition validate_statement causal (entry : RevisionId * FinalizedStatement T) :
    result CoreError unit :=
  let '(revision_id, statement) := entry in
  revision ← ok_or (UnknownRevision revision_id) (ScalarRegister.revision causal revision_id);
  if decide (statement ≠ FinalizedStatement.from revision) then
    Err (FinalizedStatementConflict revision_id)
  else Ok tt.

Definition validate_against self causal : result CoreError unit :=
  _ ← ScalarRegister.validate causal;
  try_for_each (validate_statement causal) (entries_asc (finalized self)).

(** The [while] loop of [handoff]. *)
Definition handoff_closure causal (direct : gset RevisionId) :
    result CoreError (gset RevisionId) :=
  match run_worklist (λ _, None) (λ id, Some (UnknownRevision id))
          (ScalarRegister.parents_graph causal) (ScalarRegister.parent_stack direct) ∅ with
  | inl e => Err e
  | inr closure => Ok closure
  end.

Definition check_finalized self (revision_id : RevisionId) : result CoreError unit :=
  if decide (revision_id ∈ dom (finalized self)) then Ok tt
  else Err (HandoffRequiresFinalizedRevision revision_id).

Definition handoff causal (revision_ids : list RevisionId) :
    stateful (FinalizationLedger T) CoreError unit :=
  self ← get_state;
  _ ← lift_result (validate_against self causal);
  let direct : gset RevisionId := list_to_set revision_ids in
  closure ← lift_result (handoff_closure causal direct);
  _ ← lift_result (try_for_each (check_finalized self)
        (filter (λ id, id ∈ local_revision_ids self) (elements_asc closure)));
  put_state (FinalizationLedger_mk (local_revision_ids self) (finalized self)
    (exposed_local_ids self ∪ filter (λ id, id ∈ local_revision_ids self) closure)
    (handed_off_local_ids self ∪ filter (λ id, id ∈ local_revision_ids self) direct)).

Definition snapshot self : FinalizationSnapshot T :=
  FinalizationSnapshot_mk (local_revision_ids self) (finalized self)
    (exposed_local_ids self) (handed_off_local_ids self).

Definition restore (snapshot : FinalizationSnapshot T) causal :
    result CoreError (FinalizationLedger T) :=
  let ledger := FinalizationLedger_mk (fs_local_revision_ids snapshot) (fs_finalized snapshot)
    (fs_exposed_local_ids snapshot) (fs_handed_off_local_ids snapshot) in
  _ ← (if decide (¬ exposed_local_ids ledger ⊆ local_revision_ids ledger ∨
          ¬ handed_off_local_ids ledger ⊆ exposed_local_ids ledger ∨
          ¬ dom (finalized ledger) ⊆ local_revision_ids ledger)
       then Err InvalidFinalizationSnapshot else Ok tt);
  _ ← try_for_each (λ revision_id,
         match ScalarRegister.revision causal revision_id with
         | None => Err (UnknownRevision revision_id)
         | Some _ => Ok tt
         end) (elements_asc (local_revision_ids ledger));
  _ ← validate_against ledger causal;
  Ok ledger.
End FinalizationLedger.
End FinalizationLedger.
Import FinalizationLedger.

(** ** Theory *)
Section ledger.
Context {T : Type} `{!EqDecision T}.
Implicit Types (r : ScalarRegister T) (l : FinalizationLedger T) (x y : RevisionId).

(** Every frozen statement is the register's statement of that identity. *)
Definition frozen r l : Prop :=
  ∀ x st, finalized l !! x = Some st →
    ∃ rev, revisions r !! x = Some rev ∧ st = FinalizedStatement.from rev.

(** What [restore] checks. *)
Definition ledger_shape r l : Prop :=
  handed_off_local_ids l ⊆ exposed_local_ids l ∧
  exposed_local_ids l ⊆ local_revision_ids l ∧
  dom (finalized l) ⊆ local_revision_ids l ∧
  local_revision_ids l ⊆ dom (revisions r) ∧ frozen r l.

(** What the operations maintain: moreover everything exposed is frozen, and so
    is every local revision it depends on. *)
Definition ledger_ok r l : Prop :=
  ledger_shape r l ∧ exposed_local_ids l ⊆ dom (finalized l) ∧
  ∀ x y, x ∈ exposed_local_ids l → ancestor r y x → y ∈ local_revision_ids l →
    y ∈ exposed_local_ids l.

(** The dependency closure of a set of revisions. *)
Definition depends_on r (direct : gset RevisionId) y : Prop :=
  y ∈ direct ∨ ∃ d, d ∈ direct ∧ ancestor r y d.

Lemma new_ledger_ok r : ledger_ok r new.
Proof.
  assert (frozen r new) by (intros x st Hst; simpl in Hst; by rewrite lookup_empty in Hst).
  split; [split_and!|split]; simpl; set_solver.
Qed.

Lemma validate_statement_Ok r e :
  validate_statement r e = Ok tt ↔
  ∃ rev, revisions r !! e.1 = Some rev ∧ e.2 = FinalizedStatement.from rev.
Proof.
  destruct e as [x st]. unfold validate_statement, ScalarRegister.revision; simpl.
  destruct (revisions r !! x) as [rev|]; simpl; [|naive_solver].
  destruct (decide (st = FinalizedStatement.from rev)) as [Heq|Hne].
  - rewrite decide_False by naive_solver. naive_solver.
  - rewrite decide_True by done. naive_solver.
Qed.

Lemma validate_against_Ok r l u :
  validate_against l r = Ok u ↔ closed r ∧ acyclic r ∧ frozen r l.
Proof.
  unfold validate_against. rewrite bind_Ok. split.
  - intros (? & Hv%validate_Ok & Hf). destruct u. rewrite try_for_each_Ok in Hf.
    split; [apply Hv|split; [apply Hv|]].
    intros y st Hst. by apply (validate_statement_Ok r (y, st)), Hf, elem_of_entries_asc.
  - intros (Hc & Ha & Hf). exists tt. split; [by apply validate_Ok|].
    apply try_for_each_Ok. intros [x st] Hst%elem_of_entries_asc.
    apply validate_statement_Ok. by apply Hf.
Qed.

Lemma validate_against_ok r l : valid r → ledger_ok r l → validate_against l r = Ok tt.
Proof. intros (_ & Hc & Ha) [(_ & _ & _ & _ & Hf) _]. by apply validate_against_Ok. Qed.

(** [register_local] on every branch. *)
Lemma register_local_cases r l x :
  register_local r x l =
  match revisions r !! x with
  | Some _ => (FinalizationLedger_mk ({[x]} ∪ local_revision_ids l) (finalized l)
                 (exposed_local_ids l) (handed_off_local_ids l), Ok tt)
  | None => (l, Err (UnknownRevision x))
  end.
Proof. unfold register_local. run_st. unfold ScalarRegister.revision. by destruct (_ !! x). Qed.

(** [finalize] on every branch; with [ledger_ok] the conflict cannot arise. *)
Lemma finalize_cases r l x :
  ledger_ok r l →
  finalize r x l =
  match revisions r !! x with
  | Some rev =>
      if decide (x ∈ local_revision_ids l) then
        (FinalizationLedger_mk (local_revision_ids l)
           (<[x := FinalizedStatement.from rev]> (finalized l))
           (exposed_local_ids l) (handed_off_local_ids l), Ok (FinalizedStatement.from rev))
      else (l, Err (UnknownLocalRevision x))
  | None => (l, Err (UnknownLocalRevision x))
  end.
Proof.
  intros [(_ & _ & _ & Hl & Hf) _]. unfold finalize. run_st. unfold ScalarRegister.revision.
  destruct (decide (x ∈ local_revision_ids l)) as [Hx|Hx].
  - rewrite decide_False by naive_solver.
    destruct (revisions r !! x) as [rev|] eqn:Hrev; cbn [ok_or].
    + run_st. destruct (finalized l !! x) as [st|] eqn:Hst; [|done].
      destruct (Hf x st Hst) as (rev' & Hrev' & ->). simplify_eq.
      rewrite decide_False by naive_solver. rewrite insert_id by done. by destruct l.
    + apply not_elem_of_dom in Hrev. set_solver.
  - rewrite decide_True by done. by destruct (revisions r !! x).
Qed.

Lemma elem_of_closure_stack r (direct : gset RevisionId) y :
  reachable (ScalarRegister.parents_graph r) (ScalarRegister.parent_stack direct) y ↔
  depends_on r direct y.
Proof.
  unfold reachable, depends_on. split.
  - intros (d & Hd%elem_of_parent_stack & Hy%rtc_edge).
    apply rtc_tc in Hy as [-> |Hy]; [by left|right]. by exists d.
  - intros [Hy|(d & Hd & Hy)].
    + exists y. rewrite elem_of_parent_stack. split; [done|constructor].
    + exists d. rewrite elem_of_parent_stack, rtc_edge. split; [done|]. by apply tc_rtc.
Qed.

(** The closure loop: the closure of known revisions, or an unknown one. *)
Lemma handoff_closure_spec r direct :
  closed r →
  match handoff_closure r direct with
  | Ok closure => direct ⊆ dom (revisions r) ∧ ∀ y, y ∈ closure ↔ depends_on r direct y
  | Err e => ∃ x, e = UnknownRevision x ∧ x ∈ direct ∧ x ∉ dom (revisions r)
  | Panic => False
  end.
Proof.
  intros Hc. unfold handoff_closure. destruct (run_worklist _ _ _ _ _) as [e|closure] eqn:Hrun.
  - apply run_returned in Hrun as (y & Hy & [[=]|[Hn [= <-]]]).
    exists y. split; [done|]. apply elem_of_closure_stack in Hy.
    unfold ScalarRegister.parents_graph in Hn. rewrite lookup_fmap, fmap_None in Hn.
    apply not_elem_of_dom in Hn. destruct Hy as [Hy|(d & Hd & Hy)]; [done|].
    destruct Hn. by eapply ancestor_closed.
  - assert (∀ y, y ∈ closure ↔ depends_on r direct y) as Hclosure.
    { intros y. rewrite (run_visited _ _ _ _ _ _ Hrun) by apply closed_upto_empty.
      rewrite elem_of_closure_stack. set_solver. }
    split; [|done]. intros x Hx. apply dec_stable. intros Hn.
    destruct (run_visited_sound _ _ _ _ _ _ Hrun x) as [?|(_ & _ & Hm)];
      [apply Hclosure; by left|set_solver|].
    discriminate Hm. unfold ScalarRegister.parents_graph. rewrite lookup_fmap.
    apply not_elem_of_dom in Hn. by rewrite Hn.
Qed.

Lemma check_finalized_Ok l x : check_finalized l x = Ok tt ↔ x ∈ dom (finalized l).
Proof. unfold check_finalized. case_decide; naive_solver. Qed.

(** The local part of a dependency closure. *)
Definition exposes r l (direct : gset RevisionId) x : Prop :=
  x ∈ local_revision_ids l ∧ depends_on r direct x.

(** Handing off succeeds exactly when every named revision is known and every
    local revision in the closure is frozen; it then exposes that part. *)
Lemma handoff_spec r l ids :
  valid r → ledger_ok r l →
  let '(l', res) := handoff r ids l in
  let direct : gset RevisionId := list_to_set ids in
  match res with
  | Ok _ =>
      direct ⊆ dom (revisions r) ∧
      (∀ x, exposes r l direct x → x ∈ dom (finalized l)) ∧
      local_revision_ids l' = local_revision_ids l ∧ finalized l' = finalized l ∧
      (∀ x, x ∈ exposed_local_ids l' ↔ x ∈ exposed_local_ids l ∨ exposes r l direct x) ∧
      (∀ x, x ∈ handed_off_local_ids l' ↔
        x ∈ handed_off_local_ids l ∨ (x ∈ direct ∧ x ∈ local_revision_ids l))
  | Err e =>
      l' = l ∧
      ((∃ x, e = UnknownRevision x ∧ x ∈ direct ∧ x ∉ dom (revisions r)) ∨
       (∃ x, e = HandoffRequiresFinalizedRevision x ∧ exposes r l direct x ∧
         x ∉ dom (finalized l)))
  | Panic => False
  end.
Proof.
  intros Hv Hok. unfold handoff. run_st. rewrite validate_against_ok by done. run_st.
  pose proof (handoff_closure_spec r (list_to_set ids) (proj1 (proj2 Hv))) as Hc.
  destruct (handoff_closure _ _) as [closure|e|]; [|by split; [|left]|done].
  destruct Hc as [Hknown Hclosure]. run_st.
  destruct (try_for_each _ _) as [[]|e|] eqn:Hall.
  - run_st. rewrite try_for_each_Ok in Hall. simpl. split_and!; [done| |done|done| |].
    + intros x [Hx Hdep]. apply check_finalized_Ok, Hall, list_elem_of_filter.
      split; [done|]. by apply elem_of_elements_asc, Hclosure.
    + intros x. rewrite elem_of_union, elem_of_filter, Hclosure. done.
    + intros x. set_solver.
  - apply (failure_Some _ (Some e)), try_for_each_fail in Hall as (l1 & x & l2 & Hl & Hx & _).
    unfold check_finalized in Hx. case_decide as Hfin; simplify_eq/=.
    split; [done|]. right. exists x. split_and!; [done| |done].
    assert (x ∈ filter (λ id, id ∈ local_revision_ids l) (elements_asc closure)) as Hin
      by (rewrite Hl; set_solver).
    apply list_elem_of_filter in Hin as [Hloc Hin]. split; [done|].
    by apply Hclosure, elem_of_elements_asc.
  - apply (failure_Some _ None), try_for_each_fail in Hall as (? & x & ? & _ & Hx & _).
    unfold check_finalized in Hx. by case_decide.
Qed.

(** ** Preservation *)

(** A register that contains a closed one keeps its ancestry. *)
Lemma larger_ancestor r r' x y :
  closed r → revisions r ⊆ revisions r' → y ∈ dom (revisions r) →
  ancestor r' x y ↔ ancestor r x y.
Proof.
  intros Hc Hsub Hy. assert (joined r r' = r') as Hj.
  { destruct r'. unfold joined; simpl in *. by rewrite map_subseteq_union. }
  rewrite <-Hj at 1. apply joined_ancestor_l; [|done..].
  intros z v w Hv Hw. eapply lookup_weaken in Hv; [|done]. by simplify_eq.
Qed.

(** The ledger survives any growth of the register. *)
Lemma ledger_ok_larger r r' l :
  valid r → revisions r ⊆ revisions r' → ledger_ok r l → ledger_ok r' l.
Proof.
  intros (_ & Hc & _) Hsub [(Hh & He & Hd & Hl & Hf) [Hef Hcl]].
  pose proof (subseteq_dom _ _ Hsub) as Hdom.
  split; [split_and!|split]; [done..|set_solver| |done|].
  - intros x st Hst. destruct (Hf x st Hst) as (rev & Hrev & ->).
    exists rev. split; [by eapply lookup_weaken|done].
  - intros x y Hx Hy Hyl. apply (Hcl x y); [done| |done].
    rewrite <-larger_ancestor; [done..|]. set_solver.
Qed.

Lemma register_local_ok r l x :
  (∀ y, y ∈ exposed_local_ids l → ¬ ancestor r x y) →
  ledger_ok r l → ledger_ok r (register_local r x l).1.
Proof.
  intros Hfresh [(Hh & He & Hd & Hl & Hf) [Hef Hcl]]. rewrite register_local_cases.
  destruct (revisions r !! x) as [rev|] eqn:Hrev; [|done].
  assert (x ∈ dom (revisions r)) by by eapply elem_of_dom_2.
  split; [split_and!|split]; cbn; [set_solver..|done|done|].
  intros y z Hy Hz [->%elem_of_singleton|Hzl]%elem_of_union; [by destruct (Hfresh y Hy)|].
  by apply (Hcl y z).
Qed.

Lemma finalize_ok r l x : ledger_ok r l → ledger_ok r (finalize r x l).1.
Proof.
  intros Hok. rewrite finalize_cases by done.
  destruct (revisions r !! x) as [rev|] eqn:Hrev; [|done]. case_decide as Hx; [|done].
  destruct Hok as [(Hh & He & Hd & Hl & Hf) [Hef Hcl]].
  split; [split_and!|split]; cbn; [done..|set_solver|done| |set_solver|done].
  intros y st. cbn. rewrite lookup_insert_Some. intros [[<- <-]|[_ Hst]]; [by exists rev|].
  by apply Hf.
Qed.

Lemma exposes_closed r l direct x y :
  exposes r l direct x → ancestor r y x → y ∈ local_revision_ids l → exposes r l direct y.
Proof.
  intros [_ [Hx|(d & Hd & Hx)]] Hy Hl; (split; [done|right]).
  - by exists x.
  - exists d. split; [done|]. by eapply ancestor_trans.
Qed.

Lemma handoff_ok r l ids : valid r → ledger_ok r l → ledger_ok r (handoff r ids l).1.
Proof.
  intros Hv Hok. pose proof (handoff_spec r l ids Hv Hok) as Hs.
  destruct (handoff r ids l) as [l' [u|e|]]; [|by destruct Hs as [-> _]|done].
  destruct Hs as (_ & Hfin & Hloc & Hfz & Hexp & Hho).
  destruct Hok as [(Hh & He & Hd & Hl & Hf) [Hef Hcl]].
  split; [split_and!|split]; cbn [fst].
  - intros x [Hx|[Hx Hxl]]%Hho; apply Hexp; [by left; apply Hh|right].
    split; [done|by left].
  - intros x [Hx|[Hx _]]%Hexp; rewrite Hloc; [by apply He|done].
  - by rewrite Hfz, Hloc.
  - by rewrite Hloc.
  - unfold frozen. by rewrite Hfz.
  - intros x [Hx|Hx]%Hexp; rewrite Hfz; [by apply Hef|by apply Hfin].
  - intros x y Hx Hy Hyl. rewrite Hloc in Hyl. apply Hexp.
    apply Hexp in Hx as [Hx|Hx]; [left; by apply (Hcl x y)|right; by eapply exposes_closed].
Qed.

(** ** [snapshot] and [restore] *)
Lemma ledger_restore_Ok r (snap : FinalizationSnapshot T) l :
  valid r → restore snap r = Ok l ↔ snap = snapshot l ∧ ledger_shape r l.
Proof.
  intros Hv. unfold restore, snapshot, ledger_shape. cbn zeta. split.
  - intros Hs. inv_ok. case_decide as Hbad; [done|].
    match goal with H : try_for_each _ _ = Ok _ |- _ => rename H into Hloc end.
    match goal with H : validate_against _ _ = Ok _ |- _ =>
      apply validate_against_Ok in H as (_ & _ & Hf) end.
    rewrite try_for_each_Ok in Hloc. cbn in *. destruct snap as [sl sf se sh]; cbn in *.
    split; [done|]. split_and!; try (apply dec_stable; tauto); [|done].
    intros y Hy. specialize (Hloc y). rewrite elem_of_elements_asc in Hloc.
    unfold ScalarRegister.revision in Hloc. apply elem_of_dom.
    destruct (revisions r !! y); [by eexists|]. by specialize (Hloc Hy).
  - intros [-> (Hh & He & Hd & Hl & Hf)]. destruct l as [sl sf se sh]; cbn in *.
    rewrite decide_False by tauto. cbn [mbind result_bind].
    assert (try_for_each (λ x, match ScalarRegister.revision r x with
      | Some _ => Ok () | None => Err (UnknownRevision x) end) (elements_asc sl) = Ok tt) as ->.
    { apply try_for_each_Ok. intros x Hx%elem_of_elements_asc. unfold ScalarRegister.revision.
      apply Hl, elem_of_dom in Hx as [rev Hrev]. by rewrite Hrev. }
    cbn [mbind result_bind].
    rewrite (proj2 (validate_against_Ok r (FinalizationLedger_mk sl sf se sh) tt)); [done|].
    destruct Hv as (_ & ? & ?). done.
Qed.

Lemma ledger_restore_snapshot r l : valid r → ledger_ok r l → restore (snapshot l) r = Ok l.
Proof. intros Hv [Hok _]. by apply ledger_restore_Ok. Qed.
End ledger.
