(* ===== verification/Domain.v ===== *)
(** * Local scalar domains (crates/apc-core/src/domain.rs)

    [LocalScalarDomain] couples a [WorkingScalar] with a [FinalizationLedger].
    Its calls are the steps of a transition system whose reachable states
    satisfy [domain_ok]; a snapshot of a reachable state restores to it. *)
From stdpp Require Import base tactics option list gmap.
From S2P Require Import Prelude BTree Bytes Id Error Worklist Scalar Causal Merge ScalarMerge.
From S2P Require Import Working Finalization.

Record LocalScalarSnapshot (T : Type) : Type := LocalScalarSnapshot_mk {
  lss_working : WorkingSnapshot T;
  lss_finalization : FinalizationSnapshot T;
}.
Arguments LocalScalarSnapshot_mk {T} _ _.
Arguments lss_working {T} _.
Arguments lss_finalization {T} _.

Record LocalScalarDomain (T : Type) : Type := LocalScalarDomain_mk {
  working : WorkingScalar T;
  finalization : FinalizationLedger T;
}.
Arguments LocalScalarDomain_mk {T} _ _.
Arguments working {T} _.
Arguments finalization {T} _.

#[export] Instance LocalScalarSnapshot_eq_dec {T : Type} `{EqDecision T} :
  EqDecision (LocalScalarSnapshot T).
Proof. solve_decision. Defined.

#[export] Instance LocalScalarDomain_eq_dec {T : Type} `{EqDecision T} :
  EqDecision (LocalScalarDomain T).
Proof. solve_decision. Defined.

Module LocalScalarDomain.
Section LocalScalarDomain.
Context {T : Type} `{!EqDecision T}.
Implicit Types (self : LocalScalarDomain T).

Definition from_causal (causal : ScalarRegister T) : result CoreError (LocalScalarDomain T) :=
  working ← WorkingScalar.from_causal causal;
  Ok (LocalScalarDomain_mk working FinalizationLedger.new).

Definition domain_causal self : ScalarRegister T := causal (working self).
Definition domain_pending self : option (WorkingEpoch T) := pending (working self).
Definition working_value self : option T := WorkingScalar.working_value (working self).

(** Calls of methods of [self.working] and [self.finalization]. *)
Definition on_working {A : Type} (m : stateful (WorkingScalar T) CoreError A) :
    stateful (LocalScalarDomain T) CoreError A :=
  on_field working (λ w self, LocalScalarDomain_mk w (finalization self)) m.

Definition on_finalization {A : Type}
    (m : ScalarRegister T → stateful (FinalizationLedger T) CoreError A) :
    stateful (LocalScalarDomain T) CoreError A :=
  self ← get_state;
  on_field finalization (λ f self, LocalScalarDomain_mk (working self) f)
    (m (domain_causal self)).

Definition begin_epoch (epoch_id : WorkingEpochId) (value : T) :
    stateful (LocalScalarDomain T) CoreError unit :=
  on_working (WorkingScalar.begin_epoch epoch_id value).

Definition update_pending (value : T) : stateful (LocalScalarDomain T) CoreError unit :=
  on_working (WorkingScalar.update_pending value).

Definition seal_local (revision_id : RevisionId) :
    stateful (LocalScalarDomain T) CoreError (ScalarRevision T) :=
  revision ← on_working (WorkingScalar.seal revision_id);
  _ ← on_finalization (λ causal, FinalizationLedger.register_local causal revision_id);
  mret revision.

Definition observe_remote (remote : ScalarRegister T)
    (pre_observation_revision_id : option RevisionId) :
    stateful (LocalScalarDomain T) CoreError (option (ScalarRevision T)) :=
  sealed ← on_working (WorkingScalar.observe_remote remote pre_observation_revision_id);
  _ ← match sealed with
      | Some revision =>
          on_finalization (λ causal, FinalizationLedger.register_local causal (sr_id revision))
      | None => mret tt
      end;
  mret sealed.

Definition finalize (revision_id : RevisionId) :
    stateful (LocalScalarDomain T) CoreError (FinalizedStatement T) :=
  on_finalization (λ causal, FinalizationLedger.finalize causal revision_id).

Definition handoff (revision_ids : list RevisionId) :
    stateful (LocalScalarDomain T) CoreError unit :=
  on_finalization (λ causal, FinalizationLedger.handoff causal revision_ids).

Definition snapshot self : LocalScalarSnapshot T :=
  LocalScalarSnapshot_mk (WorkingScalar.snapshot (working self))
    (FinalizationLedger.snapshot (finalization self)).

Definition restore (snapshot : LocalScalarSnapshot T) : result CoreError (LocalScalarDomain T) :=
  working ← WorkingScalar.restore (lss_working snapshot);
  finalization ← FinalizationLedger.restore (lss_finalization snapshot) (causal working);
  Ok (LocalScalarDomain_mk working finalization).
End LocalScalarDomain.
End LocalScalarDomain.

(** ** The transition system *)

(** A call of a [&mut self] method. *)
Inductive domain_call (T : Type) : Type :=
  | BeginEpoch (epoch_id : WorkingEpochId) (value : T)
  | UpdatePending (value : T)
  | SealLocal (revision_id : RevisionId)
  | ObserveRemote (remote : ScalarRegister T) (pre : option RevisionId)
  | Finalize (revision_id : RevisionId)
  | Handoff (revision_ids : list RevisionId).
Arguments BeginEpoch {T} _ _.
Arguments UpdatePending {T} _.
Arguments SealLocal {T} _.
Arguments ObserveRemote {T} _ _.
Arguments Finalize {T} _.
Arguments Handoff {T} _.

Section steps.
Context {T : Type} `{!EqDecision T}.
Implicit Types (d : LocalScalarDomain T).

(** The state a call leaves behind, whether it succeeds or fails. *)
Definition run_domain_call (c : domain_call T) d : LocalScalarDomain T :=
  match c with
  | BeginEpoch w v => (LocalScalarDomain.begin_epoch w v d).1
  | UpdatePending v => (LocalScalarDomain.update_pending v d).1
  | SealLocal x => (LocalScalarDomain.seal_local x d).1
  | ObserveRemote remote pre => (LocalScalarDomain.observe_remote remote pre d).1
  | Finalize x => (LocalScalarDomain.finalize x d).1
  | Handoff ids => (LocalScalarDomain.handoff ids d).1
  end.

(** A register handed in is one the register operations can build. *)
Definition call_ok (c : domain_call T) : Prop :=
  match c with
  | ObserveRemote remote _ => keyed remote
  | _ => True
  end.

Inductive domain_reachable : LocalScalarDomain T → Prop :=
  | reachable_init r d : keyed r → LocalScalarDomain.from_causal r = Ok d → domain_reachable d
  | reachable_call c d : domain_reachable d → call_ok c → domain_reachable (run_domain_call c d).

Definition domain_ok d : Prop :=
  working_ok (working d) ∧ ledger_ok (causal (working d)) (finalization d).

Lemma domain_ok_causal d : domain_ok d → valid (causal (working d)).
Proof. intros [[Hv _] _]. done. Qed.

(** A call on [working] that only grows the register preserves the ledger. *)
Lemma on_working_ok {A} (m : stateful (WorkingScalar T) CoreError A) d :
  domain_ok d → working_ok (m (working d)).1 →
  revisions (causal (working d)) ⊆ revisions (causal (m (working d)).1) →
  domain_ok (LocalScalarDomain.on_working m d).1.
Proof.
  intros [[Hv He] Hl] Hw Hsub. unfold LocalScalarDomain.on_working, on_field.
  destruct (m (working d)) as [w res]. split; [done|]. by apply (ledger_ok_larger _ _ _ Hv Hsub).
Qed.

Lemma extended_larger (r : ScalarRegister T) rev :
  revisions r !! sr_id rev = None → revisions r ⊆ revisions (extended r rev).
Proof. apply insert_subseteq. Qed.

Lemma merge_larger (a b c : ScalarRegister T) :
  valid a → valid b → ScalarRegister.merge a b = Ok c → revisions a ⊆ revisions c.
Proof.
  intros Ha Hb [_ ->]%merge_Ok; [|done..]. apply map_union_subseteq_l.
Qed.

(** The ledger once revision [x] is registered as local. *)
Definition owned (l : FinalizationLedger T) (x : RevisionId) : FinalizationLedger T :=
  FinalizationLedger_mk ({[x]} ∪ local_revision_ids l) (finalized l)
    (exposed_local_ids l) (handed_off_local_ids l).

Lemma register_owned (r : ScalarRegister T) l x :
  x ∈ dom (revisions r) → FinalizationLedger.register_local r x l = (owned l x, Ok tt).
Proof. intros [rev Hrev]%elem_of_dom. rewrite register_local_cases. by rewrite Hrev. Qed.

(** ** [seal_local] *)
Lemma seal_local_cases d x :
  domain_ok d →
  LocalScalarDomain.seal_local x d =
  match revisions (causal (working d)) !! x, pending (working d) with
  | Some _, _ => (d, Err (RevisionAlreadyKnown x))
  | None, None => (d, Err NoWorkingEpoch)
  | None, Some e =>
      (LocalScalarDomain_mk
         (WorkingScalar_mk (extended (causal (working d)) (sealed_revision x e)) None)
         (owned (finalization d) x),
       Ok (sealed_revision x e))
  end.
Proof.
  intros [Hw Hl]. unfold LocalScalarDomain.seal_local. rewrite st_bind.
  unfold LocalScalarDomain.on_working, on_field. rewrite seal_cases by done.
  destruct d as [w l]; cbn [working finalization] in *.
  destruct (revisions (causal w) !! x) eqn:Hx; [done|].
  destruct (pending w) as [e|]; [|done].
  rewrite st_bind. unfold LocalScalarDomain.on_finalization. run_st.
  unfold on_field, LocalScalarDomain.domain_causal. cbn [finalization working causal].
  rewrite register_owned; [done|]. cbn. rewrite dom_insert. set_solver.
Qed.

(** A revision that is not in a closed register is no ancestor in any growth
    of it of a revision that is. *)
Lemma unknown_not_ancestor (r r' : ScalarRegister T) x y :
  closed r → revisions r ⊆ revisions r' → revisions r !! x = None → y ∈ dom (revisions r) →
  ¬ ancestor r' x y.
Proof.
  intros Hc Hsub Hx Hy Ha. apply (larger_ancestor r r') in Ha; [|done..].
  apply (ancestor_closed _ _ _ Hc) in Ha. by apply not_elem_of_dom in Hx.
Qed.

Lemma register_sealed_ok (r r' : ScalarRegister T) l x :
  valid r → ledger_ok r l → revisions r ⊆ revisions r' → revisions r !! x = None →
  x ∈ dom (revisions r') → ledger_ok r' (owned l x).
Proof.
  intros Hv Hl Hsub Hx Hx'. pose proof (register_owned r' l x Hx') as Hreg.
  change (owned l x) with ((owned l x, Ok (E := CoreError) tt).1). rewrite <-Hreg.
  apply register_local_ok; [|by apply (ledger_ok_larger r)].
  intros y Hy. apply (unknown_not_ancestor r); [apply Hv|done..|].
  destruct Hl as [(_ & He & _ & Hl & _) _]. set_solver.
Qed.

Lemma seal_local_ok d x : domain_ok d → domain_ok (LocalScalarDomain.seal_local x d).1.
Proof.
  intros Hok. pose proof (seal_local_cases d x Hok) as ->.
  destruct (revisions (causal (working d)) !! x) as [rev|] eqn:Hx; [done|].
  destruct (pending (working d)) as [e|] eqn:He; [|done].
  destruct Hok as [Hw Hl]. split; cbn.
  - split; simpl; [by apply sealed_valid|by intros ? [=]].
  - apply (register_sealed_ok (causal (working d))); [apply Hw|done| |done|].
    + by apply extended_larger.
    + cbn. rewrite dom_insert. set_solver.
Qed.

(** ** [observe_remote] *)
Definition owned_sealed (l : FinalizationLedger T) (sealed : option (ScalarRevision T)) :
    FinalizationLedger T :=
  match sealed with
  | Some revision => owned l (sr_id revision)
  | None => l
  end.

(** What [observe_remote] does once the seal it may need is done. *)
Lemma observe_remote_domain_cases d remote pre :
  domain_ok d → valid remote →
  LocalScalarDomain.observe_remote remote pre d =
  match observed_base (working d) pre with
  | Ok (w, sealed) =>
      match ScalarRegister.merge (causal w) remote with
      | Ok merged =>
          (LocalScalarDomain_mk (WorkingScalar_mk merged None)
             (owned_sealed (finalization d) sealed), Ok sealed)
      | Err e => (LocalScalarDomain_mk w (finalization d), Err e)
      | Panic => (LocalScalarDomain_mk w (finalization d), Panic)
      end
  | Err e => (d, Err e)
  | Panic => (d, Panic)
  end.
Proof.
  intros [Hw Hl] Hr. unfold LocalScalarDomain.observe_remote. rewrite st_bind.
  unfold LocalScalarDomain.on_working, on_field. rewrite observe_remote_cases by done.
  destruct d as [w l]; cbn [working finalization] in *.
  destruct (observed_base w pre) as [[w' sealed]|e|] eqn:Hb; [|done..].
  pose proof (observed_base_ok _ _ _ _ Hw Hb) as [[Hv' _] _].
  destruct (ScalarRegister.merge (causal w') remote) as [m| |] eqn:Hm; [|done..].
  rewrite st_bind. destruct sealed as [rev|]; [|done].
  unfold LocalScalarDomain.on_finalization. run_st.
  unfold on_field, LocalScalarDomain.domain_causal. cbn [finalization working causal].
  rewrite register_owned; [done|].
  pose proof (merge_larger _ _ _ Hv' Hr Hm) as Hsub%subseteq_dom. apply Hsub.
  unfold observed_base in Hb. case_run. cbn. rewrite dom_insert. set_solver.
Qed.

Lemma observed_base_larger (w : WorkingScalar T) pre (w' : WorkingScalar T) sealed :
  observed_base w pre = Ok (w', sealed) →
  revisions (causal w) ⊆ revisions (causal w') ∧
  ∀ rev, sealed = Some rev →
    revisions (causal w) !! sr_id rev = None ∧ sr_id rev ∈ dom (revisions (causal w')).
Proof.
  unfold observed_base. destruct (pending w) as [e|], pre as [x|]; try done.
  - case_decide as Hx; [done|]. apply eq_None_not_Some in Hx. intros Hb. simplify_eq. cbn. split.
    + by apply (extended_larger (causal w) (sealed_revision x e)).
    + intros rev [= <-]. split; [done|]. cbn. rewrite dom_insert. set_solver.
  - intros Hb. by simplify_eq.
Qed.

Lemma observe_remote_domain_ok d remote pre :
  keyed remote → domain_ok d → domain_ok (LocalScalarDomain.observe_remote remote pre d).1.
Proof.
  intros Hk Hok. pose proof (observe_remote_ok _ remote pre Hk (proj1 Hok)) as Hw'.
  destruct (ScalarRegister.validate remote) as [u|e|] eqn:Hval.
  2,3: unfold LocalScalarDomain.observe_remote; rewrite st_bind;
    unfold LocalScalarDomain.on_working, on_field; rewrite observe_remote_invalid, Hval; by destruct d.
  assert (valid remote) as Hr by by eapply validate_valid.
  rewrite observe_remote_cases in Hw' by (apply Hok || done).
  rewrite observe_remote_domain_cases by done.
  destruct (observed_base (working d) pre) as [[w sealed]|e|] eqn:Hb; [|done..].
  destruct Hok as [Hw Hl]. pose proof (observed_base_ok _ _ _ _ Hw Hb) as [[Hv' _] _].
  pose proof (observed_base_larger _ _ _ _ Hb) as [Hsub Hfresh].
  destruct (ScalarRegister.merge (causal w) remote) as [m|e|] eqn:Hm; (split; [done|]).
  - cbn. pose proof (merge_larger _ _ _ Hv' Hr Hm) as Hsub'.
    assert (revisions (causal (working d)) ⊆ revisions m) as Hsub2 by by trans (revisions (causal w)).
    destruct sealed as [rev|]; cbn; [|by apply (ledger_ok_larger _ _ _ (proj1 Hw) Hsub2)].
    destruct (Hfresh rev eq_refl) as [Hn Hin].
    apply (register_sealed_ok _ _ _ _ (proj1 Hw) Hl Hsub2 Hn).
    by apply (subseteq_dom _ _ Hsub').
  - by apply (ledger_ok_larger _ _ _ (proj1 Hw) Hsub).
  - by apply (ledger_ok_larger _ _ _ (proj1 Hw) Hsub).
Qed.

(** ** Every call preserves the invariant *)
Lemma on_finalization_eq {A} (m : ScalarRegister T → stateful (FinalizationLedger T) CoreError A) d :
  LocalScalarDomain.on_finalization m d =
  (LocalScalarDomain_mk (working d) (m (causal (working d)) (finalization d)).1,
   (m (causal (working d)) (finalization d)).2).
Proof.
  unfold LocalScalarDomain.on_finalization, on_field. run_st.
  unfold LocalScalarDomain.domain_causal. by destruct (m _ _).
Qed.

Lemma run_domain_call_ok c d : call_ok c → domain_ok d → domain_ok (run_domain_call c d).
Proof.
  intros Hc Hok. destruct c as [w v|v|x|remote pre|x|ids]; cbn [run_domain_call].
  - apply on_working_ok; [done|by apply begin_epoch_ok, Hok|].
    rewrite begin_epoch_cases. by destruct (pending _).
  - apply on_working_ok; [done|by apply update_pending_ok, Hok|].
    rewrite update_pending_cases. by destruct (pending _).
  - by apply seal_local_ok.
  - by apply observe_remote_domain_ok.
  - unfold LocalScalarDomain.finalize. rewrite on_finalization_eq.
    split; [apply Hok|]. apply finalize_ok, Hok.
  - unfold LocalScalarDomain.handoff. rewrite on_finalization_eq.
    split; [apply Hok|]. apply handoff_ok; apply Hok.
Qed.

Lemma domain_reachable_ok d : domain_reachable d → domain_ok d.
Proof.
  induction 1 as [r d Hk Hd|c d _ IH Hc].
  - unfold LocalScalarDomain.from_causal in Hd. inv_ok.
    split; cbn; [by eapply from_causal_ok|apply new_ledger_ok].
  - by apply run_domain_call_ok.
Qed.

(** ** [restore] *)
Lemma domain_restore_Ok (snap : LocalScalarSnapshot T) d :
  keyed (ws_causal (lss_working snap)) →
  LocalScalarDomain.restore snap = Ok d ↔
  snap = LocalScalarDomain.snapshot d ∧ working_ok (working d) ∧
    ledger_shape (causal (working d)) (finalization d).
Proof.
  intros Hk. unfold LocalScalarDomain.restore, LocalScalarDomain.snapshot. split.
  - intros Hd. inv_ok. apply working_restore_Ok in H as [Hs Hw]; [|done].
    apply ledger_restore_Ok in H0 as [Hs' Hl]; [|apply Hw]. destruct snap; cbn in *.
    by subst.
  - intros (-> & Hw & Hl). cbn [lss_working lss_finalization] in *.
    rewrite (proj2 (working_restore_Ok (WorkingScalar.snapshot (working d)) (working d) Hk)) by done.
    cbn [mbind result_bind].
    rewrite (proj2 (ledger_restore_Ok _ (FinalizationLedger.snapshot (finalization d)) (finalization d)
      (proj1 Hw))) by done. by destruct d.
Qed.

Lemma domain_restore_snapshot d :
  domain_ok d → LocalScalarDomain.restore (LocalScalarDomain.snapshot d) = Ok d.
Proof. intros [Hw [Hl _]]. apply domain_restore_Ok; [apply Hw|done]. Qed.
(** ** Nothing is rolled back *)

(** [d'] keeps every revision, ownership, frozen statement and exposure of
    [d]. *)
Definition retains d d' : Prop :=
  revisions (causal (working d)) ⊆ revisions (causal (working d')) ∧
  local_revision_ids (finalization d) ⊆ local_revision_ids (finalization d') ∧
  finalized (finalization d) ⊆ finalized (finalization d') ∧
  exposed_local_ids (finalization d) ⊆ exposed_local_ids (finalization d') ∧
  handed_off_local_ids (finalization d) ⊆ handed_off_local_ids (finalization d').

Lemma retains_refl d : retains d d.
Proof. by split_and!. Qed.

Lemma retains_trans d1 d2 d3 : retains d1 d2 → retains d2 d3 → retains d1 d3.
Proof.
  intros (?&?&?&?&?) (?&?&?&?&?). split_and!; by etrans.
Qed.

Lemma retains_working d w l :
  revisions (causal (working d)) ⊆ revisions (causal w) →
  l = finalization d ∨ (∃ x, l = owned (finalization d) x) →
  retains d (LocalScalarDomain_mk w l).
Proof. intros Hsub [-> |[x ->]]; split_and!; cbn; set_solver. Qed.

Lemma finalize_retains d x : domain_ok d → retains d (LocalScalarDomain.finalize x d).1.
Proof.
  intros Hok. unfold LocalScalarDomain.finalize. rewrite on_finalization_eq, finalize_cases by apply Hok.
  destruct d as [w l]; cbn [working finalization fst].
  destruct (revisions (causal w) !! x) as [rev|] eqn:Hrev; [|apply retains_refl].
  case_decide; [|apply retains_refl]. split_and!; cbn; [done|done| |done|done].
  apply map_subseteq_spec. intros y st Hst. rewrite lookup_insert_Some.
  destruct (decide (x = y)) as [<-|]; [left|by right]. split; [done|].
  destruct Hok as [_ [(_ & _ & _ & _ & Hf) _]].
  destruct (Hf x st Hst) as (rev' & Hrev' & ->). cbn in Hrev'. by simplify_eq.
Qed.

Lemma handoff_retains d ids : domain_ok d → retains d (LocalScalarDomain.handoff ids d).1.
Proof.
  intros Hok. unfold LocalScalarDomain.handoff. rewrite on_finalization_eq.
  pose proof (handoff_spec _ _ ids (domain_ok_causal _ Hok) (proj2 Hok)) as Hs.
  destruct d as [w l]; cbn [working finalization fst] in *.
  destruct (FinalizationLedger.handoff (causal w) ids l) as [l' [u|e|]];
    [|by destruct Hs as [-> _]; apply retains_refl|done].
  destruct Hs as (_ & _ & Hloc & Hfz & He & Hh).
  split_and!; cbn; [done|by rewrite Hloc|by rewrite Hfz| |].
  - intros x Hx. apply He. by left.
  - intros x Hx. apply Hh. by left.
Qed.

Lemma seal_local_retains d x : domain_ok d → retains d (LocalScalarDomain.seal_local x d).1.
Proof.
  intros Hok. rewrite seal_local_cases by done.
  destruct (revisions (causal (working d)) !! x) as [rev|] eqn:Hx; [apply retains_refl|].
  destruct (pending (working d)) as [e|]; [|apply retains_refl]. cbn [fst].
  apply retains_working; [|by right; eexists].
  by apply (extended_larger (causal (working d)) (sealed_revision x e)).
Qed.

Lemma observe_remote_retains d remote pre :
  keyed remote → domain_ok d → retains d (LocalScalarDomain.observe_remote remote pre d).1.
Proof.
  intros Hk Hok. destruct (ScalarRegister.validate remote) as [u|e|] eqn:Hval.
  2,3: unfold LocalScalarDomain.observe_remote; rewrite st_bind;
    unfold LocalScalarDomain.on_working, on_field; rewrite observe_remote_invalid, Hval;
    destruct d; apply retains_refl.
  assert (valid remote) as Hr by by eapply validate_valid.
  rewrite observe_remote_domain_cases by done.
  destruct (observed_base (working d) pre) as [[w sealed]|e|] eqn:Hb; [|apply retains_refl..].
  pose proof (observed_base_ok _ _ _ _ (proj1 Hok) Hb) as [[Hv' _] _].
  pose proof (observed_base_larger _ _ _ _ Hb) as [Hsub _].
  destruct (ScalarRegister.merge (causal w) remote) as [m|e|] eqn:Hm; cbn [fst];
    apply retains_working; [|destruct sealed; [by right; eexists|by left]|done|by left|done|by left].
  pose proof (merge_larger _ _ _ Hv' Hr Hm). cbn. by etrans.
Qed.

Lemma run_domain_call_retains c d : call_ok c → domain_ok d → retains d (run_domain_call c d).
Proof.
  intros Hc Hok. destruct c as [w v|v|x|remote pre|x|ids]; cbn [run_domain_call].
  - unfold LocalScalarDomain.begin_epoch, LocalScalarDomain.on_working, on_field.
    rewrite begin_epoch_cases. destruct (pending _); apply retains_working; auto.
  - unfold LocalScalarDomain.update_pending, LocalScalarDomain.on_working, on_field.
    rewrite update_pending_cases. destruct (pending _); apply retains_working; auto.
  - by apply seal_local_retains.
  - by apply observe_remote_retains.
  - by apply finalize_retains.
  - by apply handoff_retains.
Qed.

(** A run of calls, in order. *)
Definition run_domain_calls (cs : list (domain_call T)) d : LocalScalarDomain T :=
  foldl (λ d c, run_domain_call c d) d cs.

Lemma run_domain_calls_ok cs d :
  (∀ c, c ∈ cs → call_ok c) → domain_ok d →
  domain_ok (run_domain_calls cs d) ∧ retains d (run_domain_calls cs d).
Proof.
  unfold run_domain_calls. revert d. induction cs as [|c cs IH]; intros d Hcs Hok; cbn [foldl].
  - split; [done|apply retains_refl].
  - assert (call_ok c) as Hc by (apply Hcs; left).
    destruct (IH (run_domain_call c d)) as [? ?]; [intros; apply Hcs; by right| |].
    + by apply run_domain_call_ok.
    + split; [done|]. eapply retains_trans; [|done]. by apply run_domain_call_retains.
Qed.
End steps.
