(* ===== verification/Durability.v ===== *)
(** * Durability contract (crates/apc-core/src/durability.rs)

    [DurabilityBackend] is the trait, [DurabilityLaws] the documented meaning of
    its methods, stated over what a power loss may leave behind.
    [commit_durable] is proved crash-safe against the laws; the crash simulator
    of the module's tests, [CrashBackend], discharges them. *)
From stdpp Require Import base tactics option list gmap.
From Stdlib Require Import Lia NArith.
From S2P Require Import Prelude BTree Bytes.

Class DurabilityBackend (B S : Type) := {
  Candidate : Type;
  BackendError : Type;
  load_committed : B → result BackendError (option S);
  write_candidate : S → stateful B BackendError Candidate;
  sync_candidate : Candidate → stateful B BackendError unit;
  publish_candidate : Candidate → stateful B BackendError unit;
  sync_committed_root : stateful B BackendError unit;
}.

Section commit.
Context {B S : Type} `{DurabilityBackend B S}.

Definition commit_durable (state : S) : stateful B BackendError unit :=
  candidate ← write_candidate state;
  _ ← sync_candidate candidate;
  _ ← publish_candidate candidate;
  _ ← sync_committed_root;
  mret tt.

(** The first [steps] calls of [commit_durable], where a power loss may cut it
    short. *)
Definition commit_prefix (steps : nat) (state : S) : stateful B BackendError unit :=
  if decide (steps = 0) then mret tt else
  candidate ← write_candidate state;
  if decide (steps = 1) then mret tt else
  _ ← sync_candidate candidate;
  if decide (steps = 2) then mret tt else
  _ ← publish_candidate candidate;
  if decide (steps = 3) then mret tt else
  _ ← sync_committed_root;
  mret tt.
End commit.

(** What a power loss may turn a backend into. *)
Class CrashModel (B S : Type) `{DurabilityBackend B S} := may_crash : B → B → Prop.

(** What may be loaded after a power loss. *)
Definition recoverable {B S : Type} `{CrashModel B S} (b : B) (o : option S) : Prop :=
  ∃ b', may_crash b b' ∧ load_committed b' = Ok o.

(** What the methods promise: [written] and [durable] say that a candidate
    holds a state, before and after its barrier, and [published] that the
    visible root names such a candidate. *)
Class DurabilityLaws (B S : Type) `{CrashModel B S} := {
  backend_ok : B → Prop;
  written : B → Candidate → S → Prop;
  durable : B → Candidate → S → Prop;
  published : B → S → Prop;
  write_candidate_law b s b' res :
    backend_ok b → write_candidate s b = (b', res) →
    backend_ok b' ∧ (∀ o, recoverable b' o → recoverable b o) ∧
    ∀ c, res = Ok c → written b' c s;
  sync_candidate_law b c s b' res :
    backend_ok b → written b c s → sync_candidate c b = (b', res) →
    backend_ok b' ∧ (∀ o, recoverable b' o → recoverable b o) ∧
    (res = Ok tt → durable b' c s);
  publish_candidate_law b c s b' res :
    backend_ok b → durable b c s → publish_candidate c b = (b', res) →
    backend_ok b' ∧ (∀ o, recoverable b' o → recoverable b o ∨ o = Some s) ∧
    (res = Ok tt → published b' s);
  sync_committed_root_law b s b' res :
    backend_ok b → published b s → sync_committed_root b = (b', res) →
    backend_ok b' ∧ (∀ o, recoverable b' o → recoverable b o ∨ o = Some s) ∧
    (res = Ok tt → ∀ o, recoverable b' o → o = Some s);
}.

Section safety.
Context {B S : Type} `{DurabilityLaws B S}.

(** [b'] may lose everything since [b], but nothing older, and gains at most
    [s]. *)
Definition no_third_state (b : B) (s : S) (b' : B) : Prop :=
  backend_ok b' ∧ ∀ o, recoverable b' o → recoverable b o ∨ o = Some s.

Lemma no_third_state_refl b s : backend_ok b → no_third_state b s b.
Proof. split; eauto. Qed.

(** One step after another, in the order of [commit_durable]. *)
Lemma commit_prefix_safe steps s b :
  backend_ok b → no_third_state b s (commit_prefix steps s b).1.
Proof.
  intros Hb. unfold commit_prefix. case_decide; [by apply no_third_state_refl|].
  rewrite st_bind. destruct (write_candidate s b) as [b1 r1] eqn:E1.
  destruct (write_candidate_law _ _ _ _ Hb E1) as (Hb1 & Hr1 & Hc).
  assert (no_third_state b s b1) by (split; eauto). destruct r1 as [c| |]; [|done..].
  specialize (Hc c eq_refl). case_decide; [done|].
  rewrite st_bind. destruct (sync_candidate c b1) as [b2 r2] eqn:E2.
  destruct (sync_candidate_law _ _ _ _ _ Hb1 Hc E2) as (Hb2 & Hr2 & Hd).
  assert (no_third_state b s b2) by (split; eauto). destruct r2 as [[]| |]; [|done..].
  specialize (Hd eq_refl). case_decide; [done|].
  rewrite st_bind. destruct (publish_candidate c b2) as [b3 r3] eqn:E3.
  destruct (publish_candidate_law _ _ _ _ _ Hb2 Hd E3) as (Hb3 & Hr3 & Hp).
  assert (no_third_state b s b3) by (split; [done|]; intros o [?|?]%Hr3; eauto).
  destruct r3 as [[]| |]; [|done..].
  specialize (Hp eq_refl). case_decide; [done|].
  rewrite st_bind. destruct (sync_committed_root b3) as [b4 r4] eqn:E4.
  destruct (sync_committed_root_law _ _ _ _ Hb3 Hp E4) as (Hb4 & Hr4 & _).
  assert (no_third_state b s b4) by (split; [done|]; intros o [[?|?]%Hr3|?]%Hr4; eauto).
  by destruct r4.
Qed.

Lemma commit_prefix_full s : commit_prefix (B := B) 4 s = commit_durable s.
Proof. reflexivity. Qed.

Lemma commit_durable_ack s b b' :
  backend_ok b → commit_durable s b = (b', Ok tt) → ∀ o, recoverable b' o → o = Some s.
Proof.
  intros Hb. unfold commit_durable. rewrite st_bind.
  destruct (write_candidate s b) as [b1 [c| |]] eqn:E1; [|done..].
  destruct (write_candidate_law _ _ _ _ Hb E1) as (Hb1 & _ & Hc).
  rewrite st_bind. destruct (sync_candidate c b1) as [b2 [[]| |]] eqn:E2; [|done..].
  destruct (sync_candidate_law _ _ _ _ _ Hb1 (Hc c eq_refl) E2) as (Hb2 & _ & Hd).
  rewrite st_bind. destruct (publish_candidate c b2) as [b3 [[]| |]] eqn:E3; [|done..].
  destruct (publish_candidate_law _ _ _ _ _ Hb2 (Hd eq_refl) E3) as (Hb3 & _ & Hp).
  rewrite st_bind. destruct (sync_committed_root b3) as [b4 [[]| |]] eqn:E4; [|done..].
  destruct (sync_committed_root_law _ _ _ _ Hb3 (Hp eq_refl) E4) as (_ & _ & Hack).
  run_st. intros [= <-]. by apply Hack.
Qed.
End safety.

(** ** The crash simulator of the module's tests *)
Record CrashBackend (S : Type) : Type := CrashBackend_mk {
  next_handle : N;
  volatile_candidates : gmap N S;
  durable_candidates : gmap N S;
  visible_root : option N;
  durable_root : option N;
}.
Arguments CrashBackend_mk {S} _ _ _ _ _.
Arguments next_handle {S} _.
Arguments volatile_candidates {S} _.
Arguments durable_candidates {S} _.
Arguments visible_root {S} _.
Arguments durable_root {S} _.

Module CrashBackend.
Section CrashBackend.
Context {S : Type}.
Implicit Types self : CrashBackend S.

Definition with_committed (state : S) : CrashBackend S :=
  CrashBackend_mk 1 ∅ {[0%N := state]} (Some 0%N) (Some 0%N).

(** A power loss; the flag says whether an unsynced root publication survived. *)
Definition crash (publication_reached_media : bool) self : CrashBackend S :=
  let durable_root :=
    match publication_reached_media, visible_root self with
    | true, Some root =>
        if decide (root ∈ dom (durable_candidates self)) then Some root else durable_root self
    | _, _ => durable_root self
    end in
  CrashBackend_mk (next_handle self) ∅ (durable_candidates self) durable_root durable_root.

Definition load_committed self : result Empty_set (option S) :=
  Ok (root ← durable_root self; durable_candidates self !! root).

Definition write_candidate (state : S) : stateful (CrashBackend S) Empty_set N :=
  self ← get_state;
  next ← lift_result (expect (u64_checked_add (next_handle self) 1));
  _ ← put_state (CrashBackend_mk next
        (<[next_handle self := state]> (volatile_candidates self))
        (durable_candidates self) (visible_root self) (durable_root self));
  mret (next_handle self).

Definition sync_candidate (candidate : N) : stateful (CrashBackend S) Empty_set unit :=
  self ← get_state;
  match volatile_candidates self !! candidate with
  | Some state =>
      put_state (CrashBackend_mk (next_handle self) (volatile_candidates self)
        (<[candidate := state]> (durable_candidates self)) (visible_root self)
        (durable_root self))
  | None => mret tt
  end.

(** The assertion that the candidate is durable panics when it fails. *)
Definition publish_candidate (candidate : N) : stateful (CrashBackend S) Empty_set unit :=
  self ← get_state;
  _ ← lift_result (if decide (candidate ∈ dom (durable_candidates self)) then Ok tt else Panic);
  put_state (CrashBackend_mk (next_handle self) (volatile_candidates self)
    (durable_candidates self) (Some candidate) (durable_root self)).

Definition sync_committed_root : stateful (CrashBackend S) Empty_set unit :=
  self ← get_state;
  put_state (CrashBackend_mk (next_handle self) (volatile_candidates self)
    (durable_candidates self) (visible_root self) (visible_root self)).
End CrashBackend.
End CrashBackend.

#[export] Instance crash_backend (S : Type) : DurabilityBackend (CrashBackend S) S := {|
  Candidate := N;
  BackendError := Empty_set;
  load_committed := CrashBackend.load_committed;
  write_candidate := CrashBackend.write_candidate;
  sync_candidate := CrashBackend.sync_candidate;
  publish_candidate := CrashBackend.publish_candidate;
  sync_committed_root := CrashBackend.sync_committed_root;
|}.

#[export] Instance crash_backend_model (S : Type) : CrashModel (CrashBackend S) S :=
  λ b b', ∃ flag, b' = CrashBackend.crash flag b.

Section crash_backend.
Context {S : Type}.
Implicit Types (b : CrashBackend S) (s : S) (o : option S).

(** Both roots name durable candidates, and no handle is reused. *)
Definition crash_backend_ok b : Prop :=
  (∀ h, visible_root b = Some h → h ∈ dom (durable_candidates b)) ∧
  (∀ h, durable_root b = Some h → h ∈ dom (durable_candidates b)) ∧
  (∀ h, h ∈ dom (durable_candidates b) → (h < next_handle b)%N).

(** A fresh candidate is not the one a root names. *)
Definition fresh_candidate b (c : N) (s : S) : Prop :=
  volatile_candidates b !! c = Some s ∧ visible_root b ≠ Some c ∧ durable_root b ≠ Some c ∧
  (c < next_handle b)%N.

Definition root_state (m : gmap N S) (root : option N) : option S := h ← root; m !! h.

Lemma crash_recovers b o :
  crash_backend_ok b →
  recoverable b o ↔
  o = root_state (durable_candidates b) (durable_root b) ∨
  (is_Some (visible_root b) ∧ o = root_state (durable_candidates b) (visible_root b)).
Proof.
  intros (Hv & _ & _). unfold recoverable, may_crash, crash_backend_model, root_state.
  cbn. unfold CrashBackend.load_committed, CrashBackend.crash. split.
  - intros (b' & [flag ->] & [= <-]). cbn. destruct flag; [|by left].
    destruct (visible_root b) as [h|] eqn:Hh; [|by left]. case_decide as Hin; [right|by left].
    by split.
  - intros [-> |[[h Hh] ->]].
    + eexists. split; [by exists false|]. done.
    + eexists. split; [by exists true|]. cbn. rewrite Hh. by rewrite decide_True by auto.
Qed.

Lemma crash_write b s b' (res : result Empty_set N) :
  crash_backend_ok b → CrashBackend.write_candidate s b = (b', res) →
  crash_backend_ok b' ∧ (∀ o, recoverable b' o → recoverable b o) ∧
  ∀ c, res = Ok c → fresh_candidate b' c s.
Proof.
  intros Hok. unfold CrashBackend.write_candidate. run_st.
  destruct (expect _) as [n|[]|] eqn:Hn; run_st; intros [= <- <-]; [|by split_and!].
  apply expect_Ok in Hn. unfold u64_checked_add in Hn. case_decide; simplify_eq.
  pose proof Hok as (Hv & Hd & Hf).
  assert (crash_backend_ok (CrashBackend_mk (next_handle b + 1)
    (<[next_handle b := s]> (volatile_candidates b)) (durable_candidates b) (visible_root b)
    (durable_root b))) as Hok'.
  { split_and!; cbn; [done..|]. intros h Hh. specialize (Hf h Hh). lia. }
  split_and!; [done| |].
  - intros o. rewrite !crash_recovers by done. done.
  - intros c [= <-]. split_and!; cbn; [by rewrite lookup_insert_eq| | |lia];
      intros Heq; [apply Hv, Hf in Heq|apply Hd, Hf in Heq]; lia.
Qed.

Lemma root_state_insert m c s h : h ≠ Some c → root_state (<[c := s]> m) h = root_state m h.
Proof.
  intros Hc. unfold root_state. destruct h as [h|]; [|done]. cbn.
  by rewrite lookup_insert_ne by congruence.
Qed.

Lemma crash_sync b c s b' (res : result Empty_set unit) :
  crash_backend_ok b → fresh_candidate b c s → CrashBackend.sync_candidate c b = (b', res) →
  crash_backend_ok b' ∧ (∀ o, recoverable b' o → recoverable b o) ∧
  (res = Ok tt → durable_candidates b' !! c = Some s).
Proof.
  intros Hok (Hc & Hnv & Hnd & Hlt). unfold CrashBackend.sync_candidate. run_st.
  rewrite Hc. run_st. intros [= <- <-]. pose proof Hok as (Hv & Hd & Hf).
  assert (crash_backend_ok (CrashBackend_mk (next_handle b) (volatile_candidates b)
    (<[c := s]> (durable_candidates b)) (visible_root b) (durable_root b))) as Hok'.
  { split_and!; cbn; intros h Hh; rewrite dom_insert in *; set_solver by eauto. }
  split_and!; [done| |intros _; cbn; apply lookup_insert_eq].
  intros o. rewrite !crash_recovers by done. cbn -[root_state]. by rewrite !root_state_insert by done.
Qed.

Lemma crash_publish b c s b' (res : result Empty_set unit) :
  crash_backend_ok b → durable_candidates b !! c = Some s →
  CrashBackend.publish_candidate c b = (b', res) →
  crash_backend_ok b' ∧ (∀ o, recoverable b' o → recoverable b o ∨ o = Some s) ∧
  (res = Ok tt → ∃ c, visible_root b' = Some c ∧ durable_candidates b' !! c = Some s).
Proof.
  intros Hok Hc. unfold CrashBackend.publish_candidate. run_st.
  assert (c ∈ dom (durable_candidates b)) as Hin by by eapply elem_of_dom_2.
  rewrite decide_True by done. run_st. intros [= <- <-]. pose proof Hok as (Hv & Hd & Hf).
  assert (crash_backend_ok (CrashBackend_mk (next_handle b) (volatile_candidates b)
    (durable_candidates b) (Some c) (durable_root b))) as Hok'.
  { split_and!; cbn; [by intros h [= <-]|done..]. }
  split_and!; [done| |by exists c]. intros o. rewrite !crash_recovers by done. cbn.
  intros [?|[_ ->]]; [by left; left|by right].
Qed.

Lemma crash_sync_root b s b' (res : result Empty_set unit) :
  crash_backend_ok b → (∃ c, visible_root b = Some c ∧ durable_candidates b !! c = Some s) →
  CrashBackend.sync_committed_root b = (b', res) →
  crash_backend_ok b' ∧ (∀ o, recoverable b' o → recoverable b o ∨ o = Some s) ∧
  (res = Ok tt → ∀ o, recoverable b' o → o = Some s).
Proof.
  intros Hok (c & Hc & Hs). unfold CrashBackend.sync_committed_root. run_st.
  intros [= <- <-]. pose proof Hok as (Hv & Hd & Hf).
  assert (crash_backend_ok (CrashBackend_mk (next_handle b) (volatile_candidates b)
    (durable_candidates b) (visible_root b) (visible_root b))) as Hok' by by split_and!.
  assert (∀ o, recoverable (CrashBackend_mk (next_handle b) (volatile_candidates b)
    (durable_candidates b) (visible_root b) (visible_root b)) o → o = Some s) as Hack.
  { intros o. rewrite crash_recovers by done. cbn. rewrite Hc. cbn. naive_solver. }
  split_and!; [done| |done]. intros o Ho. right. by apply Hack.
Qed.

#[export] Instance crash_backend_laws : DurabilityLaws (CrashBackend S) S := {|
  backend_ok := crash_backend_ok;
  written := fresh_candidate;
  durable b c s := durable_candidates b !! c = Some s;
  published b s := ∃ c, visible_root b = Some c ∧ durable_candidates b !! c = Some s;
  write_candidate_law := crash_write;
  sync_candidate_law := crash_sync;
  publish_candidate_law := crash_publish;
  sync_committed_root_law := crash_sync_root;
|}.

Lemma with_committed_ok s : crash_backend_ok (CrashBackend.with_committed s).
Proof. split_and!; cbn; intros h; rewrite ?dom_singleton; [set_solver..|]. intros ->%elem_of_singleton. lia. Qed.
End crash_backend.
