(* ===== verification/Reader.v ===== *)
(** * Readers and writers

    The crates' codecs share one shape: a writer appends to an output vector
    and a [Reader { bytes, position }] consumes a slice.  A decoder's meaning is
    a grammar, the relation between the bytes it consumes and the value it
    returns; [accepts] says that a decoder returns exactly what its grammar
    relates, never panics, and is compositional. *)
From Stdlib Require Import Lia NArith Strings.Byte.
From stdpp Require Import base tactics option list gmap numbers.
From S2P Require Import Prelude BTree Bytes Id.
Local Open Scope N_scope.

(** ** Loops [for _ in 0..n] *)
Section repeat.
Context {S E A : Type} (f : A → stateful S E A).

Fixpoint repeat_pos (n : positive) (a : A) : stateful S E A :=
  match n with
  | xH => f a
  | xO n => a ← repeat_pos n a; repeat_pos n a
  | xI n => a ← f a; a ← repeat_pos n a; repeat_pos n a
  end.

(** [let mut a = a; for _ in 0..n { a = f(a)?; }]: the count is a machine
    integer, so it is consumed in binary. *)
Definition repeat_n (n : N) (a : A) : stateful S E A :=
  match n with
  | 0 => mret a
  | N.pos n => repeat_pos n a
  end.

Fixpoint repeat_nat (n : nat) (a : A) : stateful S E A :=
  match n with
  | O => mret a
  | Datatypes.S n => a ← f a; repeat_nat n a
  end.

Lemma st_bind_assoc {B C} (m : stateful S E A) (g : A → stateful S E B) (h : B → stateful S E C) s :
  ((m ≫= g) ≫= h) s = (m ≫= λ a, g a ≫= h) s.
Proof. rewrite !st_bind. by destruct (m s) as [s' []]. Qed.

Lemma st_bind_ext {B} (m : stateful S E A) (g h : A → stateful S E B) s :
  (∀ a s', g a s' = h a s') → (m ≫= g) s = (m ≫= h) s.
Proof. intros Hgh. rewrite !st_bind. by destruct (m s) as [s' []]. Qed.

Lemma repeat_nat_add n m a s :
  repeat_nat (n + m) a s = (repeat_nat n a ≫= repeat_nat m) s.
Proof.
  revert a s. induction n as [|n IH]; intros a s; [done|].
  cbn [Nat.add repeat_nat]. rewrite st_bind_assoc. apply st_bind_ext. intros a' s'. apply IH.
Qed.

Lemma repeat_pos_nat n a s : repeat_pos n a s = repeat_nat (Pos.to_nat n) a s.
Proof.
  revert a s. induction n as [n IH|n IH|]; intros a s; cbn [repeat_pos].
  - rewrite Pos2Nat.inj_xI. cbn [repeat_nat]. apply st_bind_ext. intros a' s'.
    replace (2 * Pos.to_nat n)%nat with (Pos.to_nat n + Pos.to_nat n)%nat by lia.
    rewrite repeat_nat_add, !st_bind, IH. by destruct (repeat_nat _ _ _) as [? []].
  - rewrite Pos2Nat.inj_xO.
    replace (2 * Pos.to_nat n)%nat with (Pos.to_nat n + Pos.to_nat n)%nat by lia.
    rewrite repeat_nat_add, !st_bind, IH. by destruct (repeat_nat _ _ _) as [? []].
  - rewrite Pos2Nat.inj_1. cbn [repeat_nat]. rewrite st_bind. by destruct (f a s) as [? []].
Qed.

Lemma repeat_n_nat n a s : repeat_n n a s = repeat_nat (N.to_nat n) a s.
Proof. destruct n; [done|]. apply repeat_pos_nat. Qed.
End repeat.

(** ** Writers *)

(** [out.extend_from_slice(bytes)]. *)
Definition extend {E : Type} (bytes : list byte) : stateful (list byte) E unit := λ out,
  (out ++ bytes, Ok tt).

(** [for x in xs { write(x)?; }] over an output vector. *)
Fixpoint write_each {E A : Type} (write : A → stateful (list byte) E unit) (xs : list A) :
    stateful (list byte) E unit :=
  match xs with
  | [] => mret tt
  | x :: xs => _ ← write x; write_each write xs
  end.

(** The meaning of a writer: it succeeds exactly under [C], then appends bytes
    that satisfy [P], and it never panics. *)
Definition writes {E A : Type} (m : stateful (list byte) E A) (C : Prop) (P : list byte → Prop) :
    Prop :=
  ∀ out, match m out with
         | (out', Ok _) => C ∧ ∃ enc, out' = out ++ enc ∧ P enc
         | (_, Err _) => ¬ C
         | (_, Panic) => False
         end.

Section writers.
Context {E : Type}.
Implicit Types (m : stateful (list byte) E unit) (C : Prop) (P : list byte → Prop).

Lemma writes_extend bytes : writes (extend (E := E) bytes) True (λ enc, enc = bytes).
Proof. intros out. cbn. eauto. Qed.

Lemma writes_ret : writes (mret tt : stateful (list byte) E unit) True (λ enc, enc = []).
Proof. intros out. cbn. split; [done|]. exists []. by rewrite app_nil_r. Qed.

Lemma writes_bind m (k : unit → stateful (list byte) E unit) C C' P Q :
  writes m C P → writes (k tt) C' Q →
  writes (m ≫= k) (C ∧ C') (λ enc, ∃ e1 e2, enc = e1 ++ e2 ∧ P e1 ∧ Q e2).
Proof.
  intros Hm Hk out. specialize (Hm out). rewrite st_bind.
  destruct (m out) as [o1 [[]|e|]]; [|naive_solver..].
  destruct Hm as (HC & e1 & -> & HP). specialize (Hk (out ++ e1)).
  destruct (k tt (out ++ e1)) as [o2 [[]|e|]]; [|naive_solver..].
  destruct Hk as (HC' & e2 & -> & HQ). split; [done|]. exists (e1 ++ e2). rewrite app_assoc. eauto 10.
Qed.

Lemma writes_lift {A} (r : result E A) :
  r ≠ Panic → writes (lift_result r) (is_ok r) (λ enc, enc = []).
Proof.
  intros Hr out. unfold lift_result, is_ok. destruct r as [a|e|]; [|naive_solver..].
  split; [by exists a|]. exists []. by rewrite app_nil_r.
Qed.

Lemma writes_lift_then {A} (r : result E A) (k : A → stateful (list byte) E unit) (C : A → Prop)
    (P : A → list byte → Prop) :
  r ≠ Panic → (∀ a, r = Ok a → writes (k a) (C a) (P a)) →
  writes (lift_result r ≫= k) (∃ a, r = Ok a ∧ C a) (λ enc, ∃ a, r = Ok a ∧ P a enc).
Proof.
  intros Hr Hk out. rewrite st_lift. destruct r as [a|e|]; [|naive_solver..].
  specialize (Hk a eq_refl out). destruct (k a out) as [o [u|e|]]; naive_solver.
Qed.

Lemma writes_ext {A} (m : stateful (list byte) E A) C C' P Q :
  writes m C P → (C ↔ C') → (∀ enc, P enc → Q enc) → writes m C' Q.
Proof.
  intros Hm HC HP out. specialize (Hm out). destruct (m out) as [o [a|e|]]; naive_solver.
Qed.

Lemma writes_each {A} (write : A → stateful (list byte) E unit) (C : A → Prop) (P : A → list byte → Prop) xs :
  (∀ x, x ∈ xs → writes (write x) (C x) (P x)) →
  writes (write_each write xs) (∀ x, x ∈ xs → C x)
    (λ enc, ∃ encs, Forall2 P xs encs ∧ enc = concat encs).
Proof.
  induction xs as [|x xs IH]; intros Hxs; cbn [write_each].
  - eapply writes_ext; [apply writes_ret| |].
    + split; [intros _ x Hx; by apply not_elem_of_nil in Hx|done].
    + intros enc ->. by exists [].
  - eapply writes_ext.
    + apply writes_bind; [apply Hxs; left|]. apply IH. intros y Hy. apply Hxs. by right.
    + split; [|set_solver]. intros [Hx Hl] y [-> |Hy]%elem_of_cons; auto.
    + intros enc (e1 & e2 & -> & H1 & encs & Hencs & ->). exists (e1 :: encs). split; [by constructor|done].
Qed.
End writers.

(** ** Readers *)
Record Reader : Type := Reader_mk {
  rd_bytes : list byte;
  rd_position : N;
}.

(** The errors every reader of the crates distinguishes. *)
Class ReadError (E : Type) := {
  length_overflow : E;
  unexpected_eof : E;
}.

Module Reader.
Section Reader.
Context {E : Type} `{ReadError E}.
Implicit Types self : Reader.

Definition new (bytes : list byte) : Reader := Reader_mk bytes 0.

Definition is_finished self : bool := bool_decide (rd_position self = len (rd_bytes self)).

Definition remaining self : N := len (rd_bytes self) - rd_position self.

Definition read_exact (n : N) : stateful Reader E (list byte) :=
  self ← get_state;
  finish ← lift_result (ok_or length_overflow (usize_checked_add (rd_position self) n));
  slice ← lift_result (ok_or unexpected_eof (get_range (rd_bytes self) (rd_position self) finish));
  _ ← put_state (Reader_mk (rd_bytes self) finish);
  mret slice.

(** [from_be_bytes(self.read_exact(width)?.try_into().expect(..))]. *)
Definition read_be (width : nat) : stateful Reader E N :=
  slice ← read_exact (N.of_nat width);
  bytes ← lift_result (expect (try_into_array width slice));
  mret (be_value (array_bytes bytes)).

Definition read_u8 : stateful Reader E N := read_be 1.
Definition read_u16 : stateful Reader E N := read_be 2.
Definition read_u32 : stateful Reader E N := read_be 4.
Definition read_u64 : stateful Reader E N := read_be 8.

Definition read_len : stateful Reader E N :=
  n ← read_u64;
  lift_result (ok_or length_overflow (usize_try_from n)).

Definition read_vec : stateful Reader E (list byte) :=
  n ← read_len;
  read_exact n.

Definition read_id {kind} : stateful Reader E (opaque_id kind) :=
  slice ← read_exact (N.of_nat LOGICAL_ID_BYTES);
  lift_result (expect (id_try_from slice)).
End Reader.
End Reader.

(** [write_len]: the length as a big-endian [u64]. *)
Definition write_len {E : Type} `{ReadError E} (n : N) : stateful (list byte) E unit :=
  n ← lift_result (ok_or length_overflow (u64_try_from n));
  extend (be_bytes 8 n).

(** [write_bytes]: a length and the bytes. *)
Definition write_bytes {E : Type} `{ReadError E} (bytes : list byte) : stateful (list byte) E unit :=
  _ ← write_len (len bytes);
  extend bytes.

(** ** Grammars *)

(** The bytes a reader has not consumed yet. *)
Definition rest (r : Reader) : list byte := drop (N.to_nat (rd_position r)) (rd_bytes r).

(** A position inside a slice that fits the address space. *)
Definition reader_ok (r : Reader) : Prop :=
  rd_position r ≤ len (rd_bytes r) ∧ len (rd_bytes r) ≤ isize_max.

Definition grammar (A : Type) : Type := list byte → A → Prop.

(** [p] consumes exactly what [G] relates to its value, and panics only
    under [P]. *)
Definition accepts_under (P : Prop) {E A : Type} (p : stateful Reader E A) (G : grammar A) : Prop :=
  ∀ r, reader_ok r →
    match p r with
    | (r', Ok a) =>
        reader_ok r' ∧ rd_bytes r' = rd_bytes r ∧ ∃ c, rest r = c ++ rest r' ∧ G c a
    | (_, Err _) => True
    | (_, Panic) => P
    end ∧
    ∀ c a s, rest r = c ++ s → G c a → ∃ r', p r = (r', Ok a) ∧ rest r' = s.
Notation accepts := (accepts_under False).

Section grammars.
Context {E : Type} {P : Prop}.

Lemma accepts_ext {A} (p : stateful Reader E A) (G H : grammar A) :
  accepts_under P p G → (∀ c a, G c a ↔ H c a) → accepts_under P p H.
Proof.
  intros Hp HG r Hr. destruct (Hp r Hr) as [Hs Hc]. split.
  - destruct (p r) as [r' [a|e|]]; [|done..]. naive_solver.
  - intros c a s Hrest Ha. apply (Hc c); [done|]. by apply HG.
Qed.

(** A grammar only matters on slices that fit the address space. *)
Lemma accepts_ext_slice {A} (p : stateful Reader E A) (G H : grammar A) :
  accepts_under P p G → (∀ c a, len c ≤ isize_max → G c a ↔ H c a) → accepts_under P p H.
Proof.
  intros Hp HG r Hr. destruct (Hp r Hr) as [Hs Hc].
  assert (∀ c s, rest r = c ++ s → len c ≤ isize_max) as Hslice.
  { intros c s Hcs. destruct Hr as [_ Hlen]. etransitivity; [|exact Hlen].
    assert (length (rest r) = length c + length s)%nat as Hl by by rewrite Hcs, length_app.
    unfold rest in Hl. rewrite length_drop in Hl. unfold len. lia. }
  split.
  - destruct (p r) as [r' [a|e|]]; [|done..]. destruct Hs as (Hr' & Hb & c & Hrest & Ha).
    split; [done|]. split; [done|]. exists c. split; [done|]. apply HG; [by eapply Hslice|done].
  - intros c a s Hrest Ha. apply (Hc c); [done|]. apply HG; [by eapply Hslice|done].
Qed.

Lemma accepts_eq {A} (p q : stateful Reader E A) (G : grammar A) :
  (∀ r, p r = q r) → accepts_under P p G → accepts_under P q G.
Proof.
  intros Hpq Hp r Hr. rewrite <-Hpq. by apply Hp.
Qed.

Lemma accepts_ret {A} (a : A) : accepts_under P (mret a : stateful Reader E A) (λ c b, c = [] ∧ b = a).
Proof.
  intros r Hr. split; cbn.
  - split; [done|]. split; [done|]. by exists [].
  - intros c b s Hrest [-> ->]. by exists r.
Qed.

Lemma accepts_lift {A} (res : result E A) :
  (res = Panic → P) → accepts_under P (lift_result res : stateful Reader E A) (λ c a, c = [] ∧ res = Ok a).
Proof.
  intros Hres r Hr. unfold lift_result. split.
  - destruct res as [a|e|]; [|done|by apply Hres]. split; [done|]. split; [done|]. by exists [].
  - intros c a s Hrest [-> ->]. by exists r.
Qed.

Lemma accepts_throw {A} (e : E) : accepts_under P (throw e : stateful Reader E A) (λ _ _, False).
Proof. intros r Hr. by split. Qed.

Lemma accepts_bind {A B} (p : stateful Reader E A) (f : A → stateful Reader E B)
    (G : grammar A) (H : A → grammar B) :
  accepts_under P p G → (∀ c a, G c a → accepts_under P (f a) (H a)) →
  accepts_under P (p ≫= f) (λ c b, ∃ c1 c2 a, c = c1 ++ c2 ∧ G c1 a ∧ H a c2 b).
Proof.
  intros Hp Hf r Hr. rewrite st_bind. destruct (Hp r Hr) as [Hs Hc]. split.
  - destruct (p r) as [r1 [a|e|]]; [|done..]. destruct Hs as (Hr1 & Hb1 & c1 & Hrest & Ha).
    destruct (Hf c1 a Ha r1 Hr1) as [Hs1 _]. destruct (f a r1) as [r2 [b|e|]]; [|done..].
    destruct Hs1 as (Hr2 & Hb2 & c2 & Hrest2 & Hb). split; [done|]. split; [congruence|].
    exists (c1 ++ c2). rewrite Hrest, Hrest2, app_assoc. eauto 10.
  - intros c b s Hrest (c1 & c2 & a & -> & Ha & Hb). rewrite <-app_assoc in Hrest.
    destruct (Hc c1 a _ Hrest Ha) as (r1 & Hr1 & Hrest1). rewrite Hr1 in Hs |- *.
    destruct Hs as (Hok1 & _). by apply (Hf c1 a Ha r1 Hok1) with c2.
Qed.

Lemma accepts_if {A} (Q : Prop) `{Decision Q} (p q : stateful Reader E A) (G1 G2 : grammar A) :
  accepts_under P p G1 → accepts_under P q G2 →
  accepts_under P (if decide Q then p else q) (λ c a, if decide Q then G1 c a else G2 c a).
Proof. intros. by case_decide. Qed.

(** A loop of [n] steps. *)
Fixpoint g_iter {A} (G : A → grammar A) (n : nat) (a : A) : grammar A := λ c b,
  match n with
  | O => c = [] ∧ b = a
  | S n => ∃ c1 c2 a', c = c1 ++ c2 ∧ G a c1 a' ∧ g_iter G n a' c2 b
  end.

Lemma accepts_repeat {A} (f : A → stateful Reader E A) (G : A → grammar A) n a :
  (∀ a, accepts_under P (f a) (G a)) → accepts_under P (repeat_n f n a) (g_iter G (N.to_nat n) a).
Proof.
  intros Hf. assert (∀ k a, accepts_under P (repeat_nat f k a) (g_iter G k a)) as Hnat.
  { intros k. induction k as [|k IH]; intros b; cbn [repeat_nat g_iter]; [apply accepts_ret|].
    by apply accepts_bind. }
  intros r Hr. rewrite repeat_n_nat. by apply Hnat.
Qed.
End grammars.

(** [G] for each item of a list, in order. *)
Definition g_each {A : Type} (G : grammar A) : grammar (list A) := λ c l,
  ∃ cs, Forall2 G cs l ∧ c = concat cs.

Lemma g_each_nil {A} (G : grammar A) c : g_each G c [] ↔ c = [].
Proof.
  split.
  - intros (cs & Hcs & ->). by apply Forall2_nil_inv_r in Hcs as ->.
  - intros ->. by exists [].
Qed.

Lemma g_each_cons {A} (G : grammar A) c x l :
  g_each G c (x :: l) ↔ ∃ c1 c2, c = c1 ++ c2 ∧ G c1 x ∧ g_each G c2 l.
Proof.
  split.
  - intros (cs & (c1 & cs' & Hx & Hcs & ->)%Forall2_cons_inv_r & ->).
    exists c1, (concat cs'). split; [done|]. split; [done|]. by exists cs'.
  - intros (c1 & c2 & -> & Hx & cs & Hcs & ->). exists (c1 :: cs). split; [by constructor|done].
Qed.

(** A loop whose every step reads one item and adds it to an accumulator. *)
Lemma g_iter_each {A B} (G : grammar A) (add : B → A → option B) n b c b' :
  g_iter (λ b c b', ∃ x, G c x ∧ add b x = Some b') n b c b' ↔
  ∃ l, length l = n ∧ g_each G c l ∧ foldl (λ o x, b ← o; add b x) (Some b) l = Some b'.
Proof.
  revert b c. induction n as [|n IH]; intros b c; cbn [g_iter].
  - split.
    + intros [-> ->]. exists []. by rewrite g_each_nil.
    + intros ([|??] & Hl & Hc & Hf); [|done]. apply g_each_nil in Hc as ->. by simplify_eq/=.
  - setoid_rewrite IH. split.
    + intros (c1 & c2 & b1 & -> & (x & Hx & Hadd) & l & Hl & Hc & Hf).
      exists (x :: l). cbn. rewrite Hl, g_each_cons. split; [done|]. split; [eauto|]. by rewrite Hadd.
    + intros ([|x l] & Hl & Hc & Hf); [done|]. apply g_each_cons in Hc as (c1 & c2 & -> & Hx & Hc).
      simplify_eq/=. destruct (add b x) as [b1|] eqn:Hadd.
      * exists c1, c2, b1. split; [done|]. split; [eauto|]. exists l. eauto.
      * exfalso. clear -Hf. induction l; simplify_eq/=; eauto.
Qed.

(** ** The primitive readers and writers *)
Definition g_exact (n : N) : grammar (list byte) := λ c a, c = a ∧ len a = n.
Definition g_be (width : nat) : grammar N := λ c n, n < 256 ^ N.of_nat width ∧ c = be_bytes width n.
Definition g_len : grammar N := λ c n, n ≤ u64_max ∧ c = be_bytes 8 n.
Definition g_bytes : grammar (list byte) := λ c v, len v ≤ u64_max ∧ c = be_bytes 8 (len v) ++ v.
Definition g_id {kind} : grammar (opaque_id kind) := λ c x, c = id_slice x.

Lemma len_rest r : reader_ok r → len (rest r) = len (rd_bytes r) - rd_position r.
Proof. intros [Hp _]. unfold rest, len in *. rewrite length_drop. lia. Qed.

Section primitives.
Context {E : Type} `{ReadError E} {P : Prop}.

Lemma accepts_read_exact n : accepts_under P (Reader.read_exact (E := E) n) (g_exact n).
Proof.
  intros r Hr. unfold Reader.read_exact, get_range, usize_checked_add. run_st.
  pose proof (len_rest r Hr) as Hlen. pose proof isize_usize. destruct Hr as [Hp Hi].
  assert (∀ a, rest r = a ++ drop (N.to_nat n) (rest r) → len a = n →
    rd_position r + n ≤ len (rd_bytes r)) as Hfit.
  { intros a Ha Hn. rewrite Ha, len_app in Hlen. lia. }
  split.
  - case_decide as Hov; run_st; [|done]. cbn [ok_or]. run_st. case_decide as Hin; run_st; [|done].
    cbn [ok_or]. run_st. split; [split; cbn; [apply Hin|done]|]. split; [done|].
    exists (take (N.to_nat n) (rest r)). unfold rest; cbn.
    replace (N.to_nat (rd_position r + n)) with (N.to_nat (rd_position r) + N.to_nat n)%nat by lia.
    replace (rd_position r + n - rd_position r) with n by lia.
    rewrite <-drop_drop. split; [by rewrite take_drop|]. split; [done|].
    unfold len in *. rewrite length_take, length_drop. lia.
  - intros c a s Hrest [-> Hn].
    assert (rd_position r + n ≤ len (rd_bytes r)) as Hfits.
    { rewrite Hrest, len_app in Hlen. lia. }
    rewrite decide_True by lia. cbn [ok_or]. run_st. rewrite decide_True by lia. cbn [ok_or]. run_st.
    exists (Reader_mk (rd_bytes r) (rd_position r + n)).
    replace (rd_position r + n - rd_position r) with n by lia.
    fold (rest r). assert (N.to_nat n = length a) as Hna by (unfold len in Hn; lia).
    split.
    + rewrite Hrest, Hna, take_app_length. done.
    + unfold rest; cbn.
      replace (N.to_nat (rd_position r + n)) with (N.to_nat (rd_position r) + N.to_nat n)%nat by lia.
      rewrite <-drop_drop. fold (rest r). by rewrite Hrest, Hna, drop_app_length.
Qed.

(** A fixed-size slice converts: [try_into().expect(..)] does not panic. *)
Lemma accepts_expect {A} (o : option A) a :
  o = Some a → accepts_under P (lift_result (expect o) : stateful Reader E A) (λ c b, c = [] ∧ b = a).
Proof.
  intros ->. eapply accepts_ext; [by apply accepts_lift|]. cbn. naive_solver.
Qed.

Lemma accepts_read_be w : accepts_under P (Reader.read_be (E := E) w) (g_be w).
Proof.
  eapply accepts_ext.
  - apply accepts_bind; [apply accepts_read_exact|].
    intros c slice [-> Hlen].
    instantiate (1 := λ slice c n, c = [] ∧ n = be_value slice).
    destruct (try_into_array_is_Some w slice) as [a Ha]; [unfold len in Hlen; lia|].
    eapply accepts_ext.
    + apply accepts_bind with (H := λ (a' : byte_array w) c n, c = [] ∧ n = be_value (array_bytes a'));
        [by apply accepts_expect|]. intros c a' _. apply accepts_ret.
    + apply try_into_array_Some in Ha as <-. intros c n. split; [naive_solver|].
      intros [-> ->]. by exists [], [], a.
  - intros c n. split.
    + intros (c1 & c2 & a & -> & [-> Hlen] & -> & ->). rewrite app_nil_r. split.
      * rewrite <-Hlen. apply be_value_bound.
      * replace w with (length a) by (unfold len in Hlen; lia). by rewrite be_bytes_value.
    + intros [Hn ->]. exists (be_bytes w n), [], (be_bytes w n). rewrite app_nil_r.
      split; [done|]. split; [split; [done|unfold len; by rewrite length_be_bytes]|].
      by rewrite be_value_bytes.
Qed.

Lemma accepts_read_len : accepts_under P (Reader.read_len (E := E)) g_len.
Proof.
  eapply accepts_ext.
  - apply accepts_bind; [apply (accepts_read_be 8)|]. intros c n _.
    apply accepts_lift. by intros ?%ok_or_Panic.
  - intros c n. unfold usize_try_from, usize_max, g_be, g_len. setoid_rewrite ok_or_Ok. split.
    + intros (c1 & c2 & a & -> & [Ha ->] & -> & Hn). case_decide; simplify_eq.
      by rewrite app_nil_r.
    + intros [Hn ->]. exists (be_bytes 8 n), [], n. rewrite app_nil_r, decide_True by done.
      split_and!; try done. unfold u64_max in Hn. lia.
Qed.

Lemma accepts_read_vec : accepts_under P (Reader.read_vec (E := E)) g_bytes.
Proof.
  eapply accepts_ext.
  - apply accepts_bind; [apply accepts_read_len|]. intros c n _. apply accepts_read_exact.
  - intros c v. split.
    + intros (c1 & c2 & n & -> & [Hn ->] & -> & <-). done.
    + intros [Hn ->]. exists (be_bytes 8 (len v)), v, (len v). done.
Qed.

Lemma accepts_read_id {kind} : accepts_under P (Reader.read_id (E := E) (kind := kind)) g_id.
Proof.
  eapply accepts_ext.
  - apply accepts_bind; [apply accepts_read_exact|]. intros c slice [-> Hlen].
    instantiate (1 := λ slice c x, c = [] ∧ slice = id_slice x).
    destruct (id_try_from_is_Some (kind := kind) slice) as [x Hx]; [unfold len in Hlen; lia|].
    eapply accepts_ext; [by apply accepts_expect|]. intros c y.
    assert (slice = id_slice x) as ->.
    { unfold id_try_from in Hx. destruct (try_into_array _ slice) as [a|] eqn:Ha; simplify_eq/=.
      apply try_into_array_Some in Ha. by rewrite <-Ha. }
    split; [naive_solver|]. intros [-> Hxy]. split; [done|]. by apply id_slice_inj.
  - intros c x. unfold g_id. split.
    + intros (c1 & c2 & a & -> & [-> _] & -> & ->). by rewrite app_nil_r.
    + intros ->. exists (id_slice x), [], (id_slice x). rewrite app_nil_r.
      split; [done|]. split; [split; [done|]|done]. unfold len. by rewrite length_id_slice.
Qed.

(** A whole input, ended by the check that nothing is left. *)
Lemma rest_finished r : reader_ok r → Reader.is_finished r = true ↔ rest r = [].
Proof.
  intros Hr. pose proof (len_rest r Hr) as Hlen. destruct Hr as [Hp _].
  unfold Reader.is_finished. rewrite bool_decide_eq_true, <-length_zero_iff_nil.
  unfold len in *. lia.
Qed.

Lemma accepts_whole {A} (p : stateful Reader E A) (G : grammar A) (encoded : list byte) a :
  accepts_under P p G → len encoded ≤ isize_max →
  (∃ r, p (Reader.new encoded) = (r, Ok a) ∧ Reader.is_finished r = true) ↔ G encoded a.
Proof.
  intros Hp Hlen. assert (reader_ok (Reader.new encoded)) as Hr by (split; cbn; lia).
  destruct (Hp _ Hr) as [Hs Hc]. split.
  - intros (r & Hr' & Hfin). rewrite Hr' in Hs. destruct Hs as (Hok & _ & c & Hrest & Ha).
    apply rest_finished in Hfin; [|done]. rewrite Hfin, app_nil_r in Hrest.
    cbn in Hrest. by subst.
  - intros Ha. destruct (Hc encoded a []) as (r & Hr' & Hrest);
      [rewrite app_nil_r; reflexivity|done|].
    exists r. rewrite Hr' in Hs. split; [done|]. by apply rest_finished; [apply Hs|].
Qed.

Lemma writes_len n : writes (write_len (E := E) n) (n ≤ u64_max) (λ enc, g_len enc n).
Proof.
  intros out. unfold write_len, u64_try_from. run_st. case_decide; cbn [ok_or]; run_st; [|done].
  cbn. split; [done|]. by exists (be_bytes 8 n).
Qed.

Lemma writes_bytes v : writes (write_bytes (E := E) v) (len v ≤ u64_max) (λ enc, g_bytes enc v).
Proof.
  eapply writes_ext; [apply writes_bind; [apply writes_len|apply writes_extend]|naive_solver|].
  intros enc (e1 & e2 & -> & [Hn ->] & ->). done.
Qed.
End primitives.

#[export] Hint Resolve accepts_read_exact accepts_read_be accepts_read_len accepts_read_vec
  accepts_read_id accepts_ret accepts_throw accepts_bind accepts_if accepts_repeat
  writes_extend writes_ret writes_len writes_bytes writes_bind : apc.

(** ** Counted sequences *)

(** A count and that many items. *)
Definition g_counted {A : Type} (G : grammar A) : grammar (list A) := λ c l,
  len l ≤ u64_max ∧ ∃ c1, c = be_bytes 8 (len l) ++ c1 ∧ g_each G c1 l.

Lemma foldl_push {A} (l acc : list A) :
  foldl (λ o x, b ← o; Some (b ++ [x])) (Some acc) l = Some (acc ++ l).
Proof.
  revert acc. induction l as [|x l IH]; intros acc; cbn; [by rewrite app_nil_r|].
  rewrite IH. by rewrite <-app_assoc.
Qed.

(** The loop that pushes every item. *)
Lemma g_iter_push {A} (G : grammar A) n (acc : list A) c acc' :
  g_iter (λ b c b', ∃ x, G c x ∧ Some (b ++ [x]) = Some b') n acc c acc' ↔
  ∃ l, length l = n ∧ g_each G c l ∧ acc' = acc ++ l.
Proof.
  rewrite (g_iter_each G (λ b x, Some (b ++ [x]))). setoid_rewrite foldl_push. naive_solver.
Qed.

Definition set_add {K : Type} `{Countable K} (s : gset K) (x : K) : option (gset K) :=
  if decide (x ∈ s) then None else Some ({[x]} ∪ s).

Definition map_add {K V : Type} `{Countable K} (m : gmap K V) (kv : K * V) : option (gmap K V) :=
  match m !! kv.1 with
  | Some _ => None
  | None => Some (<[kv.1 := kv.2]> m)
  end.

Lemma foldl_None {A B} (f : option B → A → option B) l :
  (∀ x, f None x = None) → foldl f None l = None.
Proof. intros Hf. induction l as [|x l IH]; cbn; [done|]. by rewrite Hf. Qed.

Lemma foldl_set_add {K} `{Countable K} (l : list K) (s t : gset K) :
  foldl (λ o x, b ← o; set_add b x) (Some s) l = Some t ↔
  NoDup l ∧ (∀ x, x ∈ l → x ∉ s) ∧ t = list_to_set l ∪ s.
Proof.
  revert s. induction l as [|x l IH]; intros s; cbn [foldl].
  - split.
    + intros [= <-]. split; [constructor|]. split; [set_solver|]. set_solver.
    + intros (_ & _ & ->). f_equal. set_solver.
  - change (foldl (λ o x, b ← o; set_add b x) (set_add s x) l = Some t ↔
      NoDup (x :: l) ∧ (∀ y, y ∈ x :: l → y ∉ s) ∧ t = list_to_set (x :: l) ∪ s).
    unfold set_add at 2. case_decide as Hx.
    + rewrite foldl_None by done. split; [done|]. intros (_ & Hd & _). exfalso. apply (Hd x); [left|done].
    + rewrite IH, list.NoDup_cons. set_solver.
Qed.

Lemma foldl_map_add {K V} `{Countable K} (l : list (K * V)) (m m' : gmap K V) :
  foldl (λ o x, b ← o; map_add b x) (Some m) l = Some m' ↔
  NoDup l.*1 ∧ (∀ k, k ∈ l.*1 → m !! k = None) ∧ m' = list_to_map l ∪ m.
Proof.
  revert m. induction l as [|[k v] l IH]; intros m; cbn [foldl fmap list_fmap fst].
  - split.
    + intros [= <-]. split; [constructor|]. split; [set_solver|]. cbn. by rewrite map_empty_union.
    + intros (_ & _ & ->). cbn. by rewrite map_empty_union.
  - change (foldl (λ o x, b ← o; map_add b x) (map_add m (k, v)) l = Some m' ↔
      NoDup (k :: l.*1) ∧ (∀ k', k' ∈ k :: l.*1 → m !! k' = None) ∧
      m' = list_to_map ((k, v) :: l) ∪ m).
    unfold map_add at 2. cbn [fst snd]. destruct (m !! k) as [v'|] eqn:Hk.
    + rewrite foldl_None by done. split; [done|]. intros (_ & Hd & _).
      rewrite (Hd k) in Hk; [done|left].
    + rewrite IH, list.NoDup_cons. cbn [list_to_map foldr]. split.
      * intros (Hnd & Hd & ->).
        assert (k ∉ l.*1) as Hkl.
        { intros Hin. specialize (Hd k Hin). by rewrite lookup_insert_eq in Hd. }
        split; [done|]. split.
        -- intros k' [-> |Hin]%elem_of_cons; [done|]. specialize (Hd k' Hin).
           destruct (decide (k = k')) as [<-|]; [done|]. by rewrite lookup_insert_ne in Hd.
        -- rewrite <-insert_union_l, <-insert_union_r; [done|].
           by apply not_elem_of_list_to_map_1.
      * intros ([Hkl Hnd] & Hd & ->). split; [done|]. split.
        -- intros k' Hin. rewrite lookup_insert_ne by congruence. apply Hd. by right.
        -- cbn. rewrite <-insert_union_l, <-insert_union_r; [done|].
           by apply not_elem_of_list_to_map_1.
Qed.

Section counted.
Context {E : Type} `{ReadError E} {P : Prop}.

Lemma accepts_counted {A B} (G : grammar A) (add : B → A → option B)
    (f : B → stateful Reader E B) b :
  (∀ b, accepts_under P (f b) (λ c b', ∃ x, G c x ∧ add b x = Some b')) →
  accepts_under P (n ← Reader.read_len; repeat_n f n b)
    (λ c b', ∃ l, g_counted G c l ∧ foldl (λ o x, b ← o; add b x) (Some b) l = Some b').
Proof.
  intros Hf. eapply accepts_ext.
  - apply accepts_bind; [apply accepts_read_len|]. intros c n _. apply accepts_repeat, Hf.
  - intros c b'. setoid_rewrite g_iter_each. unfold g_counted. split.
    + intros (c1 & c2 & n & -> & [Hn ->] & l & Hl & Hc & Hfold).
      assert (n = len l) as -> by (unfold len; lia). eauto 10.
    + intros (l & (Hn & c1 & -> & Hc) & Hfold).
      exists (be_bytes 8 (len l)), c1, (len l). split; [done|]. split; [done|].
      exists l. split; [unfold len; lia|done].
Qed.

(** The same loop, followed by the rest of the decoder. *)
Lemma accepts_counted_then {A B D} (G : grammar A) (add : B → A → option B)
    (f : B → stateful Reader E B) b (k : B → stateful Reader E D) (H' : B → grammar D) :
  (∀ b, accepts_under P (f b) (λ c b', ∃ x, G c x ∧ add b x = Some b')) →
  (∀ b', accepts_under P (k b') (H' b')) →
  accepts_under P (n ← Reader.read_len; b' ← repeat_n f n b; k b')
    (λ c y, ∃ c1 c2 l b', c = c1 ++ c2 ∧ g_counted G c1 l ∧
      foldl (λ o x, b ← o; add b x) (Some b) l = Some b' ∧ H' b' c2 y).
Proof.
  intros Hf Hk. eapply accepts_eq; [intros r; apply st_bind_assoc|]. eapply accepts_ext.
  - apply accepts_bind; [by apply (accepts_counted G add)|]. intros _ b' _. apply Hk.
  - cbn. intros c y. split.
    + intros (c1 & c2 & b' & -> & (l & Hl & Hfold) & Hy). eauto 10.
    + intros (c1 & c2 & l & b' & -> & Hl & Hfold & Hy). exists c1, c2, b'. eauto.
Qed.

(** A body that reads one item and adds it. *)
Lemma accepts_item {A B} (item : stateful Reader E A) (G : grammar A)
    (k : A → stateful Reader E B) (add : A → option B) :
  accepts_under P item G →
  (∀ x, match add x with
        | Some b => k x = mret b
        | None => ∃ e, k x = throw e
        end) →
  accepts_under P (item ≫= k) (λ c b, ∃ x, G c x ∧ add x = Some b).
Proof.
  intros Hi Hk. eapply accepts_ext.
  - apply accepts_bind with (H := λ x c b, c = [] ∧ add x = Some b); [done|].
    intros c x _. specialize (Hk x). destruct (add x) as [b|] eqn:Hx.
    + rewrite Hk. eapply accepts_ext; [apply accepts_ret|]. naive_solver.
    + destruct Hk as [e ->]. eapply accepts_ext; [apply accepts_throw|]. naive_solver.
  - intros c b. split.
    + intros (c1 & c2 & a & -> & Ha & -> & Hadd). rewrite app_nil_r. eauto.
    + intros (x & Hx & Hadd). exists c, [], x. by rewrite app_nil_r.
Qed.

Lemma writes_counted {A} (write : A → stateful (list byte) E unit) (C : A → Prop) (G : grammar A) l :
  (∀ x, x ∈ l → writes (write x) (C x) (λ enc, G enc x)) →
  writes (_ ← write_len (len l); write_each write l)
    (len l ≤ u64_max ∧ ∀ x, x ∈ l → C x) (λ enc, g_counted G enc l).
Proof.
  intros Hw. eapply writes_ext.
  - apply writes_bind; [apply writes_len|]. apply (writes_each write C (λ x enc, G enc x)), Hw.
  - done.
  - intros enc (e1 & e2 & -> & [Hn ->] & encs & Hencs & ->). split; [done|].
    eexists. split; [done|]. exists encs. split; [|done]. by apply Forall2_flip.
Qed.
End counted.

(** ** Running a writer or a reader on a whole input *)
Definition run_writer {E : Type} (m : stateful (list byte) E unit) : result E (list byte) :=
  let '(out, res) := m [] in
  _ ← res;
  Ok out.

Definition run_reader {E A : Type} (p : stateful Reader E A) (encoded : list byte) : result E A :=
  (p (Reader.new encoded)).2.

Section runs.
Context {E : Type} `{ReadError E}.

Lemma run_writer_spec (m : stateful (list byte) E unit) C P :
  writes m C P →
  (is_ok (run_writer m) ↔ C) ∧ run_writer m ≠ Panic ∧ ∀ enc, run_writer m = Ok enc → P enc.
Proof.
  intros Hm. specialize (Hm []). unfold run_writer, is_ok. destruct (m []) as [out [[]|e|]]; cbn; [|naive_solver..].
  destruct Hm as (HC & enc & -> & HP). naive_solver.
Qed.

End runs.

(** ** Whole decoders

    [decodes_under P p G]: on the whole remaining input, [p] returns exactly the values
    that [G] relates to all of it. *)
Definition decodes_under (P : Prop) {E A : Type} (p : stateful Reader E A) (G : grammar A) : Prop :=
  ∀ r, reader_ok r → ((p r).2 = Panic → P) ∧ ∀ a, (p r).2 = Ok a ↔ G (rest r) a.
Notation decodes := (decodes_under False).

Section decodes.
Context {E : Type} {P : Prop}.

Lemma decodes_ext {A} (p : stateful Reader E A) (G H : grammar A) :
  decodes_under P p G → (∀ c a, G c a ↔ H c a) → decodes_under P p H.
Proof. intros Hp HG r Hr. destruct (Hp r Hr) as [Hn Ho]. split; [done|]. intros a. by rewrite Ho. Qed.

Lemma decodes_eq {A} (p q : stateful Reader E A) (G : grammar A) :
  (∀ r, p r = q r) → decodes_under P p G → decodes_under P q G.
Proof. intros Hpq Hp r Hr. rewrite <-Hpq. by apply Hp. Qed.

Lemma decodes_bind {A B} (p : stateful Reader E A) (f : A → stateful Reader E B)
    (G : grammar A) (H : A → grammar B) :
  accepts_under P p G → (∀ c a, G c a → decodes_under P (f a) (H a)) →
  decodes_under P (p ≫= f) (λ c b, ∃ c1 c2 a, c = c1 ++ c2 ∧ G c1 a ∧ H a c2 b).
Proof.
  intros Hp Hf r Hr. rewrite st_bind. destruct (Hp r Hr) as [Hs Hc].
  destruct (p r) as [r1 [a|e|]].
  - destruct Hs as (Hr1 & _ & c1 & Hrest & Ha). destruct (Hf c1 a Ha r1 Hr1) as [Hn Ho].
    split; [done|]. intros b. rewrite Ho. split; [by exists c1, (rest r1), a|].
    intros (c2 & c3 & a' & Hcat & Ha' & Hb). destruct (Hc _ _ _ Hcat Ha') as (r' & [= <- <-] & <-).
    done.
  - split; [done|]. intros b. split; [done|]. intros (c2 & c3 & a' & Hcat & Ha' & _).
    by destruct (Hc _ _ _ Hcat Ha') as (r' & [=] & _).
  - split; [done|]. intros b. split; [done|]. intros (c2 & c3 & a' & Hcat & Ha' & _).
    by destruct (Hc _ _ _ Hcat Ha') as (r' & [=] & _).
Qed.

Lemma decodes_throw {A} (e : E) : decodes_under P (throw e : stateful Reader E A) (λ _ _, False).
Proof. intros r Hr. by split. Qed.

Lemma decodes_if {A} (Q : Prop) `{Decision Q} (p q : stateful Reader E A) (G1 G2 : grammar A) :
  (Q → decodes_under P p G1) → (¬ Q → decodes_under P q G2) →
  decodes_under P (if decide Q then p else q) (λ c a, if decide Q then G1 c a else G2 c a).
Proof. intros Hp Hq. case_decide; auto. Qed.

(** The check that nothing is left. *)
Lemma decodes_end {A} (e : E) (a : A) :
  decodes_under P (self ← get_state; if negb (Reader.is_finished self) then throw e else mret a)
    (λ c b, c = [] ∧ b = a).
Proof.
  intros r Hr. run_st. pose proof (rest_finished r Hr) as Hfin.
  destruct (Reader.is_finished r); cbn; (split; [done|]); naive_solver.
Qed.

(** The same check, by the number of remaining bytes. *)
Lemma decodes_empty {A} (e : E) (a : A) :
  decodes_under P (self ← get_state; if decide (Reader.remaining self ≠ 0) then throw e else mret a)
    (λ c b, c = [] ∧ b = a).
Proof.
  intros r Hr. run_st. pose proof (len_rest r Hr) as Hlen. unfold Reader.remaining. rewrite <-Hlen.
  destruct (decide (len (rest r) = 0)) as [Hz|Hz].
  - rewrite decide_False by (intros Hn; by apply Hn). apply len_nil_inv in Hz.
    split; [done|]. cbn. naive_solver.
  - rewrite decide_True by done. split; [done|]. intros b. split; [done|].
    intros [Hn _]. by rewrite Hn in Hz.
Qed.

(** A last field whose length was announced: it must be all that is left. *)
Lemma decodes_remaining {A} `{ReadError E} (e : E) (n : N) (f : list byte → A) :
  decodes_under P (self ← get_state;
           if decide (Reader.remaining self ≠ n) then throw e
           else v ← Reader.read_exact n; mret (f v))
    (λ c b, len c = n ∧ b = f c).
Proof.
  intros r Hr. run_st. pose proof (len_rest r Hr) as Hlen. unfold Reader.remaining.
  destruct (decide (len (rd_bytes r) - rd_position r = n)) as [Hn|Hn].
  - rewrite decide_False by (intros Hn'; by apply Hn'). rewrite st_bind.
    destruct (accepts_read_exact (E := E) (P := P) n r Hr) as [_ Hc].
    destruct (Hc (rest r) (rest r) []) as (r' & Hr' & _); [by rewrite app_nil_r|split; [done|lia]|].
    rewrite Hr'. split; [done|]. cbn. intros a. split; [intros [= <-]; split; [lia|done]|].
    by intros [_ ->].
  - rewrite decide_True by done. split; [done|]. intros a. split; [done|]. intros [Hc _]. lia.
Qed.

(** Requires [Q] before going on. *)
Lemma decodes_require {A} (Q : Prop) `{Decision Q} (e : E) (q : stateful Reader E A) (G : grammar A) :
  decodes_under P q G → decodes_under P (if decide (¬ Q) then throw e else q) (λ c a, Q ∧ G c a).
Proof.
  intros Hq. destruct (decide Q) as [HP|HP].
  - rewrite decide_False by (intros HnP; by apply HnP). eapply decodes_ext; [done|]. naive_solver.
  - rewrite decide_True by done. eapply decodes_ext; [apply decodes_throw|]. naive_solver.
Qed.

Lemma run_reader_decodes {A} (p : stateful Reader E A) (G : grammar A) encoded :
  decodes_under P p G → len encoded ≤ isize_max →
  (run_reader p encoded = Panic → P) ∧ ∀ a, run_reader p encoded = Ok a ↔ G encoded a.
Proof.
  intros Hp Hlen. apply (Hp (Reader.new encoded)). split; cbn; lia.
Qed.
End decodes.

(** A decoder that first checks a minimal length and a magic prefix. *)
Lemma decodes_magic {E A : Type} {P : Prop} (magic encoded : list byte) (min : N) (short bad : E)
    (p : stateful Reader E A) (G : grammar A) :
  len magic ≤ min → (∀ c a, G c a → min ≤ len magic + len c) → decodes_under P p G →
  len encoded ≤ isize_max →
  let decode :=
    if decide (len encoded < min) then Err short else
    m ← slice encoded 0 (len magic);
    if decide (m ≠ magic) then Err bad else
    fields ← slice encoded (len magic) (len encoded);
    run_reader p fields in
  (decode = Panic → P) ∧ ∀ a, decode = Ok a ↔ ∃ c, encoded = magic ++ c ∧ G c a.
Proof.
  intros Hmin HG Hp Hlen. cbn zeta. destruct (decide (len encoded < min)) as [Hs|Hs].
  { split; [done|]. intros a. split; [done|]. intros (c & -> & Ha%HG). rewrite len_app in Hs. lia. }
  destruct (split_len encoded (len magic)) as (m & fields & -> & Hm); [lia|].
  rewrite (slice_mid (m ++ fields) [] m fields 0 (len magic)); [|done|done|by rewrite <-Hm].
  cbn [mbind result_bind]. destruct (decide (m = magic)) as [->|Hne].
  - rewrite decide_False by (intros Hn; by apply Hn).
    rewrite (slice_mid (magic ++ fields) magic fields [] (len magic))
      by (by rewrite ?app_nil_r, ?len_app).
    cbn [mbind result_bind]. rewrite len_app in Hlen.
    destruct (run_reader_decodes p G fields Hp) as [Hnp Ho]; [lia|]. split; [done|].
    intros a. rewrite Ho. split; [by exists fields|]. by intros (c & <-%app_inv_head & Ha).
  - rewrite decide_True by done. split; [done|]. intros a. split; [done|].
    intros (c & Heq & _). exfalso. apply Hne. unfold len in Hm.
    by apply app_inj_1 in Heq as [? _]; [|lia].
Qed.
