(* ===== verification/RegisterCodec.v ===== *)
(** * Registers in bytes

    The encoding of revision sets, revisions and registers that
    crates/apc-sync/src/codec.rs and crates/apc-runtime/src/trusted_state.rs
    share, generic in the error type. *)
From Stdlib Require Import Lia NArith Strings.Byte.
From stdpp Require Import base tactics option list gmap numbers.
From S2P Require Import Prelude BTree Bytes Id Error Worklist Scalar Causal Merge ScalarMerge.
From S2P Require Import Reader.
Local Open Scope N_scope.

(** The errors a register codec adds to a reader's. *)
Class RegisterError (E : Type) := {
  duplicate_revision_in_set : E;
  core_error : CoreError → E;
}.

Section codec.
Context {E : Type} `{ReadError E} `{!RegisterError E}.

(** ** Encoding *)
Definition write_id_set (ids : gset RevisionId) : stateful (list byte) E unit :=
  _ ← write_len (N.of_nat (size ids));
  write_each (λ id, extend (id_slice id)) (elements_asc ids).

Definition write_revision (revision : ScalarRevision (list byte)) :
    stateful (list byte) E unit :=
  _ ← extend (id_slice (sr_id revision));
  _ ← write_bytes (sr_value revision);
  write_id_set (sr_parents revision).

Definition write_register (register : ScalarRegister (list byte)) :
    stateful (list byte) E unit :=
  _ ← write_len (N.of_nat (ScalarRegister.len register));
  write_each write_revision (ScalarRegister.revisions_iter register).

(** ** Decoding *)
Definition read_id_in_set (ids : gset RevisionId) : stateful Reader E (gset RevisionId) :=
  id ← Reader.read_id;
  if decide (id ∈ ids) then throw duplicate_revision_in_set else mret ({[id]} ∪ ids).

Definition read_id_set : stateful Reader E (gset RevisionId) :=
  count ← Reader.read_len;
  repeat_n read_id_in_set count ∅.

Definition read_revision (revisions : list (ScalarRevision (list byte))) :
    stateful Reader E (list (ScalarRevision (list byte))) :=
  id ← Reader.read_id;
  value ← Reader.read_vec;
  parents ← read_id_set;
  mret (revisions ++ [ScalarRevision.new id value parents]).

Definition read_register : stateful Reader E (ScalarRegister (list byte)) :=
  revision_count ← Reader.read_len;
  revisions ← repeat_n read_revision revision_count [];
  lift_result (map_err core_error (ScalarRegister.from_revisions revisions)).

End codec.

(** ** The grammar *)
Definition g_id_set : grammar (gset RevisionId) := λ c s,
  ∃ l, g_counted g_id c l ∧ NoDup l ∧ s = list_to_set l.

Definition g_revision : grammar (ScalarRevision (list byte)) := λ c rev,
  ∃ c1 c2, c = id_slice (sr_id rev) ++ c1 ++ c2 ∧ g_bytes c1 (sr_value rev) ∧
    g_id_set c2 (sr_parents rev).

Definition g_register : grammar (ScalarRegister (list byte)) := λ c r,
  ∃ l, g_counted g_revision c l ∧ ScalarRegister.from_revisions l = Ok r.

Section theory.
Context {E : Type} `{ReadError E} `{!RegisterError E}.

Lemma accepts_id_set : accepts read_id_set g_id_set.
Proof.
  eapply accepts_ext.
  - apply (accepts_counted g_id set_add). intros ids.
    apply (accepts_item _ _ _ (set_add ids)); [apply accepts_read_id|].
    intros x. unfold set_add. destruct (decide (x ∈ ids)) as [Hx|Hx].
    + rewrite !decide_True by done. eauto.
    + by rewrite !decide_False by done.
  - intros c s. unfold g_id_set. setoid_rewrite foldl_set_add. split.
    + intros (l & Hl & Hnd & _ & ->). exists l. split; [done|]. split; [done|]. set_solver.
    + intros (l & Hl & Hnd & ->). exists l. split; [done|]. split; [done|]. set_solver.
Qed.

Lemma accepts_revision l :
  accepts (read_revision l) (λ c l', ∃ rev, g_revision c rev ∧ Some (l ++ [rev]) = Some l').
Proof.
  eapply accepts_ext.
  - apply accepts_bind; [apply accepts_read_id|]. intros _ id _.
    apply accepts_bind; [apply accepts_read_vec|]. intros _ value _.
    apply accepts_bind; [apply accepts_id_set|]. intros _ parents _. apply accepts_ret.
  - intros c l'. unfold g_revision. split.
    + intros (? & ? & id & -> & -> & c1 & ? & value & -> & Hv & c2 & ? & parents & -> & Hp & -> & ->).
      eexists (ScalarRevision_mk id value parents). split; [|done].
      exists c1, c2. by rewrite app_nil_r.
    + intros ([id value parents] & (c1 & c2 & -> & Hv & Hp) & [= <-]). cbn in *.
      exists (id_slice id), (c1 ++ c2), id. split; [done|]. split; [done|].
      exists c1, c2, value. split; [done|]. split; [done|].
      exists c2, [], parents. by rewrite app_nil_r.
Qed.

Lemma accepts_register : accepts read_register g_register.
Proof.
  eapply accepts_ext.
  - apply (accepts_counted_then g_revision (λ l rev, Some (l ++ [rev]))); [apply accepts_revision|].
    intros l. apply accepts_lift. rewrite map_err_Panic. apply from_revisions_not_panic.
  - intros c r. unfold g_register. setoid_rewrite map_err_Ok. setoid_rewrite foldl_push. split.
    + intros (c1 & c2 & l & l' & -> & Hl & [= <-] & -> & Hr). rewrite app_nil_r. eauto.
    + intros (l & Hl & Hr). exists c, [], l, l. by rewrite app_nil_r.
Qed.

Lemma writes_id_set ids :
  writes (write_id_set ids) (N.of_nat (size ids) ≤ u64_max) (λ enc, g_id_set enc ids).
Proof.
  unfold write_id_set. rewrite <-length_elements_asc.
  eapply writes_ext; [apply (writes_counted _ (λ _, True) g_id)| |].
  - intros x _. apply writes_extend.
  - unfold len. naive_solver.
  - intros enc Henc. exists (elements_asc ids). split; [done|].
    split; [apply NoDup_elements_asc|]. by rewrite list_to_set_elements_asc.
Qed.

(** Every length fits the format's 64-bit fields. *)
Definition revision_fits (rev : ScalarRevision (list byte)) : Prop :=
  len (sr_value rev) ≤ u64_max ∧ N.of_nat (size (sr_parents rev)) ≤ u64_max.

Definition register_fits (r : ScalarRegister (list byte)) : Prop :=
  N.of_nat (size (revisions r)) ≤ u64_max ∧
  ∀ x rev, revisions r !! x = Some rev → revision_fits rev.

Lemma writes_revision rev :
  writes (write_revision rev) (revision_fits rev) (λ enc, g_revision enc rev).
Proof.
  eapply writes_ext.
  - apply writes_bind; [apply writes_extend|]. apply writes_bind; [apply writes_bytes|apply writes_id_set].
  - unfold revision_fits. naive_solver.
  - intros enc (e1 & e2 & -> & -> & c1 & c2 & -> & Hv & Hp). by exists c1, c2.
Qed.

Lemma writes_register r :
  valid r → writes (write_register r) (register_fits r) (λ enc, g_register enc r).
Proof.
  intros Hv. unfold write_register, ScalarRegister.len.
  rewrite <-length_entries_asc, <-(length_fmap snd).
  change ((entries_asc (revisions r)).*2) with (ScalarRegister.revisions_iter r).
  eapply writes_ext; [apply (writes_counted _ revision_fits g_revision)| |].
  - intros rev _. apply writes_revision.
  - unfold register_fits, ScalarRegister.revisions_iter, len. setoid_rewrite elem_of_values_asc.
    unfold values_asc. rewrite length_fmap, length_entries_asc. naive_solver.
  - intros enc Henc. exists (ScalarRegister.revisions_iter r). split; [done|].
    by apply from_revisions_iter.
Qed.

End theory.
