(* ===== verification/Projection.v ===== *)
(** * Sync projections (crates/apc-sync/src/projection.rs)

    [SyncProjection] is a map of independently mergeable domain states;
    [DirtyDomainState] is the local view that separates the current states from
    the markers of what is not published yet. *)
From stdpp Require Import base tactics option list gmap.
From Stdlib Require Import Strings.Byte.
From S2P Require Import Prelude BTree Bytes Id Error Worklist Scalar Causal Merge ScalarMerge.

Record DomainKey : Type := DomainKey_mk {
  dk_atom_id : AtomId;
  dk_domain : list byte;
}.

Inductive ProjectionError : Type :=
  | EmptyDomainIdentifier.

#[export] Instance ProjectionError_eq_dec : EqDecision ProjectionError.
Proof. solve_decision. Defined.

Module DomainKey.
Definition new (atom_id : AtomId) (domain : list byte) : result ProjectionError DomainKey :=
  if decide (domain = []) then Err EmptyDomainIdentifier else Ok (DomainKey_mk atom_id domain).

Definition fields (key : DomainKey) : AtomId * list byte := (dk_atom_id key, dk_domain key).
End DomainKey.

#[export] Instance DomainKey_eq_dec : EqDecision DomainKey.
Proof. solve_decision. Defined.

#[export] Program Instance DomainKey_countable : Countable DomainKey :=
  inj_countable' DomainKey.fields (λ p, DomainKey_mk p.1 p.2) _.
Next Obligation. by intros []. Qed.

#[export] Instance fields_inj : Inj (=) (=) DomainKey.fields.
Proof. intros [] [] ?; unfold DomainKey.fields in *; by simplify_eq/=. Qed.

(** [#[derive(PartialOrd, Ord)]]: by atom, then by domain bytes. *)
#[export] Instance DomainKey_ord : Ord DomainKey := ord_via DomainKey.fields.
#[export] Instance DomainKey_ord_laws : OrdLaws DomainKey := ord_via_laws DomainKey.fields _.

Record SyncProjection (K S : Type) `{Countable K} : Type := SyncProjection_mk {
  domains : gmap K S;
}.
Arguments SyncProjection_mk {K S _ _} _.
Arguments domains {K S _ _} _.

Record DirtyDomainState (K S : Type) `{Countable K} : Type := DirtyDomainState_mk {
  dd_domains : gmap K S;
  dirty : gset K;
}.
Arguments DirtyDomainState_mk {K S _ _} _ _.
Arguments dd_domains {K S _ _} _.
Arguments dirty {K S _ _} _.

#[export] Instance SyncProjection_eq_dec {K S : Type} `{Countable K, EqDecision S} :
  EqDecision (SyncProjection K S).
Proof. solve_decision. Defined.

Module SyncProjection.
Section SyncProjection.
Context {K S : Type} `{OrdLaws K} `{!EqDecision K, !Countable K}.
Implicit Types (self other : SyncProjection K S).

Definition new : SyncProjection K S := SyncProjection_mk ∅.
Definition from_domains (domains : gmap K S) : SyncProjection K S := SyncProjection_mk domains.
Definition is_empty self : bool := bool_decide (domains self = ∅).
Definition projection_len self : N := N.of_nat (size (domains self)).
Definition get self (key : K) : option S := domains self !! key.

Context `{!MergeState S}.

Definition merge_domain (merged : gmap K S) (entry : K * S) : result CoreError (gmap K S) :=
  let '(key, incoming) := entry in
  match merged !! key with
  | Some current =>
      state ← merge_state current incoming;
      Ok (<[key := state]> merged)
  | None => Ok (<[key := incoming]> merged)
  end.

Definition merge self other : result CoreError (SyncProjection K S) :=
  merged ← try_fold merge_domain (domains self) (entries_asc (domains other));
  Ok (SyncProjection_mk merged).
End SyncProjection.
End SyncProjection.

Module DirtyDomainState.
Section DirtyDomainState.
Context {K S : Type} `{OrdLaws K} `{!EqDecision K, !Countable K} `{!EqDecision S, !MergeState S}.
Implicit Types (self : DirtyDomainState K S) (projection : SyncProjection K S).

Definition new : DirtyDomainState K S := DirtyDomainState_mk ∅ ∅.
Definition get self (key : K) : option S := dd_domains self !! key.

Definition set_local (key : K) (state : S) self : DirtyDomainState K S :=
  DirtyDomainState_mk (<[key := state]> (dd_domains self)) ({[key]} ∪ dirty self).

(** The body of the loop of [import_projection]; what was merged before an
    error stays merged. *)
Definition import_domain (entry : K * S) : stateful (DirtyDomainState K S) CoreError unit :=
  let '(key, incoming) := entry in
  self ← get_state;
  match dd_domains self !! key with
  | Some current =>
      state ← lift_result (merge_state current incoming);
      put_state (DirtyDomainState_mk (<[key := state]> (dd_domains self)) (dirty self))
  | None => put_state (DirtyDomainState_mk (<[key := incoming]> (dd_domains self)) (dirty self))
  end.

Definition import_projection projection : stateful (DirtyDomainState K S) CoreError unit :=
  st_for_each import_domain (entries_asc (domains projection)).

Definition export_dirty self : option (SyncProjection K S) :=
  if decide (dirty self = ∅) then None
  else Some (SyncProjection.from_domains (list_to_map
         (omap (λ key, state ← dd_domains self !! key; Some (key, state))
            (elements_asc (dirty self))))).

Definition acknowledge_domain self (entry : K * S) : DirtyDomainState K S :=
  let '(key, exported) := entry in
  if decide (dd_domains self !! key = Some exported) then
    DirtyDomainState_mk (dd_domains self) (dirty self ∖ {[key]})
  else self.

Definition acknowledge projection self : DirtyDomainState K S :=
  foldl acknowledge_domain self (entries_asc (domains projection)).
End DirtyDomainState.
End DirtyDomainState.

Definition ScalarSyncProjection : Type := SyncProjection DomainKey (ScalarRegister (list byte)).
Definition ScalarDirtyDomainState : Type := DirtyDomainState DomainKey (ScalarRegister (list byte)).

#[export] Instance projection_merge_state {K S : Type} `{OrdLaws K} `{!EqDecision K, !Countable K}
  `{!MergeState S} : MergeState (SyncProjection K S) := SyncProjection.merge.

(** ** Merging projections *)
Section projection_laws.
Context {K S : Type} `{OrdLaws K} `{!EqDecision K, !Countable K} `{MergeLaws S ok}.
Implicit Types (p q : SyncProjection K S).

Definition ok_projection p : Prop := ok_map (ok := ok) (domains p).

Lemma merge_domains_eq (m1 m2 : gmap K S) :
  try_fold SyncProjection.merge_domain m1 (entries_asc m2) = merge_maps m1 m2.
Proof.
  apply try_fold_ext. intros m [x v] _. unfold upsert_step, merge_entry; simpl.
  by destruct (m !! x).
Qed.

Lemma projection_merge_Ok p q m :
  SyncProjection.merge p q = Ok m ↔ merge_maps (domains p) (domains q) = Ok (domains m).
Proof.
  unfold SyncProjection.merge. rewrite merge_domains_eq. destruct m as [m]; simpl.
  destruct (merge_maps _ _); simpl; naive_solver.
Qed.

#[export] Instance projection_merge_laws : MergeLaws (SyncProjection K S) ok_projection.
Proof.
  pose proof (merge_maps_laws (K := K) (ok := ok)) as L.
  split; unfold merge_state, projection_merge_state, ok_projection.
  - intros a b Ha Hb. unfold SyncProjection.merge. rewrite !merge_domains_eq.
    pose proof (merge_comm (MergeLaws := L) _ _ Ha Hb) as Hc.
    unfold merge_state in Hc. by rewrite Hc.
  - intros a Ha. apply projection_merge_Ok. apply (merge_idem (MergeLaws := L) _ Ha).
  - intros a b c Ha Hb Hm%projection_merge_Ok. apply (merge_ok (MergeLaws := L) _ _ _ Ha Hb Hm).
  - intros a b c ab abc Ha Hb Hc Hm1%projection_merge_Ok Hm2%projection_merge_Ok.
    destruct (merge_assoc (MergeLaws := L) _ _ _ _ _ Ha Hb Hc Hm1 Hm2) as (bc & Hm3 & Hm4).
    exists (SyncProjection_mk bc). by rewrite !projection_merge_Ok.
  - intros a b Ha Hb. unfold SyncProjection.merge. rewrite merge_domains_eq.
    intros [Hp|(? & _ & [=])]%bind_Panic. by apply (merge_no_panic (MergeLaws := L) _ _ Ha Hb).
Qed.
End projection_laws.

(** ** Dirty markers *)
Section dirty.
Context {K S : Type} `{OrdLaws K} `{!EqDecision K, !Countable K} `{!EqDecision S, !MergeState S}.
Implicit Types (d : DirtyDomainState K S) (p : SyncProjection K S).

(** Only present domains are dirty. *)
Definition dirty_ok d : Prop := dirty d ⊆ dom (dd_domains d).

Lemma export_dirty_spec d :
  DirtyDomainState.export_dirty d =
  if decide (dirty d = ∅) then None
  else Some (SyncProjection_mk (filter (λ kv, kv.1 ∈ dirty d) (dd_domains d))).
Proof.
  unfold DirtyDomainState.export_dirty, SyncProjection.from_domains. case_decide; [done|].
  do 2 f_equal. apply map_eq. intros k.
  set (f := λ key, state ← dd_domains d !! key; Some (key, state)).
  assert (∀ (l : list K) k v, (k, v) ∈ omap f l ↔ k ∈ l ∧ dd_domains d !! k = Some v) as Hin.
  { intros l k' v. rewrite list_elem_of_omap. unfold f. split.
    - intros (k2 & Hk2 & Hf). destruct (dd_domains d !! k2) eqn:Hd; by simplify_eq/=.
    - intros [Hk Hv]. exists k'. by rewrite Hv. }
  assert (∀ l : list K, NoDup l → NoDup (omap f l).*1) as Hnd.
  { induction l as [|x l IH]; intros Hnd; [constructor|]. apply NoDup_cons in Hnd as [Hx Hnd].
    simpl. unfold f at 1. destruct (dd_domains d !! x) as [v|]; simpl; [|by apply IH].
    apply NoDup_cons. split; [|by apply IH]. intros ([k' v'] & Hk & Hkv)%list_elem_of_fmap.
    simpl in Hk. subst. by apply Hin in Hkv as [? _]. }
  specialize (Hnd _ (NoDup_elements_asc (dirty d))).
  apply option_eq. intros v. rewrite map_lookup_filter_Some. simpl. split.
  - intros Hv%elem_of_list_to_map_2. apply Hin in Hv as [Hk Hv].
    by rewrite elem_of_elements_asc in Hk.
  - intros [Hv Hk]. apply elem_of_list_to_map_1; [done|]. apply Hin.
    by rewrite elem_of_elements_asc.
Qed.

Lemma acknowledge_fold l d :
  let d' := foldl DirtyDomainState.acknowledge_domain d l in
  dd_domains d' = dd_domains d ∧
  ∀ k, k ∈ dirty d' ↔ k ∈ dirty d ∧ ∀ v, (k, v) ∈ l → dd_domains d !! k ≠ Some v.
Proof.
  cbn zeta. revert d. induction l as [|[k v] l IH]; intros d; cbn [foldl].
  - split; [done|]. intros k. set_solver.
  - destruct (IH (DirtyDomainState.acknowledge_domain d (k, v))) as [Hd Hk]. clear IH.
    unfold DirtyDomainState.acknowledge_domain in *. case_decide as Heq; cbn in *.
    + split; [done|]. intros k'. rewrite Hk. set_unfold. naive_solver.
    + split; [done|]. intros k'. rewrite Hk. set_unfold. naive_solver.
Qed.

(** Acknowledgement clears exactly the markers whose domain is still in the
    acknowledged state. *)
Lemma acknowledge_spec d p :
  let d' := DirtyDomainState.acknowledge p d in
  dd_domains d' = dd_domains d ∧
  ∀ k, k ∈ dirty d' ↔
    k ∈ dirty d ∧ (dd_domains d !! k = domains p !! k → domains p !! k = None).
Proof.
  cbn zeta. unfold DirtyDomainState.acknowledge.
  destruct (acknowledge_fold (entries_asc (domains p)) d) as [Hd Hk]. split; [done|].
  intros k. rewrite Hk. setoid_rewrite elem_of_entries_asc.
  destruct (domains p !! k) as [v|] eqn:Hv; naive_solver.
Qed.

Lemma set_local_ok k s d : dirty_ok d → dirty_ok (DirtyDomainState.set_local k s d).
Proof. unfold dirty_ok, DirtyDomainState.set_local; cbn. rewrite dom_insert. set_solver. Qed.

Lemma new_dirty_ok : dirty_ok DirtyDomainState.new.
Proof. unfold dirty_ok. cbn. set_solver. Qed.

Lemma acknowledge_ok p d : dirty_ok d → dirty_ok (DirtyDomainState.acknowledge p d).
Proof.
  unfold dirty_ok. destruct (acknowledge_spec d p) as [-> Hk]. intros Hok k [Hd _]%Hk. by apply Hok.
Qed.

(** An import, complete or cut short by an error, touches no marker and drops no
    domain. *)
Lemma import_fold l d :
  let d' := (st_for_each DirtyDomainState.import_domain l d).1 in
  dirty d' = dirty d ∧ dom (dd_domains d) ⊆ dom (dd_domains d').
Proof.
  cbn zeta. revert d. induction l as [|[k v] l IH]; intros d; cbn [st_for_each]; [done|].
  rewrite st_bind. unfold DirtyDomainState.import_domain at 1 3. run_st.
  destruct (dd_domains d !! k) as [cur|].
  - run_st. destruct (merge_state cur v) as [st| |]; run_st; [|done..].
    destruct (IH (DirtyDomainState_mk (<[k:=st]> (dd_domains d)) (dirty d))) as [-> Hd].
    cbn in *. rewrite dom_insert in Hd. set_solver.
  - run_st. destruct (IH (DirtyDomainState_mk (<[k:=v]> (dd_domains d)) (dirty d))) as [-> Hd].
    cbn in *. rewrite dom_insert in Hd. set_solver.
Qed.

Lemma import_ok p d : dirty_ok d → dirty_ok (DirtyDomainState.import_projection p d).1.
Proof.
  unfold dirty_ok. destruct (import_fold (entries_asc (domains p)) d) as [Hd Hdom].
  unfold DirtyDomainState.import_projection. rewrite Hd. set_solver.
Qed.

Lemma import_domains l d :
  let '(d', res) := st_for_each DirtyDomainState.import_domain l d in
  match try_fold SyncProjection.merge_domain (dd_domains d) l with
  | Ok m => res = Ok tt ∧ dd_domains d' = m
  | Err e => res = Err e
  | Panic => res = Panic
  end.
Proof.
  revert d. induction l as [|[k v] l IH]; intros d; cbn [st_for_each try_fold]; [done|].
  rewrite st_bind. unfold DirtyDomainState.import_domain at 1. run_st.
  cbn [SyncProjection.merge_domain].
  destruct (dd_domains d !! k) as [cur|].
  - run_st. destruct (merge_state cur v) as [st| |]; run_st; [|done..].
    cbn [mbind result_bind]. specialize (IH (DirtyDomainState_mk (<[k:=st]> (dd_domains d)) (dirty d))).
    cbn [dd_domains] in IH. exact IH.
  - run_st. cbn [mbind result_bind].
    specialize (IH (DirtyDomainState_mk (<[k:=v]> (dd_domains d)) (dirty d))).
    cbn [dd_domains] in IH. exact IH.
Qed.

(** A completed import is the merge of the two maps. *)
Lemma import_projection_Ok p d d' u :
  DirtyDomainState.import_projection p d = (d', Ok u) →
  merge_maps (dd_domains d) (domains p) = Ok (dd_domains d') ∧ dirty d' = dirty d.
Proof.
  intros Hi. pose proof (import_domains (entries_asc (domains p)) d) as Hd.
  destruct (import_fold (entries_asc (domains p)) d) as [Hdirty _].
  unfold DirtyDomainState.import_projection in Hi. rewrite Hi in Hd, Hdirty.
  split; [|done]. rewrite <-merge_domains_eq. destruct (try_fold _ _ _) as [m| |]; naive_solver.
Qed.

Lemma merge_projection_fold (m : gmap K S) p :
  merge_state (SyncProjection_mk m) p =
  (merged ← try_fold SyncProjection.merge_domain m (entries_asc (domains p));
   Ok (SyncProjection_mk merged)).
Proof. reflexivity. Qed.

(** Importing several projections is merging them all. *)
Lemma import_all l d d' res :
  st_for_each DirtyDomainState.import_projection l d = (d', res) →
  (∀ q, merge_all (SyncProjection_mk (dd_domains d)) l = Ok q → res = Ok tt) ∧
  (res = Ok tt →
   merge_all (SyncProjection_mk (dd_domains d)) l = Ok (SyncProjection_mk (dd_domains d')) ∧
   dirty d' = dirty d).
Proof.
  revert d. induction l as [|p l IH]; intros d; cbn [st_for_each].
  - intros [= <- <-]. done.
  - rewrite st_bind. destruct (DirtyDomainState.import_projection p d) as [d1 r1] eqn:Hp.
    pose proof (import_domains (entries_asc (domains p)) d) as Hdom.
    change (st_for_each _ _ d) with (DirtyDomainState.import_projection p d) in Hdom. rewrite Hp in Hdom.
    unfold merge_all. cbn [try_fold]. rewrite merge_projection_fold.
    destruct (try_fold SyncProjection.merge_domain (dd_domains d) (entries_asc (domains p)))
      as [m|err|]; cbn [mbind result_bind].
    + destruct Hdom as [-> Hdom]. intros Hrest. destruct (IH _ Hrest) as [Hr1 Hr2].
      rewrite <-Hdom. split; [exact Hr1|]. intros Hok.
      destruct (Hr2 Hok) as [Hm ->]. split; [done|].
      by destruct (import_projection_Ok p d d1 tt Hp).
    + rewrite Hdom. intros [= <- <-]. split; [by intros ? [=]|by intros [=]].
    + rewrite Hdom. intros [= <- <-]. split; [by intros ? [=]|by intros [=]].
Qed.
End dirty.

(** ** The local view over time *)
Section dirty_calls.
Context {K S : Type} `{OrdLaws K} `{!EqDecision K, !Countable K} `{!EqDecision S, !MergeState S}.
Implicit Types (d : DirtyDomainState K S).

(** What may happen between an export and its acknowledgement. *)
Inductive dirty_call : Type :=
  | CallSetLocal (key : K) (state : S)
  | CallImport (projection : SyncProjection K S).

Definition run_dirty_call (call : dirty_call) d : DirtyDomainState K S :=
  match call with
  | CallSetLocal key state => DirtyDomainState.set_local key state d
  | CallImport projection => (DirtyDomainState.import_projection projection d).1
  end.

Definition run_dirty_calls (calls : list dirty_call) d : DirtyDomainState K S :=
  foldl (λ d call, run_dirty_call call d) d calls.

(** The keys changed locally. *)
Definition set_keys (calls : list dirty_call) : list K :=
  omap (λ call, match call with CallSetLocal key _ => Some key | CallImport _ => None end) calls.

Lemma run_dirty_calls_ok calls d : dirty_ok d → dirty_ok (run_dirty_calls calls d).
Proof.
  revert d. induction calls as [|[k s|p] calls IH]; intros d Hd; [done| |]; apply IH; cbn.
  - by apply set_local_ok.
  - by apply import_ok.
Qed.

Lemma run_dirty_calls_dirty calls d k :
  k ∈ dirty (run_dirty_calls calls d) ↔ k ∈ dirty d ∨ k ∈ set_keys calls.
Proof.
  revert d. induction calls as [|[k' s|p] calls IH]; intros d.
  - cbn. split; [by left|]. intros [?|Hk]; [done|]. by apply not_elem_of_nil in Hk.
  - change (run_dirty_calls (?c :: calls) d) with (run_dirty_calls calls (run_dirty_call c d)).
    rewrite IH. cbn. rewrite elem_of_cons. set_solver.
  - change (run_dirty_calls (?c :: calls) d) with (run_dirty_calls calls (run_dirty_call c d)).
    rewrite IH. cbn. destruct (import_fold (entries_asc (domains p)) d) as [Hd _].
    unfold DirtyDomainState.import_projection. by rewrite Hd.
Qed.
End dirty_calls.
Arguments dirty_call _ _ {_ _}.
