(* ===== verification/Codec.v ===== *)
(** * Scalar projection codec (crates/apc-sync/src/codec.rs)

    The deterministic encoding of a clear scalar projection.  [g_projection] is
    the grammar of the format: the encoder produces it and the decoder accepts
    exactly it. *)
From Stdlib Require Import Lia NArith Strings.Byte.
From stdpp Require Import base tactics option list gmap numbers.
From S2P Require Import Prelude Outcome BTree Bytes Id Error Worklist Scalar Causal Merge ScalarMerge.
From S2P Require Import Reader RegisterCodec Projection.
Local Open Scope N_scope.

Definition MAGIC : list byte := b_ "APCSYNC1".
Definition VERSION : N := 1.
Definition ID_BYTES : nat := 32.

Inductive SyncCodecError : Type :=
  | InvalidMagic
  | UnsupportedVersion (version : N)
  | UnexpectedEof
  | LengthOverflow
  | TrailingBytes
  | DuplicateDomain
  | DuplicateRevisionInSet
  | Projection (error : ProjectionError)
  | Core (error : CoreError).

#[export] Instance SyncCodecError_eq_dec : EqDecision SyncCodecError.
Proof. solve_decision. Defined.

#[export] Instance codec_read_error : ReadError SyncCodecError := {|
  length_overflow := LengthOverflow;
  unexpected_eof := UnexpectedEof;
|}.
#[export] Instance codec_register_error : RegisterError SyncCodecError := {|
  duplicate_revision_in_set := DuplicateRevisionInSet;
  core_error := Core;
|}.

(** ** Encoding *)
Definition write_domain (entry : DomainKey * ScalarRegister (list byte)) :
    stateful (list byte) SyncCodecError unit :=
  let '(key, register) := entry in
  _ ← lift_result (map_err Core (ScalarRegister.validate register));
  _ ← extend (id_slice (dk_atom_id key));
  _ ← write_bytes (dk_domain key);
  write_register register.

Definition encode_scalar_projection (projection : ScalarSyncProjection) :
    result SyncCodecError (list byte) :=
  run_writer
    (_ ← extend MAGIC;
     _ ← extend (be_bytes 2 VERSION);
     _ ← write_len (SyncProjection.projection_len projection);
     write_each write_domain (entries_asc (domains projection))).

(** ** Decoding *)
Definition read_domain (domains : gmap DomainKey (ScalarRegister (list byte))) :
    stateful Reader SyncCodecError (gmap DomainKey (ScalarRegister (list byte))) :=
  atom_id ← Reader.read_id;
  domain ← Reader.read_vec;
  key ← lift_result (map_err Projection (DomainKey.new atom_id domain));
  register ← read_register;
  match domains !! key with
  | Some _ => throw DuplicateDomain
  | None => mret (<[key := register]> domains)
  end.

Definition decode_scalar_projection (encoded : list byte) :
    result SyncCodecError ScalarSyncProjection :=
  run_reader
    (magic ← Reader.read_exact (len MAGIC);
     if decide (magic ≠ MAGIC) then throw InvalidMagic else
     version ← Reader.read_u16;
     if decide (version ≠ VERSION) then throw (UnsupportedVersion version) else
     domain_count ← Reader.read_len;
     domains ← repeat_n read_domain domain_count ∅;
     self ← get_state;
     if negb (Reader.is_finished self) then throw TrailingBytes
     else mret (SyncProjection.from_domains domains)) encoded.

(** ** The grammar of the format *)
Definition g_domain : grammar (DomainKey * ScalarRegister (list byte)) := λ c kr,
  dk_domain kr.1 ≠ [] ∧
  ∃ c1 c2, c = id_slice (dk_atom_id kr.1) ++ c1 ++ c2 ∧ g_bytes c1 (dk_domain kr.1) ∧
    g_register c2 kr.2.

Definition g_projection : grammar ScalarSyncProjection := λ c p,
  ∃ c1 l, c = MAGIC ++ be_bytes 2 VERSION ++ c1 ∧ g_counted g_domain c1 l ∧
    NoDup l.*1 ∧ domains p = list_to_map l.

(** ** The readers accept the grammar *)
Lemma domain_key_new a (d : list byte) k :
  DomainKey.new a d = Ok k ↔ d ≠ [] ∧ k = DomainKey_mk a d.
Proof. unfold DomainKey.new. case_decide; naive_solver. Qed.

Lemma accepts_domain m :
  accepts (read_domain m) (λ c m', ∃ kr, g_domain c kr ∧ map_add m kr = Some m').
Proof.
  eapply accepts_ext.
  - apply accepts_bind; [apply accepts_read_id|]. intros _ atom_id _.
    apply accepts_bind; [apply accepts_read_vec|]. intros _ domain _.
    apply accepts_bind.
    { apply accepts_lift. rewrite map_err_Panic. unfold DomainKey.new. by case_decide. }
    intros _ key _. apply (accepts_item _ _ _ (λ r, map_add m (key, r)) accepts_register).
    intros r. unfold map_add; cbn. destruct (m !! key); eauto.
  - intros c m'. unfold g_domain. setoid_rewrite map_err_Ok. setoid_rewrite domain_key_new. split.
    + intros (? & ? & a & -> & -> & c1 & ? & d & -> & Hd & ? & c2 & k & -> & [-> [Hne ->]] & r & Hr & Hadd).
      exists (DomainKey_mk a d, r). split; [|done]. split; [done|]. by exists c1, c2.
    + intros ([[a d] r] & [Hne (c1 & c2 & -> & Hd & Hr)] & Hadd). cbn in *.
      exists (id_slice a), (c1 ++ c2), a. split; [done|]. split; [done|].
      exists c1, c2, d. split; [done|]. split; [done|]. exists [], c2, (DomainKey_mk a d). eauto 10.
Qed.

(** ** The whole decoder and encoder *)
Lemma decode_grammar encoded :
  len encoded ≤ isize_max →
  decode_scalar_projection encoded ≠ Panic ∧
  ∀ p, decode_scalar_projection encoded = Ok p ↔ g_projection encoded p.
Proof.
  intros Hlen. apply run_reader_decodes; [|done]. eapply decodes_ext.
  - apply decodes_bind; [apply accepts_read_exact|]. intros _ magic _.
    apply decodes_require. apply decodes_bind; [apply (accepts_read_be 2)|]. intros _ version _.
    apply decodes_require.
    assert (decodes ((count ← Reader.read_len; repeat_n read_domain count ∅) ≫= λ domains,
      self ← get_state;
      if negb (Reader.is_finished self) then throw TrailingBytes
      else mret (SyncProjection.from_domains domains))
      (λ c p, ∃ l, g_counted g_domain c l ∧ NoDup l.*1 ∧ domains p = list_to_map l)) as Hbody.
    { eapply decodes_ext.
      - apply decodes_bind; [apply (accepts_counted g_domain map_add), accepts_domain|].
        intros _ m _. apply decodes_end.
      - intros c [m]. unfold SyncProjection.from_domains. setoid_rewrite foldl_map_add. cbn. split.
        + intros (c1 & c2 & m' & -> & (l & Hl & Hnd & _ & ->) & -> & [= ->]).
          rewrite app_nil_r, map_union_empty. eauto.
        + intros (l & Hl & Hnd & ->). exists c, [], (list_to_map l). rewrite app_nil_r.
          split; [done|]. split; [|done]. exists l. by rewrite map_union_empty. }
    eapply decodes_eq; [intros r; apply st_bind_assoc|exact Hbody].
  - intros c p. unfold g_projection. cbn. split.
    + intros (c1 & c2 & m & -> & [-> _] & -> & c3 & c4 & v & -> & [_ ->] & -> & l & Hl & Hnd & Hp).
      eauto 10.
    + intros (c1 & l & -> & Hl & Hnd & Hp). exists MAGIC, (be_bytes 2 VERSION ++ c1), MAGIC.
      split; [done|]. split; [done|]. split; [done|].
      exists (be_bytes 2 VERSION), c1, VERSION. split; [done|]. split; [done|]. eauto.
Qed.

(** Every length fits the format's 64-bit fields. *)
Definition domain_fits (kr : DomainKey * ScalarRegister (list byte)) : Prop :=
  len (dk_domain kr.1) ≤ u64_max ∧ register_fits kr.2.

Definition projection_fits (p : ScalarSyncProjection) : Prop :=
  N.of_nat (size (domains p)) ≤ u64_max ∧
  ∀ k r, domains p !! k = Some r → domain_fits (k, r).

(** The registers a projection may carry. *)
Definition projection_valid (p : ScalarSyncProjection) : Prop :=
  ∀ k r, domains p !! k = Some r → dk_domain k ≠ [] ∧ valid r.

Lemma writes_domain k r :
  dk_domain k ≠ [] → valid r →
  writes (write_domain (k, r)) (domain_fits (k, r)) (λ enc, g_domain enc (k, r)).
Proof.
  intros Hk Hv. unfold write_domain. eapply writes_ext.
  - apply writes_bind.
    { apply writes_lift. rewrite map_err_Panic. apply validate_not_panic. }
    apply writes_bind; [apply writes_extend|].
    apply writes_bind; [apply writes_bytes|by apply writes_register].
  - unfold domain_fits, is_ok. setoid_rewrite map_err_Ok. setoid_rewrite (validate_valid r); [|apply Hv].
    naive_solver.
  - intros enc (e1 & e2 & -> & -> & e3 & e4 & -> & -> & c1 & c2 & -> & Hd & Hr).
    split; [done|]. by exists c1, c2.
Qed.

Lemma encode_grammar p :
  projection_valid p →
  (is_ok (encode_scalar_projection p) ↔ projection_fits p) ∧
  encode_scalar_projection p ≠ Panic ∧
  ∀ enc, encode_scalar_projection p = Ok enc → g_projection enc p.
Proof.
  intros Hp. apply run_writer_spec. unfold SyncProjection.projection_len.
  rewrite <-length_entries_asc. eapply writes_ext.
  - apply writes_bind; [apply writes_extend|]. apply writes_bind; [apply writes_extend|].
    apply (writes_counted write_domain domain_fits g_domain).
    intros [k r] Hkr%elem_of_entries_asc. destruct (Hp k r Hkr). by apply writes_domain.
  - unfold projection_fits, len. rewrite length_entries_asc. split.
    + intros (_ & _ & Hlen & Hall). split; [done|]. intros k r Hkr. by apply Hall, elem_of_entries_asc.
    + intros [Hlen Hall]. split; [done|]. split; [done|]. split; [done|].
      intros [k r] Hkr%elem_of_entries_asc. by apply Hall.
  - intros enc (e1 & e2 & -> & -> & e3 & c1 & -> & -> & Hc). exists c1, (entries_asc (domains p)).
    split; [done|]. split; [done|]. split; [apply NoDup_entries_asc|].
    by rewrite list_to_map_entries_asc.
Qed.

(** What is decoded is a valid projection. *)
Lemma g_projection_valid c p : g_projection c p → projection_valid p.
Proof.
  intros (c1 & l & -> & (_ & c2 & _ & cs & Hcs & _) & Hnd & Hp) k r Hkr.
  rewrite Hp in Hkr. apply elem_of_list_to_map in Hkr; [|done].
  apply list_elem_of_lookup in Hkr as [i Hi].
  destruct (Forall2_lookup_r _ _ _ _ _ Hcs Hi) as (c & _ & Hne & c3 & c4 & _ & _ & l' & _ & Hr).
  split; [done|]. by apply from_revisions_Ok in Hr as [? _].
Qed.

(** *** Every register that is decoded is valid, whatever the length *)
Lemma yields_register {E : Type} `{ReadError E} `{!RegisterError E} :
  yields (read_register : stateful Reader E _) valid.
Proof.
  unfold read_register. apply (yields_bind _ _ (λ _, True)); [apply yields_any|]. intros n _.
  apply (yields_bind _ _ (λ _, True)); [apply yields_any|]. intros revisions _.
  apply yields_lift. intros r Hr%map_err_Ok. by apply from_revisions_Ok in Hr as [? _].
Qed.

Lemma yields_repeat {E A : Type} (f : A → stateful Reader E A) (P : A → Prop) n a :
  (∀ a, P a → yields (f a) P) → P a → yields (repeat_n f n a) P.
Proof.
  intros Hf. intros Ha s s' b. rewrite repeat_n_nat. revert a s Ha.
  induction (N.to_nat n) as [|m IH]; intros a s Ha; cbn [repeat_nat]; [by intros [= _ <-]|].
  rewrite st_bind. destruct (f a s) as [s1 [a1|e|]] eqn:Hfa; [|done..].
  apply IH. by eapply Hf.
Qed.

Definition domains_valid (m : gmap DomainKey (ScalarRegister (list byte))) : Prop :=
  projection_valid (SyncProjection_mk m).

Lemma yields_domain m : domains_valid m → yields (read_domain m) domains_valid.
Proof.
  intros Hm. unfold read_domain.
  apply (yields_bind _ _ (λ _, True)); [apply yields_any|]. intros atom_id _.
  apply (yields_bind _ _ (λ _, True)); [apply yields_any|]. intros domain _.
  apply (yields_bind _ _ (λ k, dk_domain k ≠ [])).
  { apply yields_lift. intros k [Hne ->]%map_err_Ok%domain_key_new. done. }
  intros key Hkey. apply (yields_bind _ _ valid); [apply yields_register|]. intros r Hr.
  destruct (m !! key); [apply yields_throw|]. apply yields_ret. intros k v. cbn.
  rewrite lookup_insert_Some. intros [[<- <-]|[_ Hv]]; [done|by apply Hm].
Qed.

Lemma decode_projection_valid encoded p : decode_scalar_projection encoded = Ok p → projection_valid p.
Proof.
  unfold decode_scalar_projection, run_reader. intros Hd.
  match type of Hd with (?m ?s).2 = _ => assert (yields m projection_valid) as Hy end.
  - apply (yields_bind _ _ (λ _, True)); [apply yields_any|]. intros magic _.
    apply yields_if; [apply yields_throw|].
    apply (yields_bind _ _ (λ _, True)); [apply yields_any|]. intros version _.
    apply yields_if; [apply yields_throw|].
    apply (yields_bind _ _ (λ _, True)); [apply yields_any|]. intros count _.
    apply (yields_bind _ _ domains_valid).
    { apply yields_repeat; [apply yields_domain|]. intros k r. cbn. by rewrite lookup_empty. }
    intros m Hm. apply (yields_bind _ _ (λ _, True)); [apply yields_any|]. intros self _.
    destruct (negb _); [apply yields_throw|]. by apply yields_ret.
  - match type of Hd with (?m ?s).2 = _ => destruct (m s) as [s' r] eqn:Hs end.
    cbn in Hd. subst r. by eapply Hy.
Qed.

Lemma projection_valid_ok p : projection_valid p → ok_projection (ok := valid) p.
Proof. intros Hp k r Hr. by apply (Hp k). Qed.

(** Merging keeps what a decoder guarantees. *)
Lemma projection_valid_merge p q m :
  projection_valid p → projection_valid q → SyncProjection.merge p q = Ok m → projection_valid m.
Proof.
  intros Hp Hq Hm.
  pose proof (merge_ok (MergeLaws := projection_merge_laws) p q m (projection_valid_ok p Hp) (projection_valid_ok q Hq) Hm) as Hv.
  apply projection_merge_Ok in Hm. intros k r Hr. split; [|by apply (Hv k)].
  rewrite merge_maps_Ok in Hm. specialize (Hm k).
  destruct (domains p !! k) as [r1|] eqn:H1, (domains q !! k) as [r2|] eqn:H2;
    [by eapply Hp|by eapply Hp|by eapply Hq|congruence].
Qed.

Lemma empty_projection_valid : projection_valid SyncProjection.new.
Proof. intros k r. cbn. by rewrite lookup_empty. Qed.
