(* ===== verification/Crypto.v ===== *)
(** * Authenticated protection (crates/apc-crypto/src/lib.rs)

    The envelope around XChaCha20-Poly1305.  The cipher and the operating
    system's randomness come from other crates: the cipher is the class [Aead]
    with the laws of a deterministic authenticated cipher, and the outcome of
    drawing a nonce is an argument of [protect]. *)
From Stdlib Require Import Lia NArith Strings.Byte.
From stdpp Require Import base tactics option list numbers.
From S2P Require Import Prelude BTree Bytes.
Local Open Scope N_scope.

Definition MAGIC : list byte := b_ "APCPROT1".
Definition VERSION : N := 1.
Definition ALGORITHM_XCHACHA20_POLY1305 : N := 1.
Definition KEY_BYTES : nat := 32.
Definition NONCE_BYTES : nat := 24.
Definition TAG_BYTES : N := 16.
Definition HEADER_BYTES : N := len MAGIC + 2 + 1 + N.of_nat NONCE_BYTES + 8.
Definition AAD_DOMAIN : list byte :=
  b_ "A.P.C. authenticated protection" ++ [x00] ++ b_ "v1" ++ [x00] ++
  b_ "xchacha20poly1305" ++ [x00].

Record ContentKey : Type := ContentKey_mk {
  expose_bytes : byte_array KEY_BYTES;
}.

Inductive ProtectionError : Type :=
  | EmptyContext
  | RandomnessUnavailable
  | InvalidEnvelope
  | UnsupportedVersion (version : N)
  | UnsupportedAlgorithm (algorithm : N)
  | AuthenticationFailed
  | LengthOverflow.

#[export] Instance ProtectionError_eq_dec : EqDecision ProtectionError.
Proof. solve_decision. Defined.

(** The [chacha20poly1305] crate: [encrypt] and [decrypt] with key, nonce,
    associated data and message; [None] is its error. *)
Class Aead := {
  aead_encrypt : byte_array KEY_BYTES → byte_array NONCE_BYTES → list byte → list byte →
    option (list byte);
  aead_decrypt : byte_array KEY_BYTES → byte_array NONCE_BYTES → list byte → list byte →
    option (list byte);
}.

(** Decryption undoes encryption, succeeds only on what encryption under the
    same key, nonce and associated data produces, and a ciphertext is its
    message's length plus the tag. *)
Class AeadLaws `{Aead} : Prop := {
  aead_decrypts key nonce aad m c :
    aead_encrypt key nonce aad m = Some c → aead_decrypt key nonce aad c = Some m;
  aead_authentic key nonce aad m c :
    aead_decrypt key nonce aad c = Some m → aead_encrypt key nonce aad m = Some c;
  aead_length key nonce aad m c :
    aead_encrypt key nonce aad m = Some c → len c = len m + TAG_BYTES;
}.

(** [ContentKey::generate], from the outcome of the system's generator. *)
Definition generate (generated : option (byte_array KEY_BYTES)) : result ProtectionError ContentKey :=
  bytes ← ok_or RandomnessUnavailable generated;
  Ok (ContentKey_mk bytes).

Definition build_aad (context : list byte) : list byte := AAD_DOMAIN ++ context.

Section protection.
Context `{Aead}.

Definition protect_with_nonce (key : ContentKey) (context plaintext : list byte)
    (nonce : byte_array NONCE_BYTES) : result ProtectionError (list byte) :=
  let aad := build_aad context in
  ciphertext ← ok_or LengthOverflow (aead_encrypt (expose_bytes key) nonce aad plaintext);
  ciphertext_len ← ok_or LengthOverflow (u64_try_from (len ciphertext));
  Ok (MAGIC ++ be_bytes 2 VERSION ++ be_bytes 1 ALGORITHM_XCHACHA20_POLY1305 ++
      array_bytes nonce ++ be_bytes 8 ciphertext_len ++ ciphertext).

Definition protect (generated : option (byte_array NONCE_BYTES)) (key : ContentKey)
    (context plaintext : list byte) : result ProtectionError (list byte) :=
  if decide (context = []) then Err EmptyContext else
  nonce ← ok_or RandomnessUnavailable generated;
  protect_with_nonce key context plaintext nonce.

Definition unprotect (key : ContentKey) (context envelope : list byte) :
    result ProtectionError (list byte) :=
  if decide (context = []) then Err EmptyContext else
  if decide (len envelope < HEADER_BYTES + TAG_BYTES) then Err InvalidEnvelope else
  magic ← slice envelope 0 (len MAGIC);
  if decide (magic ≠ MAGIC) then Err InvalidEnvelope else
  let version_offset := len MAGIC in
  version0 ← index_at envelope version_offset;
  version1 ← index_at envelope (version_offset + 1);
  let version := be_value [version0; version1] in
  if decide (version ≠ VERSION) then Err (UnsupportedVersion version) else
  let algorithm_offset := version_offset + 2 in
  algorithm ← index_at envelope algorithm_offset;
  let algorithm := Byte.to_N algorithm in
  if decide (algorithm ≠ ALGORITHM_XCHACHA20_POLY1305) then Err (UnsupportedAlgorithm algorithm) else
  let nonce_offset := algorithm_offset + 1 in
  let nonce_end := nonce_offset + N.of_nat NONCE_BYTES in
  nonce_bytes ← slice envelope nonce_offset nonce_end;
  nonce ← expect (try_into_array NONCE_BYTES nonce_bytes);
  let length_offset := nonce_end in
  length_bytes ← slice envelope length_offset (length_offset + 8);
  length_array ← expect (try_into_array 8 length_bytes);
  ciphertext_len ← ok_or LengthOverflow (usize_try_from (be_value (array_bytes length_array)));
  if decide (ciphertext_len < TAG_BYTES) then Err InvalidEnvelope else
  expected_len ← ok_or LengthOverflow (usize_checked_add HEADER_BYTES ciphertext_len);
  if decide (len envelope ≠ expected_len) then Err InvalidEnvelope else
  let aad := build_aad context in
  ciphertext ← slice envelope HEADER_BYTES (len envelope);
  ok_or AuthenticationFailed (aead_decrypt (expose_bytes key) nonce aad ciphertext).
End protection.

(** ** Theory *)

(** The envelope around a ciphertext. *)
Definition envelope_of (nonce : byte_array NONCE_BYTES) (ciphertext : list byte) : list byte :=
  MAGIC ++ be_bytes 2 VERSION ++ be_bytes 1 ALGORITHM_XCHACHA20_POLY1305 ++
  array_bytes nonce ++ be_bytes 8 (len ciphertext) ++ ciphertext.

Section theory.
Context `{Aead}.

Lemma protect_with_nonce_Ok key context m nonce env :
  protect_with_nonce key context m nonce = Ok env ↔
  ∃ c, aead_encrypt (expose_bytes key) nonce (build_aad context) m = Some c ∧
    len c ≤ u64_max ∧ env = envelope_of nonce c.
Proof.
  unfold protect_with_nonce, u64_try_from. cbn zeta. split.
  - intros Hp. inv_ok. case_decide; simplify_eq. eauto 10.
  - intros (c & -> & Hc & ->). cbn [ok_or mbind result_bind]. by rewrite decide_True.
Qed.

(** The checks of [unprotect] on an envelope cut into its fields. *)
Lemma unprotect_fields key context m v0 v1 a (n : byte_array NONCE_BYTES) (l : byte_array 8) c :
  context ≠ [] → len m = 8 → TAG_BYTES ≤ len c →
  unprotect key context (m ++ v0 :: v1 :: a :: array_bytes n ++ array_bytes l ++ c) =
  if decide (m ≠ MAGIC) then Err InvalidEnvelope else
  if decide (be_value [v0; v1] ≠ VERSION) then Err (UnsupportedVersion (be_value [v0; v1])) else
  if decide (Byte.to_N a ≠ ALGORITHM_XCHACHA20_POLY1305)
    then Err (UnsupportedAlgorithm (Byte.to_N a)) else
  ciphertext_len ← ok_or LengthOverflow (usize_try_from (be_value (array_bytes l)));
  if decide (ciphertext_len < TAG_BYTES) then Err InvalidEnvelope else
  expected_len ← ok_or LengthOverflow (usize_checked_add HEADER_BYTES ciphertext_len);
  if decide (HEADER_BYTES + len c ≠ expected_len) then Err InvalidEnvelope else
  ok_or AuthenticationFailed (aead_decrypt (expose_bytes key) n (build_aad context) c).
Proof.
  intros Hctx Hm Hc. set (env := m ++ _). change HEADER_BYTES with 43 in *.
  assert (len (v0 :: v1 :: [a]) = 3) as H3 by done.
  pose proof (len_array n) as Hn. pose proof (len_array l) as Hl. change (N.of_nat NONCE_BYTES) with 24 in *.
  assert (len env = 43 + len c) as Henv.
  { unfold env. change (v0 :: v1 :: a :: ?r) with ([v0; v1; a] ++ r). rewrite !len_app. lia. }
  unfold unprotect. change (len MAGIC) with 8. change HEADER_BYTES with 43. cbn zeta.
  change (N.of_nat NONCE_BYTES) with 24.
  rewrite Henv, decide_False, decide_False by (done || change TAG_BYTES with 16 in *; lia).
  assert (slice (E := ProtectionError) env 0 8 = Ok m) as ->.
  { apply (slice_mid env [] m (v0 :: v1 :: a :: array_bytes n ++ array_bytes l ++ c)); by rewrite ?Hm. }
  assert (index_at (E := ProtectionError) env 8 = Ok v0) as ->.
  { apply (index_at_mid env m (v1 :: a :: array_bytes n ++ array_bytes l ++ c)); by rewrite ?Hm. }
  assert (index_at (E := ProtectionError) env (8 + 1) = Ok v1) as ->.
  { apply (index_at_mid env (m ++ [v0]) (a :: array_bytes n ++ array_bytes l ++ c));
      [unfold env; by rewrite <-app_assoc|by rewrite len_app, Hm]. }
  assert (index_at (E := ProtectionError) env (8 + 2) = Ok a) as ->.
  { apply (index_at_mid env (m ++ [v0; v1]) (array_bytes n ++ array_bytes l ++ c));
      [unfold env; by rewrite <-app_assoc|by rewrite len_app, Hm]. }
  assert (slice (E := ProtectionError) env (8 + 2 + 1) (8 + 2 + 1 + 24) = Ok (array_bytes n)) as ->.
  { apply (slice_mid env (m ++ [v0; v1; a]) (array_bytes n) (array_bytes l ++ c));
      [unfold env; by rewrite <-app_assoc|by rewrite len_app, Hm|by rewrite len_app, Hm, Hn]. }
  assert (len (m ++ [v0; v1; a] ++ array_bytes n) = 35) as H35 by (rewrite !len_app; lia).
  assert (slice (E := ProtectionError) env (8 + 2 + 1 + 24) (8 + 2 + 1 + 24 + 8) = Ok (array_bytes l))
    as ->.
  { apply (slice_mid env (m ++ [v0; v1; a] ++ array_bytes n) (array_bytes l) c);
      [unfold env; by rewrite <-!app_assoc|by rewrite H35|by rewrite H35, Hl]. }
  assert (slice (E := ProtectionError) env 43 (43 + len c) = Ok c) as Hslice.
  { apply (slice_mid env (m ++ [v0; v1; a] ++ array_bytes n ++ array_bytes l) c []);
      [unfold env; by rewrite app_nil_r, <-!app_assoc| |];
      rewrite !len_app in *; lia. }
  cbn [mbind result_bind]. case_decide; [done|]. case_decide; [done|]. case_decide; [done|].
  rewrite !try_into_array_bytes. cbn [expect mbind result_bind].
  destruct (usize_try_from _) as [cl|]; cbn [ok_or mbind result_bind]; [|done].
  case_decide; [done|]. destruct (usize_checked_add _ _) as [el|]; cbn [ok_or mbind result_bind]; [|done].
  case_decide; [done|]. by rewrite Hslice.
Qed.

Lemma envelope_fields env :
  HEADER_BYTES + TAG_BYTES ≤ len env →
  ∃ m v0 v1 a (n : byte_array NONCE_BYTES) (l : byte_array 8) c,
    env = m ++ v0 :: v1 :: a :: array_bytes n ++ array_bytes l ++ c ∧ len m = 8 ∧ TAG_BYTES ≤ len c.
Proof.
  change HEADER_BYTES with 43. change TAG_BYTES with 16. intros Hlen.
  destruct (split_len env 8) as (m & r & -> & Hm); [lia|]. rewrite len_app in Hlen.
  destruct (split_len r 3) as (h & r1 & -> & Hh); [lia|]. rewrite len_app in Hlen.
  destruct (split_len r1 24) as (n & r2 & -> & Hn); [lia|]. rewrite len_app in Hlen.
  destruct (split_len r2 8) as (l & c & -> & Hl); [lia|]. rewrite len_app in Hlen.
  destruct h as [|v0 [|v1 [|a [|? ?]]]]; unfold len in Hh; cbn in Hh; try lia.
  destruct (try_into_array_is_Some NONCE_BYTES n) as [na Hna%try_into_array_Some].
  { unfold len, NONCE_BYTES in *. lia. }
  destruct (try_into_array_is_Some 8 l) as [la Hla%try_into_array_Some].
  { unfold len in *. lia. }
  change (len [v0; v1; a]) with 3 in Hlen.
  exists m, v0, v1, a, na, la, c. rewrite Hna, Hla. split; [done|]. split; [done|lia].
Qed.

Lemma be_value_2 v0 v1 n : n < 256 ^ 2 → be_value [v0; v1] = n ↔ [v0; v1] = be_bytes 2 n.
Proof.
  intros Hn. split.
  - intros <-. symmetry. exact (be_bytes_value [v0; v1]).
  - intros ->. by apply be_value_bytes.
Qed.

Lemma unprotect_short key context env :
  context ≠ [] → len env < HEADER_BYTES + TAG_BYTES → unprotect key context env = Err InvalidEnvelope.
Proof. intros Hc Hl. unfold unprotect. by rewrite decide_False, decide_True. Qed.

Lemma unprotect_no_panic key context env : unprotect key context env ≠ Panic.
Proof.
  destruct (decide (context = [])) as [->|Hctx]; [done|].
  destruct (decide (len env < HEADER_BYTES + TAG_BYTES)) as [Hl|Hl];
    [by rewrite unprotect_short|].
  destruct (envelope_fields env) as (m & v0 & v1 & a & n & l & c & -> & Hm & Hc); [lia|].
  rewrite unprotect_fields by done. do 3 (case_decide; [done|]).
  rewrite bind_Panic. intros [?%ok_or_Panic|(? & _ & Hp)]; [done|].
  case_decide; [done|]. apply bind_Panic in Hp as [?%ok_or_Panic|(? & _ & Hp)]; [done|].
  case_decide; [done|]. by apply ok_or_Panic in Hp.
Qed.

Lemma unprotect_Ok `{!AeadLaws} key context env m :
  len env ≤ isize_max →
  unprotect key context env = Ok m ↔
  context ≠ [] ∧ ∃ nonce, protect_with_nonce key context m nonce = Ok env.
Proof.
  intros Henv. destruct (decide (context = [])) as [->|Hctx].
  { unfold unprotect. rewrite decide_True by done. naive_solver. }
  setoid_rewrite protect_with_nonce_Ok. split.
  - intros Hok. split; [done|].
    destruct (decide (len env < HEADER_BYTES + TAG_BYTES)) as [Hl|Hl];
      [by rewrite unprotect_short in Hok|].
    destruct (envelope_fields env) as (mg & v0 & v1 & a & n & l & c & -> & Hm & Hc); [lia|].
    rewrite unprotect_fields in Hok by done.
    case_decide as H1; [done|]. case_decide as H2; [done|]. case_decide as H3; [done|].
    apply bind_Ok in Hok as (cl & Hcl%ok_or_Ok & Hok). case_decide as H4; [done|].
    apply bind_Ok in Hok as (el & Hel%ok_or_Ok & Hok). case_decide as H5; [done|].
    apply ok_or_Ok in Hok. exists n, c. split; [by apply aead_authentic|].
    unfold usize_try_from, usize_checked_add in *. do 2 case_decide; simplify_eq.
    assert (len c = be_value (array_bytes l)) as Hcl by lia.
    split; [change u64_max with usize_max; lia|]. unfold envelope_of. rewrite Hcl.
    pose proof (be_bytes_value (array_bytes l)) as Hl8. rewrite length_array_bytes in Hl8. rewrite Hl8.
    f_equal. apply be_value_2 in H2; [|done]. rewrite <-H2, be_bytes_1, <-H3, byte_to_N_of_N. done.
  - intros (_ & nonce & c & Henc & Hc & ->). pose proof (aead_length _ _ _ _ _ Henc) as Hlen.
    assert (∃ l : byte_array 8, array_bytes l = be_bytes 8 (len c)) as [l Hl].
    { destruct (try_into_array_is_Some 8 (be_bytes 8 (len c))) as [l Hl]; [by rewrite length_be_bytes|].
      exists l. by apply try_into_array_Some. }
    unfold envelope_of in *. rewrite <-Hl in *.
    assert (∃ v0 v1, be_bytes 2 VERSION = [v0; v1]) as (v0 & v1 & Hv) by by eexists _, _.
    rewrite Hv, be_bytes_1. cbn [app].
    rewrite unprotect_fields by (done || lia).
    rewrite decide_False by naive_solver. rewrite decide_False.
    2:{ intros Hn. apply Hn, be_value_2; done. }
    rewrite byte_of_N_to_N, decide_False by (intros Hn; by apply Hn).
    rewrite Hl, be_value_bytes by (unfold u64_max in Hc; lia).
    unfold usize_try_from. rewrite decide_True by done. cbn [ok_or mbind result_bind].
    rewrite decide_False by lia. unfold usize_checked_add.
    rewrite !len_app, len_array, !len_be_bytes in Henv. rewrite Hl, len_be_bytes in Henv.
    pose proof isize_usize. change HEADER_BYTES with 43.
    assert (len MAGIC = 8) as HM by done. change (N.of_nat NONCE_BYTES) with 24 in *.
    rewrite decide_True by lia. cbn [ok_or mbind result_bind].
    rewrite decide_False by (intros Hn; by apply Hn). by rewrite (aead_decrypts _ _ _ _ _ Henc).
Qed.
End theory.

(** An envelope determines its nonce and its ciphertext. *)
Lemma envelope_of_inj n c n' c' : envelope_of n c = envelope_of n' c' → n = n' ∧ c = c'.
Proof.
  unfold envelope_of. intros Heq. do 3 apply app_inv_head in Heq.
  apply app_inj_len in Heq as [Hn Heq]; [|by rewrite !len_array].
  apply app_inj_len in Heq as [_ Hc]; [|by rewrite !len_be_bytes].
  split; [by apply array_bytes_inj|done].
Qed.

(** One envelope accepted under two contexts: the ciphertext in it is the
    encryption of both messages, each under its own associated data. *)
Lemma unprotect_two_contexts `{AeadLaws} key ctx ctx' env m m' :
  len env ≤ isize_max → ctx ≠ ctx' → unprotect key ctx env = Ok m → unprotect key ctx' env = Ok m' →
  ∃ nonce c, env = envelope_of nonce c ∧ build_aad ctx ≠ build_aad ctx' ∧
    aead_encrypt (expose_bytes key) nonce (build_aad ctx) m = Some c ∧
    aead_encrypt (expose_bytes key) nonce (build_aad ctx') m' = Some c.
Proof.
  intros Hlen Hne [_ [n Hn]]%unprotect_Ok [_ [n' Hn']]%unprotect_Ok; [|done..].
  apply protect_with_nonce_Ok in Hn as (c & Hc & _ & ->).
  apply protect_with_nonce_Ok in Hn' as (c' & Hc' & _ & [<- <-]%envelope_of_inj).
  exists n, c. split; [done|]. split; [|done]. unfold build_aad. intros Heq%app_inv_head. done.
Qed.
