(* ===== verification/Protected.v ===== *)
(** * Protected sync parts (crates/apc-sync/src/protected.rs)

    One authenticated part of a publication, its binding context, and the
    multipart inbox that exposes semantic state only when every part of a
    publication has arrived. *)
From Stdlib Require Import Lia NArith Strings.Byte.
From stdpp Require Import base tactics option list gmap numbers.
From S2P Require Import Prelude BTree Bytes Id Error Worklist Scalar Causal Merge ScalarMerge.
From S2P Require Import Reader Projection Codec Crypto.
Local Open Scope N_scope.

Definition PublicationId : Type := opaque_id PublicationKind.

Definition PUBLICATION_ID_BYTES : nat := 32.
Definition SYNC_PART_CONTEXT_DOMAIN : list byte :=
  b_ "A.P.C. sync part context" ++ [x00] ++ b_ "v1" ++ [x00].

Record ProtectedSyncPart : Type := ProtectedSyncPart_mk {
  publication_id : PublicationId;
  part_index : N;
  total_parts : N;
  payload : list byte;
}.

#[export] Instance ProtectedSyncPart_eq_dec : EqDecision ProtectedSyncPart.
Proof. solve_decision. Defined.

Inductive SyncPartError : Type :=
  | InvalidMultipartMetadata
  | MultipartTotalMismatch
  | MultipartPartCollision
  | EmptyProjection
  | SyncPartCodec (error : SyncCodecError)
  | Protection (error : ProtectionError)
  | SyncPartCore (error : CoreError).

Definition validate_part_metadata (part_index total_parts : N) : result SyncPartError unit :=
  if decide (total_parts = 0 ∨ total_parts ≤ part_index) then Err InvalidMultipartMetadata
  else Ok tt.

Definition part_context (continuum_id : ContinuumId) (publication_id : PublicationId)
    (part_index total_parts : N) : list byte :=
  SYNC_PART_CONTEXT_DOMAIN ++ id_slice continuum_id ++ id_slice publication_id ++
  be_bytes 4 part_index ++ be_bytes 4 total_parts.

Section parts.
Context `{Aead}.

Definition protect_scalar_part (generated : option (byte_array NONCE_BYTES)) (key : ContentKey)
    (continuum_id : ContinuumId) (publication_id : PublicationId) (part_index total_parts : N)
    (projection : ScalarSyncProjection) : result SyncPartError ProtectedSyncPart :=
  _ ← validate_part_metadata part_index total_parts;
  if SyncProjection.is_empty projection then Err EmptyProjection else
  clear ← map_err SyncPartCodec (encode_scalar_projection projection);
  let context := part_context continuum_id publication_id part_index total_parts in
  payload ← map_err Protection (protect generated key context clear);
  Ok (ProtectedSyncPart_mk publication_id part_index total_parts payload).

Definition unprotect_scalar_part (key : ContentKey) (continuum_id : ContinuumId)
    (part : ProtectedSyncPart) : result SyncPartError ScalarSyncProjection :=
  _ ← validate_part_metadata (part_index part) (total_parts part);
  let context :=
    part_context continuum_id (publication_id part) (part_index part) (total_parts part) in
  clear ← map_err Protection (unprotect key context (payload part));
  projection ← map_err SyncPartCodec (decode_scalar_projection clear);
  if SyncProjection.is_empty projection then Err EmptyProjection else Ok projection.
End parts.

Record PendingPublication : Type := PendingPublication_mk {
  pending_total : N;
  pending_parts : gmap N ScalarSyncProjection;
}.

Record MultipartInbox : Type := MultipartInbox_mk {
  inbox_pending : gmap PublicationId PendingPublication;
}.

Module MultipartInbox.
Section MultipartInbox.
Context `{Aead}.
Implicit Types self : MultipartInbox.

Definition new : MultipartInbox := MultipartInbox_mk ∅.

Definition pending_publications self : nat := size (inbox_pending self).

Definition put_pending (publication_id : PublicationId) (pending : PendingPublication) :
    stateful MultipartInbox SyncPartError unit :=
  self ← get_state;
  put_state (MultipartInbox_mk (<[publication_id := pending]> (inbox_pending self))).

(** The merge of the parts of a complete publication, in index order. *)
Definition assemble (parts : gmap N ScalarSyncProjection) :
    result SyncPartError ScalarSyncProjection :=
  match values_asc parts with
  | [] => Panic
  | projection :: fragments =>
      map_err SyncPartCore (try_fold SyncProjection.merge projection fragments)
  end.

(** [ingest] after the part has been authenticated. *)
Definition ingest_clear (part : ProtectedSyncPart) (clear : ScalarSyncProjection) :
    stateful MultipartInbox SyncPartError (option ScalarSyncProjection) :=
  self ← get_state;
  let pid := publication_id part in
  let pending := default (PendingPublication_mk (total_parts part) ∅) (inbox_pending self !! pid) in
  _ ← put_pending pid pending;
  if decide (pending_total pending ≠ total_parts part) then throw MultipartTotalMismatch else
  pending ← match pending_parts pending !! part_index part with
            | Some previous =>
                if decide (previous ≠ clear) then throw MultipartPartCollision else mret pending
            | None =>
                let pending := PendingPublication_mk (pending_total pending)
                  (<[part_index part := clear]> (pending_parts pending)) in
                _ ← put_pending pid pending;
                mret pending
            end;
  if decide (N.of_nat (size (pending_parts pending)) ≠ pending_total pending) then mret None else
  self ← get_state;
  complete ← lift_result (expect (inbox_pending self !! pid));
  _ ← put_state (MultipartInbox_mk (delete pid (inbox_pending self)));
  projection ← lift_result (assemble (pending_parts complete));
  mret (Some projection).

Definition ingest (key : ContentKey) (continuum_id : ContinuumId) (part : ProtectedSyncPart) :
    stateful MultipartInbox SyncPartError (option ScalarSyncProjection) :=
  clear ← lift_result (unprotect_scalar_part key continuum_id part);
  ingest_clear part clear.
End MultipartInbox.
End MultipartInbox.

(** ** The binding context *)
(** Different clear bookkeeping gives a different associated context. *)
Lemma part_context_inj c p i t c' p' i' t' :
  i ≤ u32_max → t ≤ u32_max → i' ≤ u32_max → t' ≤ u32_max →
  part_context c p i t = part_context c' p' i' t' → c = c' ∧ p = p' ∧ i = i' ∧ t = t'.
Proof.
  unfold part_context, u32_max. intros Hi Ht Hi' Ht' Heq. apply app_inv_head in Heq.
  apply app_inj_len in Heq as [Hc Heq]; [|by rewrite !len_id_slice].
  apply app_inj_len in Heq as [Hp Heq]; [|by rewrite !len_id_slice].
  apply app_inj_len in Heq as [Hii Htt]; [|by rewrite !len_be_bytes].
  apply id_slice_inj in Hc, Hp. apply be_bytes_inj in Hii, Htt; [done|lia..].
Qed.

(** ** Protecting and unprotecting *)
Section parts_theory.
Context `{AeadLaws}.
Implicit Types (key : ContentKey) (c : ContinuumId) (part : ProtectedSyncPart).

Definition metadata_ok (part_index total_parts : N) : Prop := part_index < total_parts.

Lemma validate_part_metadata_Ok i t u : validate_part_metadata i t = Ok u ↔ metadata_ok i t.
Proof.
  destruct u. unfold validate_part_metadata, metadata_ok. case_decide; [|split; [lia|done]].
  split; [done|lia].
Qed.

Lemma validate_part_metadata_Panic i t : validate_part_metadata i t ≠ Panic.
Proof. unfold validate_part_metadata. by case_decide. Qed.

(** An accepted part authenticates, in its place, an encoding of the projection. *)
Lemma unprotect_part_clear key c part p :
  unprotect_scalar_part key c part = Ok p →
  ∃ clear, unprotect key (part_context c (publication_id part) (part_index part) (total_parts part)) (payload part) = Ok clear ∧
    decode_scalar_projection clear = Ok p.
Proof.
  unfold unprotect_scalar_part. cbn zeta. intros Hp. apply bind_Ok in Hp as (_ & _ & Hp).
  apply bind_Ok in Hp as (clear & Hclear%map_err_Ok & Hp). apply bind_Ok in Hp as (p' & Hd%map_err_Ok & Hp).
  exists clear. split; [done|]. destruct (SyncProjection.is_empty p'); by simplify_eq.
Qed.

(** Authentication accepts exactly what protection under the same key, continuum
    and bookkeeping can produce, for the same projection. *)
Lemma unprotect_scalar_part_Ok key c part p :
  len (payload part) ≤ isize_max →
  unprotect_scalar_part key c part = Ok p ↔
  metadata_ok (part_index part) (total_parts part) ∧ domains p ≠ ∅ ∧
  ∃ nonce clear, g_projection clear p ∧
    protect_with_nonce key
      (part_context c (publication_id part) (part_index part) (total_parts part)) clear nonce
    = Ok (payload part).
Proof.
  intros Hlen. unfold unprotect_scalar_part. cbn zeta.
  set (ctx := part_context _ _ _ _).
  assert (∀ clear nonce, protect_with_nonce key ctx clear nonce = Ok (payload part) →
    len clear ≤ isize_max) as Hclear.
  { intros clear nonce (ct & Hct & _ & Hpay)%protect_with_nonce_Ok.
    apply aead_length in Hct. rewrite Hpay in Hlen. unfold envelope_of in Hlen.
    rewrite !len_app in Hlen. lia. }
  unfold SyncProjection.is_empty. split.
  - intros Hp. apply bind_Ok in Hp as (u & Hm%validate_part_metadata_Ok & Hp).
    apply bind_Ok in Hp as (clear & Hu%map_err_Ok & Hp).
    apply bind_Ok in Hp as (q & Hd%map_err_Ok & Hp).
    apply unprotect_Ok in Hu as (_ & nonce & Hn); [|done].
    specialize (Hclear _ _ Hn). apply decode_grammar in Hd; [|done].
    case_bool_decide as Hemp; [done|]. simplify_eq. eauto 10.
  - intros (Hm & Hne & nonce & clear & Hg & Hn).
    rewrite (proj2 (validate_part_metadata_Ok _ _ tt) Hm). cbn [mbind result_bind].
    specialize (Hclear _ _ Hn).
    rewrite (proj2 (unprotect_Ok key ctx (payload part) clear Hlen)) by (split; [done|by exists nonce]).
    cbn [map_err mbind result_bind].
    rewrite (proj2 (proj2 (decode_grammar clear Hclear) p) Hg). cbn [map_err mbind result_bind].
    by rewrite bool_decide_false.
Qed.

Lemma protect_unprotect_part gen key c pid i t p part :
  projection_valid p → len (payload part) ≤ isize_max →
  protect_scalar_part gen key c pid i t p = Ok part →
  publication_id part = pid ∧ part_index part = i ∧ total_parts part = t ∧
  unprotect_scalar_part key c part = Ok p.
Proof.
  intros Hv Hlen Hp. unfold protect_scalar_part in Hp. cbn zeta in Hp.
  apply bind_Ok in Hp as (u & Hm%validate_part_metadata_Ok & Hp).
  unfold SyncProjection.is_empty in Hp. case_bool_decide as Hne; [done|].
  apply bind_Ok in Hp as (clear & Hclear%map_err_Ok & Hp).
  apply bind_Ok in Hp as (pay & Hpay%map_err_Ok & [= <-]). cbn in *.
  do 3 (split; [done|]). apply unprotect_scalar_part_Ok; cbn; [done|].
  split; [done|]. split; [done|]. unfold protect in Hpay. case_decide; [done|].
  apply bind_Ok in Hpay as (nonce & _ & Hpay). exists nonce, clear. split; [|done].
  by apply (encode_grammar p Hv).
Qed.
End parts_theory.

(** ** The inbox *)
Section inbox.
Implicit Types (self : MultipartInbox) (part : ProtectedSyncPart) (clear : ScalarSyncProjection).

(** An incomplete publication: some index below the total is missing. *)
Definition pending_ok (pending : PendingPublication) : Prop :=
  N.of_nat (size (pending_parts pending)) < pending_total pending ∧
  ∀ i, i ∈ dom (pending_parts pending) → i < pending_total pending.

Definition inbox_ok self : Prop :=
  ∀ pid pending, inbox_pending self !! pid = Some pending → pending_ok pending.

Lemma new_inbox_ok : inbox_ok MultipartInbox.new.
Proof. intros pid pending. cbn. by rewrite lookup_empty. Qed.

(** The parts held for a publication, and its total once one part is held. *)
Definition held self (pid : PublicationId) : gmap N ScalarSyncProjection :=
  match inbox_pending self !! pid with
  | Some pending => pending_parts pending
  | None => ∅
  end.

Definition total_agrees self part : Prop :=
  ∀ pending, inbox_pending self !! publication_id part = Some pending →
    pending_total pending = total_parts part.

#[export] Instance total_agrees_dec self part : Decision (total_agrees self part).
Proof.
  refine (match inbox_pending self !! publication_id part as o
    return inbox_pending self !! publication_id part = o → Decision _ with
  | Some pending => λ Ho, cast_if (decide (pending_total pending = total_parts part))
  | None => λ Ho, left _
  end eq_refl); abstract (unfold total_agrees; rewrite Ho; naive_solver).
Defined.

Definition with_pending self pid pending : MultipartInbox :=
  MultipartInbox_mk (<[pid := pending]> (inbox_pending self)).
Definition without_pending self pid : MultipartInbox :=
  MultipartInbox_mk (delete pid (inbox_pending self)).

Lemma put_pending_same self pid pending :
  inbox_pending self !! pid = Some pending → with_pending self pid pending = self.
Proof. intros Hp. unfold with_pending. rewrite insert_id by done. by destruct self. Qed.

(** [ingest] of one authenticated part, on every branch. *)
Lemma ingest_clear_cases self part clear :
  inbox_ok self → metadata_ok (part_index part) (total_parts part) →
  MultipartInbox.ingest_clear part clear self =
  let pid := publication_id part in
  let parts := held self pid in
  let parts' := <[part_index part := clear]> parts in
  if decide (total_agrees self part) then
    match parts !! part_index part with
    | Some previous =>
        (self, if decide (previous = clear) then Ok None else Err MultipartPartCollision)
    | None =>
        if decide (N.of_nat (size parts') = total_parts part) then
          (without_pending self pid,
           projection ← MultipartInbox.assemble parts'; Ok (Some projection))
        else (with_pending self pid (PendingPublication_mk (total_parts part) parts'), Ok None)
    end
  else (self, Err MultipartTotalMismatch).
Proof.
  intros Hok Hm. cbn zeta. unfold MultipartInbox.ingest_clear, MultipartInbox.put_pending, held. run_st.
  rewrite st_bind. run_st.
  destruct (inbox_pending self !! publication_id part) as [pending|] eqn:Hp; cbn [from_option]; unfold id.
  - pose proof (put_pending_same self _ _ Hp) as Hsame. unfold with_pending in Hsame. rewrite Hsame.
    destruct (decide (pending_total pending = total_parts part)) as [Ht|Ht].
    2:{ rewrite decide_True by done. rewrite decide_False; [done|].
        intros Ha. by apply Ht, Ha. }
    rewrite decide_False by naive_solver. rewrite (decide_True (P := total_agrees self part));
      [|intros pending' Hp'; naive_solver].
    destruct (pending_parts pending !! part_index part) as [previous|] eqn:Hprev.
    + rewrite st_bind. destruct (decide (previous = clear)) as [Heq|Hne].
      * rewrite decide_False by naive_solver. run_st. rewrite decide_True; [done|].
        destruct (Hok _ _ Hp) as [Hsz _]. rewrite Ht in *. lia.
      * by rewrite decide_True.
    + rewrite st_bind, st_bind. run_st. cbn [pending_total pending_parts].
      destruct (decide (N.of_nat (size (<[part_index part:=clear]> (pending_parts pending)))
        = total_parts part)) as [Hsz|Hsz].
      * rewrite decide_False by (rewrite Ht; naive_solver). run_st. cbn [inbox_pending].
        rewrite lookup_insert_eq. cbn [expect]. run_st. cbn [pending_parts].
        unfold without_pending. rewrite delete_insert_eq.
        by destruct (MultipartInbox.assemble _).
      * rewrite decide_True by (rewrite Ht; done). run_st. by rewrite Ht.
  - rewrite decide_False by naive_solver. cbn [pending_parts pending_total].
    rewrite lookup_empty. rewrite (decide_True (P := total_agrees self part));
      [|intros pending' Hp'; naive_solver].
    rewrite st_bind, st_bind. run_st. cbn [pending_total pending_parts inbox_pending].
    rewrite insert_insert_eq.
    destruct (decide (N.of_nat (size (<[part_index part:=clear]> (∅ : gmap N ScalarSyncProjection)))
      = total_parts part)) as [Hsz|Hsz].
    + rewrite decide_False by naive_solver. run_st. cbn [inbox_pending].
      rewrite lookup_insert_eq. cbn [expect]. run_st. cbn [pending_parts].
      unfold without_pending. rewrite delete_insert_eq. by destruct (MultipartInbox.assemble _).
    + by rewrite decide_True.
Qed.

(** ** Complete publications *)

(** [parts] are all the parts of a publication of [total] parts. *)
Definition complete_parts (parts : gmap N ScalarSyncProjection) (total : N) : Prop :=
  N.of_nat (size parts) = total ∧ ∀ i, i ∈ dom parts → i < total.

(** An authenticated part of the publication [pid] with parts [parts]. *)
Definition part_of (pid : PublicationId) (total : N) (parts : gmap N ScalarSyncProjection)
    (x : ProtectedSyncPart * ScalarSyncProjection) : Prop :=
  publication_id x.1 = pid ∧ total_parts x.1 = total ∧ parts !! part_index x.1 = Some x.2.

(** Delivers authenticated parts in order and collects what each call returns. *)
Fixpoint deliver (l : list (ProtectedSyncPart * ScalarSyncProjection)) self :
    MultipartInbox * list (result SyncPartError (option ScalarSyncProjection)) :=
  match l with
  | [] => (self, [])
  | (part, clear) :: l =>
      let '(self1, res) := MultipartInbox.ingest_clear part clear self in
      let '(self2, ress) := deliver l self1 in
      (self2, res :: ress)
  end.

(** The inbox once the parts [m] of [pid] have arrived. *)
Definition holding self (pid : PublicationId) (total : N) (m : gmap N ScalarSyncProjection) :
    MultipartInbox :=
  if decide (m = ∅) then self else with_pending self pid (PendingPublication_mk total m).

Lemma strict_size (m parts : gmap N ScalarSyncProjection) j :
  m ⊆ parts → j ∈ dom parts → m !! j = None → (size m < size parts)%nat.
Proof.
  intros Hsub Hj Hm. apply map_subset_size. split; [done|]. intros Hsup.
  apply elem_of_dom in Hj as [v Hv]. by rewrite (lookup_weaken _ _ _ _ Hv Hsup) in Hm.
Qed.

Lemma holding_facts self pid total parts m j :
  inbox_ok self → inbox_pending self !! pid = None → complete_parts parts total →
  m ⊆ parts → j ∈ dom parts → m !! j = None →
  inbox_ok (holding self pid total m) ∧ held (holding self pid total m) pid = m ∧
  (∀ part, publication_id part = pid → total_parts part = total →
    total_agrees (holding self pid total m) part) ∧
  without_pending (holding self pid total m) pid = self ∧
  ∀ m', m' ≠ ∅ → with_pending (holding self pid total m) pid (PendingPublication_mk total m') =
    holding self pid total m'.
Proof.
  intros Hok Hnone [Hsize Hdom] Hsub Hj Hmj. unfold holding, held, total_agrees.
  pose proof (strict_size m parts j Hsub Hj Hmj) as Hlt.
  destruct (decide (m = ∅)) as [->|Hm].
  - rewrite Hnone. split; [done|]. split; [done|]. split; [by intros part -> ? ?; rewrite Hnone|].
    split; [unfold without_pending; rewrite delete_id by done; by destruct self|].
    intros m' Hm'. by rewrite decide_False.
  - cbn [inbox_pending with_pending]. rewrite lookup_insert_eq. split.
    { intros pid' pending. unfold with_pending. cbn [inbox_pending]. rewrite lookup_insert_Some.
      intros [[<- <-]|[_ Hp]]; [|by apply (Hok pid')]. split; cbn; [lia|].
      intros i Hi. apply Hdom. by apply (subseteq_dom _ _ Hsub). }
    split; [done|]. split.
    { intros part -> <- pending. unfold with_pending. cbn [inbox_pending]. rewrite lookup_insert_eq. by intros [= <-]. }
    split.
    { unfold without_pending; cbn. rewrite delete_insert_id by done. by destruct self. }
    intros m' Hm'. rewrite decide_False by done. unfold with_pending; cbn. by rewrite insert_insert_eq.
Qed.

(** One more part of an incomplete publication. *)
Lemma ingest_holding self pid total parts m part clear j :
  inbox_ok self → inbox_pending self !! pid = None → complete_parts parts total →
  m ⊆ parts → part_of pid total parts (part, clear) → j ∈ dom parts → m !! j = None →
  MultipartInbox.ingest_clear part clear (holding self pid total m) =
  if decide (size (<[part_index part := clear]> m) = size parts) then
    (self, projection ← MultipartInbox.assemble parts; Ok (Some projection))
  else (holding self pid total (<[part_index part := clear]> m), Ok None).
Proof.
  intros Hok Hnone Hcp Hsub (Hpid & Htot & Hpart) Hj Hmj. cbn [fst snd] in *.
  destruct (holding_facts self pid total parts m j) as (Hok' & Hheld & Hag & Hwo & Hwith); [done..|].
  pose proof Hcp as [Hsize Hdom]. pose proof (strict_size m parts j Hsub Hj Hmj) as Hlt.
  assert (metadata_ok (part_index part) (total_parts part)) as Hm.
  { unfold metadata_ok. rewrite Htot. apply Hdom. by eapply elem_of_dom_2. }
  rewrite ingest_clear_cases by done. cbn zeta. rewrite Hpid, Hheld, Htot.
  rewrite decide_True by (by apply Hag).
  destruct (m !! part_index part) as [prev|] eqn:Hprev.
  - assert (prev = clear) as -> by (eapply lookup_weaken in Hprev; [|done]; congruence).
    rewrite insert_id by done. rewrite decide_True by done. rewrite decide_False by lia.
    done.
  - assert (<[part_index part:=clear]> m ⊆ parts) as Hsub' by by apply insert_subseteq_l.
    destruct (decide (size (<[part_index part:=clear]> m) = size parts)) as [Heq|Hne].
    + rewrite decide_True by lia. rewrite Hwo. do 2 f_equal.
      assert (<[part_index part:=clear]> m = parts) as ->; [|done].
      apply (anti_symm (⊆)); [done|]. apply map_subseteq_spec. intros i v Hi.
      destruct (<[part_index part:=clear]> m !! i) as [v'|] eqn:Hi'.
      * eapply lookup_weaken in Hi'; [|done]. congruence.
      * assert (i ∈ dom parts) as Hin by by eapply elem_of_dom_2.
        pose proof (strict_size _ _ _ Hsub' Hin Hi'). lia.
    + rewrite decide_False by lia. by rewrite Hwith by apply insert_non_empty.
Qed.

(** Parts may arrive in any order and repeatedly: nothing is exposed until the
    last missing one arrives, and then the result is the assembly of all parts
    and the publication is forgotten. *)
Lemma deliver_incomplete self pid total parts l m j :
  inbox_ok self → inbox_pending self !! pid = None → complete_parts parts total →
  m ⊆ parts → (∀ x, x ∈ l → part_of pid total parts x) →
  j ∈ dom parts → m !! j = None → (∀ x, x ∈ l → part_index x.1 ≠ j) →
  ∃ m', deliver l (holding self pid total m) =
    (holding self pid total m', (λ _, Ok None) <$> l) ∧ m ⊆ m' ∧ m' ⊆ parts ∧ m' !! j = None ∧
    ∀ i, i ∈ dom m' ↔ i ∈ dom m ∨ i ∈ (λ x, part_index x.1) <$> l.
Proof.
  intros Hok Hnone Hcp. revert m. induction l as [|[part clear] l IH]; intros m Hsub Hl Hj Hmj Hne.
  - exists m. split; [done|]. split; [done|]. split; [done|]. split; [done|]. set_solver.
  - assert (part_of pid total parts (part, clear)) as Hpart by (apply Hl; left).
    assert (part_index part ≠ j) as Hnej by by apply (Hne (part, clear)); left.
    set (m1 := <[part_index part := clear]> m).
    assert (m1 !! j = None) as Hm1j by by unfold m1; rewrite lookup_insert_ne.
    assert (m1 ⊆ parts) as Hsub1.
    { apply map_subseteq_spec. intros i v. unfold m1. rewrite lookup_insert_Some.
      intros [[<- <-]|[_ Hi]]; [apply Hpart|]. by eapply lookup_weaken. }
    pose proof (strict_size m1 parts j Hsub1 Hj Hm1j) as Hlt.
    destruct (IH m1) as (m' & Hd & H1 & H2 & H3 & H4); [done| |done|done| |].
    { intros x Hx. apply Hl. by right. } { intros x Hx. apply Hne. by right. }
    exists m'. cbn [deliver]. rewrite (ingest_holding self pid total parts m part clear j) by done.
    fold m1. rewrite decide_False by lia. rewrite Hd. split; [done|].
    split; [|split; [done|split; [done|]]].
    + apply map_subseteq_spec. intros i v Hi. apply (lookup_weaken m1); [|done].
      unfold m1. destruct (decide (part_index part = i)) as [<-|]; [|by rewrite lookup_insert_ne].
      rewrite lookup_insert_eq. destruct Hpart as (_ & _ & Hp). cbn in Hp.
      eapply lookup_weaken in Hi; [|done]. congruence.
    + intros i. rewrite H4. unfold m1. rewrite dom_insert. set_solver.
Qed.
End inbox.

(** ** Delivery through [ingest] *)
Section ingest.
Context `{Aead}.
Implicit Types (self : MultipartInbox).

(** Ingests parts in order and collects what each call returns. *)
Fixpoint ingest_all (key : ContentKey) (c : ContinuumId) (l : list ProtectedSyncPart) self :
    MultipartInbox * list (result SyncPartError (option ScalarSyncProjection)) :=
  match l with
  | [] => (self, [])
  | part :: l =>
      let '(self1, res) := MultipartInbox.ingest key c part self in
      let '(self2, ress) := ingest_all key c l self1 in
      (self2, res :: ress)
  end.

(** The parts authenticate to these projections. *)
Definition authentic (key : ContentKey) (c : ContinuumId)
    (x : ProtectedSyncPart * ScalarSyncProjection) : Prop :=
  unprotect_scalar_part key c x.1 = Ok x.2.

Lemma ingest_all_deliver key c l self :
  (∀ x, x ∈ l → authentic key c x) → ingest_all key c l.*1 self = deliver l self.
Proof.
  revert self. induction l as [|[part clear] l IH]; intros self Hl; [done|].
  cbn [fmap list_fmap ingest_all deliver fst].
  assert (authentic key c (part, clear)) as Ha by (apply Hl; left).
  unfold MultipartInbox.ingest. rewrite st_bind. run_st. unfold authentic in Ha. cbn in Ha.
  rewrite Ha. destruct (MultipartInbox.ingest_clear part clear self) as [self1 res].
  change ((λ x : ProtectedSyncPart * ScalarSyncProjection, x.1) <$> l) with (l.*1).
  rewrite IH; [done|]. intros x Hx. apply Hl. by right.
Qed.

(** An unauthenticated part changes nothing. *)
Lemma ingest_unauthentic key c part self :
  (∀ clear, unprotect_scalar_part key c part ≠ Ok clear) →
  (MultipartInbox.ingest key c part self).1 = self ∧
  ¬ is_ok (MultipartInbox.ingest key c part self).2.
Proof.
  intros Hn. unfold MultipartInbox.ingest. rewrite st_bind. run_st.
  destruct (unprotect_scalar_part key c part) as [clear|e|];
    [by destruct (Hn clear)|split; [done|by intros [? [=]]]..].
Qed.

Lemma deliver_app l1 l2 self :
  deliver (l1 ++ l2) self =
  let '(self1, r1) := deliver l1 self in
  let '(self2, r2) := deliver l2 self1 in (self2, r1 ++ r2).
Proof.
  revert self. induction l1 as [|[part clear] l1 IH]; intros self; cbn [app deliver].
  - by destruct (deliver l2 self).
  - destruct (MultipartInbox.ingest_clear part clear self) as [self1 res]. rewrite IH.
    destruct (deliver l1 self1) as [self2 r1]. by destruct (deliver l2 self2).
Qed.

(** The last missing part completes the publication. *)
Lemma deliver_complete self pid total parts l x :
  inbox_ok self → inbox_pending self !! pid = None → complete_parts parts total →
  (∀ y, y ∈ l ++ [x] → part_of pid total parts y) →
  (∀ y, y ∈ l → part_index y.1 ≠ part_index x.1) →
  (∀ i, i ∈ dom parts → i ∈ (λ y, part_index y.1) <$> l ++ [x]) →
  deliver (l ++ [x]) self =
  (self, ((λ _, Ok None) <$> l) ++ [projection ← MultipartInbox.assemble parts; Ok (Some projection)]).
Proof.
  intros Hok Hnone Hcp Hl Hlast Hall. destruct x as [part clear].
  assert (part_of pid total parts (part, clear)) as Hpart by (apply Hl; set_solver).
  pose proof Hpart as (_ & _ & Hp). cbn in Hp.
  assert (part_index part ∈ dom parts) as Hj by by eapply elem_of_dom_2.
  assert (self = holding self pid total ∅) as Hself by (unfold holding; by rewrite decide_True).
  rewrite deliver_app. rewrite Hself at 1.
  destruct (deliver_incomplete self pid total parts l ∅ (part_index part))
    as (m & -> & _ & Hsub & Hmj & Hdom); [done|done|done|apply map_empty_subseteq| |done|done|done|].
  { intros y Hy. apply Hl. set_solver. }
  cbn [deliver]. rewrite (ingest_holding self pid total parts m part clear (part_index part)) by done.
  assert (<[part_index part := clear]> m = parts) as ->; [|by rewrite decide_True].
  apply map_eq. intros i. destruct (decide (part_index part = i)) as [<-|Hne].
  - by rewrite lookup_insert_eq.
  - rewrite lookup_insert_ne by done. destruct (parts !! i) as [v|] eqn:Hi.
    + assert (i ∈ dom m) as [v' Hv']%elem_of_dom.
      { apply Hdom. right. assert (i ∈ dom parts) as Hin%Hall by by eapply elem_of_dom_2.
        rewrite fmap_app in Hin. apply elem_of_app in Hin as [?|Hin]; [done|].
        apply list_elem_of_singleton in Hin. cbn in Hin. congruence. }
      rewrite Hv'. eapply lookup_weaken in Hv'; [|done]. congruence.
    + apply (lookup_weaken_None _ _ _ Hi Hsub).
Qed.
End ingest.

(** ** Validity of what an inbox assembles

    Every register an inbox holds or returns is valid; and a part that completes
    nothing is held. *)
Section valid_inbox.
Context `{Aead}.
Implicit Types (self : MultipartInbox) (part : ProtectedSyncPart) (p : ScalarSyncProjection).

Lemma unprotect_part_valid key c part p :
  unprotect_scalar_part key c part = Ok p →
  metadata_ok (part_index part) (total_parts part) ∧ projection_valid p ∧ domains p ≠ ∅.
Proof.
  unfold unprotect_scalar_part. intros (u & Hm%validate_part_metadata_Ok & Hp)%bind_Ok.
  apply bind_Ok in Hp as (clear & _ & Hp). apply bind_Ok in Hp as (q & Hq%map_err_Ok & Hp).
  unfold SyncProjection.is_empty in Hp. case_bool_decide as Hne; [done|]. apply (inj Ok) in Hp as <-.
  split; [done|]. split; [by eapply decode_projection_valid|done].
Qed.

Definition inbox_valid self : Prop :=
  inbox_ok self ∧ ∀ pid pending i p,
    inbox_pending self !! pid = Some pending → pending_parts pending !! i = Some p →
    projection_valid p.

Lemma new_inbox_valid : inbox_valid MultipartInbox.new.
Proof. split; [apply new_inbox_ok|]. intros pid pending i p. cbn. by rewrite lookup_empty. Qed.

Lemma held_valid self pid i p : inbox_valid self → held self pid !! i = Some p → projection_valid p.
Proof.
  intros [_ Hv]. unfold held. destruct (inbox_pending self !! pid) as [pending|] eqn:Hp; [by eapply Hv|].
  by rewrite lookup_empty.
Qed.

Lemma assemble_valid parts r :
  (∀ i p, parts !! i = Some p → projection_valid p) →
  MultipartInbox.assemble parts = Ok r → projection_valid r.
Proof.
  intros Hparts. unfold MultipartInbox.assemble. destruct (values_asc parts) as [|q qs] eqn:Hv; [done|].
  assert (∀ y, y ∈ q :: qs → projection_valid y) as Hok.
  { intros y. rewrite <-Hv. intros [i Hi]%elem_of_values_asc. by eapply Hparts. }
  intros Hr%map_err_Ok.
  eapply (try_fold_inv projection_valid); [apply Hok; left| |exact Hr].
  intros b x d Hx Hb Hd. apply (projection_valid_merge b x d Hb); [|exact Hd]. apply Hok. by right.
Qed.

Lemma assemble_no_panic parts :
  parts ≠ ∅ → (∀ i p, parts !! i = Some p → projection_valid p) →
  MultipartInbox.assemble parts ≠ Panic.
Proof.
  intros Hne Hparts. unfold MultipartInbox.assemble. destruct (values_asc parts) as [|q qs] eqn:Hv.
  - exfalso. apply map_choose in Hne as (i & p & Hp).
    assert (p ∈ values_asc parts) as Hin by (apply elem_of_values_asc; eauto).
    rewrite Hv in Hin. by apply not_elem_of_nil in Hin.
  - assert (∀ y, y ∈ q :: qs → projection_valid y) as Hok.
    { intros y. rewrite <-Hv. intros [i Hi]%elem_of_values_asc. by eapply Hparts. }
    rewrite map_err_Panic. change (try_fold SyncProjection.merge q qs) with (merge_all q qs).
    apply (merge_all_no_panic (ok := ok_projection (ok := valid))); [apply projection_valid_ok, Hok; left|].
    intros y Hy. apply projection_valid_ok, Hok. by right.
Qed.

(** A part that does not complete its publication leaves it incomplete. *)
Lemma pending_ok_insert self part clear :
  inbox_ok self → metadata_ok (part_index part) (total_parts part) → total_agrees self part →
  held self (publication_id part) !! part_index part = None →
  N.of_nat (size (<[part_index part := clear]> (held self (publication_id part)))) ≠ total_parts part →
  pending_ok (PendingPublication_mk (total_parts part) (<[part_index part := clear]> (held self (publication_id part)))).
Proof.
  unfold metadata_ok. intros Hok Hidx Hag Hnone Hsz. rewrite map_size_insert_None in Hsz by done.
  assert (N.of_nat (size (held self (publication_id part))) < total_parts part ∧
    ∀ i, i ∈ dom (held self (publication_id part)) → i < total_parts part) as [Hlt Hdom].
  { unfold held in *. destruct (inbox_pending self !! publication_id part) as [pending|] eqn:Hp.
    - rewrite <-(Hag pending Hp). by apply (Hok _ _ Hp).
    - rewrite map_size_empty, dom_empty_L. split; [lia|]. intros i Hi. by apply not_elem_of_empty in Hi. }
  split; cbn [pending_parts pending_total].
  - rewrite map_size_insert_None by done. lia.
  - intros i. rewrite dom_insert_L, elem_of_union, elem_of_singleton. intros [->|Hi]; [lia|by apply Hdom].
Qed.

(** What one call does to a valid inbox. *)
Lemma ingest_valid key c part self :
  inbox_valid self →
  let '(self', res) := MultipartInbox.ingest key c part self in
  inbox_valid self' ∧
  match res with
  | Ok None => inbox_pending self' ≠ ∅
  | Ok (Some p) => projection_valid p
  | Err _ => True
  | Panic => unprotect_scalar_part key c part = Panic
  end.
Proof.
  intros Hself. unfold MultipartInbox.ingest. rewrite st_bind. unfold lift_result.
  destruct (unprotect_scalar_part key c part) as [clear|e|] eqn:Hclear; [|done..].
  apply unprotect_part_valid in Hclear as (Hm & Hclear & _).
  rewrite (ingest_clear_cases self part clear) by (apply Hself || exact Hm). cbn zeta.
  set (pid := publication_id part). set (parts := held self pid). destruct (decide _) as [Hag|]; [|done].
  assert (∀ i p, <[part_index part := clear]> parts !! i = Some p → projection_valid p) as Hparts.
  { intros i p. rewrite lookup_insert_Some. intros [[_ <-]|[_ Hp]]; [done|]. by eapply held_valid. }
  destruct (parts !! part_index part) as [previous|] eqn:Hprev.
  - split; [done|]. destruct (decide (previous = clear)); [|done]. intros He.
    unfold parts, held in Hprev. rewrite He, lookup_empty in Hprev. by rewrite lookup_empty in Hprev.
  - destruct (decide (N.of_nat (size (<[part_index part := clear]> parts)) = total_parts part)) as [Hsz|Hsz].
    + split.
      * split; [intros pid' pending|intros pid' pending i p]; unfold without_pending; cbn;
          rewrite lookup_delete_Some; intros [_ Hp]; [by eapply (proj1 Hself)|by eapply (proj2 Hself)].
      * destruct (MultipartInbox.assemble _) as [r|e|] eqn:Hr; cbn; [by eapply assemble_valid|done|].
        exfalso. by apply assemble_no_panic in Hr; [|apply insert_non_empty|].
    + split; [|cbn; apply insert_non_empty].
      split; [intros pid' pending|intros pid' pending i p]; unfold with_pending; cbn;
        rewrite lookup_insert_Some; intros [[_ <-]|[_ Hp]].
      * apply pending_ok_insert; [apply Hself|exact Hm|done..].
      * by eapply (proj1 Hself).
      * by apply Hparts.
      * by eapply (proj2 Hself).
Qed.
End valid_inbox.
