(* ===== verification/Wire.v ===== *)
(** * Wire encoding of protected parts (crates/apc-sync/src/wire.rs)

    The transport-facing encoding is canonical: decoding a byte string and
    encoding the part are inverse to each other. *)
From Stdlib Require Import Lia NArith Strings.Byte.
From stdpp Require Import base tactics option list gmap numbers.
From S2P Require Import Prelude BTree Bytes Id Error Reader Projection Crypto Protected.
Local Open Scope N_scope.

Definition MAGIC : list byte := b_ "APCSPRT1".
Definition VERSION : N := 1.
Definition HEADER_BYTES : N := len MAGIC + 2 + N.of_nat PUBLICATION_ID_BYTES + 4 + 4 + 8.

Inductive ProtectedPartCodecError : Type :=
  | InvalidMagic
  | UnsupportedVersion (version : N)
  | UnexpectedEof
  | LengthOverflow
  | InvalidMultipartMetadata
  | LengthMismatch.

#[export] Instance ProtectedPartCodecError_eq_dec : EqDecision ProtectedPartCodecError.
Proof. solve_decision. Defined.

#[export] Instance wire_read_error : ReadError ProtectedPartCodecError := {|
  length_overflow := LengthOverflow;
  unexpected_eof := UnexpectedEof;
|}.

Definition validate_metadata (part_index total_parts : N) : result ProtectedPartCodecError unit :=
  if decide (total_parts = 0 ∨ total_parts ≤ part_index) then Err InvalidMultipartMetadata
  else Ok tt.

Definition encode_protected_sync_part (part : ProtectedSyncPart) :
    result ProtectedPartCodecError (list byte) :=
  _ ← validate_metadata (part_index part) (total_parts part);
  payload_len ← ok_or LengthOverflow (u64_try_from (len (payload part)));
  Ok (MAGIC ++ be_bytes 2 VERSION ++ id_slice (publication_id part) ++
      be_bytes 4 (part_index part) ++ be_bytes 4 (total_parts part) ++
      be_bytes 8 payload_len ++ payload part).

Definition decode_fields : stateful Reader ProtectedPartCodecError ProtectedSyncPart :=
  version ← Reader.read_u16;
  if decide (version ≠ VERSION) then throw (UnsupportedVersion version) else
  publication_id ← Reader.read_id;
  part_index ← Reader.read_u32;
  total_parts ← Reader.read_u32;
  _ ← lift_result (validate_metadata part_index total_parts);
  payload_len ← Reader.read_len;
  reader ← get_state;
  if decide (Reader.remaining reader ≠ payload_len) then throw LengthMismatch else
  payload ← Reader.read_exact payload_len;
  mret (ProtectedSyncPart_mk publication_id part_index total_parts payload).

Definition decode_protected_sync_part (encoded : list byte) :
    result ProtectedPartCodecError ProtectedSyncPart :=
  if decide (len encoded < HEADER_BYTES) then Err UnexpectedEof else
  magic ← slice encoded 0 (len MAGIC);
  if decide (magic ≠ MAGIC) then Err InvalidMagic else
  fields ← slice encoded (len MAGIC) (len encoded);
  run_reader decode_fields fields.

(** ** Theory *)

(** The values a part's integer fields can hold. *)
Definition part_fits (part : ProtectedSyncPart) : Prop :=
  part_index part ≤ u32_max ∧ total_parts part ≤ u32_max.

Lemma validate_metadata_Ok i t u : validate_metadata i t = Ok u ↔ i < t.
Proof. destruct u. unfold validate_metadata. case_decide; split; done || lia. Qed.

Lemma validate_metadata_Panic i t : validate_metadata i t ≠ Panic.
Proof. unfold validate_metadata. by case_decide. Qed.

(** The fields after the magic. *)
Definition g_fields : grammar ProtectedSyncPart := λ c part,
  part_index part < total_parts part ∧ part_fits part ∧ len (payload part) ≤ u64_max ∧
  c = be_bytes 2 VERSION ++ id_slice (publication_id part) ++
      be_bytes 4 (part_index part) ++ be_bytes 4 (total_parts part) ++
      be_bytes 8 (len (payload part)) ++ payload part.

Lemma decodes_fields : decodes decode_fields g_fields.
Proof.
  eapply decodes_ext.
  - apply decodes_bind; [apply (accepts_read_be 2)|]. intros _ version _. apply decodes_require.
    apply decodes_bind; [apply accepts_read_id|]. intros _ pid _.
    apply decodes_bind; [apply (accepts_read_be 4)|]. intros _ i _.
    apply decodes_bind; [apply (accepts_read_be 4)|]. intros _ t _.
    apply decodes_bind; [apply accepts_lift, validate_metadata_Panic|]. intros _ u _.
    apply decodes_bind; [apply accepts_read_len|]. intros _ n _.
    apply decodes_remaining.
  - intros c [pid i t pay]. unfold g_fields, part_fits, u32_max. cbn. split.
    + intros (? & ? & v & -> & [_ ->] & -> & ? & ? & p & -> & -> & ? & ? & i' & -> & [Hi ->] &
        ? & ? & t' & -> & [Ht ->] & ? & ? & u & -> & [-> Hv%validate_metadata_Ok] &
        ? & cp & n & -> & [Hn ->] & <- & [= -> -> -> ->]).
      cbn in *. split; [done|]. split; [lia|]. done.
    + intros (Hit & [Hi Ht] & Hn & ->).
      exists (be_bytes 2 VERSION). eexists _, VERSION. split; [done|]. split; [done|]. split; [done|].
      exists (id_slice pid). eexists _, pid. split; [done|]. split; [done|].
      exists (be_bytes 4 i). eexists _, i. split; [done|]. split; [split; [lia|done]|].
      exists (be_bytes 4 t). eexists _, t. split; [done|]. split; [split; [lia|done]|].
      exists []. eexists _, tt. split; [done|]. split; [split; [done|by apply validate_metadata_Ok]|].
      exists (be_bytes 8 (len pay)), pay, (len pay). done.
Qed.

Lemma encode_part_Ok part encoded :
  encode_protected_sync_part part = Ok encoded ↔
  part_index part < total_parts part ∧ len (payload part) ≤ u64_max ∧
  encoded = MAGIC ++ be_bytes 2 VERSION ++ id_slice (publication_id part) ++
      be_bytes 4 (part_index part) ++ be_bytes 4 (total_parts part) ++
      be_bytes 8 (len (payload part)) ++ payload part.
Proof.
  unfold encode_protected_sync_part, u64_try_from. split.
  - intros He. apply bind_Ok in He as (u & Hm%validate_metadata_Ok & He).
    case_decide; simplify_eq/=. done.
  - intros (Hm & Hlen & ->). rewrite (proj2 (validate_metadata_Ok _ _ tt) Hm). cbn [mbind result_bind].
    by rewrite decide_True.
Qed.

Lemma decode_part_spec encoded :
  len encoded ≤ isize_max →
  decode_protected_sync_part encoded ≠ Panic ∧
  ∀ part, decode_protected_sync_part encoded = Ok part ↔
    part_fits part ∧ encode_protected_sync_part part = Ok encoded.
Proof.
  intros Hlen. unfold decode_protected_sync_part.
  destruct (decodes_magic (P := False) MAGIC encoded HEADER_BYTES UnexpectedEof InvalidMagic decode_fields g_fields)
    as [Hnp Ho]; [done| |apply decodes_fields|done|].
  - intros c a (_ & _ & _ & ->). change HEADER_BYTES with 58. change (len MAGIC) with 8.
    rewrite !len_app, len_id_slice, !len_be_bytes. lia.
  - split; [done|]. intros part. rewrite Ho, encode_part_Ok. unfold g_fields. naive_solver.
Qed.
