(* ===== verification/Recovery.v ===== *)
(** * Durable sync records (crates/apc-sync/src/recovery.rs)

    The recovery unit of synchronization: opaque trusted state, the applied
    transport cursor and the outbox of protected publications, with its codec. *)
From Stdlib Require Import Lia NArith Strings.Byte.
From stdpp Require Import base tactics option list gmap numbers.
From S2P Require Import Prelude BTree Bytes Id Reader Protected.
Local Open Scope N_scope.

Definition MAGIC : list byte := b_ "APCSREC1".
Definition VERSION : N := 1.

Inductive SyncRecoveryError : Type :=
  | InvalidMagic
  | UnsupportedVersion (version : N)
  | UnexpectedEof
  | LengthOverflow
  | TrailingBytes
  | InvalidBoolean
  | EmptyTransportCursor
  | EmptyOutbox
  | EmptyOutboxObject
  | DuplicatePublication
  | PublicationIdentityCollision
  | UnknownOutboxPublication.

#[export] Instance SyncRecoveryError_eq_dec : EqDecision SyncRecoveryError.
Proof. solve_decision. Defined.

#[export] Instance recovery_read_error : ReadError SyncRecoveryError := {|
  length_overflow := LengthOverflow;
  unexpected_eof := UnexpectedEof;
|}.

Record TransportCursor : Type := TransportCursor_mk {
  cursor_bytes : list byte;
}.

#[export] Instance TransportCursor_eq_dec : EqDecision TransportCursor.
Proof. solve_decision. Defined.

Module TransportCursor.
Definition new (bytes : list byte) : result SyncRecoveryError TransportCursor :=
  if decide (bytes = []) then Err EmptyTransportCursor else Ok (TransportCursor_mk bytes).
End TransportCursor.

Record DurableOutboxEntry : Type := DurableOutboxEntry_mk {
  entry_publication_id : PublicationId;
  expected_cursor : option TransportCursor;
  objects : list (list byte);
}.

#[export] Instance DurableOutboxEntry_eq_dec : EqDecision DurableOutboxEntry.
Proof. solve_decision. Defined.

Record DurableSyncRecord : Type := DurableSyncRecord_mk {
  trusted_state : list byte;
  applied_cursor : option TransportCursor;
  outbox : gmap PublicationId DurableOutboxEntry;
}.

#[export] Instance DurableSyncRecord_eq_dec : EqDecision DurableSyncRecord.
Proof. solve_decision. Defined.

Definition validate_objects (objects : list (list byte)) : result SyncRecoveryError unit :=
  if decide (objects = []) then Err EmptyOutbox
  else if existsb (λ object, bool_decide (object = [])) objects then Err EmptyOutboxObject
  else Ok tt.

Module DurableSyncRecord.
Implicit Types self : DurableSyncRecord.

Definition new (trusted_state : list byte) (applied_cursor : option TransportCursor) :
    DurableSyncRecord :=
  DurableSyncRecord_mk trusted_state applied_cursor ∅.

Definition prepare_outbox (exposed_trusted_state : list byte) (publication_id : PublicationId)
    (expected_cursor : option TransportCursor) (objects : list (list byte)) :
    stateful DurableSyncRecord SyncRecoveryError unit :=
  _ ← lift_result (validate_objects objects);
  let entry := DurableOutboxEntry_mk publication_id expected_cursor objects in
  self ← get_state;
  match outbox self !! publication_id with
  | Some existing =>
      if decide (existing = entry) then
        put_state (DurableSyncRecord_mk exposed_trusted_state (applied_cursor self) (outbox self))
      else throw PublicationIdentityCollision
  | None =>
      put_state (DurableSyncRecord_mk exposed_trusted_state (applied_cursor self)
        (<[publication_id := entry]> (outbox self)))
  end.

Definition apply_received (merged_trusted_state : list byte) (new_cursor : TransportCursor) self :
    DurableSyncRecord :=
  DurableSyncRecord_mk merged_trusted_state (Some new_cursor) (outbox self).

Definition retire_outbox (publication_id : PublicationId) (reconciled_trusted_state : list byte)
    (new_cursor : TransportCursor) : stateful DurableSyncRecord SyncRecoveryError unit :=
  self ← get_state;
  match outbox self !! publication_id with
  | None => throw UnknownOutboxPublication
  | Some _ =>
      put_state (DurableSyncRecord_mk reconciled_trusted_state (Some new_cursor)
        (delete publication_id (outbox self)))
  end.
End DurableSyncRecord.

(** ** Encoding *)
Definition write_optional_cursor (cursor : option TransportCursor) :
    stateful (list byte) SyncRecoveryError unit :=
  match cursor with
  | Some cursor => _ ← extend [x01]; write_bytes (cursor_bytes cursor)
  | None => extend [x00]
  end.

Definition write_entry (entry : DurableOutboxEntry) : stateful (list byte) SyncRecoveryError unit :=
  _ ← extend (id_slice (entry_publication_id entry));
  _ ← write_optional_cursor (expected_cursor entry);
  _ ← write_len (len (objects entry));
  write_each write_bytes (objects entry).

Definition encode_durable_sync_record (record : DurableSyncRecord) :
    result SyncRecoveryError (list byte) :=
  run_writer
    (_ ← extend MAGIC;
     _ ← extend (be_bytes 2 VERSION);
     _ ← write_bytes (trusted_state record);
     _ ← write_optional_cursor (applied_cursor record);
     _ ← write_len (N.of_nat (size (outbox record)));
     write_each write_entry (values_asc (outbox record))).

(** ** Decoding *)

(** [Vec::<Vec<u8>>::with_capacity(count)]: each element takes 24 bytes, and an
    allocation beyond [isize::MAX] bytes panics. *)
Definition VEC_BYTES : N := 24.
Definition with_capacity {E : Type} (count : N) : result E unit :=
  if decide (VEC_BYTES * count ≤ isize_max) then Ok tt else Panic.

Definition read_optional_cursor : stateful Reader SyncRecoveryError (option TransportCursor) :=
  flag ← Reader.read_u8;
  if decide (flag = 0) then mret None
  else if decide (flag = 1) then
    bytes ← Reader.read_vec;
    cursor ← lift_result (TransportCursor.new bytes);
    mret (Some cursor)
  else throw InvalidBoolean.

Definition read_object (objects : list (list byte)) :
    stateful Reader SyncRecoveryError (list (list byte)) :=
  object ← Reader.read_vec;
  if decide (object = []) then throw EmptyOutboxObject else mret (objects ++ [object]).

Definition read_entry (outbox : gmap PublicationId DurableOutboxEntry) :
    stateful Reader SyncRecoveryError (gmap PublicationId DurableOutboxEntry) :=
  publication_id ← Reader.read_id;
  expected_cursor ← read_optional_cursor;
  object_count ← Reader.read_len;
  if decide (object_count = 0) then throw EmptyOutbox else
  _ ← lift_result (with_capacity object_count);
  objects ← repeat_n read_object object_count [];
  let entry := DurableOutboxEntry_mk publication_id expected_cursor objects in
  match outbox !! publication_id with
  | Some _ => throw DuplicatePublication
  | None => mret (<[publication_id := entry]> outbox)
  end.

Definition decode_record_fields : stateful Reader SyncRecoveryError DurableSyncRecord :=
  version ← Reader.read_u16;
  if decide (version ≠ VERSION) then throw (UnsupportedVersion version) else
  trusted_state ← Reader.read_vec;
  applied_cursor ← read_optional_cursor;
  outbox_len ← Reader.read_len;
  outbox ← repeat_n read_entry outbox_len ∅;
  reader ← get_state;
  if decide (Reader.remaining reader ≠ 0) then throw TrailingBytes
  else mret (DurableSyncRecord_mk trusted_state applied_cursor outbox).

Definition decode_durable_sync_record (encoded : list byte) :
    result SyncRecoveryError DurableSyncRecord :=
  if decide (len encoded < len MAGIC + 2) then Err UnexpectedEof else
  magic ← slice encoded 0 (len MAGIC);
  if decide (magic ≠ MAGIC) then Err InvalidMagic else
  fields ← slice encoded (len MAGIC) (len encoded);
  run_reader decode_record_fields fields.

(** ** The grammar of the format *)
Definition g_cursor : grammar (option TransportCursor) := λ c o,
  match o with
  | None => c = [x00]
  | Some cursor => cursor_bytes cursor ≠ [] ∧ ∃ c1, c = x01 :: c1 ∧ g_bytes c1 (cursor_bytes cursor)
  end.

Definition g_object : grammar (list byte) := λ c object, object ≠ [] ∧ g_bytes c object.

Definition g_entry : grammar DurableOutboxEntry := λ c e,
  objects e ≠ [] ∧ VEC_BYTES * len (objects e) ≤ isize_max ∧
  ∃ c1 c2, c = id_slice (entry_publication_id e) ++ c1 ++ c2 ∧ g_cursor c1 (expected_cursor e) ∧
    g_counted g_object c2 (objects e).

Definition g_record : grammar DurableSyncRecord := λ c r,
  ∃ c1 c2 c3 l, c = be_bytes 2 VERSION ++ c1 ++ c2 ++ c3 ∧ g_bytes c1 (trusted_state r) ∧
    g_cursor c2 (applied_cursor r) ∧ g_counted g_entry c3 l ∧
    NoDup (entry_publication_id <$> l) ∧
    outbox r = list_to_map ((λ e, (entry_publication_id e, e)) <$> l).

(** ** The readers accept the grammar *)
Lemma be_bytes_8 n : n < 256 → be_bytes 1 n = [byte_of_N n].
Proof. done. Qed.

Lemma accepts_cursor {P : Prop} : accepts_under P read_optional_cursor g_cursor.
Proof.
  eapply accepts_ext.
  - apply accepts_bind; [apply (accepts_read_be 1)|]. intros _ flag _.
    apply accepts_if; [apply accepts_ret|]. apply accepts_if; [|apply accepts_throw].
    apply accepts_bind; [apply accepts_read_vec|]. intros _ bytes _.
    apply accepts_bind; [apply accepts_lift; unfold TransportCursor.new; by case_decide|].
    intros _ cursor _. apply accepts_ret.
  - intros c o. cbn. split.
    + intros (? & c1 & flag & -> & [_ ->] & Hc). case_decide as H0.
      { destruct Hc as [-> ->]. rewrite H0. done. }
      case_decide as H1; [|done]. rewrite H1.
      destruct Hc as (c2 & ? & bytes & -> & Hb & ? & ? & cur & -> & [-> Hn] & -> & ->).
      unfold TransportCursor.new in Hn. case_decide; simplify_eq. cbn.
      split; [done|]. exists c2. by rewrite !app_nil_r.
    + destruct o as [[bytes]|]; cbn.
      * intros (Hne & c1 & -> & Hb). exists [x01], c1, 1. split; [done|]. split; [done|].
        rewrite decide_False, decide_True by done. exists c1, [], bytes. rewrite app_nil_r.
        split; [done|]. split; [done|]. exists [], [], (TransportCursor_mk bytes).
        split; [done|]. split; [|done]. split; [done|]. unfold TransportCursor.new.
        by rewrite decide_False.
      * intros ->. exists [x00], [], 0. split; [done|]. split; [done|]. by rewrite decide_True.
Qed.

Lemma accepts_object {P : Prop} l :
  accepts_under P (read_object l) (λ c l', ∃ o, g_object c o ∧ Some (l ++ [o]) = Some l').
Proof.
  eapply accepts_ext.
  - apply (accepts_item _ g_bytes _ (λ o, if decide (o = []) then None else Some (l ++ [o])));
      [apply accepts_read_vec|]. intros o. case_decide; eauto.
  - intros c l'. unfold g_object. split; intros (o & Ho & Hl); exists o; case_decide; naive_solver.
Qed.

Lemma accepts_entry m :
  accepts_under True (read_entry m)
    (λ c m', ∃ e, g_entry c e ∧ map_add m (entry_publication_id e, e) = Some m').
Proof.
  eapply accepts_ext.
  - apply accepts_bind; [apply accepts_read_id|]. intros _ pid _.
    apply accepts_bind; [apply accepts_cursor|]. intros _ cursor _.
    apply accepts_bind; [apply accepts_read_len|]. intros _ count _.
    apply accepts_if; [apply accepts_throw|].
    apply accepts_bind; [by apply accepts_lift|]. intros _ u _.
    apply (accepts_item _ (g_iter (λ b c b', ∃ o, g_object c o ∧ Some (b ++ [o]) = Some b')
      (N.to_nat count) []) _ (λ objs, map_add m (pid, DurableOutboxEntry_mk pid cursor objs)));
      [apply accepts_repeat, accepts_object|].
    intros objs. unfold map_add; cbn. destruct (m !! pid); eauto.
  - intros c m'. unfold g_entry, with_capacity. cbn. split.
    + intros (? & ? & pid & -> & -> & c1 & ? & cur & -> & Hcur & ? & c2 & n & -> & [Hn ->] & Hc).
      case_decide as Hz; [done|].
      destruct Hc as (? & c3 & u & -> & [-> Hcap] & objs & Hit & Hadd).
      apply g_iter_push in Hit as (l & Hl & Hobjs & ->).
      case_decide as Hcap'; [|done]. assert (n = len l) as -> by (unfold len; lia).
      exists (DurableOutboxEntry_mk pid cur l). split; [|done]. cbn.
      split; [by intros ->|]. split; [done|]. eexists c1, _. split; [done|]. split; [done|].
      split; [done|]. by exists c3.
    + intros ([pid cur l] & (Hne & Hcap & c1 & c2 & -> & Hcur & Hlen & c3 & -> & Hobjs) & Hadd).
      cbn in *. exists (id_slice pid). eexists _, pid. split; [done|]. split; [done|].
      exists c1. eexists _, cur. split; [done|]. split; [done|].
      exists (be_bytes 8 (len l)), c3, (len l). split; [done|]. split; [done|].
      rewrite decide_False by (intros Hz%len_nil_inv; done).
      exists [], c3, tt. split; [done|]. split; [split; [done|]; by rewrite decide_True|].
      exists l. split; [|done]. apply g_iter_push. exists l. split; [unfold len; lia|done].
Qed.

Lemma fold_entries l m :
  foldl (λ o e, b ← o; map_add b (entry_publication_id e, e)) (Some ∅) l = Some m ↔
  NoDup (entry_publication_id <$> l) ∧
  m = list_to_map ((λ e, (entry_publication_id e, e)) <$> l).
Proof.
  rewrite <-(foldl_fmap (λ o x, b ← o; map_add b x) (Some ∅) l
    (λ e, (entry_publication_id e, e))).
  rewrite foldl_map_add, map_union_empty, <-list_fmap_compose. cbn.
  split; [intros (? & _ & ?); done|]. intros [? ?]. split; [done|]. split; [|done].
  intros k _. by rewrite lookup_empty.
Qed.

Lemma decodes_record : decodes_under True decode_record_fields g_record.
Proof.
  eapply decodes_ext.
  - apply decodes_bind; [apply (accepts_read_be 2)|]. intros _ version _. apply decodes_require.
    apply decodes_bind; [apply accepts_read_vec|]. intros _ state _.
    apply decodes_bind; [apply accepts_cursor|]. intros _ cursor _.
    eapply decodes_eq; [intros r; apply st_bind_assoc|].
    apply decodes_bind.
    { apply (accepts_counted g_entry (λ m e, map_add m (entry_publication_id e, e))), accepts_entry. }
    intros _ m _. apply (decodes_empty TrailingBytes).
  - intros c [state cursor m]. unfold g_record. cbn. split.
    + intros (? & ? & v & -> & [_ ->] & -> & c1 & ? & st & -> & Hst & c2 & ? & cur & -> & Hcur &
        c3 & ? & m' & -> & (l & Hl & Hf) & -> & [= -> -> ->]).
      rewrite app_nil_r. exists c1, c2, c3, l. split; [done|]. split; [done|]. split; [done|].
      split; [done|]. by apply fold_entries in Hf.
    + intros (c1 & c2 & c3 & l & -> & Hst & Hcur & Hl & Hnd & ->).
      exists (be_bytes 2 VERSION). eexists _, VERSION. split; [done|]. split; [done|]. split; [done|].
      exists c1. eexists _, state. split; [done|]. split; [done|].
      exists c2. eexists _, cursor. split; [done|]. split; [done|].
      exists c3, []. eexists. rewrite app_nil_r. split; [done|]. split; [|done].
      exists l. split; [done|]. by apply fold_entries.
Qed.

(** ** The whole decoder and encoder *)
Lemma g_record_len c r : g_record c r → 2 ≤ len c.
Proof.
  intros (c1 & c2 & c3 & l & -> & _). rewrite len_app, len_be_bytes. lia.
Qed.

Lemma decode_record_spec encoded r :
  len encoded ≤ isize_max →
  decode_durable_sync_record encoded = Ok r ↔ ∃ c, encoded = MAGIC ++ c ∧ g_record c r.
Proof.
  intros Hlen. apply (decodes_magic (P := True) MAGIC encoded (len MAGIC + 2) UnexpectedEof InvalidMagic
    decode_record_fields g_record); [|intros c a Hc%g_record_len|apply decodes_record|done].
  - by vm_compute.
  - lia.
Qed.

Definition cursor_ok (o : option TransportCursor) : Prop :=
  ∀ cursor, o = Some cursor → cursor_bytes cursor ≠ [].

Definition entry_ok (e : DurableOutboxEntry) : Prop :=
  cursor_ok (expected_cursor e) ∧ objects e ≠ [] ∧ ∀ o, o ∈ objects e → o ≠ [].

(** The records the operations build. *)
Definition record_ok (r : DurableSyncRecord) : Prop :=
  cursor_ok (applied_cursor r) ∧
  ∀ pid e, outbox r !! pid = Some e → entry_publication_id e = pid ∧ entry_ok e.

Definition cursor_fits (o : option TransportCursor) : Prop :=
  ∀ cursor, o = Some cursor → len (cursor_bytes cursor) ≤ u64_max.

Definition entry_fits (e : DurableOutboxEntry) : Prop :=
  cursor_fits (expected_cursor e) ∧ len (objects e) ≤ u64_max ∧
  ∀ o, o ∈ objects e → len o ≤ u64_max.

Definition record_fits (r : DurableSyncRecord) : Prop :=
  len (trusted_state r) ≤ u64_max ∧ cursor_fits (applied_cursor r) ∧
  N.of_nat (size (outbox r)) ≤ u64_max ∧ ∀ pid e, outbox r !! pid = Some e → entry_fits e.

(** The decoder's vectors can be allocated. *)
Definition record_allocates (r : DurableSyncRecord) : Prop :=
  ∀ pid e, outbox r !! pid = Some e → VEC_BYTES * len (objects e) ≤ isize_max.

Lemma writes_cursor o :
  cursor_ok o → writes (write_optional_cursor o) (cursor_fits o) (λ enc, g_cursor enc o).
Proof.
  intros Hok. unfold write_optional_cursor, cursor_fits. destruct o as [cursor|].
  - eapply writes_ext; [apply writes_bind; [apply writes_extend|apply writes_bytes]|naive_solver|].
    intros enc (e1 & e2 & -> & -> & Hb). split; [by apply Hok|]. by exists e2.
  - eapply writes_ext; [apply writes_extend|naive_solver|]. intros enc ->. done.
Qed.

Lemma writes_entry e :
  entry_ok e → VEC_BYTES * len (objects e) ≤ isize_max →
  writes (write_entry e) (entry_fits e) (λ enc, g_entry enc e).
Proof.
  intros (Hcur & Hne & Hobjs) Hcap. eapply writes_ext.
  - apply writes_bind; [apply writes_extend|]. apply writes_bind; [by apply writes_cursor|].
    apply (writes_counted write_bytes (λ o, len o ≤ u64_max) g_object).
    intros o Ho. eapply writes_ext; [apply writes_bytes|done|]. intros enc Henc.
    split; [by apply Hobjs|done].
  - unfold entry_fits. naive_solver.
  - intros enc (e1 & e2 & -> & -> & e3 & e4 & -> & Hc & Ho). split; [done|]. split; [done|].
    by exists e3, e4.
Qed.

Lemma encode_record_spec r :
  record_ok r → record_allocates r →
  (is_ok (encode_durable_sync_record r) ↔ record_fits r) ∧
  encode_durable_sync_record r ≠ Panic ∧
  ∀ enc, encode_durable_sync_record r = Ok enc → ∃ c, enc = MAGIC ++ c ∧ g_record c r.
Proof.
  intros [Hcur Hout] Hcap. apply run_writer_spec.
  assert (N.of_nat (size (outbox r)) = len (values_asc (outbox r))) as ->.
  { unfold len, values_asc. by rewrite length_fmap, length_entries_asc. }
  eapply writes_ext.
  - apply writes_bind; [apply writes_extend|]. apply writes_bind; [apply writes_extend|].
    apply writes_bind; [apply writes_bytes|]. apply writes_bind; [by apply writes_cursor|].
    apply (writes_counted write_entry entry_fits g_entry).
    intros e [pid He]%elem_of_values_asc. apply writes_entry; [by apply (Hout pid)|by eapply Hcap].
  - unfold record_fits. setoid_rewrite elem_of_values_asc.
    unfold len, values_asc. rewrite length_fmap, length_entries_asc. naive_solver.
  - intros enc (e1 & e2 & -> & -> & e3 & e4 & -> & -> & c1 & e5 & -> & Hst & c2 & c3 & -> & Hc & Hl).
    eexists. split; [done|]. exists c1, c2, c3, (values_asc (outbox r)).
    split; [done|]. split; [done|]. split; [done|]. split; [done|].
    assert ((λ e, (entry_publication_id e, e)) <$> values_asc (outbox r) = entries_asc (outbox r))
      as Heq.
    { unfold values_asc. rewrite <-list_fmap_compose. rewrite <-(list_fmap_id (entries_asc _)) at 2.
      apply list_fmap_ext. intros i [pid e] Hi. cbn.
      assert ((pid, e) ∈ entries_asc (outbox r)) as He%elem_of_entries_asc by by eapply list_elem_of_lookup_2.
      by destruct (Hout pid e He) as [-> _]. }
    assert (entry_publication_id <$> values_asc (outbox r) = (entries_asc (outbox r)).*1) as ->.
    { rewrite <-Heq, <-list_fmap_compose. by apply list_fmap_ext. }
    rewrite Heq. split; [apply NoDup_entries_asc|]. by rewrite list_to_map_entries_asc.
Qed.

(** What is decoded is well formed. *)
Lemma g_record_ok c r : g_record c r → record_ok r ∧ record_allocates r.
Proof.
  intros (c1 & c2 & c3 & l & _ & _ & Hc & (_ & c4 & _ & cs & Hcs & _) & Hnd & Hout).
  assert (∀ c o, g_cursor c o → cursor_ok o) as Hcur.
  { intros c0 o Ho cursor ->. by destruct Ho as [? _]. }
  assert (∀ pid e, outbox r !! pid = Some e → entry_publication_id e = pid ∧ ∃ c, g_entry c e) as Hin.
  { intros pid e. rewrite Hout. intros He.
    apply elem_of_list_to_map_2, list_elem_of_fmap in He as (e' & [= -> ->] & He).
    split; [done|]. apply list_elem_of_lookup in He as [i Hi].
    destruct (Forall2_lookup_r _ _ _ _ _ Hcs Hi) as (c0 & _ & He). by exists c0. }
  split; [split; [by eapply Hcur|]|].
  - intros pid e He. destruct (Hin pid e He) as (Hpid & c0 & Hne & _ & c5 & c6 & _ & Hc5 & Hobjs).
    split; [done|]. split; [by eapply Hcur|]. split; [done|].
    intros o Ho. destruct Hobjs as (_ & c7 & _ & cs' & Hcs' & _).
    apply list_elem_of_lookup in Ho as [i Hi].
    by destruct (Forall2_lookup_r _ _ _ _ _ Hcs' Hi) as (? & _ & ? & _).
  - intros pid e He. destruct (Hin pid e He) as (_ & c0 & _ & Hcap & _). done.
Qed.

(** ** The operations *)
Lemma validate_objects_Ok objs u :
  validate_objects objs = Ok u ↔ objs ≠ [] ∧ ∀ o, o ∈ objs → o ≠ [].
Proof.
  destruct u. unfold validate_objects. case_decide as Hne; [naive_solver|].
  destruct (existsb _ objs) eqn:He.
  - split; [done|]. intros [_ Hall]. apply existsb_exists in He as (o & Ho & Hb).
    apply bool_decide_eq_true in Hb. apply list_elem_of_In in Ho. by apply Hall in Ho.
  - split; [|done]. intros _. split; [done|]. intros o Ho ->.
    assert (existsb (λ object : list byte, bool_decide (object = [])) objs = true) as Ht; [|congruence].
    apply existsb_exists. exists []. split; [by apply list_elem_of_In|done].
Qed.

Lemma validate_objects_Panic objs : validate_objects objs ≠ Panic.
Proof. unfold validate_objects. case_decide; [done|]. by destruct (existsb _ _). Qed.

(** [prepare_outbox] on every branch: an error changes nothing, and a
    publication identity is bound to one entry forever. *)
Lemma prepare_outbox_cases st pid cur objs r :
  DurableSyncRecord.prepare_outbox st pid cur objs r =
  match validate_objects objs with
  | Ok _ =>
      let entry := DurableOutboxEntry_mk pid cur objs in
      if decide (outbox r !! pid = None ∨ outbox r !! pid = Some entry) then
        (DurableSyncRecord_mk st (applied_cursor r) (<[pid := entry]> (outbox r)), Ok tt)
      else (r, Err PublicationIdentityCollision)
  | Err e => (r, Err e)
  | Panic => (r, Panic)
  end.
Proof.
  unfold DurableSyncRecord.prepare_outbox. run_st.
  destruct (validate_objects objs) as [[]| |]; [|done..]. run_st. cbn zeta.
  destruct (outbox r !! pid) as [e|] eqn:He.
  - destruct (decide (e = DurableOutboxEntry_mk pid cur objs)) as [->|Hne].
    + rewrite decide_True by auto. run_st. by rewrite insert_id.
    + rewrite decide_False by naive_solver. done.
  - by rewrite decide_True by auto.
Qed.

Lemma prepare_outbox_ok st pid cur objs r :
  cursor_ok cur → record_ok r → record_ok (DurableSyncRecord.prepare_outbox st pid cur objs r).1.
Proof.
  intros Hcur [Happ Hout]. rewrite prepare_outbox_cases.
  destruct (validate_objects objs) as [u| |] eqn:Hv; [|done..]. apply validate_objects_Ok in Hv as [Hne Hall].
  cbn zeta. case_decide; [|done]. split; [done|]. intros pid' e. cbn.
  rewrite lookup_insert_Some. intros [[<- <-]|[_ He]]; [|by apply Hout]. done.
Qed.

Lemma retire_outbox_cases pid st cur r :
  DurableSyncRecord.retire_outbox pid st cur r =
  match outbox r !! pid with
  | Some _ => (DurableSyncRecord_mk st (Some cur) (delete pid (outbox r)), Ok tt)
  | None => (r, Err UnknownOutboxPublication)
  end.
Proof. unfold DurableSyncRecord.retire_outbox. run_st. by destruct (outbox r !! pid). Qed.

Lemma retire_outbox_ok pid st cur r :
  cursor_bytes cur ≠ [] → record_ok r → record_ok (DurableSyncRecord.retire_outbox pid st cur r).1.
Proof.
  intros Hcur [Happ Hout]. rewrite retire_outbox_cases. destruct (outbox r !! pid); [|done].
  split; [by intros ? [= <-]|]. intros pid' e. cbn. rewrite lookup_delete_Some. intros [_ He]. by apply Hout.
Qed.

Lemma apply_received_ok st cur r :
  cursor_bytes cur ≠ [] → record_ok r → record_ok (DurableSyncRecord.apply_received st cur r).
Proof. intros Hcur [Happ Hout]. split; [by intros ? [= <-]|done]. Qed.

(** ** Sizes

    How many bytes a record is encoded in. *)
Definition sum_N (l : list N) : N := foldr N.add 0 l.

Definition cursor_size (o : option TransportCursor) : N :=
  match o with Some cursor => 9 + len (cursor_bytes cursor) | None => 1 end.
Definition entry_size (e : DurableOutboxEntry) : N :=
  N.of_nat LOGICAL_ID_BYTES + cursor_size (expected_cursor e) + 8 + sum_N ((λ o, 8 + len o) <$> objects e).
Definition record_size (r : DurableSyncRecord) : N :=
  18 + len (trusted_state r) + cursor_size (applied_cursor r) + 8 + sum_N (entry_size <$> values_asc (outbox r)).

Lemma g_counted_size {A} (size : A → N) c l :
  g_counted (λ c a, len c = size a) c l → len c = 8 + sum_N (size <$> l).
Proof.
  intros (_ & c1 & -> & cs & Hcs & ->). rewrite len_app, len_be_bytes. f_equal.
  induction Hcs as [|c a cs l Hc _ IH]; cbn; [done|]. by rewrite len_app, Hc, IH.
Qed.

Lemma writes_bytes_size v :
  writes (E := SyncRecoveryError) (write_bytes v) (len v ≤ u64_max) (λ enc, len enc = 8 + len v).
Proof. eapply writes_ext; [apply writes_bytes|done|]. intros c [_ ->]. by rewrite len_app, len_be_bytes. Qed.

Lemma writes_cursor_size o : writes (write_optional_cursor o) (cursor_fits o) (λ enc, len enc = cursor_size o).
Proof.
  unfold cursor_fits. destruct o as [cursor|]; cbn [write_optional_cursor].
  - eapply writes_ext; [apply writes_bind; [apply writes_extend|apply writes_bytes_size]|naive_solver|].
    intros c (e1 & e2 & -> & -> & H). rewrite len_app, H. cbn [cursor_size]. change (len [x01]) with 1. lia.
  - eapply writes_ext; [apply writes_extend|naive_solver|]. by intros c ->.
Qed.

Lemma writes_entry_size e : writes (write_entry e) (entry_fits e) (λ enc, len enc = entry_size e).
Proof.
  eapply writes_ext.
  - apply writes_bind; [apply writes_extend|]. apply writes_bind; [apply writes_cursor_size|].
    apply (writes_counted write_bytes (λ v, len v ≤ u64_max) (λ c v, len c = 8 + len v)). intros v _. apply writes_bytes_size.
  - unfold entry_fits. naive_solver.
  - intros c (e1 & e2 & -> & -> & e3 & e4 & -> & H3 & H4%(g_counted_size (λ o, 8 + len o))). unfold entry_size.
    rewrite !len_app, H3, H4. unfold id_slice. rewrite len_array. lia.
Qed.

Lemma encode_record_size r enc : encode_durable_sync_record r = Ok enc → len enc = record_size r.
Proof.
  assert (N.of_nat (size (outbox r)) = len (values_asc (outbox r))) as Hsize.
  { unfold len, values_asc. by rewrite length_fmap, length_entries_asc. }
  unfold encode_durable_sync_record. rewrite Hsize. revert enc. eapply run_writer_spec, writes_ext.
  - apply writes_bind; [apply writes_extend|]. apply writes_bind; [apply writes_extend|].
    apply writes_bind; [apply writes_bytes_size|]. apply writes_bind; [apply writes_cursor_size|].
    apply (writes_counted write_entry entry_fits (λ c e, len c = entry_size e)). intros e _. apply writes_entry_size.
  - reflexivity.
  - intros enc (e1 & e2 & -> & -> & e3 & e4 & -> & -> & e5 & e6 & -> & H5 & e7 & e8 & -> & H7 & H8%(g_counted_size entry_size)).
    unfold record_size. rewrite !len_app, H5, H7, H8, len_be_bytes. change (len MAGIC) with 8. lia.
Qed.
