(* ===== verification/Transport.v ===== *)
(** * Opaque transports and their guard

    The transport trait (crates/apc-sync/src/transport.rs) and the foreground
    gate around it (crates/apc-sync/src/foreground.rs). *)
From Stdlib Require Import Strings.Byte.
From stdpp Require Import base tactics option list.
From S2P Require Import Prelude BTree Bytes.

Inductive FetchOutcome (R : Type) : Type :=
  | UpToDate (fetched_head : option R)
  | Changed (fetched_head : R) (objects : list (list byte))
  | BaselineUnavailable (fetched_head : option R).
Arguments UpToDate {R} _.
Arguments Changed {R} _ _.
Arguments BaselineUnavailable {R} _.

Inductive PublishOutcome (R : Type) : Type :=
  | Published (published_head : R)
  | Conflict (current_head : option R).
Arguments Published {R} _.
Arguments Conflict {R} _.

Class OpaqueTransport (Tr : Type) := {
  Revision : Type;
  TransportError : Type;
  head : stateful Tr TransportError (option Revision);
  fetch_since : option Revision → stateful Tr TransportError (FetchOutcome Revision);
  publish : option Revision → list (list byte) → stateful Tr TransportError (PublishOutcome Revision);
}.

(** ** The foreground gate

    The lifecycle flag is shared between the application and every guarded
    transport ([Arc<AtomicBool>]); it is one cell of the state, next to the
    transport it guards. *)
Inductive ForegroundTransportError (E : Type) : Type :=
  | Backgrounded
  | Inner (error : E).
Arguments Backgrounded {E}.
Arguments Inner {E} _.

Record ForegroundTransport (Tr : Type) : Type := ForegroundTransport_mk {
  inner : Tr;
  foreground : bool;
}.
Arguments ForegroundTransport_mk {Tr} _ _.
Arguments inner {Tr} _.
Arguments foreground {Tr} _.

Module ForegroundSyncLifecycle.
(** The flag of a new lifecycle: backgrounded. *)
Definition new : bool := false.

Section gate.
Context {Tr : Type}.
Definition enter_foreground (self : ForegroundTransport Tr) : ForegroundTransport Tr :=
  ForegroundTransport_mk (inner self) true.
Definition enter_background (self : ForegroundTransport Tr) : ForegroundTransport Tr :=
  ForegroundTransport_mk (inner self) false.
Definition is_foreground (self : ForegroundTransport Tr) : bool := foreground self.
Definition guard (flag : bool) (transport : Tr) : ForegroundTransport Tr :=
  ForegroundTransport_mk transport flag.
End gate.
End ForegroundSyncLifecycle.

Module ForegroundTransport.
Section ForegroundTransport.
Context {Tr : Type} `{OpaqueTransport Tr}.

Definition ensure_foreground {E : Type} :
    stateful (ForegroundTransport Tr) (ForegroundTransportError E) unit :=
  self ← get_state;
  if foreground self then mret tt else throw Backgrounded.

Definition on_inner {A : Type} (m : stateful Tr TransportError A) :
    stateful (ForegroundTransport Tr) (ForegroundTransportError TransportError) A :=
  on_field inner (λ t self, ForegroundTransport_mk t (foreground self)) (map_err_st Inner m).

Definition guarded_head :
    stateful (ForegroundTransport Tr) (ForegroundTransportError TransportError) (option Revision) :=
  _ ← ensure_foreground;
  on_inner head.

Definition guarded_fetch_since (known_head : option Revision) :
    stateful (ForegroundTransport Tr) (ForegroundTransportError TransportError)
      (FetchOutcome Revision) :=
  _ ← ensure_foreground;
  on_inner (fetch_since known_head).

Definition guarded_publish (expected_head : option Revision) (objects : list (list byte)) :
    stateful (ForegroundTransport Tr) (ForegroundTransportError TransportError)
      (PublishOutcome Revision) :=
  _ ← ensure_foreground;
  on_inner (publish expected_head objects).
End ForegroundTransport.
End ForegroundTransport.

#[export] Instance foreground_transport {Tr : Type} `{OpaqueTransport Tr} :
  OpaqueTransport (ForegroundTransport Tr) := {|
  Revision := Revision;
  TransportError := ForegroundTransportError TransportError;
  head := ForegroundTransport.guarded_head;
  fetch_since := ForegroundTransport.guarded_fetch_since;
  publish := ForegroundTransport.guarded_publish;
|}.

(** ** Theory: in the background no call reaches the transport *)
Section gate_theory.
Context {Tr : Type} `{OpaqueTransport Tr}.
Implicit Types (g : ForegroundTransport Tr).

Lemma gated_call {A} (m : stateful Tr TransportError A) g :
  (_ ← ForegroundTransport.ensure_foreground; ForegroundTransport.on_inner m) g =
  if foreground g then
    (ForegroundTransport_mk (m (inner g)).1 true, map_err Inner (m (inner g)).2)
  else (g, Err Backgrounded).
Proof.
  rewrite st_bind. unfold ForegroundTransport.ensure_foreground. run_st.
  destruct (foreground g) eqn:Hf; [|done]. run_st.
  unfold ForegroundTransport.on_inner, on_field, map_err_st.
  destruct (m (inner g)) as [t r]. by rewrite Hf.
Qed.
End gate_theory.
