(* ===== verification/Session.v ===== *)
(** * Sync sessions (crates/apc-sync/src/session.rs)

    Each durable transition clones the record, persists the next one and only
    then replaces the caller's copy.  The store is the class [SyncRecordStore];
    [SyncRecordStoreLaws] says what a power loss may leave in it. *)
From Stdlib Require Import NArith Strings.Byte.
From stdpp Require Import base tactics option list gmap.
From S2P Require Import Prelude BTree Bytes Id Reader Protected Recovery Transport.

Class SyncRecordStore (St : Type) := {
  StoreError : Type;
  persist : DurableSyncRecord → stateful St StoreError unit;
}.

Class TransportCursorCodec (C R : Type) := {
  CursorError : Type;
  encode : C → R → result CursorError TransportCursor;
  decode : C → TransportCursor → result CursorError R;
}.

Inductive PersistTransitionError (E : Type) : Type :=
  | TransitionRecovery (error : SyncRecoveryError)
  | TransitionStore (error : E).
Arguments TransitionRecovery {E} _.
Arguments TransitionStore {E} _.

Inductive SessionIoError (T C : Type) : Type :=
  | IoRecovery (error : SyncRecoveryError)
  | IoTransport (error : T)
  | IoCursor (error : C).
Arguments IoRecovery {T C} _.
Arguments IoTransport {T C} _.
Arguments IoCursor {T C} _.

Inductive SessionCommitError (S C : Type) : Type :=
  | CommitRecovery (error : SyncRecoveryError)
  | CommitStore (error : S)
  | CommitCursor (error : C).
Arguments CommitRecovery {S C} _.
Arguments CommitStore {S C} _.
Arguments CommitCursor {S C} _.

(** [store.persist(&next)?; *record = next;] *)
Definition persist_and_swap {St E : Type} `{SyncRecordStore St} (wrap : StoreError → E)
    (next : DurableSyncRecord) : stateful (DurableSyncRecord * St) E unit :=
  _ ← on_snd (map_err_st wrap (persist next));
  on_fst (put_state next).

Section session.
Context {St : Type} `{SyncRecordStore St}.

Definition stage_outbound (exposed_trusted_state : list byte) (publication_id : PublicationId)
    (protected_objects : list (list byte)) :
    stateful (DurableSyncRecord * St) (PersistTransitionError StoreError) unit :=
  self ← get_state;
  let record := self.1 in
  let '(next, prepared) := DurableSyncRecord.prepare_outbox exposed_trusted_state publication_id
    (applied_cursor record) protected_objects record in
  _ ← lift_result (map_err TransitionRecovery prepared);
  persist_and_swap TransitionStore next.

Section transport.
Context {Tr C : Type} `{OpaqueTransport Tr} `{!TransportCursorCodec C Revision}.

(** [cursor.map(|cursor| codec.decode(cursor)).transpose()]. *)
Definition decode_cursor (codec : C) (cursor : option TransportCursor) :
    result (SessionIoError TransportError CursorError) (option Revision) :=
  map_err IoCursor (transpose (decode codec <$> cursor)).

Definition publish_staged (record : DurableSyncRecord) (publication_id : PublicationId) (codec : C) :
    stateful Tr (SessionIoError TransportError CursorError) (PublishOutcome Revision) :=
  entry ← lift_result (ok_or (IoRecovery UnknownOutboxPublication) (outbox record !! publication_id));
  expected ← lift_result (decode_cursor codec (expected_cursor entry));
  map_err_st IoTransport (publish expected (objects entry)).

Definition fetch_from_durable_cursor (record : DurableSyncRecord) (codec : C) :
    stateful Tr (SessionIoError TransportError CursorError) (FetchOutcome Revision) :=
  known ← lift_result (decode_cursor codec (applied_cursor record));
  map_err_st IoTransport (fetch_since known).
End transport.

Section commit.
Context {C R : Type} `{!TransportCursorCodec C R}.

Definition commit_received (codec : C) (merged_trusted_state : list byte) (new_head : R) :
    stateful (DurableSyncRecord * St) (SessionCommitError StoreError CursorError) unit :=
  cursor ← lift_result (map_err CommitCursor (encode codec new_head));
  self ← get_state;
  persist_and_swap CommitStore
    (DurableSyncRecord.apply_received merged_trusted_state cursor self.1).

Definition commit_reconciled_outbox (codec : C) (publication_id : PublicationId)
    (reconciled_trusted_state : list byte) (new_head : R) :
    stateful (DurableSyncRecord * St) (SessionCommitError StoreError CursorError) unit :=
  cursor ← lift_result (map_err CommitCursor (encode codec new_head));
  self ← get_state;
  let '(next, retired) :=
    DurableSyncRecord.retire_outbox publication_id reconciled_trusted_state cursor self.1 in
  _ ← lift_result (map_err CommitRecovery retired);
  persist_and_swap CommitStore next.
End commit.
End session.

(** ** What a store promises *)
Class SyncRecordStoreLaws (St : Type) `{SyncRecordStore St} := {
  store_ok : St → Prop;
  (** The records the store can represent. *)
  storable : St → DurableSyncRecord → Prop;
  (** What may be loaded from the store after a power loss. *)
  recoverable_record : St → option DurableSyncRecord → Prop;
  persist_law st record st' res :
    store_ok st → storable st record → persist record st = (st', res) →
    store_ok st' ∧
    (∀ o, recoverable_record st' o → recoverable_record st o ∨ o = Some record) ∧
    (res = Ok tt → ∀ o, recoverable_record st' o → o = Some record);
}.

(** ** Transitions *)

Section transitions.
Context {St : Type} `{SyncRecordStore St}.

(** The common shape of the durable operations. *)
Definition run_transition {E : Type} (wrap : StoreError → E)
    (stage : DurableSyncRecord → result E DurableSyncRecord) :
    stateful (DurableSyncRecord * St) E unit :=
  self ← get_state;
  next ← lift_result (stage self.1);
  persist_and_swap wrap next.

Lemma run_transition_cases {E} (wrap : StoreError → E) stage record st :
  run_transition wrap stage (record, st) =
  match stage record with
  | Ok next =>
      match persist next st with
      | (st', Ok _) => ((next, st'), Ok tt)
      | (st', Err e) => ((record, st'), Err (wrap e))
      | (st', Panic) => ((record, st'), Panic)
      end
  | Err e => ((record, st), Err e)
  | Panic => ((record, st), Panic)
  end.
Proof.
  unfold run_transition. run_st. cbn [fst]. destruct (stage record) as [next|e|]; [|done..].
  unfold persist_and_swap, on_snd, on_fst, on_field, map_err_st. rewrite st_bind. cbn.
  by destruct (persist next st) as [st' [[]|e|]].
Qed.

(** The record an in-place operation leaves, when it succeeds. *)
Definition staged {E A : Type} (m : DurableSyncRecord * result E A) : result E DurableSyncRecord :=
  _ ← m.2;
  Ok m.1.

Lemma stage_outbound_transition st pid objs p :
  stage_outbound st pid objs p =
  run_transition TransitionStore (λ record, map_err TransitionRecovery
    (staged (DurableSyncRecord.prepare_outbox st pid (applied_cursor record) objs record))) p.
Proof.
  destruct p as [record store]. unfold stage_outbound, run_transition. run_st. cbn [fst].
  by destruct (DurableSyncRecord.prepare_outbox _ _ _ _ record) as [next [[]|e|]].
Qed.

Context {C R : Type} `{!TransportCursorCodec C R}.

Lemma commit_received_transition codec st head p :
  commit_received codec st head p =
  run_transition CommitStore (λ record,
    cursor ← map_err CommitCursor (encode codec head);
    Ok (DurableSyncRecord.apply_received st cursor record)) p.
Proof.
  destruct p as [record store]. unfold commit_received, run_transition. run_st. cbn [fst].
  by destruct (encode codec head) as [cursor|e|].
Qed.

Lemma commit_reconciled_transition codec pid st head p :
  commit_reconciled_outbox codec pid st head p =
  run_transition CommitStore (λ record,
    cursor ← map_err CommitCursor (encode codec head);
    map_err CommitRecovery (staged (DurableSyncRecord.retire_outbox pid st cursor record))) p.
Proof.
  destruct p as [record store]. unfold commit_reconciled_outbox, run_transition. run_st. cbn [fst].
  destruct (encode codec head) as [cursor|e|]; [|done..].
  cbn [map_err mbind result_bind]. run_st. cbn [fst].
  by destruct (DurableSyncRecord.retire_outbox _ _ cursor record) as [next [[]|e|]].
Qed.
End transitions.

(** ** Crash consistency *)
Section crash.
Context {St : Type} `{SyncRecordStoreLaws St}.

(** The caller's record is the one a restart would load. *)
Definition in_step (record : DurableSyncRecord) (store : St) : Prop :=
  store_ok store ∧ ∀ o, recoverable_record store o → o = Some record.

(** A transition is all or nothing for the caller, and a power loss during or
    after it leaves the old record or the next one; once it has returned [Ok],
    only the next one. *)
Lemma run_transition_safe {E} (wrap : StoreError → E) stage record (store : St) :
  in_step record store →
  (∀ next, stage record = Ok next → storable store next) →
  let '((record', store'), res) := run_transition wrap stage (record, store) in
  store_ok store' ∧
  (∀ o, recoverable_record store' o → o = Some record ∨ ∃ next, stage record = Ok next ∧ o = Some next) ∧
  match res with
  | Ok _ => stage record = Ok record' ∧ in_step record' store'
  | _ => record' = record
  end.
Proof.
  intros [Hok Hrec] Hst. rewrite run_transition_cases.
  destruct (stage record) as [next|e|] eqn:Hn; [|by auto 10..].
  specialize (Hst next eq_refl). destruct (persist next store) as [store' res] eqn:Hp.
  destruct (persist_law store next store' res Hok Hst Hp) as (Hok' & Hrec' & Hack).
  assert (∀ o, recoverable_record store' o →
    o = Some record ∨ ∃ n, Ok (E := E) next = Ok n ∧ o = Some n) as Hboth.
  { intros o [Ho|Ho]%Hrec'; [left; by apply Hrec|right; eauto]. }
  destruct res as [[]|e|]; [|by auto..]. split; [done|]. split; [done|].
  split; [done|]. split; [done|]. by apply Hack.
Qed.
End crash.
