(* ===== verification/Batch.v ===== *)
(** * Batched publication and rebase

    crates/apc-sync/src/batch.rs and crates/apc-sync/src/rebase.rs: several
    staged publications handled as one set, and a stale one replaced. *)
From Stdlib Require Import NArith Strings.Byte.
From stdpp Require Import base tactics option list gmap.
From S2P Require Import Prelude BTree Bytes Id Reader Protected Recovery Transport Session.

Inductive BatchPublishError (T C : Type) : Type :=
  | PublishEmptyBatch
  | PublishRecovery (error : SyncRecoveryError)
  | MixedExpectedCursor
  | PublishCursor (error : C)
  | PublishTransport (error : T).
Arguments PublishEmptyBatch {T C}.
Arguments PublishRecovery {T C} _.
Arguments MixedExpectedCursor {T C}.
Arguments PublishCursor {T C} _.
Arguments PublishTransport {T C} _.

Inductive BatchCommitError (S C : Type) : Type :=
  | BatchEmptyBatch
  | BatchRecovery (error : SyncRecoveryError)
  | BatchCursor (error : C)
  | BatchStore (error : S).
Arguments BatchEmptyBatch {S C}.
Arguments BatchRecovery {S C} _.
Arguments BatchCursor {S C} _.
Arguments BatchStore {S C} _.

Section publish.
Context {Tr C : Type} `{OpaqueTransport Tr} `{!TransportCursorCodec C Revision}.

(** The body of the loop: the common cursor and the objects collected so far. *)
Definition collect_entry (record : DurableSyncRecord)
    (acc : option (option TransportCursor) * list (list byte)) (publication_id : PublicationId) :
    result (BatchPublishError TransportError CursorError)
      (option (option TransportCursor) * list (list byte)) :=
  let '(common_expected, objs) := acc in
  entry ← ok_or (PublishRecovery UnknownOutboxPublication) (outbox record !! publication_id);
  let entry_expected := expected_cursor entry in
  common_expected ← match common_expected with
                    | None => Ok (Some entry_expected)
                    | Some expected =>
                        if decide (expected ≠ entry_expected) then Err MixedExpectedCursor
                        else Ok (Some expected)
                    end;
  Ok (common_expected, objs ++ objects entry).

Definition publish_staged_batch (record : DurableSyncRecord) (publication_ids : list PublicationId)
    (codec : C) :
    stateful Tr (BatchPublishError TransportError CursorError) (PublishOutcome Revision) :=
  let publication_ids : gset PublicationId := list_to_set publication_ids in
  if decide (publication_ids = ∅) then throw PublishEmptyBatch else
  collected ← lift_result (try_fold (collect_entry record) (None, []) (elements_asc publication_ids));
  let '(common_expected, objs) := collected in
  expected_cursor ← lift_result (expect common_expected);
  expected ← lift_result (map_err PublishCursor (transpose (decode codec <$> expected_cursor)));
  map_err_st PublishTransport (publish expected objs).
End publish.

Section commit_batch.
Context {St C R : Type} `{SyncRecordStore St} `{!TransportCursorCodec C R}.

Definition commit_reconciled_outbox_batch (codec : C) (publication_ids : list PublicationId)
    (reconciled_trusted_state : list byte) (new_head : R) :
    stateful (DurableSyncRecord * St) (BatchCommitError StoreError CursorError) unit :=
  let publication_ids : gset PublicationId := list_to_set publication_ids in
  if decide (publication_ids = ∅) then throw BatchEmptyBatch else
  cursor ← lift_result (map_err BatchCursor (encode codec new_head));
  self ← get_state;
  let '(next, retired) :=
    st_for_each (λ publication_id,
      DurableSyncRecord.retire_outbox publication_id reconciled_trusted_state cursor)
      (elements_asc publication_ids) self.1 in
  _ ← lift_result (map_err BatchRecovery retired);
  persist_and_swap BatchStore next.
End commit_batch.

(** ** Rebase *)
Record OutboxRebase : Type := OutboxRebase_mk {
  stale_publication_id : PublicationId;
  rebased_trusted_state : list byte;
  new_publication_id : PublicationId;
  new_protected_objects : list (list byte);
}.

Section rebase.
Context {St C R : Type} `{SyncRecordStore St} `{!TransportCursorCodec C R}.

Definition commit_rebased_outbox (codec : C) (rebase : OutboxRebase) (new_head : R) :
    stateful (DurableSyncRecord * St) (SessionCommitError StoreError CursorError) unit :=
  if decide (stale_publication_id rebase = new_publication_id rebase) then
    throw (CommitRecovery PublicationIdentityCollision)
  else
    cursor ← lift_result (map_err CommitCursor (encode codec new_head));
    self ← get_state;
    let '(next, retired) := DurableSyncRecord.retire_outbox (stale_publication_id rebase)
      (rebased_trusted_state rebase) cursor self.1 in
    _ ← lift_result (map_err CommitRecovery retired);
    let '(next, prepared) := DurableSyncRecord.prepare_outbox (rebased_trusted_state rebase)
      (new_publication_id rebase) (Some cursor) (new_protected_objects rebase) next in
    _ ← lift_result (map_err CommitRecovery prepared);
    persist_and_swap CommitStore next.
End rebase.

(** ** Publishing a batch *)
Section publish_theory.
Context {Tr C : Type} `{OpaqueTransport Tr} `{!TransportCursorCodec C Revision}.
Implicit Types (record : DurableSyncRecord) (l : list PublicationId) (cur : option TransportCursor).

(** The entries of a batch, all staged against one cursor. *)
Definition batch_entries record cur l (entries : list DurableOutboxEntry) : Prop :=
  Forall2 (λ publication_id e, outbox record !! publication_id = Some e ∧ expected_cursor e = cur)
    l entries.

Lemma collect_more record cur objs l acc :
  try_fold (collect_entry (Tr := Tr) (C := C) record) (Some cur, objs) l = Ok acc ↔
  ∃ entries, batch_entries record cur l entries ∧
    acc = (Some cur, objs ++ mjoin (objects <$> entries)).
Proof.
  revert objs. induction l as [|pid l IH]; intros objs; cbn [try_fold].
  - split.
    + intros [= <-]. exists []. cbn. rewrite app_nil_r. split; [constructor|done].
    + intros (? & Hf & ->). apply Forall2_nil_inv_l in Hf as ->. cbn. by rewrite app_nil_r.
  - rewrite bind_Ok. unfold collect_entry at 1. split.
    + intros (acc' & He & Hf). inv_ok.
      match goal with H : outbox _ !! _ = Some ?e |- _ => rename e into entry; rename H into Hentry end.
      case_decide; inv_ok.
      apply IH in Hf as (entries & Hf & ->). exists (entry :: entries).
      split; [by constructor|]. cbn. by rewrite app_assoc.
    + intros (? & Hf & ->). apply Forall2_cons_inv_l in Hf as (e & entries & [He Hcur] & Hf & ->).
      exists (Some cur, objs ++ objects e). rewrite He. cbn. split.
      * by rewrite decide_False by auto.
      * apply IH. exists entries. by rewrite <-app_assoc.
Qed.

Lemma collect_all record l acc :
  l ≠ [] →
  try_fold (collect_entry (Tr := Tr) (C := C) record) (None, []) l = Ok acc ↔
  ∃ cur entries, batch_entries record cur l entries ∧
    acc = (Some cur, mjoin (objects <$> entries)).
Proof.
  intros Hl. destruct l as [|pid l]; [done|]. cbn [try_fold]. rewrite bind_Ok.
  unfold collect_entry at 1. split.
  - intros (acc' & He & Hf). inv_ok.
    match goal with H : outbox _ !! _ = Some ?e |- _ => rename e into entry; rename H into Hentry end.
    apply collect_more in Hf as (entries & Hf & ->).
    exists (expected_cursor entry), (entry :: entries). split; [by constructor|done].
  - intros (cur & ? & Hf & ->). apply Forall2_cons_inv_l in Hf as (e & entries & [He Hcur] & Hf & ->).
    exists (Some cur, objects e). rewrite He. cbn. split; [by rewrite Hcur|].
    apply collect_more. by exists entries.
Qed.

Lemma elements_asc_empty (ids : gset PublicationId) : elements_asc ids = [] → ids = ∅.
Proof.
  intros He. apply elem_of_equiv_empty_L. intros x Hx%elem_of_elements_asc.
  rewrite He in Hx. by apply not_elem_of_nil in Hx.
Qed.

(** The transport is called only when every publication is staged against one
    cursor, with all their objects. *)
Lemma publish_batch_cases record ids codec (tr : Tr) :
  let publication_ids : gset PublicationId := list_to_set ids in
  (∃ cur entries, publication_ids ≠ ∅ ∧
    batch_entries record cur (elements_asc publication_ids) entries ∧
    publish_staged_batch record ids codec tr =
      (expected ← lift_result (map_err PublishCursor (transpose (decode codec <$> cur)));
       map_err_st PublishTransport (publish expected (mjoin (objects <$> entries)))) tr) ∨
  (publication_ids = ∅ ∨ ¬ ∃ cur entries, batch_entries record cur (elements_asc publication_ids) entries) ∧
  ∃ e, publish_staged_batch record ids codec tr = (tr, Err e).
Proof.
  cbn zeta. unfold publish_staged_batch. cbn zeta. case_decide as Hids; [right; eauto|].
  assert (elements_asc (list_to_set ids : gset PublicationId) ≠ []) as Hne
    by by intros ?%elements_asc_empty.
  run_st. destruct (try_fold _ _ _) as [acc|e|] eqn:Hf.
  - apply collect_all in Hf as (cur & entries & Hf & ->); [|done]. left. exists cur, entries. auto.
  - right. split; [|eauto]. right. intros (cur & entries & Hb).
    assert (Err e = Ok (Some cur, mjoin (objects <$> entries))) as [=].
    rewrite <-Hf. apply collect_all; eauto.
  - exfalso. revert Hf. generalize (None : option (option TransportCursor), [] : list (list byte)).
    clear. induction (elements_asc _) as [|pid l IH]; intros acc; cbn [try_fold]; [done|].
    destruct (collect_entry record acc pid) as [acc'|e|] eqn:Hc; [apply IH|done|].
    intros _. revert Hc. unfold collect_entry. destruct acc as [[cur|] objs];
      destruct (outbox record !! pid); cbn; repeat case_decide; done.
Qed.
End publish_theory.

(** ** The batch and rebase transitions *)

(** The outbox without the given publications. *)
Definition outbox_without (ids : gset PublicationId) (m : gmap PublicationId DurableOutboxEntry) :
    gmap PublicationId DurableOutboxEntry :=
  filter (λ kv, kv.1 ∉ ids) m.

Lemma outbox_without_empty m : outbox_without ∅ m = m.
Proof. apply map_filter_id. intros i x _. apply not_elem_of_empty. Qed.

Lemma outbox_without_lookup ids m pid :
  outbox_without ids m !! pid = if decide (pid ∈ ids) then None else m !! pid.
Proof.
  unfold outbox_without. destruct (decide (pid ∈ ids)) as [Hin|Hin].
  - apply map_lookup_filter_None. right. intros x _ Hn. by apply Hn.
  - apply option_eq. intros e. rewrite map_lookup_filter_Some. cbn. naive_solver.
Qed.

Lemma outbox_without_delete ids pid m :
  outbox_without ids (delete pid m) = outbox_without ({[pid]} ∪ ids) m.
Proof.
  apply map_eq. intros i. rewrite !outbox_without_lookup.
  destruct (decide (i = pid)) as [->|Hne].
  - rewrite lookup_delete_eq. by repeat case_decide; set_solver.
  - rewrite lookup_delete_ne by done. repeat case_decide; set_solver.
Qed.

(** Retiring a list of distinct publications one after the other. *)
Lemma retire_all st cur l r :
  NoDup l → l ≠ [] →
  match st_for_each (λ pid, DurableSyncRecord.retire_outbox pid st cur) l r with
  | (r', Ok _) =>
      (∀ pid, pid ∈ l → is_Some (outbox r !! pid)) ∧
      r' = DurableSyncRecord_mk st (Some cur) (outbox_without (list_to_set l) (outbox r))
  | (_, Err e) => e = UnknownOutboxPublication ∧ ∃ pid, pid ∈ l ∧ outbox r !! pid = None
  | (_, Panic) => False
  end.
Proof.
  intros Hnd. revert r. induction Hnd as [|pid l Hpid Hnd IH]; intros r Hne; [done|].
  cbn [st_for_each]. rewrite st_bind, retire_outbox_cases.
  destruct (outbox r !! pid) as [e|] eqn:He; [|split; [done|]; exists pid; split; [left|done]].
  destruct (decide (l = [])) as [->|Hl].
  { cbn. split; [intros pid' ->%list_elem_of_singleton; eauto|]. f_equal.
    rewrite union_empty_r_L. rewrite <-(union_empty_r_L {[pid]}), <-outbox_without_delete.
    by rewrite outbox_without_empty. }
  specialize (IH (DurableSyncRecord_mk st (Some cur) (delete pid (outbox r))) Hl).
  destruct (st_for_each _ l _) as [r' [u|err|]]; [| |done].
  - destruct IH as [Hall ->]. cbn in *. split.
    + intros pid' [->|Hin]%elem_of_cons; [eauto|]. destruct (Hall pid' Hin) as [x Hx].
      apply lookup_delete_Some in Hx as [_ Hx]. eauto.
    + f_equal. by rewrite outbox_without_delete.
  - destruct IH as (-> & pid' & Hin & Hx). split; [done|]. exists pid'. split; [by right|].
    cbn in Hx. rewrite lookup_delete_ne in Hx; [done|]. intros ->. done.
Qed.

Section transitions.
Context {St C R : Type} `{SyncRecordStore St} `{!TransportCursorCodec C R}.

(** The record a batch commit stages. *)
Definition retired_batch (codec : C) (ids : gset PublicationId) (st : list byte) (head : R)
    (record : DurableSyncRecord) : result (BatchCommitError StoreError CursorError) DurableSyncRecord :=
  if decide (ids = ∅) then Err BatchEmptyBatch else
  cursor ← map_err BatchCursor (encode codec head);
  if decide (ids ⊆ dom (outbox record)) then
    Ok (DurableSyncRecord_mk st (Some cursor) (outbox_without ids (outbox record)))
  else Err (BatchRecovery UnknownOutboxPublication).

Lemma commit_batch_transition codec ids st head p :
  commit_reconciled_outbox_batch codec ids st head p =
  run_transition BatchStore (retired_batch codec (list_to_set ids) st head) p.
Proof.
  destruct p as [record store].
  unfold commit_reconciled_outbox_batch, run_transition, retired_batch. cbn zeta. run_st. cbn [fst].
  set (l := list_to_set ids : gset PublicationId). case_decide as Hl; [done|]. run_st.
  destruct (encode codec head) as [cursor|e|]; [|done..]. cbn [map_err mbind result_bind fst]. run_st.
  assert (elements_asc l ≠ []) as Hne by by intros ?%elements_asc_empty.
  pose proof (retire_all st cursor (elements_asc l) record (NoDup_elements_asc l) Hne) as Hall.
  assert (list_to_set (elements_asc l) = l) as Hset.
  { apply set_eq. intros x. by rewrite elem_of_list_to_set, elem_of_elements_asc. }
  cbn [fst]. destruct (st_for_each _ _ record) as [r' [u|e|]]; [| |done].
  - destruct Hall as [Hall ->]. rewrite Hset, decide_True; [done|].
    intros pid Hpid. apply elem_of_dom, Hall. by apply elem_of_elements_asc.
  - destruct Hall as (-> & pid & Hpid & Hx). rewrite decide_False; [done|].
    intros Hsub. apply elem_of_elements_asc, Hsub, elem_of_dom in Hpid as [x Hx']. congruence.
Qed.

(** The record a rebase stages. *)
Definition rebased_record (codec : C) (rebase : OutboxRebase) (head : R)
    (record : DurableSyncRecord) :
    result (SessionCommitError StoreError CursorError) DurableSyncRecord :=
  let stale := stale_publication_id rebase in
  let fresh := new_publication_id rebase in
  if decide (stale = fresh) then Err (CommitRecovery PublicationIdentityCollision) else
  cursor ← map_err CommitCursor (encode codec head);
  let entry := DurableOutboxEntry_mk fresh (Some cursor) (new_protected_objects rebase) in
  match outbox record !! stale with
  | None => Err (CommitRecovery UnknownOutboxPublication)
  | Some _ =>
      _ ← map_err CommitRecovery (validate_objects (new_protected_objects rebase));
      if decide (outbox record !! fresh = None ∨ outbox record !! fresh = Some entry) then
        Ok (DurableSyncRecord_mk (rebased_trusted_state rebase) (Some cursor)
             (<[fresh := entry]> (delete stale (outbox record))))
      else Err (CommitRecovery PublicationIdentityCollision)
  end.

Lemma commit_rebased_transition codec rebase head p :
  commit_rebased_outbox codec rebase head p =
  run_transition CommitStore (rebased_record codec rebase head) p.
Proof.
  destruct p as [record store]. destruct rebase as [stale st fresh objs].
  unfold commit_rebased_outbox, run_transition, rebased_record. cbn. run_st. cbn [fst].
  case_decide as Hne; [done|]. run_st.
  destruct (encode codec head) as [cursor|e|]; [|done..]. cbn [map_err mbind result_bind]. run_st.
  cbn [fst]. rewrite retire_outbox_cases.
  destruct (outbox record !! stale) as [old|]; [|done]. cbn [map_err]. run_st.
  rewrite prepare_outbox_cases. cbn zeta.
  destruct (validate_objects objs) as [u|e|]; [|done..]. cbn.
  rewrite lookup_delete_ne by done. by case_decide.
Qed.
End transitions.

(** ** Whole sessions

    The five operations that change the durable record, in any order and with
    any outcome. *)
Inductive session_op (R : Type) : Type :=
  | OpStage (state : list byte) (publication_id : PublicationId) (objs : list (list byte))
  | OpReceive (state : list byte) (head : R)
  | OpReconcile (publication_id : PublicationId) (state : list byte) (head : R)
  | OpReconcileBatch (publication_ids : list PublicationId) (state : list byte) (head : R)
  | OpRebase (rebase : OutboxRebase) (head : R).
Arguments OpStage {R} _ _ _.
Arguments OpReceive {R} _ _.
Arguments OpReconcile {R} _ _ _.
Arguments OpReconcileBatch {R} _ _ _.
Arguments OpRebase {R} _ _.

Section sessions.
Context {St C R : Type} `{SyncRecordStore St} `{!TransportCursorCodec C R}.
Implicit Types (op : session_op R) (record : DurableSyncRecord) (store : St).

(** Runs an operation; the flag is whether it returned [Ok]. *)
Definition run_op (codec : C) op (p : DurableSyncRecord * St) : (DurableSyncRecord * St) * bool :=
  match op with
  | OpStage st pid objs => let '(p', res) := stage_outbound st pid objs p in (p', succeeds res)
  | OpReceive st head => let '(p', res) := commit_received codec st head p in (p', succeeds res)
  | OpReconcile pid st head =>
      let '(p', res) := commit_reconciled_outbox codec pid st head p in (p', succeeds res)
  | OpReconcileBatch pids st head =>
      let '(p', res) := commit_reconciled_outbox_batch codec pids st head p in (p', succeeds res)
  | OpRebase rebase head =>
      let '(p', res) := commit_rebased_outbox codec rebase head p in (p', succeeds res)
  end.

Definition result_value {E A : Type} (r : result E A) : option A :=
  match r with
  | Ok a => Some a
  | _ => None
  end.

(** The record an operation would persist, when it gets that far. *)
Definition op_stage (codec : C) op record : option DurableSyncRecord :=
  match op with
  | OpStage st pid objs =>
      result_value (staged (DurableSyncRecord.prepare_outbox st pid (applied_cursor record) objs record))
  | OpReceive st head =>
      result_value (cursor ← encode codec head;
        Ok (DurableSyncRecord.apply_received st cursor record))
  | OpReconcile pid st head =>
      cursor ← result_value (encode codec head);
      result_value (staged (DurableSyncRecord.retire_outbox pid st cursor record))
  | OpReconcileBatch pids st head =>
      result_value (retired_batch codec (list_to_set pids) st head record)
  | OpRebase rebase head => result_value (rebased_record codec rebase head record)
  end.

Lemma result_value_Some {E A} (r : result E A) a : result_value r = Some a ↔ r = Ok a.
Proof. destruct r; naive_solver. Qed.

Lemma result_value_map_err {E E' A} (f : E → E') (r : result E A) :
  result_value (map_err f r) = result_value r.
Proof. by destruct r. Qed.

(** Every operation either persists the record it stages, or changes nothing. *)
Lemma run_op_cases codec op record store :
  run_op codec op (record, store) =
  match op_stage codec op record with
  | Some next =>
      let '(store', res) := persist next store in
      if succeeds res then ((next, store'), true) else ((record, store'), false)
  | None => ((record, store), false)
  end.
Proof.
  assert (∀ E (wrap : StoreError → E) stage,
    (let '(p', res) := run_transition wrap stage (record, store) in (p', succeeds res)) =
    match result_value (stage record) with
    | Some next =>
        let '(store', res) := persist next store in
        if succeeds res then ((next, store'), true) else ((record, store'), false)
    | None => ((record, store), false)
    end) as Hgen.
  { intros E wrap stage. rewrite run_transition_cases.
    destruct (stage record) as [next|e|]; [|done..]. cbn.
    by destruct (persist next store) as [store' [[]|e|]]. }
  destruct op; unfold run_op, op_stage.
  - rewrite stage_outbound_transition, Hgen. by rewrite result_value_map_err.
  - rewrite commit_received_transition, Hgen. by destruct (encode codec head).
  - rewrite commit_reconciled_transition, Hgen. destruct (encode codec head); [|done..].
    cbn [map_err mbind result_bind result_value option_bind]. by rewrite result_value_map_err.
  - by rewrite commit_batch_transition, Hgen.
  - by rewrite commit_rebased_transition, Hgen.
Qed.

(** A session and the records persisted since the last acknowledged one without
    an acknowledgement. *)
Fixpoint run_session (codec : C) (ops : list (session_op R)) (p : DurableSyncRecord * St)
    (unacked : list DurableSyncRecord) : (DurableSyncRecord * St) * list DurableSyncRecord :=
  match ops with
  | [] => (p, unacked)
  | op :: ops =>
      let '(p', ok) := run_op codec op p in
      run_session codec ops p'
        (if ok then [] else
           match op_stage codec op p.1 with
           | Some next => next :: unacked
           | None => unacked
           end)
  end.
End sessions.

Section session_crash.
Context {St C R : Type} `{SyncRecordStoreLaws St} `{!TransportCursorCodec C R}.
Implicit Types (op : session_op R) (record : DurableSyncRecord) (store : St).

(** A power loss leaves the caller's record or one never acknowledged. *)
Definition backed (p : DurableSyncRecord * St) (unacked : list DurableSyncRecord) : Prop :=
  store_ok p.2 ∧ ∀ o, recoverable_record p.2 o → o = Some p.1 ∨ ∃ next, next ∈ unacked ∧ o = Some next.

Lemma backed_in_step record store : backed (record, store) [] ↔ in_step record store.
Proof.
  unfold backed, in_step. cbn. split; intros [Hok Hall]; split; [done| |done|by auto].
  intros o Ho. destruct (Hall o Ho) as [?|(? & Hin & _)]; [done|]. by apply not_elem_of_nil in Hin.
Qed.

(** The store can hold every record the session stages. *)
Fixpoint session_storable (codec : C) (ops : list (session_op R)) (p : DurableSyncRecord * St) : Prop :=
  match ops with
  | [] => True
  | op :: ops =>
      (∀ next, op_stage codec op p.1 = Some next → storable p.2 next) ∧
      session_storable codec ops (run_op codec op p).1
  end.

Lemma run_op_backed codec op record store unacked :
  (∀ next, op_stage codec op record = Some next → storable store next) →
  backed (record, store) unacked →
  let '(p', ok) := run_op codec op (record, store) in
  backed p' (if ok then [] else
    match op_stage codec op record with Some next => next :: unacked | None => unacked end).
Proof.
  intros Hst [Hok Hall]. rewrite run_op_cases.
  destruct (op_stage codec op record) as [next|]; [|done].
  specialize (Hst next eq_refl).
  destruct (persist next store) as [store' res] eqn:Hp.
  destruct (persist_law store next store' res Hok Hst Hp) as (Hok' & Hrec & Hack).
  assert (succeeds res = false → backed (record, store') (next :: unacked)) as Hfail.
  { intros _. split; [done|]. intros o [Ho|Ho]%Hrec.
    - destruct (Hall o Ho) as [?|(n & Hn & ?)]; [by left|]. right. exists n. split; [by right|done].
    - right. exists next. split; [left|done]. }
  destruct res as [[]|e|]; cbn [succeeds]; [|by apply Hfail..].
  apply backed_in_step. split; [done|]. by apply Hack.
Qed.

Lemma run_session_backed codec ops p unacked :
  session_storable codec ops p → backed p unacked →
  let '(p', unacked') := run_session codec ops p unacked in backed p' unacked'.
Proof.
  revert p unacked. induction ops as [|op ops IH]; intros [record store] unacked;
    cbn [run_session session_storable]; [done|].
  intros [Hop Hst] Hb. pose proof (run_op_backed codec op record store unacked Hop Hb) as Hb'.
  destruct (run_op codec op (record, store)) as [p' ok]. by apply IH.
Qed.
End session_crash.

(** ** What an operation does to the outbox *)
Section outbox.
Context {St C R : Type} `{SyncRecordStore St} `{!TransportCursorCodec C R}.
Implicit Types (op : session_op R) (record : DurableSyncRecord).

(** The publications an operation names to be retired. *)
Definition op_retires op (pid : PublicationId) : Prop :=
  match op with
  | OpReconcile pid' _ _ => pid = pid'
  | OpReconcileBatch pids _ _ => pid ∈ pids
  | OpRebase rebase _ => pid = stale_publication_id rebase
  | _ => False
  end.

(** The entry an operation may add. *)
Definition op_introduces (codec : C) op record (pid : PublicationId) (e : DurableOutboxEntry) : Prop :=
  match op with
  | OpStage _ pid' objs => pid = pid' ∧ e = DurableOutboxEntry_mk pid' (applied_cursor record) objs ∧
      validate_objects objs = Ok tt
  | OpRebase rebase head => ∃ cursor, encode codec head = Ok cursor ∧ pid = new_publication_id rebase ∧
      e = DurableOutboxEntry_mk pid (Some cursor) (new_protected_objects rebase) ∧
      validate_objects (new_protected_objects rebase) = Ok tt
  | _ => False
  end.

(** The three facts about one step of the outbox. *)
Definition outbox_step (codec : C) op record (next : DurableSyncRecord) : Prop :=
  (∀ pid e e', outbox record !! pid = Some e → outbox next !! pid = Some e' → e' = e) ∧
  (∀ pid e, outbox record !! pid = Some e → outbox next !! pid = None → op_retires op pid) ∧
  (∀ pid e, outbox record !! pid = None → outbox next !! pid = Some e →
     op_introduces codec op record pid e).

Lemma outbox_step_same codec op record next :
  outbox next = outbox record → outbox_step codec op record next.
Proof. intros Hn. unfold outbox_step. rewrite Hn. split_and!; naive_solver. Qed.

(** Deleting named entries and perhaps adding one. *)
Lemma outbox_step_without codec op record next (ids : gset PublicationId) :
  outbox next = outbox_without ids (outbox record) → (∀ pid, pid ∈ ids → op_retires op pid) →
  outbox_step codec op record next.
Proof.
  intros Hn Hids. unfold outbox_step. rewrite Hn. setoid_rewrite outbox_without_lookup.
  split_and!; intros pid e; case_decide; naive_solver.
Qed.

Lemma outbox_step_insert codec op record next pid e :
  outbox next = <[pid := e]> (outbox record) →
  outbox record !! pid = None ∨ outbox record !! pid = Some e →
  op_introduces codec op record pid e → outbox_step codec op record next.
Proof.
  intros Hn Hold Hi. unfold outbox_step. rewrite Hn.
  split_and!; intros pid' e'; rewrite ?lookup_insert_Some, ?lookup_insert_None; [|naive_solver..].
  intros e2 He. rewrite lookup_insert_Some. naive_solver.
Qed.

Lemma delete_without pid m : delete pid m = outbox_without {[pid]} m.
Proof.
  rewrite <-(union_empty_r_L {[pid]}), <-outbox_without_delete. by rewrite outbox_without_empty.
Qed.

Lemma staged_Ok {E A} (m : DurableSyncRecord * result E A) next :
  staged m = Ok next ↔ m.1 = next ∧ is_ok m.2.
Proof. destruct m as [r [a|e|]]; unfold staged, is_ok; cbn; naive_solver. Qed.

Lemma rebased_record_outbox codec rebase head record next :
  rebased_record (St := St) codec rebase head record = Ok next →
  outbox_step codec (OpRebase rebase head) record next.
Proof.
  destruct rebase as [stale st fresh objs]. unfold rebased_record. cbn.
  case_decide as Hne; [done|]. intros (cursor & Hcur%map_err_Ok & Hr)%bind_Ok.
  destruct (outbox record !! stale) as [old|] eqn:Hold; [|done].
  apply bind_Ok in Hr as ([] & Hv%map_err_Ok & Hr).
  case_decide as Hf; [|done]. injection Hr as <-. unfold outbox_step; cbn.
  split_and!; intros pid e.
  - intros e' He. rewrite lookup_insert_Some, lookup_delete_Some. naive_solver.
  - intros He. rewrite lookup_insert_None, lookup_delete_None. naive_solver.
  - intros He. rewrite lookup_insert_Some, lookup_delete_Some.
    intros [[<- <-]|[_ [_ ?]]]; [|congruence]. exists cursor. done.
Qed.

Lemma op_stage_outbox codec op record next :
  op_stage (St := St) codec op record = Some next → outbox_step codec op record next.
Proof.
  destruct op as [st pid objs|st head|pid st head|pids st head|rebase head]; cbn [op_stage].
  - rewrite result_value_Some, staged_Ok, prepare_outbox_cases.
    destruct (validate_objects objs) as [[]|e|] eqn:Hv; [|intros [_ [? [=]]]..]. cbn zeta.
    case_decide as Hold; [|intros [_ [? [=]]]]. intros [<- _].
    eapply outbox_step_insert; [done|done|]. cbn. done.
  - rewrite result_value_Some. intros (cursor & _ & [= <-])%bind_Ok. by apply outbox_step_same.
  - intros (cursor & _ & Hs)%bind_Some. rewrite result_value_Some, staged_Ok, retire_outbox_cases in Hs.
    destruct (outbox record !! pid); destruct Hs as [<- [? Hs]]; [|done]. cbn.
    apply (outbox_step_without _ _ _ _ {[pid]}); [apply delete_without|set_solver].
  - rewrite result_value_Some. unfold retired_batch. case_decide; [done|].
    intros (cursor & _ & Hr)%bind_Ok. case_decide; [|done]. injection Hr as <-.
    apply (outbox_step_without _ _ _ _ (list_to_set pids)); [done|]. intros pid. cbn. set_solver.
  - rewrite result_value_Some. apply rebased_record_outbox.
Qed.
End outbox.
