(* ===== verification/RecordStore.v ===== *)
(** * The protected record store (crates/apc-sync/src/record_store.rs)

    A durable sync record, encoded, protected and committed through a
    durability backend.  The laws a session relies on follow from the backend's,
    the cipher's and the codec's. *)
From Stdlib Require Import Lia NArith Strings.Byte.
From stdpp Require Import base tactics option list gmap numbers.
From S2P Require Import Prelude BTree Bytes Id Durability Reader Crypto Protected Recovery.
From S2P Require Import Transport Session.
Local Open Scope N_scope.

Definition RECORD_CONTEXT_DOMAIN : list byte :=
  b_ "A.P.C. durable sync recovery" ++ [x00] ++ b_ "v1" ++ [x00].

Inductive ProtectedSyncStoreError (E : Type) : Type :=
  | StoreBackend (error : E)
  | StoreRecovery (error : SyncRecoveryError)
  | StoreProtection (error : ProtectionError)
  | StoreEmptyContext.
Arguments StoreBackend {E} _.
Arguments StoreRecovery {E} _.
Arguments StoreProtection {E} _.
Arguments StoreEmptyContext {E}.

(** [entropy] is the system's generator: the outcomes of the draws to come. *)
Record ProtectedSyncRecordStore (B : Type) : Type := ProtectedSyncRecordStore_mk {
  backend : B;
  key : ContentKey;
  context : list byte;
  entropy : nat → option (byte_array NONCE_BYTES);
}.
Arguments ProtectedSyncRecordStore_mk {B} _ _ _ _.
Arguments backend {B} _.
Arguments key {B} _.
Arguments context {B} _.
Arguments entropy {B} _ _.

Module ProtectedSyncRecordStore.
Section ProtectedSyncRecordStore.
Context {B : Type}.
Implicit Types self : ProtectedSyncRecordStore B.

Definition new (backend : B) (key : ContentKey) (context : list byte)
    (entropy : nat → option (byte_array NONCE_BYTES)) :
    result (ProtectedSyncStoreError Empty_set) (ProtectedSyncRecordStore B) :=
  if decide (context = []) then Err StoreEmptyContext
  else Ok (ProtectedSyncRecordStore_mk backend key context entropy).

Definition with_backend (b : B) self : ProtectedSyncRecordStore B :=
  ProtectedSyncRecordStore_mk b (key self) (context self) (entropy self).

Definition protection_context self : list byte := RECORD_CONTEXT_DOMAIN ++ context self.

(** One draw from the system's generator. *)
Definition draw {E : Type} :
    stateful (ProtectedSyncRecordStore B) E (option (byte_array NONCE_BYTES)) :=
  self ← get_state;
  _ ← put_state (ProtectedSyncRecordStore_mk (backend self) (key self) (context self)
        (λ n, entropy self (S n)));
  mret (entropy self 0).

Context `{Aead} `{DurabilityBackend B (list byte)}.

Definition load_committed self :
    result (ProtectedSyncStoreError BackendError) (option DurableSyncRecord) :=
  loaded ← map_err StoreBackend (Durability.load_committed (backend self));
  match loaded with
  | None => Ok None
  | Some protected =>
      clear ← map_err StoreProtection (unprotect (key self) (protection_context self) protected);
      record ← map_err StoreRecovery (decode_durable_sync_record clear);
      Ok (Some record)
  end.

Definition persist (record : DurableSyncRecord) :
    stateful (ProtectedSyncRecordStore B) (ProtectedSyncStoreError BackendError) unit :=
  clear ← lift_result (map_err StoreRecovery (encode_durable_sync_record record));
  generated ← draw;
  self ← get_state;
  protected ← lift_result (map_err StoreProtection
    (protect generated (key self) (protection_context self) clear));
  on_field backend with_backend (map_err_st StoreBackend (commit_durable protected)).
End ProtectedSyncRecordStore.
End ProtectedSyncRecordStore.

#[export] Instance protected_record_store {B : Type} `{Aead} `{DurabilityBackend B (list byte)} :
  SyncRecordStore (ProtectedSyncRecordStore B) := {|
  StoreError := ProtectedSyncStoreError BackendError;
  persist := ProtectedSyncRecordStore.persist;
|}.

(** ** Theory *)
Section record_store.
Context {B : Type} `{AeadLaws} `{DurabilityLaws B (list byte)}.
Implicit Types (self : ProtectedSyncRecordStore B) (record : DurableSyncRecord).

(** The length of the protection around a clear text. *)
Definition PROTECTION_BYTES : N := HEADER_BYTES + TAG_BYTES.

(** A record in memory: its vectors, and those made of it, are allocations. *)
Definition record_storable record : Prop :=
  record_ok record ∧ record_allocates record ∧
  ∀ clear, encode_durable_sync_record record = Ok clear → PROTECTION_BYTES + len clear ≤ isize_max.

(** The bytes of the backend hold the record. *)
Definition holds self record (protected : list byte) : Prop :=
  ∃ clear, unprotect (key self) (ProtectedSyncRecordStore.protection_context self) protected
    = Ok clear ∧ decode_durable_sync_record clear = Ok record.

Lemma protection_context_nonempty self : ProtectedSyncRecordStore.protection_context self ≠ [].
Proof. done. Qed.

Lemma len_envelope nonce c : len (envelope_of nonce c) = HEADER_BYTES + len c.
Proof.
  unfold envelope_of. rewrite !len_app, len_array, !len_be_bytes.
  assert (len Crypto.MAGIC = 8) as -> by done. change HEADER_BYTES with 43.
  change (N.of_nat NONCE_BYTES) with 24. lia.
Qed.

(** What is protected can be opened and decoded again. *)
Lemma protected_holds self record clear generated protected :
  record_storable record → encode_durable_sync_record record = Ok clear →
  protect generated (key self) (ProtectedSyncRecordStore.protection_context self) clear
    = Ok protected →
  holds self record protected.
Proof.
  intros (Hok & Hal & Hlen) Henc Hp. specialize (Hlen clear Henc).
  unfold protect in Hp. rewrite decide_False in Hp by apply protection_context_nonempty.
  apply bind_Ok in Hp as (nonce & _ & Hp). exists clear. split.
  - apply unprotect_Ok; [|split; [apply protection_context_nonempty|by exists nonce]].
    apply protect_with_nonce_Ok in Hp as (c & Hc & _ & ->). rewrite len_envelope.
    rewrite (aead_length _ _ _ _ _ Hc). unfold PROTECTION_BYTES in Hlen. lia.
  - destruct (encode_record_spec record Hok Hal) as (_ & _ & Hg).
    apply decode_record_spec; [unfold PROTECTION_BYTES in Hlen; lia|]. by apply Hg.
Qed.

Lemma load_holds self b record protected :
  Durability.load_committed b = Ok (Some protected) → holds self record protected →
  ProtectedSyncRecordStore.load_committed (ProtectedSyncRecordStore.with_backend b self)
    = Ok (Some record).
Proof.
  intros Hl (clear & Hu & Hd). unfold ProtectedSyncRecordStore.load_committed.
  cbn [backend ProtectedSyncRecordStore.with_backend].
  rewrite Hl. cbn [map_err mbind result_bind].
  change (ProtectedSyncRecordStore.protection_context (ProtectedSyncRecordStore.with_backend b self))
    with (ProtectedSyncRecordStore.protection_context self).
  cbn [key ProtectedSyncRecordStore.with_backend]. rewrite Hu. cbn [map_err mbind result_bind].
  by rewrite Hd.
Qed.

(** [persist] on every branch. *)
Lemma persist_cases record self :
  match ProtectedSyncRecordStore.persist record self with
  | (self', res) =>
      key self' = key self ∧ context self' = context self ∧
      ((backend self' = backend self ∧ ¬ is_ok res) ∨
       ∃ clear generated protected,
         encode_durable_sync_record record = Ok clear ∧
         protect generated (key self) (ProtectedSyncRecordStore.protection_context self) clear
           = Ok protected ∧
         commit_durable protected (backend self)
           = (backend self', match res with
                             | Ok u => Ok u
                             | Err (StoreBackend e) => Err e
                             | _ => Panic
                             end))
  end.
Proof.
  unfold ProtectedSyncRecordStore.persist, ProtectedSyncRecordStore.draw. run_st.
  assert (∀ E A (e : E), ¬ is_ok (A := A) (Err e)) as Herr by (intros ??? [? [=]]).
  assert (∀ E A, ¬ is_ok (E := E) (A := A) Panic) as Hpan by (intros ?? [? [=]]).
  destruct (encode_durable_sync_record record) as [clear|e|] eqn:He; cbn [map_err]; [|by auto..].
  rewrite st_bind. run_st. cbn.
  change (ProtectedSyncRecordStore.protection_context
    (ProtectedSyncRecordStore_mk (backend self) (key self) (context self) _))
    with (ProtectedSyncRecordStore.protection_context self).
  destruct (protect (entropy self 0) (key self) _ clear) as [p|e|] eqn:Hp; cbn [map_err]; [|by auto..].
  unfold on_field, map_err_st. cbn [backend].
  destruct (commit_durable p (backend self)) as [b' [u|e|]] eqn:Hc; cbn;
    (split; [done|]; split; [done|]; right; exists clear, (entropy self 0), p; auto).
Qed.

(** [persist] when every step succeeds. *)
Lemma persist_Ok record self clear protected b' :
  encode_durable_sync_record record = Ok clear →
  protect (entropy self 0) (key self) (ProtectedSyncRecordStore.protection_context self) clear = Ok protected →
  commit_durable protected (backend self) = (b', Ok tt) →
  ProtectedSyncRecordStore.persist record self =
    (ProtectedSyncRecordStore_mk b' (key self) (context self) (λ n, entropy self (S n)), Ok tt).
Proof.
  intros Henc Hp Hc. unfold ProtectedSyncRecordStore.persist, ProtectedSyncRecordStore.draw. run_st. rewrite Henc.
  cbn [map_err]. run_st. rewrite st_bind. run_st. unfold ProtectedSyncRecordStore.protection_context in *.
  cbn [key context backend entropy]. rewrite Hp. cbn [map_err]. run_st. unfold on_field, map_err_st. cbn [backend]. by rewrite Hc.
Qed.

(** What a restart may load. *)
Definition recoverable_store self (o : option DurableSyncRecord) : Prop :=
  ∃ b', may_crash (backend self) b' ∧
    ProtectedSyncRecordStore.load_committed (ProtectedSyncRecordStore.with_backend b' self) = Ok o.

Lemma recoverable_store_same self self' o :
  key self' = key self → context self' = context self →
  (∀ ob, recoverable (backend self') ob → recoverable (backend self) ob) →
  recoverable_store self' o → recoverable_store self o.
Proof.
  intros Hk Hc Hb (b' & Hcr & Hl). unfold ProtectedSyncRecordStore.load_committed in Hl.
  unfold ProtectedSyncRecordStore.protection_context in Hl. cbn in Hl. rewrite Hk, Hc in Hl.
  apply bind_Ok in Hl as (ob & Hob%map_err_Ok & Hl).
  destruct (Hb ob) as (b2 & Hcr2 & Hl2); [by exists b'|]. exists b2. split; [done|].
  unfold ProtectedSyncRecordStore.load_committed. cbn. by rewrite Hl2.
Qed.

(** Once [persist] has returned [Ok], every restart that can read the backend
    loads the record. *)
Lemma persist_loads record self self' b' ob :
  backend_ok (backend self) → record_storable record →
  ProtectedSyncRecordStore.persist record self = (self', Ok tt) →
  may_crash (backend self') b' → Durability.load_committed b' = Ok ob →
  ProtectedSyncRecordStore.load_committed (ProtectedSyncRecordStore.with_backend b' self')
    = Ok (Some record).
Proof.
  intros Hok Hst Hp Hcr Hl. pose proof (persist_cases record self) as Hc. rewrite Hp in Hc.
  destruct Hc as (Hk & Hctx & [[_ Hn]|(clear & gen & p & He & Hpr & Hcom)]); [by destruct Hn; exists tt|].
  assert (ob = Some p) as ->. { eapply commit_durable_ack; [exact Hok|exact Hcom|by exists b']. }
  apply load_holds with p; [done|]. unfold holds, ProtectedSyncRecordStore.protection_context.
  rewrite Hk, Hctx. by apply (protected_holds self record clear gen p).
Qed.

Lemma persist_safe record self self' res :
  backend_ok (backend self) → record_storable record →
  ProtectedSyncRecordStore.persist record self = (self', res) →
  backend_ok (backend self') ∧
  (∀ o, recoverable_store self' o → recoverable_store self o ∨ o = Some record) ∧
  (res = Ok tt → ∀ o, recoverable_store self' o → o = Some record).
Proof.
  intros Hok Hst Hp. pose proof (persist_cases record self) as Hc. rewrite Hp in Hc.
  destruct Hc as (Hk & Hctx & [[Hb Hn]|(clear & gen & p & He & Hpr & Hcom)]).
  { rewrite Hb. split; [done|]. split; [|intros ->; by destruct Hn; exists tt].
    intros o Ho. left. eapply recoverable_store_same; [..|exact Ho]; [done..|by rewrite Hb]. }
  pose proof (commit_prefix_safe 4 p (backend self) Hok) as [Hok' Hns].
  rewrite commit_prefix_full, Hcom in Hok', Hns. cbn [fst] in *.
  assert (holds self record p) as Hh by by eapply protected_holds.
  split; [done|]. split.
  - intros o (b' & Hcr & Hl). pose proof Hl as Hl2. unfold ProtectedSyncRecordStore.load_committed in Hl.
    apply bind_Ok in Hl as (ob & Hob%map_err_Ok & _). cbn [backend ProtectedSyncRecordStore.with_backend] in Hob.
    destruct (Hns ob) as [(b2 & Hcr2 & Hob2)| ->]; [by exists b'| |].
    + left. exists b2. split; [done|]. rewrite <-Hl2. unfold ProtectedSyncRecordStore.load_committed.
      cbn. rewrite Hob, Hob2. unfold ProtectedSyncRecordStore.protection_context. cbn. by rewrite Hk, Hctx.
    + right. assert (holds self' record p) as Hh'.
      { unfold holds, ProtectedSyncRecordStore.protection_context. by rewrite Hk, Hctx. }
      rewrite (load_holds self' b' record p Hob Hh') in Hl2. congruence.
  - intros -> o (b' & Hcr & Hl). pose proof Hl as Hl2. unfold ProtectedSyncRecordStore.load_committed in Hl.
    apply bind_Ok in Hl as (ob & Hob%map_err_Ok & _).
    rewrite (persist_loads record self self' b' ob) in Hl2; [congruence|done..].
Qed.

#[export] Instance protected_record_store_laws :
  SyncRecordStoreLaws (ProtectedSyncRecordStore B).
Proof.
  refine {| store_ok := λ self, backend_ok (backend self);
            storable := λ _, record_storable;
            recoverable_record := recoverable_store |}.
  intros self record self' res Hok Hst Hp.
  destruct (persist_safe record self self' res Hok Hst Hp) as (? & ? & ?). auto.
Defined.
End record_store.
