(* ===== verification/FsRecovery.v ===== *)
(** * The snapshot envelope (crates/apc-storage-fs/src/recovery.rs)

    A length-prefixed payload followed by its CRC-32, which is computed here as
    the code does, bit by bit on 32-bit words. *)
From Stdlib Require Import Lia NArith Strings.Byte.
From stdpp Require Import base tactics option list numbers.
From S2P Require Import Prelude BTree Bytes.
Local Open Scope N_scope.

Definition MAGIC : list byte := b_ "APCDEV01".
Definition VERSION : N := 1.
Definition HEADER_LEN : N := len MAGIC + 2 + 8.
Definition CHECKSUM_LEN : N := 4.

Inductive RecoveryDecodeError : Type :=
  | TooShort
  | InvalidMagic
  | UnsupportedVersion (version : N)
  | LengthOverflow
  | LengthMismatch
  | ChecksumMismatch.

#[export] Instance RecoveryDecodeError_eq_dec : EqDecision RecoveryDecodeError.
Proof. solve_decision. Defined.

(** ** The checksum *)

(** [u32::wrapping_sub] and [!x] on 32-bit words. *)
Definition u32_wrapping_sub (x y : N) : N := (x + (2 ^ 32 - y)) mod 2 ^ 32.
Definition u32_not (x : N) : N := N.lxor x 0xffffffff.

Definition POLYNOMIAL : N := 0xedb88320.

(** One round of the inner loop. *)
Definition crc_bit (crc : N) : N :=
  let mask := u32_wrapping_sub 0 (N.land crc 1) in
  N.lxor (N.shiftr crc 1) (N.land POLYNOMIAL mask).

Definition crc_byte (crc : N) (b : byte) : N :=
  Nat.iter 8 crc_bit (N.lxor crc (Byte.to_N b)).

Definition crc32_ieee (bytes : list byte) : N :=
  u32_not (foldl crc_byte 0xffffffff bytes).

(** ** The envelope *)

(** [Vec::<u8>::with_capacity]: an allocation beyond [isize::MAX] bytes panics. *)
Definition byte_capacity {E : Type} (count : N) : result E unit :=
  if decide (count ≤ isize_max) then Ok tt else Panic.

Definition encode {E : Type} (payload : list byte) : result E (list byte) :=
  payload_len ← expect (u64_try_from (len payload));
  _ ← byte_capacity (HEADER_LEN + len payload + CHECKSUM_LEN);
  let encoded := MAGIC ++ be_bytes 2 VERSION ++ be_bytes 8 payload_len ++ payload in
  Ok (encoded ++ be_bytes 4 (crc32_ieee encoded)).

Definition decode (encoded : list byte) : result RecoveryDecodeError (list byte) :=
  if decide (len encoded < HEADER_LEN + CHECKSUM_LEN) then Err TooShort else
  magic ← slice encoded 0 (len MAGIC);
  if decide (magic ≠ MAGIC) then Err InvalidMagic else
  let version_offset := len MAGIC in
  version0 ← index_at encoded version_offset;
  version1 ← index_at encoded (version_offset + 1);
  let version := be_value [version0; version1] in
  if decide (version ≠ VERSION) then Err (UnsupportedVersion version) else
  let length_offset := version_offset + 2 in
  length_bytes ← slice encoded length_offset (length_offset + 8);
  length_array ← expect (try_into_array 8 length_bytes);
  payload_len ← ok_or LengthOverflow (usize_try_from (be_value (array_bytes length_array)));
  expected_len ← ok_or LengthOverflow
    (value ← usize_checked_add HEADER_LEN payload_len; usize_checked_add value CHECKSUM_LEN);
  if decide (len encoded ≠ expected_len) then Err LengthMismatch else
  let checksum_offset := HEADER_LEN + payload_len in
  checksum_bytes ← slice encoded checksum_offset (len encoded);
  checksum_array ← expect (try_into_array 4 checksum_bytes);
  let stored_checksum := be_value (array_bytes checksum_array) in
  checked ← slice encoded 0 checksum_offset;
  let actual_checksum := crc32_ieee checked in
  if decide (stored_checksum ≠ actual_checksum) then Err ChecksumMismatch else
  slice encoded HEADER_LEN checksum_offset.

(** ** The checksum as a sequence of bijections *)

Lemma lt_pow2_shiftr x n : x < 2 ^ n ↔ N.shiftr x n = 0.
Proof.
  rewrite N.shiftr_div_pow2. split; [apply N.div_small|].
  intros Hx. apply N.div_small_iff in Hx; [done|]. by apply N.pow_nonzero.
Qed.

Lemma lxor_bound x y n : x < 2 ^ n → y < 2 ^ n → N.lxor x y < 2 ^ n.
Proof. rewrite !lt_pow2_shiftr, N.shiftr_lxor. by intros -> ->. Qed.

Lemma lxor_cancel x y z : N.lxor x z = N.lxor y z → x = y.
Proof.
  intros Heq. rewrite <-(N.lxor_0_r x), <-(N.lxor_0_r y), <-(N.lxor_nilpotent z).
  by rewrite <-!N.lxor_assoc, Heq.
Qed.

Lemma land_1 x : N.land x 1 = N.b2n (N.odd x).
Proof.
  change 1 with (N.ones 1) at 1. by rewrite N.land_ones, N.pow_1_r, <-N.bit0_mod, N.bit0_odd.
Qed.

Lemma crc_bit_eq crc :
  crc_bit crc = if N.odd crc then N.lxor (N.div2 crc) POLYNOMIAL else N.div2 crc.
Proof.
  unfold crc_bit. rewrite land_1, <-N.div2_spec.
  destruct (N.odd crc); cbn [N.b2n]; [done|]. apply N.lxor_0_r.
Qed.

Lemma div2_bound crc : crc < 2 ^ 32 → N.div2 crc < 2 ^ 31.
Proof. rewrite N.div2_div. intros. apply N.Div0.div_lt_upper_bound; lia. Qed.

Lemma crc_bit_bound crc : crc < 2 ^ 32 → crc_bit crc < 2 ^ 32.
Proof.
  intros Hc%div2_bound. rewrite crc_bit_eq. destruct (N.odd crc); [|lia].
  apply lxor_bound; [lia|done].
Qed.

(** The top bit of a round's result is the bit shifted out. *)
Lemma crc_bit_top crc : crc < 2 ^ 32 → N.testbit (crc_bit crc) 31 = N.odd crc.
Proof.
  intros Hc%div2_bound. rewrite crc_bit_eq.
  assert (N.testbit (N.div2 crc) 31 = false) as Hd.
  { apply lt_pow2_shiftr in Hc. rewrite <-(N.add_0_l 31), <-N.shiftr_spec, Hc by lia.
    apply N.bits_0. }
  destruct (N.odd crc); [|done]. by rewrite N.lxor_spec, Hd.
Qed.

Lemma crc_bit_inj x y : x < 2 ^ 32 → y < 2 ^ 32 → crc_bit x = crc_bit y → x = y.
Proof.
  intros Hx Hy Heq. assert (N.odd x = N.odd y) as Hodd by by rewrite <-!crc_bit_top, Heq.
  rewrite !crc_bit_eq, Hodd in Heq. rewrite (N.div2_odd x), (N.div2_odd y), Hodd.
  destruct (N.odd y); [apply lxor_cancel in Heq|]; by rewrite Heq.
Qed.

Lemma crc_iter_bound n x : x < 2 ^ 32 → Nat.iter n crc_bit x < 2 ^ 32.
Proof. intros Hx. induction n as [|n IH]; [done|]. by apply crc_bit_bound. Qed.

Lemma crc_iter_inj n x y :
  x < 2 ^ 32 → y < 2 ^ 32 → Nat.iter n crc_bit x = Nat.iter n crc_bit y → x = y.
Proof.
  intros Hx Hy. induction n as [|n IH]; [done|]. cbn. intros Heq%crc_bit_inj;
    [by apply IH|by apply crc_iter_bound..].
Qed.

Lemma byte_bound_32 b : Byte.to_N b < 2 ^ 32.
Proof. pose proof (byte_to_N_bound b). lia. Qed.

Lemma crc_byte_bound x b : x < 2 ^ 32 → crc_byte x b < 2 ^ 32.
Proof. intros Hx. apply crc_iter_bound, lxor_bound; [done|apply byte_bound_32]. Qed.

Lemma crc_byte_inj_l x y b :
  x < 2 ^ 32 → y < 2 ^ 32 → crc_byte x b = crc_byte y b → x = y.
Proof.
  intros Hx Hy Heq%crc_iter_inj; [|apply lxor_bound; [done|apply byte_bound_32]..].
  by apply lxor_cancel in Heq.
Qed.

Lemma crc_byte_inj_r x a b : x < 2 ^ 32 → crc_byte x a = crc_byte x b → a = b.
Proof.
  intros Hx Heq%crc_iter_inj; [|apply lxor_bound; [done|apply byte_bound_32]..].
  rewrite !(N.lxor_comm x) in Heq. apply lxor_cancel in Heq.
  by rewrite <-(byte_to_N_of_N a), Heq, byte_to_N_of_N.
Qed.

Lemma crc_fold_bound l x : x < 2 ^ 32 → foldl crc_byte x l < 2 ^ 32.
Proof. revert x. induction l as [|b l IH]; intros x Hx; [done|]. by apply IH, crc_byte_bound. Qed.

Lemma crc_fold_inj l x y :
  x < 2 ^ 32 → y < 2 ^ 32 → foldl crc_byte x l = foldl crc_byte y l → x = y.
Proof.
  revert x y. induction l as [|b l IH]; intros x y Hx Hy; [done|]. cbn.
  intros Heq%IH; [by apply crc_byte_inj_l in Heq|by apply crc_byte_bound..].
Qed.

Lemma u32_not_bound x : x < 2 ^ 32 → u32_not x < 2 ^ 32.
Proof. intros Hx. by apply lxor_bound. Qed.

Lemma crc32_bound l : crc32_ieee l < 2 ^ 32.
Proof. by apply u32_not_bound, crc_fold_bound. Qed.

(** Changing one byte changes the checksum. *)
Lemma crc32_one_byte pre a b post :
  crc32_ieee (pre ++ a :: post) = crc32_ieee (pre ++ b :: post) → a = b.
Proof.
  unfold crc32_ieee, u32_not. intros Heq%lxor_cancel. rewrite !foldl_app in Heq. cbn in Heq.
  apply crc_fold_inj in Heq; [|by apply crc_byte_bound, crc_fold_bound..].
  apply crc_byte_inj_r in Heq; [done|]. by apply crc_fold_bound.
Qed.

(** ** The envelope theory *)
Definition envelope (payload : list byte) : list byte :=
  MAGIC ++ be_bytes 2 VERSION ++ be_bytes 8 (len payload) ++ payload.

Lemma len_sealed payload : len (envelope payload) = HEADER_LEN + len payload.
Proof.
  unfold envelope. rewrite !len_app, !len_be_bytes. change HEADER_LEN with 18.
  change (len MAGIC) with 8. lia.
Qed.

(** [encode] can only fail by exhausting the address space. *)
Lemma encode_Ok {E} payload encoded :
  encode (E := E) payload = Ok encoded ↔
  encoded = envelope payload ++ be_bytes 4 (crc32_ieee (envelope payload)) ∧
  len encoded ≤ isize_max.
Proof.
  pose proof isize_usize. unfold usize_max in *.
  assert (len (envelope payload ++ be_bytes 4 (crc32_ieee (envelope payload))) =
    HEADER_LEN + len payload + CHECKSUM_LEN) as Hlen.
  { rewrite len_app, len_sealed, len_be_bytes. done. }
  unfold encode, u64_try_from, byte_capacity. split.
  - intros He. destruct (decide (len payload ≤ u64_max)); [|done].
    cbn [expect mbind result_bind] in He.
    destruct (decide (HEADER_LEN + len payload + CHECKSUM_LEN ≤ isize_max)); [|done].
    cbn [mbind result_bind] in He. apply (inj Ok) in He as <-.
    split; [done|]. unfold envelope in Hlen. by rewrite Hlen.
  - intros [-> Hle]. rewrite Hlen in Hle.
    rewrite (decide_True (P := len payload ≤ u64_max)) by lia. cbn [expect mbind result_bind].
    by rewrite decide_True.
Qed.

Lemma encode_total {E} payload : encode (E := E) payload = Panic ∨ is_ok (encode (E := E) payload).
Proof.
  unfold encode, byte_capacity, is_ok. destruct (u64_try_from _); cbn; [|by left].
  case_decide; cbn; [right; by eexists|by left].
Qed.

(** The checks of [decode] on an input cut into its fields. *)
Lemma decode_fields m v0 v1 (l : byte_array 8) r :
  len m = 8 → CHECKSUM_LEN ≤ len r →
  let encoded := m ++ v0 :: v1 :: array_bytes l ++ r in
  decode encoded =
  if decide (m ≠ MAGIC) then Err InvalidMagic else
  if decide (be_value [v0; v1] ≠ VERSION) then Err (UnsupportedVersion (be_value [v0; v1])) else
  expected_len ← ok_or LengthOverflow
    (value ← usize_checked_add HEADER_LEN (be_value (array_bytes l));
     usize_checked_add value CHECKSUM_LEN);
  if decide (HEADER_LEN + len r ≠ expected_len) then Err LengthMismatch else
  let checksum_offset := HEADER_LEN + be_value (array_bytes l) in
  checksum_bytes ← slice encoded checksum_offset (len encoded);
  checksum_array ← expect (try_into_array 4 checksum_bytes);
  checked ← slice encoded 0 checksum_offset;
  if decide (be_value (array_bytes checksum_array) ≠ crc32_ieee checked) then Err ChecksumMismatch
  else slice encoded HEADER_LEN checksum_offset.
Proof.
  intros Hm Hr encoded. change HEADER_LEN with 18 in *. change CHECKSUM_LEN with 4 in *.
  pose proof (len_array l) as Hl.
  assert (len encoded = 18 + len r) as Hlen.
  { unfold encoded. change (v0 :: v1 :: ?x) with ([v0; v1] ++ x). rewrite !len_app, Hm, Hl.
    change (len [v0; v1]) with 2. lia. }
  unfold decode. change (len MAGIC) with 8. change HEADER_LEN with 18. change CHECKSUM_LEN with 4.
  cbn zeta. rewrite Hlen, decide_False by lia.
  assert (slice (E := RecoveryDecodeError) encoded 0 8 = Ok m) as ->.
  { apply (slice_mid encoded [] m (v0 :: v1 :: array_bytes l ++ r)); by rewrite ?Hm. }
  assert (index_at (E := RecoveryDecodeError) encoded 8 = Ok v0) as ->.
  { apply (index_at_mid encoded m (v1 :: array_bytes l ++ r)); by rewrite ?Hm. }
  assert (index_at (E := RecoveryDecodeError) encoded (8 + 1) = Ok v1) as ->.
  { apply (index_at_mid encoded (m ++ [v0]) (array_bytes l ++ r));
      [unfold encoded; by rewrite <-app_assoc|by rewrite len_app, Hm]. }
  assert (slice (E := RecoveryDecodeError) encoded (8 + 2) (8 + 2 + 8) = Ok (array_bytes l)) as ->.
  { apply (slice_mid encoded (m ++ [v0; v1]) (array_bytes l) r);
      [unfold encoded; by rewrite <-app_assoc|by rewrite len_app, Hm|by rewrite len_app, Hm, Hl]. }
  cbn [mbind result_bind]. case_decide; [done|]. case_decide; [done|].
  rewrite try_into_array_bytes. cbn [expect mbind result_bind].
  assert (usize_try_from (be_value (array_bytes l)) = Some (be_value (array_bytes l))) as ->.
  { unfold usize_try_from. rewrite decide_True; [done|]. pose proof (be_value_bound (array_bytes l)) as Hb.
    rewrite Hl in Hb. unfold usize_max, u64_max. change (256 ^ N.of_nat 8) with (2 ^ 64) in Hb. lia. }
  cbn [ok_or mbind result_bind]. done.
Qed.

Lemma encoded_fields encoded :
  HEADER_LEN + CHECKSUM_LEN ≤ len encoded →
  ∃ m v0 v1 (l : byte_array 8) r, encoded = m ++ v0 :: v1 :: array_bytes l ++ r ∧
    len m = 8 ∧ CHECKSUM_LEN ≤ len r.
Proof.
  change HEADER_LEN with 18. change CHECKSUM_LEN with 4. intros Hlen.
  destruct (split_len encoded 8) as (m & t & -> & Hm); [lia|]. rewrite len_app in Hlen.
  destruct (split_len t 2) as (h & t1 & -> & Hh); [lia|]. rewrite len_app in Hlen.
  destruct (split_len t1 8) as (l & r & -> & Hl); [lia|]. rewrite len_app in Hlen.
  destruct h as [|v0 [|v1 [|? ?]]]; unfold len in Hh; cbn in Hh; try lia.
  destruct (try_into_array_is_Some 8 l) as [la Hla%try_into_array_Some]; [unfold len in *; lia|].
  change (len [v0; v1]) with 2 in Hlen.
  exists m, v0, v1, la, r. rewrite Hla. split; [done|]. split; [done|lia].
Qed.

(** The body after the header is the payload and its checksum. *)
Lemma decode_body (l : byte_array 8) p (c : byte_array 4) :
  HEADER_LEN + (len p + CHECKSUM_LEN) ≤ usize_max → be_value (array_bytes l) = len p →
  let checked := MAGIC ++ be_bytes 2 VERSION ++ array_bytes l ++ p in
  decode (checked ++ array_bytes c) =
  if decide (be_value (array_bytes c) ≠ crc32_ieee checked) then Err ChecksumMismatch else Ok p.
Proof.
  intros Hmax Hl checked. pose proof (len_array c) as Hc. pose proof (len_array l) as Hll.
  assert (∃ v0 v1, be_bytes 2 VERSION = [v0; v1]) as (v0 & v1 & Hv) by by eexists _, _.
  assert (checked ++ array_bytes c = MAGIC ++ v0 :: v1 :: array_bytes l ++ (p ++ array_bytes c)) as Henc.
  { unfold checked. rewrite Hv. by rewrite <-!app_assoc. }
  assert (len checked = 18 + len p) as Hck.
  { unfold checked. rewrite !len_app, len_be_bytes, Hll. change (len MAGIC) with 8. lia. }
  change (N.of_nat 4) with 4 in Hc.
  rewrite Henc at 1. rewrite decode_fields; [|done|rewrite len_app, Hc; change CHECKSUM_LEN with 4; lia].
  rewrite decide_False by (intros Hn; by apply Hn).
  rewrite decide_False.
  2:{ intros Hn. apply Hn. rewrite <-Hv. by apply be_value_bytes. }
  rewrite <-Henc, Hl. change HEADER_LEN with 18 in *. change CHECKSUM_LEN with 4 in *.
  unfold usize_checked_add. rewrite decide_True by lia. cbn [mbind option_bind].
  rewrite decide_True by lia. cbn [ok_or mbind result_bind].
  rewrite decide_False by (rewrite len_app, Hc; lia). cbn zeta.
  assert (slice (E := RecoveryDecodeError) (checked ++ array_bytes c) (18 + len p)
    (len (checked ++ array_bytes c)) = Ok (array_bytes c)) as ->.
  { apply (slice_mid _ checked (array_bytes c) []); [by rewrite app_nil_r|done|by rewrite len_app]. }
  cbn [mbind result_bind]. rewrite try_into_array_bytes. cbn [expect mbind result_bind].
  assert (slice (E := RecoveryDecodeError) (checked ++ array_bytes c) 0 (18 + len p) = Ok checked) as ->.
  { apply (slice_mid _ [] checked (array_bytes c)); [done|done|by rewrite Hck]. }
  cbn [mbind result_bind]. case_decide; [done|].
  apply (slice_mid _ (MAGIC ++ be_bytes 2 VERSION ++ array_bytes l) p (array_bytes c)).
  - unfold checked. by rewrite <-!app_assoc.
  - rewrite !len_app, len_be_bytes, Hll. done.
  - rewrite !len_app, len_be_bytes, Hll. change (len MAGIC) with 8. lia.
Qed.

Lemma try_into_array_eq n l : length l = n → ∃ a : byte_array n, array_bytes a = l.
Proof. intros [a Ha%try_into_array_Some]%try_into_array_is_Some. by exists a. Qed.

(** Every input is an error or a body with its payload and checksum. *)
Lemma decode_shape encoded :
  len encoded ≤ isize_max →
  (∃ e, decode encoded = Err e) ∨
  ∃ (l : byte_array 8) p (c : byte_array 4),
    encoded = (MAGIC ++ be_bytes 2 VERSION ++ array_bytes l ++ p) ++ array_bytes c ∧
    HEADER_LEN + (len p + CHECKSUM_LEN) ≤ usize_max ∧ be_value (array_bytes l) = len p.
Proof.
  intros Hlen. pose proof isize_usize.
  destruct (decide (len encoded < HEADER_LEN + CHECKSUM_LEN)) as [Hs|Hs].
  { left. exists TooShort. unfold decode. by rewrite decide_True. }
  destruct (encoded_fields encoded) as (m & v0 & v1 & l & r & -> & Hm & Hr); [lia|].
  rewrite decode_fields by done.
  assert (len (m ++ v0 :: v1 :: array_bytes l ++ r) = HEADER_LEN + len r) as Hl.
  { change (v0 :: v1 :: ?x) with ([v0; v1] ++ x). rewrite !len_app, Hm, len_array.
    change HEADER_LEN with 18. change (len [v0; v1]) with 2. lia. }
  rewrite Hl in Hlen. clear Hl Hs. destruct (decide (m ≠ MAGIC)) as [|HM]; [by left; eexists|].
  apply dec_stable in HM as ->.
  destruct (decide (be_value [v0; v1] ≠ VERSION)) as [|HV]; [by left; eexists|]. apply dec_stable in HV.
  unfold usize_checked_add. case_decide as H1; [|by left; eexists]. cbn [mbind option_bind].
  case_decide as H2; [|by left; eexists]. cbn [ok_or mbind result_bind].
  destruct (decide (HEADER_LEN + len r ≠ HEADER_LEN + be_value (array_bytes l) + CHECKSUM_LEN))
    as [|HL]; [by left; eexists|].
  apply dec_stable in HL. right.
  destruct (split_len r (be_value (array_bytes l))) as (p & c & -> & Hp); [lia|].
  rewrite len_app in *.
  destruct (try_into_array_eq 4 c) as [ca Hca].
  { change CHECKSUM_LEN with 4 in *. unfold len in *. lia. }
  exists l, p, ca. rewrite Hca. split; [|split; [|done]].
  - rewrite <-!app_assoc. f_equal.
    rewrite <-HV. pose proof (be_bytes_value [v0; v1]) as Hv. cbn [length] in Hv. by rewrite Hv.
  - lia.
Qed.

(** [decode] inverts [encode] and accepts nothing else. *)
Lemma decode_spec encoded :
  len encoded ≤ isize_max →
  decode encoded ≠ Panic ∧
  ∀ p, decode encoded = Ok p ↔ encode (E := RecoveryDecodeError) p = Ok encoded.
Proof.
  intros Hlen. pose proof isize_usize. setoid_rewrite encode_Ok.
  destruct (decode_shape encoded Hlen) as [[e He]|(l & p & c & -> & Hmax & Hl)].
  - rewrite He. split; [done|]. intros p. split; [done|]. intros [-> _]. exfalso. revert He.
    destruct (try_into_array_eq 8 (be_bytes 8 (len p))) as [l Hl]; [by rewrite length_be_bytes|].
    destruct (try_into_array_eq 4 (be_bytes 4 (crc32_ieee (envelope p)))) as [c Hc];
      [by rewrite length_be_bytes|].
    rewrite len_app, len_sealed, len_be_bytes in Hlen.
    assert (envelope p = MAGIC ++ be_bytes 2 VERSION ++ array_bytes l ++ p) as Henv
      by by unfold envelope; rewrite Hl.
    rewrite <-Hc, Henv, decode_body; [|change CHECKSUM_LEN with 4; lia|].
    + rewrite decide_False; [done|]. intros Hn. apply Hn. rewrite Hc, <-Henv.
      apply be_value_bytes. apply crc32_bound.
    + rewrite Hl. apply be_value_bytes. change (256 ^ N.of_nat 8) with (2 ^ 64).
      unfold isize_max in *. lia.
  - rewrite decode_body by done. cbn zeta.
    assert (array_bytes l = be_bytes 8 (len p)) as Hlb.
    { rewrite <-Hl. pose proof (be_bytes_value (array_bytes l)) as Hb. by rewrite length_array_bytes in Hb. }
    assert (MAGIC ++ be_bytes 2 VERSION ++ array_bytes l ++ p = envelope p) as Henv
      by by unfold envelope; rewrite Hlb.
    rewrite Henv in *.
    assert (∀ q, envelope p ++ array_bytes c = envelope q ++ be_bytes 4 (crc32_ieee (envelope q)) →
      q = p ∧ be_value (array_bytes c) = crc32_ieee (envelope p)) as Hback.
    { intros q Henc.
      apply app_inj_2 in Henc as [He Hc]; [|by rewrite length_be_bytes, length_array_bytes].
      assert (q = p) as ->.
      { unfold envelope in He. do 2 apply app_inv_head in He.
        apply app_inj_len in He as [_ He]; [done|by rewrite !len_be_bytes]. }
      split; [done|]. rewrite Hc. apply be_value_bytes, crc32_bound. }
    destruct (decide (be_value (array_bytes c) ≠ crc32_ieee (envelope p))) as [Hne|Heq].
    + split; [done|]. intros q. split; [done|]. intros [[_ ?]%Hback _]. done.
    + apply dec_stable in Heq. split; [done|]. intros q. split; [|by intros [[-> _]%Hback _]].
      intros [= <-]. split; [|done]. rewrite <-Heq. f_equal.
      pose proof (be_bytes_value (array_bytes c)) as Hb. by rewrite length_array_bytes in Hb.
Qed.

(** Two concatenations that differ in one byte differ in one of their parts. *)
Lemma one_byte_app (x y x' y' pre post : list byte) a b :
  length x = length x' → x ++ y = pre ++ a :: post → x' ++ y' = pre ++ b :: post →
  (∃ post', x = pre ++ a :: post' ∧ x' = pre ++ b :: post' ∧ y = y') ∨ x = x'.
Proof.
  revert x x'. induction pre as [|c pre IH]; intros [|e x] [|e' x'] Hlen Hx Hx'; cbn in *; simplify_eq.
  - by right.
  - left. exists x. by apply app_inj_1 in H0 as [-> ->].
  - by right.
  - destruct (IH x x') as [(post' & -> & -> & ->)| ->]; [done..| |by right].
    left. by exists post'.
Qed.

(** One corrupted byte anywhere is detected. *)
Lemma corrupted_byte payload pre a b post :
  a ≠ b → encode (E := RecoveryDecodeError) payload = Ok (pre ++ a :: post) →
  ∃ e, decode (pre ++ b :: post) = Err e.
Proof.
  intros Hab [Henc Hlen]%encode_Ok.
  assert (len (pre ++ b :: post) ≤ isize_max) as Hlen' by (unfold len in *; rewrite length_app in *; exact Hlen).
  destruct (decode_spec (pre ++ b :: post) Hlen') as [Hnp Hd].
  destruct (decode (pre ++ b :: post)) as [q|e|]; [|by eexists|done]. exfalso.
  pose proof (proj1 (Hd q) eq_refl) as [Hqe _]%encode_Ok. clear Hnp Hd. symmetry in Henc. symmetry in Hqe.
  assert (∀ p r, be_bytes 4 (crc32_ieee (envelope p)) = be_bytes 4 (crc32_ieee (envelope r)) →
    crc32_ieee (envelope p) = crc32_ieee (envelope r)) as Hcrc.
  { intros p r. apply be_bytes_inj; apply crc32_bound. }
  assert (length (envelope payload) = length (envelope q)) as Heq.
  { apply (f_equal length) in Henc, Hqe. rewrite !length_app, !length_be_bytes in Henc, Hqe.
    cbn [length] in Henc, Hqe. lia. }
  destruct (one_byte_app _ _ _ _ _ _ _ _ Heq Henc Hqe) as [(post' & He & He' & Hc)|He].
  - apply Hcrc in Hc. rewrite He, He' in Hc. by apply crc32_one_byte in Hc.
  - rewrite He in Henc. rewrite Henc in Hqe. apply app_inv_head in Hqe. by simplify_eq.
Qed.
