(* ===== verification/Fs.v ===== *)
(** * Files and directories, as std::fs sees a Unix filesystem

    What crates/apc-storage-fs/src/lib.rs uses of the standard library: files
    with contents that [sync_all] makes durable, and two directories, the
    store's root and its objects, whose changes take effect in order and become
    durable when the directory is synced.  A power loss leaves each directory
    as it was after some change since its last sync, keeps the contents of
    synced files and leaves anything in the others.  Any call may fail: the
    answers of the device are part of the state. *)
From Stdlib Require Import Lia NArith Strings.Byte.
From stdpp Require Import base tactics option list gmap numbers.
From S2P Require Import Prelude BTree Bytes.
Local Open Scope N_scope.

Definition FileName : Type := list byte.

(** [std::io::ErrorKind], the kinds the code tells apart. *)
Inductive ErrorKind : Type :=
  | NotFound
  | AlreadyExists
  | OtherKind.

#[export] Instance ErrorKind_eq_dec : EqDecision ErrorKind.
Proof. solve_decision. Defined.

Record Inode : Type := Inode_mk {
  contents : list byte;
  synced : bool;
}.

(** The entries now, and as they were after each change since the last sync,
    the latest first. *)
Record Directory : Type := Directory_mk {
  entries : gmap FileName N;
  unsynced : list (gmap FileName N);
}.

(** [device n] is the answer to the [n]-th call to come: [None] when it is
    carried out, [Some k] when it fails, a write after [k] bytes. *)
Record Fs : Type := Fs_mk {
  inodes : gmap N Inode;
  objects_directory : Directory;
  root_directory : Directory;
  device : nat → option nat;
}.

Inductive Dir : Type :=
  | ObjectsDir
  | RootDir.

Definition directory (d : Dir) (fs : Fs) : Directory :=
  match d with
  | ObjectsDir => objects_directory fs
  | RootDir => root_directory fs
  end.

Definition snapshots (dir : Directory) : list (gmap FileName N) := entries dir :: unsynced dir.

Module Fs.
Implicit Types fs : Fs.

Definition with_inodes (m : gmap N Inode) fs : Fs :=
  Fs_mk m (objects_directory fs) (root_directory fs) (device fs).

Definition with_directory (d : Dir) (dir : Directory) fs : Fs :=
  match d with
  | ObjectsDir => Fs_mk (inodes fs) dir (root_directory fs) (device fs)
  | RootDir => Fs_mk (inodes fs) (objects_directory fs) dir (device fs)
  end.

(** The device's answer to the next call. *)
Definition answer : stateful Fs ErrorKind (option nat) :=
  fs ← get_state;
  _ ← put_state (Fs_mk (inodes fs) (objects_directory fs) (root_directory fs)
        (λ n, device fs (S n)));
  mret (device fs 0).

(** A call that either takes effect or fails without effect. *)
Definition attempt : stateful Fs ErrorKind unit :=
  failed ← answer;
  match failed with
  | None => mret tt
  | Some _ => throw OtherKind
  end.

Definition put_inode (i : N) (inode : Inode) : stateful Fs ErrorKind unit :=
  fs ← get_state;
  put_state (with_inodes (<[i := inode]> (inodes fs)) fs).

Definition change_directory (d : Dir) (f : gmap FileName N → gmap FileName N) :
    stateful Fs ErrorKind unit :=
  fs ← get_state;
  let dir := directory d fs in
  put_state (with_directory d (Directory_mk (f (entries dir)) (snapshots dir)) fs).

Definition lookup_name (d : Dir) (name : FileName) : stateful Fs ErrorKind N :=
  fs ← get_state;
  lift_result (ok_or NotFound (entries (directory d fs) !! name)).

(** A new empty file under [name]. *)
Definition create (d : Dir) (name : FileName) : stateful Fs ErrorKind N :=
  fs ← get_state;
  let i := fresh (dom (inodes fs)) in
  _ ← put_inode i (Inode_mk [] false);
  _ ← change_directory d (<[name := i]>);
  mret i.

(** [OpenOptions::new().write(true).create_new(true).open(..)]. *)
Definition open_create_new (d : Dir) (name : FileName) : stateful Fs ErrorKind N :=
  _ ← attempt;
  fs ← get_state;
  match entries (directory d fs) !! name with
  | Some _ => throw AlreadyExists
  | None => create d name
  end.

(** [File::open(..)]. *)
Definition open (d : Dir) (name : FileName) : stateful Fs ErrorKind N :=
  _ ← attempt;
  lookup_name d name.

(** [OpenOptions::new().write(true).truncate(true).open(..)]. *)
Definition open_truncate (d : Dir) (name : FileName) : stateful Fs ErrorKind N :=
  _ ← attempt;
  i ← lookup_name d name;
  _ ← put_inode i (Inode_mk [] false);
  mret i.

(** [OpenOptions::new().write(true).create(true).truncate(true).open(..)]. *)
Definition open_create_truncate (d : Dir) (name : FileName) : stateful Fs ErrorKind N :=
  _ ← attempt;
  fs ← get_state;
  match entries (directory d fs) !! name with
  | Some i => _ ← put_inode i (Inode_mk [] false); mret i
  | None => create d name
  end.

(** [file.write_all(bytes)], at the end of what has been written. *)
Definition write_all (i : N) (bytes : list byte) : stateful Fs ErrorKind unit :=
  failed ← answer;
  fs ← get_state;
  inode ← lift_result (expect (inodes fs !! i));
  match failed with
  | None => put_inode i (Inode_mk (contents inode ++ bytes) false)
  | Some k =>
      _ ← put_inode i (Inode_mk (contents inode ++ take k bytes) false);
      throw OtherKind
  end.

(** [file.flush()]: a [File] has no buffer of its own. *)
Definition flush (i : N) : stateful Fs ErrorKind unit := mret tt.

(** [file.sync_all()]. *)
Definition sync_all (i : N) : stateful Fs ErrorKind unit :=
  _ ← attempt;
  fs ← get_state;
  inode ← lift_result (expect (inodes fs !! i));
  put_inode i (Inode_mk (contents inode) true).

(** [file.read_to_end(..)]. *)
Definition read_to_end (i : N) : stateful Fs ErrorKind (list byte) :=
  _ ← attempt;
  fs ← get_state;
  inode ← lift_result (expect (inodes fs !! i));
  mret (contents inode).

(** [File::open(directory)] and its [sync_all()]. *)
Definition open_directory (d : Dir) : stateful Fs ErrorKind unit := attempt.
Definition sync_directory (d : Dir) : stateful Fs ErrorKind unit :=
  _ ← attempt;
  fs ← get_state;
  put_state (with_directory d (Directory_mk (entries (directory d fs)) []) fs).

(** [fs::rename] within a directory. *)
Definition rename (d : Dir) (from to : FileName) : stateful Fs ErrorKind unit :=
  _ ← attempt;
  i ← lookup_name d from;
  change_directory d (λ m, <[to := i]> (delete from m)).

(** [fs::read_dir]: the names, in some order. *)
Definition read_dir (d : Dir) : stateful Fs ErrorKind (list FileName) :=
  _ ← attempt;
  fs ← get_state;
  mret (map_to_list (entries (directory d fs))).*1.

Definition remove_file (d : Dir) (name : FileName) : stateful Fs ErrorKind unit :=
  _ ← attempt;
  _ ← lookup_name d name;
  change_directory d (delete name).

(** [fs::write] and [fs::read] of a whole file. *)
Definition write (d : Dir) (name : FileName) (bytes : list byte) : stateful Fs ErrorKind unit :=
  i ← open_create_truncate d name;
  write_all i bytes.

Definition read (d : Dir) (name : FileName) : stateful Fs ErrorKind (list byte) :=
  i ← open d name;
  read_to_end i.

(** [fs::remove_dir_all] of the store: the files of each directory in some
    order, and the directory when it is empty. *)
Definition remove_dir_all : stateful Fs ErrorKind unit :=
  names ← read_dir ObjectsDir;
  _ ← st_for_each (remove_file ObjectsDir) names;
  _ ← attempt;
  names ← read_dir RootDir;
  _ ← st_for_each (remove_file RootDir) names;
  attempt.
End Fs.

(** An empty store on a device that fails its calls as [dev] says. *)
Definition fs_new (dev : nat → option nat) : Fs :=
  Fs_mk ∅ (Directory_mk ∅ []) (Directory_mk ∅ []) dev.

(** ** Power loss *)
Definition fs_crash (fs fs' : Fs) : Prop :=
  (∃ m, m ∈ snapshots (objects_directory fs) ∧ objects_directory fs' = Directory_mk m []) ∧
  (∃ m, m ∈ snapshots (root_directory fs) ∧ root_directory fs' = Directory_mk m []) ∧
  dom (inodes fs') = dom (inodes fs) ∧
  ∀ i n n', inodes fs !! i = Some n → inodes fs' !! i = Some n' →
    synced n' = true ∧ (synced n = true → contents n' = contents n).
