(* ===== verification/FsStorage.v ===== *)
(** * The Unix filesystem backend (crates/apc-storage-fs/src/lib.rs)

    Immutable candidate files and one root manifest replaced by renaming.  The
    backend's state is its counter and the filesystem below it.  The laws of the
    durability contract are proved for it against the power-loss model of
    Fs.v. *)
From Stdlib Require Import Lia NArith Strings.Byte.
From stdpp Require Import base tactics option list gmap numbers.
From S2P Require Import Prelude BTree Bytes Durability FsRecovery Text Fs.
Local Open Scope N_scope.

Definition ROOT_FILE : FileName := b_ "root".
Definition ROOT_NEXT_FILE : FileName := b_ "root.next".
Definition CANDIDATE_PREFIX : list byte := b_ "candidate-".
Definition CANDIDATE_SUFFIX : list byte := b_ ".bin".

Inductive FsStorageError : Type :=
  | Io (error : ErrorKind)
  | InvalidRootManifest
  | InvalidRecoveryRecord
  | CandidateIdExhausted.

#[export] Instance FsStorageError_eq_dec : EqDecision FsStorageError.
Proof. solve_decision. Defined.

Record FsCandidate : Type := FsCandidate_mk {
  file_name : FileName;
}.

(** The counter is a [u64]: opening gives one, and a commit keeps it so. *)
Record UnixFsDurabilityBackend : Type := UnixFsDurabilityBackend_mk {
  filesystem : Fs;
  next_candidate : N;
}.

Definition valid_candidate_name (file_name : FileName) : bool :=
  match strip_prefix CANDIDATE_PREFIX file_name ≫= strip_suffix CANDIDATE_SUFFIX with
  | None => false
  | Some number => bool_decide (length number = 20%nat) && forallb is_ascii_digit number
  end.

(** [format!("{CANDIDATE_PREFIX}{id:020}{CANDIDATE_SUFFIX}")]. *)
Definition candidate_name (id : N) : FileName := CANDIDATE_PREFIX ++ decimal 20 id ++ CANDIDATE_SUFFIX.

(** The digits of a valid name. *)
Definition name_digits (file_name : FileName) : list byte :=
  take (length file_name - length CANDIDATE_PREFIX - length CANDIDATE_SUFFIX)
    (drop (length CANDIDATE_PREFIX) file_name).

Definition scan_entry (maximum : option N) (file_name : FileName) : option N :=
  if valid_candidate_name file_name then
    match parse_u64 (name_digits file_name) with
    | None => maximum
    | Some value => Some (default value ((λ current, N.max current value) <$> maximum))
    end
  else maximum.

Definition scan_next_candidate : stateful Fs FsStorageError N :=
  names ← map_err_st Io (Fs.read_dir ObjectsDir);
  match foldl scan_entry None names with
  | None => mret 0
  | Some value => lift_result (ok_or CandidateIdExhausted (u64_checked_add value 1))
  end.

Module UnixFsDurabilityBackend.
Implicit Types self : UnixFsDurabilityBackend.

(** [open]: the store's two directories exist, so [create_dir_all] changes
    nothing, but may fail. *)
Definition open_counter : stateful Fs FsStorageError N :=
  _ ← map_err_st Io Fs.attempt;
  scan_next_candidate.

Definition open (fs : Fs) : result FsStorageError UnixFsDurabilityBackend :=
  let '(fs, scanned) := open_counter fs in
  next ← scanned;
  Ok (UnixFsDurabilityBackend_mk fs next).

Definition on_fs {A : Type} (m : stateful Fs ErrorKind A) :
    stateful UnixFsDurabilityBackend FsStorageError A :=
  on_field filesystem (λ fs self, UnixFsDurabilityBackend_mk fs (next_candidate self))
    (map_err_st Io m).

(** One turn of the loop of [allocate_candidate]; [None] to go on. *)
Definition allocate_once : stateful UnixFsDurabilityBackend FsStorageError (option FsCandidate) := λ self,
  let id := next_candidate self in
  match u64_checked_add id 1 with
  | None => (self, Err CandidateIdExhausted)
  | Some next =>
      let '(fs, opened) := Fs.open_create_new ObjectsDir (candidate_name id) (filesystem self) in
      (UnixFsDurabilityBackend_mk fs next,
       match opened with
       | Ok _ => Ok (Some (FsCandidate_mk (candidate_name id)))
       | Err AlreadyExists => Ok None
       | Err error => Err (Io error)
       | Panic => Panic
       end)
  end.

Fixpoint allocate_loop (fuel : nat) : stateful UnixFsDurabilityBackend FsStorageError FsCandidate :=
  match fuel with
  | O => lift_result Panic
  | S fuel =>
      allocated ← allocate_once;
      match allocated with
      | Some candidate => mret candidate
      | None => allocate_loop fuel
      end
  end.

(** Every turn but the last meets another existing name. *)
Definition allocate_candidate : stateful UnixFsDurabilityBackend FsStorageError FsCandidate :=
  self ← get_state;
  allocate_loop (S (size (entries (objects_directory (filesystem self))))).

(** [File::open(root)], with a missing file as [None]. *)
Definition open_manifest : stateful Fs FsStorageError (option N) := λ fs,
  match Fs.open RootDir ROOT_FILE fs with
  | (fs, Ok file) => (fs, Ok (Some file))
  | (fs, Err NotFound) => (fs, Ok None)
  | (fs, Err error) => (fs, Err (Io error))
  | (fs, Panic) => (fs, Panic)
  end.

(** [manifest.read_to_string(..)]. *)
Definition read_to_string (file : N) : stateful Fs FsStorageError (list byte) :=
  bytes ← map_err_st Io (Fs.read_to_end file);
  if utf8_valid bytes then mret bytes else throw (Io OtherKind).

Definition read_committed : stateful Fs FsStorageError (option (list byte)) :=
  manifest ← open_manifest;
  match manifest with
  | None => mret None
  | Some manifest =>
      file_name ← read_to_string manifest;
      let file_name := trim_end x0a file_name in
      if negb (valid_candidate_name file_name) then throw InvalidRootManifest else
      file ← map_err_st Io (Fs.open ObjectsDir file_name);
      encoded ← map_err_st Io (Fs.read_to_end file);
      state ← lift_result (map_err (λ _, InvalidRecoveryRecord) (decode encoded));
      mret (Some state)
  end.

(** [&self]: what the device answers meanwhile is not kept. *)
Definition load_committed self : result FsStorageError (option (list byte)) :=
  (read_committed (filesystem self)).2.

Definition write_candidate (state : list byte) :
    stateful UnixFsDurabilityBackend FsStorageError FsCandidate :=
  candidate ← allocate_candidate;
  encoded ← lift_result (encode state);
  file ← on_fs (Fs.open_truncate ObjectsDir (file_name candidate));
  _ ← on_fs (Fs.write_all file encoded);
  _ ← on_fs (Fs.flush file);
  mret candidate.

Definition sync_candidate (candidate : FsCandidate) :
    stateful UnixFsDurabilityBackend FsStorageError unit :=
  file ← on_fs (Fs.open ObjectsDir (file_name candidate));
  _ ← on_fs (Fs.sync_all file);
  _ ← on_fs (Fs.open_directory ObjectsDir);
  on_fs (Fs.sync_directory ObjectsDir).

Definition publish_candidate (candidate : FsCandidate) :
    stateful UnixFsDurabilityBackend FsStorageError unit :=
  if negb (valid_candidate_name (file_name candidate)) then throw InvalidRootManifest else
  next ← on_fs (Fs.open_create_truncate RootDir ROOT_NEXT_FILE);
  _ ← on_fs (Fs.write_all next (file_name candidate));
  _ ← on_fs (Fs.write_all next [x0a]);
  _ ← on_fs (Fs.sync_all next);
  on_fs (Fs.rename RootDir ROOT_NEXT_FILE ROOT_FILE).

Definition sync_committed_root : stateful UnixFsDurabilityBackend FsStorageError unit :=
  _ ← on_fs (Fs.open_directory RootDir);
  on_fs (Fs.sync_directory RootDir).
End UnixFsDurabilityBackend.

#[export] Instance unix_fs_backend : DurabilityBackend UnixFsDurabilityBackend (list byte) := {|
  Candidate := FsCandidate;
  BackendError := FsStorageError;
  load_committed := UnixFsDurabilityBackend.load_committed;
  write_candidate := UnixFsDurabilityBackend.write_candidate;
  sync_candidate := UnixFsDurabilityBackend.sync_candidate;
  publish_candidate := UnixFsDurabilityBackend.publish_candidate;
  sync_committed_root := UnixFsDurabilityBackend.sync_committed_root;
|}.

(** A restart finds the crashed filesystem and some counter. *)
#[export] Instance unix_fs_crash : CrashModel UnixFsDurabilityBackend (list byte) :=
  λ b b', fs_crash (filesystem b) (filesystem b').

(** ** Candidate names *)
Lemma valid_name_shape name :
  valid_candidate_name name = true ↔
  ∃ number, name = CANDIDATE_PREFIX ++ number ++ CANDIDATE_SUFFIX ∧ length number = 20%nat ∧
    ∀ b, b ∈ number → is_ascii_digit b = true.
Proof.
  unfold valid_candidate_name. split.
  - destruct (strip_prefix _ _ ≫= _) as [number|] eqn:Hs; [|done].
    apply bind_Some in Hs as (r & Hr%strip_prefix_Some & Hn%strip_suffix_Some). subst.
    intros [Hl%bool_decide_eq_true Hd]%andb_true_iff. exists number. split; [done|]. split; [done|].
    intros b Hb. rewrite forallb_forall in Hd. apply Hd. by apply list_elem_of_In.
  - intros (number & -> & Hl & Hd).
    rewrite (proj2 (strip_prefix_Some _ _ (number ++ CANDIDATE_SUFFIX)) eq_refl). cbn [mbind option_bind].
    rewrite (proj2 (strip_suffix_Some _ _ number) eq_refl). apply andb_true_iff.
    split; [by apply bool_decide_eq_true|]. apply forallb_forall. intros b Hb.
    by apply Hd, list_elem_of_In.
Qed.

Lemma name_digits_of number : name_digits (CANDIDATE_PREFIX ++ number ++ CANDIDATE_SUFFIX) = number.
Proof.
  unfold name_digits. rewrite drop_app_length.
  replace (_ - _)%nat with (length number) by (rewrite !length_app; lia). apply take_app_length.
Qed.

Lemma candidate_name_valid id : valid_candidate_name (candidate_name id) = true.
Proof.
  apply valid_name_shape. exists (decimal 20 id). split; [done|].
  split; [apply length_decimal|]. apply decimal_digits.
Qed.

Lemma candidate_name_parse id : id ≤ u64_max → parse_u64 (name_digits (candidate_name id)) = Some id.
Proof.
  intros Hid. unfold candidate_name. rewrite name_digits_of. unfold parse_u64. cbn zeta.
  rewrite decimal_value_decimal by (change (10 ^ N.of_nat 20) with 100000000000000000000;
    unfold u64_max in *; lia).
  by rewrite decide_True.
Qed.

(** A valid name survives the manifest's text round trip. *)
Lemma valid_name_text name :
  valid_candidate_name name = true →
  utf8_valid (name ++ [x0a]) = true ∧ trim_end x0a (name ++ [x0a]) = name.
Proof.
  intros (number & -> & Hl & Hd)%valid_name_shape. split.
  - apply utf8_ascii. intros b Hb.
    assert (b ∈ CANDIDATE_PREFIX ∨ b ∈ number ∨ b ∈ CANDIDATE_SUFFIX ∨ b ∈ [x0a]) as Hcase
      by (rewrite !elem_of_app in Hb; tauto).
    assert (∀ l, forallb (λ b, Byte.to_N b <? 0x80) l = true → b ∈ l → Byte.to_N b < 0x80) as Hascii.
    { intros l. rewrite forallb_forall. intros Hall Hin. by apply N.ltb_lt, Hall, list_elem_of_In. }
    destruct Hcase as [Hb'|[Hb'|[Hb'|Hb']]].
    + by apply (Hascii CANDIDATE_PREFIX).
    + specialize (Hd b Hb'). unfold is_ascii_digit, in_range in Hd.
      apply andb_true_iff in Hd as [_ Hd%N.leb_le]. lia.
    + by apply (Hascii CANDIDATE_SUFFIX).
    + by apply (Hascii [x0a]).
  - assert (CANDIDATE_SUFFIX = b_ ".bi" ++ [x6e]) as -> by done.
    rewrite <-!app_assoc. cbn [app]. rewrite !app_assoc.
    apply trim_end_one. discriminate.
Qed.
