(* ===== verification/FsLaws.v ===== *)
(** * The filesystem backend keeps the durability contract

    The invariant of the store's two directories, its preservation by every call
    on every path, and the instance of [DurabilityLaws]. *)
From Stdlib Require Import Lia NArith Strings.Byte.
From stdpp Require Import base tactics option list gmap numbers.
From S2P Require Import Prelude Outcome BTree Bytes Durability FsRecovery Text Fs FsStorage.
Local Open Scope N_scope.

Lemma outcome_on_fs {A} (m : stateful Fs ErrorKind A) b Q X :
  outcome m (filesystem b)
    (λ fs a, Q (UnixFsDurabilityBackend_mk fs (next_candidate b)) a)
    (λ fs, X (UnixFsDurabilityBackend_mk fs (next_candidate b))) →
  outcome (UnixFsDurabilityBackend.on_fs m) b Q X.
Proof.
  unfold outcome, UnixFsDurabilityBackend.on_fs, on_field, map_err_st.
  by destruct (m (filesystem b)) as [fs [a|e|]].
Qed.

(** ** The calls of the filesystem *)
Section calls.
Implicit Types fs : Fs.

Definition with_device (dev : nat → option nat) fs : Fs :=
  Fs_mk (inodes fs) (objects_directory fs) (root_directory fs) dev.

Lemma answer_eq fs : Fs.answer fs = (with_device (λ n, device fs (S n)) fs, Ok (device fs 0)).
Proof. reflexivity. Qed.

Lemma outcome_attempt fs (Q : Fs → unit → Prop) (X : Fs → Prop) :
  (∀ dev, Q (with_device dev fs) tt) → (∀ dev, X (with_device dev fs)) →
  outcome Fs.attempt fs Q X.
Proof.
  intros HQ HX. unfold outcome, Fs.attempt. rewrite st_bind, answer_eq.
  destruct (device fs 0); [apply HX|apply HQ].
Qed.

Lemma outcome_open d name fs (Q : Fs → N → Prop) (X : Fs → Prop) :
  (∀ dev i, entries (directory d fs) !! name = Some i → Q (with_device dev fs) i) →
  (∀ dev, X (with_device dev fs)) →
  outcome (Fs.open d name) fs Q X.
Proof.
  intros HQ HX. apply outcome_bind, outcome_attempt; [|done]. intros dev.
  apply outcome_get, outcome_lift; [|done]. intros i Hi%ok_or_Ok. apply HQ. by destruct d.
Qed.

(** A new file: its inode is fresh and the directory gains one entry. *)
Definition created d (name : FileName) (i : N) fs : Fs :=
  let dir := directory d fs in
  Fs.with_directory d (Directory_mk (<[name := i]> (entries dir)) (snapshots dir))
    (Fs.with_inodes (<[i := Inode_mk [] false]> (inodes fs)) fs).

Lemma create_eq d name fs :
  Fs.create d name fs =
  (created d name (fresh (dom (inodes fs))) fs, Ok (fresh (dom (inodes fs)))).
Proof. by destruct d. Qed.

Definition set_inode (i : N) (n : Inode) fs : Fs := Fs.with_inodes (<[i := n]> (inodes fs)) fs.

Lemma outcome_open_create_new d name fs (Q : Fs → N → Prop) (X : Fs → Prop) :
  (∀ dev i, entries (directory d fs) !! name = None → i ∉ dom (inodes fs) →
     Q (created d name i (with_device dev fs)) i) →
  (∀ dev, X (with_device dev fs)) →
  outcome (Fs.open_create_new d name) fs Q X.
Proof.
  intros HQ HX. apply outcome_bind, outcome_attempt; [|done]. intros dev. apply outcome_get.
  destruct (entries (directory d (with_device dev fs)) !! name) eqn:Hn; [by apply HX|].
  unfold outcome. rewrite create_eq. apply HQ; [by destruct d|]. apply is_fresh.
Qed.

Lemma outcome_open_truncate d name fs (Q : Fs → N → Prop) (X : Fs → Prop) :
  (∀ dev i, entries (directory d fs) !! name = Some i →
     Q (set_inode i (Inode_mk [] false) (with_device dev fs)) i) →
  (∀ dev, X (with_device dev fs)) →
  outcome (Fs.open_truncate d name) fs Q X.
Proof.
  intros HQ HX. apply outcome_bind, outcome_attempt; [|done]. intros dev.
  apply outcome_bind, outcome_get, outcome_lift; [|done]. intros i Hi%ok_or_Ok.
  apply HQ. by destruct d.
Qed.

Lemma outcome_open_create_truncate d name fs (Q : Fs → N → Prop) (X : Fs → Prop) :
  (∀ dev i, entries (directory d fs) !! name = Some i →
     Q (set_inode i (Inode_mk [] false) (with_device dev fs)) i) →
  (∀ dev i, entries (directory d fs) !! name = None → i ∉ dom (inodes fs) →
     Q (created d name i (with_device dev fs)) i) →
  (∀ dev, X (with_device dev fs)) →
  outcome (Fs.open_create_truncate d name) fs Q X.
Proof.
  intros HS HN HX. apply outcome_bind, outcome_attempt; [|done]. intros dev. apply outcome_get.
  destruct (entries (directory d (with_device dev fs)) !! name) as [i|] eqn:Hn.
  - apply HS. by destruct d.
  - unfold outcome. rewrite create_eq. apply HN; [by destruct d|]. apply is_fresh.
Qed.

(** A write appends all the bytes, or fails after the first few. *)
Lemma outcome_write_all i n bytes fs (Q : Fs → unit → Prop) (X : Fs → Prop) :
  inodes fs !! i = Some n →
  (∀ dev, Q (set_inode i (Inode_mk (contents n ++ bytes) false) (with_device dev fs)) tt) →
  (∀ dev k, X (set_inode i (Inode_mk (contents n ++ take k bytes) false) (with_device dev fs))) →
  outcome (Fs.write_all i bytes) fs Q X.
Proof.
  intros Hi HQ HX. unfold outcome, Fs.write_all. rewrite st_bind, answer_eq. run_st.
  cbn [inodes with_device]. rewrite Hi. destruct (device fs 0); [apply HX|apply HQ].
Qed.

Lemma outcome_sync_all i n fs (Q : Fs → unit → Prop) (X : Fs → Prop) :
  inodes fs !! i = Some n →
  (∀ dev, Q (set_inode i (Inode_mk (contents n) true) (with_device dev fs)) tt) →
  (∀ dev, X (with_device dev fs)) →
  outcome (Fs.sync_all i) fs Q X.
Proof.
  intros Hi HQ HX. apply outcome_bind, outcome_attempt; [|done]. intros dev. apply outcome_get.
  unfold outcome. rewrite st_bind. run_st. cbn. rewrite Hi. apply HQ.
Qed.

Definition directory_synced d fs : Fs :=
  Fs.with_directory d (Directory_mk (entries (directory d fs)) []) fs.

Lemma outcome_sync_directory d fs (Q : Fs → unit → Prop) (X : Fs → Prop) :
  (∀ dev, Q (directory_synced d (with_device dev fs)) tt) →
  (∀ dev, X (with_device dev fs)) →
  outcome (Fs.sync_directory d) fs Q X.
Proof.
  intros HQ HX. apply outcome_bind, outcome_attempt; [|done]. intros dev. apply HQ.
Qed.

Definition renamed d (from to : FileName) (i : N) fs : Fs :=
  let dir := directory d fs in
  Fs.with_directory d (Directory_mk (<[to := i]> (delete from (entries dir))) (snapshots dir)) fs.

Lemma outcome_rename d from to fs (Q : Fs → unit → Prop) (X : Fs → Prop) :
  (∀ dev i, entries (directory d fs) !! from = Some i →
     Q (renamed d from to i (with_device dev fs)) tt) →
  (∀ dev, X (with_device dev fs)) →
  outcome (Fs.rename d from to) fs Q X.
Proof.
  intros HQ HX. apply outcome_bind, outcome_attempt; [|done]. intros dev.
  apply outcome_bind, outcome_get, outcome_lift; [|done]. intros i Hi%ok_or_Ok.
  unfold outcome. assert (entries (directory d fs) !! from = Some i) as Hi' by by destruct d.
  specialize (HQ dev i Hi'). by destruct d.
Qed.
End calls.

(** ** The store's invariant *)
Section invariant.
Implicit Types (fs : Fs) (R O : gmap FileName N) (o : option (list byte)).

Notation roots fs := (snapshots (root_directory fs)).
Notation objects_of fs := (snapshots (objects_directory fs)).

(** The file [m] durably names a candidate. *)
Definition manifest fs (m : N) (name : FileName) : Prop :=
  inodes fs !! m = Some (Inode_mk (name ++ [x0a]) true) ∧ valid_candidate_name name = true.

(** The state the root directory [R] commits to, whatever a power loss leaves
    of the objects directory. *)
Definition committed fs R o : Prop :=
  match R !! ROOT_FILE with
  | None => o = None
  | Some m => ∃ name i encoded s, manifest fs m name ∧ (∀ O, O ∈ objects_of fs → O !! name = Some i) ∧
      inodes fs !! i = Some (Inode_mk encoded true) ∧ decode encoded = Ok s ∧ o = Some s
  end.

(** Entries name files, and no file is in both directories. *)
Definition entries_ok fs : Prop :=
  (∀ R name i, R ∈ roots fs → R !! name = Some i → i ∈ dom (inodes fs)) ∧
  (∀ O name i, O ∈ objects_of fs → O !! name = Some i → i ∈ dom (inodes fs)) ∧
  (∀ R O n1 n2 i, R ∈ roots fs → O ∈ objects_of fs → R !! n1 = Some i → O !! n2 = Some i → False).

(** The manifest to come is not one a power loss can bring back. *)
Definition next_apart fs : Prop :=
  ∀ R m, R ∈ roots fs → R !! ROOT_FILE = Some m →
    R !! ROOT_NEXT_FILE ≠ Some m ∧ entries (root_directory fs) !! ROOT_NEXT_FILE ≠ Some m.

Definition structure_ok fs : Prop := entries_ok fs ∧ next_apart fs.

Definition fs_ok fs : Prop :=
  structure_ok fs ∧ ∀ R, R ∈ roots fs → ∃ o, committed fs R o.

(** What some root directory commits to. *)
Definition rec fs o : Prop := ∃ R, R ∈ roots fs ∧ committed fs R o.

(** The files a committed state rests on. *)
Definition protected fs (x : N) : Prop :=
  ∃ R m, R ∈ roots fs ∧ R !! ROOT_FILE = Some m ∧
    (x = m ∨ ∃ name, manifest fs m name ∧ ∀ O, O ∈ objects_of fs → O !! name = Some x).

Lemma snapshots_entries dir : entries dir ∈ snapshots dir.
Proof. left. Qed.

Lemma name_newline_inj (a b : FileName) : a ++ [x0a] = b ++ [x0a] → a = b.
Proof. intros Heq. by apply app_inj_2 in Heq as [-> _]. Qed.

Lemma committed_det fs R o o' : committed fs R o → committed fs R o' → o = o'.
Proof.
  unfold committed. destruct (R !! ROOT_FILE) as [m|]; [|by intros -> ->].
  intros (name & i & enc & s & [Hm _] & HO & Hi & Hd & ->) (name' & i' & enc' & s' & [Hm' _] & HO' & Hi' & Hd' & ->).
  assert (name = name') as <-.
  { rewrite Hm in Hm'. injection Hm' as Hn. by apply name_newline_inj. }
  specialize (HO _ (snapshots_entries _)). specialize (HO' _ (snapshots_entries _)). simplify_eq. congruence.
Qed.

Lemma committed_root fs R R' o :
  R !! ROOT_FILE = R' !! ROOT_FILE → committed fs R o → committed fs R' o.
Proof. unfold committed. by intros ->. Qed.

(** What is kept of the protected files and of the objects directory keeps what
    is committed. *)
Lemma committed_evolves fs fs' R o :
  R ∈ roots fs → committed fs R o →
  (∀ O, O ∈ objects_of fs' → ∃ O0, O0 ∈ objects_of fs ∧ O0 ⊆ O) →
  (∀ i n, protected fs i → inodes fs !! i = Some n → synced n = true → inodes fs' !! i = Some n) →
  committed fs' R o.
Proof.
  intros HR. unfold committed. destruct (R !! ROOT_FILE) as [m|] eqn:Hroot; [|done].
  intros (name & i & enc & s & [Hm Hv] & HO & Hi & Hd & ->) Hobjs Hkeep.
  exists name, i, enc, s. split.
  { split; [|done]. apply Hkeep; [|done|done]. exists R, m. auto. }
  split.
  { intros O HO'. destruct (Hobjs O HO') as (O0 & HO0 & Hsub). eapply lookup_weaken; [|done]. by apply HO. }
  split; [|done]. apply Hkeep; [|done|done]. exists R, m. split; [done|]. split; [done|].
  right. by exists name.
Qed.

Lemma evolve_ok fs fs' :
  fs_ok fs → structure_ok fs' →
  (∀ O, O ∈ objects_of fs' → ∃ O0, O0 ∈ objects_of fs ∧ O0 ⊆ O) →
  (∀ i n, protected fs i → inodes fs !! i = Some n → synced n = true → inodes fs' !! i = Some n) →
  (∀ R, R ∈ roots fs' → ∃ R0, R0 ∈ roots fs ∧ R0 !! ROOT_FILE = R !! ROOT_FILE) →
  fs_ok fs' ∧ ∀ o, rec fs' o → rec fs o.
Proof.
  intros [Hst Hall] Hst' Hobjs Hkeep Hroots.
  assert (∀ R, R ∈ roots fs' → ∃ R0 o, R0 ∈ roots fs ∧ committed fs R0 o ∧ committed fs' R o) as Hc.
  { intros R HR. destruct (Hroots R HR) as (R0 & HR0 & Heq). destruct (Hall R0 HR0) as [o Ho].
    exists R0, o. split; [done|]. split; [done|]. apply (committed_root _ R0); [done|].
    by apply (committed_evolves fs). }
  split.
  - split; [done|]. intros R HR. destruct (Hc R HR) as (_ & o & _ & _ & Ho). eauto.
  - intros o (R & HR & Ho). destruct (Hc R HR) as (R0 & o' & HR0 & Ho0 & Ho').
    rewrite (committed_det _ _ _ _ Ho Ho'). by exists R0.
Qed.

(** *** One change of a file *)
Lemma structure_inode fs i n : i ∈ dom (inodes fs) → structure_ok fs → structure_ok (set_inode i n fs).
Proof.
  intros Hi ((H1 & H2 & H3) & H4). unfold structure_ok, entries_ok, set_inode, Fs.with_inodes; cbn.
  assert (dom (<[i := n]> (inodes fs)) = dom (inodes fs)) as -> by (rewrite dom_insert_L; set_solver).
  done.
Qed.

Lemma set_inode_ok fs i n :
  fs_ok fs → i ∈ dom (inodes fs) → ¬ protected fs i →
  fs_ok (set_inode i n fs) ∧ (∀ o, rec (set_inode i n fs) o → rec fs o) ∧
  ¬ protected (set_inode i n fs) i.
Proof.
  intros Hok Hi Hp.
  assert (fs_ok (set_inode i n fs) ∧ ∀ o, rec (set_inode i n fs) o → rec fs o) as [Hok' Hrec].
  { apply evolve_ok; [done|by apply structure_inode, Hok|by eauto| |by eauto].
    intros j m Hj Hm _. cbn. rewrite lookup_insert_ne; [done|by intros ->]. }
  split; [done|]. split; [done|].
  intros (R & m & HR & Hroot & Hcase). apply Hp. exists R, m. split; [done|]. split; [done|].
  destruct (decide (i = m)) as [->|Hne]; [by left|]. destruct Hcase as [->|(name & [Hm Hv] & HO)]; [done|].
  right. exists name. split; [|done]. split; [|done]. cbn in Hm. by rewrite lookup_insert_ne in Hm.
Qed.

(** Syncing a file. *)
Lemma sync_inode_ok fs i n :
  fs_ok fs → inodes fs !! i = Some n →
  fs_ok (set_inode i (Inode_mk (contents n) true) fs) ∧
  ∀ o, rec (set_inode i (Inode_mk (contents n) true) fs) o → rec fs o.
Proof.
  intros Hok Hi. apply evolve_ok; [done| |by eauto| |by eauto].
  { apply structure_inode; [by eapply elem_of_dom_2|apply Hok]. }
  intros j m _ Hm Hs. cbn. destruct (decide (i = j)) as [->|Hne].
  - rewrite lookup_insert_eq. simplify_eq. f_equal. destruct n; cbn in *. by subst.
  - by rewrite lookup_insert_ne.
Qed.
End invariant.

Lemma fs_new_ok dev : fs_ok (fs_new dev).
Proof.
  split; [split; [split; [|split]|]|].
  - intros R name i ->%list_elem_of_singleton. cbn; by rewrite lookup_empty.
  - intros O name i ->%list_elem_of_singleton. cbn; by rewrite lookup_empty.
  - intros R O n1 n2 i ->%list_elem_of_singleton. cbn; by rewrite lookup_empty.
  - intros R m ->%list_elem_of_singleton. cbn; by rewrite lookup_empty.
  - intros R ->%list_elem_of_singleton. exists None. unfold committed. cbn; by rewrite lookup_empty.
Qed.

Notation roots fs := (snapshots (root_directory fs)).
Notation objects_of fs := (snapshots (objects_directory fs)).

(** *** One change of a directory *)
Section directories.
Implicit Types (fs : Fs) (R O : gmap FileName N) (o : option (list byte)).

Lemma create_object_ok fs name i :
  fs_ok fs → entries (objects_directory fs) !! name = None → i ∉ dom (inodes fs) →
  let fs' := created ObjectsDir name i fs in
  fs_ok fs' ∧ (∀ o, rec fs' o → rec fs o) ∧ ¬ protected fs' i.
Proof.
  intros Hok Hname Hi fs'. pose proof Hok as [[(H1 & H2 & H3) H4] _].
  assert (∀ O, O ∈ objects_of fs' → O = <[name := i]> (entries (objects_directory fs)) ∨ O ∈ objects_of fs)
    as Hobjs by (intros O HO; by apply elem_of_cons in HO).
  assert (dom (inodes fs') = {[i]} ∪ dom (inodes fs)) as Hdom by (cbn; by rewrite dom_insert_L).
  assert (fs_ok fs' ∧ ∀ o, rec fs' o → rec fs o) as [Hok' Hrec].
  { apply evolve_ok; [done| | | |by eauto].
    - split; [split; [|split]|exact H4].
      + intros R n j HR Hj. rewrite Hdom. apply elem_of_union_r. by eapply H1.
      + intros O n j [->|HO]%Hobjs Hj; rewrite Hdom; [|apply elem_of_union_r; by eapply H2].
        apply lookup_insert_Some in Hj as [[_ ->]|[_ Hj]]; [set_solver|].
        apply elem_of_union_r. eapply H2; [apply snapshots_entries|done].
      + intros R O n1 n2 j HR [->|HO]%Hobjs Hj1 Hj2; [|by eapply H3].
        apply lookup_insert_Some in Hj2 as [[_ ->]|[_ Hj2]]; [by apply Hi; eapply H1|].
        eapply H3; [done|apply snapshots_entries|done|done].
    - intros O [->|HO]%Hobjs; [|by exists O]. exists (entries (objects_directory fs)).
      split; [apply snapshots_entries|]. by apply insert_subseteq.
    - intros j n _ Hj _. cbn. rewrite lookup_insert_ne; [done|]. intros ->. apply Hi. by eapply elem_of_dom_2. }
  split; [done|]. split; [done|]. intros (R & m & HR & Hroot & [->|(n & _ & HO)]).
  - apply Hi. by eapply H1.
  - apply Hi. eapply H2; [apply snapshots_entries|]. apply (HO (entries (objects_directory fs))).
    right. apply snapshots_entries.
Qed.

Lemma next_not_root : ROOT_NEXT_FILE ≠ ROOT_FILE.
Proof. discriminate. Qed.

Lemma create_next_ok fs i :
  fs_ok fs → entries (root_directory fs) !! ROOT_NEXT_FILE = None → i ∉ dom (inodes fs) →
  let fs' := created RootDir ROOT_NEXT_FILE i fs in
  fs_ok fs' ∧ (∀ o, rec fs' o → rec fs o) ∧ ¬ protected fs' i.
Proof.
  intros Hok Hname Hi fs'. pose proof Hok as [[(H1 & H2 & H3) H4] _].
  set (new := <[ROOT_NEXT_FILE := i]> (entries (root_directory fs))).
  assert (∀ R, R ∈ roots fs' → R = new ∨ R ∈ roots fs) as Hroots
    by (intros R HR; by apply elem_of_cons in HR).
  assert (new !! ROOT_FILE = entries (root_directory fs) !! ROOT_FILE) as Hnew
    by (unfold new; by rewrite lookup_insert_ne by apply next_not_root).
  assert (dom (inodes fs') = {[i]} ∪ dom (inodes fs)) as Hdom by (cbn; by rewrite dom_insert_L).
  assert (∀ R m, R ∈ roots fs' → R !! ROOT_FILE = Some m → m ≠ i) as Hfresh.
  { intros R m [->|HR]%Hroots Hm ->; apply Hi; [rewrite Hnew in Hm|]; eapply H1; try done.
    apply snapshots_entries. }
  assert (fs_ok fs' ∧ ∀ o, rec fs' o → rec fs o) as [Hok' Hrec].
  { apply evolve_ok; [done| |by eauto| |].
    - split; [split; [|split]|].
      + intros R n j [->|HR]%Hroots Hj; rewrite Hdom; [|apply elem_of_union_r; by eapply H1].
        apply lookup_insert_Some in Hj as [[_ ->]|[_ Hj]]; [set_solver|].
        apply elem_of_union_r. eapply H1; [apply snapshots_entries|done].
      + intros O n j HO Hj. rewrite Hdom. apply elem_of_union_r. by eapply H2.
      + intros R O n1 n2 j [->|HR]%Hroots HO Hj1 Hj2; [|by eapply H3].
        apply lookup_insert_Some in Hj1 as [[_ ->]|[_ Hj1]]; [by apply Hi; eapply H2|].
        eapply H3; [apply snapshots_entries|done|done|done].
      + intros R m HR Hm. pose proof (Hfresh R m HR Hm) as Hmi.
        assert (entries (root_directory fs') !! ROOT_NEXT_FILE = Some i) as Hn by apply lookup_insert_eq.
        rewrite Hn. split; [|congruence]. apply Hroots in HR as [->|HR].
        * unfold new. rewrite lookup_insert_eq. congruence.
        * by apply (H4 R).
    - intros j n _ Hj _. cbn. rewrite lookup_insert_ne; [done|]. intros ->. apply Hi. by eapply elem_of_dom_2.
    - intros R [->|HR]%Hroots; [|by eauto]. exists (entries (root_directory fs)).
      split; [apply snapshots_entries|done]. }
  split; [done|]. split; [done|]. intros (R & m & HR & Hroot & [->|(n & _ & HO)]).
  - by apply (Hfresh R m).
  - apply Hi. eapply H2; [apply snapshots_entries|]. apply HO. apply snapshots_entries.
Qed.

(** Syncing a directory forgets its earlier states. *)
Lemma sync_objects_ok fs :
  fs_ok fs → let fs' := directory_synced ObjectsDir fs in fs_ok fs' ∧ ∀ o, rec fs' o → rec fs o.
Proof.
  intros Hok fs'. pose proof Hok as [[(H1 & H2 & H3) H4] _].
  assert (∀ O, O ∈ objects_of fs' → O ∈ objects_of fs) as Hsub.
  { intros O HO. apply list_elem_of_singleton in HO as ->. exact (snapshots_entries (objects_directory fs)). }
  apply evolve_ok; [done| | |by eauto|by eauto].
  - split; [|exact H4]. split; [exact H1|]. split; [by eauto|by eauto].
  - intros O HO. exists O. auto.
Qed.

Lemma sync_root_ok fs :
  fs_ok fs → let fs' := directory_synced RootDir fs in
  fs_ok fs' ∧ (∀ o, rec fs' o → rec fs o) ∧
  ∀ o, rec fs' o ↔ committed fs (entries (root_directory fs)) o.
Proof.
  intros Hok fs'. pose proof Hok as [[(H1 & H2 & H3) H4] _].
  assert (∀ R, R ∈ roots fs' ↔ R = entries (root_directory fs)) as Hroots.
  { intros R. apply (list_elem_of_singleton R). }
  assert (∀ R, R ∈ roots fs' → R ∈ roots fs) as Hsub.
  { intros R ->%Hroots. apply snapshots_entries. }
  assert (fs_ok fs' ∧ ∀ o, rec fs' o → rec fs o) as [Hok' Hrec].
  { apply evolve_ok; [done| |by eauto|by eauto|by eauto].
    split; [split; [by eauto|]; split; [exact H2|by eauto]|]. intros R m HR. by apply H4, Hsub. }
  split; [done|]. split; [done|]. intros o. unfold rec. setoid_rewrite Hroots. split.
  - by intros (R & -> & Ho).
  - intros Ho. by exists (entries (root_directory fs)).
Qed.

(** Renaming the new manifest over the root. *)
Lemma rename_root_ok fs n name i encoded s :
  fs_ok fs → entries (root_directory fs) !! ROOT_NEXT_FILE = Some n → manifest fs n name →
  (∀ O, O ∈ objects_of fs → O !! name = Some i) →
  inodes fs !! i = Some (Inode_mk encoded true) → decode encoded = Ok s →
  let fs' := renamed RootDir ROOT_NEXT_FILE ROOT_FILE n fs in
  fs_ok fs' ∧ (∀ o, rec fs' o → rec fs o ∨ o = Some s) ∧
  committed fs' (entries (root_directory fs')) (Some s).
Proof.
  intros Hok Hnext Hman HO Hi Hd fs'. pose proof Hok as [[(H1 & H2 & H3) H4] Hall].
  set (new := entries (root_directory fs')).
  assert (∀ R, R ∈ roots fs' → R = new ∨ R ∈ roots fs) as Hroots
    by (intros R HR; by apply elem_of_cons in HR).
  assert (∀ k j, new !! k = Some j → ∃ k', entries (root_directory fs) !! k' = Some j) as Hvals.
  { intros k j. unfold new; cbn. rewrite lookup_insert_Some, lookup_delete_Some. naive_solver. }
  assert (new !! ROOT_NEXT_FILE = None) as Hno.
  { unfold new; cbn. by rewrite lookup_insert_ne, lookup_delete_eq by (symmetry; apply next_not_root). }
  assert (committed fs' new (Some s)) as Hnew.
  { unfold committed, new; cbn -[snapshots]. rewrite lookup_insert_eq. exists name, i, encoded, s. done. }
  assert (structure_ok fs') as Hst.
  { split; [split; [|split]|].
    - intros R k j [->|HR]%Hroots Hj; [|by eapply H1].
      destruct (Hvals k j Hj) as [k' Hj']. eapply H1; [apply snapshots_entries|done].
    - exact H2.
    - intros R O n1 n2 j [->|HR]%Hroots HO' Hj1 Hj2; [|by eapply H3].
      destruct (Hvals n1 j Hj1) as [k' Hj']. by eapply H3; [apply snapshots_entries|..].
    - intros R m HR Hm. fold new. rewrite Hno. split; [|done].
      apply Hroots in HR as [->|HR]; [by rewrite Hno|by apply (H4 R)]. }
  assert (∀ R o, R ∈ roots fs → committed fs R o → committed fs' R o) as Hkeep.
  { intros R o HR Ho. apply (committed_evolves fs); [done|done|by eauto|by eauto]. }
  split; [split; [done|]|split; [|done]].
  - intros R [->|HR]%Hroots; [by eauto|]. destruct (Hall R HR) as [o Ho]. eauto.
  - intros o (R & [->|HR]%Hroots & Ho).
    + right. by apply (committed_det fs' new).
    + left. destruct (Hall R HR) as [o' Ho']. exists R. split; [done|].
      by rewrite (committed_det fs' R o o' Ho (Hkeep R o' HR Ho')).
Qed.
End directories.

(** ** Reading back *)
Section reading.
Implicit Types (fs : Fs) (o : option (list byte)).

Definition answered fs : Fs := with_device (λ n, device fs (S n)) fs.

Lemma open_eq d name fs :
  Fs.open d name fs =
  (answered fs, match device fs 0 with
                | None => ok_or NotFound (entries (directory d fs) !! name)
                | Some _ => Err OtherKind
                end).
Proof.
  unfold Fs.open, Fs.attempt, Fs.lookup_name. rewrite !st_bind, answer_eq.
  destruct (device fs 0); [done|]. run_st. by destruct d.
Qed.

Lemma read_eq i fs :
  Fs.read_to_end i fs =
  (answered fs, match device fs 0 with
                | None => inode ← expect (inodes fs !! i); Ok (contents inode)
                | Some _ => Err OtherKind
                end).
Proof.
  unfold Fs.read_to_end, Fs.attempt. rewrite !st_bind, answer_eq.
  destruct (device fs 0); [done|]. run_st. cbn [inodes with_device]. by destruct (inodes fs !! i).
Qed.

(** Reading gives the committed state, or an error of the device. *)
Lemma read_committed_run fs o :
  committed fs (entries (root_directory fs)) o →
  ((UnixFsDurabilityBackend.read_committed fs).2 = Ok o ∨
   (UnixFsDurabilityBackend.read_committed fs).2 = Err (Io OtherKind)) ∧
  ((∀ n, device fs n = None) → (UnixFsDurabilityBackend.read_committed fs).2 = Ok o).
Proof.
  unfold UnixFsDurabilityBackend.read_committed, UnixFsDurabilityBackend.open_manifest, committed.
  rewrite st_bind, open_eq. cbn [directory].
  destruct (device fs 0) eqn:D0; [intros _; split; [by right|congruence]|].
  destruct (entries (root_directory fs) !! ROOT_FILE) as [m|]; cbn [ok_or];
    [|intros ->; split; [by left|done]].
  intros (name & i & enc & s & [Hm Hv] & HO & Hi & Hd & ->).
  destruct (valid_name_text name Hv) as [Hutf Htrim].
  rewrite st_bind. unfold UnixFsDurabilityBackend.read_to_string, map_err_st. rewrite !st_bind, read_eq.
  change (device (answered fs) 0) with (device fs 1).
  destruct (device fs 1) eqn:D1; [split; [by right|congruence]|].
  cbn [inodes answered with_device]. rewrite Hm. cbn [expect mbind result_bind map_err contents].
  rewrite Hutf. run_st. rewrite Htrim, Hv. cbn [negb]. rewrite st_bind, open_eq.
  change (device (answered (answered fs)) 0) with (device fs 2).
  destruct (device fs 2) eqn:D2; [split; [by right|congruence]|].
  cbn [directory objects_directory answered with_device].
  rewrite (HO _ (snapshots_entries _)). cbn [ok_or map_err]. rewrite st_bind, read_eq.
  change (device (answered (answered (answered fs))) 0) with (device fs 3).
  destruct (device fs 3) eqn:D3; [split; [by right|congruence]|].
  cbn [inodes answered with_device]. rewrite Hi. cbn [expect mbind result_bind map_err contents].
  run_st. rewrite Hd. cbn [map_err]. split; [by left|done].
Qed.

Lemma crash_committed fs fs' R o :
  fs_crash fs fs' → R ∈ roots fs → root_directory fs' = Directory_mk R [] → committed fs R o →
  committed fs' R o.
Proof.
  intros ((O & HO & Hobj) & _ & Hdom & Hino) HR Hroot. unfold committed.
  destruct (R !! ROOT_FILE) as [m|]; [|done].
  intros (name & i & enc & s & [Hm Hv] & HOs & Hi & Hd & ->).
  assert (∀ j l, inodes fs !! j = Some (Inode_mk l true) → inodes fs' !! j = Some (Inode_mk l true)) as Hsync.
  { intros j l Hj. assert (j ∈ dom (inodes fs')) as [[l' sy] Hj']%elem_of_dom
      by (rewrite Hdom; by eapply elem_of_dom_2).
    destruct (Hino j _ _ Hj Hj') as [Hsy Hl]. cbn in *. by rewrite Hj', Hsy, Hl. }
  exists name, i, enc, s. split; [split; [by apply Hsync|done]|].
  split; [|split; [by apply Hsync|done]].
  intros O'. rewrite Hobj. intros ->%list_elem_of_singleton. cbn. by apply HOs.
Qed.

(** A power loss keeps the store well formed. *)
Lemma crash_ok fs fs' : fs_ok fs → fs_crash fs fs' → fs_ok fs'.
Proof.
  intros Hok Hcrash. pose proof Hok as [[(H1 & H2 & H3) H4] Hall].
  pose proof Hcrash as ((O & HO & Hobj) & (R & HR & Hroot) & Hdom & _).
  assert (∀ R', R' ∈ roots fs' → R' = R) as HR'
    by (intros R'; rewrite Hroot; by intros ->%list_elem_of_singleton).
  assert (∀ O', O' ∈ objects_of fs' → O' = O) as HO'
    by (intros O'; rewrite Hobj; by intros ->%list_elem_of_singleton).
  split; [split; [split; [|split]|]|].
  - intros R' name i ->%HR' Hi. rewrite Hdom. by eapply H1.
  - intros O' name i ->%HO' Hi. rewrite Hdom. by eapply H2.
  - intros R' O' n1 n2 i ->%HR' ->%HO'. by apply H3.
  - intros R' m ->%HR' Hm. rewrite Hroot. by split; eapply H4.
  - intros R' ->%HR'. destruct (Hall R HR) as [o Ho]. exists o.
    by apply (crash_committed fs fs' R).
Qed.

(** And leaves nothing else to load. *)
Lemma crash_rec fs fs' o : fs_ok fs → fs_crash fs fs' → rec fs' o → rec fs o.
Proof.
  intros Hok Hcrash (R' & HR' & Ho). pose proof Hcrash as (_ & (R & HR & Hroot) & _).
  rewrite Hroot in HR'. apply list_elem_of_singleton in HR' as ->. cbn [entries] in Ho.
  destruct (proj2 Hok R HR) as [o' Ho']. exists R. split; [done|].
  by rewrite (committed_det fs' R o o' Ho (crash_committed fs fs' R o' Hcrash HR Hroot Ho')).
Qed.

(** What a restart may load is what some root directory commits to. *)
Lemma recoverable_rec (b : UnixFsDurabilityBackend) o :
  fs_ok (filesystem b) → recoverable b o ↔ rec (filesystem b) o.
Proof.
  destruct b as [fs next]. intros Hok. unfold recoverable, may_crash, unix_fs_crash. cbn [filesystem].
  split.
  - intros ([fs' next'] & Hcrash & Hl). cbn in Hcrash.
    pose proof Hcrash as (_ & (R & HR & Hroot) & _). destruct (proj2 Hok R HR) as [o' Ho'].
    pose proof (crash_committed fs fs' R o' Hcrash HR Hroot Ho') as Hc.
    replace R with (entries (root_directory fs')) in Hc by by rewrite Hroot.
    apply read_committed_run in Hc as [[Hc|Hc] _];
      unfold load_committed, unix_fs_backend, UnixFsDurabilityBackend.load_committed in Hl; cbn in Hl;
      rewrite Hc in Hl; [|done]. injection Hl as ->. by exists R.
  - intros (R & HR & Ho).
    set (fs' := Fs_mk ((λ n, Inode_mk (contents n) true) <$> inodes fs)
      (Directory_mk (entries (objects_directory fs)) []) (Directory_mk R []) (λ _, None)).
    exists (UnixFsDurabilityBackend_mk fs' 0).
    assert (fs_crash fs fs') as Hcrash.
    { split; [|split; [|split]].
      - eexists. split; [apply snapshots_entries|done].
      - by exists R.
      - apply dom_fmap_L.
      - intros i n n' Hi. cbn. rewrite lookup_fmap, Hi. by intros [= <-]. }
    split; [exact Hcrash|].
    apply (crash_committed fs fs' R o Hcrash HR eq_refl) in Ho.
    by apply (read_committed_run fs' o).
Qed.
End reading.

(** ** The laws *)
Section laws.
Implicit Types (b : UnixFsDurabilityBackend) (fs : Fs) (s : list byte).

(** Still well formed, and nothing new can be recovered. *)
Definition safe (fs0 fs : Fs) : Prop := fs_ok fs ∧ ∀ o, rec fs o → rec fs0 o.

Lemma safe_refl fs : fs_ok fs → safe fs fs.
Proof. split; auto. Qed.

Lemma safe_step fs0 fs fs' :
  safe fs0 fs → fs_ok fs' ∧ (∀ o, rec fs' o → rec fs o) → safe fs0 fs'.
Proof. intros [_ H1] [H2 H3]. split; auto. Qed.

(** A candidate file nobody else can reach yet. *)
Definition holds_file fs (name : FileName) (n : Inode) : Prop :=
  valid_candidate_name name = true ∧
  ∃ i, entries (objects_directory fs) !! name = Some i ∧ inodes fs !! i = Some n ∧ ¬ protected fs i.

Lemma allocate_once_outcome fs0 b :
  safe fs0 (filesystem b) →
  outcome UnixFsDurabilityBackend.allocate_once b
    (λ b' r, safe fs0 (filesystem b') ∧
       ∀ c, r = Some c → holds_file (filesystem b') (file_name c) (Inode_mk [] false))
    (λ b', safe fs0 (filesystem b')).
Proof.
  intros Hs. unfold outcome, UnixFsDurabilityBackend.allocate_once.
  destruct (u64_checked_add _ _) as [next|]; [|done]. set (name := candidate_name (next_candidate b)).
  assert (outcome (Fs.open_create_new ObjectsDir name) (filesystem b)
    (λ fs _, safe fs0 fs ∧ holds_file fs name (Inode_mk [] false)) (λ fs, safe fs0 fs)) as Ho.
  { apply outcome_open_create_new; [|intros dev; exact Hs]. intros dev i Hn Hi.
    destruct (create_object_ok (with_device dev (filesystem b)) name i (proj1 Hs) Hn Hi) as (H1 & H2 & H3).
    split; [by apply (safe_step _ _ _ Hs)|]. split; [apply candidate_name_valid|].
    exists i. split; [apply lookup_insert_eq|]. split; [apply lookup_insert_eq|done]. }
  unfold outcome in Ho. destruct (Fs.open_create_new _ _ _) as [fs [i|[]|]]; cbn; [|done..| |]; auto.
  - destruct Ho as [H1 H2]. split; [done|]. by intros c [= <-].
Qed.

Lemma allocate_loop_outcome fuel fs0 b :
  safe fs0 (filesystem b) →
  outcome (UnixFsDurabilityBackend.allocate_loop fuel) b
    (λ b' c, safe fs0 (filesystem b') ∧ holds_file (filesystem b') (file_name c) (Inode_mk [] false))
    (λ b', safe fs0 (filesystem b')).
Proof.
  revert b. induction fuel as [|fuel IH]; intros b Hs; [exact Hs|].
  cbn [UnixFsDurabilityBackend.allocate_loop]. apply outcome_bind.
  eapply outcome_mono; [by apply allocate_once_outcome| |done].
  intros b' [c|] [Hs' Hc]; [|by apply IH]. apply outcome_ret. split; [done|]. by apply Hc.
Qed.

(** [written] and [durable] of the contract. *)
Definition fs_written b (c : FsCandidate) s : Prop :=
  ∃ encoded sy, encode (E := FsStorageError) s = Ok encoded ∧
    holds_file (filesystem b) (file_name c) (Inode_mk encoded sy).

Definition fs_durable b (c : FsCandidate) s : Prop :=
  valid_candidate_name (file_name c) = true ∧
  ∃ i encoded, (∀ O, O ∈ objects_of (filesystem b) → O !! file_name c = Some i) ∧
    inodes (filesystem b) !! i = Some (Inode_mk encoded true) ∧ decode encoded = Ok s.

Definition fs_published b s : Prop :=
  committed (filesystem b) (entries (root_directory (filesystem b))) (Some s).

Lemma encode_decode {E} s encoded : encode (E := E) s = Ok encoded → decode encoded = Ok s.
Proof.
  intros Henc%encode_Ok. destruct (decode_spec encoded) as [_ Hd]; [by apply Henc|].
  by apply Hd, encode_Ok.
Qed.

(** Changing a private file. *)
Lemma set_private_ok fs0 fs i n n' :
  safe fs0 fs → inodes fs !! i = Some n → ¬ protected fs i →
  safe fs0 (set_inode i n' fs) ∧ ¬ protected (set_inode i n' fs) i.
Proof.
  intros Hs Hi Hp. destruct (set_inode_ok fs i n' (proj1 Hs)) as (H1 & H2 & H3); [by eapply elem_of_dom_2|done|].
  split; [by apply (safe_step _ _ _ Hs)|done].
Qed.

Lemma write_candidate_outcome b s :
  fs_ok (filesystem b) →
  outcome (UnixFsDurabilityBackend.write_candidate s) b
    (λ b' c, safe (filesystem b) (filesystem b') ∧ fs_written b' c s)
    (λ b', safe (filesystem b) (filesystem b')).
Proof.
  intros Hok. unfold UnixFsDurabilityBackend.write_candidate, UnixFsDurabilityBackend.allocate_candidate.
  apply outcome_bind, outcome_get.
  eapply outcome_mono; [by apply allocate_loop_outcome, safe_refl| |done].
  intros b1 c [Hs (Hv & i & Hname & Hi & Hp)]. apply outcome_bind, outcome_lift; [|done].
  intros encoded Henc. apply outcome_bind, outcome_on_fs, outcome_open_truncate; [|intros; exact Hs].
  intros dev j Hj. cbn [filesystem directory] in *. assert (j = i) as -> by congruence.
  set (fs1 := with_device dev (filesystem b1)).
  destruct (set_private_ok (filesystem b) fs1 i _ (Inode_mk [] false) Hs Hi Hp) as [Hs1 Hp1].
  apply outcome_bind, outcome_on_fs. eapply outcome_write_all; [apply lookup_insert_eq| |].
  - intros dev2. cbn [filesystem contents app].
    destruct (set_private_ok (filesystem b) (set_inode i (Inode_mk [] false) fs1) i _
      (Inode_mk encoded false) Hs1 (lookup_insert_eq _ _ _) Hp1) as [Hs2 Hp2].
    apply outcome_bind, outcome_on_fs, outcome_ret, outcome_ret. cbn [filesystem].
    split; [exact Hs2|]. exists encoded, false. split; [done|]. split; [done|].
    exists i. split; [exact Hname|]. split; [apply lookup_insert_eq|exact Hp2].
  - intros dev2 l. cbn [filesystem].
    apply (set_private_ok (filesystem b) (set_inode i (Inode_mk [] false) fs1) i _ _ Hs1
      (lookup_insert_eq _ _ _) Hp1).
Qed.

Lemma sync_candidate_outcome b c s :
  fs_ok (filesystem b) → fs_written b c s →
  outcome (UnixFsDurabilityBackend.sync_candidate c) b
    (λ b' _, safe (filesystem b) (filesystem b') ∧ fs_durable b' c s)
    (λ b', safe (filesystem b) (filesystem b')).
Proof.
  intros Hok (encoded & sy & Henc & Hv & i & Hname & Hi & Hp).
  pose proof (safe_refl _ Hok) as Hs. unfold UnixFsDurabilityBackend.sync_candidate.
  apply outcome_bind, outcome_on_fs, outcome_open; [|intros; exact Hs].
  intros dev j Hj. cbn [filesystem directory] in *. assert (j = i) as -> by congruence.
  set (fs1 := with_device dev (filesystem b)).
  apply outcome_bind, outcome_on_fs. eapply outcome_sync_all; [exact Hi| |intros; exact Hs].
  intros dev2. cbn [filesystem contents].
  assert (safe (filesystem b) (set_inode i (Inode_mk encoded true) (with_device dev2 fs1))) as Hs1
    by (apply (safe_step _ _ _ Hs); exact (sync_inode_ok _ i _ Hok Hi)).
  apply outcome_bind, outcome_on_fs, outcome_attempt; [|intros; exact Hs1].
  intros dev3. apply outcome_on_fs, outcome_sync_directory; [|intros; exact Hs1].
  intros dev4. cbn [filesystem]. split.
  - apply (safe_step _ _ _ Hs1). exact (sync_objects_ok _ (proj1 Hs1)).
  - split; [done|]. exists i, encoded. split; [|split].
    + intros O HO. apply list_elem_of_singleton in HO as ->. exact Hname.
    + apply lookup_insert_eq.
    + by eapply encode_decode.
Qed.

(** Two private changes of one file in a row. *)
Lemma private_write fs0 fs i n n' dev :
  safe fs0 fs → inodes fs !! i = Some n → ¬ protected fs i →
  let fs' := set_inode i n' (with_device dev fs) in
  safe fs0 fs' ∧ ¬ protected fs' i ∧ inodes fs' !! i = Some n' ∧
  entries (root_directory fs') = entries (root_directory fs) ∧
  objects_directory fs' = objects_directory fs ∧
  ∀ j, j ≠ i → inodes fs' !! j = inodes fs !! j.
Proof.
  intros Hs Hi Hp fs'. destruct (set_private_ok fs0 (with_device dev fs) i n n' Hs Hi Hp) as [H1 H2].
  split; [exact H1|]. split; [exact H2|]. split; [apply lookup_insert_eq|]. split; [done|]. split; [done|].
  intros j Hj. by apply lookup_insert_ne.
Qed.

(** Writing, syncing and renaming the new manifest, once it is open. *)
Lemma publish_manifest_outcome fs0 b name n i encoded s :
  let fs := filesystem b in
  safe fs0 fs → valid_candidate_name name = true →
  entries (root_directory fs) !! ROOT_NEXT_FILE = Some n →
  inodes fs !! n = Some (Inode_mk [] false) → ¬ protected fs n → n ≠ i →
  (∀ O, O ∈ objects_of fs → O !! name = Some i) →
  inodes fs !! i = Some (Inode_mk encoded true) → decode encoded = Ok s →
  outcome
    (_ ← UnixFsDurabilityBackend.on_fs (Fs.write_all n name);
     _ ← UnixFsDurabilityBackend.on_fs (Fs.write_all n [x0a]);
     _ ← UnixFsDurabilityBackend.on_fs (Fs.sync_all n);
     UnixFsDurabilityBackend.on_fs (Fs.rename RootDir ROOT_NEXT_FILE ROOT_FILE)) b
    (λ b' _, fs_ok (filesystem b') ∧ (∀ o, rec (filesystem b') o → rec fs0 o ∨ o = Some s) ∧
       fs_published b' s)
    (λ b', safe fs0 (filesystem b')).
Proof.
  intros fs Hs Hv Hnext Hn Hp Hne HO Hi Hd. apply outcome_bind, outcome_on_fs.
  eapply outcome_write_all; [exact Hn| |].
  2:{ intros dev k. cbn [filesystem]. by apply (private_write fs0 fs n _ (Inode_mk (take k name) false) dev Hs Hn Hp). }
  intros dev. cbn [filesystem contents app].
  destruct (private_write fs0 fs n _ (Inode_mk name false) dev Hs Hn Hp) as (Hs1 & Hp1 & Hn1 & Hr1 & Ho1 & Hj1).
  set (fs1 := set_inode n (Inode_mk name false) (with_device dev fs)) in *.
  apply outcome_bind, outcome_on_fs. eapply outcome_write_all; [exact Hn1| |].
  2:{ intros dev2 k. by apply (private_write fs0 fs1 n _ (Inode_mk (name ++ take k [x0a]) false) dev2 Hs1 Hn1 Hp1). }
  intros dev2. cbn [filesystem contents].
  destruct (private_write fs0 fs1 n _ (Inode_mk (name ++ [x0a]) false) dev2 Hs1 Hn1 Hp1)
    as (Hs2 & Hp2 & Hn2 & Hr2 & Ho2 & Hj2).
  set (fs2 := set_inode n (Inode_mk (name ++ [x0a]) false) (with_device dev2 fs1)) in *.
  apply outcome_bind, outcome_on_fs. eapply outcome_sync_all; [exact Hn2| |intros; exact Hs2].
  intros dev3. cbn [filesystem contents].
  destruct (private_write fs0 fs2 n _ (Inode_mk (name ++ [x0a]) true) dev3 Hs2 Hn2 Hp2)
    as (Hs3 & _ & Hn3 & Hr3 & Ho3 & Hj3).
  set (fs3 := set_inode n (Inode_mk (name ++ [x0a]) true) (with_device dev3 fs2)) in *.
  apply outcome_on_fs, outcome_rename; [|intros; exact Hs3].
  intros dev4 k Hk. cbn [filesystem directory] in *.
  assert (k = n) as ->.
  { change (entries (root_directory fs3) !! ROOT_NEXT_FILE = Some k) in Hk.
    rewrite Hr3, Hr2, Hr1 in Hk. congruence. }
  destruct (rename_root_ok (with_device dev4 fs3) n name i encoded s) as (H1 & H2 & H3).
  - exact (proj1 Hs3).
  - exact Hk.
  - split; [exact Hn3|done].
  - intros O. cbn [objects_directory with_device]. rewrite Ho3, Ho2, Ho1. by apply HO.
  - cbn [inodes with_device]. by rewrite Hj3, Hj2, Hj1 by done.
  - done.
  - split; [exact H1|]. split; [|exact H3]. intros o [Ho|Ho]%H2; [left|by right]. by apply Hs3.
Qed.

Lemma publish_candidate_outcome b c s :
  fs_ok (filesystem b) → fs_durable b c s →
  outcome (UnixFsDurabilityBackend.publish_candidate c) b
    (λ b' _, fs_ok (filesystem b') ∧ (∀ o, rec (filesystem b') o → rec (filesystem b) o ∨ o = Some s) ∧
       fs_published b' s)
    (λ b', safe (filesystem b) (filesystem b')).
Proof.
  intros Hok (Hv & i & encoded & HO & Hi & Hd). pose proof (safe_refl _ Hok) as Hs.
  pose proof Hok as [[(H1 & H2 & H3) H4] _].
  unfold UnixFsDurabilityBackend.publish_candidate. rewrite Hv. cbn [negb].
  apply outcome_bind, outcome_on_fs, outcome_open_create_truncate; [| |intros; exact Hs].
  - intros dev n Hn. cbn [directory] in Hn. set (fs := filesystem b) in *.
    assert (n ≠ i) as Hne.
    { intros ->. eapply (H3 _ _ _ _ i); [apply snapshots_entries|apply snapshots_entries|exact Hn|].
      apply HO, snapshots_entries. }
    assert (¬ protected fs n) as Hp.
    { intros (R & m & HR & Hroot & [->|(name & _ & Hname)]); [by apply (H4 R m HR Hroot)|].
      eapply (H3 _ _ _ _ n); [apply snapshots_entries|apply snapshots_entries|exact Hn|].
      apply Hname, snapshots_entries. }
    assert (∃ n0, inodes fs !! n = Some n0) as [n0 Hn0].
    { apply elem_of_dom. eapply H1; [apply snapshots_entries|exact Hn]. }
    destruct (private_write fs fs n n0 (Inode_mk [] false) dev Hs Hn0 Hp) as (Hs1 & Hp1 & Hn1 & Hr1 & Ho1 & Hj1).
    apply (publish_manifest_outcome fs (UnixFsDurabilityBackend_mk _ (next_candidate b)) _ n i encoded s); cbn [filesystem]; try done.
    + by rewrite Hj1.
  - intros dev n Hn Hfresh. cbn [directory] in Hn. set (fs := filesystem b) in *.
    destruct (create_next_ok (with_device dev fs) n Hok Hn Hfresh) as (Hok1 & Hrec1 & Hp1).
    assert (n ≠ i) as Hne.
    { intros ->. apply Hfresh. by eapply elem_of_dom_2. }
    apply (publish_manifest_outcome fs (UnixFsDurabilityBackend_mk _ (next_candidate b)) _ n i encoded s); cbn [filesystem]; try done.
    + apply lookup_insert_eq.
    + apply lookup_insert_eq.
    + cbn. by rewrite lookup_insert_ne.
Qed.

Lemma sync_committed_root_outcome b s :
  fs_ok (filesystem b) → fs_published b s →
  outcome UnixFsDurabilityBackend.sync_committed_root b
    (λ b' _, safe (filesystem b) (filesystem b') ∧ ∀ o, rec (filesystem b') o → o = Some s)
    (λ b', safe (filesystem b) (filesystem b')).
Proof.
  intros Hok Hpub. pose proof (safe_refl _ Hok) as Hs. unfold UnixFsDurabilityBackend.sync_committed_root.
  apply outcome_bind, outcome_on_fs, outcome_attempt; [|intros; exact Hs].
  intros dev. apply outcome_on_fs, outcome_sync_directory; [|intros; exact Hs].
  intros dev2. cbn [filesystem].
  destruct (sync_root_ok (with_device dev2 (with_device dev (filesystem b))) Hok) as (H1 & H2 & H3).
  split; [split; [exact H1|exact H2]|]. intros o Ho%H3. by eapply committed_det.
Qed.

#[export] Instance unix_fs_laws : DurabilityLaws UnixFsDurabilityBackend (list byte).
Proof.
  refine {| backend_ok b := fs_ok (filesystem b); written := fs_written; durable := fs_durable;
            published := fs_published |}.
  - intros b s b' res Hok Hr. pose proof (outcome_result _ _ _ _ _ _ (write_candidate_outcome b s Hok) Hr) as Hq.
    assert (safe (filesystem b) (filesystem b')) as [Hok' Hrec] by (destruct res; [apply Hq|exact Hq..]).
    split; [done|]. split; [|by intros c ->; apply Hq].
    intros o. rewrite !recoverable_rec by done. apply Hrec.
  - intros b c s b' res Hok Hw Hr. pose proof (outcome_result _ _ _ _ _ _ (sync_candidate_outcome b c s Hok Hw) Hr) as Hq.
    assert (safe (filesystem b) (filesystem b')) as [Hok' Hrec] by (destruct res; [apply Hq|exact Hq..]).
    split; [done|]. split; [|by intros ->; apply Hq].
    intros o. rewrite !recoverable_rec by done. apply Hrec.
  - intros b c s b' res Hok Hw Hr. pose proof (outcome_result _ _ _ _ _ _ (publish_candidate_outcome b c s Hok Hw) Hr) as Hq.
    assert (fs_ok (filesystem b') ∧ ∀ o, rec (filesystem b') o → rec (filesystem b) o ∨ o = Some s)
      as [Hok' Hrec].
    { destruct res; [split; apply Hq|split; [apply Hq|by left; apply Hq]..]. }
    split; [done|]. split; [|by intros ->; apply Hq].
    intros o. rewrite !recoverable_rec by done. apply Hrec.
  - intros b s b' res Hok Hw Hr. pose proof (outcome_result _ _ _ _ _ _ (sync_committed_root_outcome b s Hok Hw) Hr) as Hq.
    assert (safe (filesystem b) (filesystem b')) as [Hok' Hrec] by (destruct res; [apply Hq|exact Hq..]).
    split; [done|]. split.
    + intros o. rewrite !recoverable_rec by done. intros Ho. left. by apply Hrec.
    + intros ->. intros o. rewrite recoverable_rec by done. apply Hq.
Defined.
End laws.

(** ** Processes *)

(** A process death keeps the files; a power loss may lose unsynced changes.
    The next process meets a device that answers as it likes. *)
Definition restarts (fs fs' : Fs) : Prop := (∃ dev, fs' = with_device dev fs) ∨ fs_crash fs fs'.

(** A restart finds a well-formed store and reads a state it commits to. *)
Lemma restart_loads fs fs' next :
  fs_ok fs → restarts fs fs' →
  fs_ok fs' ∧ ∃ o, rec fs o ∧
    let load := UnixFsDurabilityBackend.load_committed (UnixFsDurabilityBackend_mk fs' next) in
    (load = Ok o ∨ load = Err (Io OtherKind)) ∧ ((∀ n, device fs' n = None) → load = Ok o).
Proof.
  intros Hok [[dev ->]|Hcrash].
  - split; [done|]. destruct (proj2 Hok _ (snapshots_entries _)) as [o Ho]. exists o.
    split; [by exists (entries (root_directory fs)); split; [left|]|]. by apply (read_committed_run (with_device dev fs)).
  - pose proof Hcrash as (_ & (R & HR & Hroot) & _). destruct (proj2 Hok R HR) as [o Ho].
    split; [by eapply crash_ok|]. exists o. split; [by exists R|].
    pose proof (crash_committed _ _ R o Hcrash HR Hroot Ho) as Hc. apply (read_committed_run fs'). by rewrite Hroot.
Qed.

(** Opening a store reads it. *)
Lemma outcome_open_counter fs :
  outcome UnixFsDurabilityBackend.open_counter fs
    (λ fs' _, ∃ dev, fs' = with_device dev fs) (λ fs', ∃ dev, fs' = with_device dev fs).
Proof.
  apply outcome_bind, outcome_map_err, outcome_attempt; [|eauto]. intros dev.
  apply outcome_bind, outcome_map_err, outcome_bind, outcome_attempt; [|eauto]. intros dev2.
  apply outcome_get, outcome_ret. destruct (foldl scan_entry None _) as [value|]; [|apply outcome_ret; eauto].
  apply outcome_lift; eauto.
Qed.

Lemma open_same fs b : UnixFsDurabilityBackend.open fs = Ok b → ∃ dev, filesystem b = with_device dev fs.
Proof.
  unfold UnixFsDurabilityBackend.open. destruct (UnixFsDurabilityBackend.open_counter fs) as [fs' scanned] eqn:Hopen.
  pose proof (outcome_result _ _ _ _ _ _ (outcome_open_counter fs) Hopen) as Hsame.
  intros (next & -> & [= <-])%bind_Ok. exact Hsame.
Qed.

(** ** A device that carries out every call *)
Definition healthy (fs : Fs) : Prop := ∀ n, device fs n = None.

Lemma attempt_healthy fs : healthy fs → Fs.attempt fs = (with_device (λ n, device fs (S n)) fs, Ok tt).
Proof. intros Hd. unfold Fs.attempt. rewrite st_bind, answer_eq. by rewrite (Hd 0%nat). Qed.
