(* ===== verification/FsAllocate.v ===== *)
(** * Candidate allocation (crates/apc-storage-fs/src/lib.rs)

    The scan of [open] finds a number above every candidate's, and the loop of
    [allocate_candidate] stops at the first free name: its fuel is never used
    up.  The numbers in use stay below the counter, so that a store can always be
    opened again, and a commit on a device that works succeeds. *)
From Stdlib Require Import Lia NArith Strings.Byte.
From stdpp Require Import base tactics option list gmap numbers.
From S2P Require Import Prelude Outcome BTree Bytes Durability FsRecovery Text Fs FsStorage FsLaws.
Local Open Scope N_scope.

Notation objects fs := (entries (objects_directory fs)).

(** The number a name stands for. *)
Definition name_id (name : FileName) : option N := parse_u64 (name_digits name).

Lemma name_id_candidate id : id ≤ u64_max → name_id (candidate_name id) = Some id.
Proof. exact (candidate_name_parse id). Qed.
#[local] Opaque candidate_name.

(** ** The loop *)
Section allocate.
Implicit Types (fs : Fs) (b : UnixFsDurabilityBackend) (names : gset FileName).

Definition is_ahead (next : N) (name : FileName) : bool :=
  match name_id name with Some id => next <=? id | None => false end.

Lemma is_ahead_true next name : is_ahead next name = true ↔ ∃ id, name_id name = Some id ∧ next ≤ id.
Proof.
  unfold is_ahead. destruct (name_id name) as [id|].
  - rewrite N.leb_le. split; [by eauto|]. by intros (? & [= ->] & ?).
  - split; [done|]. by intros (? & ? & _).
Qed.

Definition ahead (next : N) names : gset FileName := filter (λ name, is_ahead next name = true) names.

Lemma ahead_next next names :
  next ≤ u64_max → candidate_name next ∈ names → (size (ahead (next + 1) names) < size (ahead next names))%nat.
Proof.
  intros Hle Hin. pose proof (name_id_candidate next Hle) as Hid. revert Hid Hin.
  generalize (candidate_name next). intros found Hid Hin. apply subset_size. split.
  - intros name Hname. apply elem_of_filter in Hname as [(id & Hi & Hn)%is_ahead_true Hname].
    apply elem_of_filter. split; [|done]. apply is_ahead_true. exists id. split; [done|lia].
  - intros Hsub. specialize (Hsub found). unfold ahead in Hsub. rewrite !elem_of_filter, !is_ahead_true in Hsub.
    destruct Hsub as [(id & Hi & Hn) _]; [|rewrite Hid in Hi; simplify_eq; lia].
    split; [|done]. exists next. split; [done|lia].
Qed.

Lemma ahead_size next names : (size (ahead next names) ≤ size names)%nat.
Proof. apply subseteq_size. intros name. by intros [_ ?]%elem_of_filter. Qed.

(** What the call to [create_new] answers. *)
Lemma open_create_new_cases name fs fs' r :
  Fs.open_create_new ObjectsDir name fs = (fs', r) →
  (r = Err OtherKind ∧ objects fs' = objects fs) ∨
  (r = Err AlreadyExists ∧ name ∈ dom (objects fs) ∧ objects fs' = objects fs) ∨
  (∃ i, r = Ok i ∧ name ∉ dom (objects fs) ∧ objects fs' = <[name := i]> (objects fs)).
Proof.
  unfold Fs.open_create_new. rewrite st_bind. unfold Fs.attempt. rewrite st_bind, answer_eq.
  destruct (device fs 0).
  - intros [= <- <-]. by left.
  - run_st. cbn [directory]. set (fs1 := with_device _ fs). change (objects fs1) with (objects fs).
    destruct (objects fs !! name) as [i|] eqn:Hn.
    + intros [= <- <-]. right; left. split_and!; [done|by eapply elem_of_dom_2|done].
    + rewrite create_eq. intros [= <- <-]. right; right. eexists. split_and!; [done| |done].
      by apply not_elem_of_dom.
Qed.

(** The first free name from [next] on. *)
Definition first_free names (next id : N) : Prop :=
  next ≤ id < u64_max ∧ candidate_name id ∉ names ∧
  ∀ k, next ≤ k < id → candidate_name k ∈ names.

Definition allocated b b' (r : result FsStorageError FsCandidate) : Prop :=
  let names := dom (objects (filesystem b)) in
  match r with
  | Ok c => ∃ id, first_free names (next_candidate b) id ∧ c = FsCandidate_mk (candidate_name id) ∧
      next_candidate b' = id + 1 ∧ dom (objects (filesystem b')) = {[candidate_name id]} ∪ names
  | Err CandidateIdExhausted =>
      ∀ k, next_candidate b ≤ k < u64_max → candidate_name k ∈ names
  | Err e => e = Io OtherKind ∧ dom (objects (filesystem b')) = names
  | Panic => False
  end.

Lemma first_free_next names next id :
  candidate_name next ∈ names → first_free names (next + 1) id → first_free names next id.
Proof.
  intros Hin (Hle & Hfree & Hall). split; [lia|]. split; [done|]. intros k Hk.
  destruct (decide (k = next)) as [->|Hne]; [done|]. apply Hall. lia.
Qed.

(** More fuel than names ahead is enough. *)
Lemma allocate_loop_spec fuel b :
  (size (ahead (next_candidate b) (dom (objects (filesystem b)))) < fuel)%nat →
  allocated b (UnixFsDurabilityBackend.allocate_loop fuel b).1
    (UnixFsDurabilityBackend.allocate_loop fuel b).2.
Proof.
  revert b. induction fuel as [|fuel IH]; intros b Hfuel; [lia|].
  cbn [UnixFsDurabilityBackend.allocate_loop]. rewrite st_bind.
  unfold UnixFsDurabilityBackend.allocate_once, u64_checked_add.
  case_decide as Hmax; cbn [fst snd].
  2:{ intros k Hk. lia. }
  destruct (Fs.open_create_new _ _ _) as [fs' r] eqn:Hopen.
  apply open_create_new_cases in Hopen as [[-> Hobj]|[(-> & Hin & Hobj)|(i & -> & Hnot & Hobj)]].
  - split; [done|]. cbn. by rewrite Hobj.
  - set (b1 := UnixFsDurabilityBackend_mk fs' (next_candidate b + 1)).
    assert (dom (objects (filesystem b1)) = dom (objects (filesystem b))) as Hdom by (cbn; by rewrite Hobj).
    assert (size (ahead (next_candidate b1) (dom (objects (filesystem b1)))) < fuel)%nat as Hlt.
    { rewrite Hdom. pose proof (ahead_next (next_candidate b) _ ltac:(lia) Hin) as Ha. cbn. lia. }
    specialize (IH b1 Hlt). unfold allocated in *. rewrite Hdom in IH.
    destruct (UnixFsDurabilityBackend.allocate_loop fuel b1) as [b2 [c|e|]]; cbn [fst snd] in *; [| |done].
    + destruct IH as (id & Hfree & Hc & Hnext & Hnames). exists id.
      split; [by apply first_free_next|done].
    + destruct e; try exact IH. intros k Hk. destruct (decide (k = next_candidate b)) as [->|Hne]; [done|].
      apply IH. cbn. lia.
  - exists (next_candidate b). split; [|split; [done|split; [done|]]].
    + split; [lia|]. split; [done|]. intros k Hk. lia.
    + cbn. by rewrite Hobj, dom_insert_L.
Qed.

Lemma allocate_candidate_spec b :
  allocated b (UnixFsDurabilityBackend.allocate_candidate b).1
    (UnixFsDurabilityBackend.allocate_candidate b).2.
Proof.
  unfold UnixFsDurabilityBackend.allocate_candidate. run_st. apply allocate_loop_spec.
  rewrite <-size_dom. pose proof (ahead_size (next_candidate b) (dom (objects (filesystem b)))). lia.
Qed.
End allocate.

(** ** The scan *)
Section scan.

(** The number of a valid name that fits. *)
Definition scanned (name : FileName) : option N :=
  if valid_candidate_name name then name_id name else None.

Lemma scan_entry_eq o name :
  scan_entry o name =
  match scanned name with
  | Some v => Some (default v ((λ current, N.max current v) <$> o))
  | None => o
  end.
Proof.
  unfold scan_entry, scanned, name_id. destruct (valid_candidate_name name); [|done].
  by destruct (parse_u64 _).
Qed.

(** The result is the greatest number scanned. *)
Lemma scan_fold names o :
  (∀ m, foldl scan_entry o names = Some m →
    (o = Some m ∨ ∃ name, name ∈ names ∧ scanned name = Some m) ∧
    (∀ v, o = Some v → v ≤ m) ∧ ∀ name v, name ∈ names → scanned name = Some v → v ≤ m) ∧
  (foldl scan_entry o names = None → o = None ∧ ∀ name, name ∈ names → scanned name = None).
Proof.
  revert o. induction names as [|name names IH]; intros o; cbn [foldl].
  - split; [|by intros ->; split; [|intros ? ?%not_elem_of_nil]].
    intros m ->. split; [by left|]. split; [by intros v [= ->]|]. intros ? ? ?%not_elem_of_nil. done.
  - rewrite scan_entry_eq. destruct (scanned name) as [v|] eqn:Hv.
    + destruct (IH (Some (default v ((λ current, N.max current v) <$> o)))) as [IH1 IH2]. split.
      * intros m (Hm & Hge & Hall)%IH1. specialize (Hge _ eq_refl).
        assert (v ≤ m ∧ ∀ u, o = Some u → u ≤ m) as [Hvm Hom].
        { destruct o as [u|]; cbn in Hge; split; [lia| |lia|done]. intros ? [= <-]. lia. }
        split; [|split; [done|]].
        -- destruct Hm as [Hm|(n & Hn & Hs)]; [|right; exists n; split; [by right|done]].
           destruct o as [u|]; cbn in Hm; [|right; exists name; split; [left|congruence]].
           destruct (N.max_spec u v) as [[_ Heq]|[_ Heq]]; rewrite Heq in Hm.
           ++ right. exists name. split; [left|congruence].
           ++ left. congruence.
        -- intros n u [->|Hn]%elem_of_cons Hs; [by simplify_eq|]. by eapply Hall.
      * intros [? _]%IH2. done.
    + destruct (IH o) as [IH1 IH2]. split.
      * intros m (Hm & Hge & Hall)%IH1. split; [|split; [done|]].
        -- destruct Hm as [Hm|(n & Hn & Hs)]; [by left|right; exists n; split; [by right|done]].
        -- intros n u [->|Hn]%elem_of_cons Hs; [congruence|]. by eapply Hall.
      * intros [Ho Hall]%IH2. split; [done|]. intros n [->|Hn]%elem_of_cons; [done|by apply Hall].
Qed.

Lemma scanned_candidate id : id ≤ u64_max → scanned (candidate_name id) = Some id.
Proof. intros Hid. unfold scanned. rewrite candidate_name_valid. by apply candidate_name_parse. Qed.

Lemma scanned_bound name v : scanned name = Some v → v ≤ u64_max.
Proof.
  unfold scanned, name_id, parse_u64. destruct (valid_candidate_name name); [|done].
  case_decide; [by intros [= <-]|done].
Qed.

Lemma read_dir_cases fs fs' r :
  Fs.read_dir ObjectsDir fs = (fs', r) →
  (r = Err OtherKind ∧ device fs 0 ≠ None) ∨
  ∃ names, r = Ok names ∧ fs' = with_device (λ n, device fs (S n)) fs ∧
    ∀ name, name ∈ names ↔ name ∈ dom (objects fs).
Proof.
  unfold Fs.read_dir. rewrite st_bind. unfold Fs.attempt. rewrite st_bind, answer_eq.
  destruct (device fs 0) as [k|] eqn:Hd; [intros [= _ <-]; by left|]. run_st. intros [= <- <-]. right.
  eexists. split; [done|]. split; [done|].
  intros name. cbn [directory objects_directory with_device]. rewrite list_elem_of_fmap, elem_of_dom. split.
  - intros ([n i] & -> & Hi%elem_of_map_to_list). by exists i.
  - intros [i Hi]. exists (name, i). split; [done|]. by apply elem_of_map_to_list.
Qed.

(** After [open], every candidate's number is below the counter, which is the
    least such number and a 64-bit one; a store that holds the last number is
    refused. *)
Lemma open_spec fs :
  match UnixFsDurabilityBackend.open fs with
  | Ok b => objects (filesystem b) = objects fs ∧ inodes (filesystem b) = inodes fs ∧
      next_candidate b ≤ u64_max ∧
      (∀ name v, name ∈ dom (objects fs) → scanned name = Some v → v < next_candidate b) ∧
      (next_candidate b ≠ 0 → ∃ name, name ∈ dom (objects fs) ∧ scanned name = Some (next_candidate b - 1))
  | Err e => (e = Io OtherKind ∧ ¬ healthy fs) ∨
      (e = CandidateIdExhausted ∧ ∃ name, name ∈ dom (objects fs) ∧ scanned name = Some u64_max)
  | Panic => False
  end.
Proof.
  unfold UnixFsDurabilityBackend.open, UnixFsDurabilityBackend.open_counter.
  rewrite st_bind. unfold map_err_st at 1, Fs.attempt. rewrite st_bind, answer_eq.
  destruct (device fs 0) eqn:Hd; [left; split; [done|]; intros Hh; by rewrite Hh in Hd|]. run_st.
  set (fs1 := with_device _ fs). unfold scan_next_candidate. rewrite st_bind. unfold map_err_st.
  destruct (Fs.read_dir ObjectsDir fs1) as [fs2 r] eqn:Hread.
  apply read_dir_cases in Hread as [[-> Hfail]|(names & -> & -> & Hnames)].
  { left. split; [done|]. intros Hh. apply Hfail, Hh. }
  cbn [map_err]. change (objects fs1) with (objects fs) in Hnames.
  destruct (scan_fold names None) as [Hsome Hnone].
  destruct (foldl scan_entry None names) as [m|].
  - destruct (Hsome m eq_refl) as ([?|(name & Hin & Hs)] & _ & Hall); [done|].
    unfold u64_checked_add. unfold lift_result. case_decide as Hmax; cbn.
    + split; [done|]. split; [done|]. split; [done|]. split.
      * intros n v Hn%Hnames Hv. specialize (Hall _ _ Hn Hv). lia.
      * intros _. exists name. split; [by apply Hnames|]. by replace (m + 1 - 1) with m by lia.
    + right. split; [done|]. exists name. split; [by apply Hnames|].
      apply scanned_bound in Hs as Hb. rewrite Hs. f_equal. lia.
  - destruct (Hnone eq_refl) as [_ Hall]. cbn. split; [done|]. split; [done|]. split; [done|]. split; [|done].
    intros n v Hn%Hnames%Hall. congruence.
Qed.

(** So its numbers from the counter on are free. *)
Lemma open_free fs b id :
  UnixFsDurabilityBackend.open fs = Ok b → next_candidate b ≤ id ≤ u64_max → candidate_name id ∉ dom (objects fs).
Proof.
  intros Hopen Hid Hin. pose proof (open_spec fs) as Ho. rewrite Hopen in Ho. destruct Ho as (_ & _ & _ & Hall & _).
  specialize (Hall _ _ Hin (scanned_candidate id ltac:(lia))). lia.
Qed.
End scan.

(** ** Numbers in use

    The numbers of all candidates stay below the counter, and below the last
    number, after which there is no next one: a store that only this code has
    written can always be opened again. *)
Section below.
Implicit Types (fs : Fs) (b : UnixFsDurabilityBackend).

Definition below (bound : N) fs : Prop :=
  ∀ names name v, names ∈ snapshots (objects_directory fs) → name ∈ dom names → scanned name = Some v → v < bound.

Lemma below_new bound dev : below bound (fs_new dev).
Proof. intros names name v ->%list_elem_of_singleton. cbn. rewrite dom_empty_L. set_solver. Qed.

Lemma below_mono n m fs : n ≤ m → below n fs → below m fs.
Proof. intros Hle Hb names name v Hs Hn Hv. specialize (Hb names name v Hs Hn Hv). lia. Qed.

Lemma below_crash bound fs fs' : below bound fs → fs_crash fs fs' → below bound fs'.
Proof.
  intros Hb ((m & Hm & Ho) & _) names name v. rewrite Ho. intros ->%list_elem_of_singleton. by apply Hb.
Qed.

Lemma below_restart bound fs fs' : below bound fs → restarts fs fs' → below bound fs'.
Proof. intros Hb [[dev ->]|Hcrash]; [exact Hb|by eapply below_crash]. Qed.

Section calls.
Context (bound : N).

Lemma keeps_answer : keeps (below bound) Fs.answer.
Proof. intros fs Hb. by rewrite answer_eq. Qed.

Lemma keeps_attempt : keeps (below bound) Fs.attempt.
Proof. apply keeps_bind; [apply keeps_answer|]. by intros [k|] fs Hb. Qed.

Lemma keeps_put_inode i inode : keeps (below bound) (Fs.put_inode i inode).
Proof. by intros fs Hb. Qed.

(** Changes of the root directory. *)
Lemma keeps_change_root f : keeps (below bound) (Fs.change_directory RootDir f).
Proof. by intros fs Hb. Qed.

Lemma keeps_lookup d name : keeps (below bound) (Fs.lookup_name d name).
Proof. by intros fs Hb. Qed.

Lemma keeps_sync_directory d : keeps (below bound) (Fs.sync_directory d).
Proof.
  apply keeps_bind; [apply keeps_attempt|]. intros _. apply keeps_update. intros fs Hb.
  destruct d; [|exact Hb]. intros names name v ->%list_elem_of_singleton.
  exact (Hb (objects fs) name v (snapshots_entries _)).
Qed.

Lemma keeps_create d name :
  (∀ v, scanned name = Some v → v < bound) → keeps (below bound) (Fs.create d name).
Proof.
  intros Hname fs Hb. rewrite create_eq. destruct d; [|exact Hb]. cbn. intros names n v [->|Hin]%elem_of_cons.
  - cbn. rewrite dom_insert_L. intros [->%elem_of_singleton|Hn]%elem_of_union; [apply Hname|].
    by apply (Hb (objects fs)); [apply snapshots_entries|].
  - by apply Hb.
Qed.

Lemma root_next_unscanned v : scanned ROOT_NEXT_FILE = Some v → v < bound.
Proof. done. Qed.
End calls.

#[local] Hint Resolve keeps_answer keeps_attempt keeps_put_inode keeps_change_root keeps_lookup keeps_sync_directory
  keeps_create root_next_unscanned : keeps.
#[local] Hint Extern 1 (keeps _ (Fs.flush _)) => apply keeps_ret : keeps.
#[local] Hint Extern 1 (keeps _ (Fs.open_directory _)) => apply keeps_attempt : keeps.
#[local] Hint Extern 1 (keeps _ (throw _)) => apply keeps_lift : keeps.

(** Call by call. *)
Ltac keeps_calls :=
  repeat match goal with
  | |- keeps _ (_ ≫= _) => apply keeps_bind; [|intros ?]
  | |- keeps _ (match ?x with _ => _ end) => destruct x
  | |- keeps _ _ => solve [auto with keeps]
  end.

Section files.
Context (bound : N).

Lemma keeps_create_new name :
  (∀ v, scanned name = Some v → v < bound) → keeps (below bound) (Fs.open_create_new ObjectsDir name).
Proof. intros Hname. unfold Fs.open_create_new. keeps_calls. Qed.

Lemma keeps_create_truncate : keeps (below bound) (Fs.open_create_truncate RootDir ROOT_NEXT_FILE).
Proof. unfold Fs.open_create_truncate. keeps_calls. Qed.

Lemma keeps_open d name : keeps (below bound) (Fs.open d name).
Proof. unfold Fs.open. keeps_calls. Qed.

Lemma keeps_truncate d name : keeps (below bound) (Fs.open_truncate d name).
Proof. unfold Fs.open_truncate. keeps_calls. Qed.

Lemma keeps_write i bytes : keeps (below bound) (Fs.write_all i bytes).
Proof. unfold Fs.write_all. keeps_calls. Qed.

Lemma keeps_sync i : keeps (below bound) (Fs.sync_all i).
Proof. unfold Fs.sync_all. keeps_calls. Qed.

Lemma keeps_rename from to : keeps (below bound) (Fs.rename RootDir from to).
Proof. unfold Fs.rename. keeps_calls. Qed.
End files.

#[local] Hint Resolve keeps_create_truncate keeps_open keeps_truncate keeps_write keeps_sync keeps_rename : keeps.

(** A bound that may follow the counter. *)
Section commit.
Context (limit : N → N) (Hmono : ∀ n m, n ≤ m → limit n ≤ limit m) (Hlimit : ∀ id, id < u64_max → id < limit (id + 1)).

Definition within_limit b : Prop := below (limit (next_candidate b)) (filesystem b).

Lemma keeps_on_fs {A} (m : stateful Fs ErrorKind A) :
  (∀ bound, keeps (below bound) m) → keeps within_limit (UnixFsDurabilityBackend.on_fs m).
Proof.
  intros Hm b Hb. specialize (Hm _ _ Hb). unfold UnixFsDurabilityBackend.on_fs, on_field, map_err_st.
  by destruct (m (filesystem b)) as [fs r].
Qed.
#[local] Hint Resolve keeps_on_fs : keeps.

Lemma keeps_allocate_once : keeps within_limit UnixFsDurabilityBackend.allocate_once.
Proof.
  intros b Hb. unfold UnixFsDurabilityBackend.allocate_once, u64_checked_add. case_decide as Hid; [|done].
  pose proof (keeps_create_new (limit (next_candidate b + 1)) (candidate_name (next_candidate b))) as Hk.
  rewrite scanned_candidate in Hk by lia. specialize (Hk ltac:(intros v [= <-]; apply Hlimit; lia) (filesystem b)).
  assert (below (limit (next_candidate b + 1)) (filesystem b)) as Hb'
    by (eapply below_mono; [|exact Hb]; apply Hmono; lia).
  specialize (Hk Hb'). by destruct (Fs.open_create_new _ _ _).
Qed.

Lemma keeps_allocate fuel : keeps within_limit (UnixFsDurabilityBackend.allocate_loop fuel).
Proof.
  induction fuel as [|fuel IH]; cbn [UnixFsDurabilityBackend.allocate_loop]; [auto with keeps|].
  apply keeps_bind; [apply keeps_allocate_once|]. intros [c|]; [apply keeps_ret|apply IH].
Qed.

Lemma keeps_commit state : keeps within_limit (commit_durable state).
Proof.
  unfold commit_durable. apply keeps_bind; [|intros c; apply keeps_bind; [|intros _; apply keeps_bind; [|intros _]]].
  - apply keeps_bind; [apply keeps_bind; [apply keeps_get|]; intros b; apply keeps_allocate|]. intros c. keeps_calls.
  - cbn [sync_candidate unix_fs_backend]. unfold UnixFsDurabilityBackend.sync_candidate. keeps_calls.
  - cbn [publish_candidate unix_fs_backend]. unfold UnixFsDurabilityBackend.publish_candidate. keeps_calls.
  - apply keeps_bind; [|intros _; apply keeps_ret]. cbn [sync_committed_root unix_fs_backend].
    unfold UnixFsDurabilityBackend.sync_committed_root. keeps_calls.
Qed.
End commit.

Lemma commit_below_last state b :
  below u64_max (filesystem b) → below u64_max (filesystem (commit_durable state b).1).
Proof. apply (keeps_commit (λ _, u64_max)); [done|]. auto. Qed.

Lemma commit_below_next state b :
  below (next_candidate b) (filesystem b) →
  below (next_candidate (commit_durable state b).1) (filesystem (commit_durable state b).1).
Proof. apply (keeps_commit (λ n, n)); intros; lia. Qed.

(** The counter stays a 64-bit number. *)
Definition counter_fits b : Prop := next_candidate b ≤ u64_max.

Lemma counter_on_fs {A} (m : stateful Fs ErrorKind A) : keeps counter_fits (UnixFsDurabilityBackend.on_fs m).
Proof.
  intros b Hb. unfold UnixFsDurabilityBackend.on_fs, on_field, map_err_st. by destruct (m (filesystem b)) as [fs r].
Qed.
#[local] Hint Resolve counter_on_fs : keeps.

Lemma counter_allocate fuel : keeps counter_fits (UnixFsDurabilityBackend.allocate_loop fuel).
Proof.
  induction fuel as [|fuel IH]; cbn [UnixFsDurabilityBackend.allocate_loop]; [auto with keeps|].
  apply keeps_bind; [|intros [c|]; [apply keeps_ret|apply IH]].
  intros b Hb. unfold UnixFsDurabilityBackend.allocate_once, u64_checked_add. case_decide; [|done].
  by destruct (Fs.open_create_new _ _ _).
Qed.

Lemma counter_commit state : keeps counter_fits (commit_durable state).
Proof.
  unfold commit_durable. apply keeps_bind; [|intros c; apply keeps_bind; [|intros _; apply keeps_bind; [|intros _]]].
  - apply keeps_bind; [apply keeps_bind; [apply keeps_get|]; intros b; apply counter_allocate|]. intros c. keeps_calls.
  - cbn [sync_candidate unix_fs_backend]. unfold UnixFsDurabilityBackend.sync_candidate. keeps_calls.
  - cbn [publish_candidate unix_fs_backend]. unfold UnixFsDurabilityBackend.publish_candidate. keeps_calls.
  - apply keeps_bind; [|intros _; apply keeps_ret]. cbn [sync_committed_root unix_fs_backend].
    unfold UnixFsDurabilityBackend.sync_committed_root. keeps_calls.
Qed.

(** Such a store opens whenever its device answers. *)
Lemma open_works fs :
  below u64_max fs → healthy fs → ∃ b, UnixFsDurabilityBackend.open fs = Ok b ∧ healthy (filesystem b).
Proof.
  intros Hb Hd. unfold UnixFsDurabilityBackend.open, UnixFsDurabilityBackend.open_counter, scan_next_candidate, Fs.read_dir.
  rewrite st_bind. unfold map_err_st at 1. rewrite attempt_healthy by done. cbn [map_err]. rewrite !st_bind.
  unfold map_err_st at 1. rewrite st_bind, attempt_healthy by (intros n; apply Hd). run_st. cbn [map_err].
  set (names := (map_to_list _).*1). destruct (scan_fold names None) as [Hsome _].
  destruct (foldl scan_entry None names) as [m|] eqn:Hm; [|eexists; split; [reflexivity|intros n; apply Hd]].
  destruct (Hsome m eq_refl) as ([?|(name & Hname & Hs)] & _); [done|].
  assert (m < u64_max) as Hlt.
  { apply (Hb (objects fs) name m); [apply snapshots_entries| |done].
    apply list_elem_of_fmap in Hname as ([n i] & -> & Hi%elem_of_map_to_list). by apply elem_of_dom; exists i. }
  unfold u64_checked_add. rewrite decide_True by lia. eexists. split; [reflexivity|intros n; apply Hd].
Qed.

(** The counter of an opened store is at most the bound. *)
Lemma open_bounded bound fs b :
  below bound fs → UnixFsDurabilityBackend.open fs = Ok b →
  next_candidate b ≤ bound ∧ ∀ id, next_candidate b ≤ id ≤ u64_max → candidate_name id ∉ dom (objects fs).
Proof.
  intros Hb Hopen. pose proof (open_spec fs) as Ho. rewrite Hopen in Ho. destruct Ho as (_ & _ & _ & _ & Hmax).
  split; [|intros id; by apply open_free]. destruct (decide (next_candidate b = 0)) as [->|Hne]; [lia|].
  destruct (Hmax Hne) as (name & Hname & Hs). specialize (Hb (objects fs) name _ (snapshots_entries _) Hname Hs). lia.
Qed.
End below.

(** ** A commit on a device that works

    [works m s Q]: [m] succeeds from [s], and [Q] holds of what it returns. *)
Section works.
Implicit Types (fs : Fs) (b : UnixFsDurabilityBackend) (d : Dir) (name : FileName).

Definition works {S E A : Type} (m : stateful S E A) (s : S) (Q : S → A → Prop) : Prop := outcome m s Q (λ _, False).

(** A step that answers. *)
Lemma works_lift {S E A B} (r : result E A) (f : A → stateful S E B) (s : S) a Q :
  r = Ok a → works (f a) s Q → works (lift_result r ≫= f) s Q.
Proof. intros -> Hf. exact Hf. Qed.

(** The device works, and names of the root directory are of files. *)
Definition working fs : Prop :=
  healthy fs ∧ ∀ name i, entries (root_directory fs) !! name = Some i → i ∈ dom (inodes fs).

(** And a directory has a file of that name. *)
Definition has_file d name (i : N) fs : Prop :=
  working fs ∧ entries (directory d fs) !! name = Some i ∧ i ∈ dom (inodes fs).

Lemma working_answered fs : working fs → working (answered fs).
Proof. intros [Hh Hr]. split; [intros n; apply Hh|exact Hr]. Qed.

Lemma has_answered d name i fs : has_file d name i fs → has_file d name i (answered fs).
Proof. intros (Hw & Hi & Hd). split; [by apply working_answered|]. split; [by destruct d|done]. Qed.

Lemma has_set_inode d name i j n fs : has_file d name i fs → has_file d name i (set_inode j n fs).
Proof.
  intros ([Hh Hr] & Hi & Hd). split; [split; [exact Hh|]|split; [by destruct d|]]; cbn.
  - intros x k Hk. rewrite dom_insert. by apply elem_of_union_r, (Hr x).
  - rewrite dom_insert. by apply elem_of_union_r.
Qed.

Lemma has_inode d name i fs : has_file d name i fs → ∃ n, inodes fs !! i = Some n.
Proof. intros (_ & _ & Hd). by apply elem_of_dom. Qed.

Lemma created_has d name fs : working fs → let i := fresh (dom (inodes fs)) in has_file d name i (created d name i fs).
Proof.
  intros [Hh Hr] i. split; [split; [intros n; destruct d; apply Hh|]|split].
  - intros x k. destruct d; cbn; rewrite dom_insert; [intros Hk; by apply elem_of_union_r, (Hr x)|].
    intros [[_ <-]|[_ Hk]]%lookup_insert_Some; [set_solver|]. by apply elem_of_union_r, (Hr x).
  - destruct d; apply lookup_insert_eq.
  - destruct d; cbn; rewrite dom_insert; set_solver.
Qed.

Lemma works_attempt fs (Q : Fs → unit → Prop) : healthy fs → Q (answered fs) tt → works Fs.attempt fs Q.
Proof. intros Hh HQ. unfold works, outcome. by rewrite attempt_healthy. Qed.

Lemma works_open d name i fs :
  has_file d name i fs → works (Fs.open d name) fs (λ fs' j, j = i ∧ has_file d name i fs').
Proof.
  intros Hf. pose proof Hf as ([Hh _] & Hi & _). unfold works, outcome. rewrite open_eq, Hh, Hi. cbn.
  split; [done|]. by apply has_answered.
Qed.

Lemma works_open_truncate d name i fs :
  has_file d name i fs → works (Fs.open_truncate d name) fs (λ fs' j, j = i ∧ has_file d name i fs').
Proof.
  intros Hf. pose proof Hf as ([Hh _] & Hi & _). apply outcome_bind, works_attempt; [done|].
  apply outcome_bind, outcome_get. unfold outcome at 1. assert (entries (directory d (answered fs)) !! name = Some i) as ->
    by by destruct d. split; [done|]. by apply has_set_inode, has_answered.
Qed.

Lemma works_create_new d name fs :
  working fs → entries (directory d fs) !! name = None →
  works (Fs.open_create_new d name) fs (λ fs' i, has_file d name i fs').
Proof.
  intros Hw Hn. apply outcome_bind, works_attempt; [apply Hw|]. apply outcome_get.
  assert (entries (directory d (answered fs)) !! name = None) as -> by by destruct d.
  unfold outcome. rewrite create_eq. by apply created_has, working_answered.
Qed.

Lemma works_create_truncate name fs :
  working fs → works (Fs.open_create_truncate RootDir name) fs (λ fs' i, has_file RootDir name i fs').
Proof.
  intros Hw. apply outcome_bind, works_attempt; [apply Hw|]. apply outcome_get. apply working_answered in Hw.
  destruct (entries (directory RootDir (answered fs)) !! name) as [i|] eqn:Hn.
  - apply has_set_inode. split; [done|]. split; [done|]. by apply (proj2 Hw name).
  - unfold outcome. rewrite create_eq. by apply created_has.
Qed.

Lemma works_write_all d name i bytes fs :
  has_file d name i fs → works (Fs.write_all i bytes) fs (λ fs' _, has_file d name i fs').
Proof.
  intros Hf. pose proof Hf as [[Hh _] _]. destruct (has_inode _ _ _ _ Hf) as [n Hn].
  unfold works, outcome, Fs.write_all. rewrite st_bind, answer_eq. run_st. cbn [inodes with_device]. rewrite Hn, Hh.
  by apply has_set_inode, (has_answered d name i fs).
Qed.

Lemma works_sync_all d name i fs :
  has_file d name i fs → works (Fs.sync_all i) fs (λ fs' _, has_file d name i fs').
Proof.
  intros Hf. pose proof Hf as [[Hh _] _]. destruct (has_inode _ _ _ _ Hf) as [n Hn].
  apply outcome_bind, works_attempt; [done|]. apply outcome_get. unfold outcome. rewrite st_bind. run_st. cbn. rewrite Hn.
  by apply has_set_inode, (has_answered d name i fs).
Qed.

Lemma works_sync_directory d fs : working fs → works (Fs.sync_directory d) fs (λ fs' _, working fs').
Proof.
  intros [Hh Hr]. apply outcome_bind, works_attempt; [done|]. apply outcome_get. unfold outcome. cbn.
  split; [intros n; destruct d; apply Hh|]. by destruct d.
Qed.

Lemma works_rename d from to i fs : has_file d from i fs → works (Fs.rename d from to) fs (λ fs' _, working fs').
Proof.
  intros ([Hh Hr] & Hi & Hd). apply outcome_bind, works_attempt; [done|]. apply outcome_bind, outcome_get. unfold outcome at 1.
  assert (entries (directory d (answered fs)) !! from = Some i) as -> by by destruct d.
  unfold outcome. cbn. split; [intros n; destruct d; apply Hh|].
  destruct d; cbn; [exact Hr|]. intros x k [[_ <-]|[_ [_ Hk]%lookup_delete_Some]]%lookup_insert_Some; [done|by apply (Hr x)].
Qed.

Lemma works_on_fs {A} (m : stateful Fs ErrorKind A) b (Q : Fs → A → Prop) :
  works m (filesystem b) Q →
  works (UnixFsDurabilityBackend.on_fs m) b (λ b' a, next_candidate b' = next_candidate b ∧ Q (filesystem b') a).
Proof. intros Hm. apply outcome_on_fs. eapply outcome_mono; [exact Hm|done|done]. Qed.

(** One call on the filesystem, then the rest. *)
Lemma works_fs_bind {A B} (m : stateful Fs ErrorKind A) (f : A → stateful UnixFsDurabilityBackend FsStorageError B) b
    (R : Fs → A → Prop) Q :
  works m (filesystem b) R →
  (∀ b' a, next_candidate b' = next_candidate b → R (filesystem b') a → works (f a) b' Q) →
  works (UnixFsDurabilityBackend.on_fs m ≫= f) b Q.
Proof.
  intros Hm Hf. apply outcome_bind. eapply outcome_mono; [by apply works_on_fs| |done]. intros b' a [Hn HR]. by apply Hf.
Qed.

Lemma works_allocate b :
  working (filesystem b) → next_candidate b < u64_max → candidate_name (next_candidate b) ∉ dom (objects (filesystem b)) →
  works UnixFsDurabilityBackend.allocate_candidate b (λ b' c, next_candidate b' = next_candidate b + 1 ∧
    valid_candidate_name (file_name c) = true ∧ ∃ i, has_file ObjectsDir (file_name c) i (filesystem b')).
Proof.
  intros Hw Hn Hfree%not_elem_of_dom. apply outcome_get. cbn [UnixFsDurabilityBackend.allocate_loop]. apply outcome_bind.
  unfold outcome at 1, UnixFsDurabilityBackend.allocate_once, u64_checked_add. rewrite decide_True by lia.
  pose proof (works_create_new ObjectsDir (candidate_name (next_candidate b)) _ Hw Hfree) as Ho. unfold works, outcome in Ho.
  destruct (Fs.open_create_new _ _ _) as [fs [i|e|]]; [|done..].
  split; [done|]. split; [apply candidate_name_valid|]. by exists i.
Qed.

Lemma works_write_candidate payload b :
  working (filesystem b) → next_candidate b < u64_max → candidate_name (next_candidate b) ∉ dom (objects (filesystem b)) →
  HEADER_LEN + len payload + CHECKSUM_LEN ≤ isize_max →
  works (UnixFsDurabilityBackend.write_candidate payload) b (λ b' c, next_candidate b' = next_candidate b + 1 ∧
    valid_candidate_name (file_name c) = true ∧ ∃ i, has_file ObjectsDir (file_name c) i (filesystem b')).
Proof.
  intros Hw Hn Hfree Hlen. apply outcome_bind. eapply outcome_mono; [by apply works_allocate| |done].
  cbn beta. intros b1 c (Hn1 & Hv & i & Hi).
  assert (∃ enc, encode (E := FsStorageError) payload = Ok enc) as [enc Henc].
  { unfold encode, u64_try_from, byte_capacity. pose proof isize_usize. unfold usize_max in *.
    rewrite (decide_True _ _ Hlen), decide_True by (unfold u64_max in *; lia). by eexists. }
  apply outcome_bind. rewrite Henc. unfold outcome at 1. cbn beta iota.
  eapply works_fs_bind; [by apply works_open_truncate|]. cbn beta. intros b2 j Hn2 [-> Hi2].
  eapply works_fs_bind; [by eapply works_write_all|]. cbn beta. intros b3 u Hn3 Hi3.
  eapply (works_fs_bind _ _ _ (λ fs _, has_file ObjectsDir (file_name c) i fs)); [apply outcome_ret, Hi3|]. cbn beta. intros b4 u' Hn4 Hi4.
  apply outcome_ret. split; [congruence|]. split; [done|]. by exists i.
Qed.

Lemma works_sync_candidate b c i :
  has_file ObjectsDir (file_name c) i (filesystem b) →
  works (UnixFsDurabilityBackend.sync_candidate c) b
    (λ b' _, next_candidate b' = next_candidate b ∧ working (filesystem b')).
Proof.
  intros Hi. eapply works_fs_bind; [by apply works_open|]. cbn beta. intros b1 j Hn1 [-> Hi1].
  eapply works_fs_bind; [by eapply works_sync_all|]. cbn beta. intros b2 u Hn2 Hi2.
  eapply (works_fs_bind _ _ _ (λ fs _, working fs));
    [by apply works_attempt; [apply Hi2|]; apply working_answered, Hi2|]. cbn beta. intros b3 u' Hn3 Hw3.
  eapply outcome_mono; [by apply works_on_fs, works_sync_directory| |done].
  cbn beta. intros b4 u4 [Hn4 Hw4]. split; [congruence|done].
Qed.

Lemma works_publish_candidate b c :
  valid_candidate_name (file_name c) = true → working (filesystem b) →
  works (UnixFsDurabilityBackend.publish_candidate c) b
    (λ b' _, next_candidate b' = next_candidate b ∧ working (filesystem b')).
Proof.
  intros Hv Hw. unfold UnixFsDurabilityBackend.publish_candidate. rewrite Hv. cbn [negb].
  eapply works_fs_bind; [by apply works_create_truncate|]. cbn beta. intros b1 i Hn1 Hi1.
  eapply works_fs_bind; [by eapply works_write_all|]. cbn beta. intros b2 u2 Hn2 Hi2.
  eapply works_fs_bind; [by eapply works_write_all|]. cbn beta. intros b3 u3 Hn3 Hi3.
  eapply works_fs_bind; [by eapply works_sync_all|]. cbn beta. intros b4 u4 Hn4 Hi4.
  eapply outcome_mono; [by eapply works_on_fs, works_rename| |done].
  cbn beta. intros b5 u5 [Hn5 Hw5]. split; [congruence|done].
Qed.

Lemma works_sync_root b :
  working (filesystem b) →
  works UnixFsDurabilityBackend.sync_committed_root b
    (λ b' _, next_candidate b' = next_candidate b ∧ working (filesystem b')).
Proof.
  intros Hw. eapply (works_fs_bind _ _ _ (λ fs _, working fs));
    [by apply works_attempt; [apply Hw|]; apply working_answered, Hw|]. cbn beta. intros b1 u1 Hn1 Hw1.
  eapply outcome_mono; [by apply works_on_fs, works_sync_directory| |done].
  cbn beta. intros b2 u2 [Hn2 Hw2]. split; [congruence|done].
Qed.

(** A commit of a payload that fits succeeds. *)
Lemma commit_works payload b :
  working (filesystem b) → next_candidate b < u64_max → candidate_name (next_candidate b) ∉ dom (objects (filesystem b)) →
  HEADER_LEN + len payload + CHECKSUM_LEN ≤ isize_max →
  works (commit_durable payload) b (λ b' _, next_candidate b' = next_candidate b + 1 ∧ working (filesystem b')).
Proof.
  intros Hw Hn Hfree Hlen. apply outcome_bind. eapply outcome_mono; [by apply works_write_candidate| |done].
  cbn beta. intros b1 c (Hn1 & Hv & i & Hi). apply outcome_bind.
  eapply outcome_mono; [by eapply works_sync_candidate| |done]. cbn beta. intros b2 u2 [Hn2 Hw2]. apply outcome_bind.
  eapply outcome_mono; [by apply works_publish_candidate| |done]. cbn beta. intros b3 u3 [Hn3 Hw3]. apply outcome_bind.
  eapply outcome_mono; [by apply works_sync_root| |done]. cbn beta. intros b4 u4 [Hn4 Hw4]. apply outcome_ret.
  split; [congruence|done].
Qed.

(** ** Ready for a number of commits *)

(** The device works, and [k] numbers from the counter on are free. *)
Definition ready (k : N) b : Prop :=
  working (filesystem b) ∧ next_candidate b + k ≤ u64_max ∧
  candidate_name (next_candidate b) ∉ dom (objects (filesystem b)) ∧ below (N.max (next_candidate b) 1) (filesystem b).

Lemma ok_working fs : fs_ok fs → healthy fs → working fs.
Proof. intros [[[Hr _] _] _] Hh. split; [exact Hh|]. intros name i Hi. eapply Hr; [|exact Hi]. apply snapshots_entries. Qed.

(** A store with at most one candidate opens ready. *)
Lemma open_ready fs b :
  fs_ok fs → healthy fs → below 1 fs → UnixFsDurabilityBackend.open fs = Ok b → ready 2 b.
Proof.
  intros Hok Hh Hb Hopen. destruct (open_bounded 1 fs b Hb Hopen) as [Hle Hfree].
  destruct (open_works fs) as (b' & Hb' & Hh'); [by eapply below_mono; [|exact Hb]|done|].
  rewrite Hopen in Hb'. apply (inj Ok) in Hb' as <-. apply open_same in Hopen as [dev Hsame].
  split; [apply ok_working; [by rewrite Hsame|done]|]. split; [unfold u64_max; lia|].
  replace (N.max (next_candidate b) 1) with 1 by lia. rewrite Hsame. split; [|exact Hb].
  apply Hfree. unfold u64_max. lia.
Qed.

Lemma commit_ready k payload b :
  ready (k + 1) b → HEADER_LEN + len payload + CHECKSUM_LEN ≤ isize_max →
  works (commit_durable payload) b (λ b' _, ready k b').
Proof.
  intros (Hw & Hk & Hfree & Hb) Hlen. pose proof (commit_works payload b Hw ltac:(lia) Hfree Hlen) as Hc.
  pose proof (keeps_commit (λ n, N.max n 1) ltac:(cbn beta; lia) ltac:(cbn beta; lia) payload b Hb) as Hb'.
  unfold works, outcome, within_limit in *. destruct (commit_durable payload b) as [b' [u|e|]]; [|done..].
  destruct Hc as [Hn Hw']. cbn [fst] in Hb'. split; [exact Hw'|]. split; [lia|]. split; [|exact Hb'].
  intros Hin. specialize (Hb' (objects (filesystem b')) _ _ (snapshots_entries _) Hin (scanned_candidate (next_candidate b') ltac:(lia))). lia.
Qed.

(** The number a successful commit has used, whatever the device answered. *)
Lemma commit_next payload b :
  outcome (commit_durable payload) b
    (λ b' _, ∃ id, first_free (dom (objects (filesystem b))) (next_candidate b) id ∧ next_candidate b' = id + 1)
    (λ _, True).
Proof.
  assert (∀ A (m : stateful Fs ErrorKind A) b0 n,
    next_candidate b0 = n → outcome (UnixFsDurabilityBackend.on_fs m) b0 (λ b' _, next_candidate b' = n) (λ _, True)) as Hfs.
  { intros A m b0 n <-. apply outcome_on_fs. unfold outcome. by destruct (m _) as [fs [a|e|]]. }
  assert (∀ c b0 n, next_candidate b0 = n →
    outcome (UnixFsDurabilityBackend.sync_candidate c) b0 (λ b' _, next_candidate b' = n) (λ _, True)) as Hsync.
  { intros c b0 n Hn. repeat (apply outcome_bind; eapply outcome_mono; [by apply Hfs| |done]; cbn beta; intros). by apply Hfs. }
  assert (∀ c b0 n, next_candidate b0 = n →
    outcome (UnixFsDurabilityBackend.publish_candidate c) b0 (λ b' _, next_candidate b' = n) (λ _, True)) as Hpublish.
  { intros c b0 n Hn. unfold UnixFsDurabilityBackend.publish_candidate. destruct (negb _); [done|].
    repeat (apply outcome_bind; eapply outcome_mono; [by apply Hfs| |done]; cbn beta; intros). by apply Hfs. }
  assert (∀ b0 n, next_candidate b0 = n →
    outcome UnixFsDurabilityBackend.sync_committed_root b0 (λ b' _, next_candidate b' = n) (λ _, True)) as Hroot.
  { intros b0 n Hn. repeat (apply outcome_bind; eapply outcome_mono; [by apply Hfs| |done]; cbn beta; intros). by apply Hfs. }
  pose proof (allocate_candidate_spec b) as Ha. unfold allocated in Ha.
  apply outcome_bind, outcome_bind. unfold outcome at 1. destruct (UnixFsDurabilityBackend.allocate_candidate b) as [b1 [c|e|]];
    [|done..]. cbn [fst snd] in Ha. destruct Ha as (id & Hid & _ & Hn & _).
  apply outcome_bind, outcome_lift; [|done]. intros enc _.
  do 3 (apply outcome_bind; eapply outcome_mono; [by apply Hfs| |done]; cbn beta; intros ? ? ?). apply outcome_ret.
  apply outcome_bind; eapply outcome_mono; [by apply Hsync| |done]. cbn beta. intros ? ? ?.
  apply outcome_bind; eapply outcome_mono; [by apply Hpublish| |done]. cbn beta. intros ? ? ?.
  apply outcome_bind; eapply outcome_mono; [by apply Hroot| |done]. cbn beta. intros ? ? ?. apply outcome_ret. by exists id.
Qed.

(** The first commit of a new store. *)
Lemma commit_first payload b b' u :
  objects (filesystem b) = ∅ → next_candidate b = 0 → below 0 (filesystem b) →
  commit_durable payload b = (b', Ok u) → below 1 (filesystem b').
Proof.
  intros Hnone Hn Hb Hc. pose proof (commit_next payload b) as Hnext. unfold outcome in Hnext. rewrite Hc in Hnext.
  destruct Hnext as (id & (_ & _ & Hall) & Hid). rewrite Hn, Hnone, dom_empty_L in *.
  assert (id = 0) as -> by (destruct (decide (id = 0)); [done|]; specialize (Hall 0 ltac:(lia)); set_solver).
  pose proof (commit_below_next payload b) as Hb'. rewrite Hc, Hn in Hb'. cbn [fst] in Hb'. rewrite Hid in Hb'. by apply Hb'.
Qed.
End works.
