(* ===== verification/SyncWorker.v ===== *)
(** * The sync process worker (crates/apc-sync/src/bin/apc-sync-process-worker.rs)

    Two replicas as separate processes that meet only in files: each publishes
    its edit as one protected part, and merges the two parts the directory holds.
    A process either exits with success or panics; every [unwrap] of the program
    is a panic.  The paths are names in one directory, whose device may fail any
    call. *)
From Stdlib Require Import Lia NArith Strings.Byte.
From stdpp Require Import base tactics option list gmap numbers relations.
From S2P Require Import Prelude Outcome BTree Bytes Id Error Scalar Merge ScalarMerge Reader Projection Codec Crypto.
From S2P Require Import Protected Wire Fs FsLaws.
Local Open Scope N_scope.

(** [Result::unwrap]. *)
Definition unwrap {E E' A : Type} (r : result E A) : result E' A :=
  match r with
  | Ok a => Ok a
  | _ => Panic
  end.

Definition unwrap_st {S E E' A : Type} (m : stateful S E A) : stateful S E' A := λ s,
  let '(s', r) := m s in (s', unwrap r).

Module process_worker.

(** ** Fixed data *)
Definition TEST_KEY : byte_array KEY_BYTES := replicate KEY_BYTES x91 ↾ I.

(** [[0_u8; 32]] with the value in the last eight bytes. *)
Definition bytes (value : N) : byte_array LOGICAL_ID_BYTES :=
  default (replicate LOGICAL_ID_BYTES x00 ↾ I) (try_into_array LOGICAL_ID_BYTES (replicate 24 x00 ++ be_bytes 8 value)).

Definition atom (value : N) : AtomId := from_bytes (bytes value).
Definition cid (value : N) : ContinuumId := from_bytes (bytes value).
Definition rid (value : N) : RevisionId := from_bytes (bytes value).
Definition pid (value : N) : PublicationId := from_bytes (bytes value).

Definition body_key {E : Type} : result E DomainKey := unwrap (DomainKey.new (atom 1) (b_ "body")).

(** [register.assign(id, value).unwrap()] on a register of its own. *)
Definition assigned {E : Type} (revision_id : N) (value : list byte) (register : ScalarRegister (list byte)) :
    result E (ScalarRegister (list byte)) :=
  let '(register, res) := ScalarRegister.assign (rid revision_id) value register in
  _ ← unwrap res;
  Ok register.

Definition baseline_projection {E : Type} : result E ScalarSyncProjection :=
  register ← assigned 1 (b_ "base") ScalarRegister.new;
  key ← body_key;
  Ok (SyncProjection.from_domains {[ key := register ]}).

Definition edited_projection {E : Type} (revision_id : N) (value : list byte) : result E ScalarSyncProjection :=
  baseline ← baseline_projection;
  key ← body_key;
  register ← expect (SyncProjection.get baseline key);
  register ← assigned revision_id value register;
  Ok (SyncProjection.from_domains {[ key := register ]}).

Definition locally_edit (revision_id : N) (value : list byte) : stateful ScalarDirtyDomainState Empty_set unit :=
  key ← lift_result body_key;
  state ← get_state;
  register ← lift_result (expect (DirtyDomainState.get state key));
  register ← lift_result (assigned revision_id value register);
  put_state (DirtyDomainState.set_local key register state).

(** ** The two modes *)
Section modes.
Context `{Aead}.

Definition emit (generated : option (byte_array NONCE_BYTES)) (output : FileName) (revision_id : N)
    (value : list byte) (publication_id : PublicationId) : stateful Fs Empty_set unit :=
  projection ← lift_result (edited_projection revision_id value);
  let key := ContentKey_mk TEST_KEY in
  part ← lift_result (unwrap (protect_scalar_part generated key (cid 7) publication_id 0 1 projection));
  encoded ← lift_result (unwrap (encode_protected_sync_part part));
  unwrap_st (Fs.write RootDir output encoded).

(** The body of the loop over the parts. *)
Definition import_part (key : ContentKey) (continuum_id : ContinuumId) (part : ProtectedSyncPart) :
    stateful (MultipartInbox * ScalarDirtyDomainState) Empty_set unit :=
  ingested ← on_fst (unwrap_st (MultipartInbox.ingest key continuum_id part));
  projection ← lift_result (expect ingested);
  on_snd (unwrap_st (DirtyDomainState.import_projection projection)).

(** The replica before it sees a part. *)
Definition edited_replica (left_replica : bool) : stateful ScalarDirtyDomainState Empty_set unit :=
  baseline ← lift_result baseline_projection;
  _ ← unwrap_st (DirtyDomainState.import_projection baseline);
  if left_replica then locally_edit 10 (b_ "left") else locally_edit 20 (b_ "right").

(** The encoded state of a replica that took in both parts. *)
Definition merged_bytes (left_replica : bool) (state : ScalarDirtyDomainState) (left right : ProtectedSyncPart) :
    result Empty_set (list byte) :=
  let parts := if left_replica then [right; left] else [left; right] in
  let '((_, state), imported) :=
    st_for_each (import_part (ContentKey_mk TEST_KEY) (cid 7)) parts (MultipartInbox.new, state) in
  _ ← imported;
  let full := SyncProjection.from_domains (dd_domains state) in
  unwrap (encode_scalar_projection full).

Definition merge (output left_part right_part : FileName) (left_replica : bool) : stateful Fs Empty_set unit :=
  let '(state, edited) := edited_replica left_replica DirtyDomainState.new in
  _ ← lift_result edited;
  encoded ← unwrap_st (Fs.read RootDir left_part);
  left ← lift_result (unwrap (decode_protected_sync_part encoded));
  encoded ← unwrap_st (Fs.read RootDir right_part);
  right ← lift_result (unwrap (decode_protected_sync_part encoded));
  encoded ← lift_result (merged_bytes left_replica state left right);
  unwrap_st (Fs.write RootDir output encoded).

Definition require_merge_args (args : list FileName) : result Empty_set unit :=
  if decide (length args = 5%nat) then Ok tt else Panic.

(** [args] starts with the program; [generated] is the draw from the system's
    generator, which only the emitting modes make. *)
Definition main (generated : option (byte_array NONCE_BYTES)) (args : list FileName) : stateful Fs Empty_set unit :=
  if decide (length args < 3)%nat then lift_result Panic else
  mode ← lift_result (expect (args !! 1%nat));
  output ← lift_result (expect (args !! 2%nat));
  if decide (mode = b_ "emit-left") then emit generated output 10 (b_ "left") (pid 100) else
  if decide (mode = b_ "emit-right") then emit generated output 20 (b_ "right") (pid 200) else
  if decide (mode = b_ "merge-left" ∨ mode = b_ "merge-right") then
    _ ← lift_result (require_merge_args args);
    left_part ← lift_result (expect (args !! 3%nat));
    right_part ← lift_result (expect (args !! 4%nat));
    merge output left_part right_part (bool_decide (mode = b_ "merge-left"))
  else lift_result Panic.
End modes.
End process_worker.

(** * Processes that meet in files

    What runs of the worker leave in a directory, in any order, with any call of
    the device failing, and what a merge that exits with success has written. *)

Import process_worker.

(** ** Whole files of one directory *)
Section files.
Implicit Types (fs : Fs) (name : FileName).

Definition file fs name : option (list byte) :=
  i ← entries (root_directory fs) !! name;
  contents <$> inodes fs !! i.

(** Names have files of their own. *)
Definition directory_ok fs : Prop :=
  (∀ name i, entries (root_directory fs) !! name = Some i → i ∈ dom (inodes fs)) ∧
  ∀ n1 n2 i, entries (root_directory fs) !! n1 = Some i → entries (root_directory fs) !! n2 = Some i → n1 = n2.

(** Nothing but [name] differs. *)
Definition only_changes name fs fs' : Prop :=
  directory_ok fs' ∧ ∀ n, n ≠ name → file fs' n = file fs n.

Lemma set_inode_only name i n fs :
  directory_ok fs → entries (root_directory fs) !! name = Some i →
  only_changes name fs (set_inode i n fs) ∧ file (set_inode i n fs) name = Some (contents n).
Proof.
  intros [Hdom Hinj] Hi. split; [split; [split; [|exact Hinj]|]|].
  - intros n' i' Hn'. cbn. rewrite dom_insert. apply elem_of_union_r. by eapply Hdom.
  - intros n' Hne. unfold file; cbn. destruct (entries (root_directory fs) !! n') as [i'|] eqn:Hi'; cbn; [|done].
    rewrite lookup_insert_ne; [done|]. intros <-. by apply Hne, (Hinj _ _ i).
  - unfold file; cbn. rewrite Hi; cbn. by rewrite lookup_insert_eq.
Qed.

Lemma created_only name i fs :
  directory_ok fs → entries (root_directory fs) !! name = None → i ∉ dom (inodes fs) →
  only_changes name fs (created RootDir name i fs) ∧
  entries (root_directory (created RootDir name i fs)) !! name = Some i.
Proof.
  intros [Hdom Hinj] Hname Hi. split; [split; [split|]|by apply lookup_insert_eq].
  - intros n i' Hn. cbn in *. rewrite dom_insert. apply lookup_insert_Some in Hn as [[_ <-]|[_ Hn]]; [set_solver|].
    apply elem_of_union_r. by eapply Hdom.
  - intros n1 n2 i' H1 H2. cbn in *.
    apply lookup_insert_Some in H1 as [[<- <-]|[Hn1 H1]], H2 as [[<- H2]|[Hn2 H2]]; [done| | |by eapply Hinj].
    + exfalso. apply Hi. by eapply Hdom.
    + subst. exfalso. apply Hi. by eapply Hdom.
  - intros n Hne. unfold file; cbn. rewrite lookup_insert_ne by done.
    destruct (entries (root_directory fs) !! n) as [i'|] eqn:Hn; cbn; [|done].
    rewrite lookup_insert_ne; [done|]. intros ->. apply Hi. by eapply Hdom.
Qed.

Lemma only_changes_trans name fs1 fs2 fs3 :
  only_changes name fs1 fs2 → only_changes name fs2 fs3 → only_changes name fs1 fs3.
Proof. intros [_ H12] [Hok H23]. split; [done|]. intros n Hn. rewrite H23, H12; done. Qed.

Lemma only_changes_refl name fs : directory_ok fs → only_changes name fs fs.
Proof. done. Qed.

(** [fs::write]: all of it, some of it or nothing. *)
Lemma outcome_write name bytes fs :
  directory_ok fs →
  outcome (Fs.write RootDir name bytes) fs
    (λ fs' _, only_changes name fs fs' ∧ file fs' name = Some bytes)
    (λ fs', only_changes name fs fs' ∧
      (file fs' name = file fs name ∨ ∃ k, file fs' name = Some (take k bytes))).
Proof.
  intros Hok. unfold Fs.write.
  assert (∀ fs1 i, only_changes name fs fs1 → entries (root_directory fs1) !! name = Some i →
    inodes fs1 !! i = Some (Inode_mk [] false) →
    outcome (Fs.write_all i bytes) fs1
      (λ fs' _, only_changes name fs fs' ∧ file fs' name = Some bytes)
      (λ fs', only_changes name fs fs' ∧
        (file fs' name = file fs name ∨ ∃ k, file fs' name = Some (take k bytes)))) as Hwrite.
  { intros fs1 i Hc Hi Hinode. eapply outcome_write_all; [exact Hinode| |].
    - intros dev. destruct (set_inode_only name i (Inode_mk ([] ++ bytes) false) (with_device dev fs1)) as [Hc' Hf];
        [apply Hc|done|]. split; [by eapply only_changes_trans|done].
    - intros dev k. destruct (set_inode_only name i (Inode_mk ([] ++ take k bytes) false) (with_device dev fs1)) as [Hc' Hf];
        [apply Hc|done|]. split; [by eapply only_changes_trans|]. right. by exists k. }
  apply outcome_bind, outcome_open_create_truncate; cbn [directory].
  - intros dev i Hi. destruct (set_inode_only name i (Inode_mk [] false) (with_device dev fs)) as [Hc Hf]; [done..|].
    apply Hwrite; [done|done|]. by apply lookup_insert_eq.
  - intros dev i Hn Hi. destruct (created_only name i (with_device dev fs)) as [Hc He]; [done..|].
    apply Hwrite; [done|done|]. by apply lookup_insert_eq.
  - intros dev. split; [done|]. by left.
Qed.

(** [fs::read]. *)
Lemma outcome_read name fs :
  outcome (Fs.read RootDir name) fs
    (λ fs' bytes, (∃ dev, fs' = with_device dev fs) ∧ file fs name = Some bytes)
    (λ fs', ∃ dev, fs' = with_device dev fs).
Proof.
  unfold Fs.read. apply outcome_bind, outcome_open; [|eauto]. intros dev i Hi.
  unfold Fs.read_to_end. apply outcome_bind, outcome_attempt; [|eauto]. intros dev2.
  apply outcome_get, outcome_bind, outcome_lift; [|eauto]. intros n Hn. apply outcome_ret.
  split; [eauto|]. unfold file. cbn in *. rewrite Hi; cbn. destruct (inodes fs !! i); by simplify_eq/=.
Qed.
End files.

(** ** On a device that carries out every call *)
Lemma write_healthy name bytes fs :
  healthy fs → ∃ fs', Fs.write RootDir name bytes fs = (fs', Ok tt) ∧ healthy fs'.
Proof.
  intros Hd. unfold Fs.write, Fs.open_create_truncate. rewrite !st_bind, attempt_healthy by done.
  set (fs1 := with_device (λ n, device fs (S n)) fs). assert (healthy fs1) as Hd1 by (intros n; apply Hd).
  assert (∀ fs2 i, healthy fs2 → inodes fs2 !! i = Some (Inode_mk [] false) →
    ∃ fs', Fs.write_all i bytes fs2 = (fs', Ok tt) ∧ healthy fs') as Hw.
  { intros fs2 i Hd2 Hi. unfold Fs.write_all. rewrite st_bind, answer_eq. run_st. cbn [inodes with_device].
    rewrite Hi, (Hd2 0%nat). eexists. split; [reflexivity|]. intros n. apply Hd2. }
  run_st. destruct (entries (directory RootDir fs1) !! name) as [i|] eqn:Hi.
  - apply Hw; [done|]. apply lookup_insert_eq.
  - rewrite create_eq. apply Hw; [done|]. apply lookup_insert_eq.
Qed.

Lemma read_healthy name bytes fs :
  healthy fs → file fs name = Some bytes →
  ∃ dev, Fs.read RootDir name fs = (with_device dev fs, Ok bytes) ∧ ∀ n, dev n = None.
Proof.
  intros Hd Hf. unfold file in Hf. destruct (entries (root_directory fs) !! name) as [i|] eqn:Hi; cbn in Hf; [|done].
  destruct (inodes fs !! i) as [inode|] eqn:Hn; simplify_eq/=.
  exists (λ n, device fs (S (S n))). split; [|intros n; apply Hd].
  unfold Fs.read, Fs.open. rewrite !st_bind, attempt_healthy by done. unfold Fs.lookup_name. run_st. cbn. rewrite Hi.
  cbn [ok_or]. unfold Fs.read_to_end. rewrite st_bind, attempt_healthy by (intros n; apply Hd). run_st. cbn. by rewrite Hn.
Qed.

Lemma outcome_unwrap {S E E' A : Type} (m : stateful S E A) s Q X :
  outcome m s Q X → outcome (unwrap_st (E' := E') m) s Q X.
Proof. unfold outcome, unwrap_st. by destruct (m s) as [s' [a|e|]]. Qed.

(** What holds however a run ends. *)
Lemma outcome_always {S E A : Type} (m : stateful S E A) s (Q : S → A → Prop) (X P : S → Prop) :
  outcome m s Q X → (∀ s' a, Q s' a → P s') → (∀ s', X s' → P s') → P (m s).1.
Proof. unfold outcome. destruct (m s) as [s' [a|e|]]; cbn; eauto. Qed.

Lemma unwrap_Ok {E A : Type} (r : result E A) a : unwrap (E' := Empty_set) r = Ok a → r = Ok a.
Proof. destruct r; intros [=]; by subst. Qed.

(** ** The payload of a side *)
Definition side_projection (left : bool) : result Empty_set ScalarSyncProjection :=
  if left then edited_projection 10 (b_ "left") else edited_projection 20 (b_ "right").
Definition side_pid (left : bool) : PublicationId := if left then pid 100 else pid 200.

Section exchange.
Context `{AeadLaws}.

(** A part as the side's [emit] protects it. *)
Definition side_part (left : bool) (part : ProtectedSyncPart) : Prop :=
  ∃ generated projection, side_projection left = Ok projection ∧
    protect_scalar_part generated (ContentKey_mk TEST_KEY) (cid 7) (side_pid left) 0 1 projection = Ok part.

Definition side_payload (left : bool) (encoded : list byte) : Prop :=
  ∃ part, side_part left part ∧ encode_protected_sync_part part = Ok encoded.

(** Checked by evaluation: the projection encodes in little space, and decodes. *)
Definition side_check (left : bool) : bool :=
  match side_projection left with
  | Ok projection =>
      match encode_scalar_projection projection with
      | Ok clear => negb (SyncProjection.is_empty projection) && bool_decide (len clear ≤ 2 ^ 16) &&
          match decode_scalar_projection clear with
          | Ok p => bool_decide (p = projection)
          | _ => false
          end
      | _ => false
      end
  | _ => false
  end.

Lemma side_checked left : side_check left = true.
Proof. destruct left; vm_compute; reflexivity. Qed.

Lemma side_projection_facts left projection :
  side_projection left = Ok projection →
  projection_valid projection ∧ SyncProjection.is_empty projection = false ∧
  ∃ clear, encode_scalar_projection projection = Ok clear ∧ len clear ≤ 2 ^ 16.
Proof.
  intros Hp. pose proof (side_checked left) as Hc. unfold side_check in Hc. rewrite Hp in Hc.
  destruct (encode_scalar_projection projection) as [clear|e|]; [|discriminate Hc..].
  apply andb_prop in Hc as [[Hne%negb_true_iff Hlen%bool_decide_eq_true_1]%andb_prop Hd].
  destruct (decode_scalar_projection clear) as [p|e|] eqn:Hdec; [|discriminate Hd..].
  apply bool_decide_eq_true_1 in Hd as ->. split; [|split; [exact Hne|by exists clear]].
  apply (g_projection_valid clear). apply decode_grammar; [|done]. eapply N.le_trans; [exact Hlen|done].
Qed.

(** Its fields, its size, and that it opens to the side's projection. *)
Lemma side_part_opens left part :
  side_part left part →
  part_index part = 0 ∧ total_parts part = 1 ∧ publication_id part = side_pid left ∧ len (payload part) ≤ 2 ^ 17 ∧
  ∃ projection, side_projection left = Ok projection ∧
    unprotect_scalar_part (ContentKey_mk TEST_KEY) (cid 7) part = Ok projection.
Proof.
  intros (generated & projection & Hp & Hprot).
  destruct (side_projection_facts left projection Hp) as (Hv & _ & clear & Hclear & Hlen).
  assert (len (payload part) ≤ 2 ^ 17) as Hpay.
  { unfold protect_scalar_part in Hprot. cbn zeta in Hprot. apply bind_Ok in Hprot as (_ & _ & Hprot).
    destruct (SyncProjection.is_empty projection); [discriminate|]. rewrite Hclear in Hprot.
    cbn [map_err mbind result_bind] in Hprot. apply bind_Ok in Hprot as (pay & Hpay%map_err_Ok & [= <-]).
    unfold protect in Hpay. case_decide; [done|]. apply bind_Ok in Hpay as (nonce & _ & Hpay).
    apply protect_with_nonce_Ok in Hpay as (c & Hc & _ & ->). apply aead_length in Hc.
    cbn [payload]. unfold envelope_of. rewrite !len_app, !len_be_bytes, len_array, Hc.
    change (len Crypto.MAGIC) with 8. unfold TAG_BYTES, NONCE_BYTES. lia. }
  destruct (protect_unprotect_part _ _ _ _ _ _ _ _ Hv (N.le_trans _ (2 ^ 17) isize_max Hpay ltac:(done)) Hprot)
    as (Hpid & Hi & Ht & Hu). split_and!; [done..|]. by exists projection.
Qed.

(** A beginning of an encoding that decodes is the whole of it. *)
Lemma encoded_prefix part part' encoded bytes :
  encode_protected_sync_part part = Ok encoded → part_fits part → len encoded ≤ isize_max → bytes `prefix_of` encoded →
  decode_protected_sync_part bytes = Ok part' → part' = part.
Proof.
  intros Henc Hfits Hlen [rest ->] Hd. rewrite len_app in Hlen.
  pose proof (proj2 (decode_part_spec bytes ltac:(lia))) as Hspec.
  assert (rest = []) as ->.
  { apply Hspec in Hd as [Hf' (_ & Hl' & Hb)%encode_part_Ok]. pose proof Henc as (_ & Hl & Heq)%encode_part_Ok.
    rewrite Hb, <-!(assoc_L (++)) in Heq. apply app_inv_head in Heq. apply app_inv_head in Heq.
    apply app_inj_len in Heq as [_ Heq]; [|by rewrite !len_id_slice].
    apply app_inj_len in Heq as [_ Heq]; [|by rewrite !len_be_bytes].
    apply app_inj_len in Heq as [_ Heq]; [|by rewrite !len_be_bytes].
    apply app_inj_len in Heq as [He Heq]; [|by rewrite !len_be_bytes].
    apply be_bytes_inj in He; [|unfold u64_max in *; cbn; lia..].
    apply (f_equal len) in Heq. rewrite len_app in Heq. apply len_nil_inv. lia. }
  rewrite app_nil_r in *. assert (decode_protected_sync_part bytes = Ok part) by by apply Hspec.
  congruence.
Qed.

(** ** What both replicas come to *)

(** [import_part] once the part has been opened. *)
Definition import_clear (opened : ProtectedSyncPart * ScalarSyncProjection) :
    stateful (MultipartInbox * ScalarDirtyDomainState) Empty_set unit :=
  ingested ← on_fst (unwrap_st (MultipartInbox.ingest_clear opened.1 opened.2));
  projection ← lift_result (expect ingested);
  on_snd (unwrap_st (DirtyDomainState.import_projection projection)).

Lemma import_parts_opened key c l s :
  Forall (λ opened, unprotect_scalar_part key c opened.1 = Ok opened.2) l →
  st_for_each (import_part key c) l.*1 s = st_for_each import_clear l s.
Proof.
  intros Hl. revert s. induction Hl as [|[part clear] l Hu Hl IH]; intros s; [done|].
  cbn [fmap list_fmap fst st_for_each]. rewrite !st_bind.
  assert (import_part key c part s = import_clear (part, clear) s) as ->.
  { unfold import_part, import_clear, MultipartInbox.ingest. rewrite !st_bind.
    unfold on_fst, on_field, unwrap_st. rewrite st_lift. cbn [fst snd] in *. by rewrite Hu. }
  by destruct (import_clear (part, clear) s) as [s' [[]|e|]].
Qed.

Definition converged_projection : result Empty_set ScalarSyncProjection :=
  left ← side_projection true;
  right ← side_projection false;
  unwrap (SyncProjection.merge left right).

Definition converged : result Empty_set (list byte) :=
  projection ← converged_projection;
  unwrap (encode_scalar_projection projection).

(** The state a replica comes to from the opened parts, encoded. *)
Definition import_opened (left_replica : bool) (left right : ProtectedSyncPart * ScalarSyncProjection)
    (state : ScalarDirtyDomainState) : result Empty_set (list byte) :=
  let '((_, state), imported) :=
    st_for_each import_clear (if left_replica then [right; left] else [left; right]) (MultipartInbox.new, state) in
  _ ← imported;
  unwrap (encode_scalar_projection (SyncProjection.from_domains (dd_domains state))).

Lemma merged_bytes_opened left_replica state left right pl pr :
  unprotect_scalar_part (ContentKey_mk TEST_KEY) (cid 7) left = Ok pl →
  unprotect_scalar_part (ContentKey_mk TEST_KEY) (cid 7) right = Ok pr →
  merged_bytes left_replica state left right = import_opened left_replica (left, pl) (right, pr) state.
Proof.
  intros Hl Hr. unfold import_opened.
  rewrite <-(import_parts_opened (ContentKey_mk TEST_KEY) (cid 7)) by (destruct left_replica; repeat constructor; done).
  unfold merged_bytes. by destruct left_replica.
Qed.

(** Checked by evaluation, whatever the payloads are. *)
Lemma import_opened_checked left_replica payl payr :
  (pl ← side_projection true;
   pr ← side_projection false;
   let '(state, edited) := edited_replica left_replica DirtyDomainState.new in
   _ ← edited;
   import_opened left_replica (ProtectedSyncPart_mk (side_pid true) 0 1 payl, pl)
     (ProtectedSyncPart_mk (side_pid false) 0 1 payr, pr) state) = converged.
Proof. destruct left_replica; vm_compute; reflexivity. Qed.

Lemma merged_bytes_converged left_replica state left right :
  edited_replica left_replica DirtyDomainState.new = (state, Ok tt) → side_part true left → side_part false right →
  merged_bytes left_replica state left right = converged.
Proof.
  intros Hstate (Hil & Htl & Hpl & _ & pl & Hl & Hul)%side_part_opens (Hir & Htr & Hpr & _ & pr & Hr & Hur)%side_part_opens.
  rewrite (merged_bytes_opened _ _ _ _ pl pr) by done.
  rewrite <-(import_opened_checked left_replica (payload left) (payload right)), Hl, Hr, Hstate.
  cbn [mbind result_bind]. destruct left, right. cbn in Hil, Htl, Hpl, Hir, Htr, Hpr. by subst.
Qed.

(** ** One run of the worker *)
Implicit Types (fs : Fs) (name output : FileName).

(** What [name] may hold: nothing, or a beginning of a payload of the side. *)
Definition holds (left : bool) name fs : Prop :=
  ∀ bytes, file fs name = Some bytes → ∃ encoded, side_payload left encoded ∧ bytes `prefix_of` encoded.

Lemma only_changes_holds left name output fs fs' :
  only_changes output fs fs' → name ≠ output → holds left name fs → holds left name fs'.
Proof. intros [_ Hsame] Hne Hh bytes. rewrite Hsame by done. apply Hh. Qed.

Lemma payload_holds left name fs bytes : side_payload left bytes → file fs name = Some bytes → holds left name fs.
Proof. intros Hp Hf bytes'. rewrite Hf. intros [= <-]. by exists bytes. Qed.

Definition emit_side (left : bool) (generated : option (byte_array NONCE_BYTES)) output : stateful Fs Empty_set unit :=
  if left then emit generated output 10 (b_ "left") (pid 100) else emit generated output 20 (b_ "right") (pid 200).

Lemma emit_side_eq left generated output :
  emit_side left generated output = (projection ← lift_result (side_projection left);
    part ← lift_result (unwrap (protect_scalar_part generated (ContentKey_mk TEST_KEY) (cid 7) (side_pid left) 0 1 projection));
    encoded ← lift_result (unwrap (encode_protected_sync_part part));
    unwrap_st (Fs.write RootDir output encoded)).
Proof. by destruct left. Qed.

Lemma emit_outcome left generated output fs :
  directory_ok fs → holds left output fs →
  outcome (emit_side left generated output) fs
    (λ fs' _, only_changes output fs fs' ∧ ∃ encoded, side_payload left encoded ∧ file fs' output = Some encoded)
    (λ fs', only_changes output fs fs' ∧ holds left output fs').
Proof.
  intros Hok Hh. assert (only_changes output fs fs) as Hsame by done.
  rewrite emit_side_eq.
  apply outcome_bind, outcome_lift; [|done]. intros projection Hp.
  apply outcome_bind, outcome_lift; [|done]. intros part Hpart%unwrap_Ok.
  apply outcome_bind, outcome_lift; [|done]. intros encoded Henc%unwrap_Ok.
  assert (side_payload left encoded) as Hpay.
  { exists part. split; [|done]. by exists generated, projection. }
  eapply outcome_unwrap, outcome_mono; [by apply outcome_write| |].
  - intros fs' _ [Hc Hf]. split; [done|]. by exists encoded.
  - intros fs' [Hc [Hf|[k Hf]]]; (split; [done|]); intros bytes; rewrite Hf; [apply Hh|].
    intros [= <-]. exists encoded. split; [done|]. apply prefix_take.
Qed.

Lemma payload_small left part encoded :
  side_part left part → encode_protected_sync_part part = Ok encoded → len encoded ≤ isize_max.
Proof.
  intros (_ & _ & _ & Hlen & _)%side_part_opens (_ & _ & ->)%encode_part_Ok.
  rewrite !len_app, !len_be_bytes, len_id_slice. change (len Wire.MAGIC) with 8. unfold isize_max. lia.
Qed.

(** What is read from [name], if it decodes, is a part of the side. *)
Lemma held_part left name fs bytes part :
  holds left name fs → file fs name = Some bytes → decode_protected_sync_part bytes = Ok part → side_part left part.
Proof.
  intros Hh (encoded & (part0 & Hp0 & Henc) & Hpre)%Hh Hd.
  destruct (side_part_opens left part0 Hp0) as (Hi & Ht & _ & Hlen & _).
  rewrite (encoded_prefix part0 part encoded bytes); [done..| | |done|done].
  - unfold part_fits. rewrite Hi, Ht. by split.
  - by apply (payload_small left part0).
Qed.

Lemma merge_outcome left_replica left_part right_part output fs :
  directory_ok fs → holds true left_part fs → holds false right_part fs →
  outcome (merge output left_part right_part left_replica) fs
    (λ fs' _, only_changes output fs fs' ∧ ∃ bytes, converged = Ok bytes ∧ file fs' output = Some bytes)
    (λ fs', only_changes output fs fs').
Proof.
  intros Hok Hl Hr. assert (∀ dev, only_changes output fs (with_device dev fs)) as Hsame by done.
  assert (only_changes output fs fs) as Hrefl by by apply only_changes_refl.
  unfold merge. destruct (edited_replica left_replica DirtyDomainState.new) as [state edited] eqn:Hstate.
  apply outcome_bind, outcome_lift; [|exact Hrefl]. intros [] Hedited. rewrite Hedited in Hstate. clear Hedited.
  eapply outcome_bind, outcome_unwrap, outcome_mono; [apply outcome_read| |by intros fs' [dev ->]; apply Hsame].
  intros fs1 lbytes [[dev1 ->] Hlf]. apply outcome_bind, outcome_lift; [|apply Hsame]. intros left Hleft%unwrap_Ok.
  eapply outcome_bind, outcome_unwrap, outcome_mono; [apply outcome_read| |by intros fs' [dev ->]; apply Hsame].
  intros fs2 rbytes [[dev2 ->] Hrf]. apply outcome_bind, outcome_lift; [|apply Hsame]. intros right Hright%unwrap_Ok.
  apply outcome_bind, outcome_lift; [|apply Hsame]. intros encoded Hm.
  rewrite (merged_bytes_converged left_replica state left right Hstate) in Hm; [|by eapply held_part..].
  clear Hstate. revert Hm. generalize converged. intros expected Hm.
  eapply outcome_unwrap, outcome_mono; [by apply outcome_write| |by intros fs' [Hc _]].
  intros fs' _ [Hc Hf]. split; [done|]. by exists encoded.
Qed.

(** ** Runs that nothing disturbs *)
Lemma emit_succeeds left nonce output fs :
  (∀ key nonce aad m, len m ≤ 2 ^ 16 → is_Some (aead_encrypt key nonce aad m)) → healthy fs →
  ∃ fs', emit_side left (Some nonce) output fs = (fs', Ok tt) ∧ healthy fs'.
Proof.
  intros Hcipher Hd. pose proof (side_checked left) as Hc. unfold side_check in Hc.
  destruct (side_projection left) as [projection|e|] eqn:Hp; [|discriminate Hc..]. clear Hc.
  destruct (side_projection_facts left projection Hp) as (_ & Hne & clear & Hclear & Hlen).
  assert (∃ part, protect_scalar_part (Some nonce) (ContentKey_mk TEST_KEY) (cid 7) (side_pid left) 0 1 projection = Ok part)
    as [part Hpart].
  { unfold protect_scalar_part. cbn zeta. rewrite (proj2 (validate_part_metadata_Ok 0 1 tt)) by done.
    rewrite Hne, Hclear. cbn [mbind result_bind map_err]. unfold protect. rewrite decide_False by done.
    cbn [ok_or mbind result_bind]. unfold protect_with_nonce. cbn zeta.
    destruct (Hcipher TEST_KEY nonce (build_aad (part_context (cid 7) (side_pid left) 0 1)) clear Hlen) as [c Hc].
    cbn [expose_bytes]. rewrite Hc. cbn [ok_or mbind result_bind]. apply aead_length in Hc.
    unfold u64_try_from. rewrite decide_True by (unfold u64_max, TAG_BYTES in *; lia). eauto. }
  destruct (side_part_opens left part) as (Hi & Ht & _ & Hpay & _); [by exists (Some nonce), projection|].
  assert (∃ encoded, encode_protected_sync_part part = Ok encoded) as [encoded Henc].
  { eexists. apply encode_part_Ok. rewrite Hi, Ht. split; [done|]. split; [unfold u64_max; lia|reflexivity]. }
  destruct (write_healthy output encoded fs Hd) as (fs' & Hw & Hd'). exists fs'. split; [|done].
  rewrite emit_side_eq, Hp, !st_bind. run_st. rewrite Hpart. cbn [unwrap]. run_st. rewrite Henc. cbn [unwrap]. run_st.
  unfold unwrap_st. by rewrite Hw.
Qed.

Lemma payload_decodes left encoded :
  side_payload left encoded → ∃ part, decode_protected_sync_part encoded = Ok part ∧ side_part left part.
Proof.
  intros (part & Hp & Henc). exists part. split; [|done].
  destruct (side_part_opens left part Hp) as (Hi & Ht & _ & Hlen & _).
  apply decode_part_spec; [by apply (payload_small left part)|]. split; [|done].
  unfold part_fits. rewrite Hi, Ht. by split.
Qed.

(** Checked by evaluation. *)
Lemma edited_replica_checked side : succeeds (edited_replica side DirtyDomainState.new).2 = true.
Proof. destruct side; vm_compute; reflexivity. Qed.

Lemma converged_checked : succeeds converged = true.
Proof. vm_compute. reflexivity. Qed.

Lemma merge_succeeds side left_part right_part output fs lb rb :
  healthy fs → side_payload true lb → side_payload false rb →
  file fs left_part = Some lb → file fs right_part = Some rb →
  ∃ fs', merge output left_part right_part side fs = (fs', Ok tt) ∧ healthy fs'.
Proof.
  intros Hd Hl Hr Hlf Hrf. unfold merge. pose proof (edited_replica_checked side) as He.
  destruct (edited_replica side DirtyDomainState.new) as [state edited] eqn:Hstate.
  apply succeeds_Ok in He as [[] He]. cbn [snd] in He. subst edited.
  destruct (payload_decodes true lb Hl) as (left & Hleft & Hlp).
  destruct (payload_decodes false rb Hr) as (right & Hright & Hrp).
  destruct (read_healthy left_part lb fs Hd Hlf) as (dev1 & Hr1 & Hd1).
  destruct (read_healthy right_part rb (with_device dev1 fs) Hd1 Hrf) as (dev2 & Hr2 & Hd2).
  pose proof (merged_bytes_converged side state left right Hstate Hlp Hrp) as Hm. clear Hstate.
  destruct (succeeds_Ok _ converged_checked) as [bytes Hb]. rewrite Hb in Hm. clear Hb.
  destruct (write_healthy output bytes (with_device dev2 (with_device dev1 fs)) Hd2) as (fs' & Hw & Hd').
  exists fs'. split; [|exact Hd']. rewrite st_lift, st_bind. unfold unwrap_st at 1. rewrite Hr1. cbn [unwrap].
  rewrite st_lift, Hleft. cbn [unwrap]. rewrite st_bind. unfold unwrap_st at 1. rewrite Hr2. cbn [unwrap].
  rewrite st_lift, Hright. cbn [unwrap]. rewrite st_lift, Hm. unfold unwrap_st. by rewrite Hw.
Qed.

(** ** The four command lines *)

Inductive command : Type :=
  | Emit (side : bool)
  | Merge (side : bool).

Section commands.
Context (program : list byte) (payload_name result_name : bool → FileName).

Definition args_of (c : command) : list (list byte) :=
  match c with
  | Emit true => [program; b_ "emit-left"; payload_name true]
  | Emit false => [program; b_ "emit-right"; payload_name false]
  | Merge true => [program; b_ "merge-left"; result_name true; payload_name true; payload_name false]
  | Merge false => [program; b_ "merge-right"; result_name false; payload_name true; payload_name false]
  end.

Lemma main_command generated c :
  main generated (args_of c) =
  match c with
  | Emit side => emit_side side generated (payload_name side)
  | Merge side => merge (result_name side) (payload_name true) (payload_name false) side
  end.
Proof. by destruct c as [[|]|[|]]. Qed.

(** One process after the other; which calls fail is up to the device. *)
Definition exchange_step fs fs' : Prop :=
  ∃ c generated dev, fs' = (main generated (args_of c) (with_device dev fs)).1.

Definition names_apart : Prop :=
  payload_name true ≠ payload_name false ∧ ∀ s s', payload_name s ≠ result_name s'.

Definition exchange_ok fs : Prop :=
  directory_ok fs ∧ ∀ left, holds left (payload_name left) fs.

Lemma exchange_step_ok fs fs' : names_apart → exchange_ok fs → exchange_step fs fs' → exchange_ok fs'.
Proof.
  intros [Hpay Hres] [Hok Hh] (c & generated & dev & ->). rewrite main_command.
  assert (directory_ok (with_device dev fs)) as Hok' by done.
  assert (∀ left, holds left (payload_name left) (with_device dev fs)) as Hh' by done.
  destruct c as [side|side].
  - assert (∀ fs', only_changes (payload_name side) (with_device dev fs) fs' → holds side (payload_name side) fs' →
      exchange_ok fs') as Hdone.
    { intros fs' Hc Hl. split; [apply Hc|]. intros side'. destruct (decide (side' = side)) as [->|Hne]; [exact Hl|].
      eapply only_changes_holds; [exact Hc| |apply Hh']. destruct side, side'; try done; by apply not_eq_sym. }
    eapply outcome_always; [exact (emit_outcome side generated _ _ Hok' (Hh' side))| |by intros fs' [Hc Hl]; apply Hdone].
    intros fs' _ [Hc (encoded & Hp & Hf)]. apply Hdone; [exact Hc|]. intros bytes. rewrite Hf. intros [= <-].
    by exists encoded.
  - assert (∀ fs', only_changes (result_name side) (with_device dev fs) fs' → exchange_ok fs') as Hdone.
    { intros fs' Hc. split; [apply Hc|]. intros side'. eapply only_changes_holds; [exact Hc|apply Hres|apply Hh']. }
    eapply outcome_always; [exact (merge_outcome side _ _ (result_name side) _ Hok' (Hh' true) (Hh' false))| |exact Hdone].
    intros fs' _ [Hc _]. by apply Hdone.
Qed.

Lemma exchange_ok_new dev : exchange_ok (fs_new dev).
Proof. split; [split|]; intros; unfold file in *; cbn in *; by simplify_map_eq. Qed.

Lemma exchange_reachable fs fs' :
  names_apart → exchange_ok fs → rtc exchange_step fs fs' → exchange_ok fs'.
Proof. intros Hn Hok Hr. induction Hr; [done|]. eauto using exchange_step_ok. Qed.
(** With everything working, both replicas get through. *)
Lemma exchange_succeeds nonce nonce' fs :
  names_apart → exchange_ok fs → (∀ key nonce aad m, len m ≤ 2 ^ 16 → is_Some (aead_encrypt key nonce aad m)) →
  healthy fs → ∃ fs1 fs2 fs3 fs4,
    main (Some nonce) (args_of (Emit true)) fs = (fs1, Ok tt) ∧
    main (Some nonce') (args_of (Emit false)) fs1 = (fs2, Ok tt) ∧
    main None (args_of (Merge true)) fs2 = (fs3, Ok tt) ∧ main None (args_of (Merge false)) fs3 = (fs4, Ok tt).
Proof.
  intros [Hpay Hres] [Hok Hh] Hcipher Hd.
  destruct (emit_succeeds true nonce (payload_name true) fs Hcipher Hd) as (fs1 & H1 & Hd1).
  destruct (outcome_result _ _ _ _ _ _ (emit_outcome true (Some nonce) _ fs Hok (Hh true)) H1) as [Hc1 (lb & Hlb & Hf1)].
  assert (holds false (payload_name false) fs1) as Hh1 by (eapply only_changes_holds; [exact Hc1|by apply not_eq_sym|apply Hh]).
  destruct (emit_succeeds false nonce' (payload_name false) fs1 Hcipher Hd1) as (fs2 & H2 & Hd2).
  destruct (outcome_result _ _ _ _ _ _ (emit_outcome false (Some nonce') _ fs1 (proj1 Hc1) Hh1) H2)
    as [Hc2 (rb & Hrb & Hf2)].
  assert (file fs2 (payload_name true) = Some lb) as Hl2 by (rewrite (proj2 Hc2); [exact Hf1|exact Hpay]).
  destruct (merge_succeeds true _ _ (result_name true) fs2 lb rb Hd2 Hlb Hrb Hl2 Hf2) as (fs3 & H3 & Hd3).
  destruct (outcome_result _ _ _ _ _ _ (merge_outcome true _ _ (result_name true) fs2 (proj1 Hc2)
    (payload_holds true _ _ lb Hlb Hl2) (payload_holds false _ _ rb Hrb Hf2)) H3) as [Hc3 _].
  destruct (merge_succeeds false (payload_name true) (payload_name false) (result_name false) fs3 lb rb Hd3 Hlb Hrb)
    as (fs4 & H4 & _);
    [rewrite (proj2 Hc3); [exact Hl2|apply Hres]|rewrite (proj2 Hc3); [exact Hf2|apply Hres]|].
  exists fs1, fs2, fs3, fs4. split; [exact H1|]. split; [exact H2|]. split; [exact H3|exact H4].
Qed.
End commands.
End exchange.
