(* ===== verification/CrashWorker.v ===== *)
(** * The storage crash worker (crates/apc-storage-fs/src/bin/apc-storage-crash-worker.rs)

    Commits one payload, and stops for ever at the named stage, where the test
    kills it.  The same protocol as [commit_durable], one call at a time. *)
From Stdlib Require Import Lia NArith Strings.Byte.
From stdpp Require Import base tactics option list gmap.
From S2P Require Import Prelude Outcome BTree Bytes Durability Fs FsStorage FsLaws.

Inductive CrashWorkerError : Type :=
  | MissingStorePath
  | MissingMarkerPath
  | MissingCrashStage
  | MissingPayload
  | UnexpectedExtraArgument
  | WorkerStorage (error : FsStorageError)
  | UnknownCrashStage (stage : list byte).

Module crash_worker.

(** [signal_and_wait] never returns: its value stands for a process that waits
    to be killed.  [marker_ready] says whether the marker file could be created,
    written and synced; it is outside the store. *)
Inductive Waiting : Type :=
  | waiting.

Definition signal_and_wait {E : Type} (marker_ready : bool) : result E Waiting :=
  if marker_ready then Ok waiting else Panic.

Section worker.
Context (marker_ready : bool) (stage payload : list byte).

Definition stop_at (name : list byte)
    (next : stateful UnixFsDurabilityBackend CrashWorkerError Waiting) :
    stateful UnixFsDurabilityBackend CrashWorkerError Waiting :=
  if decide (stage = name) then lift_result (signal_and_wait marker_ready) else next.

(** [main] once the store is open. *)
Definition run_stages : stateful UnixFsDurabilityBackend CrashWorkerError Waiting :=
  if decide (stage = b_ "after-ack") then
    _ ← map_err_st WorkerStorage (commit_durable payload);
    lift_result (signal_and_wait marker_ready)
  else
    candidate ← map_err_st WorkerStorage (UnixFsDurabilityBackend.write_candidate payload);
    stop_at (b_ "after-write") (
    _ ← map_err_st WorkerStorage (UnixFsDurabilityBackend.sync_candidate candidate);
    stop_at (b_ "after-candidate-sync") (
    _ ← map_err_st WorkerStorage (UnixFsDurabilityBackend.publish_candidate candidate);
    stop_at (b_ "after-publish") (
    _ ← map_err_st WorkerStorage UnixFsDurabilityBackend.sync_committed_root;
    stop_at (b_ "after-root-sync") (
    throw (UnknownCrashStage stage))))).

(** With the store open, the file system below it. *)
Definition run_opened (next : N) : stateful Fs CrashWorkerError Waiting := λ fs,
  let '(backend, stopped) := run_stages (UnixFsDurabilityBackend_mk fs next) in
  (filesystem backend, stopped).
End worker.

(** [args] starts with the program. *)
Definition main (marker_ready : bool) (args : list (list byte)) : stateful Fs CrashWorkerError Waiting :=
  _ ← lift_result (ok_or MissingStorePath (args !! 1%nat));
  _ ← lift_result (ok_or MissingMarkerPath (args !! 2%nat));
  stage ← lift_result (ok_or MissingCrashStage (args !! 3%nat));
  payload ← lift_result (ok_or MissingPayload (args !! 4%nat));
  _ ← lift_result (match args !! 5%nat with Some _ => Err UnexpectedExtraArgument | None => Ok tt end);
  next ← map_err_st WorkerStorage UnixFsDurabilityBackend.open_counter;
  run_opened marker_ready stage payload next.
End crash_worker.

(** ** The expectations of the test (crates/apc-storage-fs/tests/process_kill.rs) *)
Inductive Expected : Type :=
  | Old
  | OldOrNew
  | New.

Definition cases : list (list byte * Expected) :=
  [(b_ "after-write", Old); (b_ "after-candidate-sync", Old); (b_ "after-publish", OldOrNew);
   (b_ "after-root-sync", New); (b_ "after-ack", New)].

(** ** What a killed worker leaves *)
Section killed.
Implicit Types (b : UnixFsDurabilityBackend) (payload : list byte).

(** The state before the commit is the only one to be recovered until the
    candidate is published. *)
Lemma commit_prefix_unpublished steps payload b o :
  backend_ok b → (steps ≤ 2)%nat → recoverable (commit_prefix steps payload b).1 o → recoverable b o.
Proof.
  intros Hb Hsteps. unfold commit_prefix. case_decide; [done|].
  rewrite st_bind. destruct (write_candidate payload b) as [b1 r1] eqn:E1.
  destruct (write_candidate_law _ _ _ _ Hb E1) as (Hb1 & Hr1 & Hc). destruct r1 as [c| |]; [|auto..].
  specialize (Hc c eq_refl). case_decide; [auto|].
  rewrite st_bind. destruct (sync_candidate c b1) as [b2 r2] eqn:E2.
  destruct (sync_candidate_law _ _ _ _ _ Hb1 Hc E2) as (_ & Hr2 & _). destruct r2 as [[]| |]; [|auto..].
  rewrite decide_True by lia. auto.
Qed.

(** The calls made when the worker stops at a stage. *)
Definition calls_of (expected : Expected) : list nat :=
  match expected with
  | Old => [1; 2]%nat
  | OldOrNew => [3]%nat
  | New => [4]%nat
  end.

(** Runs the worker's calls and those of the prefix side by side. *)
Ltac commit_calls :=
  unfold commit_prefix, map_err_st; rewrite ?commit_prefix_full; cbn [sync_candidate publish_candidate write_candidate
    sync_committed_root unix_fs_backend];
  repeat (first [rewrite decide_False by done | rewrite decide_True by done | rewrite !st_bind];
    try match goal with
    | |- context [UnixFsDurabilityBackend.write_candidate ?p ?b] =>
        destruct (UnixFsDurabilityBackend.write_candidate p b) as [? [?|?|]]; [|done..]
    | |- context [UnixFsDurabilityBackend.sync_candidate ?c ?b] =>
        destruct (UnixFsDurabilityBackend.sync_candidate c b) as [? [?|?|]]; [|done..]
    | |- context [UnixFsDurabilityBackend.publish_candidate ?c ?b] =>
        destruct (UnixFsDurabilityBackend.publish_candidate c b) as [? [?|?|]]; [|done..]
    | |- context [UnixFsDurabilityBackend.sync_committed_root ?b] =>
        destruct (UnixFsDurabilityBackend.sync_committed_root b) as [? [?|?|]]; [|done..]
    end; cbn [map_err]).

(** A stage of the test's table is a prefix of the commit; any other name runs
    all of it and is refused. *)
Lemma run_stages_prefix ready stage payload b :
  ∃ steps, (crash_worker.run_stages ready stage payload b).1 = (commit_prefix steps payload b).1 ∧
    ∀ w, (crash_worker.run_stages ready stage payload b).2 = Ok w →
      (commit_prefix steps payload b).2 = Ok tt ∧ ∃ expected, (stage, expected) ∈ cases ∧ steps ∈ calls_of expected.
Proof.
  assert (∀ name expected steps, stage = name → (name, expected) ∈ cases → steps ∈ calls_of expected →
    ∃ expected, (stage, expected) ∈ cases ∧ steps ∈ calls_of expected) as Hcase by (intros ? ? ? ->; eauto).
  unfold crash_worker.run_stages, crash_worker.stop_at. destruct (decide (stage = b_ "after-ack")) as [H5|_].
  { exists 4%nat. rewrite commit_prefix_full, st_bind. unfold map_err_st.
    destruct (commit_durable payload b) as [b' [[]|e|]]; [|done..]. split; [done|]. intros w _. split; [done|].
    eapply (Hcase _ New); [exact H5|set_solver..]. }
  destruct (decide (stage = b_ "after-write")) as [H1|_].
  { exists 1%nat. commit_calls. split; [done|]. intros w _. split; [done|]. eapply (Hcase _ Old); [exact H1|set_solver..]. }
  destruct (decide (stage = b_ "after-candidate-sync")) as [H2|_].
  { exists 2%nat. commit_calls. split; [done|]. intros w _. split; [done|]. eapply (Hcase _ Old); [exact H2|set_solver..]. }
  destruct (decide (stage = b_ "after-publish")) as [H3|_].
  { exists 3%nat. commit_calls. split; [done|]. intros w _. split; [done|]. eapply (Hcase _ OldOrNew); [exact H3|set_solver..]. }
  exists 4%nat. destruct (decide (stage = b_ "after-root-sync")) as [H4|_].
  { commit_calls. split; [done|]. intros w _. split; [done|]. eapply (Hcase _ New); [exact H4|set_solver..]. }
  commit_calls. by split.
Qed.

(** A run of the worker: nothing but calls of the device, or a prefix of the
    commit on the opened store. *)
Lemma worker_outcome ready args fs :
  outcome (crash_worker.main ready args) fs
    (λ fs' _, ∃ stage payload expected steps dev next b', args !! 3%nat = Some stage ∧ args !! 4%nat = Some payload ∧
       (stage, expected) ∈ cases ∧ steps ∈ calls_of expected ∧ fs' = filesystem b' ∧
       commit_prefix steps payload (UnixFsDurabilityBackend_mk (with_device dev fs) next) = (b', Ok tt))
    (λ fs', fs' = fs ∨ (∃ dev, fs' = with_device dev fs) ∨
       ∃ payload steps dev next, args !! 4%nat = Some payload ∧
         fs' = filesystem (commit_prefix steps payload (UnixFsDurabilityBackend_mk (with_device dev fs) next)).1).
Proof.
  unfold crash_worker.main. do 2 (apply outcome_bind, outcome_lift; [|by left]; intros ? _).
  apply outcome_bind, outcome_lift; [|by left]. intros stage Hstage%ok_or_Ok.
  apply outcome_bind, outcome_lift; [|by left]. intros payload Hpayload%ok_or_Ok.
  apply outcome_bind, outcome_lift; [|by left]. intros _ _.
  apply outcome_bind, outcome_map_err. eapply outcome_mono; [apply outcome_open_counter| |intros fs' Hd; right; left; exact Hd].
  cbn beta. intros fs1 next [dev ->]. unfold outcome, crash_worker.run_opened.
  set (b := UnixFsDurabilityBackend_mk (with_device dev fs) next).
  destruct (run_stages_prefix ready stage payload b) as (steps & Hst & Hres).
  destruct (crash_worker.run_stages ready stage payload b) as [b' [w|e|]]; cbn [fst snd] in *; subst b'.
  - destruct (Hres w eq_refl) as (Hok & expected & Hin & Hsteps).
    exists stage, payload, expected, steps, dev, next, (commit_prefix steps payload b).1. split_and!; try done.
    subst b. destruct (commit_prefix steps payload _) as [b' r]. cbn in *. by subst r.
  - right; right. by exists payload, steps, dev, next.
  - right; right. by exists payload, steps, dev, next.
Qed.

(** What can be recovered after the calls of a stage, and after any prefix. *)
Lemma prefix_recovers steps payload b old o :
  backend_ok b → (∀ o, recoverable b o → o = old) → recoverable (commit_prefix steps payload b).1 o →
  o = old ∨ o = Some payload.
Proof.
  intros Hb Hold Ho. destruct (proj2 (commit_prefix_safe steps payload b Hb) o Ho) as [Hb'|Hb']; [left; by apply Hold|by right].
Qed.

Definition expectation (expected : Expected) (old : option (list byte)) payload (o : option (list byte)) : Prop :=
  match expected with
  | Old => o = old
  | OldOrNew => o = old ∨ o = Some payload
  | New => o = Some payload
  end.

Lemma stage_recovers expected steps payload b b' old o :
  backend_ok b → (∀ o, recoverable b o → o = old) → steps ∈ calls_of expected →
  commit_prefix steps payload b = (b', Ok tt) → recoverable b' o → expectation expected old payload o.
Proof.
  intros Hb Hold Hsteps Hrun Ho. destruct expected; cbn.
  - apply Hold. apply (commit_prefix_unpublished steps payload); [done|set_solver|by rewrite Hrun].
  - apply (prefix_recovers steps payload b); [done|done|by rewrite Hrun].
  - apply list_elem_of_singleton in Hsteps as ->. rewrite commit_prefix_full in Hrun. by eapply commit_durable_ack.
Qed.
End killed.
