(* ===== verification/GitHub.v ===== *)
(** * The GitHub transport (crates/apc-transport-github/src/lib.rs)

    Protected objects as content-addressed files, published by commits on an
    expected head and fetched by walking back from the current head.  The GitHub
    API and SHA-256 are parameters; [GitHubApiLaws] states what the trait
    documents about a branch and its commits. *)
From Stdlib Require Import Lia NArith Strings.Byte.
From stdpp Require Import base tactics option list gmap numbers.
From S2P Require Import Prelude Outcome BTree Bytes Text Transport.
Local Open Scope N_scope.

Definition OBJECT_PREFIX : list byte := b_ "sync/objects/".
Definition OBJECT_SUFFIX : list byte := b_ ".apcs".
Definition COMMIT_MESSAGE : list byte := b_ "A.P.C. protected sync publication".
Definition DEFAULT_MAX_INCREMENTAL_COMMITS : N := 128.

Record GitHubCommitOid : Type := GitHubCommitOid_mk {
  as_str : list byte;
}.

#[export] Instance GitHubCommitOid_eq_dec : EqDecision GitHubCommitOid.
Proof. solve_decision. Defined.
#[export] Program Instance GitHubCommitOid_countable : Countable GitHubCommitOid :=
  inj_countable' as_str GitHubCommitOid_mk _.
Next Obligation. by intros []. Qed.

Inductive GitHubOidError : Type := GitHubOidError_mk.

Module GitHubCommitOid.
Definition new (value : list byte) : result GitHubOidError GitHubCommitOid :=
  if bool_decide (value = []) || negb (is_ascii value) then Err GitHubOidError_mk
  else Ok (GitHubCommitOid_mk value).
End GitHubCommitOid.

Record GitHubFileAddition : Type := GitHubFileAddition_mk {
  addition_path : list byte;
  addition_bytes : list byte;
}.

Inductive GitHubFileChangeKind : Type :=
  | Added
  | Modified
  | Removed
  | Renamed.

#[export] Instance GitHubFileChangeKind_eq_dec : EqDecision GitHubFileChangeKind.
Proof. solve_decision. Defined.

Record GitHubFileChange : Type := GitHubFileChange_mk {
  change_path : list byte;
  kind : GitHubFileChangeKind;
}.

Record GitHubCommitInfo : Type := GitHubCommitInfo_mk {
  oid : GitHubCommitOid;
  parents : list GitHubCommitOid;
  changes : list GitHubFileChange;
}.

Inductive GitHubCreateCommitResult : Type :=
  | Created (created_head : GitHubCommitOid)
  | HeadChanged (head_changed : option GitHubCommitOid).

Class GitHubApi (A : Type) := {
  ApiError : Type;
  branch_head : stateful A ApiError (option GitHubCommitOid);
  create_commit_on_branch : GitHubCommitOid → list GitHubFileAddition → list byte →
    stateful A ApiError GitHubCreateCommitResult;
  commit_info : GitHubCommitOid → stateful A ApiError GitHubCommitInfo;
  read_file_at : GitHubCommitOid → list byte → stateful A ApiError (list byte);
}.

(** [sha2::Sha256::digest]. *)
Class Sha256 := digest : list byte → byte_array 32.

Inductive GitHubTransportError (E : Type) : Type :=
  | Api (error : E)
  | EmptyPublication
  | BranchUninitialized
  | InvalidCommitIdentity
  | InvalidCreatedHead
  | ImmutableObjectViolation (path : list byte)
  | ObjectPathMismatch (path : list byte).
Arguments Api {E} _.
Arguments EmptyPublication {E}.
Arguments BranchUninitialized {E}.
Arguments InvalidCommitIdentity {E}.
Arguments InvalidCreatedHead {E}.
Arguments ImmutableObjectViolation {E} _.
Arguments ObjectPathMismatch {E} _.

Record GitHubTransport (A : Type) : Type := GitHubTransport_mk {
  api : A;
  max_incremental_commits : N;
}.
Arguments GitHubTransport_mk {A} _ _.
Arguments api {A} _.
Arguments max_incremental_commits {A} _.

Definition object_path `{Sha256} (bytes : list byte) : list byte :=
  OBJECT_PREFIX ++ hex (array_bytes (digest bytes)) ++ OBJECT_SUFFIX.

Module GitHubTransport.
Section GitHubTransport.
Context {A : Type}.
Implicit Types self : GitHubTransport A.

Definition new (api : A) : GitHubTransport A :=
  GitHubTransport_mk api DEFAULT_MAX_INCREMENTAL_COMMITS.

Definition with_max_incremental_commits (api : A) (max_incremental_commits : N) : GitHubTransport A :=
  GitHubTransport_mk api (N.max max_incremental_commits 1).

Definition into_api self : A := api self.

Context `{Sha256} `{GitHubApi A}.

(** [self.api.call(..).map_err(GitHubTransportError::Api)]. *)
Definition on_api {X : Type} (m : stateful A ApiError X) :
    stateful (GitHubTransport A) (GitHubTransportError ApiError) X :=
  on_field api (λ a self, GitHubTransport_mk a (max_incremental_commits self)) (map_err_st Api m).

Definition head :
    stateful (GitHubTransport A) (GitHubTransportError ApiError) (option GitHubCommitOid) :=
  on_api branch_head.

(** The [while] loop of [fetch_since]: [remaining] is what
    [max_incremental_commits] leaves; [None] for an early return. *)
Fixpoint walk (remaining : nat) (known_head cursor : GitHubCommitOid)
    (commits : list GitHubCommitInfo) :
    stateful (GitHubTransport A) (GitHubTransportError ApiError) (option (list GitHubCommitInfo)) :=
  if decide (cursor = known_head) then mret (Some commits) else
  match remaining with
  | O => mret None
  | S remaining =>
      info ← on_api (commit_info cursor);
      if decide (oid info ≠ cursor) then throw InvalidCommitIdentity else
      match parents info with
      | [parent] => walk remaining known_head parent (commits ++ [info])
      | _ => mret None
      end
  end.

(** The body of the loop over a commit's changes. *)
Definition collect_change (commit : GitHubCommitOid) (seen_objects : gset (list byte) * list (list byte))
    (change : GitHubFileChange) :
    stateful (GitHubTransport A) (GitHubTransportError ApiError) (gset (list byte) * list (list byte)) :=
  let '(seen_paths, objects) := seen_objects in
  let path := change_path change in
  if negb (starts_with OBJECT_PREFIX path) then mret (seen_paths, objects) else
  if decide (kind change ≠ Added) then throw (ImmutableObjectViolation path) else
  if decide (path ∈ seen_paths) then throw (ImmutableObjectViolation path) else
  bytes ← on_api (read_file_at commit path);
  if decide (object_path bytes ≠ path) then throw (ObjectPathMismatch path) else
  mret ({[path]} ∪ seen_paths, objects ++ [bytes]).

Fixpoint collect_changes (commit : GitHubCommitOid) (acc : gset (list byte) * list (list byte))
    (changes : list GitHubFileChange) :
    stateful (GitHubTransport A) (GitHubTransportError ApiError) (gset (list byte) * list (list byte)) :=
  match changes with
  | [] => mret acc
  | change :: changes => acc ← collect_change commit acc change; collect_changes commit acc changes
  end.

Fixpoint collect_commits (acc : gset (list byte) * list (list byte)) (commits : list GitHubCommitInfo) :
    stateful (GitHubTransport A) (GitHubTransportError ApiError) (gset (list byte) * list (list byte)) :=
  match commits with
  | [] => mret acc
  | commit :: commits =>
      acc ← collect_changes (oid commit) acc (changes commit);
      collect_commits acc commits
  end.

Definition fetch_since (known_head : option GitHubCommitOid) :
    stateful (GitHubTransport A) (GitHubTransportError ApiError) (FetchOutcome GitHubCommitOid) :=
  current_head ← on_api branch_head;
  if decide (current_head = known_head) then mret (UpToDate current_head) else
  match known_head with
  | None => mret (BaselineUnavailable current_head)
  | Some known_head =>
      match current_head with
      | None => mret (BaselineUnavailable None)
      | Some head =>
          self ← get_state;
          walked ← walk (N.to_nat (max_incremental_commits self)) known_head head [];
          match walked with
          | None => mret (BaselineUnavailable current_head)
          | Some commits =>
              collected ← collect_commits (∅, []) (reverse commits);
              mret (Changed head collected.2)
          end
      end
  end.

(** The first object of each path. *)
Definition additions_by_path (objects : list (list byte)) : gmap (list byte) (list byte) :=
  foldl (λ additions bytes,
    match additions !! object_path bytes with
    | Some _ => additions
    | None => <[object_path bytes := bytes]> additions
    end) ∅ objects.

Definition publish (expected_head : option GitHubCommitOid) (objects : list (list byte)) :
    stateful (GitHubTransport A) (GitHubTransportError ApiError) (PublishOutcome GitHubCommitOid) :=
  if decide (objects = []) then throw EmptyPublication else
  match expected_head with
  | None =>
      current ← on_api branch_head;
      match current with
      | Some current_head => mret (Conflict (Some current_head))
      | None => throw BranchUninitialized
      end
  | Some expected_head =>
      let additions := (λ '(path, bytes), GitHubFileAddition_mk path bytes)
        <$> entries_asc (additions_by_path objects) in
      created ← on_api (create_commit_on_branch expected_head additions COMMIT_MESSAGE);
      match created with
      | Created head =>
          if decide (head = expected_head) then throw InvalidCreatedHead
          else mret (Published head)
      | HeadChanged current_head => mret (Conflict current_head)
      end
  end.
End GitHubTransport.
End GitHubTransport.

#[export] Instance github_transport {A : Type} `{Sha256} `{GitHubApi A} : OpaqueTransport (GitHubTransport A) := {|
  Revision := GitHubCommitOid;
  TransportError := GitHubTransportError ApiError;
  head := GitHubTransport.head;
  fetch_since := GitHubTransport.fetch_since;
  publish := GitHubTransport.publish;
|}.
