(* ===== verification/GitHubLaws.v ===== *)
(** * What the GitHub transport fetches and publishes

    An abstract repository, the laws of the API over it and the specifications
    of [fetch_since] and [publish].  Other devices may commit between any two
    calls: a call only ever extends the repository. *)
From Stdlib Require Import Lia NArith Strings.Byte.
From stdpp Require Import base tactics option list gmap numbers.
From S2P Require Import Prelude Outcome BTree Bytes Text Transport GitHub.
Local Open Scope N_scope.

Record Commit : Type := Commit_mk {
  info : GitHubCommitInfo;
  files : gmap (list byte) (list byte);
}.

Record Repository : Type := Repository_mk {
  branch : option GitHubCommitOid;
  commits : gmap GitHubCommitOid Commit;
}.

(** [h] commits [additions] on [parent], the commit [expected]. *)
Definition commit_on (expected : GitHubCommitOid) (parent : Commit)
    (additions : list GitHubFileAddition) (h : GitHubCommitOid) (c : Commit) : Prop :=
  oid (info c) = h ∧ parents (info c) = [expected] ∧
  (∀ addition, addition ∈ additions →
    files c !! addition_path addition = Some (addition_bytes addition)) ∧
  ((∀ addition, addition ∈ additions → files parent !! addition_path addition = None) →
    changes (info c) ≡ₚ (λ addition, GitHubFileChange_mk (addition_path addition) Added) <$> additions).

(** [settled] says that nobody else uses the branch and every call that can be
    answered is, and [can_commit] that the branch takes another commit. *)
Class GitHubApiLaws (A : Type) `{GitHubApi A} := {
  repository : A → Repository;
  api_ok : A → Prop;
  settled : A → Prop;
  can_commit : A → Prop;
  api_evolves a a' : Prop := api_ok a' ∧ commits (repository a) ⊆ commits (repository a');
  branch_head_law a a' r :
    api_ok a → branch_head a = (a', r) →
    api_evolves a a' ∧ ∀ h, r = Ok h → branch (repository a') = h;
  commit_info_law o a a' r :
    api_ok a → commit_info o a = (a', r) →
    api_evolves a a' ∧ ∀ i, r = Ok i → ∃ c, commits (repository a') !! o = Some c ∧ info c = i;
  read_file_at_law o path a a' r :
    api_ok a → read_file_at o path a = (a', r) →
    api_evolves a a' ∧ ∀ bytes, r = Ok bytes →
      ∃ c, commits (repository a') !! o = Some c ∧ files c !! path = Some bytes;
  create_commit_law expected additions message a a' r :
    api_ok a → message = COMMIT_MESSAGE → NoDup (addition_path <$> additions) →
    create_commit_on_branch expected additions message a = (a', r) →
    api_evolves a a' ∧ ∀ h, r = Ok (Created h) →
      ∃ parent c, commits (repository a) !! expected = Some parent ∧
        commits (repository a) !! h = None ∧ commits (repository a') !! h = Some c ∧
        commit_on expected parent additions h c;
  settled_ok a : settled a → api_ok a;
  settled_head a :
    settled a → ∃ a', branch_head a = (a', Ok (branch (repository a))) ∧
      settled a' ∧ repository a' = repository a;
  settled_commit_info a o c :
    settled a → commits (repository a) !! o = Some c →
    ∃ a', commit_info o a = (a', Ok (info c)) ∧ settled a' ∧ repository a' = repository a;
  settled_read a o c path bytes :
    settled a → commits (repository a) !! o = Some c → files c !! path = Some bytes →
    ∃ a', read_file_at o path a = (a', Ok bytes) ∧ settled a' ∧ repository a' = repository a;
  settled_create a expected additions :
    settled a → NoDup (addition_path <$> additions) →
    if decide (branch (repository a) = Some expected) then
      can_commit a → ∃ a' h, create_commit_on_branch expected additions COMMIT_MESSAGE a
        = (a', Ok (Created h)) ∧ settled a' ∧ branch (repository a') = Some h
    else ∃ a', create_commit_on_branch expected additions COMMIT_MESSAGE a
      = (a', Ok (HeadChanged (branch (repository a)))) ∧ settled a' ∧ repository a' = repository a;
}.

(** ** What a fetch answers *)
Section specification.
Context `{Sha256}.
Implicit Types (R : Repository) (known cursor : GitHubCommitOid) (l : list GitHubCommitInfo).

(** The commits from [cursor] back to [known], which have one parent each. *)
Inductive chain R known : GitHubCommitOid → list GitHubCommitInfo → Prop :=
  | chain_known : chain R known known []
  | chain_commit cursor c parent l :
      cursor ≠ known → commits R !! cursor = Some c → oid (info c) = cursor →
      parents (info c) = [parent] → chain R known parent l → chain R known cursor (info c :: l).

(** The changes under the object directory. *)
Definition commit_items (i : GitHubCommitInfo) : list (GitHubCommitOid * GitHubFileChange) :=
  (λ change, (oid i, change)) <$>
    filter (λ change, starts_with OBJECT_PREFIX (change_path change) = true) (changes i).
Definition items l : list (GitHubCommitOid * GitHubFileChange) := l ≫= commit_items.
Definition item_path (item : GitHubCommitOid * GitHubFileChange) : list byte := change_path item.2.

(** The commit adds the object under its own digest. *)
Definition adds R (item : GitHubCommitOid * GitHubFileChange) (bytes : list byte) : Prop :=
  kind item.2 = Added ∧ object_path bytes = item_path item ∧
  ∃ c, commits R !! item.1 = Some c ∧ files c !! item_path item = Some bytes.

(** The commits publish the objects, each once. *)
Definition publishes R l (objects : list (list byte)) : Prop :=
  NoDup (item_path <$> items l) ∧ Forall2 (adds R) (items l) objects.

(** The loop from one accumulator to another. *)
Definition collects R (acc : gset (list byte) * list (list byte))
    (its : list (GitHubCommitOid * GitHubFileChange)) (acc' : gset (list byte) * list (list byte)) : Prop :=
  ∃ new, acc' = (list_to_set (item_path <$> its) ∪ acc.1, acc.2 ++ new) ∧
    NoDup (item_path <$> its) ∧ (∀ path, path ∈ item_path <$> its → path ∉ acc.1) ∧
    Forall2 (adds R) its new.

Lemma collects_nil R acc : collects R acc [] acc.
Proof.
  exists []. destruct acc as [seen objs]. cbn. rewrite app_nil_r.
  split; [f_equal; set_solver|]. split; [constructor|]. split; [set_solver|constructor].
Qed.

Lemma collects_app R acc its1 its2 acc' :
  collects R acc (its1 ++ its2) acc' ↔
  ∃ mid, collects R acc its1 mid ∧ collects R mid its2 acc'.
Proof.
  unfold collects. split.
  - intros (new & -> & Hnd & Hseen & Hall). rewrite fmap_app in *.
    apply list.NoDup_app in Hnd as (Hnd1 & Hdisj & Hnd2).
    apply Forall2_app_inv_l in Hall as (new1 & new2 & Hall1 & Hall2 & ->).
    eexists. split.
    + exists new1. split; [done|]. split; [done|]. split; [|done]. intros p Hp. apply Hseen. set_solver.
    + exists new2. cbn. split; [f_equal; [|by rewrite app_assoc]; rewrite list_to_set_app_L; set_solver|].
      split; [done|]. split; [|done]. intros p Hp. rewrite elem_of_union, elem_of_list_to_set.
      intros [Hp1|Hp1]; [by apply (Hdisj p)|]. apply (Hseen p); [set_solver|done].
  - intros (mid & (new1 & -> & Hnd1 & Hs1 & Hall1) & (new2 & -> & Hnd2 & Hs2 & Hall2)). cbn in *.
    exists (new1 ++ new2). rewrite fmap_app. split; [f_equal; [|by rewrite app_assoc]; rewrite list_to_set_app_L; set_solver|].
    split; [|split; [|by apply Forall2_app]].
    + apply list.NoDup_app. split; [done|]. split; [|done]. intros p Hp1 Hp2. apply (Hs2 p Hp2). set_solver.
    + intros p [Hp|Hp]%elem_of_app; [by apply Hs1|]. intros Hin. apply (Hs2 p Hp). set_solver.
Qed.

Lemma publishes_collects R l objects : publishes R l objects ↔ ∃ seen, collects R (∅, []) (items l) (seen, objects).
Proof.
  unfold publishes, collects. cbn. split.
  - intros [Hnd Hall]. eexists _, objects. split; [done|]. split; [done|]. split; [set_solver|done].
  - intros (seen & new & [= -> ->] & Hnd & _ & Hall). done.
Qed.

(** A later repository still shows all of it. *)
Lemma chain_mono R R' known cursor l :
  commits R ⊆ commits R' → chain R known cursor l → chain R' known cursor l.
Proof.
  intros Hsub. induction 1 as [|cursor c parent l Hne Hc Ho Hp _ IH]; [constructor|].
  econstructor; [done|by eapply lookup_weaken|done..].
Qed.

Lemma adds_mono R R' item bytes : commits R ⊆ commits R' → adds R item bytes → adds R' item bytes.
Proof.
  intros Hsub (Hk & Hp & c & Hc & Hf). split; [done|]. split; [done|]. exists c.
  split; [by eapply lookup_weaken|done].
Qed.

Lemma collects_mono R R' acc its acc' :
  commits R ⊆ commits R' → collects R acc its acc' → collects R' acc its acc'.
Proof.
  intros Hsub (new & Heq & Hnd & Hs & Hall). exists new. split; [done|]. split; [done|]. split; [done|].
  eapply list.Forall2_impl; [exact Hall|]. intros i b. by apply adds_mono.
Qed.
End specification.

(** ** Soundness: whatever the API answers and whoever else commits *)
Section runs.
Context {A : Type} `{Sha256} `{GitHubApiLaws A}.
Implicit Types (t : GitHubTransport A) (known cursor : GitHubCommitOid).

Definition repo t : Repository := repository (api t).
Definition evolves t t' : Prop :=
  api_evolves (api t) (api t') ∧ max_incremental_commits t' = max_incremental_commits t.

Lemma evolves_refl t : api_ok (api t) → evolves t t.
Proof. split; [|done]. by split. Qed.

Lemma evolves_trans t t' t'' : evolves t t' → evolves t' t'' → evolves t t''.
Proof.
  intros [[_ Hsub] Hm] [[Hok Hsub'] Hm']. split; [|congruence]. split; [done|by etrans].
Qed.

Lemma outcome_on_api {X} (m : stateful A ApiError X) t (Q : GitHubTransport A → X → Prop)
    (P : X → A → Prop) :
  (∀ a' r, m (api t) = (a', r) → api_evolves (api t) a' ∧ ∀ x, r = Ok x → P x a') →
  (∀ t' x, evolves t t' → P x (api t') → Q t' x) →
  outcome (GitHubTransport.on_api m) t Q (λ t', evolves t t').
Proof.
  intros Hm HQ. unfold outcome, GitHubTransport.on_api, on_field, map_err_st.
  destruct (m (api t)) as [a' r]. destruct (Hm a' r eq_refl) as [Hev HP].
  assert (evolves t (GitHubTransport_mk a' (max_incremental_commits t))) as Hev' by by split.
  destruct r as [x|e|]; cbn [map_err]; [|exact Hev'..]. apply HQ; [exact Hev'|by apply HP].
Qed.

(** Weakens the failure case of a later call. *)
Lemma outcome_later {X} (m : stateful (GitHubTransport A) (GitHubTransportError ApiError) X) t0 t
    (Q : GitHubTransport A → X → Prop) :
  evolves t0 t → outcome m t Q (λ t', evolves t t') → outcome m t Q (λ t', evolves t0 t').
Proof. intros Hev Ho. eapply outcome_mono; [exact Ho|done|]. intros t'. by apply evolves_trans. Qed.

Lemma walk_sound remaining known cursor acc t :
  api_ok (api t) →
  outcome (GitHubTransport.walk remaining known cursor acc) t
    (λ t' o, evolves t t' ∧ ∀ cs, o = Some cs → ∃ l, cs = acc ++ l ∧ (length l ≤ remaining)%nat ∧
       chain (repo t') known cursor l)
    (λ t', evolves t t').
Proof.
  revert cursor acc t. induction remaining as [|remaining IH]; intros cursor acc t Hok;
    cbn [GitHubTransport.walk].
  - destruct (decide (cursor = known)) as [->|Hne]; apply outcome_ret;
      (split; [by apply evolves_refl|]); [|done].
    intros cs [= <-]. exists []. rewrite app_nil_r. split; [done|]. split; [done|constructor].
  - destruct (decide (cursor = known)) as [->|Hne].
    { apply outcome_ret. split; [by apply evolves_refl|]. intros cs [= <-]. exists [].
      rewrite app_nil_r. split; [done|]. split; [cbn; lia|constructor]. }
    apply outcome_bind. eapply outcome_on_api; [intros a' r; by apply commit_info_law|].
    cbn beta. intros t1 i Hev1 (c & Hc & <-). apply outcome_later; [done|].
    destruct (decide (oid (info c) ≠ cursor)) as [|Ho%dec_stable]; [by apply evolves_refl, Hev1|].
    destruct (parents (info c)) as [|parent [|]] eqn:Hp;
      [by apply outcome_ret| |by apply outcome_ret].
    eapply outcome_mono; [apply IH, Hev1| |done].
    intros t2 o [Hev2 Ho2]. split; [by eapply evolves_trans|]. intros cs Hcs.
    destruct (Ho2 cs Hcs) as (l & -> & Hl & Hchain). exists (info c :: l).
    rewrite <-app_assoc. split; [done|]. split; [cbn; lia|].
    eapply chain_commit; [done| |done..]. eapply lookup_weaken; [exact Hc|apply Hev2].
Qed.

Lemma collect_change_sound commit acc change t :
  api_ok (api t) →
  outcome (GitHubTransport.collect_change commit acc change) t
    (λ t' acc', evolves t t' ∧
       collects (repo t') acc (items [GitHubCommitInfo_mk commit [] [change]]) acc')
    (λ t', evolves t t').
Proof.
  intros Hok. destruct acc as [seen objs]. unfold GitHubTransport.collect_change. cbn zeta.
  unfold items, commit_items. cbn [mbind list_bind changes oid filter list_filter app].
  destruct (starts_with OBJECT_PREFIX (change_path change)) eqn:Hs; cbn [negb].
  2:{ apply outcome_ret. split; [by apply evolves_refl|]. rewrite (decide_False (P := false = true)) by done. apply collects_nil. }
  rewrite (decide_True (P := true = true)) by done. cbn [fmap list_fmap app].
  destruct (decide (kind change ≠ Added)) as [|Hk%dec_stable]; [by apply evolves_refl|].
  destruct (decide (change_path change ∈ seen)) as [|Hseen]; [by apply evolves_refl|].
  apply outcome_bind. eapply outcome_on_api; [intros a' r; by apply read_file_at_law|].
  cbn beta. intros t1 bytes Hev (c & Hc & Hf). 
  destruct (decide (object_path bytes ≠ change_path change)) as [|Hp%dec_stable]; [exact Hev|].
  apply outcome_ret. split; [done|]. exists [bytes]. split.
  { cbn. f_equal. set_solver. }
  split; [apply NoDup_singleton|]. split; [intros p ->%list_elem_of_singleton; done|].
  constructor; [|constructor]. split; [done|]. split; [done|]. by exists c.
Qed.

Lemma items_app l l' : items (l ++ l') = items l ++ items l'.
Proof. apply bind_app. Qed.

Lemma items_cons_change o ps change chs l :
  items (GitHubCommitInfo_mk o ps (change :: chs) :: l) =
  items [GitHubCommitInfo_mk o [] [change]] ++ items (GitHubCommitInfo_mk o ps chs :: l).
Proof.
  unfold items, commit_items. cbn. destruct (decide _); cbn; [|done]. done.
Qed.

Lemma collect_changes_sound o ps chs acc t :
  api_ok (api t) →
  outcome (GitHubTransport.collect_changes o acc chs) t
    (λ t' acc', evolves t t' ∧ collects (repo t') acc (items [GitHubCommitInfo_mk o ps chs]) acc')
    (λ t', evolves t t').
Proof.
  revert acc t. induction chs as [|change chs IH]; intros acc t Hok; cbn [GitHubTransport.collect_changes].
  - apply outcome_ret. split; [by apply evolves_refl|]. apply collects_nil.
  - apply outcome_bind. eapply outcome_mono; [by apply collect_change_sound| |done].
    intros t1 acc1 [Hev1 Hc1]. apply outcome_later; [done|].
    eapply outcome_mono; [apply IH, Hev1| |done]. intros t2 acc2 [Hev2 Hc2].
    split; [by eapply evolves_trans|]. rewrite items_cons_change. apply collects_app.
    exists acc1. split; [|done]. eapply collects_mono; [apply Hev2|done].
Qed.

Lemma collect_commits_sound l acc t :
  api_ok (api t) →
  outcome (GitHubTransport.collect_commits acc l) t
    (λ t' acc', evolves t t' ∧ collects (repo t') acc (items l) acc')
    (λ t', evolves t t').
Proof.
  revert acc t. induction l as [|i l IH]; intros acc t Hok; cbn [GitHubTransport.collect_commits].
  - apply outcome_ret. split; [by apply evolves_refl|]. apply collects_nil.
  - apply outcome_bind. eapply outcome_mono; [by apply (collect_changes_sound _ (parents i))| |done].
    intros t1 acc1 [Hev1 Hc1]. apply outcome_later; [done|].
    eapply outcome_mono; [apply IH, Hev1| |done]. intros t2 acc2 [Hev2 Hc2].
    split; [by eapply evolves_trans|]. change (i :: l) with ([i] ++ l). rewrite items_app.
    apply collects_app. exists acc1. split; [|done]. destruct i. eapply collects_mono; [apply Hev2|done].
Qed.

(** What a fetch may answer. *)
Definition fetched t' (max : nat) (base : option GitHubCommitOid) (answer : FetchOutcome GitHubCommitOid) : Prop :=
  match answer with
  | UpToDate h => h = base
  | Changed h objects => ∃ k l, base = Some k ∧ h ≠ k ∧ (length l ≤ max)%nat ∧
      chain (repo t') k h l ∧ publishes (repo t') (reverse l) objects
  | BaselineUnavailable _ => True
  end.

Lemma fetch_sound (base : option GitHubCommitOid) t :
  api_ok (api t) →
  outcome (GitHubTransport.fetch_since base) t
    (λ t' answer, evolves t t' ∧ fetched t' (N.to_nat (max_incremental_commits t)) base answer)
    (λ t', evolves t t').
Proof.
  intros Hok. unfold GitHubTransport.fetch_since. apply outcome_bind.
  eapply outcome_on_api; [intros a' r; by apply branch_head_law|]. cbn beta.
  intros t1 h Hev1 _. destruct (decide (h = base)) as [->|Hne]; [by apply outcome_ret|].
  destruct base as [k|]; [|by apply outcome_ret]. destruct h as [h|]; [|by apply outcome_ret].
  apply outcome_get, outcome_bind, outcome_later; [done|].
  eapply outcome_mono; [apply walk_sound, Hev1| |done]. intros t2 o [Hev2 Hwalk].
  pose proof (evolves_trans _ _ _ Hev1 Hev2) as Hev.
  destruct o as [l|]; [|by apply outcome_ret]. destruct (Hwalk l eq_refl) as (l' & -> & Hlen & Hchain).
  rewrite (proj2 Hev1) in Hlen.
  apply outcome_bind. eapply outcome_mono; [apply collect_commits_sound, Hev2|  |].
  - intros t3 [seen objects] [Hev3 Hc]. apply outcome_ret. split; [by eapply evolves_trans|].
    exists k, l'. split; [done|]. split; [congruence|]. split; [done|].
    split; [eapply chain_mono; [apply Hev3|done]|]. apply publishes_collects. by exists seen.
  - intros t3 Hev3. by eapply evolves_trans.
Qed.

(** ** Completeness: on a settled branch every answer comes *)
Definition steady t t' : Prop :=
  settled (api t') ∧ repo t' = repo t ∧ max_incremental_commits t' = max_incremental_commits t.

Lemma steady_refl t : settled (api t) → steady t t.
Proof. by split. Qed.

Lemma steady_trans t t' t'' : steady t t' → steady t' t'' → steady t t''.
Proof. unfold steady. intros (_ & -> & ->) (? & -> & ->). done. Qed.

(** [m] returns [x] and leaves the branch as it is. *)
Definition answers {X} (m : stateful (GitHubTransport A) (GitHubTransportError ApiError) X) t (x : X) : Prop :=
  ∃ t', m t = (t', Ok x) ∧ steady t t'.

Lemma answers_ret {X} (x : X) t : settled (api t) → answers (mret x) t x.
Proof. intros Hs. exists t. split; [done|]. by apply steady_refl. Qed.

Lemma answers_bind {X Y} (m : stateful (GitHubTransport A) (GitHubTransportError ApiError) X)
    (f : X → stateful (GitHubTransport A) (GitHubTransportError ApiError) Y) t x y :
  answers m t x → (∀ t', steady t t' → answers (f x) t' y) → answers (m ≫= f) t y.
Proof.
  intros (t1 & Hm & Hst1) Hf. destruct (Hf t1 Hst1) as (t2 & Hf2 & Hst2). exists t2.
  rewrite st_bind, Hm. split; [done|]. by eapply steady_trans.
Qed.

Lemma answers_on_api {X} (m : stateful A ApiError X) t x :
  (∃ a', m (api t) = (a', Ok x) ∧ settled a' ∧ repository a' = repository (api t)) →
  answers (GitHubTransport.on_api m) t x.
Proof.
  intros (a' & Hm & Hs & Hr). unfold answers, GitHubTransport.on_api, on_field, map_err_st.
  rewrite Hm. eexists. split; [done|]. by split.
Qed.

Lemma walk_complete remaining known cursor acc l t :
  settled (api t) → chain (repo t) known cursor l → (length l ≤ remaining)%nat →
  answers (GitHubTransport.walk remaining known cursor acc) t (Some (acc ++ l)).
Proof.
  revert cursor acc remaining t.
  induction l as [|i l IH]; intros cursor acc remaining t Hs Hchain Hlen; inversion Hchain; subst.
  - destruct remaining; cbn [GitHubTransport.walk]; rewrite decide_True by done;
      rewrite app_nil_r; by apply answers_ret.
  - destruct remaining as [|remaining]; [cbn in Hlen; lia|]. cbn [GitHubTransport.walk].
    rewrite decide_False by done. eapply answers_bind.
    { apply answers_on_api. by apply settled_commit_info. }
    intros t1 Hst1. rewrite decide_False by auto. 
    match goal with Hp : parents _ = [_] |- _ => rewrite Hp end.
    assert (acc ++ info c :: l = (acc ++ [info c]) ++ l) as -> by (by rewrite <-app_assoc).
    destruct Hst1 as (Hs1 & Hr1 & _). apply IH; [done|by rewrite Hr1|cbn in Hlen; lia].
Qed.

Lemma collect_change_complete o change acc acc' t :
  settled (api t) → collects (repo t) acc (items [GitHubCommitInfo_mk o [] [change]]) acc' →
  answers (GitHubTransport.collect_change o acc change) t acc'.
Proof.
  intros Hs Hc. destruct acc as [seen objs]. unfold GitHubTransport.collect_change. cbn zeta.
  unfold items, commit_items in Hc. cbn [mbind list_bind changes oid filter list_filter app] in Hc.
  destruct (starts_with OBJECT_PREFIX (change_path change)) eqn:Hpre; cbn [negb].
  2:{ rewrite (decide_False (P := false = true)) in Hc by done.
      destruct Hc as (new & -> & _ & _ & Hall). apply Forall2_nil_inv_l in Hall as ->.
      cbn. rewrite app_nil_r, (left_id_L ∅ (∪)). by apply answers_ret. }
  rewrite (decide_True (P := true = true)) in Hc by done. cbn [fmap list_fmap app] in Hc.
  destruct Hc as (new & -> & _ & Hseen & Hall).
  apply Forall2_cons_inv_l in Hall as (bytes & new' & (Hk & Hp & c & Hc & Hf) & Hnil & ->).
  apply Forall2_nil_inv_l in Hnil as ->. cbn [item_path snd fst kind] in *.
  rewrite decide_False by auto. rewrite decide_False by (apply Hseen; set_solver).
  eapply answers_bind.
  { apply answers_on_api. by eapply settled_read. }
  intros t1 Hst1. rewrite decide_False by auto. cbn. rewrite (right_id_L ∅ (∪)).
  apply answers_ret, Hst1.
Qed.

Lemma collect_changes_complete o ps chs acc acc' t :
  settled (api t) → collects (repo t) acc (items [GitHubCommitInfo_mk o ps chs]) acc' →
  answers (GitHubTransport.collect_changes o acc chs) t acc'.
Proof.
  revert acc t. induction chs as [|change chs IH]; intros acc t Hs Hc; cbn [GitHubTransport.collect_changes].
  - destruct Hc as (new & -> & _ & _ & Hall). apply Forall2_nil_inv_l in Hall as ->. cbn.
    rewrite app_nil_r, (left_id_L ∅ (∪)). destruct acc. by apply answers_ret.
  - rewrite items_cons_change in Hc. apply collects_app in Hc as (mid & Hc1 & Hc2).
    eapply answers_bind; [by apply collect_change_complete|]. intros t1 (Hs1 & Hr1 & _).
    apply IH; [done|by rewrite Hr1].
Qed.

Lemma collect_commits_complete l acc acc' t :
  settled (api t) → collects (repo t) acc (items l) acc' →
  answers (GitHubTransport.collect_commits acc l) t acc'.
Proof.
  revert acc t. induction l as [|i l IH]; intros acc t Hs Hc; cbn [GitHubTransport.collect_commits].
  - destruct Hc as (new & -> & _ & _ & Hall). apply Forall2_nil_inv_l in Hall as ->. cbn.
    rewrite app_nil_r, (left_id_L ∅ (∪)). destruct acc. by apply answers_ret.
  - change (i :: l) with ([i] ++ l) in Hc. rewrite items_app in Hc.
    apply collects_app in Hc as (mid & Hc1 & Hc2). destruct i as [o ps chs].
    eapply answers_bind; [by apply (collect_changes_complete o ps)|]. intros t1 (Hs1 & Hr1 & _).
    apply IH; [done|by rewrite Hr1].
Qed.

Lemma fetch_complete known h l objects t :
  settled (api t) → branch (repo t) = Some h → h ≠ known →
  chain (repo t) known h l → (length l ≤ N.to_nat (max_incremental_commits t))%nat →
  publishes (repo t) (reverse l) objects →
  answers (GitHubTransport.fetch_since (Some known)) t (Changed h objects).
Proof.
  intros Hs Hb Hne Hchain Hlen [seen Hc]%publishes_collects. unfold GitHubTransport.fetch_since.
  eapply answers_bind; [by apply answers_on_api, settled_head|]. intros t1 (Hs1 & Hr1 & Hm1).
  unfold repo in Hb. rewrite Hb. rewrite decide_False by congruence.
  apply (answers_bind _ _ _ t1); [by exists t1; split; [|apply steady_refl]|].
  intros t2 (Hs2 & Hr2 & Hm2). eapply answers_bind.
  { apply (walk_complete _ _ _ [] l); [done|by rewrite Hr2, Hr1|by rewrite Hm1]. }
  intros t3 (Hs3 & Hr3 & Hm3). cbn [app]. eapply answers_bind.
  { apply collect_commits_complete; [done|]. rewrite Hr3, Hr2, Hr1. exact Hc. }
  intros t4 Hst4. apply answers_ret, Hst4.
Qed.

(** ** Publication *)
Lemma additions_by_path_lookup objects path :
  GitHubTransport.additions_by_path objects !! path =
  list_find (λ bytes, object_path bytes = path) objects ≫= λ found, Some found.2.
Proof.
  unfold GitHubTransport.additions_by_path.
  enough (∀ m, foldl (λ additions bytes, match additions !! object_path bytes with
      | Some _ => additions | None => <[object_path bytes := bytes]> additions end) m objects !! path =
    match m !! path with
    | Some bytes => Some bytes
    | None => list_find (λ bytes, object_path bytes = path) objects ≫= λ found, Some found.2
    end) as Hm by (by rewrite Hm, lookup_empty).
  induction objects as [|bytes objects IH]; intros m; [cbn; by destruct (_ !! path)|].
  cbn [foldl list_find]. rewrite IH. destruct (decide (object_path bytes = path)) as [<-|Hne].
  - destruct (m !! object_path bytes) eqn:Hm; [by rewrite Hm|]. by rewrite lookup_insert_eq.
  - assert (list_find (λ bytes, object_path bytes = path) objects ≫= (λ found, Some found.2) =
      (prod_map S id <$> list_find (λ bytes, object_path bytes = path) objects) ≫= (λ found, Some found.2))
      as -> by (by destruct (list_find _ objects) as [[]|]).
    destruct (m !! object_path bytes) eqn:Hm; [done|]. by rewrite lookup_insert_ne by done.
Qed.

Lemma additions_by_path_Some objects path bytes :
  GitHubTransport.additions_by_path objects !! path = Some bytes →
  object_path bytes = path ∧ bytes ∈ objects.
Proof.
  rewrite additions_by_path_lookup. intros ([i b] & Hf & [= <-])%bind_Some.
  apply list_find_Some in Hf as (Hi & Hp & _). split; [done|]. by eapply list_elem_of_lookup_2.
Qed.

Lemma additions_by_path_elem objects bytes :
  bytes ∈ objects → ∃ b, GitHubTransport.additions_by_path objects !! object_path bytes = Some b.
Proof.
  intros Hin. rewrite additions_by_path_lookup.
  destruct (list_find_elem_of (λ b, object_path b = object_path bytes) objects bytes Hin eq_refl) as [[i b] Hf].
  exists b. by rewrite Hf.
Qed.

(** The additions of a publication. *)
Definition additions objects : list GitHubFileAddition :=
  (λ '(path, bytes), GitHubFileAddition_mk path bytes) <$>
    entries_asc (GitHubTransport.additions_by_path objects).

Lemma elem_of_additions objects a :
  a ∈ additions objects ↔
  GitHubTransport.additions_by_path objects !! addition_path a = Some (addition_bytes a).
Proof.
  unfold additions. rewrite list_elem_of_fmap. split.
  - intros ([p b] & -> & Hin). by apply elem_of_entries_asc in Hin.
  - intros Hin. exists (addition_path a, addition_bytes a). split; [by destruct a|].
    by apply elem_of_entries_asc.
Qed.

Lemma NoDup_additions objects : NoDup (addition_path <$> additions objects).
Proof.
  unfold additions. rewrite <-list_fmap_compose.
  assert ((addition_path ∘ λ '(path, bytes), GitHubFileAddition_mk path bytes) <$>
    entries_asc (GitHubTransport.additions_by_path objects) =
    fst <$> entries_asc (GitHubTransport.additions_by_path objects)) as ->
    by (apply list_fmap_ext; by intros _ [] _).
  apply NoDup_entries_asc.
Qed.

Lemma additions_values objects :
  addition_bytes <$> additions objects = values_asc (GitHubTransport.additions_by_path objects).
Proof.
  unfold additions, values_asc. rewrite <-list_fmap_compose. apply list_fmap_ext. by intros _ [] _.
Qed.

Lemma filter_all {X} (P : X → Prop) `{!∀ x, Decision (P x)} (l : list X) :
  (∀ x, x ∈ l → P x) → filter P l = l.
Proof.
  induction l as [|x l IH]; intros Hl; [done|]. rewrite filter_cons_True by (apply Hl; left).
  f_equal. apply IH. intros y Hy. apply Hl. by right.
Qed.

(** A commit that adds the objects' files publishes the objects. *)
Lemma commit_publishes R objects k parent h c :
  commits R !! h = Some c → commit_on k parent (additions objects) h c →
  (∀ bytes, bytes ∈ objects → files parent !! object_path bytes = None) →
  ∃ published, published ≡ₚ values_asc (GitHubTransport.additions_by_path objects) ∧
    publishes R [info c] published.
Proof.
  intros Hc (Ho & _ & Hfiles & Hchanges) Hnew.
  assert (∀ a, a ∈ additions objects → object_path (addition_bytes a) = addition_path a ∧
    files parent !! addition_path a = None) as Ha.
  { intros a Hin%elem_of_additions%additions_by_path_Some. destruct Hin as [Hp Hb].
    split; [done|]. rewrite <-Hp. by apply Hnew. }
  specialize (Hchanges (λ a Hin, proj2 (Ha a Hin))).
  assert (items [info c] ≡ₚ (λ a, (h, GitHubFileChange_mk (addition_path a) Added)) <$> additions objects)
    as Hitems.
  { unfold items, commit_items. cbn [mbind list_bind]. rewrite app_nil_r, Hchanges, Ho.
    rewrite filter_all.
    - by rewrite <-list_fmap_compose.
    - intros ch (a & -> & Hin)%list_elem_of_fmap. cbn [change_path]. rewrite <-(proj1 (Ha a Hin)).
      apply starts_with_app. }
  exists ((λ item, default [] (files c !! item_path item)) <$> items [info c]).
  split; [|split].
  - rewrite Hitems, <-list_fmap_compose, <-additions_values.
    assert (((λ item, default [] (files c !! item_path item)) ∘
        λ a, (h, GitHubFileChange_mk (addition_path a) Added)) <$> additions objects =
      addition_bytes <$> additions objects) as ->; [|done].
    apply Forall_fmap_ext, list.Forall_forall. intros a Hin. cbn.
    unfold item_path; cbn. by rewrite Hfiles.
  - rewrite Hitems, <-list_fmap_compose. apply NoDup_additions.
  - apply Forall2_fmap_r, Forall2_same_length_lookup. split; [done|].
    intros i x y Hx Hy. simplify_eq. apply list_elem_of_lookup_2 in Hx.
    rewrite Hitems in Hx. apply list_elem_of_fmap in Hx as (a & -> & Hin).
    split; [done|]. unfold item_path. cbn. rewrite (Hfiles a Hin). cbn.
    split; [by apply Ha|]. exists c. split; [done|]. by apply Hfiles.
Qed.

(** Whatever else happens to the branch, a publication that was acknowledged is
    one new commit on the expected head. *)
Lemma publish_sound (base : option GitHubCommitOid) objects t :
  api_ok (api t) →
  outcome (GitHubTransport.publish base objects) t
    (λ t' answer, evolves t t' ∧ ∀ h, answer = Published h →
       ∃ k parent c, base = Some k ∧ h ≠ k ∧ commits (repo t) !! k = Some parent ∧
         commits (repo t) !! h = None ∧ commits (repo t') !! h = Some c ∧
         commit_on k parent (additions objects) h c)
    (λ t', evolves t t').
Proof.
  intros Hok. unfold GitHubTransport.publish.
  destruct (decide (objects = [])); [by apply evolves_refl|]. destruct base as [k|].
  - apply outcome_bind. eapply (outcome_on_api _ _ _ (λ x a', ∀ h, x = Created h →
      ∃ parent c, commits (repo t) !! k = Some parent ∧ commits (repo t) !! h = None ∧
        commits (repository a') !! h = Some c ∧ commit_on k parent (additions objects) h c)).
    { intros a' r Hr. eapply create_commit_law in Hr as [Hev Hcreated]; [|done|done|apply NoDup_additions].
      split; [exact Hev|]. intros x -> h ->. by apply Hcreated. }
    cbn beta. intros t1 x Hev Hx. destruct x as [h|cur]; [|by apply outcome_ret].
    destruct (Hx h eq_refl) as (parent & c & Hparent & Hfresh & Hc & Hon).
    destruct (decide (h = k)) as [|Hne]; [exact Hev|]. apply outcome_ret. split; [done|].
    intros h' [= <-]. by exists k, parent, c.
  - apply outcome_bind. eapply outcome_on_api; [intros a' r; by apply branch_head_law|]. cbn beta.
    intros t1 [h|] Hev _; [|exact Hev]. by apply outcome_ret.
Qed.

(** On a settled branch the expected head decides. *)
Lemma publish_settled k objects t :
  settled (api t) → objects ≠ [] →
  if decide (branch (repo t) = Some k) then
    can_commit (api t) → ∃ t' h, GitHubTransport.publish (Some k) objects t = (t', Ok (Published h)) ∧
      settled (api t') ∧ branch (repo t') = Some h
  else answers (GitHubTransport.publish (Some k) objects) t (Conflict (branch (repo t))).
Proof.
  intros Hs Hne. pose proof (settled_create (api t) k (additions objects) Hs (NoDup_additions objects)) as Hc.
  assert (∀ a' x, create_commit_on_branch k (additions objects) COMMIT_MESSAGE (api t) = (a', Ok x) →
    GitHubTransport.on_api (create_commit_on_branch k (additions objects) COMMIT_MESSAGE) t =
    (GitHubTransport_mk a' (max_incremental_commits t), Ok x)) as Hon.
  { intros a' x Hx. unfold GitHubTransport.on_api, on_field, map_err_st. by rewrite Hx. }
  assert (∀ t0, GitHubTransport.publish (Some k) objects t0 =
    (created ← GitHubTransport.on_api (create_commit_on_branch k (additions objects) COMMIT_MESSAGE);
     match created with
     | Created head => if decide (head = k) then throw InvalidCreatedHead else mret (Published head)
     | HeadChanged current_head => mret (Conflict current_head)
     end) t0) as Hpublish.
  { intros t0. unfold GitHubTransport.publish. by rewrite (decide_False (P := objects = [])) by done. }
  unfold answers.
  change (branch (repo t)) with (branch (repository (api t))).
  destruct (decide (branch (repository (api t)) = Some k)) as [Hb|Hb].
  - intros Hcan. destruct (Hc Hcan) as (a' & h & Hcreate & Hs' & Hb').
    pose proof (Hon _ _ Hcreate) as Hrun.
    destruct (create_commit_law _ _ _ _ _ _ (settled_ok _ Hs) eq_refl (NoDup_additions objects) Hcreate)
      as [_ Hnew]. destruct (Hnew h eq_refl) as (parent & c & Hparent & Hfresh & _).
    exists (GitHubTransport_mk a' (max_incremental_commits t)), h. rewrite Hpublish, st_bind, Hrun.
    rewrite decide_False by congruence. done.
  - destruct Hc as (a' & Hcreate & Hs' & Hr'). rewrite Hpublish, st_bind, (Hon _ _ Hcreate).
    eexists. split; [done|]. by split.
Qed.
End runs.
