(* ===== verification/GitHubFake.v ===== *)
(** * The in-memory branch of the transport's tests

    [FakeGitHubApi] of crates/apc-transport-github/src/lib.rs: one branch whose
    commits are numbered.  It discharges [GitHubApiLaws], and the properties of
    the transport are run on it. *)
From Stdlib Require Import Lia NArith Strings.Byte.
From stdpp Require Import base tactics option list gmap numbers.
From S2P Require Import Prelude Outcome BTree Bytes Text Transport GitHub GitHubLaws.
Local Open Scope N_scope.

Inductive FakeApiError : Type := FakeApiError_mk (message : list byte).

Record FakeGitHubApi : Type := FakeGitHubApi_mk {
  fake_head : option GitHubCommitOid;
  fake_commits : gmap GitHubCommitOid Commit;
  next_oid : N;
}.

(** [oid]: the number in forty hexadecimal digits. *)
Definition fake_oid (value : N) : GitHubCommitOid := GitHubCommitOid_mk (hex_padded 40 value).

Module FakeGitHubApi.
Definition seeded : FakeGitHubApi :=
  let root := fake_oid 1 in
  FakeGitHubApi_mk (Some root) {[root := Commit_mk (GitHubCommitInfo_mk root [] []) ∅]} 1.

(** The loop over the additions. *)
Fixpoint add_files (files : gmap (list byte) (list byte)) (changes : list GitHubFileChange)
    (additions : list GitHubFileAddition) : gmap (list byte) (list byte) * list GitHubFileChange :=
  match additions with
  | [] => (files, changes)
  | addition :: additions =>
      let kind := if decide (addition_path addition ∈ dom files) then Modified else Added in
      add_files (<[addition_path addition := addition_bytes addition]> files)
        (changes ++ [GitHubFileChange_mk (addition_path addition) kind]) additions
  end.

Definition branch_head : stateful FakeGitHubApi FakeApiError (option GitHubCommitOid) :=
  self ← get_state;
  mret (fake_head self).

(** [next_oid += 1] panics on overflow. *)
Definition create_commit_on_branch (expected_head : GitHubCommitOid)
    (additions : list GitHubFileAddition) (message : list byte) :
    stateful FakeGitHubApi FakeApiError GitHubCreateCommitResult :=
  self ← get_state;
  if decide (message ≠ COMMIT_MESSAGE) then lift_result Panic else
  if decide (fake_head self ≠ Some expected_head) then mret (HeadChanged (fake_head self)) else
  parent ← lift_result (ok_or (FakeApiError_mk (b_ "missing parent")) (fake_commits self !! expected_head));
  let '(files, changes) := add_files (files parent) [] additions in
  next ← lift_result (expect (u64_checked_add (next_oid self) 1));
  let head := fake_oid next in
  let info := GitHubCommitInfo_mk head [expected_head] changes in
  _ ← put_state (FakeGitHubApi_mk (Some head) (<[head := Commit_mk info files]> (fake_commits self)) next);
  mret (Created head).

Definition commit_info (o : GitHubCommitOid) : stateful FakeGitHubApi FakeApiError GitHubCommitInfo :=
  self ← get_state;
  lift_result (ok_or (FakeApiError_mk (b_ "unknown commit")) (info <$> fake_commits self !! o)).

Definition read_file_at (o : GitHubCommitOid) (path : list byte) :
    stateful FakeGitHubApi FakeApiError (list byte) :=
  self ← get_state;
  lift_result (ok_or (FakeApiError_mk (b_ "unknown file"))
    (commit ← fake_commits self !! o; files commit !! path)).
End FakeGitHubApi.

#[export] Instance fake_github_api : GitHubApi FakeGitHubApi := {|
  ApiError := FakeApiError;
  branch_head := FakeGitHubApi.branch_head;
  create_commit_on_branch := FakeGitHubApi.create_commit_on_branch;
  commit_info := FakeGitHubApi.commit_info;
  read_file_at := FakeGitHubApi.read_file_at;
|}.

(** ** The laws *)
Section laws.

Definition fake_ok a : Prop :=
  next_oid a ≤ u64_max ∧
  ∀ o, o ∈ dom (fake_commits a) → ∃ v, o = fake_oid v ∧ v ≤ next_oid a.

Definition fake_settled a : Prop :=
  fake_ok a ∧ ∀ o, fake_head a = Some o → o ∈ dom (fake_commits a).

Lemma fake_oid_inj x y : x ≤ u64_max → y ≤ u64_max → fake_oid x = fake_oid y → x = y.
Proof.
  assert (u64_max < 16 ^ N.of_nat 40) as Hlt by (by apply N.ltb_lt; vm_compute).
  intros Hx Hy Heq. apply (f_equal as_str) in Heq. apply hex_padded_inj in Heq; [done|lia..].
Qed.

(** [oid] never fails to build an identity. *)
Lemma fake_oid_new value : GitHubCommitOid.new (as_str (fake_oid value)) = Ok (fake_oid value).
Proof.
  unfold GitHubCommitOid.new, fake_oid. cbn [as_str]. rewrite hex_padded_ascii.
  rewrite bool_decide_eq_false_2; [done|]. intros Heq%(f_equal length). by rewrite length_hex_padded in Heq.
Qed.

Lemma add_files_cons fs ch (a : GitHubFileAddition) l :
  FakeGitHubApi.add_files fs ch (a :: l) =
  FakeGitHubApi.add_files (<[addition_path a := addition_bytes a]> fs)
    (ch ++ [GitHubFileChange_mk (addition_path a)
      (if decide (addition_path a ∈ dom fs) then Modified else Added)]) l.
Proof. reflexivity. Qed.

Lemma add_files_spec fs ch l :
  NoDup (addition_path <$> l) →
  (∀ p, p ∉ addition_path <$> l → (FakeGitHubApi.add_files fs ch l).1 !! p = fs !! p) ∧
  (∀ a, a ∈ l → (FakeGitHubApi.add_files fs ch l).1 !! addition_path a = Some (addition_bytes a)) ∧
  ((∀ a, a ∈ l → fs !! addition_path a = None) →
   (FakeGitHubApi.add_files fs ch l).2 =
     ch ++ ((λ a, GitHubFileChange_mk (addition_path a) Added) <$> l)).
Proof.
  revert fs ch. induction l as [|a l IH]; intros fs ch Hnd.
  - cbn. split; [done|]. split; [by intros a ?%not_elem_of_nil|]. by rewrite app_nil_r.
  - rewrite fmap_cons in *. apply list.NoDup_cons in Hnd as [Ha Hnd]. rewrite add_files_cons.
    destruct (IH (<[addition_path a := addition_bytes a]> fs)
      (ch ++ [GitHubFileChange_mk (addition_path a)
        (if decide (addition_path a ∈ dom fs) then Modified else Added)]) Hnd) as (IH1 & IH2 & IH3).
    split; [|split].
    + intros p [Hp1 Hp2]%not_elem_of_cons. rewrite IH1 by done. by rewrite lookup_insert_ne.
    + intros x [->|Hx]%elem_of_cons; [|by apply IH2]. rewrite IH1 by done. apply lookup_insert_eq.
    + intros Hnew. rewrite IH3.
      * rewrite decide_False by (apply not_elem_of_dom, Hnew; left). by rewrite <-app_assoc.
      * intros x Hx. rewrite lookup_insert_ne; [by apply Hnew; right|].
        intros Heq. apply Ha. rewrite Heq. by apply list_elem_of_fmap_2.
Qed.

(** What a commit does. *)
Lemma fake_create_cases a expected l :
  fake_ok a → NoDup (addition_path <$> l) →
  let run := FakeGitHubApi.create_commit_on_branch expected l COMMIT_MESSAGE a in
  if decide (fake_head a = Some expected) then
    match fake_commits a !! expected with
    | Some parent =>
        (next_oid a = u64_max ∧ run = (a, Panic)) ∨
        (next_oid a < u64_max ∧ ∃ c,
          let h := fake_oid (next_oid a + 1) in
          run = (FakeGitHubApi_mk (Some h) (<[h := c]> (fake_commits a)) (next_oid a + 1), Ok (Created h)) ∧
          fake_commits a !! h = None ∧ commit_on expected parent l h c)
    | None => run = (a, Err (FakeApiError_mk (b_ "missing parent")))
    end
  else run = (a, Ok (HeadChanged (fake_head a))).
Proof.
  intros [Hmax Hdom] Hnd run. subst run. unfold FakeGitHubApi.create_commit_on_branch. run_st.
  rewrite (decide_False (P := COMMIT_MESSAGE ≠ COMMIT_MESSAGE)) by auto.
  destruct (decide (fake_head a = Some expected)) as [Hh|Hh].
  2:{ by rewrite decide_True. }
  rewrite decide_False by auto. destruct (fake_commits a !! expected) as [parent|] eqn:Hparent; [|done].
  cbn [ok_or]. run_st. destruct (FakeGitHubApi.add_files (files parent) [] l) as [fs ch] eqn:Hadd.
  destruct (add_files_spec (files parent) [] l Hnd) as (_ & Hfiles & Hchanges). rewrite Hadd in *. cbn in *.
  unfold u64_checked_add. destruct (decide (next_oid a + 1 ≤ u64_max)) as [Hle|Hgt]; cbn [expect]; run_st.
  2:{ left. split; [lia|done]. }
  right. split; [lia|]. eexists. split; [done|]. split.
  - apply not_elem_of_dom. intros (v & Hv & Hle')%Hdom. apply fake_oid_inj in Hv; lia.
  - split; [done|]. split; [done|]. cbn [files info changes]. split; [exact Hfiles|].
    intros Hnew. by rewrite Hchanges.
Qed.

Lemma fake_create_ok a h c :
  fake_ok a → next_oid a < u64_max → h = fake_oid (next_oid a + 1) →
  fake_ok (FakeGitHubApi_mk (Some h) (<[h := c]> (fake_commits a)) (next_oid a + 1)).
Proof.
  intros [Hmax Hdom] Hlt ->. split; cbn; [lia|]. intros o Ho. rewrite dom_insert in Ho.
  apply elem_of_union in Ho as [->%elem_of_singleton|(v & -> & Hv)%Hdom]; eexists; split; [done|lia|done|lia].
Qed.

#[export] Instance fake_github_laws : GitHubApiLaws FakeGitHubApi.
Proof.
  refine {| repository a := Repository_mk (fake_head a) (fake_commits a); api_ok := fake_ok;
    settled := fake_settled; can_commit a := next_oid a < u64_max |}; cbn -[FakeGitHubApi.create_commit_on_branch COMMIT_MESSAGE].
  - intros a a' r Hok [= <- <-]. split; [by split|]. by intros h [= <-].
  - intros o a a' r Hok [= <- <-]. split; [by split|]. intros i Hi%ok_or_Ok.
    by apply fmap_Some in Hi as (c & Hc & ->); exists c.
  - intros o path a a' r Hok [= <- <-]. split; [by split|]. intros bytes Hb%ok_or_Ok.
    by apply bind_Some in Hb as (c & Hc & Hf); exists c.
  - intros expected l message a a' r Hok -> Hnd Hrun.
    pose proof (fake_create_cases a expected l Hok Hnd) as Hcases. cbn zeta in Hcases. rewrite Hrun in Hcases.
    destruct (decide (fake_head a = Some expected)); [|by injection Hcases as -> ->].
    destruct (fake_commits a !! expected) as [parent|] eqn:Hparent; [|by injection Hcases as -> ->].
    destruct Hcases as [[_ Heq]|(Hlt & c & Heq & Hfresh & Hon)]; [by injection Heq as -> ->|].
    injection Heq as -> ->. split.
    + split; [by apply fake_create_ok|]. cbn. by apply insert_subseteq.
    + intros h [= <-]. exists parent, c. split; [done|]. split; [done|]. split; [apply lookup_insert_eq|done].
  - by intros a [? ?].
  - intros a Hs. by exists a.
  - intros a o c Hs Hc. exists a. unfold FakeGitHubApi.commit_info. run_st. by rewrite Hc.
  - intros a o c path bytes Hs Hc Hf. exists a. unfold FakeGitHubApi.read_file_at. run_st. rewrite Hc. cbn.
    by rewrite Hf.
  - intros a expected l [Hok Hhead] Hnd.
    pose proof (fake_create_cases a expected l Hok Hnd) as Hcases. cbn zeta in Hcases.
    destruct (decide (fake_head a = Some expected)) as [Hh|Hh]; [|by exists a].
    intros Hlt. apply Hhead, elem_of_dom in Hh as [parent Hparent]. rewrite Hparent in Hcases.
    destruct Hcases as [[Heq _]|(_ & c & Heq & Hfresh & Hon)]; [lia|].
    eexists _, _. split; [exact Heq|]. split; [|done]. split; [by apply fake_create_ok|].
    intros o [= <-]. cbn. rewrite dom_insert. set_solver.
Defined.

Lemma seeded_settled : fake_settled FakeGitHubApi.seeded.
Proof.
  split; [split; [by apply N.leb_le; vm_compute|]|].
  - intros o Ho. unfold FakeGitHubApi.seeded in Ho. cbn [fake_commits] in Ho.
    rewrite dom_singleton in Ho. apply elem_of_singleton in Ho as ->. by exists 1.
  - intros o [= <-]. unfold FakeGitHubApi.seeded. cbn [fake_commits]. rewrite dom_singleton.
    by apply elem_of_singleton.
Qed.
End laws.
