(* ===== verification/GitHubCursor.v ===== *)
(** * Durable GitHub cursors (crates/apc-runtime/src/lib.rs)

    The codec that keeps a commit identity in a durable record, as its UTF-8
    bytes. *)
From Stdlib Require Import NArith Strings.Byte.
From stdpp Require Import base tactics option list.
From S2P Require Import Prelude BTree Bytes Text Recovery Session GitHub.

Record GitHubCursorCodec : Type := GitHubCursorCodec_mk {}.

Inductive GitHubCursorCodecError : Type :=
  | InvalidUtf8
  | InvalidCommitIdentity
  | InvalidTransportCursor.

Module GitHubCursorCodec.
Implicit Types self : GitHubCursorCodec.

Definition encode self (revision : GitHubCommitOid) : result GitHubCursorCodecError TransportCursor :=
  map_err (λ _, InvalidTransportCursor) (TransportCursor.new (as_str revision)).

(** [std::str::from_utf8]. *)
Definition decode self (cursor : TransportCursor) : result GitHubCursorCodecError GitHubCommitOid :=
  let bytes := cursor_bytes cursor in
  text ← (if utf8_valid bytes then Ok bytes else Err InvalidUtf8);
  map_err (λ _, InvalidCommitIdentity) (GitHubCommitOid.new text).
End GitHubCursorCodec.

#[export] Instance github_cursor_codec : TransportCursorCodec GitHubCursorCodec GitHubCommitOid := {|
  CursorError := GitHubCursorCodecError;
  encode := GitHubCursorCodec.encode;
  decode := GitHubCursorCodec.decode;
|}.

(** Identities and cursors as their constructors make them. *)
Definition oid_ok (o : GitHubCommitOid) : Prop := as_str o ≠ [] ∧ is_ascii (as_str o) = true.

Lemma oid_new value o : GitHubCommitOid.new value = Ok o ↔ o = GitHubCommitOid_mk value ∧ oid_ok o.
Proof.
  unfold GitHubCommitOid.new, oid_ok. destruct (bool_decide_reflect (value = [])), (is_ascii value) eqn:Ha;
    cbn; split; try done; naive_solver congruence.
Qed.

(** Encoding and decoding are inverse on identities. *)
Lemma cursor_round_trip codec o c :
  oid_ok o →
  (GitHubCursorCodec.encode codec o = Ok c ↔ c = TransportCursor_mk (as_str o)) ∧
  (GitHubCursorCodec.decode codec c = Ok o ↔ c = TransportCursor_mk (as_str o)).
Proof.
  intros [Hne Ha]. split.
  - unfold GitHubCursorCodec.encode, TransportCursor.new. rewrite decide_False by done. cbn. naive_solver.
  - unfold GitHubCursorCodec.decode. destruct c as [bytes]. cbn [cursor_bytes]. split.
    + destruct (utf8_valid bytes); [|done]. cbn. intros Ho%map_err_Ok%oid_new.
      destruct Ho as [-> _]. done.
    + intros [= ->]. rewrite utf8_is_ascii by done. cbn. rewrite map_err_Ok, oid_new. by destruct o.
Qed.
