(* ===== verification/TrustedState.v ===== *)
(** * The trusted-state codec (crates/apc-runtime/src/trusted_state.rs)

    The local recovery encoding of one scalar domain's snapshot.  Both
    directions go through [LocalScalarDomain::restore], so what is decoded is a
    state the domain accepts. *)
From Stdlib Require Import Lia NArith Strings.Byte.
From stdpp Require Import base tactics option list gmap numbers.
From S2P Require Import Prelude BTree Bytes Id Error Worklist Scalar Causal Merge ScalarMerge.
From S2P Require Import Working Finalization Domain Reader RegisterCodec.
Local Open Scope N_scope.

(** [TrustedStateCodec] of crates/apc-runtime/src/publication.rs. *)
Class TrustedStateCodec (C S : Type) := {
  TrustedError : Type;
  encode_trusted : C → S → result TrustedError (list byte);
  decode_trusted : C → list byte → result TrustedError S;
}.

Definition MAGIC : list byte := b_ "APCLREC1".
Definition VERSION : N := 1.

Record DevelopmentScalarTrustedStateCodec : Type := DevelopmentScalarTrustedStateCodec_mk {}.

Inductive TrustedStateCodecError : Type :=
  | InvalidMagic
  | UnsupportedVersion (version : N)
  | UnexpectedEof
  | LengthOverflow
  | TrailingBytes
  | InvalidBoolean
  | DuplicateRevisionInSet
  | DuplicateFinalizedStatement
  | Core (error : CoreError).

#[export] Instance TrustedStateCodecError_eq_dec : EqDecision TrustedStateCodecError.
Proof. solve_decision. Defined.

#[export] Instance trusted_read_error : ReadError TrustedStateCodecError := {|
  length_overflow := LengthOverflow;
  unexpected_eof := UnexpectedEof;
|}.
#[export] Instance trusted_register_error : RegisterError TrustedStateCodecError := {|
  duplicate_revision_in_set := DuplicateRevisionInSet;
  core_error := Core;
|}.

(** ** Encoding *)

(** [register.validate()?] comes first here; the rest is the projection
    codec's. *)
Definition write_register (register : ScalarRegister (list byte)) :
    stateful (list byte) TrustedStateCodecError unit :=
  _ ← lift_result (map_err Core (ScalarRegister.validate register));
  RegisterCodec.write_register register.

Definition write_pending (pending : option (WorkingEpoch (list byte))) :
    stateful (list byte) TrustedStateCodecError unit :=
  match pending with
  | None => extend [x00]
  | Some epoch =>
      _ ← extend [x01];
      _ ← extend (id_slice (we_id epoch));
      _ ← write_bytes (we_value epoch);
      write_id_set (observed_frontier epoch)
  end.

Definition write_statement (entry : RevisionId * FinalizedStatement (list byte)) :
    stateful (list byte) TrustedStateCodecError unit :=
  let '(revision_id, statement) := entry in
  _ ← extend (id_slice revision_id);
  _ ← write_bytes (st_value statement);
  write_id_set (st_parents statement).

Definition write_finalized (finalized : gmap RevisionId (FinalizedStatement (list byte))) :
    stateful (list byte) TrustedStateCodecError unit :=
  _ ← write_len (N.of_nat (size finalized));
  write_each write_statement (entries_asc finalized).

Definition write_snapshot (snapshot : LocalScalarSnapshot (list byte)) :
    stateful (list byte) TrustedStateCodecError unit :=
  let working := lss_working snapshot in
  let finalization := lss_finalization snapshot in
  _ ← extend MAGIC;
  _ ← extend (be_bytes 2 VERSION);
  _ ← write_register (ws_causal working);
  _ ← write_pending (ws_pending working);
  _ ← write_id_set (fs_local_revision_ids finalization);
  _ ← write_finalized (fs_finalized finalization);
  _ ← write_id_set (fs_exposed_local_ids finalization);
  write_id_set (fs_handed_off_local_ids finalization).

Definition encode_local_scalar_snapshot (snapshot : LocalScalarSnapshot (list byte)) :
    result TrustedStateCodecError (list byte) :=
  _ ← map_err Core (LocalScalarDomain.restore snapshot);
  run_writer (write_snapshot snapshot).

(** ** Decoding *)
Definition read_pending : stateful Reader TrustedStateCodecError (option (WorkingEpoch (list byte))) :=
  flag ← Reader.read_u8;
  if decide (flag = 0) then mret None else
  if decide (flag = 1) then
    id ← Reader.read_id;
    value ← Reader.read_vec;
    observed_frontier ← read_id_set;
    mret (Some (WorkingEpoch_mk id value observed_frontier))
  else throw InvalidBoolean.

Definition read_statement (finalized : gmap RevisionId (FinalizedStatement (list byte))) :
    stateful Reader TrustedStateCodecError (gmap RevisionId (FinalizedStatement (list byte))) :=
  revision_id ← Reader.read_id;
  value ← Reader.read_vec;
  parents ← read_id_set;
  match finalized !! revision_id with
  | Some _ => throw DuplicateFinalizedStatement
  | None => mret (<[revision_id := FinalizedStatement_mk revision_id value parents]> finalized)
  end.

Definition read_snapshot : stateful Reader TrustedStateCodecError (LocalScalarSnapshot (list byte)) :=
  causal ← read_register;
  pending ← read_pending;
  local_revision_ids ← read_id_set;
  finalized_count ← Reader.read_len;
  finalized ← repeat_n read_statement finalized_count ∅;
  exposed_local_ids ← read_id_set;
  handed_off_local_ids ← read_id_set;
  mret (LocalScalarSnapshot_mk (WorkingSnapshot_mk causal pending)
    (FinalizationSnapshot_mk local_revision_ids finalized exposed_local_ids handed_off_local_ids)).

Definition decode_local_scalar_snapshot (encoded : list byte) :
    result TrustedStateCodecError (LocalScalarSnapshot (list byte)) :=
  run_reader
    (magic ← Reader.read_exact (len MAGIC);
     if decide (magic ≠ MAGIC) then throw InvalidMagic else
     version ← Reader.read_u16;
     if decide (version ≠ VERSION) then throw (UnsupportedVersion version) else
     snapshot ← read_snapshot;
     self ← get_state;
     if negb (Reader.is_finished self) then throw TrailingBytes else
     _ ← lift_result (map_err Core (LocalScalarDomain.restore snapshot));
     mret snapshot) encoded.

#[export] Instance development_scalar_codec :
  TrustedStateCodec DevelopmentScalarTrustedStateCodec (LocalScalarSnapshot (list byte)) := {|
  TrustedError := TrustedStateCodecError;
  encode_trusted _ := encode_local_scalar_snapshot;
  decode_trusted _ := decode_local_scalar_snapshot;
|}.

(** ** The grammar *)
Definition g_pending : grammar (option (WorkingEpoch (list byte))) := λ c o,
  match o with
  | None => c = be_bytes 1 0
  | Some epoch => ∃ c1 c2, c = be_bytes 1 1 ++ id_slice (we_id epoch) ++ c1 ++ c2 ∧
      g_bytes c1 (we_value epoch) ∧ g_id_set c2 (observed_frontier epoch)
  end.

Definition g_statement : grammar (RevisionId * FinalizedStatement (list byte)) := λ c kr,
  st_revision_id kr.2 = kr.1 ∧
  ∃ c1 c2, c = id_slice kr.1 ++ c1 ++ c2 ∧ g_bytes c1 (st_value kr.2) ∧ g_id_set c2 (st_parents kr.2).

Definition g_finalized : grammar (gmap RevisionId (FinalizedStatement (list byte))) := λ c m,
  ∃ l, g_counted g_statement c l ∧ NoDup l.*1 ∧ m = list_to_map l.

Definition g_snapshot : grammar (LocalScalarSnapshot (list byte)) := λ c s,
  ∃ c1 c2 c3 c4 c5 c6, c = c1 ++ c2 ++ c3 ++ c4 ++ c5 ++ c6 ∧
    g_register c1 (ws_causal (lss_working s)) ∧ g_pending c2 (ws_pending (lss_working s)) ∧
    g_id_set c3 (fs_local_revision_ids (lss_finalization s)) ∧
    g_finalized c4 (fs_finalized (lss_finalization s)) ∧
    g_id_set c5 (fs_exposed_local_ids (lss_finalization s)) ∧
    g_id_set c6 (fs_handed_off_local_ids (lss_finalization s)).

Definition g_trusted : grammar (LocalScalarSnapshot (list byte)) := λ c s,
  is_ok (LocalScalarDomain.restore s) ∧ ∃ c1, c = MAGIC ++ be_bytes 2 VERSION ++ c1 ∧ g_snapshot c1 s.

(** ** The decoder *)
Lemma accepts_pending : accepts read_pending g_pending.
Proof.
  eapply accepts_ext.
  - apply accepts_bind; [apply (accepts_read_be 1)|]. intros _ flag _.
    apply accepts_if; [apply accepts_ret|]. apply accepts_if; [|apply accepts_throw].
    apply accepts_bind; [apply accepts_read_id|]. intros _ id _.
    apply accepts_bind; [apply accepts_read_vec|]. intros _ value _.
    apply accepts_bind; [apply accepts_id_set|]. intros _ frontier _. apply accepts_ret.
  - intros c o. unfold g_pending. split.
    + intros (c1 & c2 & flag & -> & [_ ->] & Hrest). case_decide as H0; [subst|].
      { destruct Hrest as [-> ->]. by rewrite app_nil_r. }
      case_decide as H1; [subst|done].
      destruct Hrest as (? & ? & id & -> & -> & c3 & ? & v & -> & Hv & c4 & ? & f & -> & Hf & -> & ->).
      exists c3, c4. by rewrite app_nil_r.
    + destruct o as [[id v f]|]; cbn.
      * intros (c1 & c2 & -> & Hv & Hf). exists (be_bytes 1 1), (id_slice id ++ c1 ++ c2), 1.
        split; [done|]. split; [done|]. rewrite decide_False, decide_True by done.
        exists (id_slice id), (c1 ++ c2), id. split; [done|]. split; [done|].
        exists c1, c2, v. split; [done|]. split; [done|]. exists c2, [], f. by rewrite app_nil_r.
      * intros ->. by exists (be_bytes 1 0), [], 0.
Qed.

Lemma accepts_statement m :
  accepts (read_statement m) (λ c m', ∃ kr, g_statement c kr ∧ map_add m kr = Some m').
Proof.
  eapply accepts_ext.
  - apply accepts_bind; [apply accepts_read_id|]. intros _ id _.
    apply accepts_bind; [apply accepts_read_vec|]. intros _ value _.
    apply (accepts_item _ _ _ (λ parents, map_add m (id, FinalizedStatement_mk id value parents)) accepts_id_set).
    intros parents. unfold map_add; cbn. destruct (m !! id); eauto.
  - intros c m'. unfold g_statement. split.
    + intros (? & ? & id & -> & -> & c1 & c2 & v & -> & Hv & ps & Hps & Hadd).
      exists (id, FinalizedStatement_mk id v ps). split; [|done]. split; [done|]. by exists c1, c2.
    + intros ([id [id' v ps]] & [Hid (c1 & c2 & -> & Hv & Hps)] & Hadd). cbn in *. subst id'.
      exists (id_slice id), (c1 ++ c2), id. split; [done|]. split; [done|]. exists c1, c2, v. eauto 10.
Qed.

Lemma accepts_finalized_then {D} (k : gmap RevisionId (FinalizedStatement (list byte)) → stateful Reader TrustedStateCodecError D) H :
  (∀ m, accepts (k m) (H m)) →
  accepts (n ← Reader.read_len; m ← repeat_n read_statement n ∅; k m)
    (λ c y, ∃ c1 c2 m, c = c1 ++ c2 ∧ g_finalized c1 m ∧ H m c2 y).
Proof.
  intros Hk. eapply accepts_ext; [apply (accepts_counted_then g_statement map_add); [apply accepts_statement|exact Hk]|].
  intros c y. unfold g_finalized. setoid_rewrite foldl_map_add. split.
  - intros (c1 & c2 & l & m & -> & Hl & (Hnd & _ & ->) & Hy). exists c1, c2, (list_to_map l).
    rewrite map_union_empty in Hy. split; [done|]. split; [by exists l|done].
  - intros (c1 & c2 & m & -> & (l & Hl & Hnd & ->) & Hy). exists c1, c2, l, (list_to_map l).
    split; [done|]. split; [done|]. split; [|done]. split; [done|]. rewrite map_union_empty.
    split; [|done]. intros k' _. apply lookup_empty.
Qed.

Lemma accepts_snapshot : accepts read_snapshot g_snapshot.
Proof.
  eapply accepts_ext.
  - apply accepts_bind; [apply accepts_register|]. intros _ causal _.
    apply accepts_bind; [apply accepts_pending|]. intros _ pending _.
    apply accepts_bind; [apply accepts_id_set|]. intros _ local _.
    apply accepts_finalized_then. intros finalized.
    apply accepts_bind; [apply accepts_id_set|]. intros _ exposed _.
    apply accepts_bind; [apply accepts_id_set|]. intros _ handed _. apply accepts_ret.
  - intros c s. unfold g_snapshot. split.
    + intros (c1 & ? & causal & -> & H1 & c2 & ? & pending & -> & H2 & c3 & ? & local & -> & H3 &
        c4 & ? & finalized & -> & H4 & c5 & ? & exposed & -> & H5 & c6 & ? & handed & -> & H6 & -> & ->).
      exists c1, c2, c3, c4, c5, c6. by rewrite app_nil_r.
    + destruct s as [[causal pending] [local finalized exposed handed]].
      intros (c1 & c2 & c3 & c4 & c5 & c6 & -> & H1 & H2 & H3 & H4 & H5 & H6). cbn in *.
      exists c1, (c2 ++ c3 ++ c4 ++ c5 ++ c6), causal. split; [done|]. split; [done|].
      exists c2, (c3 ++ c4 ++ c5 ++ c6), pending. split; [done|]. split; [done|].
      exists c3, (c4 ++ c5 ++ c6), local. split; [done|]. split; [done|].
      exists c4, (c5 ++ c6), finalized. split; [done|]. split; [done|].
      exists c5, c6, exposed. split; [done|]. split; [done|].
      exists c6, [], handed. by rewrite app_nil_r.
Qed.

Lemma restore_not_panic (s : LocalScalarSnapshot (list byte)) : LocalScalarDomain.restore s ≠ Panic.
Proof.
  unfold LocalScalarDomain.restore. intros [Hp|(w & _ & Hp)]%bind_Panic.
  - unfold WorkingScalar.restore in Hp. apply bind_Panic in Hp as [Hp|(? & _ & Hp)]; [by apply validate_not_panic in Hp|].
    apply bind_Panic in Hp as [Hp|(? & _ & [=])]. destruct (ws_pending _); [by case_decide|done].
  - apply bind_Panic in Hp as [Hp|(? & _ & [=])]. unfold FinalizationLedger.restore in Hp. cbn zeta in Hp.
    apply bind_Panic in Hp as [Hp|(? & _ & Hp)]; [by case_decide|].
    apply bind_Panic in Hp as [Hp|(? & _ & Hp)].
    { revert Hp. apply try_for_each_not_panic. intros y. by destruct (ScalarRegister.revision _ _). }
    apply bind_Panic in Hp as [Hp|(? & _ & [=])]. unfold FinalizationLedger.validate_against in Hp.
    apply bind_Panic in Hp as [Hp|(? & _ & Hp)]; [by apply validate_not_panic in Hp|].
    revert Hp. apply try_for_each_not_panic. intros [y st]. unfold FinalizationLedger.validate_statement.
    destruct (ScalarRegister.revision _ _); cbn; [by case_decide|done].
Qed.

(** The end of the decoder: nothing is left and the domain accepts it. *)
Lemma decodes_restored (s : LocalScalarSnapshot (list byte)) :
  decodes (self ← get_state;
     if negb (Reader.is_finished self) then throw TrailingBytes else
     _ ← lift_result (map_err Core (LocalScalarDomain.restore s));
     mret s) (λ c s', c = [] ∧ is_ok (LocalScalarDomain.restore s) ∧ s' = s).
Proof.
  intros r Hr. run_st. pose proof (rest_finished r Hr) as Hfin. pose proof (restore_not_panic s) as Hnp.
  unfold is_ok. destruct (Reader.is_finished r); cbn [negb].
  - run_st. destruct (LocalScalarDomain.restore s); cbn; split; try done; naive_solver.
  - split; [done|]. intros a. split; [done|]. intros (Hrest & _). by apply Hfin in Hrest.
Qed.

Lemma decode_trusted_spec encoded :
  len encoded ≤ isize_max →
  decode_local_scalar_snapshot encoded ≠ Panic ∧
  ∀ s, decode_local_scalar_snapshot encoded = Ok s ↔ g_trusted encoded s.
Proof.
  intros Hlen. apply run_reader_decodes; [|done]. eapply decodes_ext.
  - apply decodes_bind; [apply accepts_read_exact|]. intros _ magic _.
    apply decodes_require. apply decodes_bind; [apply (accepts_read_be 2)|]. intros _ version _.
    apply decodes_require. apply decodes_bind; [apply accepts_snapshot|]. intros _ s _. apply decodes_restored.
  - intros c s. unfold g_trusted. split.
    + intros (? & ? & m & -> & [-> _] & -> & ? & ? & v & -> & [_ ->] & -> & c1 & ? & s' & -> & Hs & -> & Hr & ->).
      split; [done|]. exists c1. by rewrite app_nil_r.
    + intros (Hr & c1 & -> & Hs). exists MAGIC, (be_bytes 2 VERSION ++ c1), MAGIC.
      split; [done|]. split; [done|]. split; [done|].
      exists (be_bytes 2 VERSION), c1, VERSION. split; [done|]. split; [done|]. split; [done|].
      exists c1, [], s. by rewrite app_nil_r.
Qed.

(** ** The encoder *)
Definition pending_fits (o : option (WorkingEpoch (list byte))) : Prop :=
  ∀ epoch, o = Some epoch → len (we_value epoch) ≤ u64_max ∧ N.of_nat (size (observed_frontier epoch)) ≤ u64_max.

Definition statement_fits (kr : RevisionId * FinalizedStatement (list byte)) : Prop :=
  len (st_value kr.2) ≤ u64_max ∧ N.of_nat (size (st_parents kr.2)) ≤ u64_max.

Definition set_fits (ids : gset RevisionId) : Prop := N.of_nat (size ids) ≤ u64_max.

Definition finalized_fits (m : gmap RevisionId (FinalizedStatement (list byte))) : Prop :=
  N.of_nat (size m) ≤ u64_max ∧ ∀ x st, m !! x = Some st → statement_fits (x, st).

(** Every length fits the format's 64-bit fields. *)
Definition snapshot_fits (s : LocalScalarSnapshot (list byte)) : Prop :=
  register_fits (ws_causal (lss_working s)) ∧ pending_fits (ws_pending (lss_working s)) ∧
  set_fits (fs_local_revision_ids (lss_finalization s)) ∧
  finalized_fits (fs_finalized (lss_finalization s)) ∧
  set_fits (fs_exposed_local_ids (lss_finalization s)) ∧
  set_fits (fs_handed_off_local_ids (lss_finalization s)).

Lemma writes_pending o : writes (write_pending o) (pending_fits o) (λ enc, g_pending enc o).
Proof.
  unfold pending_fits. destruct o as [epoch|]; cbn [write_pending].
  - eapply writes_ext.
    + apply writes_bind; [apply writes_extend|]. apply writes_bind; [apply writes_extend|].
      apply writes_bind; [apply writes_bytes|apply writes_id_set].
    + naive_solver.
    + intros enc (? & ? & -> & -> & ? & ? & -> & -> & c1 & c2 & -> & Hv & Hf). by exists c1, c2.
  - eapply writes_ext; [apply writes_extend|naive_solver|done].
Qed.

Lemma writes_statement x st :
  st_revision_id st = x → writes (write_statement (x, st)) (statement_fits (x, st)) (λ enc, g_statement enc (x, st)).
Proof.
  intros Hx. eapply writes_ext.
  - apply writes_bind; [apply writes_extend|]. apply writes_bind; [apply writes_bytes|apply writes_id_set].
  - unfold statement_fits. naive_solver.
  - intros enc (? & ? & -> & -> & c1 & c2 & -> & Hv & Hp). split; [done|]. by exists c1, c2.
Qed.

Lemma writes_finalized m :
  (∀ x st, m !! x = Some st → st_revision_id st = x) →
  writes (write_finalized m) (finalized_fits m) (λ enc, g_finalized enc m).
Proof.
  intros Hst. unfold write_finalized. rewrite <-length_entries_asc. eapply writes_ext.
  - apply (writes_counted write_statement statement_fits g_statement).
    intros [x st] Hx%elem_of_entries_asc. by apply writes_statement, Hst.
  - unfold finalized_fits, len. rewrite length_entries_asc. split.
    + intros [Hlen Hall]. split; [done|]. intros x st Hx. by apply Hall, elem_of_entries_asc.
    + intros [Hlen Hall]. split; [done|]. intros [x st] Hx%elem_of_entries_asc. by apply Hall.
  - intros enc Henc. exists (entries_asc m). split; [done|]. split; [apply NoDup_entries_asc|].
    by rewrite list_to_map_entries_asc.
Qed.

Lemma writes_trusted_register r :
  valid r → writes (write_register r) (register_fits r) (λ enc, g_register enc r).
Proof.
  intros Hv. eapply writes_ext.
  - apply writes_bind; [apply writes_lift|by apply RegisterCodec.writes_register].
    rewrite map_err_Panic. apply validate_not_panic.
  - unfold is_ok. setoid_rewrite map_err_Ok. setoid_rewrite (validate_valid r); [|apply Hv]. naive_solver.
  - by intros enc (? & ? & -> & -> & Hr).
Qed.

Lemma encode_trusted_spec s :
  keyed (ws_causal (lss_working s)) →
  encode_local_scalar_snapshot s ≠ Panic ∧
  (is_ok (encode_local_scalar_snapshot s) ↔ is_ok (LocalScalarDomain.restore s) ∧ snapshot_fits s) ∧
  ∀ enc, encode_local_scalar_snapshot s = Ok enc → g_trusted enc s.
Proof.
  intros Hk. unfold encode_local_scalar_snapshot.
  destruct (LocalScalarDomain.restore s) as [d|e|] eqn:Hr; cbn [map_err mbind result_bind];
    [|by split; [|split; [split; [intros []|intros [[] _]]|]]|by apply restore_not_panic in Hr].
  pose proof Hr as (Hs & [Hv _] & Hl)%domain_restore_Ok; [|done].
  set (fz := lss_finalization s).
  assert (∀ x st, fs_finalized fz !! x = Some st → st_revision_id st = x) as Hst.
  { subst fz. rewrite Hs. intros x st Hx. destruct Hl as (_ & _ & _ & _ & Hf).
    destruct (Hf x st Hx) as (rev & Hrev & ->). cbn. by apply (proj1 Hv). }
  assert (valid (ws_causal (lss_working s))) as Hv' by by rewrite Hs.
  destruct (run_writer_spec (write_snapshot s) (snapshot_fits s) (λ enc, g_trusted enc s)) as (Hok & Hnp & Henc).
  { unfold write_snapshot. cbn zeta. fold fz. eapply writes_ext.
    - do 2 (apply writes_bind; [apply writes_extend|]).
      apply writes_bind; [by apply writes_trusted_register|].
      apply writes_bind; [apply writes_pending|]. apply writes_bind; [apply writes_id_set|].
      apply writes_bind; [by apply writes_finalized|].
      apply writes_bind; apply writes_id_set.
    - unfold snapshot_fits, set_fits, finalized_fits. fold fz. naive_solver.
    - intros enc (? & ? & -> & -> & ? & ? & -> & -> & c1 & ? & -> & H1 & c2 & ? & -> & H2 & c3 & ? & -> & H3 &
        c4 & ? & -> & H4 & c5 & c6 & -> & H5 & H6).
      split; [by exists d|]. eexists. split; [done|]. by exists c1, c2, c3, c4, c5, c6. }
  split; [done|]. split; [|done]. rewrite Hok. split; [intros Hf; split; [by exists d|done]|by intros [_ ?]].
Qed.
