(* ===== verification/TrustedStateSet.v ===== *)
(** * The trusted state of several domains (crates/apc-runtime/src/trusted_state_set.rs)

    [LocalScalarRecoveryState] holds one local snapshot per merge domain.  No
    operation touches more than one of them.  The codec nests the encoding of one
    domain's snapshot, so both directions go through [LocalScalarDomain::restore]. *)
From Stdlib Require Import Lia NArith Strings.Byte.
From stdpp Require Import base tactics option list gmap numbers.
From S2P Require Import Prelude BTree Bytes Id Error Worklist Scalar Causal Merge ScalarMerge.
From S2P Require Import Working Finalization Domain Reader RegisterCodec Projection Codec TrustedState.
Local Open Scope N_scope.

Record LocalScalarRecoveryState : Type := LocalScalarRecoveryState_mk {
  recovery_domains : gmap DomainKey (LocalScalarSnapshot (list byte));
}.

Inductive LocalScalarRecoveryStateError : Type :=
  | StateDuplicateDomain
  | StateCore (error : CoreError).

#[export] Instance LocalScalarRecoveryState_eq_dec : EqDecision LocalScalarRecoveryState.
Proof. solve_decision. Defined.
#[export] Instance LocalScalarRecoveryStateError_eq_dec : EqDecision LocalScalarRecoveryStateError.
Proof. solve_decision. Defined.

Module LocalScalarRecoveryState.
Implicit Types (self : LocalScalarRecoveryState) (key : DomainKey) (snapshot : LocalScalarSnapshot (list byte)).

Definition new : LocalScalarRecoveryState := LocalScalarRecoveryState_mk ∅.

(** [LocalScalarDomain::restore(snapshot.clone())?]: only whether it succeeds. *)
Definition check_snapshot snapshot : result LocalScalarRecoveryStateError unit :=
  _ ← map_err StateCore (LocalScalarDomain.restore snapshot);
  Ok tt.

Definition from_domains (domains : gmap DomainKey (LocalScalarSnapshot (list byte))) :
    result LocalScalarRecoveryStateError LocalScalarRecoveryState :=
  _ ← try_for_each check_snapshot (values_asc domains);
  Ok (LocalScalarRecoveryState_mk domains).

Definition state_len self : N := N.of_nat (size (recovery_domains self)).
Definition is_empty self : bool := bool_decide (recovery_domains self = ∅).
Definition get self key : option (LocalScalarSnapshot (list byte)) := recovery_domains self !! key.

Definition insert_new key snapshot : stateful LocalScalarRecoveryState LocalScalarRecoveryStateError unit :=
  self ← get_state;
  match recovery_domains self !! key with
  | Some _ => throw StateDuplicateDomain
  | None =>
      _ ← lift_result (check_snapshot snapshot);
      put_state (LocalScalarRecoveryState_mk (<[key := snapshot]> (recovery_domains self)))
  end.

Definition replace_domain key snapshot :
    stateful LocalScalarRecoveryState LocalScalarRecoveryStateError (option (LocalScalarSnapshot (list byte))) :=
  _ ← lift_result (check_snapshot snapshot);
  self ← get_state;
  _ ← put_state (LocalScalarRecoveryState_mk (<[key := snapshot]> (recovery_domains self)));
  mret (recovery_domains self !! key).

Definition restore_domain self key : result CoreError (option (LocalScalarDomain (list byte))) :=
  transpose (LocalScalarDomain.restore <$> recovery_domains self !! key).
End LocalScalarRecoveryState.

(** ** The codec *)
Definition MAGIC : list byte := b_ "APCLSET1".
Definition VERSION : N := 1.

Record DevelopmentMultiScalarTrustedStateCodec : Type := DevelopmentMultiScalarTrustedStateCodec_mk {}.

Inductive MultiScalarTrustedStateCodecError : Type :=
  | InvalidMagic
  | UnsupportedVersion (version : N)
  | UnexpectedEof
  | LengthOverflow
  | TrailingBytes
  | DuplicateDomain
  | Domain (error : ProjectionError)
  | Scalar (error : TrustedStateCodecError).

#[export] Instance MultiScalarTrustedStateCodecError_eq_dec : EqDecision MultiScalarTrustedStateCodecError.
Proof. solve_decision. Defined.

#[export] Instance multi_read_error : ReadError MultiScalarTrustedStateCodecError := {|
  length_overflow := LengthOverflow;
  unexpected_eof := UnexpectedEof;
|}.

(** The body of the loop of the encoder. *)
Definition write_recovery_domain (entry : DomainKey * LocalScalarSnapshot (list byte)) :
    stateful (list byte) MultiScalarTrustedStateCodecError unit :=
  let '(key, snapshot) := entry in
  _ ← extend (id_slice (dk_atom_id key));
  _ ← write_bytes (dk_domain key);
  scalar ← lift_result (map_err Scalar (encode_local_scalar_snapshot snapshot));
  write_bytes scalar.

Definition encode_multi_scalar_recovery_state (state : LocalScalarRecoveryState) :
    result MultiScalarTrustedStateCodecError (list byte) :=
  run_writer
    (_ ← extend MAGIC;
     _ ← extend (be_bytes 2 VERSION);
     _ ← write_len (LocalScalarRecoveryState.state_len state);
     write_each write_recovery_domain (entries_asc (recovery_domains state))).

(** The body of the loop of the decoder. *)
Definition read_recovery_domain (domains : gmap DomainKey (LocalScalarSnapshot (list byte))) :
    stateful Reader MultiScalarTrustedStateCodecError (gmap DomainKey (LocalScalarSnapshot (list byte))) :=
  atom_id ← Reader.read_id;
  domain ← Reader.read_vec;
  key ← lift_result (map_err Domain (DomainKey.new atom_id domain));
  scalar_bytes ← Reader.read_vec;
  snapshot ← lift_result (map_err Scalar (decode_local_scalar_snapshot scalar_bytes));
  match domains !! key with
  | Some _ => throw DuplicateDomain
  | None => mret (<[key := snapshot]> domains)
  end.

Definition decode_multi_scalar_recovery_state (encoded : list byte) :
    result MultiScalarTrustedStateCodecError LocalScalarRecoveryState :=
  run_reader
    (magic ← Reader.read_exact (len MAGIC);
     if decide (magic ≠ MAGIC) then throw InvalidMagic else
     version ← Reader.read_u16;
     if decide (version ≠ VERSION) then throw (UnsupportedVersion version) else
     count ← Reader.read_len;
     domains ← repeat_n read_recovery_domain count ∅;
     self ← get_state;
     if negb (Reader.is_finished self) then throw TrailingBytes
     else mret (LocalScalarRecoveryState_mk domains)) encoded.

#[export] Instance development_multi_codec :
  TrustedStateCodec DevelopmentMultiScalarTrustedStateCodec LocalScalarRecoveryState := {|
  TrustedError := MultiScalarTrustedStateCodecError;
  encode_trusted _ := encode_multi_scalar_recovery_state;
  decode_trusted _ := decode_multi_scalar_recovery_state;
|}.

(** * Laws of the container

    Which snapshots a container may hold, what its operations do to them, and
    that its codec is exact. *)

(** ** Containers *)
Section containers.
Implicit Types (rs : LocalScalarRecoveryState) (k : DomainKey) (s : LocalScalarSnapshot (list byte)).
Implicit Types (d : LocalScalarDomain (list byte)).

(** The type's invariant: [LocalScalarDomain::restore] accepts every snapshot. *)
Definition recovery_valid rs : Prop :=
  ∀ k s, recovery_domains rs !! k = Some s → is_ok (LocalScalarDomain.restore s).

(** What a program builds: snapshots of well-formed domains under keys of
    [DomainKey::new]. *)
Definition recovery_ok rs : Prop :=
  ∀ k s, recovery_domains rs !! k = Some s → dk_domain k ≠ [] ∧ ∃ d, domain_ok d ∧ s = LocalScalarDomain.snapshot d.

Lemma recovery_ok_valid rs : recovery_ok rs → recovery_valid rs.
Proof. intros Hok k s (_ & d & Hd & ->)%Hok. exists d. by apply domain_restore_snapshot. Qed.

Lemma new_recovery_ok : recovery_ok LocalScalarRecoveryState.new.
Proof. intros k s. cbn. by rewrite lookup_empty. Qed.

Definition with_domain rs k s : LocalScalarRecoveryState :=
  LocalScalarRecoveryState_mk (<[k := s]> (recovery_domains rs)).

Lemma with_domain_ok rs k d :
  recovery_ok rs → dk_domain k ≠ [] → domain_ok d → recovery_ok (with_domain rs k (LocalScalarDomain.snapshot d)).
Proof. intros Hok Hk Hd k' s. cbn. rewrite lookup_insert_Some. intros [[<- <-]|[_ Hs]]; [by eauto|by apply Hok]. Qed.

Lemma check_snapshot_Ok s u : LocalScalarRecoveryState.check_snapshot s = Ok u ↔ is_ok (LocalScalarDomain.restore s).
Proof.
  unfold LocalScalarRecoveryState.check_snapshot, is_ok. destruct u.
  destruct (LocalScalarDomain.restore s); cbn; naive_solver.
Qed.

Lemma insert_new_cases k s rs :
  LocalScalarRecoveryState.insert_new k s rs =
  match recovery_domains rs !! k, LocalScalarDomain.restore s with
  | Some _, _ => (rs, Err StateDuplicateDomain)
  | None, Ok _ => (with_domain rs k s, Ok tt)
  | None, Err e => (rs, Err (StateCore e))
  | None, Panic => (rs, Panic)
  end.
Proof.
  unfold LocalScalarRecoveryState.insert_new, LocalScalarRecoveryState.check_snapshot. run_st.
  destruct (recovery_domains rs !! k); [done|]. run_st. by destruct (LocalScalarDomain.restore s).
Qed.

Lemma replace_domain_cases k s rs :
  LocalScalarRecoveryState.replace_domain k s rs =
  match LocalScalarDomain.restore s with
  | Ok _ => (with_domain rs k s, Ok (recovery_domains rs !! k))
  | Err e => (rs, Err (StateCore e))
  | Panic => (rs, Panic)
  end.
Proof.
  unfold LocalScalarRecoveryState.replace_domain, LocalScalarRecoveryState.check_snapshot. run_st.
  by destruct (LocalScalarDomain.restore s).
Qed.

Lemma restore_domain_cases rs k :
  recovery_ok rs →
  LocalScalarRecoveryState.restore_domain rs k = Ok None ∧ recovery_domains rs !! k = None ∨
  ∃ d, LocalScalarRecoveryState.restore_domain rs k = Ok (Some d) ∧ domain_ok d ∧ dk_domain k ≠ [] ∧
    recovery_domains rs !! k = Some (LocalScalarDomain.snapshot d).
Proof.
  intros Hok. unfold LocalScalarRecoveryState.restore_domain.
  destruct (recovery_domains rs !! k) as [s|] eqn:Hs; [|by left]. right.
  destruct (Hok k s Hs) as (Hk & d & Hd & ->). exists d. cbn. by rewrite domain_restore_snapshot.
Qed.

Lemma replace_snapshot_cases rs k d :
  domain_ok d → LocalScalarRecoveryState.replace_domain k (LocalScalarDomain.snapshot d) rs =
  (with_domain rs k (LocalScalarDomain.snapshot d), Ok (recovery_domains rs !! k)).
Proof. intros Hd. by rewrite replace_domain_cases, domain_restore_snapshot. Qed.
End containers.

(** ** The codec *)
Definition g_recovery_domain : grammar (DomainKey * LocalScalarSnapshot (list byte)) := λ c ks,
  dk_domain ks.1 ≠ [] ∧
  ∃ c1 c2 scalar, c = id_slice (dk_atom_id ks.1) ++ c1 ++ c2 ∧ g_bytes c1 (dk_domain ks.1) ∧
    g_bytes c2 scalar ∧ g_trusted scalar ks.2.

Definition g_recovery : grammar LocalScalarRecoveryState := λ c rs,
  ∃ c1 l, c = MAGIC ++ be_bytes 2 VERSION ++ c1 ∧ g_counted g_recovery_domain c1 l ∧
    NoDup l.*1 ∧ recovery_domains rs = list_to_map l.

(** The nested bytes of a reader are an allocation, too. *)
Lemma accepts_nested :
  accepts (Reader.read_vec (E := MultiScalarTrustedStateCodecError)) (λ c v, len v ≤ isize_max ∧ g_bytes c v).
Proof.
  eapply accepts_ext_slice; [apply accepts_read_vec|]. intros c v Hc. split; [|by intros [_ ?]].
  intros Hv. split; [|done]. destruct Hv as [_ ->]. revert Hc. unfold len. rewrite length_app. lia.
Qed.

Lemma accepts_recovery_domain m :
  accepts (read_recovery_domain m) (λ c m', ∃ ks, g_recovery_domain c ks ∧ map_add m ks = Some m').
Proof.
  eapply accepts_ext_slice.
  - apply accepts_bind; [apply accepts_read_id|]. intros _ atom_id _.
    apply accepts_bind; [apply accepts_read_vec|]. intros _ domain _.
    apply accepts_bind.
    { apply accepts_lift. rewrite map_err_Panic. unfold DomainKey.new. by case_decide. }
    intros _ key _. apply accepts_bind; [apply accepts_nested|]. intros _ scalar [Hlen _].
    apply (accepts_item _ (λ c s, c = [] ∧ g_trusted scalar s) _ (λ s, map_add m (key, s))).
    + eapply accepts_ext; [apply accepts_lift; rewrite map_err_Panic; by apply decode_trusted_spec|].
      intros c s. cbn beta. by rewrite map_err_Ok, (proj2 (decode_trusted_spec scalar Hlen)).
    + intros s. unfold map_add; cbn. destruct (m !! key); eauto.
  - intros c m' Hc. unfold g_recovery_domain. setoid_rewrite map_err_Ok. setoid_rewrite domain_key_new. split.
    + intros (x & ? & a & -> & Hx & c1 & ? & d & -> & Hd & ? & ? & k & -> & [-> [Hne ->]] &
        c2 & ? & scalar & -> & [_ Hv] & s & [-> Hs] & Hadd). unfold g_id in Hx. subst x.
      exists (DomainKey_mk a d, s). split; [|done]. split; [done|]. exists c1, c2, scalar. rewrite app_nil_r. by split; [|auto].
    + intros ([[a d] s] & [Hne (c1 & c2 & scalar & -> & Hd & Hv & Hs)] & Hadd). cbn in *.
      exists (id_slice a), (c1 ++ c2), a. split; [done|]. split; [done|].
      exists c1, c2, d. split; [done|]. split; [done|]. exists [], c2, (DomainKey_mk a d).
      split; [done|]. split; [done|]. exists c2, [], scalar. rewrite app_nil_r. split; [done|].
      split; [|by eauto]. split; [|done]. revert Hc. destruct Hv as [_ ->]. unfold len. rewrite !length_app. lia.
Qed.

Lemma decode_recovery_spec encoded :
  len encoded ≤ isize_max →
  decode_multi_scalar_recovery_state encoded ≠ Panic ∧
  ∀ rs, decode_multi_scalar_recovery_state encoded = Ok rs ↔ g_recovery encoded rs.
Proof.
  intros Hlen. apply run_reader_decodes; [|done]. eapply decodes_ext.
  - apply decodes_bind; [apply accepts_read_exact|]. intros _ magic _.
    apply decodes_require. apply decodes_bind; [apply (accepts_read_be 2)|]. intros _ version _.
    apply decodes_require.
    assert (decodes ((count ← Reader.read_len; repeat_n read_recovery_domain count ∅) ≫= λ domains,
      self ← get_state;
      if negb (Reader.is_finished self) then throw TrailingBytes
      else mret (LocalScalarRecoveryState_mk domains))
      (λ c rs, ∃ l, g_counted g_recovery_domain c l ∧ NoDup l.*1 ∧ recovery_domains rs = list_to_map l)) as Hbody.
    { eapply decodes_ext.
      - apply decodes_bind; [apply (accepts_counted g_recovery_domain map_add), accepts_recovery_domain|].
        intros _ m _. apply decodes_end.
      - intros c [m]. setoid_rewrite foldl_map_add. cbn. split.
        + intros (c1 & c2 & m' & -> & (l & Hl & Hnd & _ & ->) & -> & [= ->]).
          rewrite app_nil_r, map_union_empty. eauto.
        + intros (l & Hl & Hnd & ->). exists c, [], (list_to_map l). rewrite app_nil_r.
          split; [done|]. split; [|done]. exists l. by rewrite map_union_empty. }
    eapply decodes_eq; [intros r; apply st_bind_assoc|exact Hbody].
  - intros c rs. unfold g_recovery. split.
    + intros (c1 & c2 & m & -> & [-> _] & -> & c3 & c4 & v & -> & [_ ->] & -> & l & Hl & Hnd & Hrs).
      eauto 10.
    + intros (c1 & l & -> & Hl & Hnd & Hrs). exists MAGIC, (be_bytes 2 VERSION ++ c1), MAGIC.
      split; [done|]. split; [done|]. split; [done|].
      exists (be_bytes 2 VERSION), c1, VERSION. split; [done|]. split; [done|]. eauto.
Qed.

(** Every length fits the format's 64-bit fields. *)
Definition recovery_domain_fits (ks : DomainKey * LocalScalarSnapshot (list byte)) : Prop :=
  len (dk_domain ks.1) ≤ u64_max ∧ ∃ scalar, encode_local_scalar_snapshot ks.2 = Ok scalar ∧ len scalar ≤ u64_max.

Definition recovery_fits (rs : LocalScalarRecoveryState) : Prop :=
  N.of_nat (size (recovery_domains rs)) ≤ u64_max ∧
  ∀ k s, recovery_domains rs !! k = Some s → recovery_domain_fits (k, s).

Lemma writes_recovery_domain k d :
  dk_domain k ≠ [] → domain_ok d →
  let ks := (k, LocalScalarDomain.snapshot d) in
  writes (write_recovery_domain ks) (recovery_domain_fits ks) (λ enc, g_recovery_domain enc ks).
Proof.
  intros Hk Hd ks. subst ks. destruct (encode_trusted_spec (LocalScalarDomain.snapshot d)) as (Hnp & _ & Henc); [apply Hd|].
  unfold write_recovery_domain. eapply writes_ext.
  - apply writes_bind; [apply writes_extend|]. apply writes_bind; [apply writes_bytes|].
    apply writes_lift_then; [by rewrite map_err_Panic|]. intros scalar _. apply writes_bytes.
  - unfold recovery_domain_fits; cbn [fst snd]. setoid_rewrite map_err_Ok. naive_solver.
  - intros enc (e1 & e2 & -> & -> & c1 & c2 & -> & Hd1 & scalar & Hs%map_err_Ok & Hc2). split; [done|].
    exists c1, c2, scalar. split; [done|]. split; [done|]. split; [done|]. by apply Henc.
Qed.

Lemma encode_recovery_spec rs :
  recovery_ok rs →
  (is_ok (encode_multi_scalar_recovery_state rs) ↔ recovery_fits rs) ∧
  encode_multi_scalar_recovery_state rs ≠ Panic ∧
  ∀ enc, encode_multi_scalar_recovery_state rs = Ok enc → g_recovery enc rs.
Proof.
  intros Hrs. apply run_writer_spec. unfold LocalScalarRecoveryState.state_len.
  rewrite <-length_entries_asc. eapply writes_ext.
  - apply writes_bind; [apply writes_extend|]. apply writes_bind; [apply writes_extend|].
    apply (writes_counted write_recovery_domain recovery_domain_fits g_recovery_domain).
    intros [k s] Hks%elem_of_entries_asc. destruct (Hrs k s Hks) as (Hk & d & Hd & ->).
    by apply writes_recovery_domain.
  - unfold recovery_fits, len. rewrite length_entries_asc. split.
    + intros (_ & _ & Hlen & Hall). split; [done|]. intros k s Hks. by apply Hall, elem_of_entries_asc.
    + intros [Hlen Hall]. split; [done|]. split; [done|]. split; [done|].
      intros [k s] Hks%elem_of_entries_asc. by apply Hall.
  - intros enc (e1 & e2 & -> & -> & e3 & c1 & -> & -> & Hc). exists c1, (entries_asc (recovery_domains rs)).
    split; [done|]. split; [done|]. split; [apply NoDup_entries_asc|].
    by rewrite list_to_map_entries_asc.
Qed.

(** What is decoded is a valid container under keys of [DomainKey::new]. *)
Lemma g_recovery_valid c rs :
  g_recovery c rs → recovery_valid rs ∧ ∀ k, k ∈ dom (recovery_domains rs) → dk_domain k ≠ [].
Proof.
  intros (c1 & l & -> & (_ & c2 & _ & cs & Hcs & _) & Hnd & Hrs).
  assert (∀ k s, recovery_domains rs !! k = Some s → dk_domain k ≠ [] ∧ is_ok (LocalScalarDomain.restore s)) as Hall.
  { intros k s Hks. rewrite Hrs in Hks. apply elem_of_list_to_map in Hks; [|done].
    apply list_elem_of_lookup in Hks as [i Hi].
    destruct (Forall2_lookup_r _ _ _ _ _ Hcs Hi) as (c & _ & Hne & c3 & c4 & scalar & _ & _ & _ & Hs & _). done. }
  split; [intros k s Hks; by eapply Hall|]. intros k [s Hs]%elem_of_dom. by eapply Hall.
Qed.

(** "encode/decode must be mutually consistent": what the coordinators need of a
    codec of containers. *)
Class RecoveryStateLaws (C : Type) `{!TrustedStateCodec C LocalScalarRecoveryState} : Prop :=
  recovery_round_trip (codec : C) (rs : LocalScalarRecoveryState) (bytes : list byte) :
    recovery_ok rs → encode_trusted codec rs = Ok bytes → len bytes ≤ isize_max →
    decode_trusted codec bytes = Ok rs.

#[export] Instance development_multi_laws : RecoveryStateLaws DevelopmentMultiScalarTrustedStateCodec.
Proof.
  intros codec rs bytes Hrs Henc Hlen. cbn in *.
  apply (proj2 (decode_recovery_spec bytes Hlen)). by apply encode_recovery_spec.
Qed.

(** ** Sequences of calls *)
Inductive recovery_call : Type :=
  | InsertNew (key : DomainKey) (snapshot : LocalScalarSnapshot (list byte))
  | ReplaceDomain (key : DomainKey) (snapshot : LocalScalarSnapshot (list byte)).

Definition call_key (call : recovery_call) : DomainKey :=
  match call with InsertNew key _ | ReplaceDomain key _ => key end.

(** The container after a call, and whether it returned [Ok]. *)
Definition run_recovery_call (call : recovery_call) (rs : LocalScalarRecoveryState) : LocalScalarRecoveryState * bool :=
  match call with
  | InsertNew key snapshot =>
      let '(rs, res) := LocalScalarRecoveryState.insert_new key snapshot rs in (rs, succeeds res)
  | ReplaceDomain key snapshot =>
      let '(rs, res) := LocalScalarRecoveryState.replace_domain key snapshot rs in (rs, succeeds res)
  end.

Definition run_recovery_calls (calls : list recovery_call) (rs : LocalScalarRecoveryState) : LocalScalarRecoveryState :=
  foldl (λ rs call, (run_recovery_call call rs).1) rs calls.

Lemma with_domain_valid rs k s :
  recovery_valid rs → is_ok (LocalScalarDomain.restore s) → recovery_valid (with_domain rs k s).
Proof. intros Hrs Hs k' s'. cbn. rewrite lookup_insert_Some. intros [[_ <-]|[_ Hs']]; [done|by eapply Hrs]. Qed.

(** A call is all or nothing, at its key only. *)
Lemma run_recovery_call_cases call rs :
  let '(rs', ok) := run_recovery_call call rs in
  if ok then ∃ s, (call = InsertNew (call_key call) s ∧ recovery_domains rs !! call_key call = None ∨
                   call = ReplaceDomain (call_key call) s) ∧
              is_ok (LocalScalarDomain.restore s) ∧ rs' = with_domain rs (call_key call) s
  else rs' = rs.
Proof.
  destruct call as [key s|key s]; cbn; rewrite ?insert_new_cases, ?replace_domain_cases.
  - destruct (recovery_domains rs !! key) eqn:Hk; [done|].
    destruct (LocalScalarDomain.restore s) eqn:Hs; cbn; [|done..]. exists s. split; [by left|]. by split; [eexists|].
  - destruct (LocalScalarDomain.restore s) eqn:Hs; cbn; [|done..]. exists s. split; [by right|]. by split; [eexists|].
Qed.

Lemma run_recovery_calls_valid calls rs : recovery_valid rs → recovery_valid (run_recovery_calls calls rs).
Proof.
  revert rs. induction calls as [|call calls IH]; intros rs Hrs; [done|]. apply IH.
  pose proof (run_recovery_call_cases call rs) as Hc. destruct (run_recovery_call call rs) as [rs' []]; cbn [fst].
  - destruct Hc as (s & _ & Hs & ->). by apply with_domain_valid.
  - by rewrite Hc.
Qed.

Lemma from_domains_Ok domains rs :
  LocalScalarRecoveryState.from_domains domains = Ok rs ↔ rs = LocalScalarRecoveryState_mk domains ∧ recovery_valid rs.
Proof.
  unfold LocalScalarRecoveryState.from_domains. rewrite bind_Ok. split.
  - intros ([] & Hall & [= <-]). split; [done|]. rewrite try_for_each_Ok in Hall.
    intros k s Hs. eapply check_snapshot_Ok, Hall, elem_of_values_asc. by exists k.
  - intros [-> Hall]. exists tt. split; [|done]. apply try_for_each_Ok. intros s [k Hs]%elem_of_values_asc.
    apply check_snapshot_Ok. by eapply Hall.
Qed.
