(* ===== verification/Publication.v ===== *)
(** * Publishing a scalar domain (crates/apc-runtime/src/publication.rs)

    Preparation protects the dependency closure of the named revisions; staging
    makes their exposure and the protected bytes durable in one record before
    the live domain changes. *)
From Stdlib Require Import Lia NArith Strings.Byte.
From stdpp Require Import base tactics option list gmap numbers.
From S2P Require Import Prelude BTree Bytes Id Error Worklist Scalar Causal Merge ScalarMerge.
From S2P Require Import Working Finalization Domain Reader RegisterCodec Projection Codec Crypto Protected.
From S2P Require Import Wire Recovery Transport Session TrustedState.
Local Open Scope N_scope.

Record ProtectedPublication : Type := ProtectedPublication_mk {
  protected_publication_id : PublicationId;
  protected_objects : list (list byte);
}.

Record PreparedScalarHandoff : Type := PreparedScalarHandoff_mk {
  prepared_revision_ids : gset RevisionId;
  prepared_publication : ProtectedPublication;
}.

Inductive ScalarPublicationPrepareError : Type :=
  | EmptyRevisionSet
  | PrepareCore (error : CoreError)
  | PrepareProtection (error : SyncPartError)
  | PrepareWire (error : ProtectedPartCodecError).

Inductive ScalarHandoffStageError (C S : Type) : Type :=
  | HandoffCore (error : CoreError)
  | HandoffCodec (error : C)
  | HandoffSync (error : PersistTransitionError S).
Arguments HandoffCore {C S} _.
Arguments HandoffCodec {C S} _.
Arguments HandoffSync {C S} _.

Inductive ScalarRecoveryError (C : Type) : Type :=
  | RecoverCodec (error : C)
  | RecoverCore (error : CoreError).
Arguments RecoverCodec {C} _.
Arguments RecoverCore {C} _.

(** The [while] loop over the stack. *)
Definition dependency_closure {T : Type} (causal : ScalarRegister T) (revision_ids : gset RevisionId) :
    result CoreError (gset RevisionId) :=
  match run_worklist (λ _, None) (λ id, Some (UnknownRevision id))
          (ScalarRegister.parents_graph causal) (ScalarRegister.parent_stack revision_ids) ∅ with
  | inl e => Err e
  | inr closure => Ok closure
  end.

(** The revisions of the closure, in ascending order. *)
Definition closure_revisions {T : Type} (causal : ScalarRegister T) (closure : gset RevisionId) :
    result CoreError (list (ScalarRevision T)) :=
  try_map (λ revision_id, ok_or (UnknownRevision revision_id) (ScalarRegister.revision causal revision_id))
    (elements_asc closure).

Section prepare.
Context `{Aead}.

(** [generated] is what the system's generator returns for the nonce. *)
Definition prepare_scalar_handoff (generated : option (byte_array NONCE_BYTES))
    (domain : LocalScalarDomain (list byte)) (domain_key : DomainKey) (continuum_id : ContinuumId)
    (publication_id : PublicationId) (key : ContentKey) (revision_ids : list RevisionId) :
    result ScalarPublicationPrepareError PreparedScalarHandoff :=
  let revision_ids : gset RevisionId := list_to_set revision_ids in
  if decide (revision_ids = ∅) then Err EmptyRevisionSet else
  let '(candidate, handed) := LocalScalarDomain.handoff (elements_asc revision_ids) domain in
  _ ← map_err PrepareCore handed;
  let causal := LocalScalarDomain.domain_causal domain in
  closure ← map_err PrepareCore (dependency_closure causal revision_ids);
  revisions ← map_err PrepareCore (closure_revisions causal closure);
  register ← map_err PrepareCore (ScalarRegister.from_revisions revisions);
  let projection : ScalarSyncProjection := SyncProjection.from_domains {[domain_key := register]} in
  part ← map_err PrepareProtection
    (protect_scalar_part generated key continuum_id publication_id 0 1 projection);
  wire ← map_err PrepareWire (encode_protected_sync_part part);
  Ok (PreparedScalarHandoff_mk revision_ids (ProtectedPublication_mk publication_id [wire])).
End prepare.

Section stage.
Context {T St C : Type} `{!EqDecision T} `{SyncRecordStore St} `{!TrustedStateCodec C (LocalScalarSnapshot T)}.

(** The two mutable arguments are the domain and the session's record and
    store. *)
Definition stage_scalar_handoff (codec : C) (revision_ids : gset RevisionId)
    (publication : ProtectedPublication) :
    stateful (LocalScalarDomain T * (DurableSyncRecord * St))
      (ScalarHandoffStageError TrustedError StoreError) unit :=
  self ← get_state;
  let '(candidate, handed) := LocalScalarDomain.handoff (elements_asc revision_ids) self.1 in
  _ ← lift_result (map_err HandoffCore handed);
  exposed_trusted_state ← lift_result
    (map_err HandoffCodec (encode_trusted codec (LocalScalarDomain.snapshot candidate)));
  _ ← on_snd (map_err_st HandoffSync
    (stage_outbound exposed_trusted_state (protected_publication_id publication)
      (protected_objects publication)));
  on_fst (put_state candidate).

Definition stage_prepared_scalar_handoff (codec : C) (prepared : PreparedScalarHandoff) :
    stateful (LocalScalarDomain T * (DurableSyncRecord * St))
      (ScalarHandoffStageError TrustedError StoreError) unit :=
  stage_scalar_handoff codec (prepared_revision_ids prepared) (prepared_publication prepared).

Definition recover_scalar_domain (record : DurableSyncRecord) (codec : C) :
    result (ScalarRecoveryError TrustedError) (LocalScalarDomain T) :=
  snapshot ← map_err RecoverCodec (decode_trusted codec (trusted_state record));
  map_err RecoverCore (LocalScalarDomain.restore snapshot).
End stage.
