(* ===== verification/PublicationSet.v ===== *)
(** * Publishing several domains (crates/apc-runtime/src/publication_set.rs)

    One protected publication built from causal closures in several merge
    domains, each checked by the handoff rule of its own domain; staging exposes
    each selection in its own domain and makes the whole container and the
    protected bytes durable in one record. *)
From Stdlib Require Import NArith Strings.Byte.
From stdpp Require Import base tactics option list gmap.
From S2P Require Import Prelude BTree Bytes Id Error Scalar Working Finalization Domain Projection Crypto Protected.
From S2P Require Import Wire Recovery Session TrustedState TrustedStateSet Publication.
Local Open Scope N_scope.

Record PreparedRecoveryHandoff : Type := PreparedRecoveryHandoff_mk {
  handoff_revision_ids : gmap DomainKey (gset RevisionId);
  handoff_publication_id : PublicationId;
  handoff_objects : list (list byte);
}.

Inductive RecoveryPublicationPrepareError : Type :=
  | EmptySelection
  | EmptyDomainRevisionSet (domain_key : DomainKey)
  | PrepareMissingDomain (domain_key : DomainKey)
  | RecoveryPrepareCore (error : CoreError)
  | RecoveryPrepareProtection (error : SyncPartError)
  | RecoveryPrepareWire (error : ProtectedPartCodecError).

Inductive RecoveryHandoffStageError (C S : Type) : Type :=
  | StageMissingDomain (domain_key : DomainKey)
  | StageCore (error : CoreError)
  | StageRecoveryState (error : LocalScalarRecoveryStateError)
  | StageCodec (error : C)
  | StageSync (error : PersistTransitionError S).
Arguments StageMissingDomain {C S} _.
Arguments StageCore {C S} _.
Arguments StageRecoveryState {C S} _.
Arguments StageCodec {C S} _.
Arguments StageSync {C S} _.

(** The body of the loop over the selected domains. *)
Definition project_domain (recovery : LocalScalarRecoveryState)
    (projected_domains : gmap DomainKey (ScalarRegister (list byte))) (entry : DomainKey * gset RevisionId) :
    result RecoveryPublicationPrepareError (gmap DomainKey (ScalarRegister (list byte))) :=
  let '(domain_key, selected) := entry in
  if decide (selected = ∅) then Err (EmptyDomainRevisionSet domain_key) else
  restored ← map_err RecoveryPrepareCore (LocalScalarRecoveryState.restore_domain recovery domain_key);
  domain ← ok_or (PrepareMissingDomain domain_key) restored;
  let '(eligibility, handed) := LocalScalarDomain.handoff (elements_asc selected) domain in
  _ ← map_err RecoveryPrepareCore handed;
  let causal := LocalScalarDomain.domain_causal domain in
  closure ← map_err RecoveryPrepareCore (dependency_closure causal selected);
  revisions ← map_err RecoveryPrepareCore (closure_revisions causal closure);
  register ← map_err RecoveryPrepareCore (ScalarRegister.from_revisions revisions);
  Ok (<[domain_key := register]> projected_domains).

Section prepare.
Context `{Aead}.

(** [generated] is what the system's generator returns for the nonce. *)
Definition prepare_recovery_handoff (generated : option (byte_array NONCE_BYTES))
    (recovery : LocalScalarRecoveryState) (continuum_id : ContinuumId) (publication_id : PublicationId)
    (key : ContentKey) (revision_ids : gmap DomainKey (gset RevisionId)) :
    result RecoveryPublicationPrepareError PreparedRecoveryHandoff :=
  if decide (revision_ids = ∅) then Err EmptySelection else
  projected_domains ← try_fold (project_domain recovery) ∅ (entries_asc revision_ids);
  let projection : ScalarSyncProjection := SyncProjection.from_domains projected_domains in
  part ← map_err RecoveryPrepareProtection
    (protect_scalar_part generated key continuum_id publication_id 0 1 projection);
  wire ← map_err RecoveryPrepareWire (encode_protected_sync_part part);
  Ok (PreparedRecoveryHandoff_mk revision_ids publication_id [wire]).
End prepare.

Section stage.
Context {St C : Type} `{SyncRecordStore St} `{!TrustedStateCodec C LocalScalarRecoveryState}.

(** The body of the loop over the prepared selection. *)
Definition expose_domain (entry : DomainKey * gset RevisionId) :
    stateful LocalScalarRecoveryState (RecoveryHandoffStageError TrustedError StoreError) unit :=
  let '(domain_key, selected) := entry in
  candidate ← get_state;
  restored ← lift_result (map_err StageCore (LocalScalarRecoveryState.restore_domain candidate domain_key));
  domain ← lift_result (ok_or (StageMissingDomain domain_key) restored);
  let '(domain, handed) := LocalScalarDomain.handoff (elements_asc selected) domain in
  _ ← lift_result (map_err StageCore handed);
  _ ← map_err_st StageRecoveryState
    (LocalScalarRecoveryState.replace_domain domain_key (LocalScalarDomain.snapshot domain));
  mret tt.

Definition stage_prepared_recovery_handoff (codec : C) (prepared : PreparedRecoveryHandoff) :
    stateful (LocalScalarRecoveryState * (DurableSyncRecord * St))
      (RecoveryHandoffStageError TrustedError StoreError) unit :=
  self ← get_state;
  let '(candidate, exposed) := st_for_each expose_domain (entries_asc (handoff_revision_ids prepared)) self.1 in
  _ ← lift_result exposed;
  trusted_state ← lift_result (map_err StageCodec (encode_trusted codec candidate));
  _ ← on_snd (map_err_st StageSync
    (stage_outbound trusted_state (handoff_publication_id prepared) (handoff_objects prepared)));
  on_fst (put_state candidate).
End stage.
