(* ===== verification/Receive.v ===== *)
(** * Receiving a scalar domain (crates/apc-runtime/src/receive.rs)

    Fetched objects are authenticated and completely assembled before anything
    is observed; the observation, the trusted state and the cursor become
    durable together. *)
From Stdlib Require Import Lia NArith Strings.Byte.
From stdpp Require Import base tactics option list gmap numbers.
From S2P Require Import Prelude BTree Bytes Id Error Worklist Scalar Causal Merge ScalarMerge.
From S2P Require Import Working Finalization Domain Reader RegisterCodec Projection Codec Crypto Protected.
From S2P Require Import Wire Recovery Transport Session TrustedState Publication.
Local Open Scope N_scope.

Inductive ScalarObjectDecodeError : Type :=
  | DecodeWire (error : ProtectedPartCodecError)
  | DecodeProtection (error : SyncPartError)
  | MultipartUnsupported
  | IncompleteMultipartPublications (count : nat)
  | UnexpectedDomainCount (count : N)
  | MissingExpectedDomain.

Inductive ScalarReceiveCommitError (TE SE CE : Type) : Type :=
  | ReceiveCore (error : CoreError)
  | ReceiveTrustedState (error : TE)
  | ReceiveSync (error : SessionCommitError SE CE).
Arguments ReceiveCore {TE SE CE} _.
Arguments ReceiveTrustedState {TE SE CE} _.
Arguments ReceiveSync {TE SE CE} _.

Record ReceivedScalarState (T R : Type) : Type := ReceivedScalarState_mk {
  received_remote : ScalarRegister T;
  pre_observation_revision_id : option RevisionId;
  received_new_head : R;
}.
Arguments ReceivedScalarState_mk {T R} _ _ _.
Arguments received_remote {T R} _.
Arguments pre_observation_revision_id {T R} _.
Arguments received_new_head {T R} _.

Definition scalar_register_from_projection (projection : ScalarSyncProjection)
    (expected_domain : DomainKey) : result ScalarObjectDecodeError (ScalarRegister (list byte)) :=
  if decide (SyncProjection.projection_len projection ≠ 1) then
    Err (UnexpectedDomainCount (SyncProjection.projection_len projection))
  else ok_or MissingExpectedDomain (SyncProjection.get projection expected_domain).

Section decode.
Context `{Aead}.

Definition decode_single_scalar_domain_object (key : ContentKey) (continuum_id : ContinuumId)
    (expected_domain : DomainKey) (encoded : list byte) :
    result ScalarObjectDecodeError (ScalarRegister (list byte)) :=
  part ← map_err DecodeWire (decode_protected_sync_part encoded);
  if decide (part_index part ≠ 0 ∨ total_parts part ≠ 1) then Err MultipartUnsupported else
  projection ← map_err DecodeProtection (unprotect_scalar_part key continuum_id part);
  scalar_register_from_projection projection expected_domain.

(** The locals of [decode_complete_scalar_domain_objects]. *)
Record Assembly : Type := Assembly_mk {
  inbox : MultipartInbox;
  completed : list (ScalarRegister (list byte));
  seen_wire_objects : gset (list byte);
}.

(** The body of its loop. *)
Definition assemble_object (key : ContentKey) (continuum_id : ContinuumId) (expected_domain : DomainKey)
    (encoded : list byte) : stateful Assembly ScalarObjectDecodeError unit :=
  self ← get_state;
  if decide (encoded ∈ seen_wire_objects self) then mret tt else
  _ ← put_state (Assembly_mk (inbox self) (completed self) ({[encoded]} ∪ seen_wire_objects self));
  part ← lift_result (map_err DecodeWire (decode_protected_sync_part encoded));
  ingested ← on_field inbox (λ i self, Assembly_mk i (completed self) (seen_wire_objects self))
    (map_err_st DecodeProtection (MultipartInbox.ingest key continuum_id part));
  match ingested with
  | None => mret tt
  | Some projection =>
      register ← lift_result (scalar_register_from_projection projection expected_domain);
      self ← get_state;
      put_state (Assembly_mk (inbox self) (completed self ++ [register]) (seen_wire_objects self))
  end.

Definition decode_complete_scalar_domain_objects (key : ContentKey) (continuum_id : ContinuumId)
    (expected_domain : DomainKey) (encoded_objects : list (list byte)) :
    result ScalarObjectDecodeError (list (ScalarRegister (list byte))) :=
  let '(self, res) := st_for_each (assemble_object key continuum_id expected_domain) encoded_objects
    (Assembly_mk MultipartInbox.new [] ∅) in
  _ ← res;
  let incomplete := MultipartInbox.pending_publications (inbox self) in
  if decide (incomplete ≠ 0%nat) then Err (IncompleteMultipartPublications incomplete)
  else Ok (completed self).
End decode.

Section commit.
Context {T St TC CC R : Type} `{!EqDecision T} `{SyncRecordStore St}
  `{!TrustedStateCodec TC (LocalScalarSnapshot T)} `{!TransportCursorCodec CC R}.

Definition commit_received_scalar_domain (trusted_codec : TC) (cursor_codec : CC)
    (received : ReceivedScalarState T R) :
    stateful (LocalScalarDomain T * (DurableSyncRecord * St))
      (ScalarReceiveCommitError TrustedError StoreError CursorError) (option (ScalarRevision T)) :=
  self ← get_state;
  let '(candidate, observed) := LocalScalarDomain.observe_remote (received_remote received)
    (pre_observation_revision_id received) self.1 in
  sealed ← lift_result (map_err ReceiveCore observed);
  merged_trusted_state ← lift_result
    (map_err ReceiveTrustedState (encode_trusted trusted_codec (LocalScalarDomain.snapshot candidate)));
  _ ← on_snd (map_err_st ReceiveSync
    (commit_received cursor_codec merged_trusted_state (received_new_head received)));
  _ ← on_fst (put_state candidate);
  mret sealed.
End commit.
