(* ===== verification/ReceiveSet.v ===== *)
(** * Receiving into one of several domains (crates/apc-runtime/src/receive_set.rs)

    Only the selected domain is restored and observed; the whole container is
    made durable with the cursor. *)
From Stdlib Require Import NArith Strings.Byte.
From stdpp Require Import base tactics option list gmap.
From S2P Require Import Prelude Bytes Id Error Scalar Working Domain Projection.
From S2P Require Import Recovery Transport Session TrustedState TrustedStateSet.

Record ReceivedRecoveryScalarState (R : Type) : Type := ReceivedRecoveryScalarState_mk {
  recovery_domain_key : DomainKey;
  recovery_remote : ScalarRegister (list byte);
  recovery_pre_observation_revision_id : option RevisionId;
  recovery_new_head : R;
}.
Arguments ReceivedRecoveryScalarState_mk {R} _ _ _ _.
Arguments recovery_domain_key {R} _.
Arguments recovery_remote {R} _.
Arguments recovery_pre_observation_revision_id {R} _.
Arguments recovery_new_head {R} _.

Inductive RecoveryScalarReceiveCommitError (TE SE CE : Type) : Type :=
  | RecoveryMissingDomain
  | RecoveryReceiveCore (error : CoreError)
  | RecoveryReceiveState (error : LocalScalarRecoveryStateError)
  | RecoveryReceiveTrustedState (error : TE)
  | RecoveryReceiveSync (error : SessionCommitError SE CE).
Arguments RecoveryMissingDomain {TE SE CE}.
Arguments RecoveryReceiveCore {TE SE CE} _.
Arguments RecoveryReceiveState {TE SE CE} _.
Arguments RecoveryReceiveTrustedState {TE SE CE} _.
Arguments RecoveryReceiveSync {TE SE CE} _.

Section commit.
Context {St TC CC R : Type} `{SyncRecordStore St}
  `{!TrustedStateCodec TC LocalScalarRecoveryState} `{!TransportCursorCodec CC R}.

Definition commit_received_recovery_scalar_domain (trusted_codec : TC) (cursor_codec : CC)
    (received : ReceivedRecoveryScalarState R) :
    stateful (LocalScalarRecoveryState * (DurableSyncRecord * St))
      (RecoveryScalarReceiveCommitError TrustedError StoreError CursorError)
      (option (ScalarRevision (list byte))) :=
  self ← get_state;
  restored ← lift_result (map_err RecoveryReceiveCore
    (LocalScalarRecoveryState.restore_domain self.1 (recovery_domain_key received)));
  selected ← lift_result (ok_or RecoveryMissingDomain restored);
  let '(selected, observed) := LocalScalarDomain.observe_remote (recovery_remote received)
    (recovery_pre_observation_revision_id received) selected in
  sealed ← lift_result (map_err RecoveryReceiveCore observed);
  let '(candidate, replaced) := LocalScalarRecoveryState.replace_domain (recovery_domain_key received)
    (LocalScalarDomain.snapshot selected) self.1 in
  _ ← lift_result (map_err RecoveryReceiveState replaced);
  trusted_state ← lift_result (map_err RecoveryReceiveTrustedState (encode_trusted trusted_codec candidate));
  _ ← on_snd (map_err_st RecoveryReceiveSync
    (commit_received cursor_codec trusted_state (recovery_new_head received)));
  _ ← on_fst (put_state candidate);
  mret sealed.
End commit.
