(* ===== verification/Catchup.v ===== *)
(** * Catching up one scalar domain (crates/apc-runtime/src/catchup.rs)

    One pass from the durable cursor: fetch, authenticate the whole range, merge
    it into one remote register, observe that once and commit it together with
    the new cursor. *)
From Stdlib Require Import NArith Strings.Byte.
From stdpp Require Import base tactics option list gmap.
From S2P Require Import Prelude BTree Bytes Id Error Scalar Working Domain Projection Crypto Protected.
From S2P Require Import Recovery Transport Session TrustedState Publication Receive.

Record ScalarCatchUpSpec : Type := ScalarCatchUpSpec_mk {
  spec_key : ContentKey;
  spec_continuum_id : ContinuumId;
  spec_domain_key : DomainKey;
  spec_pre_observation_revision_id : option RevisionId;
}.

Inductive ScalarCatchUpOutcome (R : Type) : Type :=
  | CatchUpUpToDate (head : option R)
  | Applied (head : R) (object_count : nat) (observed_revision_ids : gset RevisionId)
      (sealed_local : option (ScalarRevision (list byte)))
  | CursorAdvancedWithoutSemanticObjects (head : R)
  | CatchUpBaselineUnavailable (head : option R).
Arguments CatchUpUpToDate {R} _.
Arguments Applied {R} _ _ _ _.
Arguments CursorAdvancedWithoutSemanticObjects {R} _.
Arguments CatchUpBaselineUnavailable {R} _.

Inductive ScalarCatchUpError (TE TSE SE CE : Type) : Type :=
  | CatchUpIo (error : SessionIoError TE CE)
  | CatchUpDecode (error : ScalarObjectDecodeError)
  | CatchUpCore (error : CoreError)
  | CatchUpTrustedState (error : TSE)
  | CatchUpCommit (error : SessionCommitError SE CE)
  | CatchUpReceive (error : ScalarReceiveCommitError TSE SE CE).
Arguments CatchUpIo {TE TSE SE CE} _.
Arguments CatchUpDecode {TE TSE SE CE} _.
Arguments CatchUpCore {TE TSE SE CE} _.
Arguments CatchUpTrustedState {TE TSE SE CE} _.
Arguments CatchUpCommit {TE TSE SE CE} _.
Arguments CatchUpReceive {TE TSE SE CE} _.

(** The body of the loop over the decoded registers. *)
Definition combine_remote {T : Type} `{EqDecision T} (combined_remote : option (ScalarRegister T))
    (register : ScalarRegister T) : result CoreError (option (ScalarRegister T)) :=
  match combined_remote with
  | None => Ok (Some register)
  | Some current => merged ← ScalarRegister.merge current register; Ok (Some merged)
  end.

(** [remote.revisions().map(|revision| revision.id).collect()]. *)
Definition register_revision_ids {T : Type} (register : ScalarRegister T) : gset RevisionId :=
  list_to_set (sr_id <$> ScalarRegister.revisions_iter register).

Section catch_up.
Context `{Aead} {St Tr TC CC : Type} `{SyncRecordStore St} `{OpaqueTransport Tr}
  `{!TrustedStateCodec TC (LocalScalarSnapshot (list byte))} `{!TransportCursorCodec CC Revision}.

(** [domain], [record] and [store], next to the transport. *)
Notation session := (LocalScalarDomain (list byte) * (DurableSyncRecord * St))%type.
Notation catch_up_error :=
  (ScalarCatchUpError TransportError TrustedError StoreError CursorError).

(** The arm of [FetchOutcome::Changed]. *)
Definition catch_up_changed (trusted_codec : TC) (cursor_codec : CC) (spec : ScalarCatchUpSpec)
    (head : Revision) (objects : list (list byte)) :
    stateful session catch_up_error (ScalarCatchUpOutcome Revision) :=
  if decide (objects = []) then
    self ← get_state;
    trusted_state ← lift_result
      (map_err CatchUpTrustedState (encode_trusted trusted_codec (LocalScalarDomain.snapshot self.1)));
    _ ← on_snd (map_err_st CatchUpCommit (commit_received cursor_codec trusted_state head));
    mret (CursorAdvancedWithoutSemanticObjects head)
  else
    let object_count := length objects in
    decoded ← lift_result (map_err CatchUpDecode (decode_complete_scalar_domain_objects
      (spec_key spec) (spec_continuum_id spec) (spec_domain_key spec) objects));
    combined_remote ← lift_result (map_err CatchUpCore (try_fold combine_remote None decoded));
    remote ← lift_result (expect combined_remote);
    let observed_revision_ids := register_revision_ids remote in
    sealed_local ← map_err_st CatchUpReceive (commit_received_scalar_domain trusted_codec cursor_codec
      (ReceivedScalarState_mk remote (spec_pre_observation_revision_id spec) head));
    mret (Applied head object_count observed_revision_ids sealed_local).

Definition catch_up_single_scalar_domain (trusted_codec : TC) (cursor_codec : CC) (spec : ScalarCatchUpSpec) :
    stateful (session * Tr) catch_up_error (ScalarCatchUpOutcome Revision) :=
  self ← get_state;
  fetched ← on_snd (map_err_st CatchUpIo (fetch_from_durable_cursor self.1.2.1 cursor_codec));
  match fetched with
  | UpToDate head => mret (CatchUpUpToDate head)
  | BaselineUnavailable head => mret (CatchUpBaselineUnavailable head)
  | Changed head objects => on_fst (catch_up_changed trusted_codec cursor_codec spec head objects)
  end.
End catch_up.
