(* ===== verification/CatchupSet.v ===== *)
(** * Catching up several domains (crates/apc-runtime/src/catchup_set.rs)

    One pass from the durable cursor: fetch, authenticate and assemble the whole
    range, merge it into one projection, let every domain it touches observe its
    part, and commit the whole container with the new cursor. *)
From Stdlib Require Import NArith Strings.Byte.
From stdpp Require Import base tactics option list gmap.
From S2P Require Import Prelude BTree Bytes Id Error Scalar Merge ScalarMerge Working Domain Projection Crypto Protected.
From S2P Require Import Wire Recovery Transport Session TrustedState TrustedStateSet Catchup.

Record ScalarRecoveryCatchUpSpec : Type := ScalarRecoveryCatchUpSpec_mk {
  recovery_key : ContentKey;
  recovery_continuum_id : ContinuumId;
  pre_observation_revision_ids : gmap DomainKey RevisionId;
}.

Inductive ScalarRecoveryCatchUpOutcome (R : Type) : Type :=
  | RecoveryUpToDate (head : option R)
  | RecoveryApplied (head : R) (object_count : nat)
      (observed_revision_ids : gmap DomainKey (gset RevisionId))
      (sealed_local : gmap DomainKey (ScalarRevision (list byte)))
  | RecoveryCursorAdvanced (head : R)
  | RecoveryBaselineUnavailable (head : option R).
Arguments RecoveryUpToDate {R} _.
Arguments RecoveryApplied {R} _ _ _ _.
Arguments RecoveryCursorAdvanced {R} _.
Arguments RecoveryBaselineUnavailable {R} _.

Inductive ScalarRecoveryCatchUpError (TE TSE SE CE : Type) : Type :=
  | RecoveryIo (error : SessionIoError TE CE)
  | RecoveryWire (error : ProtectedPartCodecError)
  | RecoveryProtection (error : SyncPartError)
  | RecoveryIncompleteMultipart (count : nat)
  | RecoveryCatchUpCore (error : CoreError)
  | RecoveryCatchUpState (error : LocalScalarRecoveryStateError)
  | RecoveryTrustedState (error : TSE)
  | RecoveryCommit (error : SessionCommitError SE CE).
Arguments RecoveryIo {TE TSE SE CE} _.
Arguments RecoveryWire {TE TSE SE CE} _.
Arguments RecoveryProtection {TE TSE SE CE} _.
Arguments RecoveryIncompleteMultipart {TE TSE SE CE} _.
Arguments RecoveryCatchUpCore {TE TSE SE CE} _.
Arguments RecoveryCatchUpState {TE TSE SE CE} _.
Arguments RecoveryTrustedState {TE TSE SE CE} _.
Arguments RecoveryCommit {TE TSE SE CE} _.

Section decode.
Context `{Aead} {TE TSE SE CE : Type}.
Notation catch_up_error := (ScalarRecoveryCatchUpError TE TSE SE CE).

(** The locals of [decode_complete_scalar_projections]. *)
Record RangeAssembly : Type := RangeAssembly_mk {
  range_inbox : MultipartInbox;
  range_completed : list ScalarSyncProjection;
  range_seen : gset (list byte);
}.

(** The body of its loop. *)
Definition assemble_projection (key : ContentKey) (continuum_id : ContinuumId) (encoded : list byte) :
    stateful RangeAssembly catch_up_error unit :=
  self ← get_state;
  if decide (encoded ∈ range_seen self) then mret tt else
  _ ← put_state (RangeAssembly_mk (range_inbox self) (range_completed self) ({[encoded]} ∪ range_seen self));
  part ← lift_result (map_err RecoveryWire (decode_protected_sync_part encoded));
  ingested ← on_field range_inbox (λ i self, RangeAssembly_mk i (range_completed self) (range_seen self))
    (map_err_st RecoveryProtection (MultipartInbox.ingest key continuum_id part));
  match ingested with
  | None => mret tt
  | Some projection =>
      self ← get_state;
      put_state (RangeAssembly_mk (range_inbox self) (range_completed self ++ [projection]) (range_seen self))
  end.

Definition decode_complete_scalar_projections (key : ContentKey) (continuum_id : ContinuumId)
    (encoded_objects : list (list byte)) : result catch_up_error (list ScalarSyncProjection) :=
  let '(self, res) := st_for_each (assemble_projection key continuum_id) encoded_objects
    (RangeAssembly_mk MultipartInbox.new [] ∅) in
  _ ← res;
  let incomplete := MultipartInbox.pending_publications (range_inbox self) in
  if decide (incomplete ≠ 0%nat) then Err (RecoveryIncompleteMultipart incomplete)
  else Ok (range_completed self).
End decode.

Section catch_up.
Context `{Aead} {St Tr TC CC : Type} `{SyncRecordStore St} `{OpaqueTransport Tr}
  `{!TrustedStateCodec TC LocalScalarRecoveryState} `{!TransportCursorCodec CC Revision}.

(** [recovery], [record] and [store], next to the transport. *)
Notation session := (LocalScalarRecoveryState * (DurableSyncRecord * St))%type.
Notation catch_up_error :=
  (ScalarRecoveryCatchUpError TransportError TrustedError StoreError CursorError).

(** The locals of the loop over the domains of the merged projection. *)
Record Observation : Type := Observation_mk {
  candidate : LocalScalarRecoveryState;
  observed_ids : gmap DomainKey (gset RevisionId);
  sealed_revisions : gmap DomainKey (ScalarRevision (list byte));
}.

Definition on_candidate {E A : Type} (m : stateful LocalScalarRecoveryState E A) : stateful Observation E A :=
  on_field candidate (λ c self, Observation_mk c (observed_ids self) (sealed_revisions self)) m.

(** The body of that loop. *)
Definition observe_domain (pre_observation : gmap DomainKey RevisionId)
    (entry : DomainKey * ScalarRegister (list byte)) : stateful Observation catch_up_error unit :=
  let '(domain_key, remote) := entry in
  self ← get_state;
  _ ← put_state (Observation_mk (candidate self)
    (<[domain_key := register_revision_ids remote]> (observed_ids self)) (sealed_revisions self));
  restored ← lift_result (map_err RecoveryCatchUpCore
    (LocalScalarRecoveryState.restore_domain (candidate self) domain_key));
  match restored with
  | Some local =>
      let '(local, observed) := LocalScalarDomain.observe_remote remote (pre_observation !! domain_key) local in
      sealed ← lift_result (map_err RecoveryCatchUpCore observed);
      self ← get_state;
      _ ← match sealed with
          | Some sealed => put_state (Observation_mk (candidate self) (observed_ids self)
              (<[domain_key := sealed]> (sealed_revisions self)))
          | None => mret tt
          end;
      _ ← on_candidate (map_err_st RecoveryCatchUpState
        (LocalScalarRecoveryState.replace_domain domain_key (LocalScalarDomain.snapshot local)));
      mret tt
  | None =>
      local ← lift_result (map_err RecoveryCatchUpCore (LocalScalarDomain.from_causal remote));
      on_candidate (map_err_st RecoveryCatchUpState
        (LocalScalarRecoveryState.insert_new domain_key (LocalScalarDomain.snapshot local)))
  end.

(** The arm of [FetchOutcome::Changed]. *)
Definition recovery_changed (trusted_codec : TC) (cursor_codec : CC) (spec : ScalarRecoveryCatchUpSpec)
    (head : Revision) (objects : list (list byte)) :
    stateful session catch_up_error (ScalarRecoveryCatchUpOutcome Revision) :=
  if decide (objects = []) then
    self ← get_state;
    trusted_state ← lift_result (map_err RecoveryTrustedState (encode_trusted trusted_codec self.1));
    _ ← on_snd (map_err_st RecoveryCommit (commit_received cursor_codec trusted_state head));
    mret (RecoveryCursorAdvanced head)
  else
    let object_count := length objects in
    projections ← lift_result
      (decode_complete_scalar_projections (recovery_key spec) (recovery_continuum_id spec) objects);
    combined ← lift_result
      (map_err RecoveryCatchUpCore (try_fold SyncProjection.merge SyncProjection.new projections));
    self ← get_state;
    let '(observation, observed) := st_for_each (observe_domain (pre_observation_revision_ids spec))
      (entries_asc (domains combined)) (Observation_mk self.1 ∅ ∅) in
    _ ← lift_result observed;
    trusted_state ← lift_result
      (map_err RecoveryTrustedState (encode_trusted trusted_codec (candidate observation)));
    _ ← on_snd (map_err_st RecoveryCommit (commit_received cursor_codec trusted_state head));
    _ ← on_fst (put_state (candidate observation));
    mret (RecoveryApplied head object_count (observed_ids observation) (sealed_revisions observation)).

Definition catch_up_scalar_recovery_state (trusted_codec : TC) (cursor_codec : CC)
    (spec : ScalarRecoveryCatchUpSpec) :
    stateful (session * Tr) catch_up_error (ScalarRecoveryCatchUpOutcome Revision) :=
  self ← get_state;
  fetched ← on_snd (map_err_st RecoveryIo (fetch_from_durable_cursor self.1.2.1 cursor_codec));
  match fetched with
  | UpToDate head => mret (RecoveryUpToDate head)
  | BaselineUnavailable head => mret (RecoveryBaselineUnavailable head)
  | Changed head objects => on_fst (recovery_changed trusted_codec cursor_codec spec head objects)
  end.
End catch_up.
