(* ===== verification/Resume.v ===== *)
(** * Resuming one scalar domain

    crates/apc-runtime/src/resume.rs and resume_cycle.rs: catch up, then settle
    the one pending publication from what the pass has proved, then perhaps send
    its exact bytes; and the cycle of at most two such passes. *)
From Stdlib Require Import NArith Strings.Byte.
From stdpp Require Import base tactics option list gmap.
From S2P Require Import Prelude BTree Bytes Id Error Scalar Working Domain Projection Crypto Protected.
From S2P Require Import Recovery Transport Session TrustedState Publication Receive Catchup.

Inductive ScalarResumeOutboxOutcome (R : Type) : Type :=
  | NoOutbox
  | BlockedByBaseline
  | NeedsRebase (publication_id : PublicationId)
  | ObservedAndReconciled (publication_id : PublicationId) (head : R)
  | PublishedAndReconciled (publication_id : PublicationId) (head : R)
  | ResumeConflict (publication_id : PublicationId) (current_head : option R).
Arguments NoOutbox {R}.
Arguments BlockedByBaseline {R}.
Arguments NeedsRebase {R} _.
Arguments ObservedAndReconciled {R} _ _.
Arguments PublishedAndReconciled {R} _ _.
Arguments ResumeConflict {R} _ _.

Record ScalarResumeReport (R : Type) : Type := ScalarResumeReport_mk {
  report_catch_up : ScalarCatchUpOutcome R;
  report_outbox : ScalarResumeOutboxOutcome R;
}.
Arguments ScalarResumeReport_mk {R} _ _.
Arguments report_catch_up {R} _.
Arguments report_outbox {R} _.

Inductive ScalarResumeError (TE TSE SE CE : Type) : Type :=
  | MultiplePendingOutboxUnsupported (count : nat)
  | ResumeCatchUp (error : ScalarCatchUpError TE TSE SE CE)
  | PendingDecode (error : ScalarObjectDecodeError)
  | ResumePublish (error : SessionIoError TE CE)
  | ResumeReconcile (error : SessionCommitError SE CE).
Arguments MultiplePendingOutboxUnsupported {TE TSE SE CE} _.
Arguments ResumeCatchUp {TE TSE SE CE} _.
Arguments PendingDecode {TE TSE SE CE} _.
Arguments ResumePublish {TE TSE SE CE} _.
Arguments ResumeReconcile {TE TSE SE CE} _.

Record ScalarResumeCycleReport (R : Type) : Type := ScalarResumeCycleReport_mk {
  initial : ScalarResumeReport R;
  post_conflict : option (ScalarResumeReport R);
}.
Arguments ScalarResumeCycleReport_mk {R} _ _.
Arguments initial {R} _.
Arguments post_conflict {R} _.

(** [record.outbox().keys().next().copied()]. *)
Definition first_pending (record : DurableSyncRecord) : option PublicationId :=
  match keys_asc (outbox record) with
  | publication_id :: _ => Some publication_id
  | [] => None
  end.

Section resume.
Context `{Aead} {St Tr TC CC : Type} `{SyncRecordStore St} `{OpaqueTransport Tr}
  `{!TrustedStateCodec TC (LocalScalarSnapshot (list byte))} `{!TransportCursorCodec CC Revision}.

Notation session := (LocalScalarDomain (list byte) * (DurableSyncRecord * St))%type.
Notation resume_error := (ScalarResumeError TransportError TrustedError StoreError CursorError).

(** The commit of a settled publication: the trusted state stays, the cursor is
    the one that settles it. *)
Definition reconcile_pending (cursor_codec : CC) (publication_id : PublicationId) (head : Revision) :
    stateful session resume_error unit :=
  self ← get_state;
  on_snd (map_err_st ResumeReconcile
    (commit_reconciled_outbox cursor_codec publication_id (trusted_state self.2.1) head)).

(** The branch of an entry staged against another cursor. *)
Definition resume_stale (cursor_codec : CC) (spec : ScalarCatchUpSpec) (catch_up : ScalarCatchUpOutcome Revision)
    (publication_id : PublicationId) (entry : DurableOutboxEntry) :
    stateful session resume_error (ScalarResumeReport Revision) :=
  match catch_up, objects entry with
  | Applied head _ observed_revision_ids _, [object] =>
      pending ← lift_result (map_err PendingDecode (decode_single_scalar_domain_object
        (spec_key spec) (spec_continuum_id spec) (spec_domain_key spec) object));
      if decide (register_revision_ids pending ⊆ observed_revision_ids) then
        _ ← reconcile_pending cursor_codec publication_id head;
        mret (ScalarResumeReport_mk catch_up (ObservedAndReconciled publication_id head))
      else mret (ScalarResumeReport_mk catch_up (NeedsRebase publication_id))
  | _, _ => mret (ScalarResumeReport_mk catch_up (NeedsRebase publication_id))
  end.

(** The branch of an entry staged against the current cursor. *)
Definition resume_publish (cursor_codec : CC) (catch_up : ScalarCatchUpOutcome Revision)
    (publication_id : PublicationId) :
    stateful (session * Tr) resume_error (ScalarResumeReport Revision) :=
  self ← get_state;
  published ← on_snd (map_err_st ResumePublish (publish_staged self.1.2.1 publication_id cursor_codec));
  match published with
  | Published head =>
      _ ← on_fst (reconcile_pending cursor_codec publication_id head);
      mret (ScalarResumeReport_mk catch_up (PublishedAndReconciled publication_id head))
  | Conflict current_head =>
      mret (ScalarResumeReport_mk catch_up (ResumeConflict publication_id current_head))
  end.

Definition resume_single_scalar_domain (trusted_codec : TC) (cursor_codec : CC)
    (catch_up_spec : ScalarCatchUpSpec) :
    stateful (session * Tr) resume_error (ScalarResumeReport Revision) :=
  self ← get_state;
  let pending_count := size (outbox self.1.2.1) in
  if decide (1 < pending_count)%nat then throw (MultiplePendingOutboxUnsupported pending_count) else
  let pending_publication := first_pending self.1.2.1 in
  catch_up ← map_err_st ResumeCatchUp
    (catch_up_single_scalar_domain trusted_codec cursor_codec catch_up_spec);
  match catch_up, pending_publication with
  | CatchUpBaselineUnavailable _, _ => mret (ScalarResumeReport_mk catch_up BlockedByBaseline)
  | _, None => mret (ScalarResumeReport_mk catch_up NoOutbox)
  | _, Some publication_id =>
      self ← get_state;
      entry ← lift_result (expect (outbox self.1.2.1 !! publication_id));
      if decide (expected_cursor entry ≠ applied_cursor self.1.2.1) then
        on_fst (resume_stale cursor_codec catch_up_spec catch_up publication_id entry)
      else resume_publish cursor_codec catch_up publication_id
  end.

(** At most two passes, the second only after a conflict. *)
Definition resume_single_scalar_domain_bounded (trusted_codec : TC) (cursor_codec : CC)
    (catch_up_spec : ScalarCatchUpSpec) :
    stateful (session * Tr) resume_error (ScalarResumeCycleReport Revision) :=
  initial ← resume_single_scalar_domain trusted_codec cursor_codec catch_up_spec;
  match report_outbox initial with
  | ResumeConflict _ _ =>
      post_conflict ← resume_single_scalar_domain trusted_codec cursor_codec catch_up_spec;
      mret (ScalarResumeCycleReport_mk initial (Some post_conflict))
  | _ => mret (ScalarResumeCycleReport_mk initial None)
  end.
End resume.
