(* ===== verification/ResumeSet.v ===== *)
(** * Settling a set of publications

    What crates/apc-runtime/src/resume_batch.rs and resume_recovery_batch.rs
    have in common: catch up, classify the pending publications by their cursor,
    retire the stale ones the pass has observed, and send the current ones as one
    set.  The two files differ in the live state [D], in what their catch-up
    reports, and in how they prove that a stale publication was observed. *)
From Stdlib Require Import NArith Strings.Byte.
From stdpp Require Import base tactics option list gmap.
From S2P Require Import Prelude BTree Bytes Id Reader Protected Recovery Transport Session Batch.

Inductive ResumeAction (R : Type) : Type :=
  | BatchNone
  | BatchBlockedByBaseline
  | BatchNeedsRebase (publication_ids : gset PublicationId)
  | BatchPublishedAndReconciled (publication_ids : gset PublicationId) (head : R)
  | BatchConflict (publication_ids : gset PublicationId) (current_head : option R).
Arguments BatchNone {R}.
Arguments BatchBlockedByBaseline {R}.
Arguments BatchNeedsRebase {R} _.
Arguments BatchPublishedAndReconciled {R} _ _.
Arguments BatchConflict {R} _ _.

(** [O] is the outcome of the catch-up. *)
Record ResumeReport (O R : Type) : Type := ResumeReport_mk {
  batch_catch_up : O;
  observed_reconciled : gset PublicationId;
  batch_action : ResumeAction R;
}.
Arguments ResumeReport_mk {O R} _ _ _.
Arguments batch_catch_up {O R} _.
Arguments observed_reconciled {O R} _.
Arguments batch_action {O R} _.

(** [U] is the error of the catch-up and [P] the error of decoding a pending
    publication. *)
Inductive ResumeError (U P TE SE CE : Type) : Type :=
  | BatchCatchUp (error : U)
  | BatchPendingDecode (publication_id : PublicationId) (error : P)
  | BatchPublish (error : BatchPublishError TE CE)
  | BatchReconcile (error : BatchCommitError SE CE).
Arguments BatchCatchUp {U P TE SE CE} _.
Arguments BatchPendingDecode {U P TE SE CE} _ _.
Arguments BatchPublish {U P TE SE CE} _.
Arguments BatchReconcile {U P TE SE CE} _.

Record ResumeCycleReport (O R : Type) : Type := ResumeCycleReport_mk {
  batch_initial : ResumeReport O R;
  batch_post_conflict : option (ResumeReport O R);
}.
Arguments ResumeCycleReport_mk {O R} _ _.
Arguments batch_initial {O R} _.
Arguments batch_post_conflict {O R} _.

(** What a pass reads off the outcome of its catch-up: the head and the
    authenticated identities of an applied range, and whether the baseline was
    unavailable. *)
Class CatchUpOutcome (O R V : Type) := {
  applied_range : O → option (R * V);
  baseline_unavailable : O → bool;
}.

(** The body of the loop that sorts the pending publications into [current] and
    [stale]. *)
Definition classify_pending {E : Type} (record : DurableSyncRecord) (current_cursor : option TransportCursor)
    (acc : gset PublicationId * gset PublicationId) (publication_id : PublicationId) :
    result E (gset PublicationId * gset PublicationId) :=
  let '(current, stale) := acc in
  entry ← expect (outbox record !! publication_id);
  if decide (expected_cursor entry = current_cursor) then Ok ({[publication_id]} ∪ current, stale)
  else Ok (current, {[publication_id]} ∪ stale).

Section settle.
Context {D O V U P St Tr CC : Type} `{SyncRecordStore St} `{OpaqueTransport Tr}
  `{!TransportCursorCodec CC Revision} `{!CatchUpOutcome O Revision V}.

(** The live state, [record] and [store], next to the transport. *)
Notation session := (D * (DurableSyncRecord * St))%type.
Notation resume_error := (ResumeError U P TransportError StoreError CursorError).
Notation report := (ResumeReport O Revision).

(** The body of the loop over the stale publications, given what was observed:
    a publication is added when it is proven to have arrived. *)
Context (prove_observed :
  DurableSyncRecord → V → gset PublicationId → PublicationId → result resume_error (gset PublicationId)).

(** The commit of a settled set. *)
Definition reconcile_set (cursor_codec : CC) (publication_ids : gset PublicationId) (head : Revision) :
    stateful session resume_error unit :=
  self ← get_state;
  on_snd (map_err_st BatchReconcile (commit_reconciled_outbox_batch cursor_codec
    (elements_asc publication_ids) (trusted_state self.2.1) head)).

(** The branch of a non-empty stale set: what is observed, what is left. *)
Definition settle_stale (cursor_codec : CC) (catch_up : O) (stale : gset PublicationId) :
    stateful session resume_error (gset PublicationId * gset PublicationId) :=
  match applied_range catch_up with
  | Some (head, observed_revision_ids) =>
      self ← get_state;
      observed_reconciled ← lift_result
        (try_fold (prove_observed self.2.1 observed_revision_ids) ∅ (elements_asc stale));
      if decide (observed_reconciled = ∅) then mret (observed_reconciled, stale) else
      _ ← reconcile_set cursor_codec observed_reconciled head;
      mret (observed_reconciled, stale ∖ observed_reconciled)
  | None => mret (∅, stale)
  end.

(** One publication of the current set. *)
Definition publish_current (cursor_codec : CC) (catch_up : O) (observed_reconciled current : gset PublicationId) :
    stateful (session * Tr) resume_error report :=
  if decide (current = ∅) then mret (ResumeReport_mk catch_up observed_reconciled BatchNone) else
  self ← get_state;
  published ← on_snd (map_err_st BatchPublish
    (publish_staged_batch self.1.2.1 (elements_asc current) cursor_codec));
  match published with
  | Published head =>
      _ ← on_fst (reconcile_set cursor_codec current head);
      mret (ResumeReport_mk catch_up observed_reconciled (BatchPublishedAndReconciled current head))
  | Conflict current_head =>
      mret (ResumeReport_mk catch_up observed_reconciled (BatchConflict current current_head))
  end.

(** What follows the catch-up, for a non-empty outbox. *)
Definition settle_outbox (cursor_codec : CC) (catch_up : O) (initial_pending : gset PublicationId) :
    stateful (session * Tr) resume_error report :=
  self ← get_state;
  let current_cursor := applied_cursor self.1.2.1 in
  classified ← lift_result
    (try_fold (classify_pending self.1.2.1 current_cursor) (∅, ∅) (elements_asc initial_pending));
  let '(current, stale) := classified in
  if decide (stale = ∅) then publish_current cursor_codec catch_up ∅ current else
  settled ← on_fst (settle_stale cursor_codec catch_up stale);
  let '(observed_reconciled, stale) := settled in
  if decide (stale = ∅) then publish_current cursor_codec catch_up observed_reconciled current else
  mret (ResumeReport_mk catch_up observed_reconciled (BatchNeedsRebase stale)).

(** A whole pass around the catch-up [catch_up_pass]. *)
Definition resume_pass (cursor_codec : CC) (catch_up_pass : stateful (session * Tr) U O) :
    stateful (session * Tr) resume_error report :=
  self ← get_state;
  let initial_pending : gset PublicationId := dom (outbox self.1.2.1) in
  catch_up ← map_err_st BatchCatchUp catch_up_pass;
  if baseline_unavailable catch_up then mret (ResumeReport_mk catch_up ∅ BatchBlockedByBaseline)
  else if decide (initial_pending = ∅) then mret (ResumeReport_mk catch_up ∅ BatchNone)
  else settle_outbox cursor_codec catch_up initial_pending.
End settle.

(** At most two passes, the second only after a conflict. *)
Definition resume_bounded {S E O R : Type} (pass : stateful S E (ResumeReport O R)) :
    stateful S E (ResumeCycleReport O R) :=
  initial ← pass;
  match batch_action initial with
  | BatchConflict _ _ =>
      post_conflict ← pass;
      mret (ResumeCycleReport_mk initial (Some post_conflict))
  | _ => mret (ResumeCycleReport_mk initial None)
  end.
