(* ===== verification/ResumeBatch.v ===== *)
(** * Resuming a set of publications of one domain

    crates/apc-runtime/src/resume_batch.rs and resume_batch_cycle.rs: the pass of
    [ResumeSet] over one scalar domain.  A stale publication is proven observed
    when it is one complete object whose revisions are all among the observed
    ones. *)
From Stdlib Require Import NArith Strings.Byte.
From stdpp Require Import base tactics option list gmap.
From S2P Require Import Prelude BTree Bytes Id Error Scalar Working Domain Projection Crypto Protected.
From S2P Require Import Recovery Transport Session Batch TrustedState Publication Receive Catchup ResumeSet.

Definition ScalarBatchResumeAction (R : Type) : Type := ResumeAction R.
Definition ScalarBatchResumeReport (R : Type) : Type := ResumeReport (ScalarCatchUpOutcome R) R.
Definition ScalarBatchResumeError (TE TSE SE CE : Type) : Type :=
  ResumeError (ScalarCatchUpError TE TSE SE CE) ScalarObjectDecodeError TE SE CE.
Definition ScalarBatchResumeCycleReport (R : Type) : Type := ResumeCycleReport (ScalarCatchUpOutcome R) R.

#[export] Instance scalar_catch_up_outcome (R : Type) :
  CatchUpOutcome (ScalarCatchUpOutcome R) R (gset RevisionId) := {|
  applied_range catch_up :=
    match catch_up with
    | Applied head _ observed_revision_ids _ => Some (head, observed_revision_ids)
    | _ => None
    end;
  baseline_unavailable catch_up :=
    match catch_up with
    | CatchUpBaselineUnavailable _ => true
    | _ => false
    end;
|}.

Section resume.
Context `{Aead} {St Tr TC CC : Type} `{SyncRecordStore St} `{OpaqueTransport Tr}
  `{!TrustedStateCodec TC (LocalScalarSnapshot (list byte))} `{!TransportCursorCodec CC Revision}.

Notation session := (LocalScalarDomain (list byte) * (DurableSyncRecord * St))%type.
Notation resume_error := (ScalarBatchResumeError TransportError TrustedError StoreError CursorError).

(** The body of the loop over the stale publications. *)
Definition prove_observed (spec : ScalarCatchUpSpec) (record : DurableSyncRecord)
    (observed_revision_ids : gset RevisionId) (observed_reconciled : gset PublicationId)
    (publication_id : PublicationId) : result resume_error (gset PublicationId) :=
  entry ← expect (outbox record !! publication_id);
  match objects entry with
  | [object] =>
      pending ← map_err (BatchPendingDecode publication_id) (decode_single_scalar_domain_object
        (spec_key spec) (spec_continuum_id spec) (spec_domain_key spec) object);
      if decide (register_revision_ids pending ⊆ observed_revision_ids) then
        Ok ({[publication_id]} ∪ observed_reconciled)
      else Ok observed_reconciled
  | _ => Ok observed_reconciled
  end.

Definition resume_scalar_outbox_set (trusted_codec : TC) (cursor_codec : CC)
    (catch_up_spec : ScalarCatchUpSpec) :
    stateful (session * Tr) resume_error (ScalarBatchResumeReport Revision) :=
  resume_pass (prove_observed catch_up_spec) cursor_codec
    (catch_up_single_scalar_domain trusted_codec cursor_codec catch_up_spec).

Definition resume_scalar_outbox_set_bounded (trusted_codec : TC) (cursor_codec : CC)
    (catch_up_spec : ScalarCatchUpSpec) :
    stateful (session * Tr) resume_error (ScalarBatchResumeCycleReport Revision) :=
  resume_bounded (resume_scalar_outbox_set trusted_codec cursor_codec catch_up_spec).
End resume.
