(* ===== verification/ResumeRecovery.v ===== *)
(** * Resuming the recovery container

    crates/apc-runtime/src/resume_recovery_batch.rs and
    resume_recovery_cycle.rs: the pass of [ResumeSet] over several domains.  A
    stale publication is proven observed when its objects are one complete
    publication and every revision it carries, in every domain, is among the
    observed ones. *)
From Stdlib Require Import NArith Strings.Byte.
From stdpp Require Import base tactics option list gmap.
From S2P Require Import Prelude BTree Bytes Id Error Scalar Working Domain Projection Crypto Protected.
From S2P Require Import Wire Recovery Transport Session Batch TrustedState TrustedStateSet Catchup CatchupSet ResumeSet.

Record ScalarRecoveryResumeSpec : Type := ScalarRecoveryResumeSpec_mk {
  resume_key : ContentKey;
  resume_continuum_id : ContinuumId;
  resume_pre_observation_revision_ids : gmap DomainKey RevisionId;
}.

Definition ScalarRecoveryResumeAction (R : Type) : Type := ResumeAction R.
Definition ScalarRecoveryResumeReport (R : Type) : Type := ResumeReport (ScalarRecoveryCatchUpOutcome R) R.
Definition ScalarRecoveryResumeCycleReport (R : Type) : Type := ResumeCycleReport (ScalarRecoveryCatchUpOutcome R) R.

Inductive PendingRecoveryPublicationDecodeError : Type :=
  | EmptyObjectSet
  | PendingWire (error : ProtectedPartCodecError)
  | PublicationIdMismatch (expected actual : PublicationId)
  | PendingProtection (error : SyncPartError)
  | IncompleteMultipartPublication
  | MultipleCompletedPublications.

Definition ScalarRecoveryResumeError (TE TSE SE CE : Type) : Type :=
  ResumeError (ScalarRecoveryCatchUpError TE TSE SE CE) PendingRecoveryPublicationDecodeError TE SE CE.

#[export] Instance recovery_catch_up_outcome (R : Type) :
  CatchUpOutcome (ScalarRecoveryCatchUpOutcome R) R (gmap DomainKey (gset RevisionId)) := {|
  applied_range catch_up :=
    match catch_up with
    | RecoveryApplied head _ observed_revision_ids _ => Some (head, observed_revision_ids)
    | _ => None
    end;
  baseline_unavailable catch_up :=
    match catch_up with
    | RecoveryBaselineUnavailable _ => true
    | _ => false
    end;
|}.

(** [projection.domains().iter().all(..)]. *)
Definition projection_is_observed (projection : ScalarSyncProjection)
    (observed : gmap DomainKey (gset RevisionId)) : bool :=
  forallb (λ entry : DomainKey * ScalarRegister (list byte),
    match observed !! entry.1 with
    | None => false
    | Some observed_ids =>
        forallb (λ revision, bool_decide (sr_id revision ∈ observed_ids)) (ScalarRegister.revisions_iter entry.2)
    end) (entries_asc (domains projection)).

Section decode.
Context `{Aead}.

(** The locals of [decode_pending_recovery_publication]. *)
Record PendingAssembly : Type := PendingAssembly_mk {
  pending_inbox : MultipartInbox;
  pending_completed : option ScalarSyncProjection;
  pending_seen : gset (list byte);
}.

(** The body of its loop. *)
Definition assemble_pending (key : ContentKey) (continuum_id : ContinuumId)
    (expected_publication_id : PublicationId) (encoded : list byte) :
    stateful PendingAssembly PendingRecoveryPublicationDecodeError unit :=
  self ← get_state;
  if decide (encoded ∈ pending_seen self) then mret tt else
  _ ← put_state (PendingAssembly_mk (pending_inbox self) (pending_completed self) ({[encoded]} ∪ pending_seen self));
  part ← lift_result (map_err PendingWire (decode_protected_sync_part encoded));
  if decide (publication_id part ≠ expected_publication_id) then
    throw (PublicationIdMismatch expected_publication_id (publication_id part)) else
  ingested ← on_field pending_inbox (λ i self, PendingAssembly_mk i (pending_completed self) (pending_seen self))
    (map_err_st PendingProtection (MultipartInbox.ingest key continuum_id part));
  match ingested with
  | None => mret tt
  | Some projection =>
      self ← get_state;
      _ ← put_state (PendingAssembly_mk (pending_inbox self) (Some projection) (pending_seen self));
      match pending_completed self with
      | Some _ => throw MultipleCompletedPublications
      | None => mret tt
      end
  end.

Definition decode_pending_recovery_publication (key : ContentKey) (continuum_id : ContinuumId)
    (expected_publication_id : PublicationId) (encoded_objects : list (list byte)) :
    result PendingRecoveryPublicationDecodeError ScalarSyncProjection :=
  if decide (encoded_objects = []) then Err EmptyObjectSet else
  let '(self, res) := st_for_each (assemble_pending key continuum_id expected_publication_id) encoded_objects
    (PendingAssembly_mk MultipartInbox.new None ∅) in
  _ ← res;
  if decide (MultipartInbox.pending_publications (pending_inbox self) ≠ 0%nat) then
    Err IncompleteMultipartPublication
  else ok_or IncompleteMultipartPublication (pending_completed self).
End decode.

Section resume.
Context `{Aead} {St Tr TC CC : Type} `{SyncRecordStore St} `{OpaqueTransport Tr}
  `{!TrustedStateCodec TC LocalScalarRecoveryState} `{!TransportCursorCodec CC Revision}.

Notation session := (LocalScalarRecoveryState * (DurableSyncRecord * St))%type.
Notation resume_error := (ScalarRecoveryResumeError TransportError TrustedError StoreError CursorError).

(** The body of the loop over the stale publications. *)
Definition prove_recovered (spec : ScalarRecoveryResumeSpec) (record : DurableSyncRecord)
    (observed_revision_ids : gmap DomainKey (gset RevisionId)) (observed_reconciled : gset PublicationId)
    (publication_id : PublicationId) : result resume_error (gset PublicationId) :=
  entry ← expect (outbox record !! publication_id);
  pending ← map_err (BatchPendingDecode publication_id) (decode_pending_recovery_publication
    (resume_key spec) (resume_continuum_id spec) publication_id (objects entry));
  if projection_is_observed pending observed_revision_ids then Ok ({[publication_id]} ∪ observed_reconciled)
  else Ok observed_reconciled.

(** [ScalarRecoveryCatchUpSpec::new(spec.key, ..)]. *)
Definition catch_up_spec_of (spec : ScalarRecoveryResumeSpec) : ScalarRecoveryCatchUpSpec :=
  ScalarRecoveryCatchUpSpec_mk (resume_key spec) (resume_continuum_id spec) (resume_pre_observation_revision_ids spec).

Definition resume_scalar_recovery_outbox_set (trusted_codec : TC) (cursor_codec : CC)
    (spec : ScalarRecoveryResumeSpec) :
    stateful (session * Tr) resume_error (ScalarRecoveryResumeReport Revision) :=
  resume_pass (prove_recovered spec) cursor_codec
    (catch_up_scalar_recovery_state trusted_codec cursor_codec (catch_up_spec_of spec)).

Definition resume_scalar_recovery_outbox_set_bounded (trusted_codec : TC) (cursor_codec : CC)
    (key : ContentKey) (continuum_id : ContinuumId) (pre_observation_revision_ids : gmap DomainKey RevisionId) :
    stateful (session * Tr) resume_error (ScalarRecoveryResumeCycleReport Revision) :=
  resume_bounded (resume_scalar_recovery_outbox_set trusted_codec cursor_codec
    (ScalarRecoveryResumeSpec_mk key continuum_id pre_observation_revision_ids)).
End resume.
