(* ===== verification/ForegroundRecovery.v ===== *)
(** * The foreground recovery runtime (crates/apc-runtime/src/foreground_recovery.rs)

    The owner of one gated transport.  The lifecycle and the guarded transport
    share one flag, which is the cell [foreground] of the guarded transport; the
    lifecycle is private to the runtime and a cycle borrows the runtime
    mutably, so nothing sets the flag while a cycle runs. *)
From Stdlib Require Import NArith Strings.Byte.
From stdpp Require Import base tactics option list gmap.
From S2P Require Import Prelude BTree Bytes Id Error Scalar Domain Projection Crypto.
From S2P Require Import Recovery Transport Session TrustedState TrustedStateSet CatchupSet ResumeSet ResumeRecovery.

Record ForegroundRecoveryCycleSpec : Type := ForegroundRecoveryCycleSpec_mk {
  cycle_key : ContentKey;
  cycle_continuum_id : ContinuumId;
  cycle_pre_observation_revision_ids : gmap DomainKey RevisionId;
}.

Record ForegroundRecoveryRuntime (T : Type) : Type := ForegroundRecoveryRuntime_mk {
  transport : ForegroundTransport T;
}.
Arguments ForegroundRecoveryRuntime_mk {T} _.
Arguments transport {T} _.

Module ForegroundRecoveryRuntime.
Section runtime.
Context {T : Type}.
Implicit Types self : ForegroundRecoveryRuntime T.

Definition new (inner_transport : T) : ForegroundRecoveryRuntime T :=
  let lifecycle := ForegroundSyncLifecycle.new in
  ForegroundRecoveryRuntime_mk (ForegroundSyncLifecycle.guard lifecycle inner_transport).

Definition enter_foreground self : ForegroundRecoveryRuntime T :=
  ForegroundRecoveryRuntime_mk (ForegroundSyncLifecycle.enter_foreground (transport self)).
Definition enter_background self : ForegroundRecoveryRuntime T :=
  ForegroundRecoveryRuntime_mk (ForegroundSyncLifecycle.enter_background (transport self)).
Definition is_foreground self : bool := ForegroundSyncLifecycle.is_foreground (transport self).

Context `{Aead} {St TC CC : Type} `{SyncRecordStore St} `{OpaqueTransport T}
  `{!TrustedStateCodec TC LocalScalarRecoveryState} `{!TransportCursorCodec CC (Revision (Tr := T))}.

(** [&mut self.transport] next to the caller's [recovery], [record] and
    [store]. *)
Definition resume_scalar_recovery (trusted_codec : TC) (cursor_codec : CC) (spec : ForegroundRecoveryCycleSpec) :
    stateful ((LocalScalarRecoveryState * (DurableSyncRecord * St)) * ForegroundRecoveryRuntime T)
      (ScalarRecoveryResumeError (ForegroundTransportError TransportError) TrustedError StoreError CursorError)
      (ScalarRecoveryResumeCycleReport (Revision (Tr := T))) :=
  on_field (λ s, (s.1, transport s.2)) (λ s _, (s.1, ForegroundRecoveryRuntime_mk s.2))
    (resume_scalar_recovery_outbox_set_bounded (Tr := ForegroundTransport T) trusted_codec cursor_codec
      (cycle_key spec) (cycle_continuum_id spec) (cycle_pre_observation_revision_ids spec)).
End runtime.
End ForegroundRecoveryRuntime.
