(* ===== verification/Display.v ===== *)
(** * The texts of errors

    Every [impl Display] of the crates, and the [Debug] texts of identities and
    domain keys that they quote.  A text is the UTF-8 bytes that [format!] makes.
    What [std::io::Error] and a GitHub API write is theirs: a parameter. *)
From Stdlib Require Import Lia NArith Strings.Byte.
From stdpp Require Import base tactics option list gmap.
From S2P Require Import Prelude BTree Bytes Text Id Error Scalar Projection Codec Crypto Protected Wire Fs FsRecovery FsStorage.
From S2P Require Import Recovery Transport Session RecordStore GitHub GitHubCursor TrustedState TrustedStateSet.
From S2P Require Import Publication PublicationSet Receive ResumeRecovery.
Local Open Scope N_scope.

(** [{error}] and [{value:?}]. *)
Class Display (E : Type) := display : E → list byte.
Class Debug (E : Type) := debug : E → list byte.

(** ** Identities and keys *)
Definition id_name (kind : id_kind) : list byte :=
  match kind with
  | ContinuumKind => b_ "ContinuumId"
  | AtomKind => b_ "AtomId"
  | ReplicaKind => b_ "ReplicaId"
  | RevisionKind => b_ "RevisionId"
  | WorkingEpochKind => b_ "WorkingEpochId"
  | PublicationKind => b_ "PublicationId"
  end.

(** The character […]. *)
Definition ellipsis : list byte := [xe2; x80; xa6].

#[export] Instance opaque_id_debug kind : Debug (opaque_id kind) := λ id,
  id_name kind ++ b_ "(" ++ hex (take 4 (id_slice id)) ++ ellipsis ++ b_ ")".

(** [#[derive(Debug)]] of a slice of bytes. *)
Fixpoint debug_items (l : list byte) : list byte :=
  match l with
  | [] => []
  | [b] => decimal_text (Byte.to_N b)
  | b :: l => decimal_text (Byte.to_N b) ++ b_ ", " ++ debug_items l
  end.
#[export] Instance bytes_debug : Debug (list byte) := λ l, b_ "[" ++ debug_items l ++ b_ "]".

#[export] Instance DomainKey_debug : Debug DomainKey := λ key,
  b_ "DomainKey { atom_id: " ++ debug (dk_atom_id key) ++ b_ ", domain: " ++ debug (dk_domain key) ++ b_ " }".

(** ** apc-core *)
#[export] Instance CoreError_display : Display CoreError := λ error,
  match error with
  | DuplicateRevisionConflict revision_id => b_ "revision " ++ debug revision_id ++ b_ " has conflicting statements"
  | RevisionAlreadyKnown revision_id => b_ "revision identity " ++ debug revision_id ++ b_ " is already known"
  | UnknownRevision revision_id => b_ "revision " ++ debug revision_id ++ b_ " is not present in causal state"
  | MissingParent revision_id parent_id =>
      b_ "revision " ++ debug revision_id ++ b_ " depends on missing parent " ++ debug parent_id
  | CausalCycle revision_id => b_ "causal graph contains a cycle at " ++ debug revision_id
  | DuplicateAtomId atom_id => b_ "atom identity " ++ debug atom_id ++ b_ " already exists in this state"
  | ContinuumMismatch l r =>
      b_ "cannot merge different continua: left " ++ debug l ++ b_ ", right " ++ debug r
  | WorkingEpochAlreadyOpen epoch_id => b_ "working epoch " ++ debug epoch_id ++ b_ " is already open"
  | NoWorkingEpoch => b_ "no working epoch is open"
  | DirtyObservationRequiresSeal => b_ "dirty working state must be sealed before remote observation"
  | UnexpectedPreObservationRevision revision_id =>
      b_ "pre-observation revision " ++ debug revision_id ++ b_ " was supplied with no dirty working state"
  | InvalidWorkingSnapshot => b_ "working snapshot pending frontier does not match its causal recovery state"
  | UnknownLocalRevision revision_id => b_ "revision " ++ debug revision_id ++ b_ " is not registered as local"
  | FinalizedStatementConflict revision_id =>
      b_ "finalized statement for revision " ++ debug revision_id ++ b_ " does not match"
  | HandoffRequiresFinalizedRevision revision_id =>
      b_ "transport handoff depends on unfinalized local revision " ++ debug revision_id
  | InvalidFinalizationSnapshot => b_ "finalization snapshot contains inconsistent bookkeeping"
  end.

(** ** apc-crypto *)
#[export] Instance ContentKey_debug : Debug ContentKey := λ _, b_ "ContentKey([REDACTED])".

#[export] Instance ProtectionError_display : Display ProtectionError := λ error,
  match error with
  | EmptyContext => b_ "authenticated protection context must not be empty"
  | RandomnessUnavailable => b_ "cryptographic randomness is unavailable"
  | InvalidEnvelope => b_ "invalid protected envelope"
  | Crypto.UnsupportedVersion version => b_ "unsupported protected envelope version " ++ decimal_text version
  | UnsupportedAlgorithm algorithm => b_ "unsupported protected envelope algorithm " ++ decimal_text algorithm
  | AuthenticationFailed => b_ "protected envelope authentication failed"
  | Crypto.LengthOverflow => b_ "protected envelope length overflows host limits"
  end.

(** ** apc-sync *)
#[export] Instance ProjectionError_display : Display ProjectionError := λ error,
  match error with
  | EmptyDomainIdentifier => b_ "sync domain identifier must not be empty"
  end.

#[export] Instance SyncCodecError_display : Display SyncCodecError := λ error,
  match error with
  | Codec.InvalidMagic => b_ "invalid scalar sync projection magic"
  | Codec.UnsupportedVersion version => b_ "unsupported scalar sync projection version " ++ decimal_text version
  | Codec.UnexpectedEof => b_ "truncated scalar sync projection"
  | Codec.LengthOverflow => b_ "scalar sync projection length overflows limits"
  | Codec.TrailingBytes => b_ "scalar sync projection contains trailing bytes"
  | Codec.DuplicateDomain => b_ "scalar sync projection repeats a domain key"
  | Codec.DuplicateRevisionInSet => b_ "scalar sync projection repeats a revision ID in a set"
  | Codec.Projection error => b_ "invalid sync projection key: " ++ display error
  | Codec.Core error => b_ "invalid scalar sync state: " ++ display error
  end.

#[export] Instance SyncPartError_display : Display SyncPartError := λ error,
  match error with
  | Protected.InvalidMultipartMetadata => b_ "invalid sync multipart metadata"
  | MultipartTotalMismatch => b_ "sync multipart total changed in flight"
  | MultipartPartCollision => b_ "sync multipart index contains conflicting authenticated state"
  | EmptyProjection => b_ "cannot protect an empty sync projection part"
  | SyncPartCodec error => b_ "sync projection codec error: " ++ display error
  | Protection error => b_ "sync protection error: " ++ display error
  | SyncPartCore error => b_ "sync merge error: " ++ display error
  end.

#[export] Instance ProtectedPartCodecError_display : Display ProtectedPartCodecError := λ error,
  match error with
  | Wire.InvalidMagic => b_ "invalid protected sync part magic"
  | Wire.UnsupportedVersion version => b_ "unsupported protected sync part version " ++ decimal_text version
  | Wire.UnexpectedEof => b_ "truncated protected sync part"
  | Wire.LengthOverflow => b_ "protected sync part length overflows host limits"
  | Wire.InvalidMultipartMetadata => b_ "invalid protected sync multipart metadata"
  | Wire.LengthMismatch => b_ "protected sync part length does not match payload"
  end.

#[export] Instance SyncRecoveryError_display : Display SyncRecoveryError := λ error,
  match error with
  | Recovery.InvalidMagic => b_ "invalid durable sync recovery magic"
  | Recovery.UnsupportedVersion version => b_ "unsupported durable sync recovery version " ++ decimal_text version
  | Recovery.UnexpectedEof => b_ "truncated durable sync recovery record"
  | Recovery.LengthOverflow => b_ "durable sync recovery length overflows host limits"
  | Recovery.TrailingBytes => b_ "durable sync recovery record has trailing bytes"
  | Recovery.InvalidBoolean => b_ "invalid durable sync recovery boolean"
  | EmptyTransportCursor => b_ "transport cursor must not be empty"
  | EmptyOutbox => b_ "outbound publication must contain protected objects"
  | EmptyOutboxObject => b_ "outbound protected object must not be empty"
  | DuplicatePublication => b_ "durable sync recovery contains duplicate publication IDs"
  | PublicationIdentityCollision => b_ "publication ID reused for different durable outbox bytes"
  | UnknownOutboxPublication => b_ "cannot retire an unknown durable outbox publication"
  end.

#[export] Instance ForegroundTransportError_display {E : Type} `{Display E} : Display (ForegroundTransportError E) := λ error,
  match error with
  | Backgrounded => b_ "synchronization transport is disabled in background"
  | Inner error => b_ "synchronization transport error: " ++ display error
  end.

#[export] Instance ProtectedSyncStoreError_display {E : Type} `{Display E} : Display (ProtectedSyncStoreError E) := λ error,
  match error with
  | StoreBackend error => b_ "sync recovery backend error: " ++ display error
  | StoreRecovery error => b_ "sync recovery codec error: " ++ display error
  | StoreProtection error => b_ "sync recovery protection error: " ++ display error
  | StoreEmptyContext => b_ "sync recovery context must not be empty"
  end.

(** [core::convert::Infallible]. *)
#[export] Instance Infallible_display : Display Empty_set := λ error, match error with end.

(** ** apc-storage-fs *)
#[export] Instance RecoveryDecodeError_display : Display RecoveryDecodeError := λ error,
  match error with
  | TooShort => b_ "recovery envelope is too short"
  | FsRecovery.InvalidMagic => b_ "recovery envelope has invalid magic"
  | FsRecovery.UnsupportedVersion version => b_ "unsupported recovery envelope version " ++ decimal_text version
  | FsRecovery.LengthOverflow => b_ "recovery envelope length overflows host limits"
  | FsRecovery.LengthMismatch => b_ "recovery envelope length does not match payload"
  | ChecksumMismatch => b_ "recovery envelope checksum mismatch"
  end.

#[export] Instance FsStorageError_display `{Display ErrorKind} : Display FsStorageError := λ error,
  match error with
  | Io error => b_ "filesystem storage error: " ++ display error
  | InvalidRootManifest => b_ "invalid committed-root manifest"
  | InvalidRecoveryRecord => b_ "invalid development recovery record"
  | CandidateIdExhausted => b_ "candidate identifier space exhausted"
  end.

(** ** apc-transport-github *)
#[export] Instance GitHubOidError_display : Display GitHubOidError := λ _,
  b_ "GitHub transport object ID must be non-empty ASCII".

#[export] Instance GitHubTransportError_display {E : Type} `{Display E} : Display (GitHubTransportError E) := λ error,
  match error with
  | Api error => b_ "GitHub transport API error: " ++ display error
  | EmptyPublication => b_ "cannot publish an empty protected object set"
  | BranchUninitialized => b_ "GitHub transport branch has no initial commit"
  | GitHub.InvalidCommitIdentity => b_ "GitHub API returned commit metadata for a different object ID"
  | InvalidCreatedHead => b_ "GitHub publication did not advance the transport head"
  | ImmutableObjectViolation path => b_ "protected transport object path was mutated: " ++ path
  | ObjectPathMismatch path => b_ "protected transport object bytes do not match path: " ++ path
  end.

(** ** apc-runtime *)
#[export] Instance GitHubCursorCodecError_display : Display GitHubCursorCodecError := λ error,
  match error with
  | InvalidUtf8 => b_ "GitHub transport cursor is not valid UTF-8"
  | GitHubCursor.InvalidCommitIdentity => b_ "GitHub transport cursor is not a valid commit identity"
  | InvalidTransportCursor => b_ "GitHub commit identity cannot be encoded as a transport cursor"
  end.

#[export] Instance TrustedStateCodecError_display : Display TrustedStateCodecError := λ error,
  match error with
  | TrustedState.InvalidMagic => b_ "invalid local scalar recovery magic"
  | TrustedState.UnsupportedVersion version => b_ "unsupported local scalar recovery version " ++ decimal_text version
  | TrustedState.UnexpectedEof => b_ "truncated local scalar recovery state"
  | TrustedState.LengthOverflow => b_ "local scalar recovery length overflows limits"
  | TrustedState.TrailingBytes => b_ "local scalar recovery state contains trailing bytes"
  | TrustedState.InvalidBoolean => b_ "local scalar recovery state contains invalid boolean"
  | TrustedState.DuplicateRevisionInSet => b_ "local scalar recovery state repeats a revision ID in a set"
  | DuplicateFinalizedStatement => b_ "local scalar recovery state repeats a finalized revision"
  | TrustedState.Core error => b_ "invalid local scalar semantic state: " ++ display error
  end.

#[export] Instance LocalScalarRecoveryStateError_display : Display LocalScalarRecoveryStateError := λ error,
  match error with
  | StateDuplicateDomain => b_ "local recovery state already contains this domain"
  | StateCore error => b_ "invalid local scalar recovery domain: " ++ display error
  end.

#[export] Instance MultiScalarTrustedStateCodecError_display : Display MultiScalarTrustedStateCodecError := λ error,
  match error with
  | TrustedStateSet.InvalidMagic => b_ "invalid multi-scalar local recovery magic"
  | TrustedStateSet.UnsupportedVersion version =>
      b_ "unsupported multi-scalar local recovery version " ++ decimal_text version
  | TrustedStateSet.UnexpectedEof => b_ "truncated multi-scalar local recovery state"
  | TrustedStateSet.LengthOverflow => b_ "multi-scalar local recovery length overflows limits"
  | TrustedStateSet.TrailingBytes => b_ "multi-scalar local recovery state contains trailing bytes"
  | TrustedStateSet.DuplicateDomain => b_ "multi-scalar local recovery repeats a domain"
  | Domain error => b_ "invalid local recovery domain key: " ++ display error
  | TrustedStateSet.Scalar error => b_ "invalid nested scalar recovery state: " ++ display error
  end.

#[export] Instance ScalarPublicationPrepareError_display : Display ScalarPublicationPrepareError := λ error,
  match error with
  | EmptyRevisionSet => b_ "scalar publication must name at least one revision"
  | PrepareCore error => b_ "scalar publication semantic error: " ++ display error
  | PrepareProtection error => b_ "scalar publication protection error: " ++ display error
  | PrepareWire error => b_ "scalar publication wire error: " ++ display error
  end.

#[export] Instance RecoveryPublicationPrepareError_display : Display RecoveryPublicationPrepareError := λ error,
  match error with
  | EmptySelection => b_ "multi-domain publication must select at least one domain"
  | EmptyDomainRevisionSet domain_key => b_ "publication domain " ++ debug domain_key ++ b_ " has no selected revisions"
  | PrepareMissingDomain domain_key => b_ "publication references missing local domain " ++ debug domain_key
  | RecoveryPrepareCore error => b_ "multi-domain publication semantic error: " ++ display error
  | RecoveryPrepareProtection error => b_ "multi-domain publication protection error: " ++ display error
  | RecoveryPrepareWire error => b_ "multi-domain publication wire error: " ++ display error
  end.

#[export] Instance ScalarObjectDecodeError_display : Display ScalarObjectDecodeError := λ error,
  match error with
  | DecodeWire error => b_ "protected scalar wire error: " ++ display error
  | DecodeProtection error => b_ "protected scalar authentication error: " ++ display error
  | MultipartUnsupported => b_ "single-object scalar receive path cannot accept multipart state"
  | IncompleteMultipartPublications count =>
      b_ "fetched scalar range contains " ++ decimal_text (N.of_nat count) ++ b_ " incomplete multipart publications"
  | UnexpectedDomainCount count => b_ "single-domain scalar object contains " ++ decimal_text count ++ b_ " domains"
  | MissingExpectedDomain => b_ "protected scalar object does not contain the expected domain"
  end.

#[export] Instance PendingRecoveryPublicationDecodeError_display : Display PendingRecoveryPublicationDecodeError := λ error,
  match error with
  | EmptyObjectSet => b_ "pending publication contains no protected objects"
  | PendingWire error => b_ "pending publication wire error: " ++ display error
  | PublicationIdMismatch expected actual =>
      b_ "pending publication wire identity mismatch: expected " ++ debug expected ++ b_ ", got " ++ debug actual
  | PendingProtection error => b_ "pending publication protection error: " ++ display error
  | IncompleteMultipartPublication => b_ "pending publication does not contain a complete multipart set"
  | MultipleCompletedPublications => b_ "pending outbox entry contains more than one completed publication"
  end.

(** * Texts are UTF-8

    A Rust [String] is UTF-8 by construction; here texts are bytes, and that is a
    law of each of them. *)

Class DisplayLaws (E : Type) `{Display E} : Prop := display_utf8 (e : E) : utf8_valid (display e) = true.
Class DebugLaws (E : Type) `{Debug E} : Prop := debug_utf8 (e : E) : utf8_valid (debug e) = true.

(** Splits a concatenation, not the texts it is made of. *)
Ltac split_text := repeat match goal with |- utf8_valid (_ ++ _) = true => apply utf8_app end.

(** ** Numbers *)
Lemma strip_zeros_sub l b : b ∈ strip_zeros l → b ∈ l.
Proof.
  induction l as [|c l IH]; [done|]. destruct (decide (c = x30)) as [->|Hc].
  - cbn. intros Hb. right. by apply IH.
  - assert (strip_zeros (c :: l) = c :: l) as ->; [|done]. by destruct c.
Qed.

Lemma decimal_text_utf8 n : utf8_valid (decimal_text n) = true.
Proof.
  apply utf8_ascii. intros b. unfold decimal_text.
  destruct (strip_zeros (decimal 20 n)) as [|c l] eqn:Hs; [intros ->%list_elem_of_singleton; done|].
  intros Hb. assert (b ∈ decimal 20 n) as Hd by (apply strip_zeros_sub; by rewrite Hs).
  apply decimal_digits in Hd. unfold is_ascii_digit, in_range in Hd.
  apply andb_true_iff in Hd as [_ Hd%N.leb_le]. lia.
Qed.

Lemma hex_utf8 l : utf8_valid (hex l) = true.
Proof.
  apply utf8_ascii. intros b (c & Hb & _)%list_elem_of_bind.
  assert (∀ m, m < 16 → Byte.to_N (hex_digit m) < 0x80) as Hd.
  { intros m Hm. unfold hex_digit. rewrite byte_of_N_to_N. destruct (N.ltb_spec m 10); rewrite N.mod_small; lia. }
  pose proof (Byte.to_N_bounded c). apply elem_of_cons in Hb as [->|Hb%list_elem_of_singleton];
    [|subst b]; apply Hd; [apply N.Div0.div_lt_upper_bound; lia|by apply N.mod_lt].
Qed.

(** ** Debug texts *)
#[export] Instance opaque_id_debug_laws kind : DebugLaws (opaque_id kind).
Proof.
  intros id. unfold debug, opaque_id_debug. split_text; [by destruct kind|done|apply hex_utf8|done..].
Qed.

#[export] Instance bytes_debug_laws : DebugLaws (list byte).
Proof.
  intros l. unfold debug, bytes_debug. apply utf8_app; [done|]. apply utf8_app; [|done].
  induction l as [|b [|b' l] IH]; [done|apply decimal_text_utf8|].
  change (utf8_valid (decimal_text (Byte.to_N b) ++ b_ ", " ++ debug_items (b' :: l)) = true).
  apply utf8_app; [apply decimal_text_utf8|]. by apply utf8_app.
Qed.

#[export] Instance ContentKey_debug_laws : DebugLaws ContentKey.
Proof. done. Qed.

#[export] Instance DomainKey_debug_laws : DebugLaws DomainKey.
Proof.
  intros key. unfold debug, DomainKey_debug. split_text; [done|apply debug_utf8|done|apply debug_utf8|done].
Qed.

(** ** Display texts *)

(** A text is made of literals, numbers and other texts. *)
Ltac display_laws :=
  intros []; unfold display at 1;
  match goal with
  | |- utf8_valid (?f _ _ _) = true => unfold f
  | |- utf8_valid (?f _ _) = true => unfold f
  | |- utf8_valid (?f _) = true => unfold f
  end; cbv beta iota;
  split_text;
  first [apply decimal_text_utf8 | apply debug_utf8 | apply display_utf8 | vm_compute; reflexivity].

#[export] Instance CoreError_display_laws : DisplayLaws CoreError.
Proof. display_laws. Qed.
#[export] Instance ProtectionError_display_laws : DisplayLaws ProtectionError.
Proof. display_laws. Qed.
#[export] Instance ProjectionError_display_laws : DisplayLaws ProjectionError.
Proof. display_laws. Qed.
#[export] Instance SyncCodecError_display_laws : DisplayLaws SyncCodecError.
Proof. display_laws. Qed.
#[export] Instance SyncPartError_display_laws : DisplayLaws SyncPartError.
Proof. display_laws. Qed.
#[export] Instance ProtectedPartCodecError_display_laws : DisplayLaws ProtectedPartCodecError.
Proof. display_laws. Qed.
#[export] Instance SyncRecoveryError_display_laws : DisplayLaws SyncRecoveryError.
Proof. display_laws. Qed.
#[export] Instance Infallible_display_laws : DisplayLaws Empty_set.
Proof. intros []. Qed.
#[export] Instance ProtectedSyncStoreError_display_laws {E : Type} `{DisplayLaws E} : DisplayLaws (ProtectedSyncStoreError E).
Proof. display_laws. Qed.
#[export] Instance ForegroundTransportError_display_laws {E : Type} `{DisplayLaws E} : DisplayLaws (ForegroundTransportError E).
Proof. display_laws. Qed.
#[export] Instance RecoveryDecodeError_display_laws : DisplayLaws RecoveryDecodeError.
Proof. display_laws. Qed.
#[export] Instance FsStorageError_display_laws `{DisplayLaws ErrorKind} : DisplayLaws FsStorageError.
Proof. display_laws. Qed.
#[export] Instance GitHubCursorCodecError_display_laws : DisplayLaws GitHubCursorCodecError.
Proof. display_laws. Qed.
#[export] Instance TrustedStateCodecError_display_laws : DisplayLaws TrustedStateCodecError.
Proof. display_laws. Qed.
#[export] Instance LocalScalarRecoveryStateError_display_laws : DisplayLaws LocalScalarRecoveryStateError.
Proof. display_laws. Qed.
#[export] Instance MultiScalarTrustedStateCodecError_display_laws : DisplayLaws MultiScalarTrustedStateCodecError.
Proof. display_laws. Qed.
#[export] Instance ScalarPublicationPrepareError_display_laws : DisplayLaws ScalarPublicationPrepareError.
Proof. display_laws. Qed.
#[export] Instance RecoveryPublicationPrepareError_display_laws : DisplayLaws RecoveryPublicationPrepareError.
Proof. display_laws. Qed.
#[export] Instance ScalarObjectDecodeError_display_laws : DisplayLaws ScalarObjectDecodeError.
Proof. display_laws. Qed.
#[export] Instance PendingRecoveryPublicationDecodeError_display_laws : DisplayLaws PendingRecoveryPublicationDecodeError.
Proof. display_laws. Qed.
