(* ===== verification/SessionRuns.v ===== *)
(** * Runs of a durable session

    What the runtime's passes need of the session operations they perform: the
    record and store after a run, what a run leaves in the outbox, which trusted
    states it makes durable, and how often a program calls the transport. *)
From Stdlib Require Import Lia NArith Strings.Byte.
From stdpp Require Import base tactics option list gmap numbers.
From S2P Require Import Prelude Outcome BTree Bytes Id Reader Protected Recovery Transport Session Batch.
Local Open Scope N_scope.

(** ** Runs of a durable session *)
Section runs.
Context {St C R : Type} `{SyncRecordStore St} `{!TransportCursorCodec C R}.
Implicit Types (p : DurableSyncRecord * St) (ops : list (session_op R)).

(** The record and store after a sequence of operations, whatever each returns. *)
Definition run_ops (codec : C) ops p : DurableSyncRecord * St :=
  foldl (λ p op, (run_op codec op p).1) p ops.

Lemma run_session_ops codec ops p unacked : (run_session codec ops p unacked).1 = run_ops codec ops p.
Proof.
  unfold run_ops. revert p unacked. induction ops as [|op ops IH]; intros p unacked; cbn [run_session foldl]; [done|].
  by destruct (run_op codec op p) as [p' ok].
Qed.

Lemma run_ops_app codec ops ops' p : run_ops codec (ops ++ ops') p = run_ops codec ops' (run_ops codec ops p).
Proof. apply foldl_app. Qed.

Lemma run_ops_1 codec op p : run_ops codec [op] p = (run_op codec op p).1.
Proof. done. Qed.

(** A reception moves the trusted state and the cursor together, or nothing. *)
Lemma commit_received_step codec bytes head record (store : St) :
  let '(p', res) := commit_received codec bytes head (record, store) in
  p' = run_ops codec [OpReceive bytes head] (record, store) ∧
  match res with
  | Ok _ => ∃ cursor, encode codec head = Ok cursor ∧
      p'.1 = DurableSyncRecord_mk bytes (Some cursor) (outbox record)
  | _ => p'.1 = record
  end.
Proof.
  rewrite run_ops_1. unfold run_op. destruct (commit_received codec bytes head (record, store)) as [p' res] eqn:Hc.
  split; [done|]. rewrite commit_received_transition, run_transition_cases in Hc.
  destruct (encode codec head) as [cursor|e|]; cbn [map_err mbind result_bind] in Hc; [|by simplify_eq..].
  destruct (persist _ store) as [store' [[]|e|]]; simplify_eq; [|done..]. by exists cursor.
Qed.

(** Retiring a set keeps the trusted state it is given. *)
Lemma commit_batch_step codec ids bytes head record (store : St) :
  let '(p', res) := commit_reconciled_outbox_batch codec ids bytes head (record, store) in
  p' = run_ops codec [OpReconcileBatch ids bytes head] (record, store) ∧
  match res with
  | Ok _ => ∃ cursor, encode codec head = Ok cursor ∧
      p'.1 = DurableSyncRecord_mk bytes (Some cursor) (outbox_without (list_to_set ids) (outbox record))
  | _ => p'.1 = record
  end.
Proof.
  rewrite run_ops_1. unfold run_op.
  destruct (commit_reconciled_outbox_batch codec ids bytes head (record, store)) as [p' res] eqn:Hc.
  split; [done|]. rewrite commit_batch_transition, run_transition_cases in Hc. unfold retired_batch in Hc.
  destruct (decide (list_to_set ids = ∅)); [by simplify_eq|].
  destruct (encode codec head) as [cursor|e|]; cbn [map_err mbind result_bind] in Hc; [|by simplify_eq..].
  destruct (decide (_ ⊆ dom (outbox record))); [|by simplify_eq].
  destruct (persist _ store) as [store' [[]|e|]]; simplify_eq; [|done..]. by exists cursor.
Qed.

Lemma commit_reconciled_step codec pid bytes head record (store : St) :
  let '(p', res) := commit_reconciled_outbox codec pid bytes head (record, store) in
  p' = run_ops codec [OpReconcile pid bytes head] (record, store) ∧
  match res with
  | Ok _ => ∃ cursor, encode codec head = Ok cursor ∧
      p'.1 = DurableSyncRecord_mk bytes (Some cursor) (delete pid (outbox record))
  | _ => p'.1 = record
  end.
Proof.
  rewrite run_ops_1. unfold run_op.
  destruct (commit_reconciled_outbox codec pid bytes head (record, store)) as [p' res] eqn:Hc.
  split; [done|]. rewrite commit_reconciled_transition, run_transition_cases in Hc.
  destruct (encode codec head) as [cursor|e|]; cbn [map_err mbind result_bind] in Hc; [|by simplify_eq..].
  unfold staged in Hc. rewrite retire_outbox_cases in Hc.
  destruct (outbox record !! pid); cbn [mbind result_bind map_err fst snd] in Hc; [|by simplify_eq].
  destruct (persist _ store) as [store' [[]|e|]]; simplify_eq; [|done..]. by exists cursor.
Qed.
(** The cursor of [head] is the durable one. *)
Definition cursor_at (cursors : C) (head : R) (record : DurableSyncRecord) : Prop :=
  ∃ cursor, encode cursors head = Ok cursor ∧ applied_cursor record = Some cursor.
End runs.

(** ** Retiring operations and the outbox *)
Section outbox.
Context {St C R : Type} `{SyncRecordStore St} `{!TransportCursorCodec C R}.
Implicit Types (op : session_op R) (record : DurableSyncRecord).

(** An operation that adds no entry. *)
Definition only_retires op : Prop :=
  match op with
  | OpStage _ _ _ | OpRebase _ _ => False
  | _ => True
  end.

Lemma run_op_outbox codec op record (store : St) pid :
  only_retires op →
  outbox (run_op codec op (record, store)).1.1 !! pid = outbox record !! pid ∨
  outbox (run_op codec op (record, store)).1.1 !! pid = None ∧ op_retires op pid.
Proof.
  intros Honly. rewrite run_op_cases. destruct (op_stage codec op record) as [next|] eqn:Hstage; [|by left].
  destruct (persist next store) as [store' res]. destruct (succeeds res); [|by left]. cbn [fst].
  destruct (op_stage_outbox codec op record next Hstage) as (Hsame & Hgone & Hnew).
  destruct (outbox record !! pid) as [e|] eqn:He, (outbox next !! pid) as [e'|] eqn:He'; [| | |by left].
  - left. f_equal. by eapply Hsame.
  - right. split; [done|]. by eapply Hgone.
  - exfalso. specialize (Hnew pid e' He He'). by destruct op.
Qed.

(** What a run of such operations does to an entry. *)
Lemma run_ops_outbox codec ops record (store : St) pid :
  (∀ op, op ∈ ops → only_retires op) →
  outbox (run_ops codec ops (record, store)).1 !! pid = outbox record !! pid ∨
  outbox (run_ops codec ops (record, store)).1 !! pid = None ∧ ∃ op, op ∈ ops ∧ op_retires op pid.
Proof.
  revert record store. induction ops as [|op ops IH]; intros record store Hops; [by left|].
  change (run_ops codec (op :: ops) (record, store)) with (run_ops codec ops (run_op codec op (record, store)).1).
  pose proof (run_op_outbox codec op record store pid (Hops op ltac:(left))) as Hop.
  destruct (run_op codec op (record, store)) as [[record1 store1] ok]. cbn [fst] in *.
  destruct (IH record1 store1) as [Heq|(Hnone & op' & Hin & Hr)]; [intros op' Hin; apply Hops; by right| |].
  - rewrite Heq. destruct Hop as [->|[-> Hr]]; [by left|right]. split; [done|]. exists op. split; [left|done].
  - right. split; [done|]. exists op'. split; [by right|done].
Qed.

(** No entry is added or changed. *)
Lemma run_ops_shrink codec ops record (store : St) :
  (∀ op, op ∈ ops → only_retires op) → outbox (run_ops codec ops (record, store)).1 ⊆ outbox record.
Proof.
  intros Hops. apply map_subseteq_spec. intros pid e He.
  destruct (run_ops_outbox codec ops record store pid Hops) as [Heq|[Hnone _]]; congruence.
Qed.
End outbox.

(** ** Trusted states a run makes durable *)
Section states.
Context {St C R : Type} `{SyncRecordStore St} `{!TransportCursorCodec C R}.

(** The trusted state an operation makes durable. *)
Definition op_state (op : session_op R) : list byte :=
  match op with
  | OpStage st _ _ | OpReceive st _ | OpReconcile _ st _ | OpReconcileBatch _ st _ => st
  | OpRebase rebase _ => rebased_trusted_state rebase
  end.

Lemma op_stage_state (cursors : C) op record next :
  op_stage (St := St) cursors op record = Some next → trusted_state next = op_state op.
Proof.
  destruct op as [st pid objs|st head|pid st head|pids st head|rebase head]; cbn [op_stage op_state].
  - rewrite result_value_Some, staged_Ok, prepare_outbox_cases.
    destruct (validate_objects objs) as [[]|e|]; [|intros [_ [? [=]]]..]. cbn zeta.
    case_decide; [|intros [_ [? [=]]]]. by intros [<- _].
  - rewrite result_value_Some. by intros (cursor & _ & [= <-])%bind_Ok.
  - intros (cursor & _ & Hs)%bind_Some. rewrite result_value_Some, staged_Ok, retire_outbox_cases in Hs.
    destruct (outbox record !! pid); destruct Hs as [<- [? Hs]]; done.
  - rewrite result_value_Some. unfold retired_batch. case_decide; [done|].
    intros (cursor & _ & Hr)%bind_Ok. case_decide; [|done]. by injection Hr as <-.
  - rewrite result_value_Some. unfold rebased_record. cbn zeta. case_decide; [done|].
    intros (cursor & _ & Hr)%bind_Ok. destruct (outbox record !! _); [|done].
    apply bind_Ok in Hr as (u & _ & Hr). case_decide; [|done]. by injection Hr as <-.
Qed.

(** A record for which a property of trusted states holds keeps it along a run;
    so do the records a run persists without an acknowledgement. *)
Lemma run_session_state (P : list byte → Prop) (cursors : C) ops (p : DurableSyncRecord * St) unacked :
  P (trusted_state p.1) → (∀ next, next ∈ unacked → P (trusted_state next)) →
  (∀ op, op ∈ ops → P (op_state op)) →
  let '(p', unacked') := run_session cursors ops p unacked in
  P (trusted_state p'.1) ∧ ∀ next, next ∈ unacked' → P (trusted_state next).
Proof.
  revert p unacked. induction ops as [|op ops IH]; intros [record store] unacked Hp Hun Hops; cbn [run_session]; [done|].
  pose proof (run_op_cases cursors op record store) as Hcases.
  destruct (run_op cursors op (record, store)) as [p' ok]. cbn [fst].
  assert (∀ next, op_stage (St := St) cursors op record = Some next → P (trusted_state next)) as Hstage.
  { intros next Hn. rewrite (op_stage_state _ _ _ _ Hn). apply Hops. left. }
  assert (P (trusted_state p'.1) ∧ ∀ next, next ∈ (if ok then [] else
      match op_stage (St := St) cursors op record with Some next => next :: unacked | None => unacked end) →
      P (trusted_state next)) as [Hp' Hun'].
  { destruct (op_stage cursors op record) as [next|].
    - destruct (persist next store) as [store' res]. specialize (Hstage next eq_refl).
      destruct (succeeds res); injection Hcases as -> ->; cbn [fst]; (split; [done|]).
      + intros ? Hn. by apply not_elem_of_nil in Hn.
      + intros x [->|Hx]%elem_of_cons; [done|by apply Hun].
    - injection Hcases as -> ->. by split. }
  apply IH; [done|done|]. intros op' Hin. apply Hops. by right.
Qed.

End states.

Section durable_states.
Context {St C R : Type} `{SyncRecordStoreLaws St} `{!TransportCursorCodec C R}.

(** Whatever a power loss leaves after a run, its trusted state is one of those
    the run made durable, or the first one. *)
Lemma run_ops_durable (P : list byte → Prop) (cursors : C) (ops : list (session_op R)) record (store : St) :
  in_step record store → session_storable cursors ops (record, store) →
  P (trusted_state record) → (∀ op, op ∈ ops → P (op_state op)) →
  let '(record', store') := run_ops cursors ops (record, store) in
  store_ok store' ∧ ∀ o, recoverable_record store' o → ∃ found, o = Some found ∧ P (trusted_state found).
Proof.
  intros Hin Hst Hrec Hops.
  pose proof (run_session_backed cursors ops (record, store) [] Hst (proj2 (backed_in_step record store) Hin)) as Hb.
  pose proof (run_session_state P cursors ops (record, store) [] Hrec
    (λ next Hn, False_ind _ (not_elem_of_nil _ Hn)) Hops) as Hs.
  rewrite <-(run_session_ops cursors ops (record, store) []).
  destruct (run_session cursors ops (record, store) []) as [[record' store'] unacked]. cbn [fst].
  destruct Hb as [Hok Hb], Hs as [Hs1 Hs2]. split; [exact Hok|].
  intros o [->|(next & Hn & ->)]%Hb; eauto.
Qed.

(** After at most one operation, a power loss leaves the old record or the one
    the operation stages. *)
Lemma run_one_durable (Q : session_op R → Prop) (cursors : C) ops record (store : St) record' store' :
  in_step record store → (ops = [] ∨ ∃ op, ops = [op] ∧ Q op) → run_ops cursors ops (record, store) = (record', store') →
  (∀ op next, Q op → op_stage (St := St) cursors op record = Some next → storable store next) →
  store_ok store' ∧ ∀ o, recoverable_record store' o →
    o = Some record ∨ ∃ op next, Q op ∧ op_stage (St := St) cursors op record = Some next ∧ o = Some next.
Proof.
  intros Hin [->|(op & -> & Hop)] Hrun Hst.
  { injection Hrun as <- <-. split; [apply Hin|]. intros o Ho. left. by apply Hin. }
  pose proof (run_op_backed cursors op record store [] (λ next, Hst op next Hop) (proj2 (backed_in_step record store) Hin)) as Hb.
  pose proof (run_op_cases cursors op record store) as Hcases. rewrite run_ops_1 in Hrun.
  destruct (run_op cursors op (record, store)) as [p' ok]. cbn [fst snd] in *. subst p'.
  destruct Hb as [Hok Hb]. split; [exact Hok|]. intros o Ho%Hb. clear Hb.
  destruct (op_stage cursors op record) as [next|] eqn:Hn.
  - destruct (persist next store) as [s r]. destruct (succeeds r); simplify_eq;
      destruct Ho as [->|(n & Hn' & ->)]; [right; by eauto|by apply not_elem_of_nil in Hn'|by left|].
    apply list_elem_of_singleton in Hn' as ->. right; eauto.
  - simplify_eq. destruct Ho as [->|(n & Hn' & _)]; [by left|by apply not_elem_of_nil in Hn'].
Qed.
End durable_states.

(** ** Calls of the transport *)
Section calls.
Context {Tr : Type} `{OpaqueTransport Tr}.
Implicit Types tr : Tr.

(** [tr'] is [tr] after [n] fetches and [m] publications, in some order. *)
Inductive calls : nat → nat → Tr → Tr → Prop :=
  | calls_none tr : calls 0 0 tr tr
  | calls_fetch n m known tr tr' : calls n m (fetch_since known tr).1 tr' → calls (S n) m tr tr'
  | calls_publish n m expected objs tr tr' :
      calls n m (publish expected objs tr).1 tr' → calls n (S m) tr tr'.

Lemma calls_trans n m n' m' tr tr' tr'' :
  calls n m tr tr' → calls n' m' tr' tr'' → calls (n + n') (m + m') tr tr''.
Proof. induction 1; intros; cbn; [done|eapply calls_fetch; auto|eapply calls_publish; auto]. Qed.

(** At most [n] fetches and [m] publications. *)
Definition calls_within n m tr tr' : Prop := ∃ n' m', (n' ≤ n)%nat ∧ (m' ≤ m)%nat ∧ calls n' m' tr tr'.

Lemma calls_within_refl n m tr : calls_within n m tr tr.
Proof. exists 0%nat, 0%nat. split; [lia|]. split; [lia|]. constructor. Qed.

Lemma calls_within_trans n m n' m' tr tr' tr'' :
  calls_within n m tr tr' → calls_within n' m' tr' tr'' → calls_within (n + n') (m + m') tr tr''.
Proof.
  intros (a & b & Ha & Hb & H1) (a' & b' & Ha' & Hb' & H2). exists (a + a')%nat, (b + b')%nat.
  split; [lia|]. split; [lia|]. by eapply calls_trans.
Qed.

Lemma calls_within_fetch known tr : calls_within 1 0 tr (fetch_since known tr).1.
Proof. exists 1%nat, 0%nat. split; [done|]. split; [done|]. eapply calls_fetch. constructor. Qed.

Lemma calls_within_publish expected objs tr : calls_within 0 1 tr (publish expected objs tr).1.
Proof. exists 0%nat, 1%nat. split; [done|]. split; [done|]. eapply calls_publish. constructor. Qed.

Lemma calls_within_mono n m n' m' tr tr' :
  (n ≤ n')%nat → (m ≤ m')%nat → calls_within n m tr tr' → calls_within n' m' tr tr'.
Proof. intros Hn Hm (a & b & Ha & Hb & Hc). exists a, b. split; [lia|]. split; [lia|done]. Qed.

Context {C : Type} `{!TransportCursorCodec C Revision}.

Lemma fetch_calls record (codec : C) tr : calls_within 1 0 tr (fetch_from_durable_cursor record codec tr).1.
Proof.
  unfold fetch_from_durable_cursor. rewrite st_bind. unfold lift_result, map_err_st.
  destruct (decode_cursor _ _) as [known|e|]; [|apply calls_within_refl..].
  pose proof (calls_within_fetch known tr) as Hc. by destruct (fetch_since known tr).
Qed.

Lemma publish_batch_calls record ids (codec : C) tr : calls_within 0 1 tr (publish_staged_batch record ids codec tr).1.
Proof.
  destruct (publish_batch_cases record ids codec tr) as [(cur & entries & _ & _ & Hpub)|(_ & e & Hpub)]; rewrite Hpub;
    [|apply calls_within_refl].
  rewrite st_bind. unfold lift_result, map_err_st. destruct (map_err _ _) as [expected|e|]; [|apply calls_within_refl..].
  pose proof (calls_within_publish expected (mjoin (objects <$> entries)) tr) as Hc.
  by destruct (publish expected _ tr).
Qed.
End calls.
