(* ===== verification/RuntimeLaws.v ===== *)
(** * Runtime transitions

    What a trusted-state codec promises to the coordinators, the crash safety
    of a transition that swaps a live domain once its record is durable, and
    the contents of a prepared publication (crates/apc-runtime). *)
From Stdlib Require Import Lia NArith Strings.Byte.
From stdpp Require Import base tactics option list gmap numbers.
From S2P Require Import Prelude Outcome BTree Bytes Id Error Worklist Scalar Causal Merge ScalarMerge.
From S2P Require Import Working Finalization Domain Reader RegisterCodec Projection Codec Crypto Protected.
From S2P Require Import Wire Recovery Transport Session TrustedState Publication Receive.
Local Open Scope N_scope.

(** "encode/decode must be mutually consistent for every durable record they
    create"; a vector of bytes is an allocation. *)
Class TrustedStateLaws (C T : Type) `{!EqDecision T} `{!TrustedStateCodec C (LocalScalarSnapshot T)} : Prop :=
  trusted_round_trip (codec : C) (d : LocalScalarDomain T) (bytes : list byte) :
    domain_ok d → encode_trusted codec (LocalScalarDomain.snapshot d) = Ok bytes →
    len bytes ≤ isize_max → decode_trusted codec bytes = Ok (LocalScalarDomain.snapshot d).

#[export] Instance development_scalar_laws : TrustedStateLaws DevelopmentScalarTrustedStateCodec (list byte).
Proof.
  intros codec d bytes Hd Henc Hlen. cbn in *.
  apply (proj2 (decode_trusted_spec bytes Hlen)). by apply encode_trusted_spec; [apply Hd|].
Qed.

(** ** Swapping a live domain *)
Section swap.
Context {D St E E' : Type} `{SyncRecordStore St}.
Implicit Types (m : stateful (DurableSyncRecord * St) E unit) (wrap : E → E').

Definition swap_after m wrap (candidate : D) : stateful (D * (DurableSyncRecord * St)) E' unit :=
  _ ← on_snd (map_err_st wrap m);
  on_fst (put_state candidate).

Lemma swap_after_cases m wrap candidate d p :
  swap_after m wrap candidate (d, p) =
  match m p with
  | (p', Ok _) => ((candidate, p'), Ok tt)
  | (p', Err e) => ((d, p'), Err (wrap e))
  | (p', Panic) => ((d, p'), Panic)
  end.
Proof.
  unfold swap_after. rewrite st_bind. unfold on_snd, on_fst, on_field, map_err_st. cbn.
  by destruct (m p) as [p' [[]|e|]].
Qed.
End swap.

Section safe.
Context {D St E E' : Type} `{SyncRecordStoreLaws St}.

(** The live domain changes exactly when its durable record has. *)
Lemma swap_after_safe (m : stateful (DurableSyncRecord * St) E unit) (wrap : E → E') w stage
    (candidate d : D) record (store : St) :
  (∀ p, m p = run_transition w stage p) → in_step record store →
  (∀ next, stage record = Ok next → storable store next) →
  let '((d', (record', store')), res) := swap_after m wrap candidate (d, (record, store)) in
  store_ok store' ∧
  (∀ o, recoverable_record store' o → o = Some record ∨ ∃ next, stage record = Ok next ∧ o = Some next) ∧
  match res with
  | Ok _ => d' = candidate ∧ stage record = Ok record' ∧ in_step record' store'
  | _ => d' = d ∧ record' = record
  end.
Proof.
  intros Hm Hin Hst. rewrite swap_after_cases, Hm.
  pose proof (run_transition_safe w stage record store Hin Hst) as Hsafe.
  destruct (run_transition w stage (record, store)) as [[record' store'] [[]|e|]];
    destruct Hsafe as (H1 & H2 & H3); (split; [done|]); (split; [done|]); naive_solver.
Qed.
End safe.

(** What [stage_outbound] stages. *)
Lemma staged_prepare_Ok st pid cur objs record next :
  staged (DurableSyncRecord.prepare_outbox st pid cur objs record) = Ok next ↔
  validate_objects objs = Ok tt ∧
  (outbox record !! pid = None ∨ outbox record !! pid = Some (DurableOutboxEntry_mk pid cur objs)) ∧
  next = DurableSyncRecord_mk st (applied_cursor record)
    (<[pid := DurableOutboxEntry_mk pid cur objs]> (outbox record)).
Proof.
  unfold staged. rewrite prepare_outbox_cases. destruct (validate_objects objs) as [[]|e|]; [|by split; [|intros [? _]]..].
  cbn zeta. case_decide; cbn; [|by split; [|intros (_ & ? & _)]]. naive_solver.
Qed.

(** ** The coordinators as swaps *)
Section coordinators.
Context {T St C CC R : Type} `{!EqDecision T} `{SyncRecordStore St}
  `{!TrustedStateCodec C (LocalScalarSnapshot T)} `{!TransportCursorCodec CC R}.

Lemma stage_handoff_eq (codec : C) ids publication (d : LocalScalarDomain T) (p : DurableSyncRecord * St) :
  stage_scalar_handoff codec ids publication (d, p) =
  let '(candidate, handed) := LocalScalarDomain.handoff (elements_asc ids) d in
  match handed, encode_trusted codec (LocalScalarDomain.snapshot candidate) with
  | Ok _, Ok bytes =>
      swap_after (stage_outbound bytes (protected_publication_id publication) (protected_objects publication))
        HandoffSync candidate (d, p)
  | Ok _, Err e => ((d, p), Err (HandoffCodec e))
  | Err e, _ => ((d, p), Err (HandoffCore e))
  | _, _ => ((d, p), Panic)
  end.
Proof.
  unfold stage_scalar_handoff. run_st. cbn [fst].
  destruct (LocalScalarDomain.handoff _ d) as [candidate [[]|e|]]; [|done..].
  cbn [map_err]. run_st. by destruct (encode_trusted _ _).
Qed.

Lemma commit_received_domain_eq (codec : C) (cursor_codec : CC) (received : ReceivedScalarState T R)
    (d : LocalScalarDomain T) (p : DurableSyncRecord * St) :
  commit_received_scalar_domain codec cursor_codec received (d, p) =
  let '(candidate, observed) := LocalScalarDomain.observe_remote (received_remote received)
    (pre_observation_revision_id received) d in
  match observed, encode_trusted codec (LocalScalarDomain.snapshot candidate) with
  | Ok sealed, Ok bytes =>
      let '(s', r) := swap_after (commit_received cursor_codec bytes (received_new_head received))
        ReceiveSync candidate (d, p) in
      (s', _ ← r; Ok sealed)
  | Ok _, Err e => ((d, p), Err (ReceiveTrustedState e))
  | Err e, _ => ((d, p), Err (ReceiveCore e))
  | _, _ => ((d, p), Panic)
  end.
Proof.
  unfold commit_received_scalar_domain. run_st. cbn [fst].
  destruct (LocalScalarDomain.observe_remote _ _ d) as [candidate [sealed|e|]]; [|done..].
  cbn [map_err]. run_st. destruct (encode_trusted _ _) as [bytes|e|]; [|done..].
  cbn [map_err]. run_st. rewrite swap_after_cases, st_bind.
  unfold on_snd, on_fst, on_field, map_err_st. cbn.
  by destruct (commit_received _ _ _ p) as [p' [[]|e|]].
Qed.

(** A record whose trusted state is an encoding recovers to the domain. *)
Lemma recover_encoded `{!TrustedStateLaws C T} (codec : C) (d : LocalScalarDomain T) bytes record :
  domain_ok d → encode_trusted codec (LocalScalarDomain.snapshot d) = Ok bytes → len bytes ≤ isize_max →
  trusted_state record = bytes → recover_scalar_domain record codec = Ok d.
Proof.
  intros Hd Henc Hlen Hts. unfold recover_scalar_domain. rewrite Hts.
  rewrite (trusted_round_trip codec d bytes Hd Henc Hlen). cbn.
  by rewrite domain_restore_snapshot.
Qed.
End coordinators.

(** ** The dependency closure *)
Section closure.
Context {T : Type} `{!EqDecision T}.
Implicit Types (r : ScalarRegister T) (ids closure : gset RevisionId).

(** The loop is the one of [handoff]. *)
Lemma dependency_closure_eq r ids : dependency_closure r ids = FinalizationLedger.handoff_closure r ids.
Proof. reflexivity. Qed.

Definition restricted r closure : ScalarRegister T :=
  ScalarRegister_mk (filter (λ kr, kr.1 ∈ closure) (revisions r)).

Lemma restricted_lookup r closure x rev :
  revisions (restricted r closure) !! x = Some rev ↔ revisions r !! x = Some rev ∧ x ∈ closure.
Proof. unfold restricted; cbn. by rewrite map_lookup_filter_Some. Qed.

(** A register restricted to what a set of revisions depends on is valid. *)
Lemma restricted_valid r ids closure :
  valid r → ids ⊆ dom (revisions r) → (∀ y, y ∈ closure ↔ depends_on r ids y) →
  valid (restricted r closure) ∧ closure ⊆ dom (revisions r).
Proof.
  intros (Hk & Hc & Ha) Hids Hcl.
  assert (closure ⊆ dom (revisions r)) as Hdom.
  { intros y [Hy|(x & Hx & Hy)]%Hcl; [by apply Hids|]. by eapply ancestor_closed. }
  assert (∀ c p, has_parent (restricted r closure) c p → has_parent r c p ∧ c ∈ closure) as Hpar.
  { intros c p (rev & [Hrev Hin]%restricted_lookup & Hp). split; [by exists rev|done]. }
  split; [|done]. split; [|split].
  - intros x rev [Hx _]%restricted_lookup. by apply Hk.
  - intros c p [Hp Hin]%Hpar. assert (p ∈ closure) as Hpc.
    { apply Hcl. apply Hcl in Hin as [Hin|(x & Hx & Hxc)].
      - right. exists c. split; [done|]. by apply tc_once.
      - right. exists x. split; [done|]. by eapply tc_r. }
    pose proof (Hdom p Hpc) as [rev Hrev]%elem_of_dom. apply elem_of_dom. exists rev.
    by apply restricted_lookup.
  - intros x Hx. apply (Ha x). clear -Hx Hpar. unfold ancestor in *. revert Hx.
    generalize x at 1 3. intros y Hx. induction Hx as [y z Hz|y z w Hz _ IH].
    + apply tc_once. by apply Hpar.
    + eapply tc_l; [by apply Hpar|done].
Qed.
End closure.

(** ** Observed domains *)
Section observed.
Context {T : Type} `{!EqDecision T}.
Implicit Types (d : LocalScalarDomain T) (remote : ScalarRegister T).

(** [d] after it has observed [remote] and sealed its open epoch as [pre]: the
    register is the union of both and of the sealed revision, which the ledger
    owns. *)
Definition observed d remote (pre : option RevisionId) (sealed : option (ScalarRevision T))
    (candidate : LocalScalarDomain T) : Prop :=
  let r := causal (working d) in
  let r' := causal (working candidate) in
  domain_ok candidate ∧ pending (working candidate) = None ∧
  revisions r ⊆ revisions r' ∧ revisions remote ⊆ revisions r' ∧
  match pending (working d), pre with
  | Some e, Some x =>
      sealed = Some (sealed_revision x e) ∧ revisions r !! x = None ∧
      revisions r' = <[x := sealed_revision x e]> (revisions r) ∪ revisions remote ∧
      finalization candidate = owned (finalization d) x
  | None, None =>
      sealed = None ∧ revisions r' = revisions r ∪ revisions remote ∧
      finalization candidate = finalization d
  | _, _ => False
  end.

Lemma observe_remote_observed d remote pre candidate sealed :
  domain_ok d → keyed remote →
  LocalScalarDomain.observe_remote remote pre d = (candidate, Ok sealed) →
  observed d remote pre sealed candidate.
Proof.
  intros Hd Hk Ho. pose proof (observe_remote_domain_ok d remote pre Hk Hd) as Hd'. rewrite Ho in Hd'.
  destruct (ScalarRegister.validate remote) as [u|e|] eqn:Hval.
  2,3: exfalso; revert Ho; unfold LocalScalarDomain.observe_remote; rewrite st_bind;
    unfold LocalScalarDomain.on_working, on_field; by rewrite observe_remote_invalid, Hval.
  assert (valid remote) as Hr by by eapply validate_valid.
  rewrite observe_remote_domain_cases in Ho by done.
  destruct (observed_base (working d) pre) as [[w sealed']|e|] eqn:Hb; [|done..].
  pose proof (observed_base_ok _ _ _ _ (proj1 Hd) Hb) as [[Hv _] _].
  pose proof (observed_base_larger _ _ _ _ Hb) as [Hlarge _].
  destruct (ScalarRegister.merge (causal w) remote) as [m|e|] eqn:Hm; [|done..].
  apply merge_Ok in Hm as [Hc ->]; [|done..]. injection Ho as <- ->. unfold observed. cbn.
  split; [exact Hd'|]. split; [done|]. split; [|split].
  - etransitivity; [exact Hlarge|]. apply map_union_subseteq_l.
  - rewrite compatible_union_comm by done. apply map_union_subseteq_l.
  - clear Hd'. unfold observed_base in Hb. destruct (pending (working d)) as [e|], pre as [x|]; try done.
    + destruct (decide _) as [|Hx]; [done|]. apply (inj Ok) in Hb. injection Hb as <- <-.
      by apply eq_None_not_Some in Hx.
    + apply (inj Ok) in Hb. by injection Hb as <- <-.
Qed.
End observed.

(** ** Prepared publications *)
Section prepared.
Context `{AeadLaws}.
Implicit Types (d : LocalScalarDomain (list byte)) (direct closure : gset RevisionId).

Lemma closure_register (r : ScalarRegister (list byte)) direct closure revs :
  valid r → direct ⊆ dom (revisions r) → (∀ y, y ∈ closure ↔ depends_on r direct y) →
  closure_revisions r closure = Ok revs → ScalarRegister.from_revisions revs = Ok (restricted r closure).
Proof.
  intros Hv Hdirect Hcl Hrevs. destruct (restricted_valid r direct closure Hv Hdirect Hcl) as [Hv' Hdom].
  apply from_revisions_Ok. split; [done|]. intros rev. rewrite restricted_lookup.
  unfold closure_revisions in Hrevs. apply try_map_Ok in Hrevs. split.
  - intros Hin. apply list_elem_of_lookup in Hin as [i Hi].
    destruct (Forall2_lookup_r _ _ _ _ _ Hrevs Hi) as (x & Hx & Hrev%ok_or_Ok).
    pose proof (proj1 Hv x rev Hrev) as ->. split; [done|].
    by apply list_elem_of_lookup_2, elem_of_elements_asc in Hx.
  - intros [Hrev Hin]. apply elem_of_elements_asc, list_elem_of_lookup in Hin as [i Hi].
    destruct (Forall2_lookup_l _ _ _ _ _ Hrevs Hi) as (rev' & Hi' & Hrev'%ok_or_Ok).
    unfold ScalarRegister.revision in Hrev'. simplify_eq. by eapply list_elem_of_lookup_2.
Qed.

(** A handoff on a domain: what it checks and what it exposes. *)
Lemma domain_handoff_spec {T} `{!EqDecision T} (d : LocalScalarDomain T) (direct : gset RevisionId) (candidate : LocalScalarDomain T) :
  domain_ok d → LocalScalarDomain.handoff (elements_asc direct) d = (candidate, Ok tt) →
  let r := causal (working d) in
  domain_ok candidate ∧ working candidate = working d ∧
  finalized (finalization candidate) = finalized (finalization d) ∧ direct ⊆ dom (revisions r) ∧
  (∀ x, exposes r (finalization d) direct x → x ∈ dom (finalized (finalization d)) ∧
    x ∈ exposed_local_ids (finalization candidate)).
Proof.
  intros Hd Hh r. pose proof (run_domain_call_ok (Handoff (elements_asc direct)) d I Hd) as Hd'.
  cbn [run_domain_call] in Hd'. rewrite Hh in Hd'. split; [exact Hd'|].
  unfold LocalScalarDomain.handoff in Hh. rewrite on_finalization_eq in Hh.
  pose proof (handoff_spec r (finalization d) (elements_asc direct) (domain_ok_causal d Hd) (proj2 Hd)) as Hs.
  fold r in Hh. destruct (FinalizationLedger.handoff r _ _) as [l' res]. cbn [fst snd] in Hh.
  injection Hh as <- ->. cbn zeta in Hs. rewrite list_to_set_elements_asc in Hs.
  destruct Hs as (Hk & Hfin & _ & Hfz & Hexp & _). split; [done|]. split; [done|]. split; [done|].
  intros x Hx. split; [by apply Hfin|]. cbn. apply Hexp. by right.
Qed.

Lemma prepare_Ok gen d dk c pid key ids prepared :
  domain_ok d → prepare_scalar_handoff gen d dk c pid key ids = Ok prepared →
  let direct : gset RevisionId := list_to_set ids in
  let r := causal (working d) in
  direct ≠ ∅ ∧ prepared_revision_ids prepared = direct ∧
  (LocalScalarDomain.handoff (elements_asc direct) d).2 = Ok tt ∧
  ∃ closure part wire, (∀ y, y ∈ closure ↔ depends_on r direct y) ∧ direct ⊆ dom (revisions r) ∧
    protect_scalar_part gen key c pid 0 1 (SyncProjection_mk {[dk := restricted r closure]}) = Ok part ∧
    encode_protected_sync_part part = Ok wire ∧
    prepared_publication prepared = ProtectedPublication_mk pid [wire].
Proof.
  intros Hd Hp direct r. unfold prepare_scalar_handoff in Hp. cbn zeta in Hp. fold direct in Hp.
  destruct (decide (direct = ∅)) as [|Hne]; [done|].
  destruct (LocalScalarDomain.handoff (elements_asc direct) d) as [candidate handed] eqn:Hh.
  apply bind_Ok in Hp as ([] & Hhanded%map_err_Ok & Hp). subst handed.
  destruct (domain_handoff_spec d direct candidate Hd Hh) as (_ & _ & _ & Hdirect & _). fold r in Hdirect.
  change (LocalScalarDomain.domain_causal d) with r in Hp.
  assert (valid r) as Hv by by apply domain_ok_causal.
  apply bind_Ok in Hp as (closure & Hclosure%map_err_Ok & Hp). rewrite dependency_closure_eq in Hclosure.
  pose proof (handoff_closure_spec r direct (proj1 (proj2 Hv))) as Hspec. rewrite Hclosure in Hspec.
  destruct Hspec as [_ Hcl]. apply bind_Ok in Hp as (revs & Hrevs%map_err_Ok & Hp).
  rewrite (closure_register r direct closure revs Hv Hdirect Hcl Hrevs) in Hp. cbn [map_err mbind result_bind] in Hp.
  apply bind_Ok in Hp as (part & Hpart%map_err_Ok & Hp).
  apply bind_Ok in Hp as (wire & Hwire%map_err_Ok & Hp). apply (inj Ok) in Hp as <-.
  split; [done|]. split; [done|]. split; [done|]. by exists closure, part, wire.
Qed.

(** What is prepared is what is received. *)
Lemma prepare_decode gen d dk c pid key ids prepared :
  domain_ok d → dk_domain dk ≠ [] → prepare_scalar_handoff gen d dk c pid key ids = Ok prepared →
  let direct : gset RevisionId := list_to_set ids in
  let r := causal (working d) in
  ∃ closure wire, (∀ y, y ∈ closure ↔ depends_on r direct y) ∧
    protected_objects (prepared_publication prepared) = [wire] ∧
    (len wire ≤ isize_max → decode_single_scalar_domain_object key c dk wire = Ok (restricted r closure)).
Proof.
  intros Hd Hdk Hp direct r.
  destruct (prepare_Ok gen d dk c pid key ids prepared Hd Hp) as (_ & _ & _ & closure & part & wire & Hcl & Hdirect & Hpart & Hwire & Hpub).
  fold direct r in Hcl, Hdirect, Hpart. exists closure, wire. split; [done|]. split; [by rewrite Hpub|].
  intros Hlen. destruct (restricted_valid r direct closure (domain_ok_causal d Hd) Hdirect Hcl) as [Hv _].
  assert (projection_valid (SyncProjection_mk {[dk := restricted r closure]})) as Hval.
  { intros k r' Hr'. cbn in Hr'. apply lookup_singleton_Some in Hr' as [<- <-]. done. }
  assert (len (payload part) ≤ isize_max) as Hpay.
  { apply encode_part_Ok in Hwire as (_ & _ & ->). rewrite !len_app in Hlen. lia. }
  destruct (protect_unprotect_part _ _ _ _ _ _ _ _ Hval Hpay Hpart) as (_ & Hi & Ht & Hun).
  unfold decode_single_scalar_domain_object.
  rewrite (proj2 (proj2 (decode_part_spec wire Hlen) part)); cbn [map_err mbind result_bind].
  2:{ split; [|done]. unfold part_fits. rewrite Hi, Ht. by split. }
  rewrite decide_False by (rewrite Hi, Ht; lia). rewrite Hun. cbn [map_err mbind result_bind].
  unfold scalar_register_from_projection, SyncProjection.projection_len, SyncProjection.get. cbn [domains].
  rewrite map_size_singleton. rewrite decide_False by auto. by rewrite lookup_singleton_eq.
Qed.
End prepared.

(** ** Received ranges *)
Section ranges.
Context `{AeadLaws}.
Implicit Types (key : ContentKey) (c : ContinuumId) (dk : DomainKey) (l : list (list byte)).

(** The objects of a range that were not seen before, in order. *)
Fixpoint first_seen (seen : gset (list byte)) l : list (list byte) :=
  match l with
  | [] => []
  | encoded :: l => if decide (encoded ∈ seen) then first_seen seen l
                    else encoded :: first_seen ({[encoded]} ∪ seen) l
  end.

Definition single_part (encoded : list byte) : Prop :=
  ∀ part, decode_protected_sync_part encoded = Ok part → part_index part = 0 ∧ total_parts part = 1.

(** A publication of one part is complete when it arrives. *)
Lemma ingest_single key c part :
  part_index part = 0 → total_parts part = 1 →
  MultipartInbox.ingest key c part MultipartInbox.new =
  (MultipartInbox.new, projection ← unprotect_scalar_part key c part; Ok (Some projection)).
Proof.
  intros Hi Ht. unfold MultipartInbox.ingest. rewrite st_bind. unfold lift_result.
  destruct (unprotect_scalar_part key c part) as [clear|e|]; [|done..].
  rewrite ingest_clear_cases; [|apply new_inbox_ok|unfold metadata_ok; lia]. cbn zeta.
  rewrite decide_True; [|intros pending; unfold MultipartInbox.new; cbn; by rewrite lookup_empty].
  unfold held, MultipartInbox.new. cbn [inbox_pending]. rewrite !lookup_empty.
  rewrite decide_True; [|rewrite insert_empty, map_size_singleton; lia].
  unfold without_pending. cbn [inbox_pending]. rewrite delete_empty. rewrite insert_empty, Hi. reflexivity.
Qed.

Lemma assemble_single key c dk encoded completed seen :
  single_part encoded → encoded ∉ seen →
  assemble_object key c dk encoded (Assembly_mk MultipartInbox.new completed seen) =
  match decode_single_scalar_domain_object key c dk encoded with
  | Ok register => (Assembly_mk MultipartInbox.new (completed ++ [register]) ({[encoded]} ∪ seen), Ok tt)
  | Err e => (Assembly_mk MultipartInbox.new completed ({[encoded]} ∪ seen), Err e)
  | Panic => (Assembly_mk MultipartInbox.new completed ({[encoded]} ∪ seen), Panic)
  end.
Proof.
  intros Hs Hseen. unfold assemble_object, decode_single_scalar_domain_object. run_st.
  cbn [seen_wire_objects inbox]. rewrite decide_False by done. run_st.
  destruct (decode_protected_sync_part encoded) as [part|e|] eqn:Hp; [|done..].
  destruct (Hs part Hp) as [Hi Ht]. cbn [map_err mbind result_bind]. run_st.
  rewrite decide_False by (rewrite Hi, Ht; lia).
  rewrite st_bind. unfold on_field, map_err_st. cbn [inbox]. rewrite ingest_single by done.
  destruct (unprotect_scalar_part key c part) as [projection|e|]; [|done..]. cbn.
  by destruct (scalar_register_from_projection projection dk).
Qed.

Lemma assemble_range key c dk l completed seen :
  (∀ encoded, encoded ∈ l → single_part encoded) →
  let '(self, res) := st_for_each (assemble_object key c dk) l (Assembly_mk MultipartInbox.new completed seen) in
  inbox self = MultipartInbox.new ∧
  match try_map (decode_single_scalar_domain_object key c dk) (first_seen seen l) with
  | Ok registers => res = Ok tt ∧ Receive.completed self = completed ++ registers
  | Err e => res = Err e
  | Panic => res = Panic
  end.
Proof.
  revert completed seen. induction l as [|encoded l IH]; intros completed seen Hl; cbn [st_for_each first_seen].
  { cbn. by rewrite app_nil_r. }
  assert (∀ e, e ∈ l → single_part e) as Hl' by (intros e He; apply Hl; by right).
  rewrite st_bind. destruct (decide (encoded ∈ seen)) as [Hin|Hout].
  - unfold assemble_object at 1. run_st. cbn [seen_wire_objects]. rewrite decide_True by done. run_st.
    by apply IH.
  - rewrite (assemble_single key c dk encoded) by (done || (apply Hl; left)). cbn [try_map].
    destruct (decode_single_scalar_domain_object key c dk encoded) as [register|e|]; [|done..].
    cbn [mbind result_bind]. specialize (IH (completed ++ [register]) ({[encoded]} ∪ seen) Hl').
    destruct (st_for_each _ l _) as [self res]. destruct IH as [Hinbox Hres]. split; [done|].
    destruct (try_map _ _) as [registers|e|]; cbn [mbind result_bind]; [|done..].
    destruct Hres as [-> ->]. by rewrite <-app_assoc.
Qed.
End ranges.
