(* ===== verification/CatchupLaws.v ===== *)
(** * What a catch-up pass does

    The range decoder returns valid registers and at least one of them, so the
    merge always has a value; and the pass is one operation of the durable
    session, whose trusted state is the live domain's. *)
From Stdlib Require Import Lia NArith Strings.Byte.
From stdpp Require Import base tactics option list gmap numbers.
From S2P Require Import Prelude Outcome BTree Bytes Id Error Worklist Scalar Causal Merge ScalarMerge.
From S2P Require Import Working Finalization Domain Reader RegisterCodec Projection Codec Crypto Protected.
From S2P Require Import Wire Recovery Transport Session Batch TrustedState Publication Receive Catchup.
From S2P Require Import SessionRuns RuntimeLaws.
Local Open Scope N_scope.

(** ** Complete ranges *)
Section assembly.
Context `{Aead}.
Implicit Types (self : Assembly) (key : ContentKey) (c : ContinuumId) (dk : DomainKey).

(** Once an object has been seen, a register is complete or a part is held. *)
Definition assembly_ok self : Prop :=
  inbox_valid (inbox self) ∧ (∀ r, r ∈ Receive.completed self → valid r) ∧
  (seen_wire_objects self ≠ ∅ → Receive.completed self ≠ [] ∨ inbox_pending (inbox self) ≠ ∅).

Lemma register_from_projection_valid p dk r :
  projection_valid p → scalar_register_from_projection p dk = Ok r → valid r.
Proof.
  intros Hp. unfold scalar_register_from_projection. case_decide; [done|].
  rewrite ok_or_Ok. intros Hr. by apply (Hp dk).
Qed.

Lemma assemble_object_ok key c dk encoded self :
  assembly_ok self →
  outcome (assemble_object key c dk encoded) self
    (λ self' _, assembly_ok self' ∧ seen_wire_objects self' ≠ ∅) (λ _, True).
Proof.
  intros (Hinbox & Hvalid & Hseen). unfold assemble_object. apply outcome_get.
  destruct (decide (encoded ∈ seen_wire_objects self)) as [Hin|Hout].
  { apply outcome_ret. split; [done|]. set_solver. }
  unfold outcome. run_st. destruct (decode_protected_sync_part encoded) as [part|e|]; [|done..].
  cbn [map_err]. run_st. rewrite st_bind. unfold on_field, map_err_st. cbn [inbox].
  pose proof (ingest_valid key c part (inbox self) Hinbox) as Hingest.
  destruct (MultipartInbox.ingest key c part (inbox self)) as [inbox' [[projection|]|e|]]; cbn [map_err]; [| |done..];
    destruct Hingest as [Hinbox1 Hp].
  - run_st. destruct (scalar_register_from_projection projection dk) as [r|e|] eqn:Hr; [|done..].
    apply register_from_projection_valid in Hr; [|done]. run_st. cbn [Receive.completed seen_wire_objects inbox].
    split; [|cbn; set_solver]. split; [done|]. cbn. split; [|left; by destruct (Receive.completed self)].
    intros r' [?|Hr']%elem_of_app; [by apply Hvalid|]. by apply list_elem_of_singleton in Hr' as ->.
  - run_st. split; [|cbn; set_solver]. split; [done|]. cbn. split; [done|]. by right.
Qed.

Lemma assemble_all_ok key c dk l self :
  assembly_ok self →
  outcome (st_for_each (assemble_object key c dk) l) self
    (λ self' _, assembly_ok self' ∧ (l ≠ [] → seen_wire_objects self' ≠ ∅)) (λ _, True).
Proof.
  revert self. induction l as [|encoded l IH]; intros self Hself; cbn [st_for_each]; [by apply outcome_ret|].
  apply outcome_bind. eapply outcome_mono; [by apply assemble_object_ok| |done].
  intros self1 _ [Hself1 Hseen]. unfold outcome. specialize (IH self1 Hself1). unfold outcome in IH.
  destruct (st_for_each _ l self1) as [self2 [[]|e|]] eqn:Hrun; [|done..].
  destruct IH as [Hself2 Hl]. split; [done|]. intros _. destruct l; [|by apply Hl].
  cbn in Hrun. by injection Hrun as <-.
Qed.

Lemma decode_complete_valid key c dk l registers :
  decode_complete_scalar_domain_objects key c dk l = Ok registers →
  (∀ r, r ∈ registers → valid r) ∧ (l ≠ [] → registers ≠ []).
Proof.
  unfold decode_complete_scalar_domain_objects.
  assert (assembly_ok (Assembly_mk MultipartInbox.new [] ∅)) as Hstart.
  { split; [apply new_inbox_valid|]. cbn. split; [intros r Hr; by apply not_elem_of_nil in Hr|done]. }
  pose proof (assemble_all_ok key c dk l _ Hstart) as Hall. unfold outcome in Hall.
  destruct (st_for_each _ l _) as [self [[]|e|]]; [|done..]. destruct Hall as [(_ & Hvalid & Hne) Hseen].
  cbn [mbind result_bind]. case_decide as Hpend; [done|]. intros [= <-]. split; [done|].
  intros Hl. destruct (Hne (Hseen Hl)) as [|Hp]; [done|]. exfalso. apply Hp.
  unfold MultipartInbox.pending_publications in Hpend. apply map_size_empty_inv. lia.
Qed.

Lemma combine_remote_merge (r : ScalarRegister (list byte)) rs :
  try_fold combine_remote (Some r) rs = (merged ← merge_all r rs; Ok (Some merged)).
Proof.
  unfold merge_all. revert r. induction rs as [|r' rs IH]; intros r; cbn [try_fold]; [done|].
  change (combine_remote (Some r) r') with (merged ← ScalarRegister.merge r r'; Ok (Some merged)).
  change (merge_state r r') with (ScalarRegister.merge r r').
  destruct (ScalarRegister.merge r r') as [merged|e|]; [|done..]. cbn [mbind result_bind]. apply IH.
Qed.

(** The remote register of a range: the merge of all it carries. *)
Definition remote_of (spec : ScalarCatchUpSpec) (l : list (list byte)) (remote : ScalarRegister (list byte)) : Prop :=
  ∃ r rs, decode_complete_scalar_domain_objects (spec_key spec) (spec_continuum_id spec) (spec_domain_key spec) l
      = Ok (r :: rs) ∧ merge_all r rs = Ok remote.

Lemma remote_of_valid spec l remote : remote_of spec l remote → valid remote.
Proof.
  intros (r & rs & Hd & Hm). apply decode_complete_valid in Hd as [Hv _].
  apply (try_fold_inv valid merge_state r rs remote); [apply Hv; left| |exact Hm].
  intros a b x Hb Ha Hx. apply (merge_ok (MergeLaws := scalar_merge_laws) a b x Ha); [|exact Hx].
  apply Hv. by right.
Qed.

(** The [expect] of the catch-up never fires. *)
Lemma combine_remote_spec spec l registers :
  decode_complete_scalar_domain_objects (spec_key spec) (spec_continuum_id spec) (spec_domain_key spec) l
    = Ok registers → l ≠ [] →
  match try_fold combine_remote None registers with
  | Ok combined => ∃ remote, combined = Some remote ∧ remote_of spec l remote
  | Err _ => True
  | Panic => False
  end.
Proof.
  intros Hd Hl. destruct (decode_complete_valid _ _ _ _ _ Hd) as [Hv Hne].
  destruct registers as [|r rs]; [by destruct (Hne Hl)|]. cbn [try_fold combine_remote mbind result_bind].
  rewrite combine_remote_merge. destruct (merge_all r rs) as [remote|e|] eqn:Hm; cbn; [|done|].
  - exists remote. split; [done|]. by exists r, rs.
  - revert Hm. apply (merge_all_no_panic (ok := valid)); [apply Hv; left|]. intros x Hx. apply Hv. by right.
Qed.
End assembly.

Lemma register_revision_ids_dom {T} `{!EqDecision T} (r : ScalarRegister T) :
  keyed r → register_revision_ids r = dom (revisions r).
Proof.
  intros Hk. unfold register_revision_ids, ScalarRegister.revisions_iter. apply set_eq. intros x.
  rewrite elem_of_list_to_set, list_elem_of_fmap, elem_of_dom. setoid_rewrite elem_of_values_asc. split.
  - intros (rev & -> & y & Hy). rewrite (Hk y rev Hy). by exists rev.
  - intros [rev Hrev]. exists rev. split; [symmetry; by apply Hk|by exists x].
Qed.

(** ** The live domain and its record *)
Section live.
Context {T C : Type} `{!EqDecision T} `{!TrustedStateCodec C (LocalScalarSnapshot T)}.

(** The live domain is what a restart recovers from the record in memory; its
    trusted state is a vector, hence an allocation. *)
Definition live (codec : C) (d : LocalScalarDomain T) (record : DurableSyncRecord) : Prop :=
  domain_ok d ∧ (len (trusted_state record) ≤ isize_max → recover_scalar_domain record codec = Ok d).

Lemma live_encoded `{!TrustedStateLaws C T} codec d record :
  domain_ok d → encode_trusted codec (LocalScalarDomain.snapshot d) = Ok (trusted_state record) →
  live codec d record.
Proof. intros Hd He. split; [done|]. intros Hlen. by eapply recover_encoded. Qed.

Lemma live_same_state codec d record record' :
  trusted_state record' = trusted_state record → live codec d record → live codec d record'.
Proof.
  intros Hs [Hd Hr]. split; [done|]. rewrite Hs. intros Hlen. specialize (Hr Hlen).
  unfold recover_scalar_domain in *. by rewrite Hs.
Qed.
End live.

(** ** Committing what was received *)
Section received.
Context {T St TC CC R : Type} `{!EqDecision T} `{SyncRecordStore St}
  `{!TrustedStateCodec TC (LocalScalarSnapshot T)} `{!TrustedStateLaws TC T} `{!TransportCursorCodec CC R}.

Lemma commit_received_domain_step (codec : TC) (cursors : CC) (received : ReceivedScalarState T R)
    (d : LocalScalarDomain T) record (store : St) :
  keyed (received_remote received) → live codec d record →
  let head := received_new_head received in
  let observes sealed := observed d (received_remote received) (pre_observation_revision_id received) sealed in
  let '((d', p'), res) := commit_received_scalar_domain codec cursors received (d, (record, store)) in
  live codec d' p'.1 ∧ outbox p'.1 = outbox record ∧
  (∃ ops, p' = run_ops cursors ops (record, store) ∧
    (ops = [] ∨ ∃ bytes candidate sealed, ops = [OpReceive bytes head] ∧ observes sealed candidate ∧
      encode_trusted codec (LocalScalarDomain.snapshot candidate) = Ok bytes)) ∧
  match res with
  | Ok sealed => observes sealed d' ∧ cursor_at cursors head p'.1
  | _ => d' = d ∧ p'.1 = record
  end.
Proof.
  intros Hk Hlive head observes. rewrite commit_received_domain_eq.
  assert (∃ ops, (record, store) = run_ops cursors ops (record, store) ∧
    (ops = [] ∨ ∃ bytes candidate sealed, ops = [OpReceive bytes head] ∧ observes sealed candidate ∧
      encode_trusted codec (LocalScalarDomain.snapshot candidate) = Ok bytes)) as Hnone.
  { exists []. split; [done|by left]. }
  destruct (LocalScalarDomain.observe_remote _ _ d) as [candidate [sealed|e|]] eqn:Hobs; [|done..].
  apply observe_remote_observed in Hobs; [|apply Hlive|done].
  destruct (encode_trusted codec _) as [bytes|e|] eqn:Henc; [|done..].
  rewrite swap_after_cases. fold head. pose proof (commit_received_step cursors bytes head record store) as Hstep.
  destruct (commit_received cursors bytes head (record, store)) as [p' res].
  destruct Hstep as [-> Hres].
  assert (∃ ops, run_ops cursors [OpReceive bytes head] (record, store) = run_ops cursors ops (record, store) ∧
    (ops = [] ∨ ∃ bytes candidate sealed, ops = [OpReceive bytes head] ∧ observes sealed candidate ∧
      encode_trusted codec (LocalScalarDomain.snapshot candidate) = Ok bytes)) as Hone.
  { eexists. split; [done|]. right. by exists bytes, candidate, sealed. }
  destruct res as [[]|e|]; cbn [mbind result_bind].
  - destruct Hres as (cursor & Hcur & Hrec). rewrite Hrec. cbn [outbox trusted_state].
    split; [apply live_encoded; [apply Hobs|done]|]. split; [done|]. split; [exact Hone|]. split; [done|]. by exists cursor.
  - by rewrite Hres.
  - by rewrite Hres.
Qed.
End received.

(** ** The pass *)
Section pass.
Context `{Aead} {St Tr TC CC : Type} `{SyncRecordStore St} `{OpaqueTransport Tr}
  `{!TrustedStateCodec TC (LocalScalarSnapshot (list byte))} `{!TrustedStateLaws TC (list byte)}
  `{!TransportCursorCodec CC Revision}.
Implicit Types (codec : TC) (cursors : CC) (spec : ScalarCatchUpSpec) (d : LocalScalarDomain (list byte)).

(** The one operation of a pass that was told of [head] and [objects]: the state
    of a domain that has observed the whole range, or of the unchanged one when
    the range carries no object. *)
Definition receives codec spec d head objects (op : session_op Revision) : Prop :=
  ∃ bytes candidate, op = OpReceive bytes head ∧
    encode_trusted codec (LocalScalarDomain.snapshot candidate) = Ok bytes ∧
    (objects = [] ∧ candidate = d ∨
     objects ≠ [] ∧ ∃ remote sealed, remote_of spec objects remote ∧
       observed d remote (spec_pre_observation_revision_id spec) sealed candidate).

Lemma catch_up_changed_step codec cursors spec d record (store : St) head objects :
  live codec d record →
  let '((d', p'), res) := catch_up_changed codec cursors spec head objects (d, (record, store)) in
  live codec d' p'.1 ∧ outbox p'.1 = outbox record ∧
  (∃ ops, p' = run_ops cursors ops (record, store) ∧
    (ops = [] ∨ ∃ op, ops = [op] ∧ receives codec spec d head objects op)) ∧
  match res with
  | Ok (CursorAdvancedWithoutSemanticObjects h) => h = head ∧ objects = [] ∧ d' = d ∧ cursor_at cursors head p'.1
  | Ok (Applied h n ids sealed) => h = head ∧ n = length objects ∧ objects ≠ [] ∧
      ∃ remote, remote_of spec objects remote ∧ ids = dom (revisions remote) ∧
        observed d remote (spec_pre_observation_revision_id spec) sealed d' ∧ cursor_at cursors head p'.1
  | Ok _ => False
  | _ => d' = d ∧ p'.1 = record
  end.
Proof.
  intros Hlive. assert (∃ ops, (record, store) = run_ops cursors ops (record, store) ∧
    (ops = [] ∨ ∃ op, ops = [op] ∧ receives codec spec d head objects op)) as Hnone.
  { exists []. split; [done|by left]. }
  unfold catch_up_changed. destruct (decide (objects = [])) as [Hnil|Hne].
  - run_st. cbn [fst]. destruct (encode_trusted codec _) as [bytes|e|] eqn:Henc; [|done..]. cbn [map_err]. run_st.
    rewrite st_bind. unfold on_snd, on_field, map_err_st. cbn [snd].
    pose proof (commit_received_step cursors bytes head record store) as Hstep.
    destruct (commit_received cursors bytes head (record, store)) as [p' res]. destruct Hstep as [-> Hres].
    assert (∃ ops, run_ops cursors [OpReceive bytes head] (record, store) = run_ops cursors ops (record, store) ∧
      (ops = [] ∨ ∃ op, ops = [op] ∧ receives codec spec d head objects op)) as Hone.
    { eexists. split; [done|]. right. eexists. split; [done|]. exists bytes, d. auto. }
    destruct res as [[]|e|]; cbn [map_err fst].
    + destruct Hres as (cursor & Hcur & Hrec). rewrite st_ret, Hrec. cbn [outbox].
      split; [by apply live_encoded; [apply Hlive|]|]. split; [done|]. split; [exact Hone|].
      split; [done|]. split; [done|]. split; [done|]. by exists cursor.
    + by rewrite Hres.
    + by rewrite Hres.
  - run_st. destruct (decode_complete_scalar_domain_objects _ _ _ objects) as [registers|e|] eqn:Hdec; [|done..].
    cbn [map_err]. run_st. pose proof (combine_remote_spec spec objects registers Hdec Hne) as Hcomb.
    destruct (try_fold combine_remote None registers) as [combined|e|]; [|done..].
    destruct Hcomb as (remote & -> & Hremote). cbn [map_err expect]. run_st.
    pose proof (remote_of_valid _ _ _ Hremote) as [Hk _]. rewrite st_bind. unfold map_err_st.
    pose proof (commit_received_domain_step codec cursors
      (ReceivedScalarState_mk remote (spec_pre_observation_revision_id spec) head) d record store Hk Hlive) as Hstep.
    cbn [received_remote pre_observation_revision_id received_new_head] in Hstep.
    destruct (commit_received_scalar_domain _ _ _ _) as [[d' p'] res].
    destruct Hstep as (Hlive' & Hout & (ops & Hrun & Hops) & Hres).
    assert (∃ ops, p' = run_ops cursors ops (record, store) ∧
      (ops = [] ∨ ∃ op, ops = [op] ∧ receives codec spec d head objects op)) as Hone.
    { exists ops. split; [done|]. destruct Hops as [|(bytes & candidate & sealed & -> & Hobs & Henc)]; [by left|].
      right. eexists. split; [done|]. exists bytes, candidate. split; [done|]. split; [done|]. right. eauto. }
    destruct res as [sealed|e|]; cbn [map_err]; [|done..]. rewrite st_ret.
    split; [done|]. split; [done|]. split; [done|]. split; [done|]. split; [done|]. split; [done|].
    exists remote. split; [done|]. split; [by apply register_revision_ids_dom|done].
Qed.

(** A pass, whatever the transport answers. *)
Lemma catch_up_step codec cursors spec d record (store : St) (tr : Tr) :
  live codec d record →
  let '(((d', p'), tr'), res) := catch_up_single_scalar_domain codec cursors spec ((d, (record, store)), tr) in
  let '(tr1, fetched) := fetch_from_durable_cursor record cursors tr in
  tr' = tr1 ∧ live codec d' p'.1 ∧ outbox p'.1 = outbox record ∧
  (∃ ops, p' = run_ops cursors ops (record, store) ∧
    (ops = [] ∨ ∃ op head objects, ops = [op] ∧ fetched = Ok (Changed head objects) ∧
      receives codec spec d head objects op)) ∧
  match res with
  | Ok (CatchUpUpToDate h) => fetched = Ok (UpToDate h) ∧ d' = d ∧ p' = (record, store)
  | Ok (CatchUpBaselineUnavailable h) => fetched = Ok (BaselineUnavailable h) ∧ d' = d ∧ p' = (record, store)
  | Ok (CursorAdvancedWithoutSemanticObjects h) =>
      fetched = Ok (Changed h []) ∧ d' = d ∧ cursor_at cursors h p'.1
  | Ok (Applied h n ids sealed) => ∃ objects remote,
      fetched = Ok (Changed h objects) ∧ n = length objects ∧ objects ≠ [] ∧ remote_of spec objects remote ∧
      ids = dom (revisions remote) ∧ observed d remote (spec_pre_observation_revision_id spec) sealed d' ∧
      cursor_at cursors h p'.1
  | _ => d' = d ∧ p'.1 = record
  end.
Proof.
  intros Hlive. unfold catch_up_single_scalar_domain. run_st. rewrite st_bind.
  unfold on_snd, on_fst, on_field, map_err_st. cbn [fst snd].
  destruct (fetch_from_durable_cursor record cursors tr) as [tr1 [fetched|e|]]; cbn [map_err].
  - destruct fetched as [h|h objects|h]; cbn [fst snd].
    + rewrite st_ret. split; [done|]. split; [done|]. split; [done|]. split; [|done]. exists []. split; [done|by left].
    + pose proof (catch_up_changed_step codec cursors spec d record store h objects Hlive) as Hstep.
      destruct (catch_up_changed codec cursors spec h objects (d, (record, store))) as [[d' p'] res].
      destruct Hstep as (Hlive' & Hout & (ops & Hrun & Hops) & Hres).
      split; [done|]. split; [done|]. split; [done|]. split.
      { exists ops. split; [done|]. destruct Hops as [|(op & -> & Hop)]; [by left|right]. eauto 10. }
      destruct res as [[|h' n ids sealed|h'|]|e|]; [done| | |done..].
      * destruct Hres as (-> & -> & Hne & remote & ? & ? & ? & ?). exists objects, remote. auto 10.
      * by destruct Hres as (-> & -> & -> & ?).
    + rewrite st_ret. split; [done|]. split; [done|]. split; [done|]. split; [|done]. exists []. split; [done|by left].
  - split; [done|]. split; [done|]. split; [done|]. split; [|done]. exists []. split; [done|by left].
  - split; [done|]. split; [done|]. split; [done|]. split; [|done]. exists []. split; [done|by left].
Qed.
End pass.
