(* ===== verification/ResumeSetLaws.v ===== *)
(** * What settling a set of publications does

    A pass over the outbox is a run of the durable session in which every
    operation is justified: a reception by the fetched range, a retirement by
    authenticated remote revisions or by the transport's acknowledgement of the
    exact staged bytes.  The pass is proved against what it needs of the two
    parts the callers supply: the catch-up ([catch_up_contract]) and the proof
    that a stale publication was observed ([ProvesObserved]). *)
From Stdlib Require Import Lia NArith Strings.Byte.
From stdpp Require Import base tactics option list gmap numbers.
From S2P Require Import Prelude Outcome BTree Bytes Id Reader Protected Recovery Transport Session Batch.
From S2P Require Import SessionRuns ResumeSet.

(** ** Classification *)
Section classify.
Implicit Types (record : DurableSyncRecord) (cur : option TransportCursor) (l : list PublicationId).

Definition staged_at record cur (pid : PublicationId) : Prop :=
  ∃ e, outbox record !! pid = Some e ∧ expected_cursor e = cur.

#[export] Instance staged_at_dec record cur pid : Decision (staged_at record cur pid).
Proof.
  refine (match outbox record !! pid as o return outbox record !! pid = o → Decision _ with
  | Some e => λ Ho, cast_if (decide (expected_cursor e = cur))
  | None => λ Ho, right _
  end eq_refl); abstract (unfold staged_at; rewrite Ho; naive_solver).
Defined.

Lemma classify_all {E} record cur l (current stale : gset PublicationId) :
  (∀ pid, pid ∈ l → is_Some (outbox record !! pid)) →
  ∃ current' stale', try_fold (classify_pending (E := E) record cur) (current, stale) l = Ok (current', stale') ∧
    (∀ pid, pid ∈ current' ↔ pid ∈ current ∨ pid ∈ l ∧ staged_at record cur pid) ∧
    (∀ pid, pid ∈ stale' ↔ pid ∈ stale ∨ pid ∈ l ∧ ¬ staged_at record cur pid).
Proof.
  revert current stale. induction l as [|pid l IH]; intros current stale Hl; cbn [try_fold].
  { exists current, stale. split; [done|]. split; intros x; rewrite elem_of_nil; naive_solver. }
  destruct (Hl pid) as [e He]; [left|].
  assert (classify_pending (E := E) record cur (current, stale) pid =
    if decide (expected_cursor e = cur) then Ok ({[pid]} ∪ current, stale) else Ok (current, {[pid]} ∪ stale)) as ->
    by (unfold classify_pending; by rewrite He).
  assert (∀ x, x ∈ l → is_Some (outbox record !! x)) as Hl' by (intros x Hx; apply Hl; by right).
  destruct (decide (expected_cursor e = cur)) as [Hc|Hc]; cbn [mbind result_bind].
  - destruct (IH ({[pid]} ∪ current) stale Hl') as (c & s & Hf & Hin & Hst). exists c, s. split; [exact Hf|].
    assert (staged_at record cur pid) as Hat by by exists e.
    split; intros x; rewrite ?Hin, ?Hst, elem_of_cons, ?elem_of_union, ?elem_of_singleton; naive_solver.
  - destruct (IH current ({[pid]} ∪ stale) Hl') as (c & s & Hf & Hin & Hst). exists c, s. split; [exact Hf|].
    assert (¬ staged_at record cur pid) as Hat by (intros (e' & He' & Hc'); congruence).
    split; intros x; rewrite ?Hin, ?Hst, elem_of_cons, ?elem_of_union, ?elem_of_singleton; naive_solver.
Qed.

(** The pending publications, split by the durable cursor. *)
Lemma classify_outbox {E} record :
  let cur := applied_cursor record in
  ∃ current stale, try_fold (classify_pending (E := E) record cur) (∅, ∅) (elements_asc (dom (outbox record)))
      = Ok (current, stale) ∧
    (∀ pid, pid ∈ current ↔ staged_at record cur pid) ∧
    (∀ pid, pid ∈ stale ↔ pid ∈ dom (outbox record) ∧ ¬ staged_at record cur pid).
Proof.
  intros cur. destruct (classify_all (E := E) record cur (elements_asc (dom (outbox record))) ∅ ∅)
    as (current & stale & Hf & Hc & Hs).
  { intros pid Hpid%elem_of_elements_asc. by apply elem_of_dom. }
  exists current, stale. split; [done|]. setoid_rewrite elem_of_elements_asc in Hc.
  setoid_rewrite elem_of_elements_asc in Hs. split; intros pid.
  - rewrite Hc. split; [by intros [?%not_elem_of_empty|[_ ?]]|]. intros Hat. right. split; [|done].
    destruct Hat as (e & He & _). apply elem_of_dom. by exists e.
  - rewrite Hs. split; [by intros [?%not_elem_of_empty|?]|by right].
Qed.
End classify.

(** ** Evidence *)

(** [proof v pid e]: the observations [v] carry everything the entry [e] of
    [pid] does. *)
Definition proven_pending {V : Type} (proof : V → PublicationId → DurableOutboxEntry → Prop) (record : DurableSyncRecord) (v : V)
    (pid : PublicationId) : Prop :=
  ∃ e, outbox record !! pid = Some e ∧ proof v pid e.

(** The loop body adds a publication exactly when it is proven observed. *)
Class ProvesObserved {E V : Type}
    (prove : DurableSyncRecord → V → gset PublicationId → PublicationId → result E (gset PublicationId))
    (proof : V → PublicationId → DurableOutboxEntry → Prop) : Prop :=
  proves_observed record v acc acc' pid :
    prove record v acc pid = Ok acc' →
    ∀ x, x ∈ acc' ↔ x ∈ acc ∨ x = pid ∧ proven_pending proof record v pid.

Section evidence.
Context {E V : Type} `{ProvesObserved E V prove proof}.
Implicit Types (record : DurableSyncRecord) (v : V).

Lemma prove_observed_all record v l (acc observed : gset PublicationId) :
  try_fold (prove record v) acc l = Ok observed →
  ∀ pid, pid ∈ observed ↔ pid ∈ acc ∨ pid ∈ l ∧ proven_pending proof record v pid.
Proof.
  revert acc. induction l as [|pid l IH]; intros acc; cbn [try_fold].
  { intros [= <-] x. rewrite elem_of_nil. naive_solver. }
  intros (acc' & Hstep & Hf)%bind_Ok x. rewrite (IH acc' Hf), elem_of_cons.
  rewrite (proves_observed record v acc acc' pid Hstep x). naive_solver.
Qed.

(** Entries that were not touched prove what the whole record proves. *)
Lemma proven_pending_mono record record' v pid :
  outbox record' ⊆ outbox record → proven_pending proof record' v pid → proven_pending proof record v pid.
Proof. intros Hsub (e & He & Hobs). exists e. split; [by eapply lookup_weaken|done]. Qed.
End evidence.

(** ** The two ways a publication is retired *)
Section settle.
Context {D O V U P St Tr CC : Type} `{SyncRecordStore St} `{OpaqueTransport Tr}
  `{!TransportCursorCodec CC Revision} `{!CatchUpOutcome O Revision V}.
Implicit Types (cursors : CC) (d : D) (catch_up : O).
Implicit Types (record : DurableSyncRecord) (store : St) (tr : Tr).

Lemma reconcile_set_step cursors ids head d record store :
  let '((d', p'), res) := reconcile_set (U := U) (P := P) (Tr := Tr) cursors ids head (d, (record, store)) in
  d' = d ∧ p' = run_ops cursors [OpReconcileBatch (elements_asc ids) (trusted_state record) head] (record, store) ∧
  trusted_state p'.1 = trusted_state record ∧
  match res with
  | Ok _ => outbox p'.1 = outbox_without ids (outbox record) ∧ cursor_at cursors head p'.1
  | _ => p'.1 = record
  end.
Proof.
  unfold reconcile_set. run_st. unfold on_snd, on_field, map_err_st. cbn [fst snd].
  pose proof (commit_batch_step cursors (elements_asc ids) (trusted_state record) head record store) as Hstep.
  destruct (commit_reconciled_outbox_batch _ _ _ _ (record, store)) as [p' res]. destruct Hstep as [-> Hres].
  split; [done|]. split; [done|]. destruct res as [[]|e|]; cbn [map_err].
  - destruct Hres as (cursor & Hcur & ->). rewrite list_to_set_elements_asc. cbn.
    split; [done|]. split; [done|]. by exists cursor.
  - by rewrite Hres.
  - by rewrite Hres.
Qed.

(** The transport acknowledged, as [head], the exact staged bytes of a batch
    against the cursor they were staged against. *)
Definition acknowledged cursors record (ids : gset PublicationId) tr head : Prop :=
  ∃ cur entries expected tr', batch_entries record cur (elements_asc ids) entries ∧
    transpose (decode cursors <$> cur) = Ok expected ∧
    publish expected (mjoin (objects <$> entries)) tr = (tr', Ok (Published head)).

Lemma acknowledged_mono cursors record record' ids tr head :
  outbox record' ⊆ outbox record → acknowledged cursors record' ids tr head → acknowledged cursors record ids tr head.
Proof.
  intros Hsub (cur & entries & expected & tr' & He & Hd & Hp). exists cur, entries, expected, tr'.
  split; [|done]. eapply list.Forall2_impl; [exact He|]. intros pid e [Hpid Hcur].
  split; [by eapply lookup_weaken|done].
Qed.

Lemma publish_current_step cursors catch_up (reconciled current : gset PublicationId) d record store tr :
  let '(((d', p'), tr'), res) :=
    publish_current (U := U) (P := P) cursors catch_up reconciled current ((d, (record, store)), tr) in
  d' = d ∧ trusted_state p'.1 = trusted_state record ∧
  (∃ ops, p' = run_ops cursors ops (record, store) ∧ (ops = [] ∨ ∃ head,
    ops = [OpReconcileBatch (elements_asc current) (trusted_state record) head] ∧
    acknowledged cursors record current tr head)) ∧
  match res with
  | Ok report => batch_catch_up report = catch_up ∧ observed_reconciled report = reconciled ∧
      match batch_action report with
      | BatchNone => current = ∅ ∧ p' = (record, store)
      | BatchPublishedAndReconciled ids head =>
          current ≠ ∅ ∧ ids = current ∧ outbox p'.1 = outbox_without current (outbox record) ∧
          cursor_at cursors head p'.1
      | BatchConflict ids _ => current ≠ ∅ ∧ ids = current ∧ p' = (record, store)
      | _ => False
      end
  | _ => p'.1 = record
  end.
Proof.
  assert (∃ ops : list (session_op Revision), (record, store) = run_ops cursors ops (record, store) ∧
    (ops = [] ∨ ∃ head, ops = [OpReconcileBatch (elements_asc current) (trusted_state record) head] ∧
    acknowledged cursors record current tr head)) as Hnone.
  { exists []. split; [done|by left]. }
  unfold publish_current. destruct (decide (current = ∅)) as [Hempty|Hne]; [by rewrite st_ret|].
  run_st. rewrite st_bind. unfold on_snd, on_fst, on_field, map_err_st. cbn [fst snd].
  destruct (publish_batch_cases record (elements_asc current) cursors tr)
    as [(cur & entries & _ & Hentries & Hpub)|(_ & e & Hpub)]; rewrite Hpub; [|done].
  rewrite list_to_set_elements_asc in Hentries. run_st.
  destruct (transpose (decode cursors <$> cur)) as [expected|e|] eqn:Hcur; cbn [map_err]; [|done..].
  unfold map_err_st. destruct (publish expected _ tr) as [tr' [[head|current_head]|e|]] eqn:Hp; cbn [map_err]; [| |done..].
  - rewrite st_bind. cbn [fst snd]. pose proof (reconcile_set_step cursors current head d record store) as Hstep.
    destruct (reconcile_set cursors current head (d, (record, store))) as [[d' p'] res].
    destruct Hstep as (-> & Hrun & Hts & Hres).
    assert (∃ ops : list (session_op Revision), p' = run_ops cursors ops (record, store) ∧
      (ops = [] ∨ ∃ head, ops = [OpReconcileBatch (elements_asc current) (trusted_state record) head] ∧
      acknowledged cursors record current tr head)) as Hops.
    { eexists. split; [exact Hrun|]. right. exists head. split; [done|]. by exists cur, entries, expected, tr'. }
    destruct res as [[]|e|]; [|by split_and!..]. rewrite st_ret. by split_and!.
  - by rewrite st_ret.
Qed.

Context `{!ProvesObserved (E := ResumeError U P TransportError StoreError CursorError) (V := V) prove proof}.
Notation proven := (proven_pending proof).

Lemma settle_stale_step cursors catch_up (stale : gset PublicationId) d record store :
  let '((d', p'), res) := settle_stale (Tr := Tr) prove cursors catch_up stale (d, (record, store)) in
  d' = d ∧ trusted_state p'.1 = trusted_state record ∧
  (∃ ops, p' = run_ops cursors ops (record, store) ∧ (ops = [] ∨ ∃ ids head v,
    applied_range catch_up = Some (head, v) ∧
    ops = [OpReconcileBatch (elements_asc ids) (trusted_state record) head] ∧
    ∀ pid, pid ∈ ids → pid ∈ stale ∧ proven record v pid)) ∧
  match res with
  | Ok (reconciled, stale') => stale' = stale ∖ reconciled ∧ reconciled ⊆ stale ∧
      outbox p'.1 = outbox_without reconciled (outbox record) ∧
      (reconciled = ∅ → p' = (record, store)) ∧
      (reconciled ≠ ∅ → ∃ head v, applied_range catch_up = Some (head, v) ∧ cursor_at cursors head p'.1) ∧
      ∀ head v, applied_range catch_up = Some (head, v) →
        ∀ pid, pid ∈ reconciled ↔ pid ∈ stale ∧ proven record v pid
  | _ => p'.1 = record
  end.
Proof.
  assert (outbox record = outbox_without ∅ (outbox record)) as Hwithout by by rewrite outbox_without_empty.
  unfold settle_stale. destruct (applied_range catch_up) as [[head v]|].
  2: { rewrite st_ret. split; [done|]. split; [done|]. split; [exists []; auto|].
    split; [by rewrite difference_empty_L|]. split; [set_solver|]. split; [done|]. split; [done|]. done. }
  run_st. cbn [fst snd].
  destruct (try_fold _ ∅ (elements_asc stale)) as [reconciled|e|] eqn:Hf.
  2,3: split; [done|]; split; [done|]; split; [exists []; auto|done].
  pose proof (prove_observed_all record v (elements_asc stale) ∅ reconciled Hf) as Hin.
  assert (∀ pid, pid ∈ reconciled ↔ pid ∈ stale ∧ proven record v pid) as Hrec.
  { intros pid. rewrite Hin, elem_of_elements_asc. set_solver. }
  destruct (decide (reconciled = ∅)) as [->|Hne].
  - rewrite st_ret. split; [done|]. split; [done|]. split; [exists []; auto|].
    split; [by rewrite difference_empty_L|]. split; [set_solver|]. split; [done|]. split; [done|].
    split; [by intros []|]. by intros ? ? [= <- <-].
  - rewrite st_bind. pose proof (reconcile_set_step cursors reconciled head d record store) as Hstep.
    destruct (reconcile_set cursors reconciled head (d, (record, store))) as [[d' p'] res].
    destruct Hstep as (-> & Hrun & Hts & Hres).
    assert (∃ ops, p' = run_ops cursors ops (record, store) ∧ (ops = [] ∨ ∃ ids head0 v0,
      Some (head, v) = Some (head0, v0) ∧
      ops = [OpReconcileBatch (elements_asc ids) (trusted_state record) head0] ∧
      ∀ pid, pid ∈ ids → pid ∈ stale ∧ proven record v0 pid)) as Hops.
    { eexists. split; [exact Hrun|]. right. exists reconciled, head, v.
      split; [done|]. split; [done|]. intros pid. apply Hrec. }
    destruct res as [[]|e|]; [|by split_and!..]. rewrite st_ret. destruct Hres as [Hout Hcur].
    split; [done|]. split; [done|]. split; [exact Hops|]. split; [done|].
    split; [intros pid; rewrite Hrec; by intros [? _]|]. split; [done|]. split; [done|].
    split; [intros _; by exists head, v|]. by intros ? ? [= <- <-].
Qed.

(** What a report says of the record it leaves. *)
Definition report_settled cursors (report : ResumeReport O Revision) record : Prop :=
  match batch_action report with
  | BatchNone => outbox record = ∅
  | BatchBlockedByBaseline => baseline_unavailable (batch_catch_up report) = true
  | BatchNeedsRebase ids =>
      ids ≠ ∅ ∧
      (∀ pid, pid ∈ ids ↔ pid ∈ dom (outbox record) ∧ ¬ staged_at record (applied_cursor record) pid) ∧
      (∀ head v, applied_range (batch_catch_up report) = Some (head, v) →
        ∀ pid, pid ∈ ids → ¬ proven record v pid)
  | BatchPublishedAndReconciled ids head => ids ≠ ∅ ∧ outbox record = ∅ ∧ cursor_at cursors head record
  | BatchConflict ids _ =>
      ids ≠ ∅ ∧ ids = dom (outbox record) ∧ ∀ pid, pid ∈ ids → staged_at record (applied_cursor record) pid
  end.

Lemma outbox_without_dom ids (m : gmap PublicationId DurableOutboxEntry) : dom (outbox_without ids m) = dom m ∖ ids.
Proof.
  apply set_eq. intros x. rewrite elem_of_difference, !elem_of_dom, outbox_without_lookup.
  case_decide; split; [by intros []|naive_solver|naive_solver|naive_solver].
Qed.

Lemma outbox_without_sub ids (m : gmap PublicationId DurableOutboxEntry) : outbox_without ids m ⊆ m.
Proof. apply map_filter_subseteq. Qed.

(** Publishing when only current publications are left. *)
Lemma publish_rest_step cursors catch_up reconciled current d record record1 (store1 : St) tr :
  outbox record1 ⊆ outbox record → dom (outbox record1) = current →
  (∀ pid, pid ∈ current → staged_at record1 (applied_cursor record1) pid) →
  let '(((d', p'), tr'), res) :=
    publish_current (U := U) (P := P) cursors catch_up reconciled current ((d, (record1, store1)), tr) in
  d' = d ∧ trusted_state p'.1 = trusted_state record1 ∧
  (∃ ops, p' = run_ops cursors ops (record1, store1) ∧ ∀ op, op ∈ ops →
    ∃ ids head, op = OpReconcileBatch (elements_asc ids) (trusted_state record1) head ∧
      acknowledged cursors record ids tr head) ∧
  match res with
  | Ok report => report_settled cursors report p'.1
  | _ => True
  end.
Proof.
  intros Hsub Hdom Hat. pose proof (publish_current_step cursors catch_up reconciled current d record1 store1 tr) as Hstep.
  destruct (publish_current _ _ _ _ _) as [[[d' p'] tr'] res]. destruct Hstep as (-> & Hts & (ops & Hrun & Hops) & Hres).
  split; [done|]. split; [done|]. split.
  { exists ops. split; [done|]. intros op Hop. destruct Hops as [->|(head & -> & Hack)]; [by apply not_elem_of_nil in Hop|].
    apply list_elem_of_singleton in Hop as ->. exists current, head. split; [done|]. by eapply acknowledged_mono. }
  destruct res as [report|e|]; [|done..]. destruct Hres as (_ & _ & Hres). unfold report_settled.
  destruct (batch_action report) as [| |ids|ids head|ids h]; [|done|done|..].
  - destruct Hres as [-> ->]. by apply dom_empty_inv_L.
  - destruct Hres as (Hne & -> & Hout & Hcur). split; [done|]. split; [|done].
    apply dom_empty_inv_L. rewrite Hout, outbox_without_dom, Hdom. apply difference_diag_L.
  - destruct Hres as (Hne & -> & ->). split; [done|]. by split.
Qed.

(** Why settling retires a set with [head]. *)
Definition settles cursors catch_up record tr ids head : Prop :=
  (∃ v, applied_range catch_up = Some (head, v) ∧ ∀ pid, pid ∈ ids → proven record v pid) ∨
  acknowledged cursors record ids tr head.

(** [current] and [stale] as the classification of the outbox leaves them. *)
Definition classified record (current stale : gset PublicationId) : Prop :=
  (∀ pid, pid ∈ current ↔ staged_at record (applied_cursor record) pid) ∧
  (∀ pid, pid ∈ stale ↔ pid ∈ dom (outbox record) ∧ ¬ staged_at record (applied_cursor record) pid).

(** [record1] is [record] without the [reconciled] part of [stale]. *)
Definition retired record record1 (reconciled stale : gset PublicationId) : Prop :=
  reconciled ⊆ stale ∧ outbox record1 = outbox_without reconciled (outbox record) ∧
  applied_cursor record1 = applied_cursor record.

Lemma retired_dom record record1 reconciled stale pid :
  retired record record1 reconciled stale →
  pid ∈ dom (outbox record1) ↔ pid ∈ dom (outbox record) ∧ pid ∉ reconciled.
Proof. intros (_ & Hout & _). by rewrite Hout, outbox_without_dom, elem_of_difference. Qed.

Lemma retired_staged record record1 reconciled stale pid :
  retired record record1 reconciled stale → pid ∈ dom (outbox record1) →
  staged_at record1 (applied_cursor record1) pid ↔ staged_at record (applied_cursor record) pid.
Proof.
  intros (_ & Hout & ->) [e1 He1]%elem_of_dom.
  assert (outbox record !! pid = Some e1) as He.
  { apply (lookup_weaken _ _ _ _ He1). rewrite Hout. apply outbox_without_sub. }
  unfold staged_at. by rewrite He1, He.
Qed.

(** Once every stale publication is retired, the current ones are left. *)
Lemma retired_rest record record1 current reconciled stale :
  classified record current stale → retired record record1 reconciled stale → stale ∖ reconciled = ∅ →
  dom (outbox record1) = current ∧ ∀ pid, pid ∈ current → staged_at record1 (applied_cursor record1) pid.
Proof.
  intros [Hc Hs] Hret Hgone. assert (dom (outbox record1) = current) as Hdom.
  { apply set_eq. intros pid. rewrite (retired_dom _ _ _ _ pid Hret), Hc. split.
    - intros [Hpid Hnr]. destruct (decide (staged_at record (applied_cursor record) pid)); [done|].
      exfalso. apply (not_elem_of_empty (C := gset PublicationId) pid). rewrite <-Hgone. set_solver.
    - intros Hat. split; [destruct Hat as (e & He & _); apply elem_of_dom; by exists e|].
      intros Hr%(proj1 Hret)%Hs. by destruct Hr. }
  split; [done|]. intros pid Hpid. rewrite <-Hdom in Hpid.
  apply (retired_staged _ _ _ _ pid Hret Hpid), Hc. by rewrite <-Hdom.
Qed.

(** What stays stale is what [BatchNeedsRebase] promises. *)
Lemma retired_rebase cursors catch_up record record1 current reconciled stale ids :
  classified record current stale → retired record record1 reconciled stale →
  (∀ head v, applied_range catch_up = Some (head, v) → ∀ pid, pid ∈ reconciled ↔ pid ∈ stale ∧ proven record v pid) →
  ids = stale ∖ reconciled → ids ≠ ∅ →
  report_settled cursors (ResumeReport_mk catch_up reconciled (BatchNeedsRebase ids)) record1.
Proof.
  intros [_ Hs] Hret Happ -> Hleft. unfold report_settled; cbn. split; [done|]. split.
  - intros pid. rewrite elem_of_difference, Hs, (retired_dom _ _ _ _ pid Hret). split.
    + intros [[Hpid Hnot] Hnr]. split; [done|]. rewrite (retired_staged _ _ _ _ pid Hret); [done|]. by apply (retired_dom _ _ _ _ pid Hret).
    + intros [[Hpid Hnr] Hnot]. split; [|done]. split; [done|].
      rewrite <-(retired_staged _ _ _ _ pid Hret); [done|]. by apply (retired_dom _ _ _ _ pid Hret).
  - intros head v Hcu pid [Hst Hnr]%elem_of_difference Hobs. apply Hnr, (Happ _ _ Hcu). split; [done|].
    eapply proven_pending_mono; [|exact Hobs]. rewrite (proj1 (proj2 Hret)). apply outbox_without_sub.
Qed.

(** Classifying, retiring what is observed and publishing what is current. *)
Lemma settle_outbox_step cursors catch_up d record store tr :
  (∀ head v, applied_range catch_up = Some (head, v) → cursor_at cursors head record) →
  let '(((d', p'), tr'), res) :=
    settle_outbox prove cursors catch_up (dom (outbox record)) ((d, (record, store)), tr) in
  d' = d ∧ trusted_state p'.1 = trusted_state record ∧
  (∃ ops, p' = run_ops cursors ops (record, store) ∧ ∀ op, op ∈ ops →
    ∃ ids head, op = OpReconcileBatch (elements_asc ids) (trusted_state record) head ∧
      settles cursors catch_up record tr ids head) ∧
  match res with
  | Ok report => report_settled cursors report p'.1
  | _ => True
  end.
Proof.
  intros Hcur. unfold settle_outbox. run_st. cbn [fst snd].
  destruct (classify_outbox (E := ResumeError U P (TransportError (Tr := Tr))
    (StoreError (St := St)) (CursorError (C := CC) (R := Revision))) record) as (current & stale & Hf & Hclass).
  rewrite Hf. run_st. destruct (decide (stale = ∅)) as [->|Hne].
  - destruct (retired_rest record record current ∅ ∅) as [Hdom Hat]; [done| |set_solver|].
    { split; [done|]. by rewrite outbox_without_empty. }
    pose proof (publish_rest_step cursors catch_up ∅ current d record record store tr (reflexivity _) Hdom Hat) as Hstep.
    destruct (publish_current _ _ _ _ _) as [[[d' p'] tr'] res]. destruct Hstep as (-> & Hts & (ops & Hrun & Hops) & Hres).
    split; [done|]. split; [done|]. split; [|done]. exists ops. split; [done|].
    intros op Hop. destruct (Hops op Hop) as (ids & head & -> & Hack). exists ids, head. split; [done|]. by right.
  - rewrite st_bind. unfold on_fst, on_field. cbn [fst snd].
    pose proof (settle_stale_step cursors catch_up stale d record store) as Hstep.
    destruct (settle_stale prove cursors catch_up stale (d, (record, store))) as [[d1 [record1 store1]] res1].
    cbn [fst] in Hstep. destruct Hstep as (-> & Hts1 & (ops1 & Hrun1 & Hops1) & Hres1).
    assert (∀ op, op ∈ ops1 → ∃ ids head, op = OpReconcileBatch (elements_asc ids) (trusted_state record) head ∧
      settles cursors catch_up record tr ids head) as Hops1'.
    { intros op Hop. destruct Hops1 as [->|(ids & head & v & Happ & -> & Hobs)]; [by apply not_elem_of_nil in Hop|].
      apply list_elem_of_singleton in Hop as ->. exists ids, head. split; [done|]. left.
      exists v. split; [done|]. intros pid. apply Hobs. }
    destruct res1 as [[reconciled stale1]|e|]; [|by split_and!; eauto..].
    destruct Hres1 as (-> & Hrec & Hout & Hsame & Happ & Hproven).
    assert (retired record record1 reconciled stale) as Hret.
    { split; [done|]. split; [done|]. destruct (decide (reconciled = ∅)) as [He|He]; [by specialize (Hsame He) as [= -> _]|].
      destruct (Happ He) as (head & v & Hv & cursor & Henc & ->).
      destruct (Hcur head v Hv) as (cursor' & Henc' & ->). congruence. }
    cbn [fst snd]. destruct (decide (stale ∖ reconciled = ∅)) as [Hgone|Hleft].
    + destruct (retired_rest _ _ _ _ _ Hclass Hret Hgone) as [Hdom Hat].
      assert (outbox record1 ⊆ outbox record) as Hsub by (rewrite Hout; apply outbox_without_sub).
      pose proof (publish_rest_step cursors catch_up reconciled current d record record1 store1 tr Hsub Hdom Hat) as Hstep.
      destruct (publish_current _ _ _ _ _) as [[[d' p'] tr'] res].
      destruct Hstep as (-> & Hts & (ops & Hrun & Hops) & Hres).
      cbn [fst] in Hts1. split; [done|]. split; [by rewrite Hts|]. split; [|done].
      exists (ops1 ++ ops). rewrite run_ops_app, <-Hrun1. split; [done|].
      intros op [Hop|Hop]%elem_of_app; [by apply Hops1'|]. destruct (Hops op Hop) as (ids & head & -> & Hack).
      exists ids, head. rewrite Hts1. split; [done|]. by right.
    + rewrite st_ret. split; [done|]. split; [done|]. split; [by exists ops1|].
      by apply (retired_rebase cursors catch_up record record1 current reconciled stale).
Qed.

(** ** The whole pass *)

(** What a pass needs of its catch-up: run at [d] and [record], it makes the one
    fetch, keeps the outbox, performs only receptions of [received], and an
    applied range is at its cursor and has [evidence]. *)
Definition catch_up_contract cursors (live : D → DurableSyncRecord → Prop)
    (catch_up_pass : stateful ((D * (DurableSyncRecord * St)) * Tr) U O) d record tr
    (received : session_op Revision → Prop) (evidence : Revision → V → Prop) : Prop :=
  ∀ store,
  let '(((d', p'), tr'), res) := catch_up_pass ((d, (record, store)), tr) in
  tr' = (fetch_from_durable_cursor record cursors tr).1 ∧ live d' p'.1 ∧ outbox p'.1 = outbox record ∧
  (∃ ops, p' = run_ops cursors ops (record, store) ∧ ∀ op, op ∈ ops → received op) ∧
  match res with
  | Ok catch_up => ∀ head v, applied_range catch_up = Some (head, v) → cursor_at cursors head p'.1 ∧ evidence head v
  | _ => True
  end.

(** Why a pass may make an operation durable; [good] is what holds of every
    durable trusted state. *)
Inductive pass_justified cursors (received : session_op Revision → Prop) (evidence : Revision → V → Prop)
    (good : list byte → Prop) record tr : session_op Revision → Prop :=
  | pass_received op : received op → pass_justified cursors received evidence good record tr op
  | pass_observed ids st head v :
      evidence head v → (∀ pid, pid ∈ ids → proven record v pid) → good st →
      pass_justified cursors received evidence good record tr (OpReconcileBatch (elements_asc ids) st head)
  | pass_acknowledged ids st head :
      acknowledged cursors record ids tr head → good st →
      pass_justified cursors received evidence good record tr (OpReconcileBatch (elements_asc ids) st head).

(** A live state of the record is one of every record with its trusted state,
    and tells that the trusted state is good. *)
Class LiveState (live : D → DurableSyncRecord → Prop) (good : list byte → Prop) : Prop := {
  live_same d record record' : trusted_state record' = trusted_state record → live d record → live d record';
  live_good d record : live d record → good (trusted_state record);
}.

(** A pass, whatever the transport and the store answer. *)
Lemma resume_pass_step cursors catch_up_pass d record store tr `{!LiveState live good} received evidence :
  catch_up_contract cursors live catch_up_pass d record tr received evidence →
  let '(((d', p'), tr'), res) := resume_pass prove cursors catch_up_pass ((d, (record, store)), tr) in
  live d' p'.1 ∧
  (∃ ops, p' = run_ops cursors ops (record, store) ∧ ∀ op, op ∈ ops →
    pass_justified cursors received evidence good record (fetch_from_durable_cursor record cursors tr).1 op) ∧
  match res with
  | Ok report => report_settled cursors report p'.1
  | _ => True
  end.
Proof.
  intros Hcontract. unfold resume_pass. run_st. rewrite st_bind. unfold map_err_st. cbn [fst snd].
  specialize (Hcontract store). destruct (catch_up_pass _) as [[[d1 [record1 store1]] tr1] res1].
  destruct Hcontract as (-> & Hlive1 & Hout & (ops1 & Hrun1 & Hops1) & Hres1). cbn [fst] in *.
  set (tr1 := (fetch_from_durable_cursor record cursors tr).1).
  assert (∀ op, op ∈ ops1 → pass_justified cursors received evidence good record tr1 op) as Hj1.
  { intros op Hop. by apply pass_received, Hops1. }
  destruct res1 as [catch_up|e|]; cbn [map_err]; [|by split_and!; eauto..].
  destruct (baseline_unavailable catch_up) eqn:Hbase; [rewrite st_ret; by split_and!; eauto|].
  destruct (decide (dom (outbox record) = ∅)) as [Hempty|Hne].
  - rewrite st_ret. split; [done|]. split; [by exists ops1|]. unfold report_settled; cbn. rewrite Hout.
    by apply dom_empty_inv_L.
  - rewrite <-Hout. pose proof (settle_outbox_step cursors catch_up d1 record1 store1 tr1
      (λ head v Hv, proj1 (Hres1 head v Hv))) as Hstep.
    destruct (settle_outbox _ _ _ _ _) as [[[d' p'] tr'] res].
    destruct Hstep as (-> & Hts & (ops & Hrun & Hops) & Hres). split; [by eapply live_same|].
    split; [|done]. exists (ops1 ++ ops). rewrite run_ops_app, <-Hrun1. split; [done|].
    pose proof (live_good _ _ Hlive1) as Hgood.
    intros op [Hop|Hop]%elem_of_app; [by apply Hj1|]. destruct (Hops op Hop) as (ids & head & -> & [(v & Hv & Hobs)|Hack]).
    + apply (pass_observed _ _ _ _ _ _ ids _ head v); [by apply (Hres1 head v Hv)| |done].
      intros pid Hpid. eapply proven_pending_mono; [|by apply Hobs]. by rewrite Hout.
    + apply pass_acknowledged; [|done]. eapply acknowledged_mono; [|exact Hack]. by rewrite Hout.
Qed.

(** What a justified operation retires. *)
Lemma pass_justified_retires cursors received evidence good record tr op pid :
  (∀ op, received op → only_retires op ∧ ¬ op_retires op pid) →
  pass_justified cursors received evidence good record tr op → op_retires op pid →
  (∃ ids head, pid ∈ ids ∧ acknowledged cursors record ids tr head) ∨
  (∃ head v, evidence head v ∧ proven record v pid).
Proof.
  intros Hrec [op' Hop|ids st head v Hev Hobs _|ids st head Hack _]; cbn [op_retires].
  - intros Hr. by apply Hrec in Hop as [_ []].
  - intros Hin%elem_of_elements_asc. right. exists head, v. split; [done|]. by apply Hobs.
  - intros Hin%elem_of_elements_asc. left. by exists ids, head.
Qed.

(** No entry is added or changed. *)
Lemma pass_ops_keep cursors received evidence good record store tr ops :
  (∀ op, received op → only_retires op) →
  (∀ op, op ∈ ops → pass_justified cursors received evidence good record tr op) →
  outbox (run_ops cursors ops (record, store)).1 ⊆ outbox record.
Proof.
  intros Hrec Hops. apply run_ops_shrink. intros op Hop. destruct (Hops op Hop) as [op' Hr|ids st head v _ _ _|ids st head _ _]; [by apply Hrec|done..].
Qed.
End settle.

(** ** Cycles *)
Section cycle.
Context {D St Tr E O R : Type}.
Implicit Types (d : D) (record : DurableSyncRecord) (store : St) (tr : Tr).

(** What every pass keeps, a cycle keeps; and its last report is that of its last
    pass. *)
Lemma resume_bounded_keeps (pass : stateful ((D * (DurableSyncRecord * St)) * Tr) E (ResumeReport O R))
    (live : D → DurableSyncRecord → Prop) (holds : ResumeReport O R → DurableSyncRecord → Prop) d record store tr :
  (∀ d record store tr, live d record →
     let '(((d', (record', store')), tr'), res) := pass ((d, (record, store)), tr) in
     live d' record' ∧ outbox record' ⊆ outbox record ∧
     match res with Ok report => holds report record' | _ => True end) →
  live d record →
  let '(((d', (record', store')), tr'), res) := resume_bounded pass ((d, (record, store)), tr) in
  live d' record' ∧ outbox record' ⊆ outbox record ∧
  match res with
  | Ok cycle =>
      holds (default (batch_initial cycle) (batch_post_conflict cycle)) record' ∧
      (is_Some (batch_post_conflict cycle) ↔ ∃ ids h, batch_action (batch_initial cycle) = BatchConflict ids h)
  | _ => True
  end.
Proof.
  intros Hpass Hlive. unfold resume_bounded. rewrite st_bind. pose proof (Hpass d record store tr Hlive) as Hfirst.
  destruct (pass _) as [[[d1 [record1 store1]] tr1] [initial|e|]]; destruct Hfirst as (Hlive1 & Hsub1 & Hres1); [|done..].
  destruct (batch_action initial) as [| |ids|ids h|ids h] eqn:Haction.
  1,2,3,4: split; [done|]; split; [done|]; split; [done|]; cbn; rewrite Haction;
    split; [by intros [? [=]]|by intros (? & ? & [=])].
  rewrite st_bind. pose proof (Hpass d1 record1 store1 tr1 Hlive1) as Hsecond.
  destruct (pass _) as [[[d2 [record2 store2]] tr2] [post|e|]]; destruct Hsecond as (Hlive2 & Hsub2 & Hres2);
    (split; [done|]); (split; [by etransitivity|]); [|done..].
  split; [done|]. cbn. rewrite Haction. split; [intros _; by exists ids, h|done].
Qed.
End cycle.

(** ** Calls of the transport *)
Section within.
Context {Z Tr : Type} `{OpaqueTransport Tr}.

(** The transport a program leaves, next to a state [Z]. *)
Definition within n m {E A : Type} (prog : stateful (Z * Tr) E A) : Prop :=
  ∀ s, calls_within n m s.2 (prog s).1.2.

Lemma within_ret {E A} (a : A) : within (E := E) 0 0 (mret a).
Proof. intros s. apply calls_within_refl. Qed.

Lemma within_lift {E A} (r : result E A) : within 0 0 (lift_result r).
Proof. intros s. apply calls_within_refl. Qed.

Lemma within_get {E A} n m (f : Z * Tr → stateful (Z * Tr) E A) :
  (∀ s, calls_within n m s.2 (f s s).1.2) → within n m (get_state ≫= f).
Proof. intros Hf s. apply Hf. Qed.

Lemma within_bind {E A B} n m n' m' (prog : stateful (Z * Tr) E A) (f : A → stateful (Z * Tr) E B) :
  within n m prog → (∀ a, within n' m' (f a)) → within (n + n') (m + m') (prog ≫= f).
Proof.
  intros Hp Hf s. rewrite st_bind. specialize (Hp s).
  destruct (prog s) as [s' [a|e|]]; cbn [fst] in *; [by eapply calls_within_trans; [exact Hp|apply Hf]|..];
    eapply calls_within_mono; [| |exact Hp| | |exact Hp]; lia.
Qed.

Lemma within_map_err {E E' A} n m (g : E → E') (prog : stateful (Z * Tr) E A) :
  within n m prog → within n m (map_err_st g prog).
Proof. intros Hp s. specialize (Hp s). unfold map_err_st. by destruct (prog s). Qed.

Lemma within_fst {E A} (prog : stateful Z E A) : within 0 0 (on_fst prog).
Proof.
  intros [x tr]. unfold on_fst, on_field. cbn [fst snd]. destruct (prog x). apply calls_within_refl.
Qed.

Lemma within_snd {E A} n m (prog : stateful Tr E A) :
  (∀ tr, calls_within n m tr (prog tr).1) → within n m (on_snd prog).
Proof. intros Hp [x tr]. specialize (Hp tr). unfold on_snd, on_field. cbn [fst snd]. by destruct (prog tr). Qed.

Lemma within_mono {E A} n m n' m' (prog : stateful (Z * Tr) E A) :
  (n ≤ n')%nat → (m ≤ m')%nat → within n m prog → within n' m' prog.
Proof. intros Hn Hm Hp s. by eapply calls_within_mono. Qed.

Lemma within_none {E A} n m (a : A) : within (E := E) n m (mret a).
Proof. eapply (within_mono 0 0); [lia..|apply within_ret]. Qed.

Lemma within_if {E A} n m (Q : Prop) `{Decision Q} (p q : stateful (Z * Tr) E A) :
  within n m p → within n m q → within n m (if decide Q then p else q).
Proof. by case_decide. Qed.

(** A cycle: twice what a pass does. *)
Lemma resume_bounded_within {E O R} n m (pass : stateful (Z * Tr) E (ResumeReport O R)) :
  within n m pass → within (n + n) (m + m) (resume_bounded pass).
Proof.
  intros Hp. unfold resume_bounded. apply (within_bind n m n m); [done|]. intros initial.
  destruct (batch_action initial); try apply within_none.
  rewrite <-(Nat.add_0_r n), <-(Nat.add_0_r m). apply (within_bind n m 0 0); [done|]. intros post. apply within_ret.
Qed.
End within.

Section pass_calls.
Context {D O V U P St Tr CC : Type} `{SyncRecordStore St} `{OpaqueTransport Tr}
  `{!TransportCursorCodec CC Revision} `{!CatchUpOutcome O Revision V}.
Implicit Types (cursors : CC) (catch_up : O).
Context (prove : DurableSyncRecord → V → gset PublicationId → PublicationId →
  result (ResumeError U P TransportError StoreError CursorError) (gset PublicationId)).

Lemma publish_current_within cursors catch_up reconciled current :
  within 0 1 (publish_current (D := D) (U := U) (P := P) (St := St) cursors catch_up reconciled current).
Proof.
  unfold publish_current. apply within_if; [apply within_none|].
  apply within_get. intros s. refine (within_bind 0 1 0 0 _ _ _ _ s).
  - apply within_snd. intros tr. unfold map_err_st.
    pose proof (publish_batch_calls s.1.2.1 (elements_asc current) cursors tr) as Hp.
    by destruct (publish_staged_batch _ _ _ tr).
  - intros [h|h]; [|apply within_ret]. apply (within_bind 0 0 0 0); [apply within_fst|]. intros []. apply within_ret.
Qed.

Lemma settle_outbox_within cursors catch_up pending :
  within 0 1 (settle_outbox (D := D) (St := St) prove cursors catch_up pending).
Proof.
  unfold settle_outbox. apply within_get. intros s.
  refine (within_bind 0 0 0 1 _ _ _ _ s); [apply within_lift|]. intros [current stale].
  apply within_if; [apply publish_current_within|].
  apply (within_bind 0 0 0 1); [apply within_fst|]. intros [reconciled stale'].
  apply within_if; [apply publish_current_within|apply within_none].
Qed.

(** A pass publishes at most once. *)
Lemma resume_pass_within n m cursors (catch_up_pass : stateful ((D * (DurableSyncRecord * St)) * Tr) U O) :
  within n m catch_up_pass → within n (m + 1) (resume_pass prove cursors catch_up_pass).
Proof.
  intros Hc. unfold resume_pass. apply within_get. intros s. rewrite <-(Nat.add_0_r n).
  refine (within_bind n m 0 1 _ _ _ _ s); [by apply within_map_err|]. intros catch_up.
  destruct (baseline_unavailable catch_up); [apply within_none|].
  apply within_if; [apply within_none|apply settle_outbox_within].
Qed.
End pass_calls.
