(* ===== verification/ResumeLaws.v ===== *)
(** * What a resume pass over one domain does

    The instances of [ResumeSetLaws] for one scalar domain: its catch-up keeps
    the contract, and a stale publication is proven observed when it is one
    authentic object whose revisions are all among the observed ones. *)
From Stdlib Require Import Lia NArith Strings.Byte.
From stdpp Require Import base tactics option list gmap numbers.
From S2P Require Import Prelude Outcome BTree Bytes Id Error Worklist Scalar Causal Merge ScalarMerge.
From S2P Require Import Working Finalization Domain Reader RegisterCodec Projection Codec Crypto Protected.
From S2P Require Import Wire Recovery Transport Session Batch TrustedState Publication Receive Catchup.
From S2P Require Import ResumeSet ResumeBatch SessionRuns RuntimeLaws CatchupLaws ResumeSetLaws.

(** ** Evidence *)
Section evidence.
Context `{Aead}.
Implicit Types (spec : ScalarCatchUpSpec) (record : DurableSyncRecord) (ids : gset RevisionId).

Lemma decode_single_valid key c dk encoded r :
  decode_single_scalar_domain_object key c dk encoded = Ok r → valid r.
Proof.
  unfold decode_single_scalar_domain_object. intros (part & _ & Hr)%bind_Ok. case_decide; [done|].
  apply bind_Ok in Hr as (p & Hp%map_err_Ok & Hr). apply unprotect_part_valid in Hp as (_ & Hp & _).
  by eapply register_from_projection_valid.
Qed.

(** The publication is one authentic object, every revision of which is among
    [ids]. *)
Definition observed_publication spec ids (_ : PublicationId) (e : DurableOutboxEntry) : Prop :=
  ∃ object pending, objects e = [object] ∧
    decode_single_scalar_domain_object (spec_key spec) (spec_continuum_id spec) (spec_domain_key spec) object
      = Ok pending ∧ dom (revisions pending) ⊆ ids.

Definition observed_pending spec record ids (pid : PublicationId) : Prop :=
  proven_pending (observed_publication spec) record ids pid.

#[export] Instance prove_observed_proves {St Tr TC CC} `{SyncRecordStore St} `{OpaqueTransport Tr}
    `{!TrustedStateCodec TC (LocalScalarSnapshot (list byte))} `{!TransportCursorCodec CC Revision} spec :
  ProvesObserved (prove_observed (St := St) (Tr := Tr) (TC := TC) (CC := CC) spec) (observed_publication spec).
Proof.
  intros record ids acc acc' pid. unfold prove_observed. intros (entry & Hentry%expect_Ok & Hstep)%bind_Ok x.
  destruct (objects entry) as [|object [|]] eqn:Hobj.
  1,3: apply (inj Ok) in Hstep as <-; split; [by left|];
    intros [?|[_ (e & He & object' & pending & Hobj' & _)]]; [done|]; congruence.
  apply bind_Ok in Hstep as (pending & Hp%map_err_Ok & Hstep).
  pose proof (decode_single_valid _ _ _ _ _ Hp) as [Hk _].
  rewrite (register_revision_ids_dom pending Hk) in Hstep.
  assert (proven_pending (observed_publication spec) record ids pid ↔ dom (revisions pending) ⊆ ids) as ->.
  { split; [|intros Hsub; exists entry; split; [done|]; by exists object, pending].
    intros (e & He & object' & pending' & Hobj' & Hp' & Hsub).
    assert (e = entry) as -> by congruence. rewrite Hobj in Hobj'. injection Hobj' as <-.
    rewrite Hp in Hp'. by apply (inj Ok) in Hp' as <-. }
  case_decide; apply (inj Ok) in Hstep as <-; [|naive_solver].
  rewrite elem_of_union, elem_of_singleton. naive_solver.
Qed.
End evidence.

(** ** Trusted states a restart accepts *)
Section restorable.
Context {T C : Type} `{!EqDecision T} `{!TrustedStateCodec C (LocalScalarSnapshot T)}.

(** A domain is recovered from the state, which is an allocation. *)
Definition restorable (codec : C) (state : list byte) : Prop :=
  ∃ d : LocalScalarDomain T, live codec d (DurableSyncRecord.new state None).

#[export] Instance domain_live_state (codec : C) : LiveState (live codec) (restorable codec).
Proof.
  split; [intros d record record'; apply live_same_state|].
  intros d record Hl. exists d. by eapply live_same_state.
Qed.
End restorable.

(** ** The pass *)
Section pass.
Context `{Aead} {St Tr TC CC : Type} `{SyncRecordStore St} `{OpaqueTransport Tr}
  `{!TrustedStateCodec TC (LocalScalarSnapshot (list byte))} `{!TrustedStateLaws TC (list byte)}
  `{!TransportCursorCodec CC Revision}.
Implicit Types (codec : TC) (cursors : CC) (spec : ScalarCatchUpSpec) (d : LocalScalarDomain (list byte)).
Implicit Types (record : DurableSyncRecord) (store : St) (tr : Tr).

(** A reception of what this pass fetched. *)
Definition pass_receives codec cursors spec d record tr (op : session_op Revision) : Prop :=
  ∃ head objects, (fetch_from_durable_cursor record cursors tr).2 = Ok (Changed head objects) ∧
    receives codec spec d head objects op.

(** The revisions [ids] are those of the remote register this pass fetched. *)
Definition pass_evidence cursors spec record tr (head : Revision) (ids : gset RevisionId) : Prop :=
  ∃ objects remote, (fetch_from_durable_cursor record cursors tr).2 = Ok (Changed head objects) ∧
    remote_of spec objects remote ∧ ids = dom (revisions remote).

(** Why a pass may make an operation durable. *)
Definition justified codec cursors spec d record tr : session_op Revision → Prop :=
  pass_justified (proof := observed_publication spec) cursors (pass_receives codec cursors spec d record tr)
    (pass_evidence cursors spec record tr) (restorable codec) record (fetch_from_durable_cursor record cursors tr).1.

Lemma pass_receives_retires codec cursors spec d record tr op pid :
  pass_receives codec cursors spec d record tr op → only_retires op ∧ ¬ op_retires op pid.
Proof. intros (head & objects & _ & bytes & candidate & -> & _). by split; [|intros []]. Qed.

Lemma pass_receives_only codec cursors spec d record tr op :
  pass_receives codec cursors spec d record tr op → only_retires op.
Proof. by intros (head & objects & _ & bytes & candidate & -> & _). Qed.

Lemma justified_only_retires codec cursors spec d record tr op :
  justified codec cursors spec d record tr op → only_retires op.
Proof.
  intros [op' (head & objects & _ & bytes & candidate & -> & _)|ids st head v _ _ _|ids st head _ _]; done.
Qed.

Lemma justified_restorable codec cursors spec d record tr op :
  domain_ok d → justified codec cursors spec d record tr op → restorable codec (op_state op).
Proof.
  intros Hd [op' (head & objects & _ & bytes & candidate & -> & Henc & Hcand)|ids st head v _ _ Hst|ids st head _ Hst];
    [|exact Hst..].
  exists candidate. apply live_encoded; [|exact Henc].
  destruct Hcand as [[_ ->]|(_ & remote & sealed & _ & Hobs)]; [done|apply Hobs].
Qed.

(** A retired publication was acknowledged, or its revisions were received. *)
Lemma justified_retires codec cursors spec d record tr op pid :
  justified codec cursors spec d record tr op → op_retires op pid →
  (∃ ids head, pid ∈ ids ∧ acknowledged cursors record ids (fetch_from_durable_cursor record cursors tr).1 head) ∨
  (∃ head objects remote, (fetch_from_durable_cursor record cursors tr).2 = Ok (Changed head objects) ∧
    remote_of spec objects remote ∧ observed_pending spec record (dom (revisions remote)) pid).
Proof.
  intros Hj Hr. apply pass_justified_retires with (pid := pid) in Hj; [|by intros op' Hop; eapply pass_receives_retires|done].
  destruct Hj as [Hack|(head & v & (objects & remote & Hf & Hrem & ->) & Hobs)]; [by left|right].
  by exists head, objects, remote.
Qed.

(** What a report says of the record it leaves. *)
Definition report_holds cursors spec (report : ScalarBatchResumeReport Revision) record : Prop :=
  report_settled (proof := observed_publication spec) cursors report record.

Lemma domain_catch_up_contract codec cursors spec d record tr :
  live codec d record →
  catch_up_contract (St := St) cursors (live codec) (catch_up_single_scalar_domain codec cursors spec) d record tr
    (pass_receives codec cursors spec d record tr) (pass_evidence cursors spec record tr).
Proof.
  intros Hlive store. pose proof (catch_up_step codec cursors spec d record store tr Hlive) as Hstep.
  destruct (catch_up_single_scalar_domain codec cursors spec _) as [[[d' p'] tr'] res].
  unfold pass_receives, pass_evidence.
  destruct (fetch_from_durable_cursor record cursors tr) as [tr1 fetched].
  destruct Hstep as (-> & Hlive' & Hout & (ops & Hrun & Hops) & Hres). cbn [fst snd].
  split; [done|]. split; [done|]. split; [done|]. split.
  - exists ops. split; [done|]. intros op Hop.
    destruct Hops as [->|(op1 & head & objects & -> & Hf & Hr)]; [by apply not_elem_of_nil in Hop|].
    apply list_elem_of_singleton in Hop as ->. by exists head, objects.
  - destruct res as [[h|h n ids sealed|h|h]|e|]; [done| |done..]. intros head v [= <- <-].
    destruct Hres as (objects & remote & Hf & _ & _ & Hrem & -> & _ & Hcur). split; [done|]. by exists objects, remote.
Qed.

(** A pass, whatever the transport and the store answer. *)
Lemma resume_set_step codec cursors spec d record store tr :
  live codec d record →
  let '(((d', p'), tr'), res) := resume_scalar_outbox_set codec cursors spec ((d, (record, store)), tr) in
  live codec d' p'.1 ∧
  (∃ ops, p' = run_ops cursors ops (record, store) ∧
    ∀ op, op ∈ ops → justified codec cursors spec d record tr op) ∧
  match res with
  | Ok report => report_holds cursors spec report p'.1
  | _ => True
  end.
Proof.
  intros Hlive. apply (resume_pass_step (prove := prove_observed spec) cursors _ d record store tr
    (live := live codec) (good := restorable codec)). by apply domain_catch_up_contract.
Qed.

(** No entry is added or changed. *)
Lemma resume_set_keeps codec cursors spec d record store tr :
  live codec d record →
  let '(((d', (record', store')), tr'), res) :=
    resume_scalar_outbox_set codec cursors spec ((d, (record, store)), tr) in
  live codec d' record' ∧ outbox record' ⊆ outbox record ∧
  match res with
  | Ok report => report_holds cursors spec report record'
  | _ => True
  end.
Proof.
  intros Hlive. pose proof (resume_set_step codec cursors spec d record store tr Hlive) as Hstep.
  destruct (resume_scalar_outbox_set codec cursors spec _) as [[[d' [record' store']] tr'] res].
  destruct Hstep as (Hlive' & (ops & Hrun & Hops) & Hres). split; [done|]. split; [|done].
  change record' with (record', store').1. rewrite Hrun. eapply pass_ops_keep; [|exact Hops].
  intros op Hop. by eapply pass_receives_only.
Qed.
End pass.

(** ** Calls of the transport *)
Section pass_calls.
Context `{Aead} {St Tr TC CC : Type} `{SyncRecordStore St} `{OpaqueTransport Tr}
  `{!TrustedStateCodec TC (LocalScalarSnapshot (list byte))} `{!TransportCursorCodec CC Revision}.
Implicit Types (codec : TC) (cursors : CC) (spec : ScalarCatchUpSpec).

Lemma catch_up_within codec cursors spec :
  within 1 0 (catch_up_single_scalar_domain (St := St) codec cursors spec).
Proof.
  unfold catch_up_single_scalar_domain. apply within_get. intros s.
  refine (within_bind 1 0 0 0 _ _ _ _ s).
  - apply within_snd. intros tr. unfold map_err_st.
    pose proof (fetch_calls s.1.2.1 cursors tr) as Hf. by destruct (fetch_from_durable_cursor _ _ tr).
  - intros [h|h objects|h]; [apply within_ret|apply within_fst|apply within_ret].
Qed.

(** One pass: at most one fetch and one publication; a cycle: at most two of
    each. *)
Lemma resume_within codec cursors spec : within 1 1 (resume_scalar_outbox_set (St := St) codec cursors spec).
Proof. apply (resume_pass_within _ 1 0), catch_up_within. Qed.

Lemma resume_set_bounded_within codec cursors spec :
  within 2 2 (resume_scalar_outbox_set_bounded (St := St) codec cursors spec).
Proof. apply (resume_bounded_within 1 1), resume_within. Qed.
End pass_calls.
