(* ===== verification/ResumeSingle.v ===== *)
(** * One publication and a set of one

    On an outbox of at most one entry the pass of resume.rs is the pass of
    resume_batch.rs: the same calls, the same state, and the same answer up to
    the names of its cases (crates/apc-runtime). *)
From Stdlib Require Import Lia NArith Strings.Byte.
From stdpp Require Import base tactics option list gmap numbers.
From S2P Require Import Prelude Outcome BTree Bytes Id Error Worklist Scalar Causal Merge ScalarMerge.
From S2P Require Import Working Finalization Domain Reader RegisterCodec Projection Codec Crypto Protected.
From S2P Require Import Wire Recovery Transport Session Batch TrustedState Publication Receive Catchup.
From S2P Require Import Resume ResumeSet ResumeBatch SessionRuns RuntimeLaws CatchupLaws ResumeSetLaws ResumeLaws.

(** ** The translation *)
Section translation.
Context {R TE TSE SE CE : Type}.

Definition commit_as_batch (e : SessionCommitError SE CE) : BatchCommitError SE CE :=
  match e with
  | CommitRecovery e => BatchRecovery e
  | CommitStore e => BatchStore e
  | CommitCursor e => BatchCursor e
  end.

Definition publish_as_batch (e : SessionIoError TE CE) : BatchPublishError TE CE :=
  match e with
  | IoRecovery e => PublishRecovery e
  | IoTransport e => PublishTransport e
  | IoCursor e => PublishCursor e
  end.

(** The answer about the publication [pid], as one about the set of it. *)
Definition report_as_batch (report : ScalarResumeReport R) : ScalarBatchResumeReport R :=
  let answer := ResumeReport_mk (report_catch_up report) in
  match report_outbox report with
  | NoOutbox => answer ∅ BatchNone
  | BlockedByBaseline => answer ∅ BatchBlockedByBaseline
  | NeedsRebase pid => answer ∅ (BatchNeedsRebase {[pid]})
  | ObservedAndReconciled pid _ => answer {[pid]} BatchNone
  | PublishedAndReconciled pid head => answer ∅ (BatchPublishedAndReconciled {[pid]} head)
  | ResumeConflict pid current_head => answer ∅ (BatchConflict {[pid]} current_head)
  end.

Definition error_as_batch (pid : option PublicationId) (e : ScalarResumeError TE TSE SE CE) :
    option (ScalarBatchResumeError TE TSE SE CE) :=
  match e, pid with
  | ResumeCatchUp e, _ => Some (BatchCatchUp e)
  | PendingDecode e, Some pid => Some (BatchPendingDecode pid e)
  | ResumePublish e, _ => Some (BatchPublish (publish_as_batch e))
  | ResumeReconcile e, _ => Some (BatchReconcile (commit_as_batch e))
  | _, _ => None
  end.

(** The two answers say the same. *)
Definition same_answer (pid : option PublicationId) (r : result (ScalarResumeError TE TSE SE CE) (ScalarResumeReport R))
    (r' : result (ScalarBatchResumeError TE TSE SE CE) (ScalarBatchResumeReport R)) : Prop :=
  match r, r' with
  | Ok report, Ok report' => report' = report_as_batch report
  | Err e, Err e' => Some e' = error_as_batch pid e
  | Panic, Panic => True
  | _, _ => False
  end.
End translation.

Section single.
Context `{Aead} {St Tr TC CC : Type} `{SyncRecordStore St} `{OpaqueTransport Tr}
  `{!TrustedStateCodec TC (LocalScalarSnapshot (list byte))} `{!TransportCursorCodec CC Revision}.
Implicit Types (cursors : CC) (spec : ScalarCatchUpSpec) (d : LocalScalarDomain (list byte)).
Implicit Types (record : DurableSyncRecord) (store : St) (tr : Tr) (pid : PublicationId).

Notation catch_up_error := (ScalarCatchUpError (TransportError (Tr := Tr))
  (TrustedError (C := TC) (S := LocalScalarSnapshot (list byte))) (StoreError (St := St))
  (CursorError (C := CC) (R := Revision (Tr := Tr)))).
Notation reconcile_set := (reconcile_set (U := catch_up_error) (P := ScalarObjectDecodeError) (Tr := Tr)).
Notation publish_current := (publish_current (U := catch_up_error) (P := ScalarObjectDecodeError)).
Notation settle_stale spec := (settle_stale (prove_observed (St := St) (Tr := Tr) (TC := TC) (CC := CC) spec)).
Notation settle_outbox spec := (settle_outbox (prove_observed (St := St) (Tr := Tr) (TC := TC) (CC := CC) spec)).

Lemma elements_asc_one pid : elements_asc ({[pid]} : gset PublicationId) = [pid].
Proof.
  apply Permutation_singleton_r. rewrite elements_asc_perm. by rewrite elements_singleton.
Qed.

(** Retiring one publication is retiring the set of it. *)
Lemma reconcile_one cursors pid head d record store e :
  outbox record !! pid = Some e →
  let '(s1, r1) := reconcile_pending (TC := TC) (Tr := Tr) cursors pid head (d, (record, store)) in
  reconcile_set cursors {[pid]} head (d, (record, store)) =
  (s1, match r1 with
       | Ok _ => Ok tt
       | Err (ResumeReconcile e) => Err (BatchReconcile (commit_as_batch e))
       | Err _ => Panic
       | Panic => Panic
       end) ∧ match r1 with Err e => ∃ e', e = ResumeReconcile e' | _ => True end.
Proof.
  intros He. unfold reconcile_pending, ResumeSet.reconcile_set. run_st. unfold on_snd, on_field, map_err_st. cbn [fst snd].
  rewrite commit_reconciled_transition, commit_batch_transition, !run_transition_cases.
  rewrite elements_asc_one. unfold retired_batch, staged. cbn [list_to_set fst snd].
  rewrite union_empty_r_L. rewrite decide_False by set_solver.
  destruct (encode cursors head) as [cursor|e'|]; cbn [map_err mbind result_bind]; [|by split; [|eexists]|done].
  rewrite decide_True by (intros x ->%elem_of_singleton; apply elem_of_dom; by exists e).
  rewrite retire_outbox_cases, He. cbn [map_err mbind result_bind fst snd]. rewrite delete_without.
  destruct (persist _ store) as [store' [[]|e'|]]; cbn; [done|by split; [|eexists]|done].
Qed.
Lemma publish_one cursors pid record tr e :
  outbox record !! pid = Some e →
  publish_staged_batch record (elements_asc {[pid]}) cursors tr =
  (let '(tr', r) := publish_staged record pid cursors tr in (tr', map_err publish_as_batch r)).
Proof.
  intros He. rewrite elements_asc_one. unfold publish_staged_batch, publish_staged. cbn [list_to_set].
  rewrite union_empty_r_L. rewrite decide_False by set_solver. rewrite elements_asc_one.
  assert (try_fold (collect_entry (Tr := Tr) (C := CC) record) (None, []) [pid] = Ok (Some (expected_cursor e), objects e)) as ->.
  { cbn [try_fold]. unfold collect_entry. by rewrite He. }
  rewrite He. run_st. unfold decode_cursor. cbn [ok_or expect]. run_st. cbn [ok_or].
  destruct (transpose (decode cursors <$> expected_cursor e)) as [expected|e'|]; cbn [map_err]; run_st; [|done..].
  unfold map_err_st. by destruct (publish expected (objects e) tr) as [tr' [x|e'|]].
Qed.

Notation answer_of := (same_answer (TE := TransportError (Tr := Tr)) (TSE := TrustedError (C := TC)
  (S := LocalScalarSnapshot (list byte))) (SE := StoreError (St := St)) (CE := CursorError (C := CC) (R := Revision))).

Lemma resume_publish_one cursors catch_up pid d record store tr e :
  outbox record !! pid = Some e →
  let s := ((d, (record, store)), tr) in
  let '(s1, r1) := resume_publish (TC := TC) cursors catch_up pid s in
  let '(s2, r2) := publish_current cursors catch_up ∅ {[pid]} s in
  s1 = s2 ∧ answer_of (Some pid) r1 r2.
Proof.
  intros He s. unfold resume_publish, ResumeSet.publish_current. rewrite decide_False by set_solver.
  subst s. run_st. rewrite !st_bind. unfold on_snd, on_fst, on_field, map_err_st. cbn [fst snd].
  rewrite (publish_one cursors pid record tr e He).
  destruct (publish_staged record pid cursors tr) as [tr' [[head|current_head]|err|]]; cbn [map_err]; [| |done..].
  - rewrite !st_bind. cbn [fst snd]. pose proof (reconcile_one cursors pid head d record store e He) as Hone.
    destruct (reconcile_pending cursors pid head (d, (record, store))) as [s1 r1]. destruct Hone as [-> Hr].
    destruct r1 as [[]|err|]; [done| |done]. destruct Hr as [e' ->]. by split.
  - by rewrite !st_ret.
Qed.

Lemma resume_stale_one cursors spec catch_up pid d record store tr e :
  outbox record !! pid = Some e →
  let '(s1, r1) := resume_stale (TC := TC) (Tr := Tr) cursors spec catch_up pid e (d, (record, store)) in
  let '(s2, r2) := (settled ← on_fst (settle_stale spec cursors catch_up {[pid]});
    let '(observed_reconciled, stale) := settled in
    if decide (stale = ∅) then publish_current cursors catch_up observed_reconciled ∅ else
    mret (ResumeReport_mk catch_up observed_reconciled (BatchNeedsRebase stale)))
    ((d, (record, store)), tr) in
  s2 = (s1, tr) ∧ answer_of (Some pid) r1 r2.
Proof.
  intros He. rewrite st_bind. unfold on_fst, on_field. cbn [fst snd].
  assert ({[pid]} ≠ (∅ : gset PublicationId)) as Hne by set_solver.
  unfold resume_stale, ResumeSet.settle_stale. destruct catch_up as [h|head n observed sealed|h|h]; cbn [applied_range scalar_catch_up_outcome].
  1,3,4: rewrite !st_ret; cbn [fst snd]; rewrite decide_False by done; by rewrite st_ret.
  run_st. cbn [fst snd]. rewrite elements_asc_one. cbn [try_fold]. unfold prove_observed. rewrite He.
  cbn [expect mbind result_bind]. destruct (objects e) as [|object [|]].
  1,3: run_st; cbn [mbind result_bind]; rewrite decide_True by done; rewrite !st_ret; cbn [fst snd];
    rewrite decide_False by done; by rewrite !st_ret.
  run_st. destruct (decode_single_scalar_domain_object _ _ _ object) as [pending|err|]; cbn [map_err mbind result_bind]; [|done..].
  run_st. destruct (decide (register_revision_ids pending ⊆ observed)) as [Hsub|Hsub].
  - cbn [mbind result_bind]. run_st. rewrite union_empty_r_L. rewrite (decide_False (P := {[pid]} = ∅)) by done.
    rewrite !st_bind. pose proof (reconcile_one cursors pid head d record store e He) as Hone.
    destruct (reconcile_pending cursors pid head (d, (record, store))) as [s1 r1]. destruct Hone as [-> Hr].
    destruct r1 as [[]|err|]; [|destruct Hr as [e' ->]; by split|done].
    rewrite !st_ret. cbn [fst snd]. rewrite difference_diag_L. rewrite decide_True by done.
    unfold ResumeSet.publish_current. by rewrite decide_True by done.
  - cbn [mbind result_bind]. run_st. rewrite decide_True by done. rewrite !st_ret. cbn [fst snd].
    rewrite decide_False by done. by rewrite !st_ret.
Qed.
Lemma first_pending_one record pid e : outbox record = {[pid := e]} → first_pending record = Some pid.
Proof. intros He. unfold first_pending, keys_asc. by rewrite He, dom_singleton_L, elements_asc_one. Qed.

(** What follows the catch-up. *)
Lemma settle_outbox_one cursors spec catch_up pid e d record store tr :
  outbox record = {[pid := e]} →
  let s := ((d, (record, store)), tr) in
  let '(s1, r1) := (if decide (expected_cursor e ≠ applied_cursor record)
    then on_fst (resume_stale (TC := TC) (Tr := Tr) cursors spec catch_up pid e)
    else resume_publish cursors catch_up pid) s in
  let '(s2, r2) := settle_outbox spec cursors catch_up {[pid]} s in
  s1 = s2 ∧ answer_of (Some pid) r1 r2.
Proof.
  intros Hout s. assert (outbox record !! pid = Some e) as He by (rewrite Hout; apply lookup_singleton_eq).
  unfold ResumeSet.settle_outbox. rewrite st_get. subst s. cbn [fst snd]. rewrite elements_asc_one.
  assert (∀ E, try_fold (classify_pending (E := E) record (applied_cursor record)) (∅, ∅) [pid] =
    Ok (if decide (expected_cursor e = applied_cursor record) then ({[pid]}, ∅) else (∅, {[pid]}))) as Hf.
  { intros E. cbn [try_fold]. unfold classify_pending. rewrite He. cbn [expect mbind result_bind].
    by case_decide; cbn; rewrite union_empty_r_L. }
  rewrite Hf. run_st. assert ({[pid]} ≠ (∅ : gset PublicationId)) as Hne by set_solver.
  destruct (decide (expected_cursor e = applied_cursor record)) as [Hcur|Hcur].
  - rewrite decide_False by auto. rewrite decide_True by done.
    apply (resume_publish_one cursors catch_up pid d record store tr e He).
  - rewrite decide_True by done. rewrite decide_False by done.
    pose proof (resume_stale_one cursors spec catch_up pid d record store tr e He) as Hone.
    unfold on_fst at 1. unfold on_field. cbn [fst snd].
    destruct (resume_stale cursors spec catch_up pid e (d, (record, store))) as [s1 r1].
    destruct (_ ≫= _) as [s2 r2]. destruct Hone as [-> Hans]. by split.
Qed.

Context `{!TrustedStateLaws TC (list byte)}.

Lemma resume_single_set (codec : TC) cursors spec d record store tr :
  live codec d record → (size (outbox record) ≤ 1)%nat →
  let s := ((d, (record, store)), tr) in
  let '(s1, r1) := resume_single_scalar_domain codec cursors spec s in
  let '(s2, r2) := resume_scalar_outbox_set codec cursors spec s in
  s1 = s2 ∧ answer_of (first_pending record) r1 r2.
Proof.
  intros Hlive Hsize s. unfold resume_single_scalar_domain, resume_scalar_outbox_set, resume_pass. rewrite !st_get.
  subst s. cbn [fst snd]. rewrite decide_False by lia. rewrite !st_bind. unfold map_err_st.
  pose proof (catch_up_step codec cursors spec d record store tr Hlive) as Hstep.
  destruct (catch_up_single_scalar_domain codec cursors spec _) as [[[d1 [record1 store1]] tr1] res].
  destruct (fetch_from_durable_cursor record cursors tr) as [tr0 fetched].
  destruct Hstep as (_ & _ & Hout & _). cbn [fst] in Hout.
  destruct res as [catch_up|err|]; cbn [map_err]; [|done..].
  destruct (decide (outbox record = ∅)) as [Hempty|Hne].
  - assert (first_pending record = None) as ->.
    { unfold first_pending, keys_asc. by rewrite Hempty, dom_empty_L. }
    rewrite (decide_True (P := dom (outbox record) = ∅)) by (by rewrite Hempty, dom_empty_L).
    destruct catch_up; cbn [baseline_unavailable scalar_catch_up_outcome]; by rewrite !st_ret.
  - assert (∃ pid e, outbox record = {[pid := e]}) as (pid & e & Hone).
    { apply map_choose in Hne as (pid & e & He). exists pid, e. rewrite <-(insert_delete_id _ _ _ He).
      rewrite (map_size_empty_inv (delete pid (outbox record))); [done|].
      rewrite map_size_delete_Some by eauto. lia. }
    rewrite (first_pending_one _ _ _ Hone). rewrite (decide_False (P := dom (outbox record) = ∅))
      by (rewrite Hone, dom_singleton_L; set_solver).
    rewrite Hone, dom_singleton_L. rewrite Hone in Hout.
    pose proof (settle_outbox_one cursors spec catch_up pid e d1 record1 store1 tr1 Hout) as Hrest.
    cbn zeta in Hrest.
    destruct catch_up as [h|head n ids sealed|h|h]; [..|by rewrite !st_ret];
      rewrite st_get; cbn [fst snd]; rewrite Hout, lookup_singleton_eq; cbn [expect]; rewrite st_lift; exact Hrest.
Qed.
End single.
