(* ===== verification/RecoveryLaws.v ===== *)
(** * Publishing from and receiving into a container

    What the coordinators of publication_set.rs and receive_set.rs do to each
    domain of the container, and that the durable record leads
    (crates/apc-runtime). *)
From Stdlib Require Import Lia NArith Strings.Byte.
From stdpp Require Import base tactics option list gmap numbers.
From S2P Require Import Prelude Outcome BTree Bytes Id Error Worklist Scalar Causal Merge ScalarMerge.
From S2P Require Import Working Finalization Domain Reader RegisterCodec Projection Codec Crypto Protected.
From S2P Require Import Wire Recovery Transport Session Batch TrustedState TrustedStateSet Publication PublicationSet.
From S2P Require Import Receive ReceiveSet CatchupSet ResumeSet ResumeRecovery SessionRuns RuntimeLaws ResumeSetLaws.
Local Open Scope N_scope.

(** ** Loops over distinct keys *)
Section keyed_loops.
Context {S E K V X : Type} `{Countable K}.

(** A loop whose step at [k] relates what is held at [k] before and after by [R]
    and leaves the other keys alone. *)
Lemma st_for_each_keyed (step : K * V → stateful S E unit) (look : S → K → X) (inv : S → Prop)
    (R : K → V → X → X → Prop) (l : list (K * V)) s s' u :
  NoDup l.*1 → inv s →
  (∀ k v s s' u, (k, v) ∈ l → inv s → step (k, v) s = (s', Ok u) →
     inv s' ∧ R k v (look s k) (look s' k) ∧ ∀ k', k' ≠ k → look s' k' = look s k') →
  st_for_each step l s = (s', Ok u) →
  inv s' ∧ ∀ k, match (list_to_map l : gmap K V) !! k with
                | Some v => R k v (look s k) (look s' k)
                | None => look s' k = look s k
                end.
Proof.
  intros Hnd Hs Hstep. revert Hstep s Hs. induction l as [|[k v] l IH]; intros Hstep s Hs; cbn [st_for_each].
  { intros [= <- _]. split; [done|]. intros k. cbn. by rewrite lookup_empty. }
  cbn in Hnd. apply list.NoDup_cons in Hnd as [Hk Hnd]. rewrite st_bind. destruct (step (k, v) s) as [s1 [[]|e|]] eqn:Hr; [|done..].
  destruct (Hstep k v s s1 tt ltac:(left) Hs Hr) as (Hs1 & HR & Hother). intros Hl.
  destruct (IH Hnd (λ k v s s' u Hin, Hstep k v s s' u ltac:(by right)) s1 Hs1 Hl) as [Hs' Hall]. split; [done|]. intros k'. cbn.
  specialize (Hall k'). destruct (decide (k' = k)) as [->|Hne].
  - rewrite lookup_insert_eq. rewrite not_elem_of_list_to_map_1 in Hall by done. by rewrite Hall.
  - rewrite lookup_insert_ne by done. by rewrite Hother in Hall.
Qed.

Lemma try_fold_keyed (step : S → K * V → result E S) (look : S → K → X)
    (R : K → V → X → X → Prop) (l : list (K * V)) s s' :
  NoDup l.*1 →
  (∀ k v s s', step s (k, v) = Ok s' →
     R k v (look s k) (look s' k) ∧ ∀ k', k' ≠ k → look s' k' = look s k') →
  try_fold step s l = Ok s' →
  ∀ k, match (list_to_map l : gmap K V) !! k with
       | Some v => R k v (look s k) (look s' k)
       | None => look s' k = look s k
       end.
Proof.
  intros Hnd Hstep Hl. apply (st_for_each_keyed
    (λ x s, match step s x with Ok s' => (s', Ok tt) | Err e => (s, Err e) | Panic => (s, Panic) end)
    look (λ _, True) R l s s' tt Hnd I).
  - intros k v t t' u _ _. destruct (step t (k, v)) as [t1|e|] eqn:Hr; [|done..]. intros [= <- _].
    split; [done|]. by apply Hstep.
  - revert s Hl. clear Hnd. induction l as [|x l IH]; intros s; cbn; [by intros [= <-]|].
    intros (s1 & Hx & Hl)%bind_Ok. rewrite st_bind, Hx. by apply IH.
Qed.
End keyed_loops.

(** ** The live container and its record *)
Section live.
Context {C : Type} `{!TrustedStateCodec C LocalScalarRecoveryState}.

(** The live container is what a restart decodes from the record in memory. *)
Definition recovery_live (codec : C) (rs : LocalScalarRecoveryState) (record : DurableSyncRecord) : Prop :=
  recovery_ok rs ∧ (len (trusted_state record) ≤ isize_max → decode_trusted codec (trusted_state record) = Ok rs).

(** A container is decoded from the state, which is an allocation. *)
Definition recoverable (codec : C) (state : list byte) : Prop :=
  ∃ rs, recovery_live codec rs (DurableSyncRecord.new state None).

Lemma recovery_live_encoded `{!RecoveryStateLaws C} codec rs record :
  recovery_ok rs → encode_trusted codec rs = Ok (trusted_state record) → recovery_live codec rs record.
Proof. intros Hrs He. split; [done|]. intros Hlen. by eapply recovery_round_trip. Qed.

#[export] Instance recovery_live_state codec : LiveState (recovery_live codec) (recoverable codec).
Proof.
  split.
  - intros rs record record' Hs [Hok Hd]. split; [done|]. by rewrite Hs.
  - intros rs record Hl. by exists rs.
Qed.
End live.

(** ** Staging *)
Section staging.
Context {St C : Type} `{SyncRecordStore St} `{!TrustedStateCodec C LocalScalarRecoveryState}.
Implicit Types (rs : LocalScalarRecoveryState) (sel : gmap DomainKey (gset RevisionId)).

(** What a container holds at a key after the handoff of [direct] there. *)
Definition handed_off (direct : gset RevisionId) (before after : option (LocalScalarSnapshot (list byte))) : Prop :=
  ∃ d d', before = Some (LocalScalarDomain.snapshot d) ∧ domain_ok d ∧
    LocalScalarDomain.handoff (elements_asc direct) d = (d', Ok tt) ∧ after = Some (LocalScalarDomain.snapshot d').

(** Each selected domain is handed off in its own domain; no other changes. *)
Definition exposed_selection sel rs rs' : Prop :=
  ∀ k, match sel !! k with
       | Some direct => handed_off direct (recovery_domains rs !! k) (recovery_domains rs' !! k)
       | None => recovery_domains rs' !! k = recovery_domains rs !! k
       end.

Lemma expose_domain_step k direct rs rs' u :
  recovery_ok rs → expose_domain (St := St) (C := C) (k, direct) rs = (rs', Ok u) →
  recovery_ok rs' ∧ handed_off direct (recovery_domains rs !! k) (recovery_domains rs' !! k) ∧
  ∀ k', k' ≠ k → recovery_domains rs' !! k' = recovery_domains rs !! k'.
Proof.
  intros Hrs. unfold expose_domain. run_st.
  destruct (restore_domain_cases rs k Hrs) as [[Hr _]|(d & Hr & Hd & Hk & Hs)]; rewrite Hr; cbn [map_err ok_or]; run_st; [done|].
  destruct (LocalScalarDomain.handoff (elements_asc direct) d) as [d' [[]|e|]] eqn:Hh; cbn [map_err]; run_st; [|done..].
  destruct (domain_handoff_spec d direct d' Hd Hh) as [Hd' _].
  rewrite st_bind. unfold map_err_st. rewrite replace_snapshot_cases by done. cbn. intros [= <- _].
  split; [by apply with_domain_ok|]. cbn. rewrite lookup_insert_eq. split; [by exists d, d'|].
  intros k' Hne. by rewrite lookup_insert_ne.
Qed.

Lemma expose_all sel rs rs' u :
  recovery_ok rs → st_for_each (expose_domain (St := St) (C := C)) (entries_asc sel) rs = (rs', Ok u) →
  recovery_ok rs' ∧ exposed_selection sel rs rs'.
Proof.
  intros Hrs Hl. apply (st_for_each_keyed _ (λ rs k, recovery_domains rs !! k) recovery_ok
    (λ k direct, handed_off direct)) in Hl as [Hok Hall]; [|apply NoDup_entries_asc|done|].
  - split; [done|]. intros k. specialize (Hall k). by rewrite list_to_map_entries_asc in Hall.
  - intros k direct s s' u' _ Hs. by apply expose_domain_step.
Qed.

(** Staging is a swap. *)
Lemma stage_recovery_eq (codec : C) prepared rs (p : DurableSyncRecord * St) :
  stage_prepared_recovery_handoff codec prepared (rs, p) =
  let '(candidate, exposed) := st_for_each expose_domain (entries_asc (handoff_revision_ids prepared)) rs in
  match exposed, encode_trusted codec candidate with
  | Ok _, Ok bytes =>
      swap_after (stage_outbound bytes (handoff_publication_id prepared) (handoff_objects prepared))
        StageSync candidate (rs, p)
  | Ok _, Err e => ((rs, p), Err (StageCodec e))
  | Err e, _ => ((rs, p), Err e)
  | _, _ => ((rs, p), Panic)
  end.
Proof.
  unfold stage_prepared_recovery_handoff. run_st. cbn [fst].
  destruct (st_for_each _ _ rs) as [candidate [[]|e|]]; [|done..]. run_st.
  by destruct (encode_trusted _ _).
Qed.
End staging.

(** ** Preparing *)
Section prepare.
Context `{AeadLaws}.
Implicit Types (rs : LocalScalarRecoveryState) (sel : gmap DomainKey (gset RevisionId)).

(** What a projection carries at a key of the selection [direct]: exactly what
    the selected revisions depend on, frozen where it is local. *)
Definition projected (stored : option (LocalScalarSnapshot (list byte))) (direct : gset RevisionId)
    (register : option (ScalarRegister (list byte))) : Prop :=
  ∃ d r', stored = Some (LocalScalarDomain.snapshot d) ∧ domain_ok d ∧ register = Some r' ∧ direct ≠ ∅ ∧
    (LocalScalarDomain.handoff (elements_asc direct) d).2 = Ok tt ∧ valid r' ∧
    let r := causal (working d) in
    direct ⊆ dom (revisions r) ∧
    ∀ x rev, revisions r' !! x = Some rev ↔ revisions r !! x = Some rev ∧ depends_on r direct x.

Lemma project_domain_step rs m k direct m' :
  recovery_ok rs → project_domain rs m (k, direct) = Ok m' →
  dk_domain k ≠ [] ∧ projected (recovery_domains rs !! k) direct (m' !! k) ∧ ∀ k', k' ≠ k → m' !! k' = m !! k'.
Proof.
  intros Hrs. unfold project_domain. case_decide as Hne; [done|].
  destruct (restore_domain_cases rs k Hrs) as [[Hr _]|(d & Hr & Hd & Hk & Hs)]; rewrite Hr;
    cbn [map_err ok_or mbind result_bind]; [done|].
  destruct (LocalScalarDomain.handoff (elements_asc direct) d) as [d' handed] eqn:Hh.
  intros ([] & ->%map_err_Ok & Hp)%bind_Ok.
  destruct (domain_handoff_spec d direct d' Hd Hh) as (_ & _ & _ & Hdirect & _).
  set (r := causal (working d)) in *. change (LocalScalarDomain.domain_causal d) with r in Hp.
  assert (valid r) as Hv by by apply domain_ok_causal.
  apply bind_Ok in Hp as (closure & Hclosure%map_err_Ok & Hp). rewrite dependency_closure_eq in Hclosure.
  pose proof (handoff_closure_spec r direct (proj1 (proj2 Hv))) as Hspec. rewrite Hclosure in Hspec.
  destruct Hspec as [_ Hcl]. apply bind_Ok in Hp as (revs & Hrevs%map_err_Ok & Hp).
  rewrite (closure_register r direct closure revs Hv Hdirect Hcl Hrevs) in Hp. cbn [map_err mbind result_bind] in Hp.
  apply (inj Ok) in Hp as <-. rewrite lookup_insert_eq. split; [done|].
  split; [|intros k' Hne'; by rewrite lookup_insert_ne].
  exists d, (restricted r closure). rewrite Hs, Hh. split_and!; try done.
  - by eapply restricted_valid.
  - split; [done|]. intros x rev. by rewrite restricted_lookup, Hcl.
Qed.

Definition projects_selection rs sel (projection : ScalarSyncProjection) : Prop :=
  ∀ k, match sel !! k with
       | Some direct => dk_domain k ≠ [] ∧ projected (recovery_domains rs !! k) direct (domains projection !! k)
       | None => domains projection !! k = None
       end.

Lemma project_all rs sel m :
  recovery_ok rs → try_fold (project_domain rs) ∅ (entries_asc sel) = Ok m →
  projects_selection rs sel (SyncProjection_mk m).
Proof.
  intros Hrs Hl k. apply (try_fold_keyed _ (λ m k, m !! k) (λ k direct _ after,
    dk_domain k ≠ [] ∧ projected (recovery_domains rs !! k) direct after)) with (k := k) in Hl; [|apply NoDup_entries_asc|].
  - rewrite list_to_map_entries_asc in Hl. cbn. destruct (sel !! k); [done|]. by rewrite lookup_empty in Hl.
  - intros k' direct m1 m2 (Hk & Hp & Hother)%project_domain_step; done.
Qed.

Lemma projects_selection_valid rs sel projection : projects_selection rs sel projection → projection_valid projection.
Proof.
  intros Hp k r Hr. specialize (Hp k). destruct (sel !! k) as [direct|]; [|congruence].
  destruct Hp as (Hk & d & r' & _ & _ & Hr' & _ & _ & Hv & _). split; [done|]. congruence.
Qed.

Lemma prepare_recovery_Ok gen rs c pid key sel prepared :
  recovery_ok rs → prepare_recovery_handoff gen rs c pid key sel = Ok prepared →
  sel ≠ ∅ ∧ handoff_revision_ids prepared = sel ∧ handoff_publication_id prepared = pid ∧
  ∃ projection part wire, projects_selection rs sel projection ∧
    protect_scalar_part gen key c pid 0 1 projection = Ok part ∧ encode_protected_sync_part part = Ok wire ∧
    handoff_objects prepared = [wire].
Proof.
  intros Hrs. unfold prepare_recovery_handoff. case_decide as Hne; [done|].
  intros (m & Hm & Hp)%bind_Ok. apply project_all in Hm; [|done]. cbn zeta in Hp.
  apply bind_Ok in Hp as (part & Hpart%map_err_Ok & Hp).
  apply bind_Ok in Hp as (wire & Hwire%map_err_Ok & Hp). apply (inj Ok) in Hp as <-.
  split_and!; try done. by exists (SyncProjection_mk m), part, wire.
Qed.

(** The one part of a prepared publication, opened by anyone with the key. *)
Lemma prepared_part gen c pid key projection part wire :
  projection_valid projection → protect_scalar_part gen key c pid 0 1 projection = Ok part →
  encode_protected_sync_part part = Ok wire → len wire ≤ isize_max →
  decode_protected_sync_part wire = Ok part ∧ publication_id part = pid ∧ part_index part = 0 ∧ total_parts part = 1 ∧
  unprotect_scalar_part key c part = Ok projection.
Proof.
  intros Hval Hpart Hwire Hlen.
  assert (len (payload part) ≤ isize_max) as Hpay.
  { apply encode_part_Ok in Hwire as (_ & _ & ->). rewrite !len_app in Hlen. lia. }
  destruct (protect_unprotect_part _ _ _ _ _ _ _ _ Hval Hpay Hpart) as (Hid & Hi & Ht & Hun).
  split; [|done]. apply (decode_part_spec wire Hlen). split; [|done]. unfold part_fits. rewrite Hi, Ht. by split.
Qed.

(** What a peer and what the device itself decode of it. *)
Lemma prepared_decode {TE TSE SE CE} gen c pid key projection part wire :
  projection_valid projection → protect_scalar_part gen key c pid 0 1 projection = Ok part →
  encode_protected_sync_part part = Ok wire → len wire ≤ isize_max →
  decode_complete_scalar_projections (TE := TE) (TSE := TSE) (SE := SE) (CE := CE) key c [wire] = Ok [projection] ∧
  decode_pending_recovery_publication key c pid [wire] = Ok projection.
Proof.
  intros Hval Hpart Hwire Hlen.
  destruct (prepared_part gen c pid key projection part wire Hval Hpart Hwire Hlen) as (Hdec & Hid & Hi & Ht & Hun).
  split.
  - unfold decode_complete_scalar_projections. cbn [st_for_each]. rewrite st_bind. unfold assemble_projection.
    run_st. cbn [range_seen]. rewrite decide_False by set_solver. run_st. rewrite Hdec. cbn [map_err]. run_st.
    rewrite st_bind. unfold on_field, map_err_st. cbn [range_inbox]. rewrite ingest_single, Hun by done. reflexivity.
  - unfold decode_pending_recovery_publication. rewrite decide_False by done. cbn [st_for_each].
    rewrite st_bind. unfold assemble_pending.
    run_st. cbn [pending_seen]. rewrite decide_False by set_solver. run_st. rewrite Hdec. cbn [map_err]. run_st.
    rewrite decide_False by auto. rewrite st_bind. unfold on_field, map_err_st. cbn [pending_inbox].
    rewrite ingest_single, Hun by done. reflexivity.
Qed.
End prepare.
