(* ===== verification/CatchupSetLaws.v ===== *)
(** * What catching up a container does

    Every domain the fetched range touches observes the merge of its own
    registers and no other domain changes; the whole container and the cursor
    become durable together (crates/apc-runtime/src/catchup_set.rs, receive_set.rs). *)
From Stdlib Require Import Lia NArith Strings.Byte.
From stdpp Require Import base tactics option list gmap numbers.
From S2P Require Import Prelude Outcome BTree Bytes Id Error Worklist Scalar Causal Merge ScalarMerge.
From S2P Require Import Working Finalization Domain Reader RegisterCodec Projection Codec Crypto Protected.
From S2P Require Import Wire Recovery Transport Session Batch TrustedState TrustedStateSet Receive ReceiveSet.
From S2P Require Import Catchup CatchupSet SessionRuns RuntimeLaws CatchupLaws ResumeSetLaws RecoveryLaws.
Local Open Scope N_scope.

(** ** Complete ranges *)
Section range.
Context `{Aead} {TE TSE SE CE : Type}.
Implicit Types (self : RangeAssembly) (key : ContentKey) (c : ContinuumId).
Notation assemble_projection := (assemble_projection (TE := TE) (TSE := TSE) (SE := SE) (CE := CE)).
Notation decode_complete_scalar_projections :=
  (decode_complete_scalar_projections (TE := TE) (TSE := TSE) (SE := SE) (CE := CE)).

(** Once an object has been seen, a projection is complete or a part is held. *)
Definition range_ok self : Prop :=
  inbox_valid (range_inbox self) ∧ (∀ p, p ∈ range_completed self → projection_valid p) ∧
  (range_seen self ≠ ∅ → range_completed self ≠ [] ∨ inbox_pending (range_inbox self) ≠ ∅).

Lemma assemble_projection_ok key c encoded self :
  range_ok self →
  outcome (assemble_projection key c encoded) self (λ self' _, range_ok self' ∧ range_seen self' ≠ ∅) (λ _, True).
Proof.
  intros (Hinbox & Hvalid & Hseen). unfold CatchupSet.assemble_projection. apply outcome_get.
  destruct (decide (encoded ∈ range_seen self)) as [Hin|Hout].
  { apply outcome_ret. split; [done|]. set_solver. }
  unfold outcome. run_st. destruct (decode_protected_sync_part encoded) as [part|e|]; [|done..].
  cbn [map_err]. run_st. rewrite st_bind. unfold on_field, map_err_st. cbn [range_inbox].
  pose proof (ingest_valid key c part (range_inbox self) Hinbox) as Hingest.
  destruct (MultipartInbox.ingest key c part (range_inbox self)) as [inbox' [[projection|]|e|]]; cbn [map_err];
    [| |done..]; destruct Hingest as [Hinbox1 Hp]; run_st; (split; [|cbn; set_solver]); (split; [done|]); cbn.
  - split; [|left; by destruct (range_completed self)].
    intros p [?|Hp']%elem_of_app; [by apply Hvalid|]. by apply list_elem_of_singleton in Hp' as ->.
  - split; [done|]. by right.
Qed.

Lemma assemble_projections_ok key c l self :
  range_ok self →
  outcome (st_for_each (assemble_projection key c) l) self
    (λ self' _, range_ok self' ∧ (l ≠ [] → range_seen self' ≠ ∅)) (λ _, True).
Proof.
  revert self. induction l as [|encoded l IH]; intros self Hself; cbn [st_for_each]; [by apply outcome_ret|].
  apply outcome_bind. eapply outcome_mono; [by apply assemble_projection_ok| |done].
  intros self1 _ [Hself1 Hseen]. unfold outcome. specialize (IH self1 Hself1). unfold outcome in IH.
  destruct (st_for_each _ l self1) as [self2 [[]|e|]] eqn:Hrun; [|done..].
  destruct IH as [Hself2 Hl]. split; [done|]. intros _. destruct l; [|by apply Hl].
  cbn in Hrun. by injection Hrun as <-.
Qed.

Lemma decode_projections_valid key c l projections :
  decode_complete_scalar_projections key c l = Ok projections →
  (∀ p, p ∈ projections → projection_valid p) ∧ (l ≠ [] → projections ≠ []).
Proof.
  unfold CatchupSet.decode_complete_scalar_projections.
  assert (range_ok (RangeAssembly_mk MultipartInbox.new [] ∅)) as Hstart.
  { split; [apply new_inbox_valid|]. cbn. split; [intros p Hp; by apply not_elem_of_nil in Hp|done]. }
  pose proof (assemble_projections_ok key c l _ Hstart) as Hall. unfold outcome in Hall.
  destruct (st_for_each _ l _) as [self [[]|e|]]; [|done..]. destruct Hall as [(_ & Hvalid & Hne) Hseen].
  cbn [mbind result_bind]. case_decide as Hpend; [done|]. intros [= <-]. split; [done|].
  intros Hl. destruct (Hne (Hseen Hl)) as [|Hp]; [done|]. exfalso. apply Hp.
  unfold MultipartInbox.pending_publications in Hpend. apply map_size_empty_inv. lia.
Qed.
End range.

(** ** The merged range *)
Section merged.
Context {K S : Type} `{OrdLaws K} `{!EqDecision K, !Countable K} `{MergeLaws S ok}.
Implicit Types (p : SyncProjection K S) (l : list (SyncProjection K S)).

(** The states a range carries for one domain, in order. *)
Definition carried l (k : K) : list S := omap (λ p, domains p !! k) l.

(** Merging projections merges each domain's states, and nothing else. *)
Lemma merge_projections_from l p combined :
  try_fold SyncProjection.merge p l = Ok combined →
  ∀ k, match option_list (domains p !! k) ++ carried l k with
       | [] => domains combined !! k = None
       | s :: rest => ∃ merged, merge_all s rest = Ok merged ∧ domains combined !! k = Some merged
       end.
Proof.
  revert p. induction l as [|q l IH]; intros p; cbn [try_fold].
  - intros Hc k. apply (inj Ok) in Hc as <-. rewrite app_nil_r. destruct (domains p !! k) as [s|]; cbn; [by exists s|done].
  - intros (m & Hm & Hl)%bind_Ok k. specialize (IH m Hl k). apply projection_merge_Ok in Hm.
    pose proof (proj1 (merge_maps_Ok _ _ _) Hm k) as Hk. clear Hm. unfold carried in *. cbn [omap list_omap].
    destruct (domains p !! k) as [s|], (domains q !! k) as [s'|]; cbn [option_list app] in *; cbn [app] in IH |- *.
    1: { destruct Hk as (v & Hv & Hmk). rewrite Hmk in IH. cbn [option_list app] in IH.
         destruct IH as (merged & Hmerged & Hc). exists merged. split; [|done]. unfold merge_all. cbn [app try_fold].
         by rewrite Hv. }
    all: by rewrite Hk in IH.
Qed.

Lemma merge_projections_Ok l combined :
  try_fold SyncProjection.merge SyncProjection.new l = Ok combined →
  ∀ k, match carried l k with
       | [] => domains combined !! k = None
       | s :: rest => ∃ merged, merge_all s rest = Ok merged ∧ domains combined !! k = Some merged
       end.
Proof. intros Hl k. by apply (merge_projections_from l SyncProjection.new combined). Qed.
End merged.

Lemma merge_projections_valid (l : list ScalarSyncProjection) combined :
  (∀ p, p ∈ l → projection_valid p) →
  try_fold SyncProjection.merge SyncProjection.new l = Ok combined → projection_valid combined.
Proof.
  intros Hl. apply try_fold_inv; [apply empty_projection_valid|].
  intros a b x Hb Ha Hx. eapply projection_valid_merge; [exact Ha| |exact Hx]. by apply Hl.
Qed.

(** ** Observing *)
Section observing.
Context {St Tr TC CC : Type} `{SyncRecordStore St} `{OpaqueTransport Tr}
  `{!TrustedStateCodec TC LocalScalarRecoveryState} `{!TransportCursorCodec CC Revision}.
Implicit Types (rs : LocalScalarRecoveryState) (k : DomainKey) (remote : ScalarRegister (list byte)).
Implicit Types (pre : gmap DomainKey RevisionId).
Notation observe_domain := (observe_domain (St := St) (Tr := Tr) (TC := TC) (CC := CC)).

(** What happens at the key of a remote register: a known domain observes it,
    an unknown one starts from it. *)
Definition observed_at (pre : option RevisionId) remote (before after : option (LocalScalarSnapshot (list byte)))
    (sealed : option (ScalarRevision (list byte))) : Prop :=
  (∃ d d', before = Some (LocalScalarDomain.snapshot d) ∧ domain_ok d ∧ observed d remote pre sealed d' ∧
     after = Some (LocalScalarDomain.snapshot d')) ∨
  (before = None ∧ sealed = None ∧ ∃ d', LocalScalarDomain.from_causal remote = Ok d' ∧ domain_ok d' ∧
     after = Some (LocalScalarDomain.snapshot d')).

(** Each domain of [combined] observes its own register; no other changes. *)
Definition observed_range pre (combined : ScalarSyncProjection) rs rs' (ids : gmap DomainKey (gset RevisionId))
    (sealed : gmap DomainKey (ScalarRevision (list byte))) : Prop :=
  ∀ k, match domains combined !! k with
       | Some remote =>
           observed_at (pre !! k) remote (recovery_domains rs !! k) (recovery_domains rs' !! k) (sealed !! k) ∧
           ids !! k = Some (dom (revisions remote))
       | None => recovery_domains rs' !! k = recovery_domains rs !! k ∧ ids !! k = None ∧ sealed !! k = None
       end.

(** What the loop holds at a key. *)
Definition held_at (o : Observation) k :=
  (recovery_domains (candidate o) !! k, observed_ids o !! k, sealed_revisions o !! k).

Lemma from_causal_domain_ok (r : ScalarRegister (list byte)) d :
  keyed r → LocalScalarDomain.from_causal r = Ok d → domain_ok d.
Proof. intros Hk Hd. apply domain_reachable_ok. by eapply reachable_init. Qed.

Lemma observe_domain_step pre k remote o o' u :
  dk_domain k ≠ [] → keyed remote → recovery_ok (candidate o) → observe_domain pre (k, remote) o = (o', Ok u) →
  recovery_ok (candidate o') ∧
  (observed_ids o' !! k = Some (dom (revisions remote)) ∧
   ∃ sealed, sealed_revisions o' !! k = from_option Some (sealed_revisions o !! k) sealed ∧
     observed_at (pre !! k) remote (recovery_domains (candidate o) !! k) (recovery_domains (candidate o') !! k) sealed) ∧
  ∀ k', k' ≠ k → held_at o' k' = held_at o k'.
Proof.
  intros Hne Hk Hok. unfold CatchupSet.observe_domain. run_st. cbn [candidate].
  destruct (restore_domain_cases (candidate o) k Hok) as [[Hr Hn]|(d & Hr & Hd & _ & Hs)]; rewrite Hr; cbn [map_err]; run_st.
  - destruct (LocalScalarDomain.from_causal remote) as [d'|e|] eqn:Hf; cbn [map_err]; run_st; [|done..].
    pose proof (from_causal_domain_ok _ _ Hk Hf) as Hd'. unfold on_candidate, on_field, map_err_st. cbn [candidate].
    rewrite insert_new_cases, Hn, domain_restore_snapshot by done. cbn. intros [= <-]. cbn.
    split; [by apply with_domain_ok|]. rewrite !lookup_insert_eq, (register_revision_ids_dom remote Hk).
    split; [|intros k' Hk'; unfold held_at; cbn; by rewrite !lookup_insert_ne].
    split; [done|]. exists None. split; [done|]. right. split_and!; [done..|]. by exists d'.
  - destruct (LocalScalarDomain.observe_remote remote (pre !! k) d) as [d' [sealed|e|]] eqn:Ho; cbn [map_err]; run_st;
      [|done..].
    apply observe_remote_observed in Ho; [|done..].
    assert (∀ o1, candidate o1 = candidate o → observed_ids o1 = <[k := register_revision_ids remote]> (observed_ids o) →
      (∀ k', k' ≠ k → sealed_revisions o1 !! k' = sealed_revisions o !! k') →
      sealed_revisions o1 !! k = from_option Some (sealed_revisions o !! k) sealed →
      (_ ← on_candidate (E := ScalarRecoveryCatchUpError (TransportError (Tr := Tr)) (TrustedError (C := TC))
            (StoreError (St := St)) (CursorError (C := CC) (R := Revision))) (map_err_st RecoveryCatchUpState
          (LocalScalarRecoveryState.replace_domain k (LocalScalarDomain.snapshot d'))); mret tt) o1 = (o', Ok u) →
      recovery_ok (candidate o') ∧
      (observed_ids o' !! k = Some (dom (revisions remote)) ∧
       ∃ sealed, sealed_revisions o' !! k = from_option Some (sealed_revisions o !! k) sealed ∧
         observed_at (pre !! k) remote (recovery_domains (candidate o) !! k) (recovery_domains (candidate o') !! k) sealed) ∧
      ∀ k', k' ≠ k → held_at o' k' = held_at o k') as Hlast.
    { intros o1 Hc Hi Hother Hhere. rewrite st_bind. unfold on_candidate, on_field, map_err_st. rewrite Hc.
      rewrite replace_snapshot_cases by apply Ho. cbn. intros [= <-]. cbn.
      split; [apply with_domain_ok; [done..|apply Ho]|]. rewrite Hi, !lookup_insert_eq, (register_revision_ids_dom remote Hk).
      split.
      - split; [done|]. exists sealed. split; [done|]. left. exists d, d'. by rewrite Hs.
      - intros k' Hk'. unfold held_at. cbn. rewrite !lookup_insert_ne by done. by rewrite Hother. }
    destruct sealed as [rev|]; run_st; apply Hlast; try done; cbn; [|by rewrite lookup_insert_eq].
    intros k' Hk'. by rewrite lookup_insert_ne.
Qed.

Lemma observe_all pre combined rs o u :
  projection_valid combined → recovery_ok rs →
  st_for_each (observe_domain pre) (entries_asc (domains combined)) (Observation_mk rs ∅ ∅) = (o, Ok u) →
  recovery_ok (candidate o) ∧ observed_range pre combined rs (candidate o) (observed_ids o) (sealed_revisions o).
Proof.
  intros Hval Hrs Hl.
  apply (st_for_each_keyed _ held_at (λ o, recovery_ok (candidate o)) (λ k remote before after,
    after.1.2 = Some (dom (revisions remote)) ∧
    ∃ sealed, after.2 = from_option Some before.2 sealed ∧ observed_at (pre !! k) remote before.1.1 after.1.1 sealed))
    in Hl as [Hok Hall]; [|apply NoDup_entries_asc|done|].
  - split; [done|]. intros k. specialize (Hall k). rewrite list_to_map_entries_asc in Hall. unfold held_at in Hall. cbn in Hall.
    destruct (domains combined !! k) as [remote|]; [|by simplify_eq].
    destruct Hall as (Hids & sealed & Hsealed & Hobs). rewrite lookup_empty in Hsealed. split; [|done].
    rewrite Hsealed. by destruct sealed.
  - intros k remote o1 o2 u' [Hne Hr]%elem_of_entries_asc%Hval Ho1 Ho2. by eapply observe_domain_step; [..|apply Hr| |].
Qed.
End observing.

(** ** Receiving into one domain *)
Section received.
Context {St TC CC R : Type} `{SyncRecordStore St} `{!TrustedStateCodec TC LocalScalarRecoveryState}
  `{!TransportCursorCodec CC R}.

(** Either nothing happens, or a container that has received is swapped in. *)
Lemma commit_received_recovery_cases (codec : TC) (cursors : CC) received rs (p : DurableSyncRecord * St) :
  recovery_ok rs → keyed (recovery_remote received) →
  (∃ r, commit_received_recovery_scalar_domain codec cursors received (rs, p) = ((rs, p), r) ∧ ¬ is_ok r) ∨
  ∃ d d' sealed bytes,
    let k := recovery_domain_key received in
    let candidate := with_domain rs k (LocalScalarDomain.snapshot d') in
    LocalScalarRecoveryState.restore_domain rs k = Ok (Some d) ∧ domain_ok d ∧ dk_domain k ≠ [] ∧
    recovery_domains rs !! k = Some (LocalScalarDomain.snapshot d) ∧
    LocalScalarDomain.observe_remote (recovery_remote received) (recovery_pre_observation_revision_id received) d
      = (d', Ok sealed) ∧
    encode_trusted codec candidate = Ok bytes ∧
    commit_received_recovery_scalar_domain codec cursors received (rs, p) =
    let '(s', r) := swap_after (commit_received cursors bytes (recovery_new_head received))
      RecoveryReceiveSync candidate (rs, p) in
    (s', _ ← r; Ok sealed).
Proof.
  intros Hrs Hk. unfold commit_received_recovery_scalar_domain. run_st. cbn [fst].
  assert (∀ A B E (a : A) (e : E), ∃ r, (a, Err e) = (a, r) ∧ ¬ is_ok (A := B) r) as Herr.
  { intros A B E a e. eexists. split; [done|]. by intros []. }
  assert (∀ A B E (a : A), ∃ r, (a, Panic) = (a, r) ∧ ¬ is_ok (E := E) (A := B) r) as Hpanic.
  { intros A B E a. eexists. split; [done|]. by intros []. }
  destruct (restore_domain_cases rs (recovery_domain_key received) Hrs) as [[Hr _]|(d & Hr & Hd & Hne & Hs)]; rewrite Hr;
    cbn [map_err ok_or]; run_st; [by left|]. cbn [ok_or]. run_st.
  destruct (LocalScalarDomain.observe_remote _ _ d) as [d' [sealed|e|]] eqn:Ho; cbn [map_err]; run_st; [|by left..].
  pose proof (observe_remote_observed _ _ _ _ _ Hd Hk Ho) as Hobs.
  rewrite replace_snapshot_cases by apply Hobs. cbn [map_err]. run_st.
  destruct (encode_trusted codec _) as [bytes|e|] eqn:Henc; cbn [map_err]; run_st; [|by left..]. right.
  exists d, d', sealed, bytes. split_and!; [done..|]. rewrite swap_after_cases, st_bind.
  unfold on_snd, on_fst, on_field, map_err_st. cbn. by destruct (commit_received _ _ _ p) as [p' [[]|e|]].
Qed.
End received.

(** ** The pass *)
Section pass.
Context `{Aead} {St Tr TC CC : Type} `{SyncRecordStore St} `{OpaqueTransport Tr}
  `{!TrustedStateCodec TC LocalScalarRecoveryState} `{!RecoveryStateLaws TC}
  `{!TransportCursorCodec CC Revision}.
Implicit Types (codec : TC) (cursors : CC) (spec : ScalarRecoveryCatchUpSpec) (rs : LocalScalarRecoveryState).
Implicit Types (record : DurableSyncRecord) (store : St) (tr : Tr).

(** The one projection a range stands for: per domain, the merge of what the
    authentic publications of the range carry for it. *)
Definition range_of spec (l : list (list byte)) (combined : ScalarSyncProjection) : Prop :=
  ∃ projections,
    decode_complete_scalar_projections (TE := TransportError (Tr := Tr)) (TSE := TrustedError (C := TC))
      (SE := StoreError (St := St)) (CE := CursorError (C := CC) (R := Revision))
      (recovery_key spec) (recovery_continuum_id spec) l = Ok projections ∧
    ∀ k, match carried projections k with
         | [] => domains combined !! k = None
         | r :: rest => ∃ remote, merge_all r rest = Ok remote ∧ domains combined !! k = Some remote
         end.

(** The one operation of a pass that was told of [head] and [objects]. *)
Definition range_receives codec spec rs (head : Revision) objects (op : session_op Revision) : Prop :=
  ∃ bytes candidate, op = OpReceive bytes head ∧ encode_trusted codec candidate = Ok bytes ∧ recovery_ok candidate ∧
    (objects = [] ∧ candidate = rs ∨
     objects ≠ [] ∧ ∃ combined ids sealed, range_of spec objects combined ∧
       observed_range (pre_observation_revision_ids spec) combined rs candidate ids sealed).

Lemma received_head_step codec cursors (candidate : LocalScalarRecoveryState) bytes head record store :
  recovery_ok candidate → encode_trusted codec candidate = Ok bytes →
  let '(p', res) := commit_received cursors bytes head (record, store) in
  p' = run_ops cursors [OpReceive bytes head] (record, store) ∧ outbox p'.1 = outbox record ∧
  match res with
  | Ok _ => recovery_live codec candidate p'.1 ∧ cursor_at cursors head p'.1
  | _ => p'.1 = record
  end.
Proof.
  intros Hok Henc. pose proof (commit_received_step cursors bytes head record store) as Hstep.
  destruct (commit_received cursors bytes head (record, store)) as [p' [[]|e|]]; destruct Hstep as [-> Hres];
    [|by rewrite Hres..].
  destruct Hres as (cursor & Hcur & ->). split; [done|]. split; [done|].
  split; [by apply recovery_live_encoded|by exists cursor].
Qed.

(** What a pass that was told of [head] and [objects] answers. *)
Definition range_answer cursors spec rs rs' head objects record' (res : ScalarRecoveryCatchUpOutcome Revision) : Prop :=
  match res with
  | RecoveryCursorAdvanced h => h = head ∧ objects = [] ∧ rs' = rs ∧ cursor_at cursors head record'
  | RecoveryApplied h n ids sealed => h = head ∧ n = length objects ∧ objects ≠ [] ∧ cursor_at cursors head record' ∧
      ∃ combined, range_of spec objects combined ∧
        observed_range (pre_observation_revision_ids spec) combined rs rs' ids sealed
  | _ => False
  end.

Lemma recovery_changed_step codec cursors spec rs record store head objects :
  recovery_live codec rs record →
  let '((rs', p'), res) := recovery_changed (Tr := Tr) codec cursors spec head objects (rs, (record, store)) in
  recovery_live codec rs' p'.1 ∧ outbox p'.1 = outbox record ∧
  (∃ ops, p' = run_ops cursors ops (record, store) ∧
    (ops = [] ∨ ∃ op, ops = [op] ∧ range_receives codec spec rs head objects op)) ∧
  match res with
  | Ok answer => range_answer cursors spec rs rs' head objects p'.1 answer
  | _ => rs' = rs ∧ p'.1 = record
  end.
Proof.
  intros Hlive. pose proof (proj1 Hlive) as Hrs. assert (∃ ops, (record, store) = run_ops cursors ops (record, store) ∧
    (ops = [] ∨ ∃ op, ops = [op] ∧ range_receives codec spec rs head objects op)) as Hnone.
  { exists []. split; [done|by left]. }
  unfold recovery_changed. destruct (decide (objects = [])) as [Hnil|Hne].
  - run_st. cbn [fst]. destruct (encode_trusted codec rs) as [bytes|e|] eqn:Henc; cbn [map_err]; run_st; [|done..].
    rewrite st_bind. unfold on_snd, on_field, map_err_st. cbn [snd].
    pose proof (received_head_step codec cursors rs bytes head record store Hrs Henc) as Hstep.
    assert (range_receives codec spec rs head objects (OpReceive bytes head)) as Hop by (exists bytes, rs; auto 10).
    destruct (commit_received cursors bytes head (record, store)) as [p' [[]|e|]]; destruct Hstep as (-> & Hout & Hres);
      cbn [map_err fst]; (split; [first [apply Hres|by eapply live_same; [rewrite Hres|]]|]);
      (split; [done|]); (split; [eexists; split; [done|right; by eauto]|]); [|done..].
    split; [done|]. split; [done|]. split; [done|apply Hres].
  - run_st. destruct (decode_complete_scalar_projections _ _ objects) as [projections|e|] eqn:Hdec; run_st; [|done..].
    destruct (decode_projections_valid _ _ _ _ Hdec) as [Hvalid _].
    destruct (try_fold SyncProjection.merge _ projections) as [combined|e|] eqn:Hcomb; cbn [map_err]; run_st; [|done..].
    pose proof (merge_projections_valid projections combined Hvalid Hcomb) as Hval. cbn [fst].
    assert (range_of spec objects combined) as Hrange.
    { exists projections. split; [exact Hdec|]. by apply merge_projections_Ok. }
    destruct (st_for_each _ _ _) as [o [[]|e|]] eqn:Hobs; [|done..]. run_st.
    destruct (observe_all _ combined rs o tt Hval Hrs Hobs) as [Hok Hall].
    destruct (encode_trusted codec (candidate o)) as [bytes|e|] eqn:Henc; cbn [map_err]; run_st; [|done..].
    rewrite st_bind. unfold on_snd, on_fst, on_field, map_err_st. cbn [snd].
    pose proof (received_head_step codec cursors (candidate o) bytes head record store Hok Henc) as Hstep.
    assert (range_receives codec spec rs head objects (OpReceive bytes head)) as Hop.
    { exists bytes, (candidate o). split; [done|]. split; [done|]. split; [done|]. right. eauto 10. }
    destruct (commit_received cursors bytes head (record, store)) as [p' [[]|e|]]; destruct Hstep as (-> & Hout & Hres);
      cbn [map_err fst]; (split; [first [apply Hres|by eapply live_same; [rewrite Hres|]]|]);
      (split; [done|]); (split; [eexists; split; [done|right; by eauto]|]); [|done..].
    split; [done|]. split; [done|]. split; [done|]. split; [apply Hres|]. by exists combined.
Qed.

(** The reception of a range when every step succeeds. *)
Lemma recovery_changed_Ok codec cursors spec rs record store head objects projections combined o bytes cursor store' :
  objects ≠ [] →
  decode_complete_scalar_projections (TE := TransportError (Tr := Tr)) (TSE := TrustedError (C := TC))
    (SE := StoreError (St := St)) (CE := CursorError (C := CC) (R := Revision))
    (recovery_key spec) (recovery_continuum_id spec) objects = Ok projections →
  try_fold SyncProjection.merge SyncProjection.new projections = Ok combined →
  st_for_each (observe_domain (St := St) (Tr := Tr) (TC := TC) (CC := CC) (pre_observation_revision_ids spec))
    (entries_asc (domains combined)) (Observation_mk rs ∅ ∅) = (o, Ok tt) →
  encode_trusted codec (candidate o) = Ok bytes → encode cursors head = Ok cursor →
  persist (DurableSyncRecord_mk bytes (Some cursor) (outbox record)) store = (store', Ok tt) →
  recovery_changed (Tr := Tr) codec cursors spec head objects (rs, (record, store)) =
  ((candidate o, (DurableSyncRecord_mk bytes (Some cursor) (outbox record), store')),
   Ok (RecoveryApplied head (length objects) (observed_ids o) (sealed_revisions o))).
Proof.
  intros Hne Hdec Hcomb Hobs Henc Hcur Hp. unfold recovery_changed. rewrite decide_False by done. run_st.
  rewrite Hdec. run_st. rewrite Hcomb. cbn [map_err]. run_st. cbn [fst]. rewrite Hobs. run_st. rewrite Henc.
  cbn [map_err]. run_st. rewrite st_bind. unfold on_snd, on_fst, on_field, map_err_st. cbn [fst snd].
  rewrite commit_received_transition, run_transition_cases, Hcur. cbn [map_err mbind result_bind].
  unfold DurableSyncRecord.apply_received. by rewrite Hp.
Qed.

(** A pass, whatever the transport answers. *)
Lemma recovery_catch_up_step codec cursors spec rs record store tr :
  recovery_live codec rs record →
  let '(((rs', p'), tr'), res) := catch_up_scalar_recovery_state codec cursors spec ((rs, (record, store)), tr) in
  let '(tr1, fetched) := fetch_from_durable_cursor record cursors tr in
  tr' = tr1 ∧ recovery_live codec rs' p'.1 ∧ outbox p'.1 = outbox record ∧
  (∃ ops, p' = run_ops cursors ops (record, store) ∧
    (ops = [] ∨ ∃ op head objects, ops = [op] ∧ fetched = Ok (Changed head objects) ∧
      range_receives codec spec rs head objects op)) ∧
  match res with
  | Ok (RecoveryUpToDate h) => fetched = Ok (UpToDate h) ∧ rs' = rs ∧ p' = (record, store)
  | Ok (RecoveryBaselineUnavailable h) => fetched = Ok (BaselineUnavailable h) ∧ rs' = rs ∧ p' = (record, store)
  | Ok answer => ∃ head objects, fetched = Ok (Changed head objects) ∧
      range_answer cursors spec rs rs' head objects p'.1 answer
  | _ => rs' = rs ∧ p'.1 = record
  end.
Proof.
  intros Hlive. unfold catch_up_scalar_recovery_state. run_st. rewrite st_bind.
  unfold on_snd, on_fst, on_field, map_err_st. cbn [fst snd].
  assert (∀ fetched : result (SessionIoError TransportError CursorError) _, ∃ ops, (record, store) = run_ops cursors ops (record, store) ∧
    (ops = [] ∨ ∃ op head objects, ops = [op] ∧ fetched = Ok (Changed head objects) ∧
      range_receives codec spec rs head objects op)) as Hnone.
  { intros fetched. exists []. split; [done|by left]. }
  destruct (fetch_from_durable_cursor record cursors tr) as [tr1 [fetched|e|]]; cbn [map_err]; [|by split_and!..].
  destruct fetched as [h|h objects|h]; cbn [fst snd]; [by rewrite st_ret; split_and!| |by rewrite st_ret; split_and!].
  pose proof (recovery_changed_step codec cursors spec rs record store h objects Hlive) as Hstep.
  destruct (recovery_changed codec cursors spec h objects (rs, (record, store))) as [[rs' p'] res].
  destruct Hstep as (Hlive' & Hout & (ops & Hrun & Hops) & Hres).
  split; [done|]. split; [done|]. split; [done|]. split.
  { exists ops. split; [done|]. destruct Hops as [|(op & -> & Hop)]; [by left|right]. eauto 10. }
  destruct res as [[h'|h' n ids sealed|h'|h']|e|]; [done| | |done..]; by exists h, objects.
Qed.

(** ** The contract with the settling pass *)
Definition pass_receives_range codec cursors spec rs record tr (op : session_op Revision) : Prop :=
  ∃ head objects, (fetch_from_durable_cursor record cursors tr).2 = Ok (Changed head objects) ∧
    range_receives codec spec rs head objects op.

(** [ids] are, per domain, the revisions of the range this pass fetched. *)
Definition range_evidence cursors spec record tr (head : Revision) (ids : gmap DomainKey (gset RevisionId)) : Prop :=
  ∃ objects combined, (fetch_from_durable_cursor record cursors tr).2 = Ok (Changed head objects) ∧
    range_of spec objects combined ∧ ∀ k, ids !! k = (λ remote, dom (revisions remote)) <$> domains combined !! k.

Lemma observed_range_ids pre combined rs rs' ids sealed :
  observed_range pre combined rs rs' ids sealed → ∀ k, ids !! k = (λ remote, dom (revisions remote)) <$> domains combined !! k.
Proof. intros Hall k. specialize (Hall k). destruct (domains combined !! k); cbn; [apply Hall|apply Hall]. Qed.

Lemma pass_receives_range_retires codec cursors spec rs record tr op pid :
  pass_receives_range codec cursors spec rs record tr op → only_retires op ∧ ¬ op_retires op pid.
Proof. intros (head & objects & _ & bytes & candidate & -> & _). by split; [|intros []]. Qed.

Lemma pass_receives_range_only codec cursors spec rs record tr op :
  pass_receives_range codec cursors spec rs record tr op → only_retires op.
Proof. by intros (head & objects & _ & bytes & candidate & -> & _). Qed.

Lemma recovery_catch_up_within codec cursors spec :
  within 1 0 (catch_up_scalar_recovery_state (St := St) codec cursors spec).
Proof.
  unfold catch_up_scalar_recovery_state. apply within_get. intros s.
  refine (within_bind 1 0 0 0 _ _ _ _ s).
  - apply within_snd. intros tr. unfold map_err_st.
    pose proof (fetch_calls s.1.2.1 cursors tr) as Hf. by destruct (fetch_from_durable_cursor _ _ tr).
  - intros [h|h objects|h]; [apply within_ret|apply within_fst|apply within_ret].
Qed.
End pass.
