(* ===== verification/ResumeRecoveryLaws.v ===== *)
(** * What resuming a container does

    The instances of [ResumeSetLaws] for several domains: the catch-up keeps the
    contract, and a stale publication is proven observed when its objects are one
    authentic publication whose revisions are observed in every domain.  Then the
    gate of the foreground runtime (crates/apc-runtime/src/resume_recovery_batch.rs,
    resume_recovery_cycle.rs, foreground_recovery.rs). *)
From Stdlib Require Import Lia NArith Strings.Byte.
From stdpp Require Import base tactics option list gmap numbers.
From S2P Require Import Prelude Outcome BTree Bytes Id Error Worklist Scalar Causal Merge ScalarMerge.
From S2P Require Import Working Finalization Domain Reader RegisterCodec Projection Codec Crypto Protected.
From S2P Require Import Wire Recovery Transport Session Batch TrustedState TrustedStateSet Catchup CatchupSet.
From S2P Require Import ResumeSet ResumeRecovery ForegroundRecovery SessionRuns RuntimeLaws CatchupLaws.
From S2P Require Import ResumeSetLaws RecoveryLaws CatchupSetLaws.

(** ** Evidence *)
Section evidence.
Context `{Aead}.
Implicit Types (spec : ScalarRecoveryResumeSpec) (ids : gmap DomainKey (gset RevisionId)).
Implicit Types (self : PendingAssembly) (key : ContentKey) (c : ContinuumId).

Definition pending_valid self : Prop :=
  inbox_valid (pending_inbox self) ∧ ∀ p, pending_completed self = Some p → projection_valid p.

Lemma assemble_pending_valid key c pid encoded self :
  pending_valid self → outcome (assemble_pending key c pid encoded) self (λ self' _, pending_valid self') (λ _, True).
Proof.
  intros [Hinbox Hp]. unfold assemble_pending. apply outcome_get.
  destruct (decide (encoded ∈ pending_seen self)); [by apply outcome_ret|].
  unfold outcome. run_st. destruct (decode_protected_sync_part encoded) as [part|e|]; [|done..].
  cbn [map_err]. run_st. case_decide; [done|]. rewrite st_bind. unfold on_field, map_err_st. cbn [pending_inbox].
  pose proof (ingest_valid key c part (pending_inbox self) Hinbox) as Hingest.
  destruct (MultipartInbox.ingest key c part (pending_inbox self)) as [inbox' [[projection|]|e|]]; cbn [map_err];
    [| |done..]; destruct Hingest as [Hinbox1 Hproj]; run_st; [|by split].
  destruct (pending_completed self); run_st; [done|]. split; [done|]. by intros p [= <-].
Qed.

Lemma decode_pending_valid key c pid l p :
  decode_pending_recovery_publication key c pid l = Ok p → projection_valid p.
Proof.
  unfold decode_pending_recovery_publication. destruct (decide (l = [])) as [|Hne]; [done|]. clear Hne.
  assert (pending_valid (PendingAssembly_mk MultipartInbox.new None ∅)) as Hstart by (split; [apply new_inbox_valid|done]).
  revert Hstart. generalize (PendingAssembly_mk MultipartInbox.new None ∅). intros self Hself.
  assert (outcome (st_for_each (assemble_pending key c pid) l) self (λ self' _, pending_valid self') (λ _, True)) as Hall.
  { revert self Hself. induction l as [|encoded l IH]; intros self Hself; cbn [st_for_each]; [by apply outcome_ret|].
    apply outcome_bind. eapply outcome_mono; [by apply assemble_pending_valid| |done]. intros self1 u ?. by apply IH. }
  unfold outcome in Hall. destruct (st_for_each _ l self) as [self' [[]|e|]]; [|done..]. cbn [mbind result_bind].
  case_decide; [done|]. rewrite ok_or_Ok. by apply Hall.
Qed.

(** The entry is one complete authentic publication under its own identity, and
    every revision it carries, in every domain, is among [ids]. *)
Definition recovered_publication spec ids (pid : PublicationId) (e : DurableOutboxEntry) : Prop :=
  ∃ pending, decode_pending_recovery_publication (resume_key spec) (resume_continuum_id spec) pid (objects e) = Ok pending ∧
    ∀ k r, domains pending !! k = Some r → ∃ seen, ids !! k = Some seen ∧ dom (revisions r) ⊆ seen.

Lemma projection_is_observed_spec p ids :
  projection_valid p →
  projection_is_observed p ids = true ↔
  ∀ k r, domains p !! k = Some r → ∃ seen, ids !! k = Some seen ∧ dom (revisions r) ⊆ seen.
Proof.
  intros Hp. unfold projection_is_observed. rewrite forallb_forall.
  assert (∀ k r, domains p !! k = Some r → ∀ seen : gset RevisionId,
    forallb (λ revision, bool_decide (sr_id revision ∈ seen)) (ScalarRegister.revisions_iter r) = true ↔
    dom (revisions r) ⊆ seen) as Hone.
  { intros k r [_ [Hk _]]%Hp seen. rewrite <-(register_revision_ids_dom r Hk). unfold register_revision_ids.
    rewrite forallb_forall. split.
    - intros Hall x (rev & -> & Hin)%elem_of_list_to_set%list_elem_of_fmap.
      by apply (bool_decide_eq_true_1 _), Hall, list_elem_of_In.
    - intros Hsub rev Hin%list_elem_of_In. apply bool_decide_eq_true_2, Hsub, elem_of_list_to_set, list_elem_of_fmap.
      by exists rev. }
  split.
  - intros Hall k r Hr. assert (In (k, r) (entries_asc (domains p))) as Hin by by apply list_elem_of_In, elem_of_entries_asc.
    specialize (Hall _ Hin). cbn in Hall. destruct (ids !! k) as [seen|]; [|done]. exists seen. split; [done|].
    by eapply Hone.
  - intros Hall [k r] Hr%list_elem_of_In%elem_of_entries_asc. cbn. destruct (Hall k r Hr) as (seen & -> & Hsub).
    by eapply Hone.
Qed.

#[export] Instance prove_recovered_proves {St Tr TC CC} `{SyncRecordStore St} `{OpaqueTransport Tr}
    `{!TrustedStateCodec TC LocalScalarRecoveryState} `{!TransportCursorCodec CC Revision} spec :
  ProvesObserved (prove_recovered (St := St) (Tr := Tr) (TC := TC) (CC := CC) spec) (recovered_publication spec).
Proof.
  intros record ids acc acc' pid. unfold prove_recovered. intros (entry & Hentry%expect_Ok & Hstep)%bind_Ok x.
  apply bind_Ok in Hstep as (pending & Hp%map_err_Ok & Hstep).
  pose proof (projection_is_observed_spec pending ids (decode_pending_valid _ _ _ _ _ Hp)) as Hobs.
  assert (proven_pending (recovered_publication spec) record ids pid ↔ projection_is_observed pending ids = true) as ->.
  { rewrite Hobs. split; [|intros Hall; exists entry; split; [done|]; by exists pending].
    intros (e & He & pending' & Hp' & Hall). assert (e = entry) as -> by congruence.
    rewrite Hp in Hp'. by apply (inj Ok) in Hp' as <-. }
  destruct (projection_is_observed pending ids); apply (inj Ok) in Hstep as <-; [|naive_solver].
  rewrite elem_of_union, elem_of_singleton. naive_solver.
Qed.
End evidence.

(** ** The pass *)
Section pass.
Context `{Aead} {St Tr TC CC : Type} `{SyncRecordStore St} `{OpaqueTransport Tr}
  `{!TrustedStateCodec TC LocalScalarRecoveryState} `{!RecoveryStateLaws TC}
  `{!TransportCursorCodec CC Revision}.
Implicit Types (codec : TC) (cursors : CC) (spec : ScalarRecoveryResumeSpec) (rs : LocalScalarRecoveryState).
Implicit Types (record : DurableSyncRecord) (store : St) (tr : Tr).

(** Why a pass may make an operation durable. *)
Definition recovery_justified codec cursors spec rs record tr : session_op Revision → Prop :=
  pass_justified (proof := recovered_publication spec) cursors
    (pass_receives_range (St := St) codec cursors (catch_up_spec_of spec) rs record tr)
    (range_evidence (St := St) (TC := TC) cursors (catch_up_spec_of spec) record tr)
    (recoverable codec) record (fetch_from_durable_cursor record cursors tr).1.

Lemma recovery_justified_only_retires codec cursors spec rs record tr op :
  recovery_justified codec cursors spec rs record tr op → only_retires op.
Proof. intros [op' Hop|ids st head v _ _ _|ids st head _ _]; [by eapply pass_receives_range_only|done..]. Qed.

Lemma recovery_justified_recoverable codec cursors spec rs record tr op :
  recovery_justified codec cursors spec rs record tr op → recoverable codec (op_state op).
Proof.
  intros [op' (head & objects & _ & bytes & candidate & -> & Henc & Hok & _)|ids st head v _ _ Hst|ids st head _ Hst];
    [|exact Hst..].
  exists candidate. by apply recovery_live_encoded.
Qed.

(** A retired publication was acknowledged, or its revisions were received. *)
Lemma recovery_justified_retires codec cursors spec rs record tr op pid :
  recovery_justified codec cursors spec rs record tr op → op_retires op pid →
  (∃ ids head, pid ∈ ids ∧ acknowledged cursors record ids (fetch_from_durable_cursor record cursors tr).1 head) ∨
  (∃ head ids, range_evidence (St := St) (TC := TC) cursors (catch_up_spec_of spec) record tr head ids ∧
    proven_pending (recovered_publication spec) record ids pid).
Proof.
  intros Hj Hr. by apply pass_justified_retires with (pid := pid) in Hj;
    [|by intros op' Hop; eapply pass_receives_range_retires|].
Qed.

(** What a report says of the record it leaves. *)
Definition recovery_report_holds cursors spec (report : ScalarRecoveryResumeReport Revision) record : Prop :=
  report_settled (proof := recovered_publication spec) cursors report record.

Lemma recovery_catch_up_contract codec cursors (spec : ScalarRecoveryCatchUpSpec) rs record tr :
  recovery_live codec rs record →
  catch_up_contract (St := St) cursors (recovery_live codec) (catch_up_scalar_recovery_state codec cursors spec) rs record tr
    (pass_receives_range (St := St) codec cursors spec rs record tr)
    (range_evidence (St := St) (TC := TC) cursors spec record tr).
Proof.
  intros Hlive store. pose proof (recovery_catch_up_step codec cursors spec rs record store tr Hlive) as Hstep.
  destruct (catch_up_scalar_recovery_state codec cursors spec _) as [[[rs' p'] tr'] res].
  unfold pass_receives_range, range_evidence.
  destruct (fetch_from_durable_cursor record cursors tr) as [tr1 fetched].
  destruct Hstep as (-> & Hlive' & Hout & (ops & Hrun & Hops) & Hres). cbn [fst snd].
  split; [done|]. split; [done|]. split; [done|]. split.
  - exists ops. split; [done|]. intros op Hop.
    destruct Hops as [->|(op1 & head & objects & -> & Hf & Hr)]; [by apply not_elem_of_nil in Hop|].
    apply list_elem_of_singleton in Hop as ->. by exists head, objects.
  - destruct res as [[h|h n ids sealed|h|h]|e|]; [done| |done..]. intros head v [= <- <-].
    destruct Hres as (head & objects & Hf & -> & _ & _ & Hcur & combined & Hrange & Hobs). split; [done|].
    exists objects, combined. split; [done|]. split; [done|]. by eapply observed_range_ids.
Qed.

(** A pass, whatever the transport and the store answer. *)
Lemma recovery_resume_step codec cursors spec rs record store tr :
  recovery_live codec rs record →
  let '(((rs', p'), tr'), res) := resume_scalar_recovery_outbox_set codec cursors spec ((rs, (record, store)), tr) in
  recovery_live codec rs' p'.1 ∧
  (∃ ops, p' = run_ops cursors ops (record, store) ∧
    ∀ op, op ∈ ops → recovery_justified codec cursors spec rs record tr op) ∧
  match res with
  | Ok report => recovery_report_holds cursors spec report p'.1
  | _ => True
  end.
Proof.
  intros Hlive. apply (resume_pass_step (prove := prove_recovered spec) cursors _ rs record store tr
    (live := recovery_live codec) (good := recoverable codec)). by apply recovery_catch_up_contract.
Qed.

(** No entry is added or changed. *)
Lemma recovery_resume_keeps codec cursors spec rs record store tr :
  recovery_live codec rs record →
  let '(((rs', (record', store')), tr'), res) :=
    resume_scalar_recovery_outbox_set codec cursors spec ((rs, (record, store)), tr) in
  recovery_live codec rs' record' ∧ outbox record' ⊆ outbox record ∧
  match res with
  | Ok report => recovery_report_holds cursors spec report record'
  | _ => True
  end.
Proof.
  intros Hlive. pose proof (recovery_resume_step codec cursors spec rs record store tr Hlive) as Hstep.
  destruct (resume_scalar_recovery_outbox_set codec cursors spec _) as [[[rs' [record' store']] tr'] res].
  destruct Hstep as (Hlive' & (ops & Hrun & Hops) & Hres). split; [done|]. split; [|done].
  change record' with (record', store').1. rewrite Hrun. eapply pass_ops_keep; [|exact Hops].
  intros op Hop. by eapply pass_receives_range_only.
Qed.
End pass.

(** * Progress of the settling pass

    With nothing new to fetch, every entry staged against the durable cursor, a
    transport that accepts and a store that acknowledges, a pass empties the
    outbox. *)

(** ** Publishing a known batch *)
Section batch.
Context {Tr CC : Type} `{OpaqueTransport Tr} `{!TransportCursorCodec CC Revision}.
Implicit Types (record : DurableSyncRecord) (ids : gset PublicationId) (tr : Tr).

Lemma batch_entries_unique record cur cur' l entries entries' :
  l ≠ [] → batch_entries record cur l entries → batch_entries record cur' l entries' → cur' = cur ∧ entries' = entries.
Proof.
  intros Hl He He'. split.
  - destruct He as [|pid e l es [Hpid <-] _]; [done|]. by apply Forall2_cons_inv_l in He' as (e' & ? & [? <-] & _); simplify_eq.
  - clear Hl. revert entries' He'. induction He as [|pid e l es [Hpid _] _ IH]; intros entries' He'.
    + by apply Forall2_nil_inv_l in He'.
    + apply Forall2_cons_inv_l in He' as (e' & es' & [Hpid' _] & Hes & ->). f_equal; [congruence|by apply IH].
Qed.

Lemma publish_entries record ids (cursors : CC) cur entries tr :
  ids ≠ ∅ → batch_entries record cur (elements_asc ids) entries →
  publish_staged_batch record (elements_asc ids) cursors tr =
  (expected ← lift_result (map_err PublishCursor (transpose (decode cursors <$> cur)));
   map_err_st PublishTransport (publish expected (mjoin (objects <$> entries)))) tr.
Proof.
  intros Hne He. pose proof (publish_batch_cases record (elements_asc ids) cursors tr) as Hcases.
  rewrite list_to_set_elements_asc in Hcases. destruct Hcases as [(cur' & entries' & _ & He' & Hp)|([|Hno] & _)]; [|done|].
  - apply (batch_entries_unique record cur cur' _ entries entries') in He' as [-> ->]; [done| |done].
    by intros ?%elements_asc_empty.
  - destruct Hno. by exists cur, entries.
Qed.
End batch.

(** ** A settled pass *)
Section progress.
Context {D O V U P St Tr CC : Type} `{SyncRecordStore St} `{OpaqueTransport Tr}
  `{!TransportCursorCodec CC Revision} `{!CatchUpOutcome O Revision V}.
Context (prove : DurableSyncRecord → V → gset PublicationId → PublicationId →
  result (ResumeError U P TransportError StoreError CursorError) (gset PublicationId)).
Implicit Types (cursors : CC) (d : D) (catch_up : O) (record : DurableSyncRecord) (store : St) (tr : Tr).

Lemma commit_batch_persisted cursors (ids : gset PublicationId) st head cursor record store store' :
  ids ≠ ∅ → ids ⊆ dom (outbox record) → encode cursors head = Ok cursor →
  persist (DurableSyncRecord_mk st (Some cursor) (outbox_without ids (outbox record))) store = (store', Ok tt) →
  commit_reconciled_outbox_batch cursors (elements_asc ids) st head (record, store) =
  ((DurableSyncRecord_mk st (Some cursor) (outbox_without ids (outbox record)), store'), Ok tt).
Proof.
  intros Hne Hsub Henc Hp. rewrite commit_batch_transition, run_transition_cases, list_to_set_elements_asc.
  unfold retired_batch. rewrite decide_False, Henc by done. cbn [map_err mbind result_bind].
  by rewrite decide_True, Hp by done.
Qed.

Lemma outbox_without_all (m : gmap PublicationId DurableOutboxEntry) : outbox_without (dom m) m = ∅.
Proof. apply dom_empty_inv_L. rewrite outbox_without_dom. apply difference_diag_L. Qed.

Lemma batch_entries_staged record cur (ids : gset PublicationId) entries :
  batch_entries record cur (elements_asc ids) entries → ∀ pid, pid ∈ ids → staged_at record cur pid.
Proof.
  intros He pid Hpid%elem_of_elements_asc%list_elem_of_lookup. destruct Hpid as [i Hi].
  destruct (Forall2_lookup_l _ _ _ _ _ He Hi) as (e & _ & He'). by exists e.
Qed.

(** How the entries are sorted when all are current, or none is. *)
Lemma classify_current {E} record (entries : list DurableOutboxEntry) :
  batch_entries record (applied_cursor record) (elements_asc (dom (outbox record))) entries →
  try_fold (classify_pending (E := E) record (applied_cursor record)) (∅, ∅) (elements_asc (dom (outbox record))) =
  Ok (dom (outbox record), ∅).
Proof.
  intros He. destruct (classify_outbox (E := E) record) as (current & stale & -> & Hc & Hs).
  pose proof (batch_entries_staged record _ _ _ He) as Hstaged. do 2 f_equal; apply set_eq; intros pid.
  - rewrite Hc. split; [|by apply Hstaged]. intros (e & He' & _). apply elem_of_dom. by exists e.
  - rewrite Hs. split; [|by intros ?%not_elem_of_empty]. intros [Hpid []]. by apply Hstaged.
Qed.

Lemma classify_stale {E} record :
  (∀ pid, ¬ staged_at record (applied_cursor record) pid) →
  try_fold (classify_pending (E := E) record (applied_cursor record)) (∅, ∅) (elements_asc (dom (outbox record))) =
  Ok (∅, dom (outbox record)).
Proof.
  intros Hno. destruct (classify_outbox (E := E) record) as (current & stale & -> & Hc & Hs).
  do 2 f_equal; apply set_eq; intros pid; [rewrite Hc|rewrite Hs]; set_solver.
Qed.

(** What the pass does when it sends the whole outbox. *)
Lemma resume_pass_sending cursors (catch_up_pass : stateful ((D * (DurableSyncRecord * St)) * Tr) U O)
    d record store tr catch_up tr1 known entries :
  catch_up_pass ((d, (record, store)), tr) = (((d, (record, store)), tr1), Ok catch_up) →
  baseline_unavailable catch_up = false → outbox record ≠ ∅ →
  batch_entries record (applied_cursor record) (elements_asc (dom (outbox record))) entries →
  transpose (decode cursors <$> applied_cursor record) = Ok known →
  resume_pass prove cursors catch_up_pass ((d, (record, store)), tr) =
  (published ← on_snd (map_err_st BatchPublish (map_err_st PublishTransport (publish known (mjoin (objects <$> entries)))));
   match published with
   | Published head =>
       _ ← on_fst (reconcile_set cursors (dom (outbox record)) head);
       mret (ResumeReport_mk catch_up ∅ (BatchPublishedAndReconciled (dom (outbox record)) head))
   | Conflict current_head => mret (ResumeReport_mk catch_up ∅ (BatchConflict (dom (outbox record)) current_head))
   end) ((d, (record, store)), tr1).
Proof.
  intros Hcatch Hbase Hout He Hknown. assert (dom (outbox record) ≠ ∅) as Hdom by by intros ?%dom_empty_inv_L.
  unfold resume_pass. run_st. rewrite st_bind. unfold map_err_st at 1. rewrite Hcatch. cbn [map_err fst snd].
  rewrite Hbase, decide_False by done. unfold settle_outbox. run_st. cbn [fst snd].
  rewrite (classify_current record entries He). run_st.
  rewrite decide_True by done. unfold publish_current. rewrite decide_False by done. run_st.
  rewrite !st_bind. unfold on_snd, on_field. cbn [fst snd]. unfold map_err_st at 1.
  rewrite (publish_entries _ _ _ _ _ _ Hdom He), Hknown. cbn [map_err]. run_st. unfold map_err_st.
  by destruct (publish known _ tr1) as [tr2 [[h|h]|e|]].
Qed.

(** The outcome of a pass under these conditions. *)
Lemma resume_pass_publishes cursors (catch_up_pass : stateful ((D * (DurableSyncRecord * St)) * Tr) U O)
    d record store tr catch_up tr1 known entries tr2 head cursor store' :
  catch_up_pass ((d, (record, store)), tr) = (((d, (record, store)), tr1), Ok catch_up) →
  baseline_unavailable catch_up = false → outbox record ≠ ∅ →
  batch_entries record (applied_cursor record) (elements_asc (dom (outbox record))) entries →
  transpose (decode cursors <$> applied_cursor record) = Ok known →
  publish known (mjoin (objects <$> entries)) tr1 = (tr2, Ok (Published head)) →
  encode cursors head = Ok cursor →
  persist (DurableSyncRecord_mk (trusted_state record) (Some cursor) ∅) store = (store', Ok tt) →
  resume_pass prove cursors catch_up_pass ((d, (record, store)), tr) =
  (((d, (DurableSyncRecord_mk (trusted_state record) (Some cursor) ∅, store')), tr2),
   Ok (ResumeReport_mk catch_up ∅ (BatchPublishedAndReconciled (dom (outbox record)) head))).
Proof.
  intros Hcatch Hbase Hout He Hknown Hpub Henc Hpersist.
  assert (dom (outbox record) ≠ ∅) as Hdom by by intros ?%dom_empty_inv_L.
  rewrite (resume_pass_sending cursors _ d record store tr catch_up tr1 known entries) by done.
  rewrite st_bind. unfold on_snd, on_fst, on_field. cbn [fst snd]. unfold map_err_st at 1 2. rewrite Hpub.
  cbn [map_err]. rewrite st_bind. unfold on_field. cbn [fst snd]. unfold reconcile_set. run_st.
  unfold on_snd, on_field, map_err_st. cbn [fst snd].
  rewrite (commit_batch_persisted cursors _ _ _ cursor _ _ store' Hdom (reflexivity _) Henc)
    by by rewrite outbox_without_all.
  by rewrite outbox_without_all.
Qed.

(** A publication that fails leaves the session as it was. *)
Lemma resume_pass_unpublished cursors (catch_up_pass : stateful ((D * (DurableSyncRecord * St)) * Tr) U O)
    d record store tr catch_up tr1 known entries tr2 r :
  catch_up_pass ((d, (record, store)), tr) = (((d, (record, store)), tr1), Ok catch_up) →
  baseline_unavailable catch_up = false → outbox record ≠ ∅ →
  batch_entries record (applied_cursor record) (elements_asc (dom (outbox record))) entries →
  transpose (decode cursors <$> applied_cursor record) = Ok known →
  publish known (mjoin (objects <$> entries)) tr1 = (tr2, r) → ¬ is_ok r →
  ∃ r', resume_pass prove cursors catch_up_pass ((d, (record, store)), tr) = (((d, (record, store)), tr2), r') ∧ ¬ is_ok r'.
Proof.
  intros Hcatch Hbase Hout He Hknown Hpub Hr.
  rewrite (resume_pass_sending cursors _ d record store tr catch_up tr1 known entries) by done.
  rewrite st_bind. unfold on_snd, on_field. cbn [fst snd]. unfold map_err_st. rewrite Hpub.
  destruct r as [a|e|]; [by destruct Hr; exists a|..]; cbn [map_err]; eexists; (split; [reflexivity|by intros []]).
Qed.

(** So does a catch-up that fails before its commit. *)
Lemma resume_pass_unfetched cursors (catch_up_pass : stateful ((D * (DurableSyncRecord * St)) * Tr) U O) s tr s' tr1 r :
  catch_up_pass (s, tr) = ((s', tr1), r) → ¬ is_ok r →
  ∃ r', resume_pass prove cursors catch_up_pass (s, tr) = ((s', tr1), r') ∧ ¬ is_ok r'.
Proof.
  intros Hcatch Hr. unfold resume_pass. run_st. rewrite st_bind. unfold map_err_st at 1. rewrite Hcatch.
  destruct r as [a|e|]; [by destruct Hr; exists a|..]; cbn [map_err]; eexists; (split; [reflexivity|by intros []]).
Qed.

(** A pass that has received a range which proves every entry. *)
Lemma resume_pass_settles cursors (catch_up_pass : stateful ((D * (DurableSyncRecord * St)) * Tr) U O)
    d record store tr d' record' store' tr' catch_up head v cursor store'' :
  catch_up_pass ((d, (record, store)), tr) = (((d', (record', store')), tr'), Ok catch_up) →
  baseline_unavailable catch_up = false → applied_range catch_up = Some (head, v) →
  outbox record ≠ ∅ → outbox record' = outbox record → (∀ pid, ¬ staged_at record' (applied_cursor record') pid) →
  try_fold (prove record' v) ∅ (elements_asc (dom (outbox record'))) = Ok (dom (outbox record')) →
  encode cursors head = Ok cursor →
  persist (DurableSyncRecord_mk (trusted_state record') (Some cursor) ∅) store' = (store'', Ok tt) →
  resume_pass prove cursors catch_up_pass ((d, (record, store)), tr) =
  (((d', (DurableSyncRecord_mk (trusted_state record') (Some cursor) ∅, store'')), tr'),
   Ok (ResumeReport_mk catch_up (dom (outbox record')) BatchNone)).
Proof.
  intros Hcatch Hbase Hrange Hout Hsame Hstale Hprove Henc Hpersist.
  assert (dom (outbox record') ≠ ∅) as Hdom by (rewrite Hsame; by intros ?%dom_empty_inv_L).
  unfold resume_pass. run_st. rewrite st_bind. unfold map_err_st at 1. rewrite Hcatch. cbn [map_err fst snd].
  rewrite <-Hsame, Hbase, decide_False by done. unfold settle_outbox. run_st. cbn [fst snd].
  rewrite (classify_stale record' Hstale). run_st. rewrite decide_False by done. rewrite st_bind.
  unfold on_fst, on_field. cbn [fst snd]. unfold settle_stale. rewrite Hrange. run_st. cbn [fst snd]. rewrite Hprove. run_st.
  rewrite decide_False by done. rewrite st_bind. unfold reconcile_set. run_st. unfold on_snd, on_field, map_err_st. cbn [fst snd].
  rewrite (commit_batch_persisted cursors _ _ _ cursor _ _ store'' Hdom (reflexivity _) Henc)
    by by rewrite outbox_without_all.
  cbn [map_err]. run_st. rewrite outbox_without_all, difference_diag_L, decide_True by done.
  unfold publish_current. by rewrite decide_True.
Qed.

End progress.

(** ** The foreground runtime *)
Section foreground.
Context `{Aead} {St Tr TC CC : Type} `{SyncRecordStore St} `{OpaqueTransport Tr}
  `{!TrustedStateCodec TC LocalScalarRecoveryState} `{!TransportCursorCodec CC (Revision (Tr := Tr))}.
Implicit Types (codec : TC) (cursors : CC) (record : DurableSyncRecord) (store : St) (g : ForegroundTransport Tr).

(** The calls of a foreground cycle are those of its transport. *)
Lemma foreground_publish expected objs (tr : Tr) :
  publish (Tr := ForegroundTransport Tr) expected objs (ForegroundTransport_mk tr true) =
  let '(tr', r) := publish (Tr := Tr) expected objs tr in (ForegroundTransport_mk tr' true, map_err Inner r).
Proof.
  pose proof (gated_call (publish (Tr := Tr) expected objs) (ForegroundTransport_mk tr true)) as Hg. cbn [inner foreground] in Hg.
  by destruct (publish (Tr := Tr) expected objs tr).
Qed.

Lemma foreground_catch_up codec cursors spec rs record store (tr tr1 : Tr) known fetched :
  transpose (decode cursors <$> applied_cursor record) = Ok known → fetch_since (Tr := Tr) known tr = (tr1, fetched) →
  catch_up_scalar_recovery_state (Tr := ForegroundTransport Tr) codec cursors spec
    ((rs, (record, store)), ForegroundTransport_mk tr true) =
  let s := ((rs, (record, store)), ForegroundTransport_mk tr1 true) in
  match fetched with
  | Ok (UpToDate h) => (s, Ok (RecoveryUpToDate h))
  | Ok (BaselineUnavailable h) => (s, Ok (RecoveryBaselineUnavailable h))
  | Ok (Changed h objs) => on_fst (recovery_changed (Tr := ForegroundTransport Tr) codec cursors spec h objs) s
  | Err e => (s, Err (RecoveryIo (IoTransport (Inner e))))
  | Panic => (s, Panic)
  end.
Proof.
  intros Hknown Hfetch. unfold catch_up_scalar_recovery_state. run_st. rewrite st_bind. unfold on_snd, on_field, map_err_st at 1.
  cbn [fst snd]. unfold fetch_from_durable_cursor, decode_cursor.
  pose proof (Hknown : transpose (decode (R := Revision (Tr := ForegroundTransport Tr)) cursors <$> applied_cursor record)
    = Ok known) as ->. cbn [map_err]. run_st. unfold map_err_st.
  cbn [fetch_since foreground_transport]. unfold ForegroundTransport.guarded_fetch_since. rewrite gated_call.
  cbn [Transport.foreground inner]. rewrite Hfetch. by destruct fetched as [[h|h objs|h]|e|].
Qed.

(** The first fetch of a backgrounded pass is refused. *)
Lemma recovery_backgrounded codec cursors spec (rs : LocalScalarRecoveryState) record store g :
  foreground g = false →
  resume_scalar_recovery_outbox_set (Tr := ForegroundTransport Tr) codec cursors spec ((rs, (record, store)), g) =
  (((rs, (record, store)), g),
   match transpose (decode cursors <$> applied_cursor record) with
   | Ok _ => Err (BatchCatchUp (RecoveryIo (IoTransport Backgrounded)))
   | Err e => Err (BatchCatchUp (RecoveryIo (IoCursor e)))
   | Panic => Panic
   end).
Proof.
  intros Hg. unfold resume_scalar_recovery_outbox_set, resume_pass. run_st. rewrite st_bind. unfold map_err_st at 1.
  unfold catch_up_scalar_recovery_state. run_st. rewrite st_bind. unfold on_snd, on_field. cbn [fst snd].
  unfold map_err_st at 1. unfold fetch_from_durable_cursor. rewrite st_bind. unfold lift_result, decode_cursor.
  destruct (transpose (decode cursors <$> applied_cursor record)) as [known|e|]; [|done..].
  cbn [map_err]. unfold map_err_st. cbn [fetch_since foreground_transport]. unfold ForegroundTransport.guarded_fetch_since.
  by rewrite gated_call, Hg.
Qed.
End foreground.
