(* ===== verification/StagedSends.v ===== *)
(** * What a pass sends

    The calls a pass makes of its transport, with what each of them carries:
    every publication is a set of staged entries, with their exact objects and
    against the one cursor they were staged against
    (crates/apc-runtime/src/resume_recovery_batch.rs, resume_recovery_cycle.rs). *)
From Stdlib Require Import Lia NArith Strings.Byte.
From stdpp Require Import base tactics option list gmap numbers.
From S2P Require Import Prelude Outcome BTree Bytes Id Reader Protected Recovery Transport Session Batch.
From S2P Require Import Scalar Domain Projection Crypto TrustedState TrustedStateSet CatchupSet ResumeSet ResumeRecovery.
From S2P Require Import ForegroundRecovery SessionRuns ResumeSetLaws RecoveryLaws CatchupSetLaws.
From S2P Require Import ResumeRecoveryLaws.

(** ** Calls and what they carry *)
Section sends.
Context {Tr : Type} `{OpaqueTransport Tr}.
Implicit Types (tr : Tr) (P Q : option Revision → list (list byte) → Prop).

(** [tr'] is [tr] after [n] fetches and [m] publications, each of which
    satisfies [P]. *)
Inductive sends P : nat → nat → Tr → Tr → Prop :=
  | sends_none tr : sends P 0 0 tr tr
  | sends_fetch n m known tr tr' : sends P n m (fetch_since known tr).1 tr' → sends P (S n) m tr tr'
  | sends_publish n m expected objs tr tr' :
      P expected objs → sends P n m (publish expected objs tr).1 tr' → sends P n (S m) tr tr'.

(** At most [n] fetches and [m] such publications. *)
Definition sends_within P n m tr tr' : Prop := ∃ n' m', (n' ≤ n)%nat ∧ (m' ≤ m)%nat ∧ sends P n' m' tr tr'.

Lemma sends_trans P n m n' m' tr tr' tr'' :
  sends P n m tr tr' → sends P n' m' tr' tr'' → sends P (n + n') (m + m') tr tr''.
Proof. induction 1; intros; cbn; [done|eapply sends_fetch; eauto|eapply sends_publish; eauto]. Qed.

Lemma sends_mono P Q n m tr tr' :
  (∀ expected objs, P expected objs → Q expected objs) → sends P n m tr tr' → sends Q n m tr tr'.
Proof. intros HPQ. induction 1; [constructor|eapply sends_fetch; eauto|eapply sends_publish; eauto]. Qed.

(** What fetches and such publications keep, the whole sequence keeps. *)
Lemma sends_keep P (I : Tr → Prop) n m tr tr' :
  (∀ known t, I t → I (fetch_since known t).1) →
  (∀ expected objs t, P expected objs → I t → I (publish expected objs t).1) →
  sends P n m tr tr' → I tr → I tr'.
Proof. intros Hf Hp. induction 1; auto. Qed.

Lemma sends_within_trans P n m n' m' tr tr' tr'' :
  sends_within P n m tr tr' → sends_within P n' m' tr' tr'' → sends_within P (n + n') (m + m') tr tr''.
Proof.
  intros (a & b & Ha & Hb & H1) (a' & b' & Ha' & Hb' & H2). exists (a + a')%nat, (b + b')%nat.
  split; [lia|]. split; [lia|]. by eapply sends_trans.
Qed.

Lemma sends_within_mono P Q n m n' m' tr tr' :
  (∀ expected objs, P expected objs → Q expected objs) → (n ≤ n')%nat → (m ≤ m')%nat →
  sends_within P n m tr tr' → sends_within Q n' m' tr tr'.
Proof.
  intros HPQ Hn Hm (a & b & Ha & Hb & Hs). exists a, b. split; [lia|]. split; [lia|]. by eapply sends_mono.
Qed.

Lemma sends_within_refl P n m tr : sends_within P n m tr tr.
Proof. exists 0%nat, 0%nat. split; [lia|]. split; [lia|]. constructor. Qed.

(** A sequence without publications carries nothing. *)
Lemma calls_send P n tr tr' : calls_within n 0 tr tr' → sends_within P n 0 tr tr'.
Proof.
  intros (a & b & Ha & Hb & Hc). exists a, 0%nat. split; [done|]. split; [done|].
  assert (b = 0%nat) as Hz by lia. clear Ha Hb. induction Hc; [constructor|eapply sends_fetch; auto|done].
Qed.
End sends.

(** ** Staged publications *)
Section staged.
Context {Tr CC : Type} `{OpaqueTransport Tr} `{!TransportCursorCodec CC Revision}.

(** [objs] are the objects of some entries of the outbox, all staged against
    the cursor of [expected]. *)
Definition staged_send (cursors : CC) (record : DurableSyncRecord) (expected : option Revision)
    (objs : list (list byte)) : Prop :=
  ∃ cur (ids : gset PublicationId) entries, ids ≠ ∅ ∧ batch_entries record cur (elements_asc ids) entries ∧
    transpose (decode cursors <$> cur) = Ok expected ∧ objs = mjoin (objects <$> entries).

Lemma staged_send_mono cursors record record' expected objs :
  outbox record' ⊆ outbox record → staged_send cursors record' expected objs → staged_send cursors record expected objs.
Proof.
  intros Hsub (cur & ids & entries & Hne & He & Hd & ->). exists cur, ids, entries. split; [done|]. split; [|done].
  eapply list.Forall2_impl; [exact He|]. intros pid e [Hpid Hcur]. split; [by eapply lookup_weaken|done].
Qed.

Lemma publish_batch_sends cursors record (ids : list PublicationId) (tr : Tr) :
  sends_within (staged_send cursors record) 0 1 tr (publish_staged_batch record ids cursors tr).1.
Proof.
  destruct (publish_batch_cases record ids cursors tr) as [(cur & entries & Hne & He & Hpub)|(_ & e & Hpub)]; rewrite Hpub;
    [|apply sends_within_refl].
  rewrite st_lift. destruct (transpose _) as [expected|e|] eqn:Hd; cbn [map_err]; [|apply sends_within_refl..].
  unfold map_err_st. exists 0%nat, 1%nat. split; [done|]. split; [done|].
  apply (sends_publish _ 0 0 expected (mjoin (objects <$> entries))); [by eexists _, _, _|].
  destruct (publish expected _ tr). constructor.
Qed.
End staged.

(** ** A pass *)
Section pass.
Context {D O V U P St Tr CC : Type} `{SyncRecordStore St} `{OpaqueTransport Tr}
  `{!TransportCursorCodec CC Revision} `{!CatchUpOutcome O Revision V}.
Implicit Types (cursors : CC) (catch_up : O) (record : DurableSyncRecord) (store : St) (tr : Tr).

Lemma publish_current_sends cursors catch_up (reconciled current : gset PublicationId) (d : D) record store tr :
  sends_within (staged_send cursors record) 0 1 tr
    (publish_current (U := U) (P := P) cursors catch_up reconciled current ((d, (record, store)), tr)).1.2.
Proof.
  unfold publish_current. destruct (decide (current = ∅)); [apply sends_within_refl|].
  run_st. rewrite st_bind. unfold on_snd, on_field, map_err_st. cbn [fst snd].
  pose proof (publish_batch_sends cursors record (elements_asc current) tr) as Hs.
  destruct (publish_staged_batch _ _ _ tr) as [tr' [[h|h]|e|]]; cbn [map_err fst snd] in *; [|done..].
  rewrite st_bind. unfold on_fst, on_field. cbn [fst snd].
  by destruct (reconcile_set _ _ _ _) as [s' [u|e|]].
Qed.

(** *** No entry is added or changed, whatever the live state *)
Lemma publish_current_shrinks cursors catch_up (reconciled current : gset PublicationId) (d : D) record store tr :
  outbox (publish_current (U := U) (P := P) cursors catch_up reconciled current ((d, (record, store)), tr)).1.1.2.1
    ⊆ outbox record.
Proof.
  pose proof (publish_current_step (U := U) (P := P) cursors catch_up reconciled current d record store tr) as Hstep.
  destruct (publish_current _ _ _ _ _) as [[[d' p'] tr'] res]. destruct Hstep as (_ & _ & (ops & -> & Hops) & _).
  apply run_ops_shrink. intros op Hop. destruct Hops as [->|(head & -> & _)]; [by apply not_elem_of_nil in Hop|].
  by apply list_elem_of_singleton in Hop as ->.
Qed.

Context `{!ProvesObserved (E := ResumeError U P TransportError StoreError CursorError) (V := V) prove proof}.

Lemma settle_stale_shrinks cursors catch_up (stale : gset PublicationId) (d : D) record store :
  outbox (settle_stale (Tr := Tr) prove cursors catch_up stale (d, (record, store))).1.2.1 ⊆ outbox record.
Proof.
  pose proof (settle_stale_step cursors catch_up stale d record store) as Hstep.
  destruct (settle_stale prove cursors catch_up stale _) as [[d' p'] res]. destruct Hstep as (_ & _ & (ops & -> & Hops) & _).
  apply run_ops_shrink. intros op Hop. destruct Hops as [->|(ids & head & v & _ & -> & _)]; [by apply not_elem_of_nil in Hop|].
  by apply list_elem_of_singleton in Hop as ->.
Qed.

Lemma settle_outbox_shrinks cursors catch_up pending (d : D) record store tr :
  outbox (settle_outbox prove cursors catch_up pending ((d, (record, store)), tr)).1.1.2.1 ⊆ outbox record.
Proof.
  unfold settle_outbox. run_st. cbn [fst snd].
  destruct (try_fold _ _ _) as [[current stale]|e|]; [|done..].
  destruct (decide (stale = ∅)); [apply publish_current_shrinks|].
  rewrite st_bind. unfold on_fst, on_field. cbn [fst snd].
  pose proof (settle_stale_shrinks cursors catch_up stale d record store) as Hstep.
  destruct (settle_stale prove cursors catch_up stale (d, (record, store))) as [[d1 [record1 store1]] [[reconciled rest]|e|]];
    cbn [fst snd] in *; [|done..].
  destruct (decide (rest = ∅)); [|done]. etransitivity; [apply publish_current_shrinks|done].
Qed.

Lemma resume_pass_shrinks cursors (catch_up_pass : stateful ((D * (DurableSyncRecord * St)) * Tr) U O) d record store tr :
  outbox (catch_up_pass ((d, (record, store)), tr)).1.1.2.1 = outbox record →
  outbox (resume_pass prove cursors catch_up_pass ((d, (record, store)), tr)).1.1.2.1 ⊆ outbox record.
Proof.
  intros Hout. unfold resume_pass. run_st. rewrite st_bind. unfold map_err_st.
  destruct (catch_up_pass _) as [[[d1 [record1 store1]] tr1] [catch_up|e|]]; cbn [map_err fst snd] in *; [|by rewrite Hout..].
  destruct (baseline_unavailable catch_up); [by rewrite <-Hout|]. destruct (decide _); [by rewrite <-Hout|].
  rewrite <-Hout. apply settle_outbox_shrinks.
Qed.

Lemma settle_outbox_sends cursors catch_up pending (d : D) record store tr :
  sends_within (staged_send cursors record) 0 1 tr
    (settle_outbox prove cursors catch_up pending ((d, (record, store)), tr)).1.2.
Proof.
  unfold settle_outbox. run_st. cbn [fst snd].
  destruct (try_fold _ _ _) as [[current stale]|e|]; [|apply sends_within_refl..].
  destruct (decide (stale = ∅)); [apply publish_current_sends|].
  rewrite st_bind. unfold on_fst, on_field. cbn [fst snd].
  pose proof (settle_stale_shrinks cursors catch_up stale d record store) as Hsub.
  destruct (settle_stale prove cursors catch_up stale (d, (record, store))) as [[d1 [record1 store1]] [[reconciled rest]|e|]];
    [|apply sends_within_refl..].
  cbn [fst snd] in *. destruct (decide (rest = ∅)); [|apply sends_within_refl].
  eapply sends_within_mono; [|done|done|apply publish_current_sends].
  intros expected objs. by apply staged_send_mono.
Qed.

(** Given a catch-up that only fetches and keeps the outbox. *)
Lemma resume_pass_sends cursors (catch_up_pass : stateful ((D * (DurableSyncRecord * St)) * Tr) U O) n d record store tr :
  (let s := (catch_up_pass ((d, (record, store)), tr)).1 in calls_within n 0 tr s.2 ∧ outbox s.1.2.1 = outbox record) →
  sends_within (staged_send cursors record) n 1 tr
    (resume_pass prove cursors catch_up_pass ((d, (record, store)), tr)).1.2.
Proof.
  intros [Hcalls Hout]. unfold resume_pass. run_st. rewrite st_bind. unfold map_err_st.
  pose proof (calls_send (staged_send cursors record) _ _ _ Hcalls) as Hfirst.
  assert (∀ tr', sends_within (staged_send cursors record) n 0 tr tr' → sends_within (staged_send cursors record) n 1 tr tr')
    as Hweak by (intros tr' Hs; eapply sends_within_mono; [..|exact Hs]; [done..|lia]).
  destruct (catch_up_pass _) as [[[d1 [record1 store1]] tr1] [catch_up|e|]]; cbn [map_err fst snd] in *; [|by apply Hweak..].
  destruct (baseline_unavailable catch_up); [by apply Hweak|].
  destruct (decide _); [by apply Hweak|].
  replace n with (n + 0)%nat by lia. change 1%nat with (0 + 1)%nat.
  eapply sends_within_trans; [exact Hfirst|].
  eapply sends_within_mono; [|done|done|apply settle_outbox_sends].
  intros expected objs. apply staged_send_mono. by rewrite Hout.
Qed.
End pass.

(** ** The cycle over a container *)
Section recovery.
Context `{Aead} {St Tr TC CC : Type} `{SyncRecordStore St} `{OpaqueTransport Tr}
  `{!TrustedStateCodec TC LocalScalarRecoveryState} `{!TransportCursorCodec CC Revision}.
Implicit Types (codec : TC) (cursors : CC) (rs : LocalScalarRecoveryState).
Implicit Types (record : DurableSyncRecord) (store : St) (tr : Tr).

Lemma recovery_changed_outbox codec cursors spec head objs rs record store :
  outbox (recovery_changed (Tr := Tr) codec cursors spec head objs (rs, (record, store))).1.2.1 = outbox record.
Proof.
  assert (∀ bytes, outbox (commit_received cursors bytes head (record, store)).1.1 = outbox record) as Hcommit.
  { intros bytes. pose proof (commit_received_step cursors bytes head record store) as Hstep.
    destruct (commit_received _ _ _ _) as [p' [[]|e|]]; destruct Hstep as [_ Hres]; cbn [fst]; [|by rewrite Hres..].
    by destruct Hres as (cursor & _ & ->). }
  unfold recovery_changed. destruct (decide (objs = [])) as [_|_].
  - run_st. cbn [fst snd]. destruct (encode_trusted codec rs) as [bytes|e|]; cbn [map_err]; run_st; [|done..].
    specialize (Hcommit bytes). rewrite st_bind. unfold on_snd, on_field, map_err_st. cbn [fst snd].
    destruct (commit_received _ _ _ _) as [p' [[]|e|]]; exact Hcommit.
  - run_st. destruct (decode_complete_scalar_projections _ _ _) as [projections|e|]; run_st; [|done..].
    destruct (try_fold _ _ _) as [combined|e|]; cbn [map_err]; run_st; [|done..]. cbn [fst snd].
    destruct (st_for_each _ _ _) as [observation [[]|e|]]; cbn [fst snd]; run_st; [|done..].
    destruct (encode_trusted codec _) as [bytes|e|]; cbn [map_err]; run_st; [|done..].
    specialize (Hcommit bytes). rewrite st_bind. unfold on_snd, on_field, map_err_st. cbn [fst snd].
    destruct (commit_received _ _ _ _) as [p' [[]|e|]]; exact Hcommit.
Qed.

(** A catch-up makes at most one fetch and keeps the outbox. *)
Lemma recovery_catch_up_quiet codec cursors (spec : ScalarRecoveryCatchUpSpec) rs record store tr :
  let s := (catch_up_scalar_recovery_state codec cursors spec ((rs, (record, store)), tr)).1 in
  calls_within 1 0 tr s.2 ∧ outbox s.1.2.1 = outbox record.
Proof.
  split; [exact (recovery_catch_up_within codec cursors spec ((rs, (record, store)), tr))|].
  unfold catch_up_scalar_recovery_state. run_st. rewrite st_bind. unfold on_snd, on_field, map_err_st. cbn [fst snd].
  destruct (fetch_from_durable_cursor record cursors tr) as [tr1 [[h|h objs|h]|e|]]; cbn [map_err]; [done| |done..].
  unfold on_fst, on_field. cbn [fst snd]. pose proof (recovery_changed_outbox codec cursors spec h objs rs record store) as Hout.
  by destruct (recovery_changed _ _ _ _ _ _) as [[rs' p'] res].
Qed.

Lemma recovery_resume_sends codec cursors (spec : ScalarRecoveryResumeSpec) rs record store tr :
  let s := (resume_scalar_recovery_outbox_set codec cursors spec ((rs, (record, store)), tr)).1 in
  sends_within (staged_send cursors record) 1 1 tr s.2 ∧ outbox s.1.2.1 ⊆ outbox record.
Proof.
  split.
  - apply (resume_pass_sends (prove := prove_recovered spec)), recovery_catch_up_quiet.
  - apply (resume_pass_shrinks (prove := prove_recovered spec)), recovery_catch_up_quiet.
Qed.

(** At most two fetches and two publications, all of staged entries. *)
Lemma recovery_bounded_sends codec cursors key c pre rs record store tr :
  sends_within (staged_send cursors record) 2 2 tr
    (resume_scalar_recovery_outbox_set_bounded codec cursors key c pre ((rs, (record, store)), tr)).1.2.
Proof.
  unfold resume_scalar_recovery_outbox_set_bounded, resume_bounded. rewrite st_bind.
  set (spec := ScalarRecoveryResumeSpec_mk _ _ _).
  pose proof (recovery_resume_sends codec cursors spec rs record store tr) as [Hfirst Hsub].
  assert (∀ tr', sends_within (staged_send cursors record) 1 1 tr tr' → sends_within (staged_send cursors record) 2 2 tr tr')
    as Hweak by (intros tr' Hs; eapply sends_within_mono; [..|exact Hs]; [done|lia..]).
  destruct (resume_scalar_recovery_outbox_set _ _ _ _) as [[[rs1 [record1 store1]] tr1] [initial|e|]];
    cbn [fst snd] in *; [|by apply Hweak..].
  destruct (batch_action initial) as [| |ids|ids h|ids h]; [by apply Hweak..|].
  change 2%nat with (1 + 1)%nat. eapply sends_within_trans; [exact Hfirst|].
  pose proof (recovery_resume_sends codec cursors spec rs1 record1 store1 tr1) as [Hsecond _].
  rewrite st_bind. destruct (resume_scalar_recovery_outbox_set _ _ _ _) as [[[rs2 [record2 store2]] tr2] [post|e|]];
    cbn [fst snd] in *; (eapply sends_within_mono; [|done|done|exact Hsecond]);
    intros expected objs; by apply staged_send_mono.
Qed.
End recovery.

(** ** Behind the foreground gate *)
Section gate.
Context {Tr : Type} `{OpaqueTransport Tr}.
Implicit Types (g : ForegroundTransport Tr).

(** What reaches the guarded transport. *)
Lemma sends_gated (P : option (Revision (Tr := Tr)) → list (list byte) → Prop) n m g g' :
  sends (Tr := ForegroundTransport Tr) P n m g g' →
  foreground g' = foreground g ∧ if foreground g then sends (Tr := Tr) P n m (inner g) (inner g') else g' = g.
Proof.
  induction 1 as [g|n m known g g' _ IH|n m expected objs g g' HP _ IH]; [by destruct (foreground g); repeat constructor| |].
  all: cbn [fetch_since publish foreground_transport] in IH;
    unfold ForegroundTransport.guarded_fetch_since, ForegroundTransport.guarded_publish in IH;
    rewrite gated_call in IH; destruct (foreground g) eqn:Hf; cbn [fst foreground inner] in IH; [|by rewrite Hf in IH].
  - split; [apply IH|]. by eapply sends_fetch, IH.
  - split; [apply IH|]. by eapply sends_publish, IH.
Qed.

Lemma sends_within_gated (P : option (Revision (Tr := Tr)) → list (list byte) → Prop) n m g g' :
  sends_within (Tr := ForegroundTransport Tr) P n m g g' →
  foreground g' = foreground g ∧ if foreground g then sends_within (Tr := Tr) P n m (inner g) (inner g') else g' = g.
Proof.
  intros (n' & m' & Hn & Hm & Hc%sends_gated). destruct Hc as [Hf Hc]. split; [done|].
  destruct (foreground g); [|done]. by exists n', m'.
Qed.
End gate.
