(* ===== verification/ProbeRemote.v ===== *)
(** * The probe's simulated remote (crates/apc-android-bridge/src/recovery_probe.rs)

    The transport of the on-device recovery probe: one committed state in a
    filesystem backend of its own, with a head, a count of accepted publications
    and the last accepted objects.  It can lose the response of a publication it
    has durably accepted. *)
From Stdlib Require Import Lia NArith Strings.Byte.
From stdpp Require Import base tactics option list gmap numbers.
From S2P Require Import Prelude BTree Bytes Reader Durability Fs FsStorage Recovery Transport Session.
Local Open Scope N_scope.

Definition PROBE_INITIAL_HEAD : N := 1.
Definition PROBE_ACCEPTED_HEAD : N := 2.
Definition REMOTE_MAGIC : list byte := b_ "APCARMT1".

(** ** Cursors *)
Record ProbeCursorCodec : Type := ProbeCursorCodec_mk {}.

Module ProbeCursorCodec.
Implicit Types self : ProbeCursorCodec.

Definition encode self (revision : N) : result (list byte) TransportCursor :=
  map_err (λ _, b_ "encode probe cursor") (TransportCursor.new (be_bytes 8 revision)).

Definition decode self (cursor : TransportCursor) : result (list byte) N :=
  bytes ← ok_or (b_ "decode probe cursor") (try_into_array 8 (cursor_bytes cursor));
  Ok (be_value (array_bytes bytes)).
End ProbeCursorCodec.

(** The errors are texts: [&'static str]. *)
#[export] Instance probe_cursor_codec : TransportCursorCodec ProbeCursorCodec N := {|
  CursorError := list byte;
  encode := ProbeCursorCodec.encode;
  decode := ProbeCursorCodec.decode;
|}.

(** ** State and errors *)
Record ProbeRemoteState : Type := ProbeRemoteState_mk {
  remote_head : N;
  publish_count : N;
  remote_objects : list (list byte);
}.

#[export] Instance ProbeRemoteState_eq_dec : EqDecision ProbeRemoteState.
Proof. solve_decision. Defined.

Module ProbeRemoteState.
Definition default : ProbeRemoteState := ProbeRemoteState_mk PROBE_INITIAL_HEAD 0 [].
End ProbeRemoteState.

Inductive ProbePublishMode : Type :=
  | Normal
  | LoseAcceptedResponse.

#[export] Instance ProbePublishMode_eq_dec : EqDecision ProbePublishMode.
Proof. solve_decision. Defined.

Inductive ProbeTransportError : Type :=
  | Storage (error : FsStorageError)
  | InvalidState (error : list byte)
  | LostAcceptedResponse.

(** ** The codec of the state *)

(** The errors of one checked step: when a length overflows and when the input
    is too short. *)
Definition step_errors (overflow truncated : list byte) : ReadError ProbeTransportError := {|
  length_overflow := InvalidState overflow;
  unexpected_eof := InvalidState truncated;
|}.

(** [u64::try_from(n).map_err(..)?], then the bytes of the count. *)
Definition write_u64 (text : list byte) (n : N) : stateful (list byte) ProbeTransportError unit :=
  count ← lift_result (ok_or (InvalidState text) (u64_try_from n));
  extend (be_bytes 8 count).

Definition write_remote_object (object : list byte) : stateful (list byte) ProbeTransportError unit :=
  _ ← write_u64 (b_ "object length does not fit u64") (len object);
  extend object.

Definition encode_remote_state (state : ProbeRemoteState) : result ProbeTransportError (list byte) :=
  run_writer
    (_ ← extend REMOTE_MAGIC;
     _ ← extend (be_bytes 8 (remote_head state));
     _ ← extend (be_bytes 8 (publish_count state));
     _ ← write_u64 (b_ "object count does not fit u64") (len (remote_objects state));
     write_each write_remote_object (remote_objects state)).

(** [bytes] and [offset] are the reader. *)
Definition read_u64 : stateful Reader ProbeTransportError N :=
  raw ← Reader.read_exact (H := step_errors (b_ "u64 offset overflow") (b_ "truncated u64")) 8;
  bytes ← lift_result (expect (try_into_array 8 raw));
  mret (be_value (array_bytes bytes)).

(** The body of the loop of the decoder. *)
Definition read_remote_object (objects : list (list byte)) :
    stateful Reader ProbeTransportError (list (list byte)) :=
  announced ← read_u64;
  length ← lift_result (ok_or (InvalidState (b_ "object length overflows usize")) (usize_try_from announced));
  object ← Reader.read_exact (H := step_errors (b_ "object offset overflow") (b_ "truncated object")) length;
  if decide (object = []) then throw (InvalidState (b_ "empty remote object"))
  else mret (objects ++ [object]).

Definition decode_remote_fields : stateful Reader ProbeTransportError ProbeRemoteState :=
  head ← read_u64;
  count_published ← read_u64;
  announced ← read_u64;
  count ← lift_result (ok_or (InvalidState (b_ "object count overflows usize")) (usize_try_from announced));
  _ ← lift_result (with_capacity count);
  objects ← repeat_n read_remote_object count [];
  self ← get_state;
  if negb (Reader.is_finished self) then throw (InvalidState (b_ "trailing remote-state bytes"))
  else mret (ProbeRemoteState_mk head count_published objects).

Definition decode_remote_state (bytes : list byte) : result ProbeTransportError ProbeRemoteState :=
  if decide (len bytes < len REMOTE_MAGIC) then Err (InvalidState (b_ "wrong remote-state magic")) else
  magic ← slice bytes 0 (len REMOTE_MAGIC);
  if decide (magic ≠ REMOTE_MAGIC) then Err (InvalidState (b_ "wrong remote-state magic")) else
  (decode_remote_fields (Reader_mk bytes (len REMOTE_MAGIC))).2.

(** ** The transport *)
Record ProbeTransport : Type := ProbeTransport_mk {
  probe_backend : UnixFsDurabilityBackend;
  mode : ProbePublishMode;
}.

Module ProbeTransport.
Implicit Types self : ProbeTransport.

Definition load_state self : result ProbeTransportError ProbeRemoteState :=
  committed ← map_err Storage (UnixFsDurabilityBackend.load_committed (probe_backend self));
  match committed with
  | Some bytes => decode_remote_state bytes
  | None => Ok ProbeRemoteState.default
  end.

Definition with_backend (backend : UnixFsDurabilityBackend) self : ProbeTransport :=
  ProbeTransport_mk backend (mode self).

Definition persist_state (state : ProbeRemoteState) : stateful ProbeTransport ProbeTransportError unit :=
  encoded ← lift_result (encode_remote_state state);
  on_field probe_backend with_backend (map_err_st Storage (commit_durable encoded)).

Definition head : stateful ProbeTransport ProbeTransportError (option N) :=
  self ← get_state;
  state ← lift_result (load_state self);
  mret (Some (remote_head state)).

Definition fetch_since (known_head : option N) : stateful ProbeTransport ProbeTransportError (FetchOutcome N) :=
  self ← get_state;
  state ← lift_result (load_state self);
  mret (if decide (known_head = Some (remote_head state)) then UpToDate (Some (remote_head state))
        else if decide (known_head = Some PROBE_INITIAL_HEAD ∧ remote_head state = PROBE_ACCEPTED_HEAD)
        then Changed (remote_head state) (remote_objects state)
        else BaselineUnavailable (Some (remote_head state))).

(** [publish_count + 1] panics on overflow. *)
Definition publish (expected_head : option N) (objects : list (list byte)) :
    stateful ProbeTransport ProbeTransportError (PublishOutcome N) :=
  if bool_decide (objects = []) || existsb (λ object, bool_decide (object = [])) objects then
    throw (InvalidState (b_ "publish must contain non-empty opaque objects")) else
  self ← get_state;
  current ← lift_result (load_state self);
  if decide (expected_head ≠ Some (remote_head current)) then mret (Conflict (Some (remote_head current))) else
  head ← lift_result (ok_or (InvalidState (b_ "head overflow")) (u64_checked_add (remote_head current) 1));
  count ← lift_result (expect (u64_checked_add (publish_count current) 1));
  _ ← persist_state (ProbeRemoteState_mk head count objects);
  self ← get_state;
  if decide (mode self = LoseAcceptedResponse) then
    _ ← put_state (ProbeTransport_mk (probe_backend self) Normal);
    throw LostAcceptedResponse
  else mret (Published head).
End ProbeTransport.

#[export] Instance probe_transport : OpaqueTransport ProbeTransport := {|
  Revision := N;
  TransportError := ProbeTransportError;
  head := ProbeTransport.head;
  fetch_since := ProbeTransport.fetch_since;
  publish := ProbeTransport.publish;
|}.

(** ** The grammar of the state *)
Definition g_remote : grammar ProbeRemoteState := λ c state,
  VEC_BYTES * len (remote_objects state) ≤ isize_max ∧
  ∃ c1 c2 c3, c = c1 ++ c2 ++ c3 ∧ g_be 8 c1 (remote_head state) ∧ g_be 8 c2 (publish_count state) ∧
    g_counted g_object c3 (remote_objects state).

Section codec.
Context {P : Prop}.

Lemma accepts_read_u64 : accepts_under P read_u64 (g_be 8).
Proof. exact (accepts_read_be (H := step_errors _ _) 8). Qed.

Lemma accepts_announced (text : list byte) :
  accepts_under P (n ← read_u64; lift_result (ok_or (InvalidState text) (usize_try_from n))) g_len.
Proof.
  eapply accepts_ext.
  - apply accepts_bind; [apply accepts_read_u64|]. intros _ n _. apply accepts_lift. by destruct (usize_try_from n).
  - intros c n. unfold g_be, g_len, usize_try_from. change usize_max with u64_max. split.
    + intros (? & ? & m & -> & [_ ->] & -> & Ho%ok_or_Ok). case_decide; simplify_eq. by rewrite app_nil_r.
    + intros [Hn ->]. exists (be_bytes 8 n), [], n. rewrite app_nil_r. split; [done|].
      split; [split; [|done]; unfold u64_max in Hn; cbn; lia|]. split; [done|]. by rewrite decide_True.
Qed.

Lemma accepts_remote_object l :
  accepts_under P (read_remote_object l) (λ c l', ∃ o, g_object c o ∧ Some (l ++ [o]) = Some l').
Proof.
  eapply accepts_eq; [intros r; apply (st_bind_assoc read_u64)|]. eapply accepts_ext.
  - apply accepts_bind; [apply accepts_announced|]. intros _ n _.
    apply (accepts_item _ (g_exact n) _ (λ o, if decide (o = []) then None else Some (l ++ [o])));
      [apply accepts_read_exact|]. intros o. case_decide; eauto.
  - intros c l'. unfold g_object, g_bytes, g_len, g_exact. split.
    + intros (c1 & c2 & n & -> & [Hn ->] & o & [-> Hlen] & Hl). case_decide; [done|]. subst n.
      by exists o.
    + intros (o & (Hne & Hlen & ->) & Hl). exists (be_bytes 8 (len o)), o, (len o). split; [done|]. split; [done|].
      exists o. rewrite decide_False by done. done.
Qed.
End codec.

Lemma decodes_remote : decodes_under True decode_remote_fields g_remote.
Proof.
  eapply decodes_ext.
  - apply decodes_bind; [apply accepts_read_u64|]. intros _ head _.
    apply decodes_bind; [apply accepts_read_u64|]. intros _ count _.
    eapply decodes_eq; [intros r; apply (st_bind_assoc read_u64)|].
    apply decodes_bind; [apply accepts_announced|]. intros _ n _.
    apply decodes_bind; [by apply accepts_lift|]. intros _ u _.
    apply decodes_bind; [apply accepts_repeat, accepts_remote_object|]. intros _ objs _. apply decodes_end.
  - intros c [head count objs]. unfold g_remote, with_capacity. cbn. split.
    + intros (c1 & ? & h & -> & Hh & c2 & ? & k & -> & Hk & c3 & ? & n & -> & [Hn ->] & ? & ? & u & -> & [-> Hcap] &
        c4 & ? & l & -> & Hit & -> & [= -> -> ->]).
      apply g_iter_push in Hit as (l' & Hl & Hobjs & ->). case_decide as Hc; [|done].
      assert (n = len l') as -> by (unfold len; lia). rewrite !app_nil_r. cbn. split; [done|].
      exists c1, c2. eexists. split; [done|]. split; [done|]. split; [done|]. split; [done|]. by exists c4.
    + intros (Hcap & c1 & c2 & c3 & -> & Hh & Hk & Hlen & c4 & -> & Hobjs).
      exists c1. eexists _, head. split; [done|]. split; [done|]. exists c2. eexists _, count. split; [done|]. split; [done|].
      exists (be_bytes 8 (len objs)), c4, (len objs). split; [done|]. split; [done|].
      exists [], c4, tt. split; [done|]. split; [split; [done|]; by rewrite decide_True|].
      exists c4, [], objs. rewrite app_nil_r. split; [done|]. split; [|done].
      apply g_iter_push. exists objs. split; [unfold len; lia|done].
Qed.

Lemma decode_remote_spec bytes state :
  len bytes ≤ isize_max → decode_remote_state bytes = Ok state ↔ ∃ c, bytes = REMOTE_MAGIC ++ c ∧ g_remote c state.
Proof.
  intros Hlen. unfold decode_remote_state. destruct (decide (len bytes < len REMOTE_MAGIC)) as [Hs|Hs].
  { split; [done|]. intros (c & -> & _). rewrite len_app in Hs. lia. }
  destruct (split_len bytes (len REMOTE_MAGIC)) as (m & fields & -> & Hm); [lia|].
  rewrite (slice_mid (m ++ fields) [] m fields 0 (len REMOTE_MAGIC)); [|done|done|by rewrite <-Hm].
  cbn [mbind result_bind]. destruct (decide (m = REMOTE_MAGIC)) as [->|Hne].
  - rewrite decide_False by (intros Hn; by apply Hn).
    destruct (decodes_remote (Reader_mk (REMOTE_MAGIC ++ fields) (len REMOTE_MAGIC))) as [_ Ho].
    { split; cbn [rd_position rd_bytes]; [rewrite len_app; lia|done]. }
    rewrite Ho. unfold rest. cbn [rd_position rd_bytes].
    assert (drop (N.to_nat (len REMOTE_MAGIC)) (REMOTE_MAGIC ++ fields) = fields) as ->
      by (unfold len; rewrite Nat2N.id; apply drop_app_length).
    split; [by exists fields|]. by intros (c & <-%app_inv_head & Ha).
  - rewrite decide_True by done. split; [done|]. intros (c & Heq & _). exfalso. apply Hne. unfold len in Hm.
    by apply app_inj_1 in Heq as [? _]; [|lia].
Qed.

(** The states a publication leaves. *)
Definition remote_ok (state : ProbeRemoteState) : Prop :=
  remote_head state ≤ u64_max ∧ publish_count state ≤ u64_max ∧ VEC_BYTES * len (remote_objects state) ≤ isize_max ∧
  ∀ o, o ∈ remote_objects state → o ≠ [].

Lemma encode_remote_spec state :
  remote_ok state →
  (is_ok (encode_remote_state state) ↔
    len (remote_objects state) ≤ u64_max ∧ ∀ o, o ∈ remote_objects state → len o ≤ u64_max) ∧
  encode_remote_state state ≠ Panic ∧
  ∀ enc, encode_remote_state state = Ok enc → ∃ c, enc = REMOTE_MAGIC ++ c ∧ g_remote c state.
Proof.
  intros (Hh & Hk & Hcap & Hobjs). apply run_writer_spec. eapply writes_ext.
  - apply writes_bind; [apply writes_extend|]. apply writes_bind; [apply writes_extend|].
    apply writes_bind; [apply writes_extend|].
    apply (writes_counted (H := step_errors (b_ "object count does not fit u64") []) write_remote_object
      (λ o, len o ≤ u64_max) g_object).
    intros o Ho. eapply writes_ext;
      [apply (writes_bytes (H := step_errors (b_ "object length does not fit u64") []))|done|].
    intros enc Henc. split; [by apply Hobjs|done].
  - naive_solver.
  - intros enc (e1 & e2 & -> & -> & e3 & e4 & -> & -> & e5 & e6 & -> & -> & Hc).
    eexists. split; [done|]. split; [done|]. exists (be_bytes 8 (remote_head state)), (be_bytes 8 (publish_count state)), e6.
    split; [done|]. split; [split; [|done]|split; [split; [|done]|done]]; unfold u64_max in *; cbn; lia.
Qed.
