(* ===== verification/RecoveryProbe.v ===== *)
(** * The on-device recovery probe (crates/apc-android-bridge/src/recovery_probe.rs)

    The scenarios a phone runs across process death: stage an encrypted, exposed
    state with its outbox; lose the response of an accepted publication; reopen
    and settle it.  The probe's two stores live under one application directory,
    [FilesDir]; every function reopens them from there, as a new process does.
    Their directories are created and removed without a sync of the parent, which
    [StorePath] keeps for the next power loss.

    An error is its text, which ends in the displayed cause. *)
From Stdlib Require Import NArith Strings.Byte.
From stdpp Require Import base tactics option list gmap.
From S2P Require Import Prelude BTree Bytes Text Id Error Scalar Working Finalization Domain Projection Crypto.
From S2P Require Import Durability Fs FsStorage FsLaws Protected Recovery Transport Session RecordStore.
From S2P Require Import TrustedState TrustedStateSet Publication PublicationSet CatchupSet ResumeSet ResumeRecovery.
From S2P Require Import ForegroundRecovery Display ProbeRemote.
Local Open Scope N_scope.

Definition Failure : Type := list byte.

(** [.map_err(|error| format!("text: {error}"))], and with [{error:?}]. *)
Definition or_text {E A : Type} `{Display E} (text : Failure) (r : result E A) : result Failure A :=
  map_err (λ error, text ++ b_ ": " ++ display error) r.
Definition or_debug {E A : Type} `{Debug E} (text : Failure) (r : result E A) : result Failure A :=
  map_err (λ error, text ++ b_ ": " ++ debug error) r.

(** The texts that this code quotes and does not write: an error of the
    operating system, and what [derive(Debug)] makes of two error types. *)
Definition StageError : Type :=
  RecoveryHandoffStageError MultiScalarTrustedStateCodecError (ProtectedSyncStoreError FsStorageError).
Definition ResumeError : Type :=
  ScalarRecoveryResumeError (ForegroundTransportError ProbeTransportError) MultiScalarTrustedStateCodecError
    (ProtectedSyncStoreError FsStorageError) (list byte).
Class ErrorTexts : Type := {
  io_error_display :: Display ErrorKind;
  stage_error_debug :: Debug StageError;
  resume_error_debug :: Debug ResumeError;
}.

#[export] Instance ProbeTransportError_display `{Display ErrorKind} : Display ProbeTransportError := λ error,
  match error with
  | Storage error => b_ "probe transport storage error: " ++ display error
  | InvalidState error => b_ "invalid probe transport state: " ++ error
  | LostAcceptedResponse => b_ "simulated response loss after remote acceptance"
  end.

(** ** Fixed data *)
Module recovery_probe.
Definition PROBE_DIR : list byte := b_ "apc-recovery-probe-v1".
Definition PROBE_REMOTE_DIR : list byte := b_ "apc-recovery-probe-remote-v1".
Definition PROBE_CONTEXT : list byte := b_ "A.P.C. Android recovery probe" ++ [x00] ++ b_ "v1".
Definition PROBE_SECRET : list byte := b_ "android-probe-local-secret".
Definition PROBE_KEY_BYTES : byte_array KEY_BYTES := replicate KEY_BYTES xa7 ↾ I.

(** [[0_u8; 32]] with the value in the last eight bytes. *)
Definition logical_bytes (value : N) : byte_array LOGICAL_ID_BYTES :=
  default (replicate LOGICAL_ID_BYTES x00 ↾ I) (try_into_array LOGICAL_ID_BYTES (replicate 24 x00 ++ be_bytes 8 value)).

Definition atom (value : N) : AtomId := from_bytes (logical_bytes value).
Definition cid (value : N) : ContinuumId := from_bytes (logical_bytes value).
Definition rid (value : N) : RevisionId := from_bytes (logical_bytes value).
Definition wid (value : N) : WorkingEpochId := from_bytes (logical_bytes value).
Definition pid (value : N) : PublicationId := from_bytes (logical_bytes value).

(** [DomainKey::new(..).expect(..)]. *)
Definition domain_key {E : Type} : result E DomainKey :=
  expect (match DomainKey.new (atom 1) (b_ "body") with Ok key => Some key | _ => None end).

Definition content_key : ContentKey := ContentKey_mk PROBE_KEY_BYTES.

(** ** The application directory *)

(** [Path::join] of a relative name. *)
Definition join (path name : list byte) : list byte :=
  match last path with
  | Some b => if decide (b = "/"%byte) then path ++ name else path ++ b_ "/" ++ name
  | None => name
  end.

(** A path under the application directory: what it names now, and what it may
    name again after a power loss.  [create_dir_all] and [remove_dir_all] sync no
    parent directory, so until a power loss has shown which change of the parent
    the disk has kept, every earlier state of the path is possible again.  [None]
    is a missing directory, or one that holds nothing yet, [objects] included:
    opening and removing them come to the same. *)
Record StorePath : Type := StorePath_mk {
  at_path : option Fs;
  unsynced_past : list (option Fs);
}.

(** [probe_root(files_dir)] and [remote_root(files_dir)]; the device's answers
    in a directory to be created; the system's generator. *)
Record FilesDir : Type := FilesDir_mk {
  probe_path : StorePath;
  remote_path : StorePath;
  fresh_device : nat → option nat;
  system_entropy : nat → option (byte_array NONCE_BYTES);
}.

Definition probe_root (files : FilesDir) : option Fs := at_path (probe_path files).
Definition remote_root (files : FilesDir) : option Fs := at_path (remote_path files).

Definition Store : Type := ProtectedSyncRecordStore UnixFsDurabilityBackend.

Definition with_probe_path (path : StorePath) (files : FilesDir) : FilesDir :=
  FilesDir_mk path (remote_path files) (fresh_device files) (system_entropy files).
Definition with_remote_path (path : StorePath) (files : FilesDir) : FilesDir :=
  FilesDir_mk (probe_path files) path (fresh_device files) (system_entropy files).

(** A store at the path, which opening it has created if it was missing. *)
Definition kept_at (fs : Fs) (path : StorePath) : StorePath :=
  StorePath_mk (Some fs)
    match at_path path with
    | Some _ => unsynced_past path
    | None => None :: unsynced_past path
    end.

(** What a store, or the remote, has done is in the directory. *)
Definition keep_store (store : Store) : stateful FilesDir Failure unit :=
  files ← get_state;
  put_state (FilesDir_mk (kept_at (filesystem (backend store)) (probe_path files)) (remote_path files) (fresh_device files)
    (entropy store)).
Definition keep_remote (transport : ProbeTransport) : stateful FilesDir Failure unit :=
  files ← get_state;
  put_state (with_remote_path (kept_at (filesystem (probe_backend transport)) (remote_path files)) files).

(** [fs::remove_dir_all]: the unlinks are in the removed directory, which a
    power loss may bring back. *)
Definition remove_dir_all : stateful StorePath ErrorKind unit := λ path,
  match at_path path with
  | None => (path, Err NotFound)
  | Some fs =>
      match Fs.remove_dir_all fs with
      | (fs, Ok _) => (StorePath_mk None (Some fs :: unsynced_past path), Ok tt)
      | (fs, Err error) => (StorePath_mk (Some fs) (unsynced_past path), Err error)
      | (fs, Panic) => (StorePath_mk (Some fs) (unsynced_past path), Panic)
      end
  end.

(** [UnixFsDurabilityBackend::open], which creates a missing directory; a
    failed call may have created it, and leaves it holding nothing. *)
Definition open_backend (device : nat → option nat) (root : option Fs) :
    result FsStorageError UnixFsDurabilityBackend :=
  UnixFsDurabilityBackend.open (default (fs_new device) root).

Section probe.
Context `{ErrorTexts}.

Definition open_store : stateful FilesDir Failure Store :=
  files ← get_state;
  backend ← lift_result (or_text (b_ "open durability backend") (open_backend (fresh_device files) (probe_root files)));
  store ← lift_result (or_text (b_ "open protected sync store")
    (ProtectedSyncRecordStore.new backend content_key PROBE_CONTEXT (system_entropy files)));
  _ ← keep_store store;
  mret store.

Definition open_transport (mode : ProbePublishMode) : stateful FilesDir Failure ProbeTransport :=
  files ← get_state;
  backend ← lift_result (or_text (b_ "open simulated remote transport") (open_backend (fresh_device files) (remote_root files)));
  let transport := ProbeTransport_mk backend mode in
  _ ← keep_remote transport;
  mret transport.

(** A missing directory is no error. *)
Definition reset_path (path : list byte) : stateful StorePath Failure unit := λ root,
  match remove_dir_all root with
  | (root, Ok _) => (root, Ok tt)
  | (root, Err NotFound) => (root, Ok tt)
  | (root, Err error) => (root, Err (b_ "reset probe path " ++ path ++ b_ ": " ++ display error))
  | (root, Panic) => (root, Panic)
  end.

Definition reset_probe (files_dir : list byte) : stateful FilesDir Failure unit :=
  on_field probe_path with_probe_path (reset_path (join files_dir PROBE_DIR)).
Definition reset_remote (files_dir : list byte) : stateful FilesDir Failure unit :=
  on_field remote_path with_remote_path (reset_path (join files_dir PROBE_REMOTE_DIR)).

(** ** The staged state *)
Definition codec : DevelopmentMultiScalarTrustedStateCodec := DevelopmentMultiScalarTrustedStateCodec_mk.
Definition cursor_codec : ProbeCursorCodec := ProbeCursorCodec_mk.

(** The calls on the local domain, in order. *)
Definition edit_domain : stateful (LocalScalarDomain (list byte)) Failure unit :=
  _ ← map_err_st (λ error, b_ "begin working epoch: " ++ display error) (LocalScalarDomain.begin_epoch (wid 1) PROBE_SECRET);
  _ ← map_err_st (λ error, b_ "seal local revision: " ++ display error) (LocalScalarDomain.seal_local (rid 200));
  _ ← map_err_st (λ error, b_ "finalize local revision: " ++ display error) (LocalScalarDomain.finalize (rid 200));
  mret tt.

Definition initial_recovery : result Failure LocalScalarRecoveryState :=
  let '(causal, assigned) := ScalarRegister.assign (rid 100) (b_ "android-probe-base") ScalarRegister.new in
  _ ← or_text (b_ "create base causal state") assigned;
  domain ← or_text (b_ "create local scalar domain") (LocalScalarDomain.from_causal causal);
  let '(domain, edited) := edit_domain domain in
  _ ← edited;
  key ← domain_key;
  or_text (b_ "create recovery container")
    (LocalScalarRecoveryState.from_domains {[ key := LocalScalarDomain.snapshot domain ]}).

(** ** Checks of a committed record *)
Definition validate_cursor (record : DurableSyncRecord) (expected : N) : result Failure unit :=
  cursor ← ok_or (b_ "committed record lost applied cursor") (applied_cursor record);
  actual ← ProbeCursorCodec.decode cursor_codec cursor;
  if decide (actual ≠ expected) then
    Err (b_ "committed record restored cursor " ++ decimal_text actual ++ b_ ", expected " ++ decimal_text expected)
  else Ok tt.

Definition validate_exposure (record : DurableSyncRecord) : result Failure unit :=
  recovery ← or_text (E := MultiScalarTrustedStateCodecError) (b_ "decode committed trusted state")
    (decode_trusted codec (trusted_state record));
  key ← domain_key;
  restored ← or_text (b_ "restore committed scalar domain") (LocalScalarRecoveryState.restore_domain recovery key);
  domain ← ok_or (b_ "committed trusted state lost probe domain") restored;
  if decide (rid 200 ∉ exposed_local_ids (finalization domain)) then
    Err (b_ "committed trusted state lost exposure marker")
  else if decide (rid 200 ∉ handed_off_local_ids (finalization domain)) then
    Err (b_ "committed trusted state lost handoff marker")
  else Ok tt.

Definition validate_pending_committed (record : DurableSyncRecord) : result Failure unit :=
  _ ← validate_cursor record PROBE_INITIAL_HEAD;
  if decide (size (outbox record) ≠ 1%nat) then
    Err (b_ "committed record expected one pending publication, found " ++ decimal_text (N.of_nat (size (outbox record))))
  else
  entry ← ok_or (b_ "committed record lost probe publication") (outbox record !! pid 7);
  expected ← ok_or (b_ "probe outbox lost expected cursor") (expected_cursor entry);
  head ← ProbeCursorCodec.decode cursor_codec expected;
  if decide (head ≠ PROBE_INITIAL_HEAD) then Err (b_ "probe outbox expected cursor changed") else
  match objects entry with
  | [object] =>
      if decide (object = []) then Err (b_ "probe outbox did not retain one exact protected wire object")
      else validate_exposure record
  | _ => Err (b_ "probe outbox did not retain one exact protected wire object")
  end.

Definition validate_reconciled_committed (record : DurableSyncRecord) : result Failure unit :=
  _ ← validate_cursor record PROBE_ACCEPTED_HEAD;
  if decide (outbox record ≠ ∅) then Err (b_ "reconciled record still contains the lost-ACK outbox entry")
  else validate_exposure record.

(** ** Scenarios *)
Section scenarios.
Context `{Aead}.

(** [store.load_committed()], where a record must be. *)
Definition load_record (store : Store) (failed missing : Failure) : result Failure DurableSyncRecord :=
  committed ← or_text (E := ProtectedSyncStoreError FsStorageError) failed (ProtectedSyncRecordStore.load_committed store);
  ok_or missing committed.

Definition stage_local_record (files_dir : list byte) :
    stateful FilesDir Failure (LocalScalarRecoveryState * (DurableSyncRecord * Store)) :=
  _ ← reset_probe files_dir;
  recovery ← lift_result initial_recovery;
  trusted_state ← lift_result (or_text (E := MultiScalarTrustedStateCodecError) (b_ "encode initial trusted state")
    (encode_trusted codec recovery));
  cursor ← lift_result (ProbeCursorCodec.encode cursor_codec PROBE_INITIAL_HEAD);
  let record := DurableSyncRecord.new trusted_state (Some cursor) in
  store ← open_store;
  key ← lift_result domain_key;
  let '(store, generated) := (ProtectedSyncRecordStore.draw (E := Failure) store) in
  generated ← lift_result generated;
  prepared ← lift_result (or_text (b_ "prepare protected handoff")
    (prepare_recovery_handoff generated recovery (cid 1) (pid 7) content_key {[ key := {[ rid 200 ]} ]}));
  let '((recovery, (record, store)), staged) :=
    stage_prepared_recovery_handoff codec prepared (recovery, (record, store)) in
  _ ← keep_store store;
  _ ← lift_result (or_debug (E := StageError) (b_ "durably stage protected handoff") staged);
  committed ← lift_result (load_record store (b_ "reload committed record")
    (b_ "durability backend returned no committed record"));
  _ ← lift_result (validate_pending_committed committed);
  mret (recovery, (record, store)).

Definition stage (files_dir : list byte) : stateful FilesDir Failure (list byte) :=
  _ ← stage_local_record files_dir;
  mret (b_ "PASS staged encrypted exposed state + exact outbox").

Definition verify : stateful FilesDir Failure (list byte) :=
  store ← open_store;
  committed ← lift_result (load_record store (b_ "load committed record after restart")
    (b_ "no committed recovery probe exists"));
  _ ← lift_result (validate_pending_committed committed);
  mret (b_ "PASS reopened encrypted state; cursor/exposure/outbox intact").

Definition load_remote : stateful FilesDir Failure ProbeRemoteState :=
  transport ← open_transport Normal;
  lift_result (map_err display (ProbeTransport.load_state transport)).

(** [runtime.resume_scalar_recovery] with the probe's fixed arguments, of a new
    runtime in the foreground, and what it returned; what it did is in the
    directory. *)
Definition run_cycle (transport : ProbeTransport) (s : LocalScalarRecoveryState * (DurableSyncRecord * Store)) :
    stateful FilesDir Failure ((LocalScalarRecoveryState * (DurableSyncRecord * Store)) *
      result ResumeError (ScalarRecoveryResumeCycleReport N)) :=
  let runtime := ForegroundRecoveryRuntime.enter_foreground (ForegroundRecoveryRuntime.new transport) in
  let '((s, runtime), answer) := ForegroundRecoveryRuntime.resume_scalar_recovery codec cursor_codec
    (ForegroundRecoveryCycleSpec_mk content_key (cid 1) ∅) (s, runtime) in
  _ ← keep_store s.2.2;
  _ ← keep_remote (inner (ForegroundRecovery.transport runtime));
  match answer with
  | Panic => lift_result Panic
  | answer => mret (s, answer : result ResumeError (ScalarRecoveryResumeCycleReport N))
  end.

Definition stage_lost_ack (files_dir : list byte) : stateful FilesDir Failure (list byte) :=
  _ ← reset_remote files_dir;
  staged ← stage_local_record files_dir;
  transport ← open_transport LoseAcceptedResponse;
  cycle ← run_cycle transport staged;
  let '((_, (_, store)), answer) := cycle in
  if succeeds answer then throw (b_ "lost-ACK stage unexpectedly received a successful response") else
  durable ← lift_result (load_record store (b_ "reload local state after lost response")
    (b_ "local state disappeared after lost response"));
  _ ← lift_result (validate_pending_committed durable);
  remote ← load_remote;
  if decide (remote_head remote ≠ PROBE_ACCEPTED_HEAD ∨ publish_count remote ≠ 1 ∨ remote_objects remote = []) then
    throw (b_ "simulated remote did not durably accept exactly one publication")
  else mret (b_ "PASS remote accepted once; response lost; durable local outbox still pending").

Definition resume_lost_ack : stateful FilesDir Failure (list byte) :=
  store ← open_store;
  record ← lift_result (load_record store (b_ "load local state for lost-ACK resume")
    (b_ "no staged lost-ACK local state exists"));
  _ ← lift_result (validate_pending_committed record);
  recovery ← lift_result (or_text (E := MultiScalarTrustedStateCodecError) (b_ "decode local recovery for resume")
    (decode_trusted codec (trusted_state record)));
  transport ← open_transport Normal;
  cycle ← run_cycle transport (recovery, (record, store));
  let '((_, (record, store)), answer) := cycle in
  _ ← lift_result (or_debug (E := ResumeError) (b_ "foreground lost-ACK recovery failed") answer);
  _ ← lift_result (validate_reconciled_committed record);
  durable ← lift_result (load_record store (b_ "reload reconciled local state")
    (b_ "reconciled local state disappeared"));
  _ ← lift_result (validate_reconciled_committed durable);
  remote ← load_remote;
  if decide (remote_head remote ≠ PROBE_ACCEPTED_HEAD ∨ publish_count remote ≠ 1) then
    throw (b_ "lost-ACK recovery retransmitted an already accepted publication")
  else mret (b_ "PASS authenticated refetch reconciled lost ACK; no second publish").
End scenarios.
End probe.

(** ** Process death and power loss *)

(** A process that dies loses nothing; the next one meets another device. *)
Definition path_kept (path path' : StorePath) : Prop :=
  (∃ dev, at_path path' = with_device dev <$> at_path path) ∧ unsynced_past path' = unsynced_past path.

(** The directory after a power loss: a store's files as [fs_crash] says. *)
Definition root_crash (root root' : option Fs) : Prop :=
  match root, root' with
  | Some fs, Some fs' => fs_crash fs fs'
  | None, None => True
  | _, _ => False
  end.

(** A power loss leaves what the path names, or puts back an earlier state of
    the unsynced parent directory ([reverts]); what is found is on the disk. *)
Definition path_crash (reverts : bool) (path path' : StorePath) : Prop :=
  unsynced_past path' = [] ∧
  ∃ root, root ∈ at_path path :: (if reverts then unsynced_past path else []) ∧ root_crash root (at_path path').

(** A new process: after the death of the last one, or after a power loss. *)
Definition restarted (reverts : bool) (files files' : FilesDir) : Prop :=
  (path_kept (probe_path files) (probe_path files') ∧ path_kept (remote_path files) (remote_path files')) ∨
  (path_crash reverts (probe_path files) (probe_path files') ∧ path_crash reverts (remote_path files) (remote_path files')).

(** No store has been at the path that a power loss could bring back. *)
Definition untouched (path : StorePath) : Prop :=
  ∀ root, root ∈ at_path path :: unsynced_past path → root = None.
End recovery_probe.
