(* ===== verification/AndroidBridge.v ===== *)
(** * The Android bridge (crates/apc-android-bridge/src/lib.rs)

    The native calls a Java process makes, one after another: one process-wide
    lifecycle flag, and the recovery probes under a directory the caller names.
    The strings of the [jni] crate are parameters: [get_string] may fail, and so may
    the allocation of the answer, which then is a null reference.  So is the
    directory that a path names ([Locations]). *)
From Stdlib Require Import NArith Strings.Byte.
From stdpp Require Import base tactics option list gmap functions.
From S2P Require Import Prelude BTree Bytes Crypto Display ProbeRemote RecoveryProbe.
Import recovery_probe.

(** Which directory a path names is the operating system's affair: a path with a
    slash more, or through a link, names the same one.  [location] stands for its
    answer, some name of the directory itself, which does not change. *)
Class Locations : Type := location : list byte → list byte.

(** The flag of [LIFECYCLE], and what is in each directory, by its location. *)
Record Bridge : Type := Bridge_mk {
  lifecycle : bool;
  directories : list byte → FilesDir;
}.

(** No probe's directory of one location holds the other location. *)
Definition apart (here there : list byte) : Prop :=
  ∀ dir, dir ∈ [PROBE_DIR; PROBE_REMOTE_DIR] → ¬ join here dir `prefix_of` there ∧ ¬ join there dir `prefix_of` here.

Module AndroidBridge.
Definition BRIDGE_VERSION : list byte := b_ "apc-android-bridge/" ++ b_ "0.0.1".

(** [jboolean]. *)
Definition JNI_FALSE : N := 0.
Definition JNI_TRUE : N := 1.

Section bridge.
Context `{Locations} {JString JniError : Type} `{Display JniError}.
Context (get_string : JString → result JniError (list byte)) (new_string : list byte → option JString).
Implicit Types (self : Bridge) (files_dir : JString).

Definition enter_foreground self : Bridge := Bridge_mk true (directories self).
Definition enter_background self : Bridge := Bridge_mk false (directories self).
Definition is_foreground self : bool := lifecycle self.

Definition java_path files_dir : result Failure (list byte) :=
  text ← or_text (b_ "read Android filesDir") (get_string files_dir);
  if decide (text = []) then Err (b_ "Android filesDir is empty") else Ok text.

Definition foreground_probe_path files_dir : stateful Bridge Failure (list byte) :=
  self ← get_state;
  if negb (is_foreground self) then throw (b_ "transport recovery probe refused before Android foreground entry")
  else lift_result (java_path files_dir).

(** The text of a result; a panic does not return to Java. *)
Definition probe_result_string (probe : stateful Bridge Failure (list byte)) :
    stateful Bridge Empty_set (option JString) := λ self,
  match probe self with
  | (self, Ok message) => (self, Ok (new_string message))
  | (self, Err error) => (self, Ok (new_string (b_ "FAIL " ++ error)))
  | (self, Panic) => (self, Panic)
  end.

Definition in_directory (path : list byte) (probe : stateful FilesDir Failure (list byte)) :
    stateful Bridge Failure (list byte) :=
  on_field (λ self, directories self (location path))
    (λ files self, Bridge_mk (lifecycle self) (<[location path := files]> (directories self))) probe.

Definition nativeVersion : option JString := new_string BRIDGE_VERSION.
Definition nativeEnterForeground self : Bridge := enter_foreground self.
Definition nativeEnterBackground self : Bridge := enter_background self.
Definition nativeIsForeground self : N := if is_foreground self then JNI_TRUE else JNI_FALSE.

Context `{Aead} `{ErrorTexts}.

Definition nativeStageRecoveryProbe files_dir : stateful Bridge Empty_set (option JString) :=
  probe_result_string (path ← lift_result (java_path files_dir); in_directory path (stage path)).

Definition nativeVerifyRecoveryProbe files_dir : stateful Bridge Empty_set (option JString) :=
  probe_result_string (path ← lift_result (java_path files_dir); in_directory path verify).

Definition nativeStageLostAckProbe files_dir : stateful Bridge Empty_set (option JString) :=
  probe_result_string (path ← foreground_probe_path files_dir; in_directory path (stage_lost_ack path)).

Definition nativeResumeLostAckProbe files_dir : stateful Bridge Empty_set (option JString) :=
  probe_result_string (path ← foreground_probe_path files_dir; in_directory path resume_lost_ack).

(** Any call. *)
Inductive native_call : Type :=
  | EnterForeground
  | EnterBackground
  | StageRecoveryProbe files_dir
  | VerifyRecoveryProbe files_dir
  | StageLostAckProbe files_dir
  | ResumeLostAckProbe files_dir.

Definition run_native (call : native_call) self : Bridge :=
  match call with
  | EnterForeground => nativeEnterForeground self
  | EnterBackground => nativeEnterBackground self
  | StageRecoveryProbe files_dir => (nativeStageRecoveryProbe files_dir self).1
  | VerifyRecoveryProbe files_dir => (nativeVerifyRecoveryProbe files_dir self).1
  | StageLostAckProbe files_dir => (nativeStageLostAckProbe files_dir self).1
  | ResumeLostAckProbe files_dir => (nativeResumeLostAckProbe files_dir self).1
  end.

(** The path a call's probe is given. *)
Definition call_files_dir (call : native_call) : option JString :=
  match call with
  | EnterForeground | EnterBackground => None
  | StageRecoveryProbe files_dir | VerifyRecoveryProbe files_dir
  | StageLostAckProbe files_dir | ResumeLostAckProbe files_dir => Some files_dir
  end.

(** A call outside a directory's probes: it names that very directory, or one
    apart from it. *)
Definition lies_apart (here : list byte) (call : native_call) : Prop :=
  ∀ files_dir path, call_files_dir call = Some files_dir → get_string files_dir = Ok path → apart here (location path).

(** ** What a call changes *)

(** A probe runs in the directory it names, or nowhere. *)
Lemma probe_effect (path_of : stateful Bridge Failure (list byte))
    (probe : list byte → stateful FilesDir Failure (list byte)) self :
  (∀ self, (path_of self).1 = self) →
  let self' := (probe_result_string (path ← path_of; in_directory path (probe path)) self).1 in
  match (path_of self).2 with
  | Ok path => self' = Bridge_mk (lifecycle self)
      (<[location path := (probe path (directories self (location path))).1]> (directories self))
  | _ => self' = self
  end.
Proof.
  intros Hpath. specialize (Hpath self). unfold probe_result_string. rewrite st_bind.
  destruct (path_of self) as [self1 [path|e|]]; cbn [fst snd] in *; subst self1; [|done..].
  unfold in_directory, on_field. by destruct (probe _ _) as [files [text|e|]].
Qed.

Lemma java_path_state files_dir self : (lift_result (E := Failure) (java_path files_dir) self).1 = self.
Proof. done. Qed.

Lemma foreground_path_state files_dir self : (foreground_probe_path files_dir self).1 = self.
Proof. unfold foreground_probe_path. run_st. by destruct (negb _). Qed.

(** In the background no transport probe changes anything. *)
Lemma background_refuses files_dir self :
  lifecycle self = false →
  run_native (StageLostAckProbe files_dir) self = self ∧ run_native (ResumeLostAckProbe files_dir) self = self.
Proof.
  intros Hback. assert ((foreground_probe_path files_dir self).2 =
    Err (b_ "transport recovery probe refused before Android foreground entry")) as Hrefused.
  { unfold foreground_probe_path, is_foreground. run_st. by rewrite Hback. }
  assert (∀ probe, (probe_result_string (path ← foreground_probe_path files_dir; in_directory path (probe path)) self).1 = self)
    as Hsame.
  { intros probe. pose proof (probe_effect (foreground_probe_path files_dir) probe self (foreground_path_state files_dir)) as He.
    cbn zeta in He. by rewrite Hrefused in He. }
  cbn [run_native]. unfold nativeStageLostAckProbe, nativeResumeLostAckProbe.
  split; [exact (Hsame stage_lost_ack)|exact (Hsame (λ _, resume_lost_ack))].
Qed.
End bridge.
End AndroidBridge.
