(* ===== verification/ProbeLaws.v ===== *)
(** * What the probe's remote accepts

    The states the simulated remote can be left in, whatever its device does and
    wherever power is lost, and that a cycle of the probe sends nothing the remote
    accepts once it has accepted the staged publication
    (crates/apc-android-bridge/src/recovery_probe.rs). *)
From Stdlib Require Import Lia NArith Strings.Byte.
From stdpp Require Import base tactics option list gmap numbers functions.
From S2P Require Import Prelude Outcome BTree Bytes Id Reader Durability Crypto Protected Fs FsStorage FsLaws.
From S2P Require Import Recovery Transport Session Batch RecordStore TrustedState TrustedStateSet PublicationSet.
From S2P Require Import CatchupSet ResumeSet ResumeRecovery ForegroundRecovery RuntimeLaws RecoveryLaws StagedSends.
From S2P Require Import Display ProbeRemote RecoveryProbe AndroidBridge.
Local Open Scope N_scope.
Import recovery_probe.

(** ** The first fields of a state *)
Lemma encode_remote_fields state enc :
  encode_remote_state state = Ok enc →
  ∃ tail, enc = REMOTE_MAGIC ++ be_bytes 8 (remote_head state) ++ be_bytes 8 (publish_count state) ++ tail.
Proof.
  set (prefixed := λ enc, ∃ tail,
    enc = REMOTE_MAGIC ++ be_bytes 8 (remote_head state) ++ be_bytes 8 (publish_count state) ++ tail).
  assert (∃ C, writes (
    (_ ← extend REMOTE_MAGIC;
     _ ← extend (be_bytes 8 (remote_head state));
     _ ← extend (be_bytes 8 (publish_count state));
     _ ← write_u64 (b_ "object count does not fit u64") (len (remote_objects state));
     write_each write_remote_object (remote_objects state))) C prefixed) as [C Hw].
  { eexists. eapply writes_ext.
    - apply writes_bind; [apply writes_extend|]. apply writes_bind; [apply writes_extend|].
      apply writes_bind; [apply writes_extend|].
      apply (writes_counted (H := step_errors (b_ "object count does not fit u64") []) write_remote_object
        (λ o, len o ≤ u64_max) (λ c o, True)).
      intros o _. eapply writes_ext;
        [apply (writes_bytes (H := step_errors (b_ "object length does not fit u64") []))|done..].
    - reflexivity.
    - intros c (e1 & e2 & -> & -> & e3 & e4 & -> & -> & e5 & e6 & -> & -> & _). by exists e6. }
  apply (proj2 (proj2 (run_writer_spec _ _ _ Hw))).
Qed.

(** Reading eight bytes that are there. *)
Lemma read_u64_there pre n tail :
  n ≤ u64_max → len pre ≤ 2 ^ 32 →
  read_u64 (Reader_mk (pre ++ be_bytes 8 n ++ tail) (len pre)) =
  (Reader_mk (pre ++ be_bytes 8 n ++ tail) (len pre + 8), Ok n).
Proof.
  intros Hn Hpre. unfold read_u64. rewrite st_bind. unfold Reader.read_exact. run_st. cbn [rd_position rd_bytes].
  unfold usize_checked_add. rewrite decide_True by (unfold usize_max, u64_max; cbn in *; lia).
  cbn [ok_or]. run_st. rewrite (get_range_mid _ pre (be_bytes 8 n) tail) by (by rewrite ?len_be_bytes).
  cbn [ok_or]. run_st. destruct (try_into_array_is_Some 8 (be_bytes 8 n) (length_be_bytes 8 n)) as [a Ha].
  rewrite Ha. cbn [expect]. run_st. apply try_into_array_Some in Ha as ->.
  rewrite be_value_bytes; [done|]. unfold u64_max in Hn. cbn. lia.
Qed.

Lemma decode_prefix h k tail state :
  h ≤ u64_max → k ≤ u64_max →
  decode_remote_state (REMOTE_MAGIC ++ be_bytes 8 h ++ be_bytes 8 k ++ tail) = Ok state →
  remote_head state = h ∧ publish_count state = k.
Proof.
  intros Hh Hk. set (bytes := REMOTE_MAGIC ++ be_bytes 8 h ++ be_bytes 8 k ++ tail). unfold decode_remote_state.
  rewrite decide_False by (unfold bytes; rewrite len_app; lia).
  rewrite (slice_mid bytes [] REMOTE_MAGIC (be_bytes 8 h ++ be_bytes 8 k ++ tail)) by done.
  cbn [mbind result_bind]. rewrite decide_False by (intros Hn; by apply Hn). unfold decode_remote_fields.
  pose proof (read_u64_there REMOTE_MAGIC h (be_bytes 8 k ++ tail) Hh ltac:(by vm_compute)) as Hfirst.
  fold bytes in Hfirst. rewrite st_bind, Hfirst, st_bind.
  replace (Reader_mk bytes (len REMOTE_MAGIC + 8)) with
    (Reader_mk ((REMOTE_MAGIC ++ be_bytes 8 h) ++ be_bytes 8 k ++ tail) (len (REMOTE_MAGIC ++ be_bytes 8 h)))
    by (unfold bytes; by rewrite <-app_assoc, len_app, len_be_bytes).
  rewrite read_u64_there by (done || (rewrite len_app, len_be_bytes; by vm_compute)).
  match goal with |- (?m ?r).2 = _ → _ => assert (yields m (λ state, remote_head state = h ∧ publish_count state = k)) as Hy end.
  { eapply yields_bind; [apply yields_any|]. intros announced _. eapply yields_bind; [apply yields_any|]. intros count _.
    eapply yields_bind; [apply yields_any|]. intros u _. eapply yields_bind; [apply yields_any|]. intros objs _.
    eapply yields_bind; [apply yields_any|]. intros self _.
    destruct (negb _); [apply yields_throw|by apply yields_ret]. }
  intros Hst. match type of Hst with (?m ?r).2 = _ => destruct (m r) as [r' res] eqn:Hm end.
  cbn [snd] in Hst. subst res. by eapply Hy.
Qed.

(** What is encoded is read back with its head and count. *)
Lemma encoded_remote_fields state enc state' :
  remote_head state ≤ u64_max → publish_count state ≤ u64_max →
  encode_remote_state state = Ok enc → decode_remote_state enc = Ok state' →
  remote_head state' = remote_head state ∧ publish_count state' = publish_count state.
Proof. intros Hh Hk [tail ->]%encode_remote_fields. by apply decode_prefix. Qed.

(** ** The states a remote can be left in *)
Section within.
Implicit Types (fs : Fs) (t : ProbeTransport) (Acc : option (list byte) → Prop).

(** A well-formed store, of which a restart reads only what [Acc] accepts. *)
Definition remote_within Acc fs : Prop := fs_ok fs ∧ ∀ o, rec fs o → Acc o.

Lemma within_device Acc fs dev : remote_within Acc fs → remote_within Acc (with_device dev fs).
Proof. exact id. Qed.

Lemma within_crash Acc fs fs' : remote_within Acc fs → fs_crash fs fs' → remote_within Acc fs'.
Proof.
  intros [Hok Hacc] Hcrash. split; [by eapply crash_ok|]. intros o Ho. by eapply Hacc, crash_rec.
Qed.

Lemma within_new Acc dev : Acc None → remote_within Acc (fs_new dev).
Proof.
  intros Hnone. split; [apply fs_new_ok|]. intros o (R & ->%list_elem_of_singleton & Ho).
  unfold committed in Ho. cbn in Ho. rewrite lookup_empty in Ho. by subst o.
Qed.

(** What is loaded is accepted. *)
Lemma load_within Acc t state :
  remote_within Acc (filesystem (probe_backend t)) → ProbeTransport.load_state t = Ok state →
  (Acc None ∧ state = ProbeRemoteState.default) ∨ ∃ enc, Acc (Some enc) ∧ decode_remote_state enc = Ok state.
Proof.
  intros [Hok Hacc] Hl. destruct (proj2 Hok _ (snapshots_entries _)) as [o Ho].
  assert (Acc o) as Ha by (apply Hacc; by exists (entries (root_directory (filesystem (probe_backend t)))); split; [left|]).
  apply read_committed_run in Ho as [Ho _]. unfold ProbeTransport.load_state, UnixFsDurabilityBackend.load_committed in Hl.
  destruct Ho as [Ho|Ho]; rewrite Ho in Hl; [|done]. cbn [map_err mbind result_bind] in Hl.
  destruct o as [enc|]; [right; by exists enc|left]. by injection Hl.
Qed.

(** A publication against the initial head: a remote that has accepted one
    refuses it, and an untouched one accepts at most its exact objects. *)
Lemma publish_within Acc t (objs : list (list byte)) :
  (∀ enc state, Acc (Some enc) → decode_remote_state enc = Ok state → remote_head state ≠ PROBE_INITIAL_HEAD) →
  (∀ enc, Acc None → objs ≠ [] → encode_remote_state (ProbeRemoteState_mk PROBE_ACCEPTED_HEAD 1 objs) = Ok enc →
    Acc (Some enc)) →
  remote_within Acc (filesystem (probe_backend t)) →
  remote_within Acc (filesystem (probe_backend (ProbeTransport.publish (Some PROBE_INITIAL_HEAD) objs t).1)).
Proof.
  intros Hhead Hnew Hw. unfold ProbeTransport.publish.
  destruct (bool_decide (objs = []) || _) eqn:Hobjs; [done|]. apply orb_false_iff in Hobjs as [Hobjs%bool_decide_eq_false _].
  run_st. destruct (ProbeTransport.load_state t) as [current|e|] eqn:Hl; run_st; [|done..].
  destruct (decide _) as [|Heq]; [done|]. apply dec_stable in Heq. injection Heq as Heq.
  destruct (load_within Acc t current Hw Hl) as [[Hnone ->]|(enc & Henc & Hd)]; [|by destruct (Hhead enc current Henc Hd)].
  change (u64_checked_add (remote_head ProbeRemoteState.default) 1) with (Some PROBE_ACCEPTED_HEAD).
  change (u64_checked_add (publish_count ProbeRemoteState.default) 1) with (Some 1).
  cbn [ok_or expect]. run_st. rewrite st_bind. unfold ProbeTransport.persist_state.
  destruct (encode_remote_state _) as [enc|e|] eqn:Henc; run_st; [|done..]. unfold on_field, map_err_st.
  destruct Hw as [Hok Hacc].
  pose proof (commit_prefix_safe (B := UnixFsDurabilityBackend) (S := list byte) 4 enc (probe_backend t) Hok) as [Hok' Hrec].
  rewrite commit_prefix_full in Hok', Hrec.
  assert (remote_within Acc (filesystem (commit_durable enc (probe_backend t)).1)) as Hw'.
  { split; [exact Hok'|]. intros o Ho. apply (recoverable_rec (commit_durable enc (probe_backend t)).1 o Hok') in Ho.
    apply Hrec in Ho as [Ho| ->]; [|by apply Hnew]. apply Hacc. by apply recoverable_rec. }
  destruct (commit_durable enc (probe_backend t)) as [b' [[]|e|]]; cbn [map_err fst snd] in *; [|done..].
  run_st. cbn. by case_decide.
Qed.
End within.

(** ** A cycle of the probe *)
Section cycle.
Implicit Types (t : ProbeTransport) (record : DurableSyncRecord).

(** Every entry was staged against the initial head. *)
Definition staged_initially record : Prop :=
  ∀ pid e, outbox record !! pid = Some e →
    transpose (decode (R := N) cursor_codec <$> expected_cursor e) = Ok (Some PROBE_INITIAL_HEAD).

Lemma staged_send_initial record (expected : option N) objs :
  staged_initially record → staged_send (Tr := ProbeTransport) cursor_codec record expected objs →
  expected = Some PROBE_INITIAL_HEAD.
Proof.
  intros Hinit (cur & ids & entries & Hne & He & Hd & _).
  destruct (elements_asc ids) as [|pid l] eqn:Hids; [by apply elements_asc_empty in Hids|].
  apply Forall2_cons_inv_l in He as (e & l' & [Hpid <-] & _ & _). specialize (Hinit pid e Hpid).
  assert (Ok (E := list byte) expected = Ok (Some PROBE_INITIAL_HEAD)) as Heq by (etransitivity; [symmetry; exact Hd|exact Hinit]).
  by injection Heq.
Qed.

Lemma fetch_keeps known t : (ProbeTransport.fetch_since known t).1 = t.
Proof. unfold ProbeTransport.fetch_since. run_st. by destruct (ProbeTransport.load_state t). Qed.

(** What the remote may hold: nothing, or one accepted publication. *)
Definition accepts_initial (Acc : option (list byte) → Prop) : Prop :=
  (∀ enc state, Acc (Some enc) → decode_remote_state enc = Ok state → remote_head state ≠ PROBE_INITIAL_HEAD) ∧
  ∀ objs enc, Acc None → objs ≠ [] → encode_remote_state (ProbeRemoteState_mk PROBE_ACCEPTED_HEAD 1 objs) = Ok enc →
    Acc (Some enc).

Lemma cycle_within `{Aead} {St : Type} `{SyncRecordStore St} Acc spec t s :
  accepts_initial Acc → staged_initially s.2.1 → remote_within Acc (filesystem (probe_backend t)) →
  let runtime := ForegroundRecoveryRuntime.enter_foreground (ForegroundRecoveryRuntime.new t) in
  let '((s', runtime'), answer) :=
    ForegroundRecoveryRuntime.resume_scalar_recovery (St := St) codec cursor_codec spec (s, runtime) in
  remote_within Acc (filesystem (probe_backend (inner (ForegroundRecovery.transport runtime')))).
Proof.
  intros [Hhead Hnew] Hinit Hw. destruct s as [rs [record store]]. cbn zeta.
  unfold ForegroundRecoveryRuntime.resume_scalar_recovery, on_field. cbn [fst snd].
  pose proof (recovery_bounded_sends (Tr := ForegroundTransport ProbeTransport) codec cursor_codec (cycle_key spec)
    (cycle_continuum_id spec) (cycle_pre_observation_revision_ids spec) rs record store
    (ForegroundTransport_mk t true)) as [_ Hsends]%sends_within_gated.
  change (ForegroundRecovery.transport (ForegroundRecoveryRuntime.enter_foreground (ForegroundRecoveryRuntime.new t)))
    with (ForegroundTransport_mk t true).
  destruct (resume_scalar_recovery_outbox_set_bounded _ _ _ _ _ _) as [[s' g'] res]. cbn [fst snd inner foreground] in *.
  destruct Hsends as (n & m & _ & _ & Hsends).
  apply (sends_keep (Tr := ProbeTransport) _ (λ t, remote_within Acc (filesystem (probe_backend t))) _ _ _ _) in Hsends;
    [exact Hsends| | |exact Hw].
  - intros known t0 Ht0. cbn [fetch_since probe_transport]. by rewrite fetch_keeps.
  - intros expected objs t0 ->%staged_send_initial Ht0; [|done]. apply publish_within; [done| |done].
    intros enc Hnone Hne Henc. by eapply Hnew.
Qed.

(** A record the probe accepts as pending is staged so. *)
Lemma pending_staged_initially record : validate_pending_committed record = Ok tt → staged_initially record.
Proof.
  unfold validate_pending_committed. intros (u & _ & Hv)%bind_Ok. case_decide as Hsize; [done|].
  apply bind_Ok in Hv as (entry & Hentry%ok_or_Ok & Hv). apply bind_Ok in Hv as (cursor & Hcursor%ok_or_Ok & Hv).
  apply bind_Ok in Hv as (h & Hh & Hv). case_decide as Hhead; [done|]. clear Hv.
  intros x e He. assert (x = pid 7) as ->.
  { assert (delete (pid 7) (outbox record) = ∅) as Hdel.
    { apply map_size_empty_inv. rewrite map_size_delete, Hentry. lia. }
    destruct (decide (x = pid 7)); [done|]. exfalso.
    assert (delete (pid 7) (outbox record) !! x = Some e) as Hx by by rewrite lookup_delete_ne.
    by rewrite Hdel, lookup_empty in Hx. }
  assert (e = entry) as -> by congruence. rewrite Hcursor. cbn [fmap option_fmap option_map transpose].
  change (decode cursor_codec cursor) with (ProbeCursorCodec.decode cursor_codec cursor). rewrite Hh. by subst h.
Qed.
End cycle.

(** ** The scenarios *)
Section scenarios.
Context `{Aead} `{ErrorTexts}.
Implicit Types (files : FilesDir) (Acc : option (list byte) → Prop).

Lemma open_store_outcome files :
  outcome open_store files (λ files' _, remote_path files' = remote_path files) (λ files', files' = files).
Proof.
  unfold open_store. apply outcome_get, outcome_bind, outcome_lift; [|done]. intros b _.
  apply outcome_bind, outcome_lift; [|done]. intros store _. done.
Qed.

(** Staging leaves the remote alone, and every entry it leaves in memory is
    staged against the initial head. *)
Lemma stage_handoff_initially prepared rs record (store : Store) :
  applied_cursor record = Some (TransportCursor_mk (be_bytes 8 PROBE_INITIAL_HEAD)) → staged_initially record →
  staged_initially (stage_prepared_recovery_handoff codec prepared (rs, (record, store))).1.2.1.
Proof.
  intros Hcur Hinit. rewrite stage_recovery_eq.
  destruct (st_for_each _ _ rs) as [candidate [[]|e|]]; [|done..].
  destruct (encode_trusted codec candidate) as [bytes|e|]; [|done..].
  rewrite swap_after_cases, stage_outbound_transition, run_transition_cases.
  destruct (staged _) as [next|e|] eqn:Hnext; cbn [map_err]; [|done..].
  apply staged_prepare_Ok in Hnext as (_ & _ & ->).
  assert (staged_initially (DurableSyncRecord_mk bytes (applied_cursor record)
    (<[handoff_publication_id prepared := DurableOutboxEntry_mk (handoff_publication_id prepared) (applied_cursor record)
      (handoff_objects prepared)]> (outbox record)))) as Hnew.
  { intros x e He. cbn [outbox] in He. apply lookup_insert_Some in He as [[_ <-]|[_ He]]; [|by eapply Hinit].
    cbn [expected_cursor]. rewrite Hcur. reflexivity. }
  destruct (persist _ store) as [store' [[]|e|]]; [exact Hnew|exact Hinit..].
Qed.

Lemma stage_local_record_outcome files_dir files :
  outcome (stage_local_record files_dir) files
    (λ files' s, remote_path files' = remote_path files ∧ staged_initially s.2.1)
    (λ files', remote_path files' = remote_path files).
Proof.
  unfold stage_local_record. apply outcome_bind. unfold reset_probe, outcome at 1, on_field.
  destruct (reset_path _ (probe_path files)) as [root [[]|e|]]; [|done..].
  set (files1 := with_probe_path root files). change (remote_path files) with (remote_path files1).
  generalize files1. clear files files1 root. intros files.
  apply outcome_bind, outcome_lift; [|done]. intros recovery _.
  apply outcome_bind, outcome_lift; [|done]. intros trusted _.
  apply outcome_bind, outcome_lift; [|done]. intros cursor Hcursor.
  assert (cursor = TransportCursor_mk (be_bytes 8 PROBE_INITIAL_HEAD)) as -> by (vm_compute in Hcursor; by injection Hcursor).
  apply outcome_bind. eapply outcome_mono; [apply open_store_outcome| |by intros files' ->].
  cbn beta. intros files1 store <-. apply outcome_bind, outcome_lift; [|done]. intros key _.
  unfold ProtectedSyncRecordStore.draw. run_st. cbn beta iota. run_st.
  apply outcome_bind, outcome_lift; [|done]. intros generated _.
  apply outcome_bind, outcome_lift; [|done]. intros prepared _.
  match goal with |- context [stage_prepared_recovery_handoff codec prepared (recovery, (?r, ?s))] =>
    pose proof (stage_handoff_initially prepared recovery r s eq_refl) as Hinit end.
  destruct (stage_prepared_recovery_handoff _ _ _) as [[rs' [record' store']] staged]. cbn [fst snd] in Hinit.
  apply outcome_bind. unfold outcome at 1. cbn.
  apply outcome_bind, outcome_lift; [|done]. intros u _. apply outcome_bind, outcome_lift; [|done]. intros committed _.
  apply outcome_bind, outcome_lift; [|done]. intros u' _. split; [done|]. apply Hinit.
  intros x e He. cbn in He. by rewrite lookup_empty in He.
Qed.

Lemma stage_outcome files_dir files :
  outcome (stage files_dir) files (λ files' _, remote_path files' = remote_path files) (λ files', remote_path files' = remote_path files).
Proof.
  unfold stage. apply outcome_bind. eapply outcome_mono; [apply stage_local_record_outcome| |done].
  by intros files' s [Hsame _].
Qed.

Lemma verify_outcome files :
  outcome verify files (λ files' _, remote_path files' = remote_path files) (λ files', remote_path files' = remote_path files).
Proof.
  unfold verify. apply outcome_bind. eapply outcome_mono; [apply open_store_outcome| |by intros files' ->].
  cbn beta. intros files1 store Hsame. apply outcome_bind, outcome_lift; [|done]. intros committed _.
  by apply outcome_bind, outcome_lift.
Qed.

(** Removing a directory that is there never reports a missing file. *)
Lemma remove_files d names fs :
  NoDup names → (∀ name, name ∈ names → is_Some (entries (directory d fs) !! name)) →
  (st_for_each (Fs.remove_file d) names fs).2 ≠ Err NotFound.
Proof.
  revert fs. induction names as [|name names IH]; intros fs; cbn [st_for_each]; [done|].
  intros [Hnew Hnd]%list.NoDup_cons Hall. destruct (Hall name) as [i Hi]; [left|].
  rewrite st_bind. unfold Fs.remove_file at 1, Fs.attempt. rewrite !st_bind, answer_eq.
  destruct (device fs 0); [done|]. run_st. unfold Fs.lookup_name. rewrite st_bind. run_st.
  assert (entries (directory d (with_device (λ n, device fs (S n)) fs)) !! name = Some i) as Hi' by by destruct d.
  rewrite Hi'. cbn [ok_or]. apply IH; [done|]. intros x Hx. destruct (Hall x) as [j Hj]; [by right|].
  assert (x ≠ name) by (intros ->; done).
  destruct d; cbn in *; rewrite lookup_delete_ne by done; by exists j.
Qed.

Lemma remove_present fs : (Fs.remove_dir_all fs).2 ≠ Err NotFound.
Proof.
  assert (∀ d fs (k : stateful Fs ErrorKind unit), (∀ fs, (k fs).2 ≠ Err NotFound) →
    ((names ← Fs.read_dir d; _ ← st_for_each (Fs.remove_file d) names; k) fs).2 ≠ Err NotFound) as Hdir.
  { clear. intros d fs k Hk. rewrite st_bind. unfold Fs.read_dir, Fs.attempt. rewrite !st_bind, answer_eq.
    destruct (device fs 0); [done|]. run_st. rewrite st_bind.
    match goal with |- context [st_for_each _ ?names ?fs'] => assert ((st_for_each (Fs.remove_file d) names fs').2 ≠ Err NotFound) as Hn end.
    { apply remove_files; [apply NoDup_fst_map_to_list|]. intros name ([n i] & -> & Hi%elem_of_map_to_list)%list_elem_of_fmap.
      by exists i. }
    destruct (st_for_each _ _ _) as [fs' [u|e|]]; [apply Hk|done..]. }
  unfold Fs.remove_dir_all. apply Hdir. intros fs1. rewrite st_bind. unfold Fs.attempt at 1. rewrite st_bind, answer_eq.
  destruct (device fs1 0); [done|]. run_st. apply Hdir. intros fs2. unfold Fs.attempt. rewrite st_bind, answer_eq.
  by destruct (device fs2 0).
Qed.

(** What a reset has removed a power loss may bring back, and nothing else. *)
Lemma reset_removes path root root' u :
  reset_path path root = (root', Ok u) → at_path root' = None ∧ (untouched root → root' = root).
Proof.
  unfold reset_path, remove_dir_all, untouched. destruct (at_path root) as [fs|] eqn:Hroot.
  - pose proof (remove_present fs) as Hn.
    destruct (Fs.remove_dir_all fs) as [fs' [v|[]|]]; [intros [= <-]| |done..]; [|by destruct Hn].
    split; [done|]. intros Hall. by specialize (Hall (Some fs) ltac:(left)).
  - by intros [= <-].
Qed.

(** What a path names. *)
Definition root_within Acc (root : option Fs) : Prop :=
  match root with
  | Some fs => remote_within Acc fs
  | None => Acc None
  end.

(** What the remote may hold, and what its path may name again after a power
    loss, of which [past] holds; that it is there, if it must be. *)
Section remote.
Context Acc (past : option Fs → Prop) (Hacc : accepts_initial Acc) (Hpast : Acc None → past None).

Definition remote_at (present : bool) files : Prop :=
  (present = true → is_Some (remote_root files)) ∧ root_within Acc (remote_root files) ∧
  ∀ root, root ∈ unsynced_past (remote_path files) → past root.

Lemma at_present present files : remote_at true files → remote_at present files.
Proof. intros (Hp & Hw). split; [by intros _; apply Hp|done]. Qed.

Lemma at_same present files files' : remote_path files' = remote_path files → remote_at present files → remote_at present files'.
Proof. unfold remote_at, remote_root. by intros ->. Qed.

(** What a remote has done is kept at its path. *)
Lemma at_kept present fs files :
  remote_at present files → remote_within Acc fs → remote_at true (with_remote_path (kept_at fs (remote_path files)) files).
Proof.
  intros (_ & Hw & Hall) Hfs. split; [intros _; by exists fs|]. split; [exact Hfs|]. cbn. unfold remote_root in Hw.
  destruct (at_path (remote_path files)); [done|]. intros root [->|Hin]%elem_of_cons; [by apply Hpast|by apply Hall].
Qed.

Lemma open_transport_outcome present mode files :
  remote_at present files →
  outcome (open_transport mode) files
    (λ files' t, remote_at true files' ∧ remote_within Acc (filesystem (probe_backend t))) (λ files', files' = files).
Proof.
  intros Hat. unfold open_transport. apply outcome_get, outcome_bind, outcome_lift; [|done].
  intros b Hb%map_err_Ok%open_same. destruct Hb as [dev Hb].
  assert (remote_within Acc (filesystem b)) as Hw.
  { rewrite Hb. apply within_device. destruct Hat as (_ & Hw & _). unfold root_within in Hw.
    destruct (remote_root files); [done|by apply within_new]. }
  unfold outcome. cbn. split; [by eapply at_kept|done].
Qed.

(** A cycle leaves the remote as the transport it ran on. *)
Lemma run_cycle_outcome t s files :
  staged_initially s.2.1 → remote_at true files → remote_within Acc (filesystem (probe_backend t)) →
  outcome (run_cycle t s) files (λ files' _, remote_at true files') (remote_at true).
Proof.
  intros Hinit Hat Hw. unfold run_cycle.
  pose proof (cycle_within Acc (ForegroundRecoveryCycleSpec_mk content_key (cid 1) ∅) t s Hacc Hinit Hw) as Hcycle.
  cbn zeta in Hcycle. destruct (ForegroundRecoveryRuntime.resume_scalar_recovery _ _ _ _) as [[s' runtime'] answer].
  destruct answer; exact (at_kept true _ (FilesDir_mk _ (remote_path files) _ _) Hat Hcycle).
Qed.

Lemma load_remote_outcome files :
  remote_at true files → outcome load_remote files (λ files' _, remote_at true files') (remote_at true).
Proof.
  intros Hat. unfold load_remote. apply outcome_bind.
  eapply outcome_mono; [by apply (open_transport_outcome true)|..].
  - cbn beta. intros files' t [Hk _]. by apply outcome_lift.
  - by intros files' ->.
Qed.

(** Resuming keeps the remote within what it may accept. *)
Lemma resume_lost_ack_outcome present files :
  remote_at present files → outcome resume_lost_ack files (λ files' _, remote_at present files') (remote_at present).
Proof.
  intros Hat. unfold resume_lost_ack. apply outcome_bind.
  eapply outcome_mono; [apply open_store_outcome| |by intros files' ->]. cbn beta. intros files1 store Hsame.
  apply (at_same present files files1 Hsame) in Hat. clear files Hsame.
  apply outcome_bind, outcome_lift; [|done]. intros record _.
  apply outcome_bind, outcome_lift; [|done]. intros [] Hpending%pending_staged_initially.
  apply outcome_bind, outcome_lift; [|done]. intros recovery _.
  apply outcome_bind. eapply outcome_mono; [by apply (open_transport_outcome present)| |by intros files' ->].
  cbn beta. intros files2 t [Hat2 Hw]. apply outcome_bind.
  eapply outcome_mono; [by apply run_cycle_outcome| |intros files'; apply at_present].
  cbn beta. intros files3 [[rs [record' store']] answer] Hat3.
  do 4 (apply outcome_bind, outcome_lift; [|intros; by apply at_present]; intros ? _). apply outcome_bind.
  eapply outcome_mono; [by apply load_remote_outcome| |intros files'; apply at_present].
  cbn beta. intros files4 remote Hat4. case_decide; by apply at_present.
Qed.

(** Staging the lost acknowledgement starts from an empty remote. *)
Lemma stage_lost_ack_outcome files_dir files :
  Acc None → (∀ root, past root) ∨ untouched (remote_path files) →
  outcome (stage_lost_ack files_dir) files (λ files' _, remote_at true files') (λ _, True).
Proof.
  intros Hnone Hclean. unfold stage_lost_ack. apply outcome_bind. unfold reset_remote, outcome at 1, on_field.
  destruct (reset_path _ (remote_path files)) as [root [u|e|]] eqn:Hr; [|done..]. apply reset_removes in Hr as [Hroot Hsame].
  apply outcome_bind. eapply outcome_mono; [apply stage_local_record_outcome| |done].
  cbn beta. intros files1 staged [Hpath Hinit]. apply outcome_bind.
  eapply outcome_mono; [apply (open_transport_outcome false)| |done].
  { split; [done|]. unfold remote_root. rewrite Hpath. cbn [remote_path with_remote_path]. rewrite Hroot. split; [done|].
    destruct Hclean as [Hall|Hall]; [auto|]. rewrite (Hsame Hall). intros r Hin. rewrite (Hall r) by (by right). auto. }
  cbn beta. intros files2 t [Hat Hw]. apply outcome_bind. eapply outcome_mono; [by apply run_cycle_outcome| |done].
  cbn beta. intros files3 [[rs [record store]] answer] Hat3. destruct (succeeds answer); [done|].
  apply outcome_bind, outcome_lift; [|done]. intros durable _. apply outcome_bind, outcome_lift; [|done]. intros v _.
  apply outcome_bind. eapply outcome_mono; [by apply load_remote_outcome| |done].
  cbn beta. intros files4 remote Hat4. by case_decide.
Qed.

(** A restart finds what the path may name, and the directory itself unless an
    earlier state of the parent is put back. *)
Lemma restarted_at reverts files files' :
  (reverts = true → ∀ root, past root → root_within Acc root) →
  restarted reverts files files' → remote_at (negb reverts) files → remote_at (negb reverts) files'.
Proof.
  intros Hback Hr (Hp & Hw & Hall). unfold remote_at, remote_root in *. destruct Hr as [[_ [[dev Hat] Hpast']]|[_ [Hpast' Hcrash]]].
  - rewrite Hat, Hpast'. split; [|split; [|done]].
    + intros Ht. by apply fmap_is_Some, Hp.
    + by destruct (at_path (remote_path files)).
  - destruct Hcrash as (root & Hin & Hcrash). rewrite Hpast'. assert (root_within Acc root ∧ (reverts = false → is_Some root)) as [Hroot Hsome].
    { apply elem_of_cons in Hin as [->|Hin]; [split; [done|]; intros ->; by apply Hp|].
      destruct reverts; [split; [by apply Hback, Hall|done]|by apply not_elem_of_nil in Hin]. }
    destruct root as [fs|], (at_path (remote_path files')) as [fs'|]; try done; (split; [|split; [|by intros ? ?%not_elem_of_nil]]).
    + done.
    + by eapply within_crash.
    + destruct reverts; [done|]. by destruct (Hsome eq_refl).
    + done.
Qed.
End remote.

(** ** What may happen after the response was lost

    A call that is cut short by the death of its process leaves what a device
    leaves that fails every call from there on, and the devices are arbitrary. *)
Inductive later (reverts : bool) : FilesDir → FilesDir → Prop :=
  | later_now files : later reverts files files
  | later_restart files files1 files' : restarted reverts files files1 → later reverts files1 files' → later reverts files files'
  | later_stage files_dir files files' : later reverts (stage files_dir files).1 files' → later reverts files files'
  | later_verify files files' : later reverts (verify files).1 files' → later reverts files files'
  | later_resume files files' : later reverts (resume_lost_ack files).1 files' → later reverts files files'.

Lemma later_at Acc (past : option Fs → Prop) reverts files files' :
  accepts_initial Acc → (Acc None → past None) → (reverts = true → ∀ root, past root → root_within Acc root) →
  later reverts files files' → remote_at Acc past (negb reverts) files → remote_at Acc past (negb reverts) files'.
Proof.
  intros Hacc Hpast Hback. induction 1 as [|files files1 files' Hr _ IH|files_dir files files' _ IH|files files' _ IH|files files' _ IH];
    [done|..]; intros Hat; apply IH; clear IH.
  - by eapply restarted_at.
  - apply (at_same _ _ _ files); [|done]. pose proof (stage_outcome files_dir files) as Ho. unfold outcome in Ho.
    by destruct (stage files_dir files) as [files1 [u|e|]].
  - apply (at_same _ _ _ files); [|done]. pose proof (verify_outcome files) as Ho. unfold outcome in Ho.
    by destruct (verify files) as [files1 [u|e|]].
  - pose proof (resume_lost_ack_outcome Acc past Hacc Hpast _ files Hat) as Ho. unfold outcome in Ho.
    by destruct (resume_lost_ack files) as [files1 [u|e|]].
Qed.

(** Both directories are there after a restart. *)
Definition survives (root root' : option Fs) : Prop :=
  match root, root' with
  | Some fs, Some fs' => restarts fs fs'
  | None, None => True
  | _, _ => False
  end.

(** *** Through the bridge *)
Context `{Locations} {JString JniError : Type} `{Display JniError}.
Context (get_string : JString → result JniError (list byte)) (new_string : list byte → option JString).
Implicit Types (bridge : Bridge) (path here : list byte).

(** What Java may do from here without staging the scenario again in the
    directory: any other native call, whose own directory lies apart or is that
    one under any name, and new processes, whose gate is closed. *)
Definition stages_lost_ack here (call : AndroidBridge.native_call (JString := JString)) : Prop :=
  ∃ files_dir path, call = AndroidBridge.StageLostAckProbe files_dir ∧ get_string files_dir = Ok path ∧ location path = here.

Inductive bridge_later (reverts : bool) here : Bridge → Bridge → Prop :=
  | bridge_now bridge : bridge_later reverts here bridge bridge
  | bridge_new_process bridge bridge1 bridge' :
      lifecycle bridge1 = false → restarted reverts (directories bridge here) (directories bridge1 here) →
      bridge_later reverts here bridge1 bridge' → bridge_later reverts here bridge bridge'
  | bridge_call call bridge bridge' :
      AndroidBridge.lies_apart get_string here call → ¬ stages_lost_ack here call →
      bridge_later reverts here (AndroidBridge.run_native get_string new_string call bridge) bridge' →
      bridge_later reverts here bridge bridge'.

(** A call whose probe runs in a directory. *)
Lemma probe_files here (path_of : stateful Bridge Failure (list byte))
    (probe : list byte → stateful FilesDir Failure (list byte)) bridge :
  (∀ bridge, (path_of bridge).1 = bridge) →
  let bridge' := (AndroidBridge.probe_result_string new_string
    (p ← path_of; AndroidBridge.in_directory p (probe p)) bridge).1 in
  (∃ path, (path_of bridge).2 = Ok path ∧ location path = here ∧
     directories bridge' here = (probe path (directories bridge here)).1) ∨
  ((∀ path, (path_of bridge).2 = Ok path → location path ≠ here) ∧ directories bridge' here = directories bridge here).
Proof.
  intros Hpath. pose proof (AndroidBridge.probe_effect new_string path_of probe bridge Hpath) as He. cbn zeta in *.
  destruct (path_of bridge) as [b [p|e|]]; cbn [snd] in *; rewrite He; [|by right..].
  cbn [directories]. destruct (decide (location p = here)) as [<-|Hne].
  - left. exists p. split; [done|]. split; [done|]. by rewrite fn_lookup_insert.
  - right. rewrite fn_lookup_insert_ne by done. split; [congruence|done].
Qed.

Lemma foreground_path_names files_dir bridge path :
  (AndroidBridge.foreground_probe_path get_string files_dir bridge).2 = Ok path → get_string files_dir = Ok path.
Proof.
  unfold AndroidBridge.foreground_probe_path, AndroidBridge.java_path. run_st. destruct (negb _); [done|]. cbn.
  destruct (get_string files_dir) as [text|e|]; cbn; [|done..]. case_decide; [done|]. congruence.
Qed.

Lemma native_files reverts call bridge here files' :
  ¬ stages_lost_ack here call →
  later reverts (directories (AndroidBridge.run_native get_string new_string call bridge) here) files' →
  later reverts (directories bridge here) files'.
Proof.
  intros Hcall. destruct call as [| |files_dir|files_dir|files_dir|files_dir]; cbn [AndroidBridge.run_native]; [done|done|..].
  - destruct (probe_files here (lift_result (AndroidBridge.java_path get_string files_dir)) stage bridge
      (AndroidBridge.java_path_state get_string files_dir)) as [(path & _ & _ & Hfiles)|[_ Hfiles]]; [|by rewrite <-Hfiles].
    unfold AndroidBridge.nativeStageRecoveryProbe. rewrite Hfiles. apply later_stage.
  - destruct (probe_files here (lift_result (AndroidBridge.java_path get_string files_dir)) (λ _, verify) bridge
      (AndroidBridge.java_path_state get_string files_dir)) as [(path & _ & _ & Hfiles)|[_ Hfiles]]; [|by rewrite <-Hfiles].
    unfold AndroidBridge.nativeVerifyRecoveryProbe. rewrite Hfiles. apply later_verify.
  - destruct (probe_files here (AndroidBridge.foreground_probe_path get_string files_dir) stage_lost_ack bridge
      (AndroidBridge.foreground_path_state get_string files_dir)) as [(path & Hpath & Hhere & _)|[_ Hfiles]]; [|by rewrite <-Hfiles].
    destruct Hcall. exists files_dir, path. split; [done|]. split; [by eapply foreground_path_names|done].
  - destruct (probe_files here (AndroidBridge.foreground_probe_path get_string files_dir) (λ _, resume_lost_ack) bridge
      (AndroidBridge.foreground_path_state get_string files_dir)) as [(path & _ & _ & Hfiles)|[_ Hfiles]]; [|by rewrite <-Hfiles].
    unfold AndroidBridge.nativeResumeLostAckProbe. rewrite Hfiles. apply later_resume.
Qed.

Lemma bridge_later_files reverts here bridge bridge' :
  bridge_later reverts here bridge bridge' → later reverts (directories bridge here) (directories bridge' here).
Proof.
  induction 1 as [|bridge bridge1 bridge' _ Hr _ IH|call bridge bridge' _ Hcall _ IH]; [constructor|..].
  - by eapply later_restart.
  - by eapply native_files.
Qed.

(** Staging the scenario from the foreground. *)
Lemma native_stage_lost_ack files_dir bridge path :
  get_string files_dir = Ok path → path ≠ [] → lifecycle bridge = true →
  directories (AndroidBridge.run_native get_string new_string (AndroidBridge.StageLostAckProbe files_dir) bridge) (location path) =
    (stage_lost_ack path (directories bridge (location path))).1.
Proof.
  intros Hpath Hne Hfg. assert ((AndroidBridge.foreground_probe_path get_string files_dir bridge).2 = Ok path) as Hp.
  { unfold AndroidBridge.foreground_probe_path, AndroidBridge.is_foreground, AndroidBridge.java_path. run_st.
    rewrite Hfg. cbn. rewrite Hpath. cbn. by rewrite decide_False. }
  destruct (probe_files (location path) (AndroidBridge.foreground_probe_path get_string files_dir) stage_lost_ack bridge
    (AndroidBridge.foreground_path_state get_string files_dir)) as [(path' & Hp' & _ & Hfiles)|[Hno _]].
  - rewrite Hp in Hp'. injection Hp' as <-. exact Hfiles.
  - by destruct (Hno path Hp).
Qed.
End scenarios.
