(* ===== verification/ProbeReopen.v ===== *)
(** * What a staged probe leaves on the disk

    Once the probe has staged its record, the store holds exactly one protected
    record, which passes the probe's own checks, and every restart finds it again
    (crates/apc-android-bridge/src/recovery_probe.rs, [stage] and [verify]). *)
From Stdlib Require Import Lia NArith Strings.Byte.
From stdpp Require Import base tactics option list gmap numbers functions.
From S2P Require Import Prelude Outcome BTree Bytes Id Durability Crypto Fs FsStorage FsLaws FsAllocate.
From S2P Require Import Recovery Transport Session RecordStore TrustedState TrustedStateSet PublicationSet RuntimeLaws RecoveryLaws.
From S2P Require Import Display ProbeRemote RecoveryProbe AndroidBridge ProbeLaws.
Local Open Scope N_scope.
Import recovery_probe.

Section reopen.
Context `{Aead} `{ErrorTexts}.
Implicit Types (fs : Fs) (files : FilesDir) (store : Store).

(** Bytes the probe's key opens to a record. *)
Definition opens_record (bytes : list byte) (record : DurableSyncRecord) : Prop :=
  ∃ clear, unprotect content_key (RECORD_CONTEXT_DOMAIN ++ PROBE_CONTEXT) bytes = Ok clear ∧
    decode_durable_sync_record clear = Ok record.

(** A store of which every restart reads one record, its candidates' numbers
    below the bound. *)
Definition record_disk (bound : N) (record : DurableSyncRecord) fs : Prop :=
  fs_ok fs ∧ below bound fs ∧ ∃ bytes, (∀ o, rec fs o → o = Some bytes) ∧ opens_record bytes record.

(** And that record is one the probe accepts as staged. *)
Definition pending_disk fs : Prop :=
  ∃ record, record_disk u64_max record fs ∧ validate_pending_committed record = Ok tt.

Lemma record_device bound record dev fs : record_disk bound record fs → record_disk bound record (with_device dev fs).
Proof. exact id. Qed.

Lemma record_restart bound record fs fs' : record_disk bound record fs → restarts fs fs' → record_disk bound record fs'.
Proof.
  intros (Hok & Hb & bytes & Hrec & Hopens) [[dev ->]|Hcrash]; [by apply record_device; split; [|split; [|exists bytes]]|].
  split; [by eapply crash_ok|]. split; [by eapply below_crash|]. exists bytes. split; [|done].
  intros o Ho. by eapply Hrec, crash_rec.
Qed.

Lemma pending_device dev fs : pending_disk fs → pending_disk (with_device dev fs).
Proof. exact id. Qed.

Lemma pending_restart fs fs' : pending_disk fs → restarts fs fs' → pending_disk fs'.
Proof. intros (record & Hd & Hv) Hr. exists record. split; [by eapply record_restart|done]. Qed.

(** A store of the probe's, over any backend. *)
Definition probe_store store : Prop := key store = content_key ∧ context store = PROBE_CONTEXT.

(** What a load of such a store answers. *)
Lemma load_disk bound record store :
  record_disk bound record (filesystem (backend store)) → probe_store store →
  let loaded := ProtectedSyncRecordStore.load_committed store in
  (loaded = Ok (Some record) ∨ loaded = Err (StoreBackend (Io OtherKind))) ∧
  (healthy (filesystem (backend store)) → loaded = Ok (Some record)).
Proof.
  intros (Hok & _ & bytes & Hrec & clear & Hu & Hd) [Hkey Hctx]. cbn zeta.
  destruct (proj2 Hok _ (snapshots_entries _)) as [o Ho].
  assert (o = Some bytes) as -> by (apply Hrec; by exists (entries (root_directory (filesystem (backend store)))); split; [left|]).
  apply read_committed_run in Ho as [Hload Hworks]. unfold ProtectedSyncRecordStore.load_committed.
  unfold ProtectedSyncRecordStore.protection_context. rewrite Hkey, Hctx.
  cbn [Durability.load_committed unix_fs_backend]. unfold UnixFsDurabilityBackend.load_committed.
  assert (∀ loaded, loaded = Ok (Some bytes) → (loaded ← map_err StoreBackend loaded;
    match loaded with
    | None => Ok None
    | Some protected =>
        clear ← map_err StoreProtection (unprotect content_key (RECORD_CONTEXT_DOMAIN ++ PROBE_CONTEXT) protected);
        record ← map_err StoreRecovery (decode_durable_sync_record clear);
        Ok (Some record)
    end : result (ProtectedSyncStoreError FsStorageError) _) = Ok (Some record)) as Hopens.
  { intros ? ->. cbn [map_err mbind result_bind]. rewrite Hu. cbn [map_err mbind result_bind]. by rewrite Hd. }
  split; [|intros Hw; by apply Hopens, Hworks]. destruct Hload as [Hl|Hl]; [left; by apply Hopens|right]. by rewrite Hl.
Qed.

Lemma load_pending store :
  pending_disk (filesystem (backend store)) → probe_store store →
  let loaded := ProtectedSyncRecordStore.load_committed store in
  ((∃ record, loaded = Ok (Some record) ∧ validate_pending_committed record = Ok tt) ∨
   loaded = Err (StoreBackend (Io OtherKind))) ∧
  (healthy (filesystem (backend store)) → is_ok loaded).
Proof.
  intros (record & Hd & Hv) Hs. destruct (load_disk _ _ _ Hd Hs) as [Hload Hworks]. split.
  - destruct Hload as [Hl|Hl]; [left; by exists record|by right].
  - intros Hl%Hworks. by eexists.
Qed.

(** ** Reopening *)
Definition verified : list byte := b_ "PASS reopened encrypted state; cursor/exposure/outbox intact".

(** The errors of a device that fails a call. *)
Definition device_error (error : Failure) : Prop :=
  error = b_ "open durability backend: " ++ display (Io OtherKind) ∨
  error = b_ "load committed record after restart: " ++
    display (StoreBackend (Io OtherKind) : ProtectedSyncStoreError FsStorageError).

Lemma open_pending fs :
  pending_disk fs →
  (∃ b, UnixFsDurabilityBackend.open fs = Ok b ∧ pending_disk (filesystem b)) ∨
  UnixFsDurabilityBackend.open fs = Err (Io OtherKind).
Proof.
  intros Hp. pose proof (open_spec fs) as Ho. destruct (UnixFsDurabilityBackend.open fs) as [b|e|] eqn:Hopen; [left|right|done].
  - exists b. split; [done|]. apply open_same in Hopen as [dev ->]. by apply pending_device.
  - destruct Ho as [[-> _]|(_ & name & Hname & Hs)]; [done|]. destruct Hp as (record & (_ & Hb & _) & _).
    specialize (Hb _ name _ (snapshots_entries _) Hname Hs). lia.
Qed.

Lemma open_store_pending files fs :
  probe_root files = Some fs → pending_disk fs →
  let '(files', opened) := open_store files in
  (∃ fs', probe_root files' = Some fs' ∧ pending_disk fs') ∧
  ((∃ store, opened = Ok store ∧ probe_store store ∧ pending_disk (filesystem (backend store)) ∧
      (healthy fs → healthy (filesystem (backend store)))) ∨
   (opened = Err (b_ "open durability backend: " ++ display (Io OtherKind)) ∧ ¬ healthy fs)).
Proof.
  intros Hfs Hp. unfold open_store, open_backend. run_st. rewrite Hfs. change (default _ (Some fs)) with fs.
  assert (healthy fs → ∃ b, UnixFsDurabilityBackend.open fs = Ok b ∧ healthy (filesystem b)) as Hopens
    by (intros Hd; destruct Hp as (record & (_ & Hb & _) & _); by apply open_works).
  destruct (open_pending fs Hp) as [(b & Hb & Hpb)|Hb]; rewrite Hb in *.
  - cbn. split; [by exists (filesystem b)|]. left. eexists. split; [reflexivity|]. split; [done|]. split; [done|].
    by intros (b' & [= <-] & Hd)%Hopens.
  - cbn. split; [by exists fs|]. right. split; [done|]. by intros (b' & [=] & _)%Hopens.
Qed.

Lemma verify_pending files fs :
  probe_root files = Some fs → pending_disk fs →
  let '(files', answer) := verify files in
  (∃ fs', probe_root files' = Some fs' ∧ pending_disk fs') ∧
  (answer = Ok verified ∨ ∃ error, answer = Err error ∧ device_error error) ∧
  (healthy fs → answer = Ok verified).
Proof.
  intros Hfs Hp. pose proof (open_store_pending files fs Hfs Hp) as Ho. unfold verify. rewrite st_bind.
  destruct (open_store files) as [files' opened]. destruct Ho as [Hp' [(store & -> & Hs & Hps & Hd)|[-> Hd]]].
  - destruct (load_pending store Hps Hs) as [Hload Hworks]. unfold load_record.
    rewrite !st_bind. destruct Hload as [(record & Hl & Hv)|Hl]; rewrite Hl in *; cbn [or_text map_err].
    + run_st. cbn [mbind result_bind ok_or]. rewrite Hv. split; [done|]. by split; [left|].
    + split; [done|]. split; [right; eexists; split; [reflexivity|by right]|]. by intros [? [=]]%Hd%Hworks.
  - cbn. split; [done|]. split; [right; eexists; split; [reflexivity|by left]|done].
Qed.

(** ** Staging *)

(** A handoff that was staged has committed a record. *)
Lemma staged_commits prepared rs record store rs' record' store' u :
  stage_prepared_recovery_handoff codec prepared (rs, (record, store)) = ((rs', (record', store')), Ok u) →
  ∃ next, persist next store = (store', Ok tt).
Proof.
  rewrite stage_recovery_eq. destruct (st_for_each _ _ rs) as [candidate [[]|e|]]; [|done..].
  destruct (encode_trusted codec candidate) as [bytes|e|]; [|done..].
  rewrite swap_after_cases, stage_outbound_transition, run_transition_cases.
  destruct (staged _) as [next|e|]; cbn [map_err]; [|done..].
  destruct (persist next store) as [store2 [[]|e|]] eqn:Hp; [|done..]. intros [= _ _ <- _]. by exists next.
Qed.

(** What a successful [persist] has committed. *)
Lemma persisted next store store' :
  probe_store store → fs_ok (filesystem (backend store)) → persist next store = (store', Ok tt) →
  probe_store store' ∧ fs_ok (filesystem (backend store')) ∧
  ∃ clear gen bytes, encode_durable_sync_record next = Ok clear ∧
    protect gen content_key (RECORD_CONTEXT_DOMAIN ++ PROBE_CONTEXT) clear = Ok bytes ∧
    commit_durable bytes (backend store) = (backend store', Ok tt) ∧
    ∀ o, rec (filesystem (backend store')) o → o = Some bytes.
Proof.
  intros [Hkey Hctx] Hok Hp. pose proof (persist_cases next store) as Hc.
  unfold persist, protected_record_store in Hp. rewrite Hp in Hc.
  destruct Hc as (Hk & Hx & [[_ Hn]|(clear & gen & bytes & Henc & Hpr & Hcom)]); [by destruct Hn; exists tt|].
  split; [split; congruence|].
  pose proof (commit_prefix_safe (B := UnixFsDurabilityBackend) (S := list byte) 4 bytes (backend store) Hok) as [Hok' _].
  rewrite commit_prefix_full, Hcom in Hok'. cbn [fst] in Hok'. split; [exact Hok'|].
  unfold ProtectedSyncRecordStore.protection_context in Hpr. rewrite Hkey, Hctx in Hpr.
  exists clear, gen, bytes. split; [exact Henc|]. split; [exact Hpr|]. split; [exact Hcom|].
  intros o Ho. eapply commit_durable_ack; [exact Hok|exact Hcom|]. by apply recoverable_rec.
Qed.

(** A fresh store that has committed a record the probe accepts. *)
Lemma committed_pending next store store' record :
  probe_store store → fs_ok (filesystem (backend store)) → below u64_max (filesystem (backend store)) →
  persist next store = (store', Ok tt) → ProtectedSyncRecordStore.load_committed store' = Ok (Some record) →
  validate_pending_committed record = Ok tt → pending_disk (filesystem (backend store')).
Proof.
  intros Hs Hok Hb Hp Hl Hv.
  destruct (persisted next store store' Hs Hok Hp) as ([Hkey Hctx] & Hok' & clear & gen & bytes & _ & _ & Hcom & Hrec).
  pose proof (commit_below_last bytes (backend store) Hb) as Hb'. rewrite Hcom in Hb'.
  destruct (proj2 Hok' _ (snapshots_entries _)) as [o Ho].
  assert (o = Some bytes) as ->
    by (apply Hrec; by exists (entries (root_directory (filesystem (backend store')))); split; [left|]).
  apply read_committed_run in Ho as [Hload _]. unfold ProtectedSyncRecordStore.load_committed in Hl.
  unfold ProtectedSyncRecordStore.protection_context in Hl. rewrite Hkey, Hctx in Hl.
  cbn [Durability.load_committed unix_fs_backend] in Hl. unfold UnixFsDurabilityBackend.load_committed in Hl.
  destruct Hload as [Hload|Hload]; rewrite Hload in Hl; [|done]. cbn [map_err mbind result_bind] in Hl.
  apply bind_Ok in Hl as (clear' & Hu%map_err_Ok & Hl). apply bind_Ok in Hl as (r & Hd%map_err_Ok & [= ->]).
  exists record. split; [|done]. split; [exact Hok'|]. split; [exact Hb'|]. exists bytes. split; [exact Hrec|]. by exists clear'.
Qed.

(** A store without files. *)
Definition fresh_backend (b : UnixFsDurabilityBackend) : Prop :=
  fs_ok (filesystem b) ∧ entries (objects_directory (filesystem b)) = ∅ ∧ next_candidate b = 0 ∧ below 0 (filesystem b).

Lemma open_fresh dev b : UnixFsDurabilityBackend.open (fs_new dev) = Ok b → fresh_backend b.
Proof.
  intros Hopen. pose proof (open_spec (fs_new dev)) as Ho. rewrite Hopen in Ho. destruct Ho as (_ & _ & _ & _ & Hnext).
  apply open_same in Hopen as [dev' Hsame]. unfold fresh_backend. rewrite Hsame.
  split; [apply fs_new_ok|]. split; [done|]. split; [|apply below_new].
  destruct (decide (next_candidate b = 0)) as [|Hne]; [done|]. destruct (Hnext Hne) as (name & Hname & _).
  revert Hname. cbn. rewrite dom_empty_L. by intros ?%not_elem_of_empty.
Qed.

Lemma open_fresh_root dev b : UnixFsDurabilityBackend.open (fs_new dev) = Ok b → entries (root_directory (filesystem b)) = ∅.
Proof. by intros [dev' ->]%open_same. Qed.

Lemma open_store_fresh files :
  probe_root files = None →
  outcome open_store files (λ files' store, remote_root files' = remote_root files ∧
    probe_path files' = kept_at (filesystem (backend store)) (probe_path files) ∧
    probe_store store ∧ fresh_backend (backend store)) (λ _, True).
Proof.
  intros Hfs. unfold open_store, open_backend. apply outcome_get. rewrite Hfs. apply outcome_bind, outcome_lift; [|done].
  intros b Hb%map_err_Ok%open_fresh. apply outcome_bind, outcome_lift; [|done].
  intros store Hs%map_err_Ok. unfold ProtectedSyncRecordStore.new in Hs. rewrite decide_False in Hs by done.
  by injection Hs as <-.
Qed.

Lemma stage_pending files_dir files :
  outcome (stage files_dir) files (λ files' _, (∃ fs, probe_root files' = Some fs ∧ pending_disk fs) ∧
    (untouched (probe_path files) → ∀ root, root ∈ unsynced_past (probe_path files') → root = None)) (λ _, True).
Proof.
  unfold stage, stage_local_record. apply outcome_bind, outcome_bind. unfold reset_probe, outcome at 1, on_field.
  destruct (reset_path _ (probe_path files)) as [root [u|e|]] eqn:Hr; [|done..]. apply reset_removes in Hr as [Hroot Hsame].
  do 3 (apply outcome_bind, outcome_lift; [|done]; intros ? _).
  apply outcome_bind. eapply outcome_mono; [by apply open_store_fresh| |done]. cbn beta.
  intros files1 store (_ & Hpath & Hs & Hok & _ & _ & Hb). apply outcome_bind, outcome_lift; [|done]. intros key _.
  unfold ProtectedSyncRecordStore.draw. run_st. cbn beta iota. run_st.
  do 2 (apply outcome_bind, outcome_lift; [|done]; intros ? _).
  match goal with |- context [stage_prepared_recovery_handoff codec ?p (?rs, (?r, ?s))] =>
    pose proof (staged_commits p rs r s) as Hcommits end.
  destruct (stage_prepared_recovery_handoff _ _ _) as [[rs' [record' store']] staged].
  apply outcome_bind. unfold outcome at 1. cbn beta iota zeta delta [keep_store].
  apply outcome_bind, outcome_lift; [|done]. intros [] Hstaged%map_err_Ok. subst staged.
  destruct (Hcommits _ _ _ _ eq_refl) as [next Hp].
  apply outcome_bind, outcome_lift; [|done]. intros record Hrecord.
  apply outcome_bind, outcome_lift; [|done]. intros [] Hv. split.
  2:{ intros Hclean. cbn. rewrite Hpath. cbn. rewrite Hroot, (Hsame Hclean). intros r [->|Hin]%elem_of_cons; [done|].
    apply Hclean. by right. }
  exists (filesystem (backend store')). split; [done|].
  apply bind_Ok in Hrecord as (loaded & Hl%map_err_Ok & ->%ok_or_Ok).
  eapply committed_pending; [| | |exact Hp|exact Hl|exact Hv]; [exact Hs|exact Hok|by eapply below_mono; [|exact Hb]].
Qed.

(** ** A path that may have lost its store *)

(** A store of which every restart reads no record. *)
Definition empty_store fs : Prop := fs_ok fs ∧ below u64_max fs ∧ ∀ o, rec fs o → o = None.

Lemma empty_new dev : empty_store (fs_new dev).
Proof.
  split; [apply fs_new_ok|]. split; [apply below_new|]. intros o (R & ->%list_elem_of_singleton & Ho).
  unfold committed in Ho. cbn in Ho. by rewrite lookup_empty in Ho.
Qed.

Lemma empty_crash fs fs' : empty_store fs → fs_crash fs fs' → empty_store fs'.
Proof.
  intros (Hok & Hb & Hrec) Hcrash. split; [by eapply crash_ok|]. split; [by eapply below_crash|].
  intros o Ho. by eapply Hrec, crash_rec.
Qed.

(** The staged record, a store without one, or nothing. *)
Definition may_find (root : option Fs) : Prop :=
  match root with
  | Some fs => pending_disk fs ∨ empty_store fs
  | None => True
  end.

Lemma may_find_kept dev root : may_find root → may_find (with_device dev <$> root).
Proof. by destruct root. Qed.

Lemma may_find_crash root root' : may_find root → root_crash root root' → may_find root'.
Proof.
  destruct root as [fs|], root' as [fs'|]; try done. intros [Hp|He] Hcrash.
  - left. eapply pending_restart; [done|by right].
  - right. by eapply empty_crash.
Qed.

(** What verifying such a path answers. *)
Definition no_probe : list byte := b_ "no committed recovery probe exists".

Lemma load_empty store :
  empty_store (filesystem (backend store)) →
  ProtectedSyncRecordStore.load_committed store = Ok None ∨
  ProtectedSyncRecordStore.load_committed store = Err (StoreBackend (Io OtherKind)).
Proof.
  intros (Hok & _ & Hrec). destruct (proj2 Hok _ (snapshots_entries _)) as [o Ho].
  assert (o = None) as -> by (apply Hrec; by exists (entries (root_directory (filesystem (backend store)))); split; [left|]).
  apply read_committed_run in Ho as [Hload _]. unfold ProtectedSyncRecordStore.load_committed.
  cbn [Durability.load_committed unix_fs_backend]. unfold UnixFsDurabilityBackend.load_committed.
  by destruct Hload as [-> | ->]; [left|right].
Qed.

Lemma open_store_eq files :
  open_store files =
  match UnixFsDurabilityBackend.open (default (fs_new (fresh_device files)) (probe_root files)) with
  | Ok b => (FilesDir_mk (kept_at (filesystem b) (probe_path files)) (remote_path files) (fresh_device files) (system_entropy files),
      Ok (ProtectedSyncRecordStore_mk b content_key PROBE_CONTEXT (system_entropy files)))
  | Err e => (files, Err (b_ "open durability backend: " ++ display e))
  | Panic => (files, Panic)
  end.
Proof. unfold open_store, open_backend. run_st. by destruct (UnixFsDurabilityBackend.open _). Qed.

Lemma verify_empty files :
  empty_store (default (fs_new (fresh_device files)) (probe_root files)) →
  let '(files', answer) := verify files in
  may_find (probe_root files') ∧ ∃ error, answer = Err error ∧ (error = no_probe ∨ device_error error).
Proof.
  intros He. unfold verify. rewrite st_bind, open_store_eq. set (fs := default _ _) in *.
  pose proof (open_spec fs) as Ho. destruct (UnixFsDurabilityBackend.open fs) as [b|e|] eqn:Hopen; [| |done].
  - apply open_same in Hopen as [dev Hb]. clear Ho. rewrite st_bind.
    set (store := ProtectedSyncRecordStore_mk _ _ _ _).
    assert (empty_store (filesystem (backend store))) as He' by (cbn; by rewrite Hb).
    unfold load_record. cbn [backend store] in *. destruct (load_empty store He') as [Hl|Hl]; rewrite Hl; cbn.
    + split; [by right|]. eexists. split; [reflexivity|by left].
    + split; [by right|]. eexists. split; [reflexivity|right; by right].
  - split.
    + subst fs. destruct (probe_root files); [by right|done].
    + destruct Ho as [[-> _]|(_ & name & Hname & Hs)]; [eexists; split; [reflexivity|right; by left]|].
      destruct He as (_ & Hb & _). specialize (Hb _ name _ (snapshots_entries _) Hname Hs). lia.
Qed.

Lemma verify_found files :
  may_find (probe_root files) →
  let '(files', answer) := verify files in
  may_find (probe_root files') ∧
  (answer = Ok verified ∨ ∃ error, answer = Err error ∧ (error = no_probe ∨ device_error error)).
Proof.
  intros Hf. pose proof (verify_pending files) as Hp. pose proof (verify_empty files) as He.
  destruct (verify files) as [files' answer]. destruct (probe_root files) as [fs|] eqn:Hfs.
  - destruct Hf as [Hf|Hf].
    + destruct (Hp fs eq_refl Hf) as ((fs' & -> & Hp') & Ha & _). split; [by left|]. naive_solver.
    + destruct (He Hf) as [? ?]. auto.
  - destruct (He (empty_new _)) as [? ?]. auto.
Qed.

(** Verifying adds to the past at most that the store was missing. *)
Lemma verify_past files root :
  root ∈ unsynced_past (probe_path (verify files).1) → root ∈ unsynced_past (probe_path files) ∨ root = None.
Proof.
  assert (∀ P : FilesDir → Prop, P files → (∀ fs entropy, P (FilesDir_mk (kept_at fs (probe_path files)) (remote_path files)
    (fresh_device files) entropy)) → P (verify files).1) as Hverify.
  { intros P Hnow Hkept. assert (outcome verify files (λ files' _, P files') P) as Ho.
    { unfold verify. apply outcome_bind. unfold open_store at 1. apply outcome_get, outcome_bind, outcome_lift; [|done].
      intros b _. apply outcome_bind, outcome_lift; [|done]. intros store _. unfold outcome at 1. cbn.
      apply outcome_bind, outcome_lift; [|done]. intros record _. apply outcome_bind, outcome_lift; [|done]. intros u _.
      by apply outcome_ret. }
    unfold outcome in Ho. by destruct (verify files) as [files' [text|e|]]. }
  apply (Hverify (λ files', root ∈ unsynced_past (probe_path files') → _)); [by left|]. intros fs entropy. cbn.
  destruct (at_path (probe_path files)); [by left|]. intros [->|Hin]%elem_of_cons; auto.
Qed.

(** ** Restarts and verifications, in any order *)
Inductive reopened (reverts : bool) : FilesDir → FilesDir → Prop :=
  | reopened_now files : reopened reverts files files
  | reopened_restart files files1 files' :
      restarted reverts files files1 → reopened reverts files1 files' → reopened reverts files files'
  | reopened_verify files files' : reopened reverts (verify files).1 files' → reopened reverts files files'.

(** A restart that puts no earlier state of the parent back keeps the record. *)
Lemma restarted_pending files files' fs :
  restarted false files files' → probe_root files = Some fs → pending_disk fs →
  ∃ fs', probe_root files' = Some fs' ∧ pending_disk fs'.
Proof.
  unfold probe_root. intros [[[[dev Hat] _] _]|[(_ & root & Hin & Hcrash) _]] Hfs Hp; rewrite Hfs in *.
  - exists (with_device dev fs). by split; [|apply pending_device].
  - apply list_elem_of_singleton in Hin as ->. destruct (at_path (probe_path files')) as [fs'|]; [|done].
    exists fs'. split; [done|]. eapply pending_restart; [done|by right].
Qed.

Lemma reopened_pending files files' fs :
  reopened false files files' → probe_root files = Some fs → pending_disk fs →
  ∃ fs', probe_root files' = Some fs' ∧ pending_disk fs'.
Proof.
  intros Hr. revert fs. induction Hr as [|files files1 files' Hs _ IH|files files' _ IH]; intros fs Hfs Hp; [by eauto|..].
  - destruct (restarted_pending _ _ _ Hs Hfs Hp) as (fs1 & Hfs1 & Hp1). by apply (IH fs1).
  - pose proof (verify_pending files fs Hfs Hp) as Hv. destruct (verify files) as [files1 answer].
    destruct Hv as [(fs1 & Hfs1 & Hp1) _]. by apply (IH fs1).
Qed.

(** Any restart finds the record, a store without one, or nothing, where a
    power loss can bring back nothing else. *)
Definition may_find_at files : Prop :=
  may_find (probe_root files) ∧ ∀ root, root ∈ unsynced_past (probe_path files) → root = None.

Lemma restarted_found reverts files files' : restarted reverts files files' → may_find_at files → may_find_at files'.
Proof.
  unfold may_find_at, probe_root. intros [[[[dev Hat] Hpast] _]|[(Hpast & root & Hin & Hcrash) _]] [Hf Hall]; rewrite Hpast.
  - rewrite Hat. split; [by apply may_find_kept|done].
  - split; [|by intros ? ?%not_elem_of_nil]. eapply may_find_crash; [|done].
    apply elem_of_cons in Hin as [->|Hin]; [done|]. destruct reverts; [by rewrite (Hall root Hin)|by apply not_elem_of_nil in Hin].
Qed.

Lemma reopened_found reverts files files' : reopened reverts files files' → may_find_at files → may_find_at files'.
Proof.
  induction 1 as [|files files1 files' Hs _ IH|files files' _ IH]; intros Hf; [done|..]; apply IH; clear IH.
  - by eapply restarted_found.
  - destruct Hf as [Hf Hall]. pose proof (verify_found files Hf) as Hv. split.
    + destruct (verify files) as [files1 answer]. exact (proj1 Hv).
    + intros root Hin. by destruct (verify_past files root Hin) as [Hpast| ->]; [apply Hall|].
Qed.

(** *** Through the bridge *)
Context `{Locations} {JString JniError : Type} `{Display JniError}.
Context (get_string : JString → result JniError (list byte)) (new_string : list byte → option JString).
Implicit Types (bridge : Bridge) (path here : list byte).

(** What Java may do without writing to the staged store: any native call but
    the three that stage or resume in its directory, and new processes. *)
Definition writes_store here (call : AndroidBridge.native_call (JString := JString)) : Prop :=
  match call with
  | AndroidBridge.StageRecoveryProbe files_dir | AndroidBridge.StageLostAckProbe files_dir
  | AndroidBridge.ResumeLostAckProbe files_dir => ∃ path, get_string files_dir = Ok path ∧ location path = here
  | _ => False
  end.

Inductive bridge_reopens (reverts : bool) here : Bridge → Bridge → Prop :=
  | reopens_now bridge : bridge_reopens reverts here bridge bridge
  | reopens_new_process bridge bridge1 bridge' :
      lifecycle bridge1 = false → restarted reverts (directories bridge here) (directories bridge1 here) →
      bridge_reopens reverts here bridge1 bridge' → bridge_reopens reverts here bridge bridge'
  | reopens_call call bridge bridge' :
      AndroidBridge.lies_apart get_string here call → ¬ writes_store here call →
      bridge_reopens reverts here (AndroidBridge.run_native get_string new_string call bridge) bridge' →
      bridge_reopens reverts here bridge bridge'.

Lemma java_path_names files_dir bridge path :
  (lift_result (E := Failure) (AndroidBridge.java_path get_string files_dir) bridge).2 = Ok path → get_string files_dir = Ok path.
Proof.
  cbn. unfold AndroidBridge.java_path. destruct (get_string files_dir) as [text|e|]; cbn; [|done..].
  case_decide; [done|]. congruence.
Qed.

Lemma reopening_call reverts call bridge here files' :
  ¬ writes_store here call →
  reopened reverts (directories (AndroidBridge.run_native get_string new_string call bridge) here) files' →
  reopened reverts (directories bridge here) files'.
Proof.
  intros Hcall. destruct call as [| |files_dir|files_dir|files_dir|files_dir];
    cbn [AndroidBridge.run_native writes_store] in *; [done|done|..].
  - destruct (probe_files new_string here (lift_result (AndroidBridge.java_path get_string files_dir)) stage bridge
      (AndroidBridge.java_path_state get_string files_dir)) as [(path & Hp%java_path_names & Hhere & _)|[_ Hfiles]];
      [destruct Hcall; by exists path|by rewrite <-Hfiles].
  - destruct (probe_files new_string here (lift_result (AndroidBridge.java_path get_string files_dir)) (λ _, verify) bridge
      (AndroidBridge.java_path_state get_string files_dir)) as [(path & _ & _ & Hfiles)|[_ Hfiles]]; [|by rewrite <-Hfiles].
    unfold AndroidBridge.nativeVerifyRecoveryProbe. rewrite Hfiles. apply reopened_verify.
  - destruct (probe_files new_string here (AndroidBridge.foreground_probe_path get_string files_dir) stage_lost_ack bridge
      (AndroidBridge.foreground_path_state get_string files_dir)) as [(path & Hp%foreground_path_names & Hhere & _)|[_ Hfiles]];
      [destruct Hcall; by exists path|by rewrite <-Hfiles].
  - destruct (probe_files new_string here (AndroidBridge.foreground_probe_path get_string files_dir) (λ _, resume_lost_ack) bridge
      (AndroidBridge.foreground_path_state get_string files_dir)) as [(path & Hp%foreground_path_names & Hhere & _)|[_ Hfiles]];
      [destruct Hcall; by exists path|by rewrite <-Hfiles].
Qed.

Lemma bridge_reopens_files reverts here bridge bridge' :
  bridge_reopens reverts here bridge bridge' → reopened reverts (directories bridge here) (directories bridge' here).
Proof.
  induction 1 as [|bridge bridge1 bridge' _ Hs _ IH|call bridge bridge' _ Hcall _ IH]; [constructor|..].
  - by eapply reopened_restart.
  - by eapply reopening_call.
Qed.

(** A path with a name is the one its probe is given. *)
Lemma java_path_eq files_dir path :
  get_string files_dir = Ok path → path ≠ [] → AndroidBridge.java_path get_string files_dir = Ok path.
Proof. intros Hpath Hne. unfold AndroidBridge.java_path. rewrite Hpath. cbn. by rewrite decide_False. Qed.

(** The two calls, in a directory with a name. *)
Lemma native_stage files_dir bridge path :
  get_string files_dir = Ok path → path ≠ [] →
  directories (AndroidBridge.run_native get_string new_string (AndroidBridge.StageRecoveryProbe files_dir) bridge) (location path) =
    (stage path (directories bridge (location path))).1.
Proof.
  intros Hpath Hne. pose proof (java_path_eq files_dir path Hpath Hne) as Hp.
  destruct (probe_files new_string (location path) (lift_result (AndroidBridge.java_path get_string files_dir)) stage bridge
    (AndroidBridge.java_path_state get_string files_dir)) as [(path' & Hp' & _ & Hfiles)|[Hno _]].
  - cbn in Hp'. rewrite Hp in Hp'. injection Hp' as <-. exact Hfiles.
  - by destruct (Hno path Hp).
Qed.

Lemma native_verify files_dir bridge path :
  get_string files_dir = Ok path → path ≠ [] →
  (AndroidBridge.nativeVerifyRecoveryProbe get_string new_string files_dir bridge).2 =
    match (verify (directories bridge (location path))).2 with
    | Ok text => Ok (new_string text)
    | Err error => Ok (new_string (b_ "FAIL " ++ error))
    | Panic => Panic
    end.
Proof.
  intros Hpath Hne. unfold AndroidBridge.nativeVerifyRecoveryProbe, AndroidBridge.probe_result_string.
  rewrite st_bind, (java_path_eq files_dir path) by done. unfold AndroidBridge.in_directory, on_field. cbn.
  by destruct (verify _) as [files [text|e|]].
Qed.
End reopen.
