(* ===== verification/ProbeResume.v ===== *)
(** * Resuming the lost acknowledgement

    What the staging call leaves on both disks, and that the next process, on
    devices that work, settles it by refetching: what [stage_lost_ack] and
    [resume_lost_ack] promise together
    (crates/apc-android-bridge/src/recovery_probe.rs). *)
From Stdlib Require Import Lia NArith Strings.Byte.
From stdpp Require Import base tactics option list gmap numbers functions.
From S2P Require Import Prelude Outcome BTree Bytes Id Error Scalar Causal Merge ScalarMerge Working Finalization Domain Reader.
From S2P Require Import RegisterCodec Projection Codec Crypto Protected Wire.
From S2P Require Import Durability Fs FsRecovery FsStorage FsLaws FsAllocate.
From S2P Require Import Recovery Transport Session Batch RecordStore TrustedState TrustedStateSet PublicationSet CatchupSet.
From S2P Require Import ResumeSet ResumeRecovery ForegroundRecovery SessionRuns RuntimeLaws ResumeSetLaws RecoveryLaws.
From S2P Require Import CatchupSetLaws ResumeRecoveryLaws.
From S2P Require Import Display ProbeRemote RecoveryProbe AndroidBridge ProbeLaws ProbeReopen.
Local Open Scope N_scope.
Import recovery_probe.

(** ** The probe's fixed states, evaluated *)
Section fixed.

Definition selection (key : DomainKey) : gmap DomainKey (gset RevisionId) := {[ key := {[ rid 200 ]} ]}.
Definition cursor_of (head : N) : TransportCursor := TransportCursor_mk (be_bytes 8 head).

(** What the calls compute from no input: the state before the staging, the one
    staged, what is published of it, and the one after the device has observed
    its own publication. *)
Record FixedStates : Type := FixedStates_mk {
  fixed_key : DomainKey;
  initial_state : LocalScalarRecoveryState;
  initial_bytes : list byte;
  published_domains : gmap DomainKey (ScalarRegister (list byte));
  published_bytes : list byte;
  staged_state : LocalScalarRecoveryState;
  staged_bytes : list byte;
  combined_domains : gmap DomainKey (ScalarRegister (list byte));
  settled : Observation;
  settled_bytes : list byte;
}.

Context `{Aead} `{ErrorTexts}.
Notation Foreground := (ForegroundTransport ProbeTransport).
Notation expose := (expose_domain (St := Store) (C := DevelopmentMultiScalarTrustedStateCodec)).
Notation observe := (observe_domain (St := Store) (Tr := Foreground) (TC := DevelopmentMultiScalarTrustedStateCodec)
  (CC := ProbeCursorCodec)).

(** The states are those of the calls. *)
Definition computes (s : FixedStates) : Prop :=
  domain_key (E := Failure) = Ok (fixed_key s) ∧
  initial_recovery = Ok (initial_state s) ∧
  encode_trusted codec (initial_state s) = Ok (initial_bytes s) ∧
  try_fold (project_domain (initial_state s)) ∅ (entries_asc (selection (fixed_key s))) = Ok (published_domains s) ∧
  encode_scalar_projection (SyncProjection.from_domains (published_domains s)) = Ok (published_bytes s) ∧
  st_for_each expose (entries_asc (selection (fixed_key s))) (initial_state s) = (staged_state s, Ok tt) ∧
  encode_trusted codec (staged_state s) = Ok (staged_bytes s) ∧
  try_fold SyncProjection.merge SyncProjection.new [SyncProjection.from_domains (published_domains s)] =
    Ok (SyncProjection_mk (combined_domains s)) ∧
  st_for_each (observe ∅) (entries_asc (combined_domains s)) (Observation_mk (staged_state s) ∅ ∅) = (settled s, Ok tt) ∧
  encode_trusted codec (candidate (settled s)) = Ok (settled_bytes s).

Definition fixed_states : option FixedStates :=
  key ← result_value (domain_key (E := Failure));
  initial ← result_value initial_recovery;
  initial_bytes ← result_value (encode_trusted codec initial);
  published ← result_value (try_fold (project_domain initial) ∅ (entries_asc (selection key)));
  published_bytes ← result_value (encode_scalar_projection (SyncProjection.from_domains published));
  let '(staged, exposed) := st_for_each expose (entries_asc (selection key)) initial in
  _ ← result_value exposed;
  staged_bytes ← result_value (encode_trusted codec staged);
  combined ← result_value (try_fold SyncProjection.merge SyncProjection.new [SyncProjection.from_domains published]);
  let '(settled, observed) := st_for_each (observe ∅) (entries_asc (domains combined)) (Observation_mk staged ∅ ∅) in
  _ ← result_value observed;
  settled_bytes ← result_value (encode_trusted codec (candidate settled));
  Some (FixedStates_mk key initial initial_bytes published published_bytes staged staged_bytes (domains combined) settled
    settled_bytes).

Lemma fixed_computes s : fixed_states = Some s → computes s.
Proof.
  unfold fixed_states, computes. intros Hs.
  repeat match type of Hs with
  | (result_value ?r ≫= _) = _ =>
      let E := fresh "E" in destruct r as [?x|?e|] eqn:E; [|done..]; cbn [result_value mbind option_bind] in Hs
  | (let '(_, _) := ?m in _) = _ => let E := fresh "E" in destruct m as [?st ?res] eqn:E
  end.
  injection Hs as <-.
  cbn [fixed_key initial_state initial_bytes published_domains published_bytes staged_state staged_bytes
    combined_domains settled settled_bytes]. destruct x4, x6, x7. split_and!; (assumption || reflexivity).
Qed.

(** What holds of them. *)
Definition fixed_fits (s : FixedStates) : bool :=
  bool_decide (len (published_bytes s) ≤ 2 ^ 12) && bool_decide (len (staged_bytes s) ≤ 2 ^ 12) &&
  bool_decide (len (settled_bytes s) ≤ 2 ^ 12) && bool_decide (published_domains s ≠ ∅) &&
  match decode_scalar_projection (published_bytes s) with
  | Ok p => bool_decide (domains p = published_domains s)
  | _ => false
  end &&
  match decode_trusted codec (staged_bytes s) with Ok rs => bool_decide (rs = staged_state s) | _ => false end &&
  projection_is_observed (SyncProjection.from_domains (published_domains s)) (observed_ids (settled s)) &&
  succeeds (validate_reconciled_committed
    (DurableSyncRecord_mk (settled_bytes s) (Some (cursor_of PROBE_ACCEPTED_HEAD)) ∅)).

Lemma fixed_checked : match fixed_states with Some s => fixed_fits s | None => false end = true.
Proof. vm_compute. reflexivity. Qed.
End fixed.

(** ** Records and objects *)
Section records.
Context `{AeadLaws} `{ErrorTexts}.
Implicit Types (s : FixedStates) (wire st : list byte) (store : Store).

Notation published s := (SyncProjection.from_domains (published_domains s) : ScalarSyncProjection).

(** The one object of the publication, and the record that holds it. *)
Definition staged_wire s wire : Prop :=
  ∃ gen part, protect_scalar_part gen content_key (cid 1) (pid 7) 0 1 (published s) = Ok part ∧
    encode_protected_sync_part part = Ok wire.

Definition staged_outbox wire : gmap PublicationId DurableOutboxEntry :=
  {[ pid 7 := DurableOutboxEntry_mk (pid 7) (Some (cursor_of PROBE_INITIAL_HEAD)) [wire] ]}.
Definition staged_record s wire : DurableSyncRecord :=
  DurableSyncRecord_mk (staged_bytes s) (Some (cursor_of PROBE_INITIAL_HEAD)) (staged_outbox wire).

(** The records after the reception and after the settlement. *)
Definition received_record s wire : DurableSyncRecord :=
  DurableSyncRecord_mk (settled_bytes s) (Some (cursor_of PROBE_ACCEPTED_HEAD)) (staged_outbox wire).
Definition settled_record s : DurableSyncRecord :=
  DurableSyncRecord_mk (settled_bytes s) (Some (cursor_of PROBE_ACCEPTED_HEAD)) ∅.

Record fixed_facts s : Prop := {
  published_small : len (published_bytes s) ≤ 2 ^ 12;
  staged_small : len (staged_bytes s) ≤ 2 ^ 12;
  settled_small : len (settled_bytes s) ≤ 2 ^ 12;
  published_valid : projection_valid (published s);
  staged_decodes : decode_trusted codec (staged_bytes s) = Ok (staged_state s);
  published_observed : projection_is_observed (published s) (observed_ids (settled s)) = true;
  settled_accepted : validate_reconciled_committed (settled_record s) = Ok tt;
}.

Lemma fixed_exists : ∃ s, computes s ∧ fixed_facts s.
Proof.
  pose proof fixed_checked as Hf. destruct fixed_states as [s|] eqn:Hs; [|done]. exists s.
  split; [by apply fixed_computes|]. clear Hs. unfold fixed_fits in Hf.
  repeat match type of Hf with _ && _ = true => apply andb_true_iff in Hf as [Hf ?] end.
  destruct (decode_scalar_projection (published_bytes s)) as [p|e|] eqn:Hp; [|done..].
  destruct (decode_trusted codec (staged_bytes s)) as [rs|e|] eqn:Hrs; [|done..].
  destruct (succeeds_Ok _ H2) as [[] Hsettled].
  split; [by apply bool_decide_eq_true_1 in Hf|by apply bool_decide_eq_true_1 in H8|by apply bool_decide_eq_true_1 in H7|..
    |exact H3|exact Hsettled].
  - apply decode_projection_valid in Hp. apply bool_decide_eq_true_1 in H5. unfold SyncProjection.from_domains.
    rewrite <-H5.
    by destruct p.
  - apply bool_decide_eq_true_1 in H4. by rewrite Hrs, H4.
Qed.

Lemma len_cursor head : len (cursor_bytes (cursor_of head)) = 8.
Proof. apply len_be_bytes. Qed.

Lemma cursor_of_fits head : cursor_fits (Some (cursor_of head)).
Proof. intros c [= <-]. rewrite len_cursor. done. Qed.

Lemma cursor_of_ok head : cursor_ok (Some (cursor_of head)).
Proof. intros c [= <-] Hnil. pose proof (len_cursor head) as Hl. by rewrite Hnil in Hl. Qed.

Lemma staged_wire_small s wire : fixed_facts s → computes s → staged_wire s wire → len wire ≤ 2 ^ 13 ∧ wire ≠ [].
Proof.
  intros Hf (_ & _ & _ & _ & Henc & _) (gen & part & Hpart & (_ & _ & ->)%encode_part_Ok).
  pose proof (published_small s Hf) as Hsmall. unfold protect_scalar_part in Hpart. cbn zeta in Hpart.
  apply bind_Ok in Hpart as (u & _ & Hpart). destruct (SyncProjection.is_empty _); [done|].
  rewrite Henc in Hpart. cbn [map_err mbind result_bind] in Hpart.
  apply bind_Ok in Hpart as (pay & Hpay%map_err_Ok & [= <-]).
  unfold protect in Hpay. case_decide; [done|]. apply bind_Ok in Hpay as (nonce & _ & Hpay).
  apply protect_with_nonce_Ok in Hpay as (c & Hc%aead_length & _ & ->).
  cbn [payload publication_id part_index total_parts].
  split; [|done]. rewrite !len_app, len_envelope, !len_be_bytes, Hc. unfold id_slice. rewrite len_array.
  change (len Wire.MAGIC) with 8. change Crypto.HEADER_BYTES with 43. change TAG_BYTES with 16.
  change (N.of_nat LOGICAL_ID_BYTES) with 32. lia.
Qed.

(** The records the probe commits are small and well formed. *)
Lemma record_facts st head wire out :
  len st ≤ 2 ^ 12 → len wire ≤ 2 ^ 13 → wire ≠ [] → out = ∅ ∨ out = staged_outbox wire →
  let record := DurableSyncRecord_mk st (Some (cursor_of head)) out in
  record_ok record ∧ record_allocates record ∧ record_fits record ∧ record_size record ≤ 2 ^ 15.
Proof.
  intros Hst Hwire Hne Hout record.
  assert (∀ x e, out !! x = Some e →
    e = DurableOutboxEntry_mk (pid 7) (Some (cursor_of PROBE_INITIAL_HEAD)) [wire] ∧ x = pid 7) as Hentry.
  { intros x e He. destruct Hout as [-> | ->]; [by rewrite lookup_empty in He|]. unfold staged_outbox in He.
    by apply lookup_singleton_Some in He as [<- <-]. }
  split; [|split; [|split]].
  - split; [apply cursor_of_ok|]. intros x e [-> ->]%Hentry. split; [done|]. split; [apply cursor_of_ok|]. split; [done|].
    by intros o ->%list_elem_of_singleton.
  - intros x e [-> ->]%Hentry. cbn [objects]. change (len [wire]) with 1. unfold VEC_BYTES, isize_max. lia.
  - split; [unfold u64_max; cbn [trusted_state record]; lia|]. split; [apply cursor_of_fits|]. split.
    + assert (size out ≤ 1)%nat by (destruct Hout as [-> | ->]; [rewrite map_size_empty; lia|];
        unfold staged_outbox; rewrite map_size_singleton; lia).
      unfold u64_max. cbn [outbox record]. lia.
    + intros x e [-> ->]%Hentry. split; [apply cursor_of_fits|]. split; [done|]. intros o ->%list_elem_of_singleton.
      unfold u64_max. lia.
  - unfold record_size, record. cbn [trusted_state applied_cursor outbox cursor_size]. rewrite len_cursor.
    destruct Hout as [-> | ->].
    + change (values_asc ∅) with ([] : list DurableOutboxEntry). cbn. lia.
    + change (values_asc (staged_outbox wire)) with [DurableOutboxEntry_mk (pid 7) (Some (cursor_of PROBE_INITIAL_HEAD)) [wire]].
      cbn [fmap list_fmap sum_N foldr]. unfold entry_size. cbn [expected_cursor objects cursor_size].
      rewrite len_cursor. cbn [fmap list_fmap sum_N foldr].
      change (N.of_nat LOGICAL_ID_BYTES) with 32. lia.
Qed.

(** ** Stores of the probe *)

Definition compact record : Prop :=
  record_ok record ∧ record_allocates record ∧ record_fits record ∧ record_size record ≤ 2 ^ 15.

Lemma persisted_disk bound record store store' :
  compact record → probe_store store → fs_ok (filesystem (backend store)) → persist record store = (store', Ok tt) →
  below bound (filesystem (backend store')) → record_disk bound record (filesystem (backend store')).
Proof.
  intros (Hr & Ha & _ & Hsize) Hs Hok Hp Hb.
  destruct (persisted record store store' Hs Hok Hp) as (_ & Hok' & clear & gen & bytes & Henc & Hpr & _ & Hrec).
  split; [exact Hok'|]. split; [exact Hb|]. exists bytes. split; [exact Hrec|].
  destruct (protected_holds store record clear gen bytes) as (clear' & Hu & Hd); [|done|..].
  - split; [done|]. split; [done|]. intros c Hc%encode_record_size. rewrite Hc. unfold PROTECTION_BYTES, isize_max.
    change Crypto.HEADER_BYTES with 43. change TAG_BYTES with 16. lia.
  - unfold ProtectedSyncRecordStore.protection_context. by rewrite (proj1 Hs), (proj2 Hs).
  - exists clear'. unfold ProtectedSyncRecordStore.protection_context in Hu. by rewrite (proj1 Hs), (proj2 Hs) in Hu.
Qed.

(** The system's generator answers, and the cipher takes small messages. *)
Definition entropy_works (entropy : nat → option (byte_array NONCE_BYTES)) : Prop := ∀ n, is_Some (entropy n).
Definition cipher_works : Prop := ∀ key nonce aad m, len m ≤ 2 ^ 16 → is_Some (aead_encrypt key nonce aad m).

(** A store on a device that works, ready for [k] commits. *)
Record working_store (k : N) store : Prop := {
  working_probe : probe_store store;
  working_ok : fs_ok (filesystem (backend store));
  working_below : below u64_max (filesystem (backend store));
  working_ready : ready k (backend store);
  working_entropy : entropy_works (entropy store);
}.

Lemma persist_works k record store :
  cipher_works → compact record → working_store (k + 1) store →
  ∃ store', persist record store = (store', Ok tt) ∧ working_store k store' ∧
    record_disk u64_max record (filesystem (backend store')).
Proof.
  intros Hcipher Hrec Hw. pose proof Hrec as (Hr & Ha & Hfits & Hsize). pose proof (working_probe _ _ Hw) as [Hkey Hctx].
  destruct (encode_record_spec record Hr Ha) as (Henc & _ & _). apply Henc in Hfits as [clear Hclear].
  destruct (working_entropy _ _ Hw 0%nat) as [nonce Hnonce].
  pose proof (encode_record_size _ _ Hclear) as Hlen.
  destruct (Hcipher (expose_bytes content_key) nonce (build_aad (RECORD_CONTEXT_DOMAIN ++ PROBE_CONTEXT)) clear ltac:(lia)) as [c Hc].
  pose proof (aead_length _ _ _ _ _ Hc) as Hclen. change TAG_BYTES with 16 in Hclen.
  assert (protect (entropy store 0%nat) content_key (RECORD_CONTEXT_DOMAIN ++ PROBE_CONTEXT) clear = Ok (envelope_of nonce c)) as Hpr.
  { unfold protect. rewrite decide_False by done. rewrite Hnonce. cbn [ok_or mbind result_bind].
    apply protect_with_nonce_Ok. exists c. split; [done|]. split; [unfold u64_max; lia|done]. }
  pose proof (commit_ready k (envelope_of nonce c) (backend store) (working_ready _ _ Hw)) as Hcom.
  assert (HEADER_LEN + len (envelope_of nonce c) + CHECKSUM_LEN ≤ isize_max) as Hfit.
  { rewrite len_envelope, Hclen. change Crypto.HEADER_BYTES with 43.
    let h := eval vm_compute in (HEADER_LEN, CHECKSUM_LEN) in
    match h with (?a, ?b) => change HEADER_LEN with a; change CHECKSUM_LEN with b end. unfold isize_max. lia. }
  specialize (Hcom Hfit). unfold works, outcome in Hcom.
  destruct (commit_durable (envelope_of nonce c) (backend store)) as [b' [[]|e|]] eqn:Hcommit; [|done..].
  exists (ProtectedSyncRecordStore_mk b' (key store) (context store) (λ n, entropy store (S n))).
  assert (persist record store = (ProtectedSyncRecordStore_mk b' (key store) (context store) (λ n, entropy store (S n)), Ok tt)) as Hp.
  { apply (persist_Ok record store clear (envelope_of nonce c) b'); [done| |done].
    unfold ProtectedSyncRecordStore.protection_context. by rewrite Hkey, Hctx. }
  destruct (persisted _ _ _ (working_probe _ _ Hw) (working_ok _ _ Hw) Hp) as (Hs' & Hok' & _).
  pose proof (commit_below_last (envelope_of nonce c) (backend store) (working_below _ _ Hw)) as Hb.
  rewrite Hcommit in Hb.
  split; [exact Hp|]. split.
  - split; [exact Hs'|exact Hok'|exact Hb|exact Hcom|]. intros n. apply (working_entropy _ _ Hw).
  - by eapply persisted_disk; [exact Hrec|apply (working_probe _ _ Hw)|apply (working_ok _ _ Hw)|exact Hp|].
Qed.

(** ** Staging *)

Lemma staged_compact s wire : fixed_facts s → computes s → staged_wire s wire → compact (staged_record s wire).
Proof.
  intros Hf Hc [Hlen Hne]%(staged_wire_small s wire Hf Hc).
  by apply (record_facts _ _ wire); [apply (staged_small s Hf)|..|right].
Qed.

(** The handoff that is prepared, and the record its staging commits. *)
Lemma prepared_staged s gen prepared :
  computes s →
  prepare_recovery_handoff gen (initial_state s) (cid 1) (pid 7) content_key (selection (fixed_key s)) = Ok prepared →
  ∃ wire, staged_wire s wire ∧ prepared = PreparedRecoveryHandoff_mk (selection (fixed_key s)) (pid 7) [wire].
Proof.
  intros (_ & _ & _ & Hproj & _). unfold prepare_recovery_handoff. case_decide; [done|]. rewrite Hproj.
  cbn [mbind result_bind]. intros (part & Hpart%map_err_Ok & Hp)%bind_Ok.
  apply bind_Ok in Hp as (wire & Hwire%map_err_Ok & [= <-]). exists wire. split; [by exists gen, part|done].
Qed.

Lemma staged_exact s wire store rs' record' store' :
  computes s →
  stage_prepared_recovery_handoff codec (PreparedRecoveryHandoff_mk (selection (fixed_key s)) (pid 7) [wire])
    (initial_state s, (DurableSyncRecord.new (initial_bytes s) (Some (cursor_of PROBE_INITIAL_HEAD)), store)) =
    ((rs', (record', store')), Ok tt) →
  record' = staged_record s wire ∧ persist (staged_record s wire) store = (store', Ok tt).
Proof.
  intros (_ & _ & _ & _ & _ & Hexp & Henc & _). rewrite stage_recovery_eq. cbn [handoff_revision_ids].
  rewrite Hexp, Henc, swap_after_cases, stage_outbound_transition, run_transition_cases.
  destruct (staged _) as [next|e|] eqn:Hnext; cbn [map_err]; [|done..].
  apply staged_prepare_Ok in Hnext as (_ & _ & Hnext).
  assert (next = staged_record s wire) as -> by (rewrite Hnext; reflexivity).
  destruct (persist (staged_record s wire) store) as [store2 [[]|e|]]; [|done..]. by intros [= _ <- <-].
Qed.

Lemma stage_local_exact s files_dir files :
  computes s → fixed_facts s →
  outcome (stage_local_record files_dir) files
    (λ files' r, remote_root files' = remote_root files ∧ probe_root files' = Some (filesystem (backend r.2.2)) ∧
       probe_store r.2.2 ∧ ∃ wire, staged_wire s wire ∧ r.2.1 = staged_record s wire ∧
         validate_pending_committed (staged_record s wire) = Ok tt ∧ record_disk 1 (staged_record s wire) (filesystem (backend r.2.2)))
    (λ _, True).
Proof.
  intros Hc Hf. unfold stage_local_record. apply outcome_bind. unfold reset_probe, outcome at 1, on_field.
  destruct (reset_path _ (probe_path files)) as [root [u|e|]] eqn:Hr; [|done..]. apply reset_removes in Hr as [Hroot _].
  pose proof Hc as (Hkey & Hinit & Henc & _).
  apply outcome_bind, outcome_lift; [|done]. intros rs Hrs. rewrite Hinit in Hrs. apply (inj Ok) in Hrs as <-.
  apply outcome_bind, outcome_lift; [|done]. intros bytes Hbytes%map_err_Ok. rewrite Henc in Hbytes.
  apply (inj Ok) in Hbytes as <-.
  apply outcome_bind, outcome_lift; [|done]. intros cursor Hcursor.
  assert (cursor = cursor_of PROBE_INITIAL_HEAD) as -> by (vm_compute in Hcursor; by injection Hcursor).
  apply outcome_bind. eapply outcome_mono; [by apply open_store_fresh| |done]. cbn beta.
  intros files1 store (Hremote & _ & Hs & Hok & Hobj & Hnext & Hb). apply outcome_bind, outcome_lift; [|done].
  intros key Hk. rewrite Hkey in Hk. apply (inj Ok) in Hk as <-.
  unfold ProtectedSyncRecordStore.draw. run_st. cbn beta iota. run_st.
  apply outcome_bind, outcome_lift; [|done]. intros gen _.
  apply outcome_bind, outcome_lift; [|done].
  intros prepared (wire & Hwire & ->)%map_err_Ok%(prepared_staged s _ _ Hc).
  set (drawn := ProtectedSyncRecordStore_mk (backend store) (key store) (context store) _).
  match goal with |- context [stage_prepared_recovery_handoff codec ?p ?x] =>
    pose proof (staged_exact s wire drawn) as Hexact;
    destruct (stage_prepared_recovery_handoff codec p x) as [[rs' [record' store']] staged] eqn:Hstaged end.
  apply outcome_bind. unfold outcome at 1. cbn beta iota zeta delta [keep_store].
  apply outcome_bind, outcome_lift; [|done]. intros [] Hok'%map_err_Ok. subst staged.
  destruct (Hexact rs' record' store' Hc Hstaged) as [-> Hp]. clear Hexact Hstaged.
  assert (probe_store drawn) as Hdrawn by exact Hs.
  destruct (persisted _ drawn store' Hdrawn Hok Hp) as (Hs' & Hok' & _ & _ & enc & _ & _ & Hcom & _).
  assert (record_disk 1 (staged_record s wire) (filesystem (backend store'))) as Hdisk.
  { apply (persisted_disk 1 _ drawn); [by apply staged_compact|done|done|done|].
    by eapply commit_first; [..|exact Hcom]. }
  apply outcome_bind, outcome_lift; [|done]. intros committed Hl.
  apply bind_Ok in Hl as (loaded & Hl%map_err_Ok & ->%ok_or_Ok).
  apply outcome_bind, outcome_lift; [|done]. intros [] Hv.
  destruct (load_disk 1 _ store' Hdisk Hs') as [[Hload|Hload] _]; rewrite Hload in Hl; [|done].
  injection Hl as <-. apply outcome_ret. split; [exact Hremote|]. split; [reflexivity|]. split; [exact Hs'|].
  exists wire. split; [exact Hwire|]. split; [reflexivity|]. split; [exact Hv|exact Hdisk].
Qed.

(** ** The cycle whose response is lost *)

(** What the remote may hold: nothing, or the publication, accepted once. *)
Definition accepted wire (o : option (list byte)) : Prop :=
  o = None ∨ ∃ enc, o = Some enc ∧ encode_remote_state (ProbeRemoteState_mk PROBE_ACCEPTED_HEAD 1 [wire]) = Ok enc.

(** A remote that holds it, its candidates' numbers below the last one. *)
Definition remote_disk_of wire (fs : Fs) : Prop := remote_within (accepted wire) fs ∧ below u64_max fs.

Lemma remote_restart wire fs fs' : remote_disk_of wire fs → restarts fs fs' → remote_disk_of wire fs'.
Proof.
  intros [Hw Hb] Hr. split; [|by eapply below_restart].
  destruct Hr as [[dev ->]|Hcrash]; [by apply within_device|by eapply within_crash].
Qed.

Lemma accepted_head wire enc state :
  accepted wire (Some enc) → decode_remote_state enc = Ok state →
  remote_head state = PROBE_ACCEPTED_HEAD ∧ publish_count state = 1.
Proof.
  intros [[=]|(enc' & [= <-] & Henc)] Hd.
  by apply (encoded_remote_fields (ProbeRemoteState_mk PROBE_ACCEPTED_HEAD 1 [wire]) enc).
Qed.

Lemma publish_below expected objs (t : ProbeTransport) :
  below u64_max (filesystem (probe_backend t)) →
  below u64_max (filesystem (probe_backend (ProbeTransport.publish expected objs t).1)).
Proof.
  intros Hb. unfold ProbeTransport.publish. destruct (bool_decide (objs = []) || _); [done|]. run_st.
  destruct (ProbeTransport.load_state t) as [current|e|]; run_st; [|done..]. case_decide; [done|].
  destruct (ok_or _ (u64_checked_add (remote_head current) 1)) as [h|e|]; run_st; [|done..].
  destruct (expect (u64_checked_add (publish_count current) 1)) as [k|e|]; run_st; [|done..]. rewrite st_bind.
  unfold ProbeTransport.persist_state. destruct (encode_remote_state _) as [enc|e|]; run_st; [|done..].
  unfold on_field, map_err_st. pose proof (commit_below_last enc (probe_backend t) Hb) as Hb'.
  destruct (commit_durable enc (probe_backend t)) as [b' [[]|e|]]; cbn [map_err fst snd] in *; [|done..]. run_st. cbn.
  by case_decide.
Qed.

Lemma publish_lost wire (t : ProbeTransport) :
  mode t = LoseAcceptedResponse → ProbeTransport.load_state t = Ok ProbeRemoteState.default →
  remote_disk_of wire (filesystem (probe_backend t)) →
  let '(t', r) := ProbeTransport.publish (Some PROBE_INITIAL_HEAD) [wire] t in
  ¬ is_ok r ∧ remote_disk_of wire (filesystem (probe_backend t')).
Proof.
  intros Hmode Hload [Hw Hb].
  pose proof (publish_within (accepted wire) t [wire]) as Hw'.
  pose proof (publish_below (Some PROBE_INITIAL_HEAD) [wire] t Hb) as Hb'.
  assert (¬ is_ok (ProbeTransport.publish (Some PROBE_INITIAL_HEAD) [wire] t).2) as Hno.
  { clear Hw'. unfold ProbeTransport.publish. destruct (bool_decide ([wire] = []) || _); [by intros []|]. run_st.
    rewrite Hload. run_st.
    rewrite decide_False by auto.
    change (u64_checked_add (remote_head ProbeRemoteState.default) 1) with (Some PROBE_ACCEPTED_HEAD).
    change (u64_checked_add (publish_count ProbeRemoteState.default) 1) with (Some 1).
    cbn [ok_or expect]. run_st. rewrite st_bind. unfold ProbeTransport.persist_state.
    destruct (encode_remote_state _) as [enc|e|]; run_st; [|by intros []..]. unfold on_field, map_err_st.
    destruct (commit_durable enc (probe_backend t)) as [b' [[]|e|]]; cbn [map_err]; [|by intros []..]. run_st. cbn.
    rewrite decide_True by done. by intros []. }
  destruct (ProbeTransport.publish _ _ t) as [t' r]. split; [exact Hno|]. split; [|exact Hb']. apply Hw'; [| |exact Hw].
  - intros enc state Hacc Hd. by destruct (accepted_head wire enc state Hacc Hd) as [-> _].
  - intros enc _ _ Henc. right. by exists enc.
Qed.

Definition staged_entry wire : DurableOutboxEntry :=
  DurableOutboxEntry_mk (pid 7) (Some (cursor_of PROBE_INITIAL_HEAD)) [wire].

Lemma staged_pending wire : elements_asc (dom (staged_outbox wire)) = [pid 7].
Proof. unfold staged_outbox. rewrite dom_singleton_L. reflexivity. Qed.

Lemma staged_known s wire :
  transpose (decode (R := N) cursor_codec <$> applied_cursor (staged_record s wire)) = Ok (Some PROBE_INITIAL_HEAD).
Proof. reflexivity. Qed.

Lemma staged_entries s wire :
  batch_entries (staged_record s wire) (applied_cursor (staged_record s wire))
    (elements_asc (dom (outbox (staged_record s wire)))) [staged_entry wire].
Proof.
  cbn [outbox staged_record]. rewrite staged_pending. constructor; [|constructor]. split; [|reflexivity].
  cbn [outbox staged_record]. apply lookup_singleton_eq.
Qed.

Lemma staged_outbox_nonempty wire : staged_outbox wire ≠ ∅.
Proof. apply map_non_empty_singleton. Qed.

Lemma fetch_initial t :
  ProbeTransport.load_state t = Ok ProbeRemoteState.default →
  ProbeTransport.fetch_since (Some PROBE_INITIAL_HEAD) t = (t, Ok (UpToDate (Some PROBE_INITIAL_HEAD))).
Proof. intros Hl. unfold ProbeTransport.fetch_since. run_st. rewrite Hl. reflexivity. Qed.

Lemma fetch_failed known t :
  ¬ is_ok (ProbeTransport.load_state t) → ∃ r, ProbeTransport.fetch_since known t = (t, r) ∧ ¬ is_ok r.
Proof.
  intros Hl. unfold ProbeTransport.fetch_since. run_st. destruct (ProbeTransport.load_state t) as [state|e|].
  - by destruct Hl; exists state.
  - exists (Err e). split; [done|by intros []].
  - exists Panic. split; [done|by intros []].
Qed.

Lemma lost_cycle s wire rs store (t : ProbeTransport) spec :
  ProbeTransport.load_state t = Ok ProbeRemoteState.default ∨ ¬ is_ok (ProbeTransport.load_state t) →
  mode t = LoseAcceptedResponse → remote_disk_of wire (filesystem (probe_backend t)) →
  let '((s', runtime), r) := ForegroundRecoveryRuntime.resume_scalar_recovery codec cursor_codec spec
    ((rs, (staged_record s wire, store : Store)), ForegroundRecoveryRuntime.enter_foreground (ForegroundRecoveryRuntime.new t)) in
  s' = (rs, (staged_record s wire, store)) ∧ ¬ is_ok r ∧
  remote_disk_of wire (filesystem (probe_backend (inner (ForegroundRecovery.transport runtime)))).
Proof.
  intros Hload Hmode Hremote.
  set (x := (rs, (staged_record s wire, store))). set (g := λ t : ProbeTransport, ForegroundTransport_mk t true).
  assert (∃ t' r, resume_scalar_recovery_outbox_set (Tr := ForegroundTransport ProbeTransport) codec cursor_codec
      (ScalarRecoveryResumeSpec_mk (cycle_key spec) (cycle_continuum_id spec) (cycle_pre_observation_revision_ids spec)) (x, g t)
      = ((x, g t'), r) ∧ ¬ is_ok r ∧ remote_disk_of wire (filesystem (probe_backend t'))) as (t' & r & Hpass & Hr & Hremote').
  { set (spec' := ScalarRecoveryResumeSpec_mk _ _ _). unfold resume_scalar_recovery_outbox_set.
    destruct Hload as [Hload|Hload].
    - pose proof (publish_lost wire t Hmode Hload Hremote) as Hpub.
      destruct (ProbeTransport.publish (Some PROBE_INITIAL_HEAD) [wire] t) as [t' r] eqn:Hp.
      destruct Hpub as [Hr Hremote'].
      destruct (resume_pass_unpublished (H0 := foreground_transport (H := probe_transport)) (prove_recovered spec') cursor_codec
        (catch_up_scalar_recovery_state codec cursor_codec (catch_up_spec_of spec')) rs (staged_record s wire) store (g t)
        (RecoveryUpToDate (Some PROBE_INITIAL_HEAD)) (g t) (Some PROBE_INITIAL_HEAD) [staged_entry wire] (g t') (map_err Inner r))
        as (r' & Hpass & Hr').
      + by rewrite (foreground_catch_up (H1 := probe_transport) codec cursor_codec _ rs (staged_record s wire) store t t
          _ _ (staged_known s wire) (fetch_initial t Hload)).
      + reflexivity.
      + apply staged_outbox_nonempty.
      + apply staged_entries.
      + apply staged_known.
      + unfold g. rewrite foreground_publish.
        change (mjoin (objects <$> [staged_entry wire])) with [wire]. 
        change (publish (Tr := ProbeTransport)) with ProbeTransport.publish. by rewrite Hp.
      + by destruct r as [a|e|]; [destruct Hr; exists a|intros []..].
      + by exists t', r'.
    - destruct (fetch_failed (Some PROBE_INITIAL_HEAD) t Hload) as (r & Hf & Hr).
      pose proof (foreground_catch_up (H1 := probe_transport) codec cursor_codec (catch_up_spec_of spec') rs
        (staged_record s wire) store t t _ _ (staged_known s wire) Hf) as Hcatch. cbn zeta in Hcatch.
      destruct r as [a|e|]; [by destruct Hr; exists a|..];
        eapply resume_pass_unfetched in Hcatch as (r' & Hpass & Hr'); [by exists t, r'|by intros []|by exists t, r'|by intros []]. }
  unfold ForegroundRecoveryRuntime.resume_scalar_recovery, on_field. cbn [fst snd].
  change (ForegroundRecovery.transport (ForegroundRecoveryRuntime.enter_foreground (ForegroundRecoveryRuntime.new t))) with (g t).
  unfold resume_scalar_recovery_outbox_set_bounded, resume_bounded. rewrite st_bind, Hpass.
  destruct r as [a|e|]; [by destruct Hr; exists a|..]; (split; [reflexivity|]; split; [by intros []|exact Hremote']).
Qed.

(** What the staging call leaves in the directory. *)
Definition left_pending s wire files : Prop :=
  staged_wire s wire ∧ validate_pending_committed (staged_record s wire) = Ok tt ∧
  (∃ fs, probe_root files = Some fs ∧ record_disk 1 (staged_record s wire) fs) ∧
  ∃ fs, remote_root files = Some fs ∧ remote_disk_of wire fs.

Lemma open_transport_same m files :
  outcome (open_transport m) files (λ files' t, probe_root files' = probe_root files ∧ mode t = m ∧
    remote_root files' = Some (filesystem (probe_backend t)) ∧
    open_backend (fresh_device files) (remote_root files) = Ok (probe_backend t)) (λ files', files' = files).
Proof.
  unfold open_transport. apply outcome_get, outcome_bind, outcome_lift; [|done]. by intros b Hb%map_err_Ok.
Qed.

Lemma load_remote_same files wire :
  (∃ fs, remote_root files = Some fs ∧ remote_disk_of wire fs) →
  outcome load_remote files
    (λ files' _, probe_root files' = probe_root files ∧ ∃ fs, remote_root files' = Some fs ∧ remote_disk_of wire fs) (λ _, True).
Proof.
  intros (fs & Hfs & Hw). unfold load_remote. apply outcome_bind. eapply outcome_mono; [apply open_transport_same| |done].
  cbn beta. intros files' t (Hprobe & _ & Hroot & Hopen). apply outcome_lift; [|done]. intros state _. split; [done|].
  eexists. split; [exact Hroot|]. unfold open_backend in Hopen. rewrite Hfs in Hopen.
  apply open_same in Hopen as [dev ->].
  exact Hw.
Qed.

Lemma fresh_load b m :
  fresh_backend b → entries (root_directory (filesystem b)) = ∅ →
  ProbeTransport.load_state (ProbeTransport_mk b m) = Ok ProbeRemoteState.default ∨
  ¬ is_ok (ProbeTransport.load_state (ProbeTransport_mk b m)).
Proof.
  intros _ Hroot. assert (committed (filesystem b) (entries (root_directory (filesystem b))) None) as Hnone
    by (unfold committed; by rewrite Hroot).
  apply read_committed_run in Hnone as [Hl _]. unfold ProbeTransport.load_state, UnixFsDurabilityBackend.load_committed.
  cbn [probe_backend]. destruct Hl as [-> | ->]; [by left|right]. by intros [].
Qed.

Lemma stage_lost_ack_leaves s files_dir files :
  computes s → fixed_facts s →
  outcome (stage_lost_ack files_dir) files (λ files' _, ∃ wire, left_pending s wire files') (λ _, True).
Proof.
  intros Hc Hf. unfold stage_lost_ack. apply outcome_bind. unfold reset_remote, outcome at 1, on_field.
  destruct (reset_path _ (remote_path files)) as [root [u|e|]] eqn:Hr; [|done..]. apply reset_removes in Hr as [Hroot _].
  apply outcome_bind. eapply outcome_mono; [by apply stage_local_exact| |done].
  cbn beta. intros files1 [rs [record store]] (Hnone & Hprobe & _ & wire & Hwire & Hrecord & Hv & Hdisk).
  cbn [fst snd] in *. subst record.
  change (remote_root (with_remote_path root files)) with (at_path root) in Hnone. rewrite Hroot in Hnone.
  apply outcome_bind. eapply outcome_mono; [apply open_transport_same| |done].
  cbn beta. intros files2 t (Hprobe2 & Hmode & _ & Hopen). unfold open_backend in Hopen. rewrite Hnone in Hopen.
  cbn [default from_option id] in Hopen. pose proof (open_fresh _ _ Hopen) as Hfresh.
  pose proof (open_same _ _ Hopen) as [dev Hsame].
  assert (remote_disk_of wire (filesystem (probe_backend t))) as Hremote.
  { rewrite Hsame. split; [apply within_device, within_new; by left|apply below_new]. }
  assert (ProbeTransport.load_state t = Ok ProbeRemoteState.default ∨ ¬ is_ok (ProbeTransport.load_state t)) as Hload.
  { destruct t as [b m]. apply fresh_load; [exact Hfresh|]. cbn [probe_backend] in Hsame. by rewrite Hsame. }
  apply outcome_bind. unfold run_cycle.
  pose proof (lost_cycle s wire rs store t (ForegroundRecoveryCycleSpec_mk content_key (cid 1) ∅) Hload Hmode Hremote) as Hcycle.
  destruct (ForegroundRecoveryRuntime.resume_scalar_recovery _ _ _ _) as [[s' runtime] answer].
  destruct Hcycle as (-> & Hno & Hremote').
  apply outcome_bind. unfold outcome at 1. cbn beta iota zeta delta [keep_store fst snd]. run_st. cbn beta iota.
  apply outcome_bind. unfold outcome at 1. cbn beta iota zeta delta [keep_remote]. run_st. cbn beta iota.
  destruct answer as [report|e|]; [by destruct Hno; exists report| |exact I]. apply outcome_ret. cbn [succeeds].
  apply outcome_bind, outcome_lift; [|exact I]. intros durable _.
  apply outcome_bind, outcome_lift; [|exact I]. intros u' _. apply outcome_bind.
  eapply outcome_mono; [apply (load_remote_same _ wire)| |intros ? _; exact I];
    [eexists; split; [reflexivity|exact Hremote']|]. cbn beta.
  intros files4 remote [Hprobe4 Hremote4]. case_decide; [exact I|]. apply outcome_ret. exists wire.
  split; [exact Hwire|]. split; [exact Hv|]. split; [|exact Hremote4].
  exists (filesystem (backend store)). split; [exact Hprobe4|exact Hdisk].
Qed.

(** ** The cycle that settles *)

(** The remote's state, in which the publication has been accepted. *)
Definition accepted_state wire : ProbeRemoteState := ProbeRemoteState_mk PROBE_ACCEPTED_HEAD 1 [wire].

Lemma accepted_decodes wire enc :
  wire ≠ [] → len wire ≤ 2 ^ 13 → encode_remote_state (accepted_state wire) = Ok enc →
  decode_remote_state enc = Ok (accepted_state wire).
Proof.
  intros Hne Hlen Henc. assert (remote_ok (accepted_state wire)) as Hok.
  { split; [done|]. split; [done|]. split.
    - cbn [remote_objects accepted_state]. change (len [wire]) with 1. unfold VEC_BYTES, isize_max. lia.
    - by intros o ->%list_elem_of_singleton. }
  destruct (encode_remote_spec (accepted_state wire) Hok) as (_ & _ & Hg). destruct (Hg enc Henc) as (c & -> & Hc).
  apply decode_remote_spec; [|by exists c]. destruct Hc as (_ & c1 & c2 & c3 & -> & [_ ->] & [_ ->] & Hobj).
  assert (g_counted (λ c o, len c = 8 + len o) c3 [wire]) as Hsize.
  { destruct Hobj as (Hn & c4 & -> & cs & Hcs & ->). split; [exact Hn|]. eexists. split; [reflexivity|]. exists cs.
    split; [|reflexivity]. eapply Forall2_impl; [|exact Hcs]. intros c o (_ & _ & ->). by rewrite len_app, len_be_bytes. }
  apply (g_counted_size (λ o, 8 + len o)) in Hsize. cbn [fmap list_fmap sum_N foldr] in Hsize.
  rewrite !len_app, !len_be_bytes, Hsize. change (len REMOTE_MAGIC) with 8. unfold isize_max. lia.
Qed.

Lemma fetch_accepted wire t :
  ProbeTransport.load_state t = Ok (accepted_state wire) →
  ProbeTransport.fetch_since (Some PROBE_INITIAL_HEAD) t = (t, Ok (Changed PROBE_ACCEPTED_HEAD [wire])).
Proof. intros Hl. unfold ProbeTransport.fetch_since. run_st. rewrite Hl. reflexivity. Qed.

Definition probe_spec : ForegroundRecoveryCycleSpec := ForegroundRecoveryCycleSpec_mk content_key (cid 1) ∅.

Lemma cursor_encoded head : encode (R := N) cursor_codec head = Ok (cursor_of head).
Proof.
  assert (∀ bytes : list byte, bytes ≠ [] → TransportCursor.new bytes = Ok (TransportCursor_mk bytes)) as Hnew
    by (intros bytes Hb; unfold TransportCursor.new; by rewrite decide_False).
  cbn. unfold ProbeCursorCodec.encode. rewrite Hnew; [done|]. intros Hnil. pose proof (len_be_bytes 8 head) as Hl.
  by rewrite Hnil in Hl.
Qed.

(** The reception of the device's own publication. *)
Lemma receives_own s wire store store' (tr : ForegroundTransport ProbeTransport) :
  computes s → fixed_facts s → staged_wire s wire → persist (received_record s wire) store = (store', Ok tt) →
  on_fst (recovery_changed (Tr := ForegroundTransport ProbeTransport) codec cursor_codec
    (ScalarRecoveryCatchUpSpec_mk content_key (cid 1) ∅) PROBE_ACCEPTED_HEAD [wire])
    ((staged_state s, (staged_record s wire, store)), tr) =
  (((candidate (settled s), (received_record s wire, store')), tr),
   Ok (RecoveryApplied PROBE_ACCEPTED_HEAD 1 (observed_ids (settled s)) (sealed_revisions (settled s)))).
Proof.
  intros Hc Hf Hwire Hp. destruct (staged_wire_small s wire Hf Hc Hwire) as [Hlen _].
  destruct Hwire as (gen & part & Hpart & Hwire).
  destruct Hc as (_ & _ & _ & _ & _ & _ & _ & Hcombined & Hobserved & Hsettled).
  unfold on_fst, on_field. cbn [fst snd].
  rewrite (recovery_changed_Ok (H1 := foreground_transport (H := probe_transport)) codec cursor_codec _ _ (staged_record s wire)
    store PROBE_ACCEPTED_HEAD [wire] [published s] (SyncProjection_mk (combined_domains s)) (settled s) (settled_bytes s)
    (cursor_of PROBE_ACCEPTED_HEAD) store').
  - reflexivity.
  - discriminate.
  - apply (prepared_decode gen (cid 1) (pid 7) content_key _ part wire (published_valid s Hf) Hpart Hwire).
    unfold isize_max. lia.
  - exact Hcombined.
  - exact Hobserved.
  - exact Hsettled.
  - apply cursor_encoded.
  - exact Hp.
Qed.

(** It proves the pending publication. *)
Lemma proves_own s wire :
  fixed_facts s → computes s → staged_wire s wire →
  try_fold (prove_recovered (St := Store) (Tr := ForegroundTransport ProbeTransport) (TC := DevelopmentMultiScalarTrustedStateCodec)
    (CC := ProbeCursorCodec) (ScalarRecoveryResumeSpec_mk content_key (cid 1) ∅) (received_record s wire) (observed_ids (settled s)))
    ∅ (elements_asc (dom (outbox (received_record s wire)))) = Ok (dom (outbox (received_record s wire))).
Proof.
  intros Hf Hc Hwire. destruct (staged_wire_small s wire Hf Hc Hwire) as [Hlen _].
  destruct Hwire as (gen & part & Hpart & Hwire).
  pose proof (prepared_decode (TE := unit) (TSE := unit) (SE := unit) (CE := unit) gen (cid 1) (pid 7) content_key _ part wire
    (published_valid s Hf) Hpart Hwire) as [_ Hdec]; [unfold isize_max; lia|].
  cbn [outbox received_record]. rewrite staged_pending. cbn [try_fold]. unfold prove_recovered at 1.
  cbn [outbox]. rewrite (lookup_singleton_eq (pid 7) (staged_entry wire) : staged_outbox wire !! pid 7 = _).
  cbn [expect mbind result_bind objects staged_entry].
  cbn [resume_key resume_continuum_id]. rewrite Hdec. cbn [map_err mbind result_bind].
  rewrite (published_observed s Hf). cbn [mbind result_bind]. unfold staged_outbox.
  by rewrite dom_singleton_L, union_empty_r_L.
Qed.

Lemma received_stale s wire pid' : ¬ staged_at (received_record s wire) (applied_cursor (received_record s wire)) pid'.
Proof.
  intros (e & He & Hcur). cbn [outbox received_record] in He. unfold staged_outbox in He.
  apply lookup_singleton_Some in He as [_ <-]. discriminate Hcur.
Qed.

Lemma settled_compact s wire out :
  fixed_facts s → computes s → staged_wire s wire → out = ∅ ∨ out = staged_outbox wire →
  compact (DurableSyncRecord_mk (settled_bytes s) (Some (cursor_of PROBE_ACCEPTED_HEAD)) out).
Proof.
  intros Hf Hc [Hlen Hne]%(staged_wire_small s wire Hf Hc) Hout.
  by apply (record_facts _ _ wire); [apply (settled_small s Hf)|..].
Qed.

Lemma settling_cycle s wire store (t : ProbeTransport) :
  computes s → fixed_facts s → cipher_works → staged_wire s wire → working_store 2 store →
  ProbeTransport.load_state t = Ok (accepted_state wire) →
  let foreground := ForegroundRecoveryRuntime.enter_foreground (ForegroundRecoveryRuntime.new t) in
  let '((x, runtime), r) := ForegroundRecoveryRuntime.resume_scalar_recovery codec cursor_codec probe_spec
    ((staged_state s, (staged_record s wire, store : Store)), foreground) in
  runtime = foreground ∧ is_ok r ∧
  ∃ store', x = (candidate (settled s), (settled_record s, store')) ∧ working_store 0 store' ∧
    record_disk u64_max (settled_record s) (filesystem (backend store')).
Proof.
  intros Hc Hf Hcipher Hwire Hw Hload foreground.
  destruct (persist_works 1 (received_record s wire) store Hcipher) as (store1 & Hp1 & Hw1 & _);
    [apply (settled_compact s wire); auto|exact Hw|].
  destruct (persist_works 0 (settled_record s) store1 Hcipher) as (store2 & Hp2 & Hw2 & Hdisk);
    [apply (settled_compact s wire); auto|exact Hw1|].
  unfold ForegroundRecoveryRuntime.resume_scalar_recovery, on_field. cbn [fst snd].
  set (g := ForegroundTransport_mk t true). change (ForegroundRecovery.transport foreground) with g.
  unfold resume_scalar_recovery_outbox_set_bounded, resume_bounded. rewrite st_bind. cbn [cycle_key cycle_continuum_id
    cycle_pre_observation_revision_ids probe_spec]. unfold resume_scalar_recovery_outbox_set.
  rewrite (resume_pass_settles (H0 := foreground_transport (H := probe_transport)) _ cursor_codec _ (staged_state s)
    (staged_record s wire) store g (candidate (settled s)) (received_record s wire) store1 g
    (RecoveryApplied PROBE_ACCEPTED_HEAD 1 (observed_ids (settled s)) (sealed_revisions (settled s)))
    PROBE_ACCEPTED_HEAD (observed_ids (settled s)) (cursor_of PROBE_ACCEPTED_HEAD) store2).
  - cbn [batch_action]. split; [reflexivity|]. split; [by eexists|]. by exists store2.
  - unfold catch_up_spec_of. cbn [resume_key resume_continuum_id resume_pre_observation_revision_ids].
    rewrite (foreground_catch_up (H1 := probe_transport) codec cursor_codec _ _ (staged_record s wire) store t t
      _ _ (staged_known s wire) (fetch_accepted wire t Hload)).
    by apply receives_own.
  - reflexivity.
  - reflexivity.
  - apply staged_outbox_nonempty.
  - reflexivity.
  - apply received_stale.
  - by apply proves_own.
  - apply cursor_encoded.
  - exact Hp2.
Qed.

(** ** Resuming on devices that work *)

Definition reconciled : list byte := b_ "PASS authenticated refetch reconciled lost ACK; no second publish".

Lemma open_store_works record files fs :
  probe_root files = Some fs → record_disk 1 record fs → healthy fs → entropy_works (system_entropy files) →
  works open_store files (λ files' store, remote_root files' = remote_root files ∧ fresh_device files' = fresh_device files ∧
    working_store 2 store ∧ record_disk 1 record (filesystem (backend store))).
Proof.
  intros Hfs Hdisk Hh Hent. unfold open_store, open_backend, works. apply outcome_get. rewrite Hfs.
  change (default (fs_new (fresh_device files)) (Some fs)) with fs. pose proof Hdisk as (Hok & Hb & _).
  destruct (open_works fs) as (b & Hopen & Hh'); [by eapply below_mono; [|exact Hb]|done|]. rewrite Hopen.
  pose proof (open_ready fs b Hok Hh Hb Hopen) as Hready. apply open_same in Hopen as [dev Hsame].
  unfold outcome. cbn. split; [done|]. split; [done|].
  assert (record_disk 1 record (filesystem b)) as Hdisk' by (rewrite Hsame; exact Hdisk).
  split; [|exact Hdisk']. split; [done|apply Hdisk'|by eapply below_mono; [|apply Hdisk']|exact Hready|exact Hent].
Qed.

(** The remote still has the publication: what it commits to is its state. *)
Definition remote_has wire fs : Prop :=
  remote_disk_of wire fs ∧ ∃ enc, committed fs (entries (root_directory fs)) (Some enc).

Lemma reads_accepted wire (t : ProbeTransport) state :
  remote_disk_of wire (filesystem (probe_backend t)) → ProbeTransport.load_state t = Ok state →
  remote_head state = PROBE_ACCEPTED_HEAD → remote_has wire (filesystem (probe_backend t)).
Proof.
  intros Hw Hl Hhead. split; [exact Hw|]. destruct Hw as [[Hok _] _].
  destruct (proj2 Hok _ (snapshots_entries _)) as [[enc|] Ho]; [by exists enc|]. apply read_committed_run in Ho as [Ho _].
  unfold ProbeTransport.load_state, UnixFsDurabilityBackend.load_committed in Hl.
  destruct Ho as [Ho|Ho]; rewrite Ho in Hl; [|done]. injection Hl as <-. discriminate Hhead.
Qed.

Lemma load_accepted s wire (t : ProbeTransport) :
  computes s → fixed_facts s → staged_wire s wire →
  remote_has wire (filesystem (probe_backend t)) → healthy (filesystem (probe_backend t)) →
  ProbeTransport.load_state t = Ok (accepted_state wire).
Proof.
  intros Hc Hf Hwire [[[Hok Hacc] _] [enc Ho]] Hh. destruct (staged_wire_small s wire Hf Hc Hwire) as [Hlen Hne].
  assert (accepted wire (Some enc)) as [[=]|(enc' & [= <-] & Henc)]
    by (apply Hacc; by exists (entries (root_directory (filesystem (probe_backend t)))); split; [left|]).
  apply read_committed_run in Ho as [_ Ho]. unfold ProbeTransport.load_state, UnixFsDurabilityBackend.load_committed.
  rewrite (Ho Hh). cbn [map_err mbind result_bind]. by apply accepted_decodes.
Qed.

(** Opening it keeps it. *)
Lemma open_transport_works wire m files fs :
  remote_root files = Some fs → remote_has wire fs → healthy fs →
  works (open_transport m) files (λ files' t, probe_root files' = probe_root files ∧
    remote_root files' = Some (filesystem (probe_backend t)) ∧ healthy (filesystem (probe_backend t)) ∧
    ∃ dev, filesystem (probe_backend t) = with_device dev fs).
Proof.
  intros Hfs Hw Hh. unfold open_transport, open_backend, works. apply outcome_get. rewrite Hfs.
  change (default (fs_new (fresh_device files)) (Some fs)) with fs.
  destruct (open_works fs) as (b & Hopen & Hh'); [apply Hw|done|]. rewrite Hopen.
  apply open_same in Hopen as [dev Hsame]. eapply works_lift; [reflexivity|]. apply outcome_bind.
  unfold outcome at 1, keep_remote. run_st. apply outcome_ret. cbn [probe_backend].
  split; [reflexivity|]. split; [reflexivity|]. split; [exact Hh'|by exists dev].
Qed.

Lemma remote_has_device wire dev fs : remote_has wire fs → remote_has wire (with_device dev fs).
Proof. exact id. Qed.

Lemma load_remote_works s wire files fs :
  computes s → fixed_facts s → staged_wire s wire → remote_root files = Some fs → remote_has wire fs → healthy fs →
  works load_remote files (λ files' state, state = accepted_state wire ∧ probe_root files' = probe_root files ∧
    ∃ dev, remote_root files' = Some (with_device dev fs)).
Proof.
  intros Hc Hf Hwire Hfs Hw Hh. apply outcome_bind.
  eapply outcome_mono; [by apply (open_transport_works wire Normal _ fs)| |done].
  cbn beta. intros files' t (Hroot & Hroot' & Hh' & dev & Hsame).
  assert (remote_has wire (filesystem (probe_backend t))) as Hw' by (rewrite Hsame; by apply remote_has_device).
  unfold outcome. rewrite (load_accepted s wire t) by done. split; [reflexivity|]. split; [exact Hroot|].
  exists dev. by rewrite Hroot', Hsame.
Qed.

Lemma load_record_works bound record store failed missing :
  record_disk bound record (filesystem (backend store)) → probe_store store → healthy (filesystem (backend store)) →
  load_record store failed missing = Ok record.
Proof.
  intros Hd Hs Hh. unfold load_record. by rewrite (proj2 (load_disk bound record store Hd Hs) Hh).
Qed.

Lemma resume_works s wire files fs rfs :
  computes s → fixed_facts s → cipher_works → left_pending s wire files → entropy_works (system_entropy files) →
  probe_root files = Some fs → healthy fs → remote_root files = Some rfs → healthy rfs → remote_has wire rfs →
  works resume_lost_ack files (λ files' text, text = reconciled ∧
    (∃ dev, remote_root files' = Some (with_device dev rfs)) ∧
    ∃ fs', probe_root files' = Some fs' ∧ record_disk u64_max (settled_record s) fs').
Proof.
  intros Hc Hf Hcipher (Hwire & Hv & (fs0 & Hfs0 & Hdisk) & _) Hent Hfs Hh Hrfs Hrh Hremote.
  assert (fs0 = fs) as -> by congruence. unfold resume_lost_ack.
  apply outcome_bind. eapply outcome_mono; [by apply (open_store_works (staged_record s wire) _ fs)| |done].
  cbn beta. intros files1 store (Hremote1 & _ & Hw & Hdisk1). rewrite Hrfs in Hremote1.
  assert (healthy (filesystem (backend store))) as Hh1 by apply (working_ready _ _ Hw).
  eapply works_lift.
  { apply (load_record_works 1 (staged_record s wire)); [exact Hdisk1|apply (working_probe _ _ Hw)|exact Hh1]. }
  eapply works_lift; [exact Hv|].
  eapply works_lift; [cbn [trusted_state staged_record]; rewrite (staged_decodes s Hf); reflexivity|].
  apply outcome_bind. eapply outcome_mono; [by apply (open_transport_works wire Normal _ rfs)| |done].
  cbn beta. intros files2 t (_ & _ & Hh2 & dev2 & Hsame2).
  assert (remote_has wire (filesystem (probe_backend t))) as Hremote2 by (rewrite Hsame2; by apply remote_has_device).
  apply outcome_bind. unfold run_cycle.
  pose proof (settling_cycle s wire store t Hc Hf Hcipher Hwire Hw (load_accepted s wire t Hc Hf Hwire Hremote2 Hh2)) as Hcycle.
  cbn zeta in Hcycle. unfold probe_spec in Hcycle.
  destruct (ForegroundRecoveryRuntime.resume_scalar_recovery _ _ _ _) as [[x runtime] answer].
  destruct Hcycle as (-> & [report ->] & store' & -> & Hw' & Hdisk').
  assert (healthy (filesystem (backend store'))) as Hh' by apply (working_ready _ _ Hw').
  apply outcome_bind. unfold outcome at 1. cbn beta iota zeta delta [keep_store fst snd]. run_st. cbn beta iota.
  apply outcome_bind. unfold outcome at 1. cbn beta iota zeta delta [keep_remote]. run_st. cbn beta iota.
  apply outcome_ret. eapply works_lift; [reflexivity|].
  eapply works_lift; [exact (settled_accepted s Hf)|].
  eapply works_lift.
  { apply (load_record_works u64_max (settled_record s)); [exact Hdisk'|apply (working_probe _ _ Hw')|exact Hh']. }
  eapply works_lift; [exact (settled_accepted s Hf)|].
  apply outcome_bind. eapply outcome_mono; [by apply (load_remote_works s wire _ (filesystem (probe_backend t)))| |done].
  cbn beta. intros files4 state (-> & Hroot4 & dev4 & Hremote4). rewrite decide_False by (by intros [[]|[]]).
  apply outcome_ret. split; [reflexivity|]. split; [exists dev4; rewrite Hremote4, Hsame2; reflexivity|].
  exists (filesystem (backend store')). split; [exact Hroot4|exact Hdisk'].
Qed.
End records.

(** ** Through the bridge *)
Section bridge.
Context `{AeadLaws} `{ErrorTexts} `{Locations} {JString JniError : Type} `{Display JniError}.
Context (get_string : JString → result JniError (list byte)) (new_string : list byte → option JString).
Implicit Types (bridge : Bridge) (path : list byte).

(** The call of a foreground process, in a directory with a name. *)
Lemma native_resume files_dir bridge path :
  get_string files_dir = Ok path → path ≠ [] → lifecycle bridge = true →
  directories (AndroidBridge.run_native get_string new_string (AndroidBridge.ResumeLostAckProbe files_dir) bridge) (location path) =
    (resume_lost_ack (directories bridge (location path))).1 ∧
  (AndroidBridge.nativeResumeLostAckProbe get_string new_string files_dir bridge).2 =
    match (resume_lost_ack (directories bridge (location path))).2 with
    | Ok text => Ok (new_string text)
    | Err error => Ok (new_string (b_ "FAIL " ++ error))
    | Panic => Panic
    end.
Proof.
  intros Hpath Hne Hfg.
  assert (AndroidBridge.foreground_probe_path get_string files_dir bridge = (bridge, Ok path)) as Hp.
  { unfold AndroidBridge.foreground_probe_path, AndroidBridge.is_foreground. run_st. rewrite Hfg.
    cbn [negb]. by rewrite (java_path_eq get_string files_dir path). }
  split.
  - destruct (probe_files new_string (location path) (AndroidBridge.foreground_probe_path get_string files_dir) (λ _, resume_lost_ack)
      bridge (AndroidBridge.foreground_path_state get_string files_dir)) as [(path' & _ & _ & Hfiles)|[Hno _]]; [exact Hfiles|].
    rewrite Hp in Hno. by destruct (Hno path eq_refl).
  - unfold AndroidBridge.nativeResumeLostAckProbe, AndroidBridge.probe_result_string. rewrite st_bind, Hp.
    unfold AndroidBridge.in_directory, on_field. cbn. by destruct (resume_lost_ack _) as [files [text|e|]].
Qed.

(** The staging, a restart of both directories, and the resumption. *)
Lemma staged_resumes files_dir files text files' fs rfs state :
  (stage_lost_ack files_dir files).2 = Ok text →
  survives (probe_root (stage_lost_ack files_dir files).1) (probe_root files') →
  survives (remote_root (stage_lost_ack files_dir files).1) (remote_root files') →
  probe_root files' = Some fs → healthy fs → remote_root files' = Some rfs → healthy rfs →
  ProbeTransport.load_state (ProbeTransport_mk (UnixFsDurabilityBackend_mk rfs 0) Normal) = Ok state →
  remote_head state = PROBE_ACCEPTED_HEAD → entropy_works (system_entropy files') → cipher_works →
  works resume_lost_ack files' (λ files' text, text = reconciled ∧
    (∃ dev, remote_root files' = Some (with_device dev rfs)) ∧
    ∃ fs' record, probe_root files' = Some fs' ∧ record_disk u64_max record fs' ∧ outbox record = ∅ ∧
      validate_reconciled_committed record = Ok tt).
Proof.
  intros Hstage Hprobe Hremote Hfs Hh Hrfs Hrh Hload Hhead Hent Hcipher.
  destruct fixed_exists as (s & Hc & Hf). pose proof (stage_lost_ack_leaves s files_dir files Hc Hf) as Hleft.
  unfold outcome in Hleft. destruct (stage_lost_ack files_dir files) as [files1 res]. cbn [fst snd] in *. subst res.
  destruct Hleft as (wire & Hwire & Hv & (fs1 & Hfs1 & Hdisk) & rfs1 & Hrfs1 & Hrdisk).
  rewrite Hfs1, Hfs in Hprobe. rewrite Hrfs1, Hrfs in Hremote.
  eapply outcome_mono; [apply (resume_works s wire files' fs rfs Hc Hf Hcipher)| |done].
  - split; [exact Hwire|]. split; [exact Hv|]. split; [exists fs; split; [exact Hfs|by eapply record_restart]|].
    exists rfs. split; [exact Hrfs|by eapply remote_restart].
  - exact Hent.
  - exact Hfs.
  - exact Hh.
  - exact Hrfs.
  - exact Hrh.
  - apply (reads_accepted wire (ProbeTransport_mk (UnixFsDurabilityBackend_mk rfs 0) Normal) state); [|exact Hload|exact Hhead].
    by eapply remote_restart.
  - cbn beta. intros files2 t (-> & Hsame & fs' & Hfs' & Hdisk'). split; [done|]. split; [exact Hsame|].
    exists fs', (settled_record s).
    split; [exact Hfs'|]. split; [exact Hdisk'|]. split; [reflexivity|apply (settled_accepted s Hf)].
Qed.
End bridge.
