(* ===== verification/CoreProperties.v ===== *)
(** * Properties of the core (crates/apc-core)

    The theorems about registers, merges, working epochs, the finalization
    ledger, local domains and the commit protocol, each with a concrete witness
    where it has hypotheses. *)
From stdpp Require Import base tactics option list gmap.
From Stdlib Require Import Lia NArith.
From S2P Require Import Prelude BTree Bytes Id Error Worklist Scalar Causal Merge ScalarMerge.
From S2P Require Import State Working Finalization Domain Durability.

(** ** Concrete registers *)

(** One revision, and two concurrent successors of it. *)
Definition ex_root : ScalarRegister N := register_of [(rid 1, 10%N)].
Definition ex_left : ScalarRegister N := assign_all [(rid 2, 20%N)] ex_root.
Definition ex_right : ScalarRegister N := assign_all [(rid 3, 30%N)] ex_root.

(** A different statement under the identity of [ex_left]'s successor. *)
Definition ex_clash : ScalarRegister N := assign_all [(rid 2, 99%N)] ex_root.

Lemma ex_root_valid : valid ex_root.
Proof. apply register_of_valid. Qed.
Lemma ex_left_valid : valid ex_left.
Proof. apply assign_all_valid, ex_root_valid. Qed.
Lemma ex_right_valid : valid ex_right.
Proof. apply assign_all_valid, ex_root_valid. Qed.
Lemma ex_clash_valid : valid ex_clash.
Proof. apply assign_all_valid, ex_root_valid. Qed.
#[export] Hint Resolve ex_root_valid ex_left_valid ex_right_valid ex_clash_valid : apc.

(** ** Registers *)

(** [validate] is a decision procedure for causal well-formedness: it
    accepts exactly the registers in which every direct parent is present and no
    revision is its own ancestor, it never panics (its recursion is bounded by
    the number of revisions), and an error names a parent that is really absent
    or a revision that really lies on a cycle. *)
Theorem validate_decides {T : Type} `{EqDecision T} (r : ScalarRegister T) :
  (ScalarRegister.validate r = Ok tt ↔ closed r ∧ acyclic r) ∧
  ScalarRegister.validate r ≠ Panic ∧
  ∀ e, ScalarRegister.validate r = Err e →
    (∃ c rev p, revisions r !! c = Some rev ∧ p ∈ sr_parents rev ∧
      p ∉ dom (revisions r) ∧ e = MissingParent (sr_id rev) p) ∨
    (∃ x, e = CausalCycle x ∧ closed r ∧ ancestor r x x).
Proof.
  split_and!; [apply validate_Ok|apply validate_not_panic|apply validate_Err].
Qed.

(** [frontier_ids] of a valid register is the set of causally maximal
    revisions: nothing descends from a member, no member is an ancestor of
    another, and every revision is covered by a member; [is_ancestor] decides
    causal ancestry, and [materialized_revision] is the frontier member with the
    greatest identity, so it exists unless the register is empty. *)
Theorem frontier_is_maximal {T : Type} `{EqDecision T} (r : ScalarRegister T) (Hv : valid r) :
  (∀ x, x ∈ ScalarRegister.frontier_ids r ↔ x ∈ dom (revisions r) ∧ ∀ d, ¬ ancestor r x d) ∧
  (∀ x, x ∈ dom (revisions r) → ∃ f, f ∈ ScalarRegister.frontier_ids r ∧ (f = x ∨ ancestor r x f)) ∧
  (∀ a d, ScalarRegister.is_ancestor r a d = true ↔ ancestor r a d) ∧
  (ScalarRegister.materialized_revision r = None ↔ revisions r = ∅) ∧
  (∀ rev, ScalarRegister.materialized_revision r = Some rev →
    sr_id rev ∈ ScalarRegister.frontier_ids r ∧
    ∀ y, y ∈ ScalarRegister.frontier_ids r → ord_le y (sr_id rev)).
Proof.
  destruct Hv as (Hk & Hc & Ha). split_and!.
  - intros x. apply elem_of_frontier_ids.
  - intros x. by apply frontier_covers.
  - intros a d. apply is_ancestor_spec.
  - by apply materialized_revision_None.
  - intros rev Hrev. by destruct (proj1 (materialized_revision_Some r (sr_id rev) rev Hk Hrev) eq_refl)
      as (? & _ & ?).
Qed.

Lemma frontier_is_maximal_witness :
  valid ex_left ∧ ScalarRegister.frontier_ids ex_left = {[rid 2]} ∧
  (∀ a d, ScalarRegister.is_ancestor ex_left a d = true ↔ ancestor ex_left a d).
Proof.
  split; [apply ex_left_valid|split; [by_compute|]].
  apply (frontier_is_maximal ex_left ex_left_valid).
Defined.

(** C1: merging two valid registers either yields the valid union of their
    statements, in which the ancestry of every revision is the one its side
    recorded (so nothing is rolled back or re-parented), or fails with the
    smallest identity that names two different statements; it never panics. *)
Theorem merge_is_union_or_conflict {T : Type} `{EqDecision T} (a b : ScalarRegister T)
    (Ha : valid a) (Hb : valid b) :
  match ScalarRegister.merge a b with
  | Ok c =>
      valid c ∧ revisions a ⊆ revisions c ∧ revisions b ⊆ revisions c ∧
      dom (revisions c) = dom (revisions a) ∪ dom (revisions b) ∧
      (∀ x y, y ∈ dom (revisions a) → ancestor c x y ↔ ancestor a x y) ∧
      (∀ x y, y ∈ dom (revisions b) → ancestor c x y ↔ ancestor b x y)
  | Err e =>
      ∃ x, e = DuplicateRevisionConflict x ∧ conflict a b x ∧
        ∀ y, conflict a b y → ord_le x y
  | Panic => False
  end.
Proof.
  destruct (ScalarRegister.merge a b) as [c|e|] eqn:Hm.
  - split_and!.
    + exact (merge_ok (MergeLaws := scalar_merge_laws) a b c Ha Hb Hm).
    + by apply (merge_larger a b c).
    + apply (merge_larger b a c Hb Ha). rewrite <-Hm. exact (merge_comm (MergeLaws := scalar_merge_laws) b a Hb Ha).
    + by apply merge_dom.
    + intros x y. by apply (merge_ancestor_l a b c x y).
    + intros x y. by apply (merge_ancestor_r a b c x y).
  - assert (failure (ScalarRegister.merge a b) = Some (Some e)) as Hf by by rewrite Hm.
    apply merge_fail in Hf as (x & [= ->] & Hx); [|done..]. by exists x.
  - assert (failure (ScalarRegister.merge a b) = Some None) as Hf by by rewrite Hm.
    by apply merge_fail in Hf as (x & [=] & _).
Qed.

Lemma merge_is_union_or_conflict_witness :
  (valid ex_left ∧ valid ex_right ∧ succeeds (ScalarRegister.merge ex_left ex_right) = true) ∧
  ∃ x, conflict ex_left ex_clash x.
Proof.
  split; [split; [apply ex_left_valid|split; [apply ex_right_valid|by vm_compute]]|].
  pose proof (merge_is_union_or_conflict ex_left ex_clash ex_left_valid ex_clash_valid) as Hm.
  assert (ScalarRegister.merge ex_left ex_clash = Err (DuplicateRevisionConflict (rid 2))) as He
    by by_compute.
  rewrite He in Hm. destruct Hm as (x & _ & Hx & _). exists x. exact Hx.
Defined.

(** C31: [merge] makes valid registers a partial join semilattice: it is
    commutative (errors included) and idempotent, and when one association order
    succeeds the other succeeds with the same register. *)
Theorem register_merge_semilattice {T : Type} `{EqDecision T} (a b c ab abc : ScalarRegister T)
    (Ha : valid a) (Hb : valid b) (Hc : valid c)
    (Hab : ScalarRegister.merge a b = Ok ab) (Habc : ScalarRegister.merge ab c = Ok abc) :
  (∀ x y : ScalarRegister T, valid x → valid y → ScalarRegister.merge x y = ScalarRegister.merge y x) ∧
  (∀ x : ScalarRegister T, valid x → ScalarRegister.merge x x = Ok x) ∧
  ∃ bc, ScalarRegister.merge b c = Ok bc ∧ ScalarRegister.merge a bc = Ok abc.
Proof.
  split; [exact (merge_comm (MergeLaws := scalar_merge_laws))|].
  split; [exact (merge_idem (MergeLaws := scalar_merge_laws))|].
  exact (merge_assoc (MergeLaws := scalar_merge_laws) a b c ab abc Ha Hb Hc Hab Habc).
Qed.

Lemma register_merge_semilattice_witness :
  ∃ ab abc bc, ScalarRegister.merge ex_left ex_right = Ok ab ∧
    ScalarRegister.merge ab ex_root = Ok abc ∧
    ScalarRegister.merge ex_right ex_root = Ok bc ∧ ScalarRegister.merge ex_left bc = Ok abc.
Proof.
  assert (is_ok (x ← ScalarRegister.merge ex_left ex_right; ScalarRegister.merge x ex_root))
    as [abc (ab & Hab & Habc)%bind_Ok] by (apply succeeds_Ok; vm_compute; reflexivity).
  destruct (register_merge_semilattice ex_left ex_right ex_root ab abc ex_left_valid ex_right_valid
    ex_root_valid Hab Habc) as (_ & _ & bc & Hbc & Habc').
  exists ab, abc, bc. split; [exact Hab|split; [exact Habc|split; [exact Hbc|exact Habc']]].
Defined.

(** C17: strong convergence of continua of registers: two replicas of one
    continuum that have taken in the same set of states hold the same state,
    whatever the order, the grouping into deliveries and the number of
    repetitions. *)
Theorem continuum_replicas_converge {T : Type} `{EqDecision T} (c : ContinuumId)
    (a b r : ContinuumState (ScalarRegister T)) (l l' : list (ContinuumState (ScalarRegister T)))
    (Hl : ∀ x, x ∈ a :: l → ok_continuum (ok := valid) c x)
    (Hl' : ∀ x, x ∈ b :: l' → ok_continuum (ok := valid) c x)
    (Hsame : ∀ x, x ∈ a :: l ↔ x ∈ b :: l')
    (Hr : merge_all a l = Ok r) :
  merge_all b l' = Ok r.
Proof.
  apply (merge_all_converges (ok := ok_continuum (ok := valid) c) a l b l' r); [..|done|done].
  - apply Hl. left.
  - apply Hl'. left.
  - intros x Hx. apply Hl. by right.
  - intros x Hx. apply Hl'. by right.
Qed.

Definition ex_continuum (atom : AtomId) (r : ScalarRegister N) : ContinuumState (ScalarRegister N) :=
  ContinuumState_mk (cid 1) (AtomMap_mk {[ atom := r ]}).

Lemma ex_continuum_ok atom r : valid r → ok_continuum (ok := valid) (cid 1) (ex_continuum atom r).
Proof.
  intros Hr. split; [done|]. intros k v. cbn. intros [_ <-]%lookup_singleton_Some. done.
Qed.

Definition ex_c1 := ex_continuum (aid 1) ex_left.
Definition ex_c2 := ex_continuum (aid 1) ex_right.
Definition ex_c3 := ex_continuum (aid 2) ex_root.

Lemma continuum_replicas_converge_witness :
  ∃ r, merge_all ex_c1 [ex_c2; ex_c3] = Ok r ∧ merge_all ex_c3 [ex_c1; ex_c2; ex_c1] = Ok r.
Proof.
  assert (∀ x, x ∈ [ex_c1; ex_c2; ex_c3] → ok_continuum (ok := valid) (cid 1) x) as Hok.
  { intros x [-> |[-> |[-> |Hx]%elem_of_cons]%elem_of_cons]%elem_of_cons.
    - apply ex_continuum_ok, ex_left_valid.
    - apply ex_continuum_ok, ex_right_valid.
    - apply ex_continuum_ok, ex_root_valid.
    - exfalso. exact (not_elem_of_nil _ Hx). }
  assert (∀ x, x ∈ [ex_c1; ex_c2; ex_c3] ↔ x ∈ [ex_c3; ex_c1; ex_c2; ex_c1]) as Hsame.
  { intros x. rewrite !elem_of_cons. tauto. }
  assert (is_ok (merge_all ex_c1 [ex_c2; ex_c3])) as [r Hr]
    by (apply succeeds_Ok; vm_compute; reflexivity).
  exists r. split; [exact Hr|].
  apply (continuum_replicas_converge (cid 1) ex_c1 ex_c3 r [ex_c2; ex_c3] [ex_c1; ex_c2; ex_c1]).
  - exact Hok.
  - intros x Hx. apply Hok, Hsame, Hx.
  - exact Hsame.
  - exact Hr.
Defined.

(** A local assignment under a fresh identity takes exactly the current
    frontier as its parents, becomes the whole frontier and the materialized
    value, and lies above everything known; under a known identity it is always
    refused and changes nothing. *)
Theorem assign_advances_frontier {T : Type} `{EqDecision T} (r : ScalarRegister T)
    (x : RevisionId) (v : T) (Hv : valid r) :
  match revisions r !! x with
  | None =>
      let rev := ScalarRevision.new x v (ScalarRegister.frontier_ids r) in
      let r' := ScalarRegister_mk (<[x := rev]> (revisions r)) in
      ScalarRegister.assign x v r = (r', Ok tt) ∧ valid r' ∧
      ScalarRegister.frontier_ids r' = {[x]} ∧ ScalarRegister.materialized r' = Some v ∧
      ∀ a, a ∈ dom (revisions r) → ancestor r' a x
  | Some _ => ScalarRegister.assign x v r = (r, Err (DuplicateRevisionConflict x))
  end.
Proof.
  destruct (revisions r !! x) as [rev|] eqn:Hx; [|by apply assign_fresh].
  apply assign_known; [done|]. by eapply elem_of_dom_2.
Qed.

Lemma assign_advances_frontier_witness :
  valid ex_left ∧ revisions ex_left !! rid 5 = None ∧
  (ScalarRegister.assign (rid 5) 50%N ex_left).2 = Ok tt.
Proof.
  split; [apply ex_left_valid|]. pose proof (assign_advances_frontier ex_left (rid 5) 50%N ex_left_valid) as Ha.
  assert (revisions ex_left !! rid 5 = None) as Hn by by_compute.
  rewrite Hn in Ha. split; [exact Hn|]. destruct Ha as [Ha _]. rewrite Ha. reflexivity.
Defined.

(** Importing a list of statements succeeds exactly when it enumerates a
    valid register (with repetitions, but no identity naming two statements),
    never panics, and importing the statements of a valid register in their
    iteration order gives it back. *)
Theorem from_revisions_enumerates {T : Type} `{EqDecision T} (l : list (ScalarRevision T))
    (r : ScalarRegister T) :
  (ScalarRegister.from_revisions l = Ok r ↔
    valid r ∧ ∀ rev, rev ∈ l ↔ revisions r !! sr_id rev = Some rev) ∧
  ScalarRegister.from_revisions l ≠ Panic ∧
  (valid r → ScalarRegister.from_revisions (ScalarRegister.revisions_iter r) = Ok r).
Proof.
  split_and!; [apply from_revisions_Ok|apply from_revisions_not_panic|apply from_revisions_iter].
Qed.

(** ** Working epochs and local domains *)

(** An editing epoch becomes one portable revision: beginning an epoch,
    editing it and sealing it under a fresh identity creates the revision that
    carries the last edit and, as parents, exactly the frontier that was
    observable when the epoch began; the sealed revision is then the whole
    frontier and its value the working value. *)
Theorem epoch_seals_observed_frontier {T : Type} `{EqDecision T} (s : WorkingScalar T)
    (w : WorkingEpochId) (v v' : T) (x : RevisionId) (Hok : working_ok s)
    (Hclean : pending s = None) (Hfresh : revisions (causal s) !! x = None) :
  let run := (_ ← WorkingScalar.begin_epoch w v; _ ← WorkingScalar.update_pending v';
              WorkingScalar.seal x) in
  let revision := ScalarRevision.new x v' (ScalarRegister.frontier_ids (causal s)) in
  let after := WorkingScalar_mk (extended (causal s) revision) None in
  run s = (after, Ok revision) ∧ working_ok after ∧
  ScalarRegister.frontier_ids (causal after) = {[x]} ∧ WorkingScalar.working_value after = Some v'.
Proof.
  cbn zeta. destruct (assign_fresh (causal s) x v' (proj1 Hok) Hfresh) as (_ & Hv & Hf & Hm).
  split_and!; [|split; [done|by intros ? [=]]|done|by apply Hm].
  rewrite st_bind, begin_epoch_cases, Hclean. rewrite st_bind, update_pending_cases. cbn [pending].
  rewrite seal_cases by (split; [apply Hok|by intros ? [= <-]]). cbn [causal pending we_id].
  by rewrite Hfresh.
Qed.

Definition ex_working : WorkingScalar N := WorkingScalar_mk ex_left None.
Lemma ex_working_ok : working_ok ex_working.
Proof. split; [apply ex_left_valid|by intros ? [=]]. Qed.

Lemma epoch_seals_observed_frontier_witness :
  ∃ after, ((_ ← WorkingScalar.begin_epoch (wid 1) 5%N; _ ← WorkingScalar.update_pending 6%N;
     WorkingScalar.seal (rid 7)) ex_working).1 = after ∧
    WorkingScalar.working_value after = Some 6%N.
Proof.
  assert (revisions (causal ex_working) !! rid 7 = None) as Hn by by_compute.
  destruct (epoch_seals_observed_frontier ex_working (wid 1) 5%N 6%N (rid 7) ex_working_ok
    eq_refl Hn) as (Hrun & _ & _ & Hval).
  eexists. split; [rewrite Hrun; reflexivity|exact Hval].
Defined.

(** C32: what [observe_remote] does to a domain, result and state after it on
    every branch.  Dirty work is first sealed into a revision whose parents are
    the frontier it observed; the merge then gives the register and the sealed
    revision is registered as local, or it fails with its conflict: the register
    then holds the sealed revision, the epoch is gone and the ledger is
    unchanged.  A missing or superfluous seal identity, and one already in use,
    is refused without any change, and the call never panics. *)
Theorem observe_remote_seals_first {T : Type} `{EqDecision T} (d : LocalScalarDomain T)
    (remote : ScalarRegister T) (pre : option RevisionId)
    (Hok : domain_ok d) (Hr : valid remote) :
  let r := causal (working d) in
  let '(d', res) := LocalScalarDomain.observe_remote remote pre d in
  match pending (working d), pre with
  | Some e, Some x =>
      match revisions r !! x with
      | Some _ => d' = d ∧ res = Err (RevisionAlreadyKnown x)
      | None =>
          let rev := ScalarRevision.new x (we_value e) (ScalarRegister.frontier_ids r) in
          match ScalarRegister.merge (extended r rev) remote with
          | Ok merged =>
              res = Ok (Some rev) ∧ working d' = WorkingScalar_mk merged None ∧
              local_revision_ids (finalization d') = {[x]} ∪ local_revision_ids (finalization d) ∧
              finalized (finalization d') = finalized (finalization d) ∧
              exposed_local_ids (finalization d') = exposed_local_ids (finalization d) ∧
              handed_off_local_ids (finalization d') = handed_off_local_ids (finalization d)
          | Err err =>
              res = Err err ∧ working d' = WorkingScalar_mk (extended r rev) None ∧
              finalization d' = finalization d
          | Panic => False
          end
      end
  | Some _, None => d' = d ∧ res = Err DirtyObservationRequiresSeal
  | None, Some x => d' = d ∧ res = Err (UnexpectedPreObservationRevision x)
  | None, None =>
      match ScalarRegister.merge r remote with
      | Ok merged =>
          res = Ok None ∧ working d' = WorkingScalar_mk merged None ∧
          finalization d' = finalization d
      | Err e => d' = d ∧ res = Err e
      | Panic => False
      end
  end.
Proof.
  cbn zeta. rewrite observe_remote_domain_cases by done. unfold observed_base.
  destruct (pending (working d)) as [e|] eqn:He, pre as [x|]; [|done..|].
  - destruct (revisions (causal (working d)) !! x) as [rev|] eqn:Hx.
    + by rewrite decide_True by eauto.
    + rewrite decide_False by (by intros [? [=]]). cbn [causal].
      rewrite <-(proj2 (proj1 Hok) e He). fold (sealed_revision x e).
      destruct (ScalarRegister.merge _ remote) as [m|er|] eqn:Hm; [by split_and!..|].
      apply (merge_no_panic (MergeLaws := scalar_merge_laws) (extended (causal (working d)) (sealed_revision x e)) remote);
        [|done..]. apply (sealed_valid (working d)); [apply Hok|done..].
  - destruct (ScalarRegister.merge (causal (working d)) remote) as [m|er|] eqn:Hm;
      [done|by destruct d|].
    by apply (merge_no_panic (MergeLaws := scalar_merge_laws) (causal (working d)) remote
      (domain_ok_causal d Hok) Hr).
Qed.

(** A domain over [ex_left] with an open epoch. *)
Definition ex_clean : LocalScalarDomain N := LocalScalarDomain_mk ex_working FinalizationLedger.new.
Definition ex_dirty : LocalScalarDomain N := run_domain_call (BeginEpoch (wid 1) 5%N) ex_clean.

Lemma ex_clean_reachable : domain_reachable ex_clean.
Proof.
  apply (reachable_init ex_left); [apply ex_left_valid|].
  unfold LocalScalarDomain.from_causal, WorkingScalar.from_causal.
  rewrite (proj2 (validate_valid ex_left tt (proj1 ex_left_valid)) ex_left_valid). reflexivity.
Qed.
Lemma ex_dirty_reachable : domain_reachable ex_dirty.
Proof. apply reachable_call; [apply ex_clean_reachable|exact I]. Qed.

(** The clean domain, and the dirty one whose epoch is sealed first. *)
Lemma observe_remote_seals_first_witness :
  valid ex_right ∧ domain_ok ex_clean ∧ domain_ok ex_dirty ∧
  working (LocalScalarDomain.observe_remote ex_right None ex_clean).1 =
    WorkingScalar_mk (joined ex_left ex_right) None ∧
  let sealed := ScalarRevision.new (rid 8) 5%N (ScalarRegister.frontier_ids ex_left) in
  let '(d, res) := LocalScalarDomain.observe_remote ex_right (Some (rid 8)) ex_dirty in
  res = Ok (Some sealed) ∧
  working d = WorkingScalar_mk (joined (extended ex_left sealed) ex_right) None ∧
  local_revision_ids (finalization d) = {[rid 8]} ∪ local_revision_ids (finalization ex_dirty).
Proof.
  assert (domain_ok ex_clean) as Hclean by exact (domain_reachable_ok _ ex_clean_reachable).
  assert (domain_ok ex_dirty) as Hdirty by exact (domain_reachable_ok _ ex_dirty_reachable).
  split; [apply ex_right_valid|]. split; [exact Hclean|]. split; [exact Hdirty|]. split.
  - pose proof (observe_remote_seals_first ex_clean ex_right None Hclean ex_right_valid) as Ho.
    assert (ScalarRegister.merge (causal (working ex_clean)) ex_right = Ok (joined ex_left ex_right))
      as Hm by by_compute.
    destruct (LocalScalarDomain.observe_remote ex_right None ex_clean) as [d' res].
    change (pending (working ex_clean)) with (@None (WorkingEpoch N)) in Ho. cbv iota zeta in Ho.
    rewrite Hm in Ho. exact (proj1 (proj2 Ho)).
  - cbn zeta. set (sealed := ScalarRevision.new (rid 8) 5%N (ScalarRegister.frontier_ids ex_left)).
    pose proof (observe_remote_seals_first ex_dirty ex_right (Some (rid 8)) Hdirty ex_right_valid) as Ho.
    assert (ScalarRegister.merge (extended (causal (working ex_dirty))
      (ScalarRevision.new (rid 8) 5%N (ScalarRegister.frontier_ids (causal (working ex_dirty))))) ex_right
      = Ok (joined (extended ex_left sealed) ex_right)) as Hm by by_compute.
    assert (pending (working ex_dirty) = Some (WorkingEpoch_mk (wid 1) 5%N (ScalarRegister.frontier_ids ex_left)))
      as He by by_compute.
    assert (revisions (causal (working ex_dirty)) !! rid 8 = None) as Hx by by_compute.
    destruct (LocalScalarDomain.observe_remote ex_right (Some (rid 8)) ex_dirty) as [d' res].
    cbv zeta in Ho. rewrite He, Hx in Ho. cbv iota zeta in Ho. cbn [we_value] in Ho. rewrite Hm in Ho.
    destruct Ho as (Hres & Hw & Hl & _). split; [|split; [exact Hw|exact Hl]].
    rewrite Hres. by_compute.
Defined.

(** C18: in every state a domain can reach through its methods, whether the
    calls succeeded or failed, the register is valid, an open epoch observes the
    current frontier and the ledger is well formed (what is handed off is
    exposed, what is exposed is local and frozen together with every local
    revision it depends on, and frozen statements are the register's own); and
    no further call rolls back a revision, an ownership, a frozen statement or
    an exposure. *)
Theorem domain_invariant {T : Type} `{EqDecision T} (d : LocalScalarDomain T)
    (cs : list (domain_call T)) (Hd : domain_reachable d) (Hcs : ∀ c, c ∈ cs → call_ok c) :
  domain_ok d ∧ domain_ok (run_domain_calls cs d) ∧ retains d (run_domain_calls cs d).
Proof.
  apply domain_reachable_ok in Hd. split; [done|]. by apply run_domain_calls_ok.
Qed.

Lemma domain_invariant_witness :
  domain_ok (run_domain_calls [SealLocal (rid 9); Finalize (rid 9); Handoff [rid 9]] ex_dirty).
Proof.
  refine (proj1 (proj2 (domain_invariant ex_dirty
    [SealLocal (rid 9); Finalize (rid 9); Handoff [rid 9]] ex_dirty_reachable _))).
  intros c [-> |[-> |[-> |Hc]%elem_of_cons]%elem_of_cons]%elem_of_cons; [exact I..|].
  exfalso. exact (not_elem_of_nil _ Hc).
Defined.

(** Crash recovery is exact: restoring the snapshot of a reachable domain
    gives back that domain, open epoch and ledger included. *)
Theorem domain_snapshot_restores {T : Type} `{EqDecision T} (d : LocalScalarDomain T)
    (Hd : domain_reachable d) :
  LocalScalarDomain.restore (LocalScalarDomain.snapshot d) = Ok d.
Proof. by apply domain_restore_snapshot, domain_reachable_ok. Qed.

Lemma domain_snapshot_restores_witness :
  LocalScalarDomain.restore (LocalScalarDomain.snapshot ex_dirty) = Ok ex_dirty.
Proof. exact (domain_snapshot_restores ex_dirty ex_dirty_reachable). Defined.

(** C19: [handoff] is all or nothing.  It succeeds exactly when every named
    revision is known and every local revision in their dependency closure is
    frozen, and then exposes exactly that local closure; otherwise it reports an
    unknown named revision or an unfrozen dependency and changes nothing. *)
Theorem handoff_exposes_closure {T : Type} `{EqDecision T} (d : LocalScalarDomain T)
    (ids : list RevisionId) (Hd : domain_reachable d) :
  let '(d', res) := LocalScalarDomain.handoff ids d in
  let r := causal (working d) in
  let direct : gset RevisionId := list_to_set ids in
  match res with
  | Ok _ =>
      direct ⊆ dom (revisions r) ∧
      (∀ x, exposes r (finalization d) direct x → x ∈ dom (finalized (finalization d))) ∧
      (∀ x, x ∈ exposed_local_ids (finalization d') ↔
        x ∈ exposed_local_ids (finalization d) ∨ exposes r (finalization d) direct x) ∧
      (∀ x, x ∈ handed_off_local_ids (finalization d') ↔
        x ∈ handed_off_local_ids (finalization d) ∨
        (x ∈ direct ∧ x ∈ local_revision_ids (finalization d)))
  | Err e =>
      d' = d ∧
      ((∃ x, e = UnknownRevision x ∧ x ∈ direct ∧ x ∉ dom (revisions r)) ∨
       (∃ x, e = HandoffRequiresFinalizedRevision x ∧ exposes r (finalization d) direct x ∧
         x ∉ dom (finalized (finalization d))))
  | Panic => False
  end.
Proof.
  apply domain_reachable_ok in Hd. unfold LocalScalarDomain.handoff. rewrite on_finalization_eq.
  pose proof (handoff_spec _ _ ids (domain_ok_causal _ Hd) (proj2 Hd)) as Hs.
  destruct (FinalizationLedger.handoff _ ids (finalization d)) as [l' [u|e|]]; cbn [fst snd].
  - by destruct Hs as (? & ? & _ & _ & ? & ?).
  - destruct Hs as [-> Hs]. by destruct d.
  - done.
Qed.

Lemma handoff_exposes_closure_witness :
  (LocalScalarDomain.handoff [rid 77] ex_dirty).1 = ex_dirty.
Proof.
  pose proof (handoff_exposes_closure ex_dirty [rid 77] ex_dirty_reachable) as Hh.
  assert (succeeds (LocalScalarDomain.handoff [rid 77] ex_dirty).2 = false) as Hs by by vm_compute.
  destruct (LocalScalarDomain.handoff [rid 77] ex_dirty) as [d' [u|e|]].
  - discriminate Hs.
  - exact (proj1 Hh).
  - destruct Hh.
Defined.

(** C39: a remote observation that fails in the merge, after it has sealed the
    open epoch, strands the sealed revision: the call returns an error, but the
    epoch is gone, its revision is in the register and is not registered as
    local, so it can neither be finalized nor is it protected at handoff. *)
Theorem failed_observation_strands_seal {T : Type} `{EqDecision T} (d : LocalScalarDomain T)
    (remote : ScalarRegister T) (x : RevisionId) (e : WorkingEpoch T) (err : CoreError)
    (Hok : domain_ok d) (Hr : valid remote) (He : pending (working d) = Some e)
    (Hx : revisions (causal (working d)) !! x = None)
    (Hfail : ScalarRegister.merge (extended (causal (working d)) (sealed_revision x e)) remote
             = Err err) :
  let '(d', res) := LocalScalarDomain.observe_remote remote (Some x) d in
  res = Err err ∧ pending (working d') = None ∧
  revisions (causal (working d')) !! x = Some (sealed_revision x e) ∧
  x ∉ local_revision_ids (finalization d') ∧
  LocalScalarDomain.finalize x d' = (d', Err (UnknownLocalRevision x)).
Proof.
  pose proof (observe_remote_domain_ok d remote (Some x) (proj1 Hr) Hok) as Hok'.
  rewrite observe_remote_domain_cases in * by done. unfold observed_base in *. rewrite He in *.
  rewrite decide_False in * by (rewrite Hx; by intros [? [=]]). cbn [causal] in *.
  rewrite Hfail in *.
  assert (x ∉ local_revision_ids (finalization d)) as Hloc.
  { destruct Hok as [_ [(_ & _ & _ & Hl & _) _]]. apply not_elem_of_dom in Hx. set_solver. }
  split_and!; [done|done|cbn; apply lookup_insert_eq|done|].
  unfold LocalScalarDomain.finalize. rewrite on_finalization_eq, finalize_cases by apply Hok'.
  cbn [finalization working causal fst snd].
  assert (revisions (extended (causal (working d)) (sealed_revision x e)) !! x =
    Some (sealed_revision x e)) as -> by apply lookup_insert_eq.
  by rewrite !decide_False by done.
Qed.

Lemma failed_observation_strands_seal_witness :
  ∃ d', (LocalScalarDomain.observe_remote (assign_all [(rid 8, 80%N)] ex_root) (Some (rid 8)) ex_dirty).1 = d'
    ∧ LocalScalarDomain.finalize (rid 8) d' = (d', Err (UnknownLocalRevision (rid 8))).
Proof.
  set (e := WorkingEpoch_mk (wid 1) 5%N (ScalarRegister.frontier_ids ex_left)).
  set (remote := assign_all [(rid 8, 80%N)] ex_root).
  assert (valid remote) as Hr by (apply assign_all_valid, ex_root_valid).
  assert (pending (working ex_dirty) = Some e) as He by by_compute.
  assert (revisions (causal (working ex_dirty)) !! rid 8 = None) as Hx by by_compute.
  assert (ScalarRegister.merge (extended (causal (working ex_dirty)) (sealed_revision (rid 8) e)) remote
    = Err (DuplicateRevisionConflict (rid 8))) as Hf by by_compute.
  pose proof (failed_observation_strands_seal ex_dirty remote (rid 8) e _
    (domain_reachable_ok _ ex_dirty_reachable) Hr He Hx Hf) as Hs.
  destruct (LocalScalarDomain.observe_remote remote (Some (rid 8)) ex_dirty) as [d' res].
  exists d'. split; [reflexivity|]. exact (proj2 (proj2 (proj2 (proj2 Hs)))).
Defined.

(** C40: what [restore] accepts is exactly the snapshots of domains whose
    register is valid, whose epoch is current and whose ledger has the checked
    shape.  The shape does not include that exposed revisions are frozen: a
    snapshot that exposes an unfrozen local revision is accepted, although no
    sequence of calls produces it. *)
Theorem restore_accepts_shape {T : Type} `{EqDecision T} (snap : LocalScalarSnapshot T)
    (v : T) (Hk : keyed (ws_causal (lss_working snap))) :
  (∀ d, LocalScalarDomain.restore snap = Ok d ↔
    snap = LocalScalarDomain.snapshot d ∧ working_ok (working d) ∧
    ledger_shape (causal (working d)) (finalization d)) ∧
  ∃ d : LocalScalarDomain T,
    LocalScalarDomain.restore (LocalScalarDomain.snapshot d) = Ok d ∧ ¬ domain_reachable d.
Proof.
  split; [intros d; by apply domain_restore_Ok|].
  set (r := (ScalarRegister.assign (rid 1) v ScalarRegister.new).1).
  assert (valid r) as Hv by apply assign_valid, new_valid.
  assert (rid 1 ∈ dom (revisions r)) as Hin.
  { unfold r. destruct (assign_fresh ScalarRegister.new (rid 1) v new_valid) as (-> & _);
      [apply lookup_empty|]. cbn. rewrite dom_insert. set_solver. }
  exists (LocalScalarDomain_mk (WorkingScalar_mk r None)
    (FinalizationLedger_mk {[rid 1]} ∅ {[rid 1]} ∅)). split.
  - apply domain_restore_Ok; [apply Hv|]. split; [done|]. split; [by split; [|intros ? [=]]|].
    split_and!; cbn; [set_solver..|]. intros x st Hst. cbn in Hst. by rewrite lookup_empty in Hst.
  - intros [_ [_ [Hef _]]]%domain_reachable_ok. cbn in Hef. rewrite dom_empty in Hef. set_solver.
Qed.

Lemma restore_accepts_shape_witness :
  ∃ d : LocalScalarDomain N,
    LocalScalarDomain.restore (LocalScalarDomain.snapshot d) = Ok d ∧ ¬ domain_reachable d.
Proof.
  exact (proj2 (restore_accepts_shape (LocalScalarDomain.snapshot ex_clean) 1%N (proj1 ex_left_valid))).
Defined.

(** ** Durability *)

(** C2: crash safety of [commit_durable], against the documented backend
    contract: a power loss after any number of its calls leaves a state that was
    recoverable before or the new one, never a third; and once it has returned
    [Ok] only the new state can be recovered. *)
Theorem commit_durable_crash_safe {B S : Type} `{DurabilityLaws B S} (b : B) (s : S)
    (Hb : backend_ok b) :
  (∀ steps, let b' := (commit_prefix steps s b).1 in
    backend_ok b' ∧ ∀ o, recoverable b' o → recoverable b o ∨ o = Some s) ∧
  commit_prefix 4 s b = commit_durable s b ∧
  ((commit_durable s b).2 = Ok tt → ∀ o, recoverable (commit_durable s b).1 o → o = Some s).
Proof.
  split; [intros steps; by apply commit_prefix_safe|]. split; [done|].
  destruct (commit_durable s b) as [b' res] eqn:Hc. cbn [fst snd]. intros ->.
  by eapply commit_durable_ack.
Qed.

Lemma commit_durable_crash_safe_witness :
  Forall (λ flag, CrashBackend.load_committed (CrashBackend.crash flag
    (commit_durable 2%N (CrashBackend.with_committed 1%N)).1) = Ok (Some 2%N)) [true; false].
Proof.
  apply Forall_forall. intros flag _. set (b := CrashBackend.with_committed 1%N).
  pose proof (commit_durable_crash_safe b 2%N (with_committed_ok 1%N)) as (_ & _ & Hack).
  assert ((commit_durable 2%N b).2 = Ok tt) as Hres by (vm_compute; reflexivity).
  destruct (CrashBackend.load_committed (CrashBackend.crash flag (commit_durable 2%N b).1))
    as [o|[]|] eqn:Hl; [|discriminate Hl].
  f_equal. apply (Hack Hres). exists (CrashBackend.crash flag (commit_durable 2%N b).1).
  split; [exists flag; reflexivity|exact Hl].
Defined.
