(* ===== verification/SyncProperties.v ===== *)
(** * Properties of synchronization (crates/apc-sync, crates/apc-crypto)

    The theorems about projections, the codecs, protection, the multipart inbox,
    durable sessions and the foreground gate, with their witnesses. *)
From Stdlib Require Import Lia NArith Strings.Byte.
From stdpp Require Import base tactics option list gmap numbers.
From S2P Require Import Prelude BTree Bytes Id Error Worklist Scalar Causal Merge ScalarMerge.
From S2P Require Import Durability Reader Projection Codec Crypto Protected Wire Recovery.
From S2P Require Import Transport Session Batch RecordStore.
Local Open Scope N_scope.

(** ** A concrete cipher

    The message followed by a tag that depends on the associated data: enough to
    satisfy the laws, so that the theorems that assume them have instances. *)
Definition toy_tag (aad : list byte) : list byte := take 16 (reverse aad ++ replicate 16 x00).

Definition toy_decrypt (aad c : list byte) : option (list byte) :=
  let n := (length c - 16)%nat in
  if decide (drop n c = toy_tag aad) then Some (take n c) else None.

Definition toy_aead : Aead := {|
  aead_encrypt _ _ aad m := Some (m ++ toy_tag aad);
  aead_decrypt _ _ aad c := toy_decrypt aad c;
|}.
#[local] Existing Instance toy_aead.

Lemma length_toy_tag aad : length (toy_tag aad) = 16%nat.
Proof. unfold toy_tag. rewrite length_take, length_app, length_replicate. lia. Qed.

#[local] Instance toy_aead_laws : AeadLaws.
Proof.
  split; cbn; unfold toy_decrypt.
  - intros key nonce aad m c [= <-]. rewrite length_app, length_toy_tag, Nat.add_sub.
    by rewrite drop_app_length, take_app_length, decide_True.
  - intros key nonce aad m c. case_decide as Hd; [|done]. intros [= <-].
    by rewrite <-Hd, take_drop.
  - intros key nonce aad m c [= <-]. rewrite len_app. unfold len at 2. by rewrite length_toy_tag.
Qed.

Definition array_of (n : nat) (b : byte) : byte_array n :=
  replicate n b ↾ bool_decide_pack _ (length_replicate n b).
Definition ex_key : ContentKey := ContentKey_mk (array_of KEY_BYTES x42).
Definition ex_nonce : byte_array NONCE_BYTES := array_of NONCE_BYTES x07.

(** ** Protection *)

(** [unprotect] is exact: for an envelope of allocatable size it never panics
    and returns a plaintext iff the context is not empty and the envelope is,
    byte for byte, what protecting that plaintext under the same key and context
    gives for some nonce. *)
Theorem unprotect_exact `{AeadLaws} (key : ContentKey) (context envelope m : list byte)
    (Hlen : len envelope ≤ isize_max) :
  unprotect key context envelope ≠ Panic ∧
  (unprotect key context envelope = Ok m ↔
   context ≠ [] ∧ ∃ nonce, protect_with_nonce key context m nonce = Ok envelope).
Proof. split; [apply unprotect_no_panic|by apply unprotect_Ok]. Qed.

Definition ex_envelope : list byte :=
  default [] (result_value (protect_with_nonce ex_key (b_ "ctx") (b_ "secret") ex_nonce)).

Lemma unprotect_exact_witness : unprotect ex_key (b_ "ctx") ex_envelope = Ok (b_ "secret").
Proof.
  assert (len ex_envelope ≤ isize_max) as Hlen by by_compute.
  refine (proj2 (proj2 (unprotect_exact ex_key (b_ "ctx") ex_envelope (b_ "secret") Hlen)) _).
  split; [discriminate|]. exists ex_nonce. vm_compute. reflexivity.
Defined.

(** ** Codecs *)

(** C36: the projection codec is exact on well-formed projections: encoding
    succeeds iff every length fits its 64-bit field, and decoding what was
    encoded gives the projection back; whatever the bytes, the decoder does not
    panic, and what it accepts is a valid projection. *)
Theorem projection_codec_exact (p : ScalarSyncProjection) (encoded : list byte)
    (Hv : projection_valid p) (Hlen : len encoded ≤ isize_max) :
  (is_ok (encode_scalar_projection p) ↔ projection_fits p) ∧
  (encode_scalar_projection p = Ok encoded → decode_scalar_projection encoded = Ok p) ∧
  decode_scalar_projection encoded ≠ Panic ∧
  ∀ q, decode_scalar_projection encoded = Ok q → projection_valid q.
Proof.
  destruct (encode_grammar p Hv) as (Hfits & _ & Hg).
  destruct (decode_grammar encoded Hlen) as [Hnp Hd].
  split; [done|]. split; [intros He; by apply Hd, Hg|]. split; [done|].
  intros q Hq. by apply (g_projection_valid encoded), Hd.
Qed.

Definition ex_register : ScalarRegister (list byte) :=
  assign_all [(rid 2, b_ "two")] (register_of [(rid 1, b_ "one")]).
Definition ex_domain_key : DomainKey := DomainKey_mk (aid 1) (b_ "title").
Definition ex_projection : ScalarSyncProjection := SyncProjection_mk {[ ex_domain_key := ex_register ]}.

Lemma ex_register_valid : valid ex_register.
Proof. apply assign_all_valid, register_of_valid. Qed.

Lemma singleton_projection_valid k r :
  dk_domain k ≠ [] → valid r → projection_valid (SyncProjection_mk {[ k := r ]}).
Proof. intros Hk Hr k' r'. cbn. intros [<- <-]%lookup_singleton_Some. done. Qed.

Lemma ex_projection_valid : projection_valid ex_projection.
Proof. apply singleton_projection_valid; [done|exact ex_register_valid]. Qed.

Lemma projection_codec_exact_witness :
  match encode_scalar_projection ex_projection with
  | Ok encoded => decode_scalar_projection encoded = Ok ex_projection
  | _ => False
  end.
Proof.
  assert (succeeds (encode_scalar_projection ex_projection) = true) as Hs by (vm_compute; reflexivity).
  assert (bool_decide (len (default [] (result_value (encode_scalar_projection ex_projection))) ≤ isize_max)
    = true) as Hlen%bool_decide_eq_true_1 by (vm_compute; reflexivity).
  destruct (encode_scalar_projection ex_projection) as [encoded| |] eqn:He; [|discriminate Hs..].
  exact (proj1 (proj2 (projection_codec_exact ex_projection encoded ex_projection_valid Hlen)) He).
Defined.

(** The wire codec is a canonical bijection: an encoding decodes to a part
    iff it is the encoding of that part and the part's bookkeeping fits its
    32-bit fields; so two encodings of one part are equal, and no byte sequence
    makes the decoder panic. *)
Theorem wire_part_bijection (encoded : list byte) (Hlen : len encoded ≤ isize_max) :
  decode_protected_sync_part encoded ≠ Panic ∧
  (∀ part, decode_protected_sync_part encoded = Ok part ↔
    part_index part ≤ u32_max ∧ total_parts part ≤ u32_max ∧
    encode_protected_sync_part part = Ok encoded) ∧
  ∀ part, is_ok (encode_protected_sync_part part) ↔
    part_index part < total_parts part ∧ len (payload part) ≤ u64_max.
Proof.
  destruct (decode_part_spec encoded Hlen) as [Hnp Hd]. split; [done|]. split.
  - intros part. rewrite Hd. unfold part_fits. naive_solver.
  - intros part. unfold is_ok. setoid_rewrite encode_part_Ok. naive_solver.
Qed.

Definition ex_pid : PublicationId := from_bytes (array_of 32 x05).
Definition ex_part : ProtectedSyncPart := ProtectedSyncPart_mk ex_pid 1 3 (b_ "opaque").

Lemma wire_part_bijection_witness :
  match encode_protected_sync_part ex_part with
  | Ok encoded => decode_protected_sync_part encoded = Ok ex_part
  | _ => False
  end.
Proof.
  destruct (encode_protected_sync_part ex_part) as [encoded| |] eqn:He; [|discriminate He..].
  assert (len encoded ≤ isize_max) as Hlen.
  { injection He as <-. by_compute. }
  refine (proj2 (proj1 (proj2 (wire_part_bijection encoded Hlen)) ex_part) _).
  split; [by_compute|]. split; [by_compute|exact He].
Defined.

(** The recovery codec gives a durable record back: for a record as the
    operations build it, encoding succeeds iff every length fits, and what was
    encoded decodes to the same trusted state, cursor and outbox; whatever
    decodes is a record of that kind. *)
Theorem recovery_record_roundtrip (r : DurableSyncRecord) (encoded : list byte)
    (Hok : record_ok r) (Hal : record_allocates r) (Hlen : len encoded ≤ isize_max) :
  (is_ok (encode_durable_sync_record r) ↔ record_fits r) ∧
  (encode_durable_sync_record r = Ok encoded → decode_durable_sync_record encoded = Ok r) ∧
  ∀ r', decode_durable_sync_record encoded = Ok r' → record_ok r' ∧ record_allocates r'.
Proof.
  destruct (encode_record_spec r Hok Hal) as (Hfits & _ & Hg).
  pose proof (decode_record_spec encoded) as Hd.
  split; [done|]. split; [intros He; by apply Hd, Hg|].
  intros r' (c & -> & Hr)%Hd; [|done]. by eapply g_record_ok.
Qed.

Definition ex_cursor : TransportCursor := TransportCursor_mk (b_ "R0").
Definition ex_entry : DurableOutboxEntry :=
  DurableOutboxEntry_mk ex_pid (Some ex_cursor) [b_ "wire-1"; b_ "wire-2"].
Definition ex_record : DurableSyncRecord :=
  DurableSyncRecord_mk (b_ "trusted") (Some ex_cursor) {[ ex_pid := ex_entry ]}.

Lemma ex_record_ok : record_ok ex_record ∧ record_allocates ex_record.
Proof.
  assert (∀ o, o ∈ objects ex_entry → o ≠ []) as Hobjs.
  { intros o Ho. cbn in Ho. repeat (apply elem_of_cons in Ho as [-> |Ho]; [discriminate|]).
    by apply not_elem_of_nil in Ho. }
  assert (∀ c, Some ex_cursor = Some c → cursor_bytes c ≠ []) as Hcur by (by intros ? [= <-]).
  split; [split; [exact Hcur|]|]; intros pid e; cbn; intros [<- <-]%lookup_singleton_Some.
  - split; [reflexivity|]. split; [exact Hcur|]. split; [discriminate|exact Hobjs].
  - by_compute.
Qed.

Lemma recovery_record_roundtrip_witness :
  match encode_durable_sync_record ex_record with
  | Ok encoded => decode_durable_sync_record encoded = Ok ex_record
  | _ => False
  end.
Proof.
  assert (succeeds (encode_durable_sync_record ex_record) = true) as Hs by (vm_compute; reflexivity).
  assert (bool_decide (len (default [] (result_value (encode_durable_sync_record ex_record))) ≤ isize_max)
    = true) as Hlen%bool_decide_eq_true_1 by (vm_compute; reflexivity).
  destruct (encode_durable_sync_record ex_record) as [encoded| |] eqn:He; [|discriminate Hs..].
  exact (proj1 (proj2 (recovery_record_roundtrip ex_record encoded (proj1 ex_record_ok)
    (proj2 ex_record_ok) Hlen)) He).
Defined.

(** 68 bytes that announce [object_count] objects in their only entry, and stop
    there. *)
Definition announced_record (object_count : N) : list byte :=
  Recovery.MAGIC ++ be_bytes 2 Recovery.VERSION ++ be_bytes 8 0 ++ [x00] ++ be_bytes 8 1 ++
  id_slice ex_pid ++ [x00] ++ be_bytes 8 object_count.

(** The recovery decoder does not fail closed on every input: 68 bytes that
    announce 2^59 objects make it reserve memory for them before reading any,
    beyond what an allocation may hold, and it panics; the same bytes with a
    smaller count are refused as an unexpected end of input. *)
Theorem record_decoder_capacity_panic :
  len (announced_record (2 ^ 59)) = 68 ∧
  decode_durable_sync_record (announced_record (2 ^ 59)) = Panic ∧
  decode_durable_sync_record (announced_record (2 ^ 20)) = Err UnexpectedEof.
Proof. by_compute. Qed.

(** ** Local and remote domain states *)

(** C27: no unpublished work is lost: whatever local changes and imports happen
    between exporting the dirty domains and acknowledging that export, the
    acknowledgement changes no state, and clears the marker of a domain iff it
    was exported and still has exactly the exported state; local changes always
    mark, imports never do. *)
Theorem unpublished_work_kept {K S : Type} `{OrdLaws K} `{!EqDecision K, !Countable K}
    `{!EqDecision S, !MergeState S} (d : DirtyDomainState K S) (p : SyncProjection K S)
    (calls : list (dirty_call K S))
    (Hok : dirty_ok d) (Hp : DirtyDomainState.export_dirty d = Some p) :
  let d1 := run_dirty_calls calls d in
  let d2 := DirtyDomainState.acknowledge p d1 in
  (∀ k, domains p !! k = if decide (k ∈ dirty d) then dd_domains d !! k else None) ∧
  dd_domains d2 = dd_domains d1 ∧
  (∀ k, k ∈ dirty d1 ↔ k ∈ dirty d ∨ k ∈ set_keys calls) ∧
  (∀ k, k ∈ dirty d2 ↔ k ∈ dirty d1 ∧ ¬ (k ∈ dirty d ∧ dd_domains d1 !! k = dd_domains d !! k)).
Proof.
  cbn zeta. rewrite export_dirty_spec in Hp. case_decide; [done|]. injection Hp as <-.
  assert (∀ k, filter (λ kv, kv.1 ∈ dirty d) (dd_domains d) !! k =
    if decide (k ∈ dirty d) then dd_domains d !! k else None) as Hf.
  { intros k. apply option_eq. intros v. rewrite map_lookup_filter_Some. case_decide; naive_solver. }
  split; [done|].
  destruct (acknowledge_spec (run_dirty_calls calls d)
    (SyncProjection_mk (filter (λ kv, kv.1 ∈ dirty d) (dd_domains d)))) as [Hd Hk].
  split; [done|]. split; [intros k; apply run_dirty_calls_dirty|].
  intros k. rewrite Hk. cbn [domains]. rewrite Hf. case_decide as Hin.
  - assert (is_Some (dd_domains d !! k)) as [v Hv] by (by apply elem_of_dom, Hok).
    rewrite Hv. naive_solver.
  - naive_solver.
Qed.

Definition ex_dirty_domains : ScalarDirtyDomainState :=
  DirtyDomainState.set_local ex_domain_key ex_register DirtyDomainState.new.

Definition ex_newer : ScalarRegister (list byte) := assign_all [(rid 3, b_ "three")] ex_register.

(** The domain is changed again after the export, so the acknowledgement leaves
    it dirty. *)
Lemma unpublished_work_kept_witness :
  match DirtyDomainState.export_dirty ex_dirty_domains with
  | Some p => ex_domain_key ∈ dirty (DirtyDomainState.acknowledge p
      (run_dirty_calls [CallImport p; CallSetLocal ex_domain_key ex_newer] ex_dirty_domains))
  | None => False
  end.
Proof.
  assert (dirty_ok ex_dirty_domains) as Hok by exact (set_local_ok _ _ _ new_dirty_ok).
  destruct (DirtyDomainState.export_dirty ex_dirty_domains) as [p|] eqn:Hp.
  - pose proof (unpublished_work_kept ex_dirty_domains p
      [CallImport p; CallSetLocal ex_domain_key ex_newer] Hok Hp) as (_ & _ & Hd1 & Hd2).
    apply Hd2. split.
    + apply Hd1. right. left.
    + intros [_ Heq].
      assert (ex_newer = ex_register) as Hne.
      { cbn [run_dirty_calls foldl run_dirty_call DirtyDomainState.set_local dd_domains] in Heq.
        rewrite lookup_insert_eq in Heq.
        unfold ex_dirty_domains, DirtyDomainState.set_local in Heq. cbn [dd_domains] in Heq.
        rewrite lookup_insert_eq in Heq. exact (Some_inj _ _ Heq). }
      assert (bool_decide (ex_newer = ex_register) = false) as Hb by (vm_compute; reflexivity).
      apply bool_decide_eq_false_1 in Hb. exact (Hb Hne).
  - rewrite export_dirty_spec in Hp. rewrite decide_False in Hp; [discriminate Hp|].
    intros He. apply (not_elem_of_empty (C := gset DomainKey) ex_domain_key). rewrite <-He.
    unfold ex_dirty_domains, DirtyDomainState.set_local. cbn [dirty]. apply elem_of_union_l.
    apply elem_of_singleton_2. reflexivity.
Defined.

(** Importing is merging: a complete import leaves the merge of the two maps
    of domains and no new marker, and replicas that import the same projections
    in different orders end with the same domains. *)
Theorem import_order_irrelevant {T : Type} `{EqDecision T} (d d1 d2 : DirtyDomainState DomainKey (ScalarRegister T))
    (l l' : list (SyncProjection DomainKey (ScalarRegister T)))
    (Hd : ok_projection (ok := valid) (SyncProjection_mk (dd_domains d)))
    (Hl : ∀ p, p ∈ l → ok_projection (ok := valid) p)
    (Hsame : ∀ p, p ∈ l ↔ p ∈ l')
    (H1 : st_for_each DirtyDomainState.import_projection l d = (d1, Ok tt))
    (H2 : (st_for_each DirtyDomainState.import_projection l' d).1 = d2) :
  merge_all (SyncProjection_mk (dd_domains d)) l = Ok (SyncProjection_mk (dd_domains d1)) ∧
  dd_domains d2 = dd_domains d1 ∧ dirty d2 = dirty d1 ∧ dirty d1 = dirty d.
Proof.
  destruct (import_all l d d1 (Ok tt) H1) as [_ [Hm Hdirty]]; [done|].
  destruct (st_for_each DirtyDomainState.import_projection l' d) as [d2' res2] eqn:E2.
  cbn in H2. subst d2'. destruct (import_all l' d d2 res2 E2) as [Htot Hok2].
  assert (merge_all (SyncProjection_mk (dd_domains d)) l' = Ok (SyncProjection_mk (dd_domains d1))) as Hm'.
  { apply (merge_all_converges (ok := ok_projection (ok := valid)) (SyncProjection_mk (dd_domains d)) l);
      [done|done|done| | |done].
    - intros p Hp. by apply Hl, Hsame.
    - intros p. rewrite !elem_of_cons. naive_solver. }
  specialize (Htot _ Hm'). destruct (Hok2 Htot) as [Hm2 Hdirty2].
  rewrite Hm' in Hm2. injection Hm2 as Hm2. split; [done|]. split; [done|]. split; [congruence|done].
Qed.

(** Two replicas' views of one more domain. *)
Definition ex_other_projection : ScalarSyncProjection :=
  SyncProjection_mk {[ DomainKey_mk (aid 2) (b_ "body") := ex_register ]}.

Lemma import_order_irrelevant_witness :
  (st_for_each DirtyDomainState.import_projection [ex_projection; ex_other_projection] ex_dirty_domains).2
    = Ok tt ∧
  dd_domains (st_for_each DirtyDomainState.import_projection
    [ex_other_projection; ex_projection; ex_other_projection] ex_dirty_domains).1 =
  dd_domains (st_for_each DirtyDomainState.import_projection
    [ex_projection; ex_other_projection] ex_dirty_domains).1.
Proof.
  assert (∀ k, ok_projection (ok := valid) (SyncProjection_mk (K := DomainKey) {[ k := ex_register ]})) as Hok.
  { intros k k' r. cbn. intros [_ <-]%lookup_singleton_Some.
    exact ex_register_valid. }
  assert (succeeds (st_for_each DirtyDomainState.import_projection
    [ex_projection; ex_other_projection] ex_dirty_domains).2 = true) as Hs by (vm_compute; reflexivity).
  destruct (st_for_each DirtyDomainState.import_projection
    [ex_projection; ex_other_projection] ex_dirty_domains) as [d1 [[]| |]] eqn:H1; [|discriminate Hs..].
  split; [reflexivity|]. cbn [fst].
  refine (proj1 (proj2 (import_order_irrelevant ex_dirty_domains d1 _ _
    [ex_other_projection; ex_projection; ex_other_projection] _ _ _ H1 eq_refl))).
  - intros k r. cbn. rewrite lookup_insert_Some, lookup_empty. intros [[_ <-]|[_ [=]]].
    exact ex_register_valid.
  - intros p Hp. repeat (apply elem_of_cons in Hp as [-> |Hp]; [apply Hok|]).
    exfalso. exact (not_elem_of_nil _ Hp).
  - intros p. rewrite !elem_of_cons. tauto.
Defined.

(** ** Protected parts *)

(** Protection of a part is exact: a part unprotects to a projection iff its
    bookkeeping is consistent, the projection is not empty, and the payload is
    what protecting an encoding of that projection under the same key, continuum,
    publication, index and total gives; in particular what [protect_scalar_part]
    makes unprotects to the projection it was made from. *)
Theorem part_protection_exact `{AeadLaws} (key : ContentKey) (c : ContinuumId)
    (part : ProtectedSyncPart) (p : ScalarSyncProjection) (Hlen : len (payload part) ≤ isize_max) :
  (unprotect_scalar_part key c part = Ok p ↔
   part_index part < total_parts part ∧ domains p ≠ ∅ ∧
   ∃ nonce clear, decode_scalar_projection clear = Ok p ∧
     len clear ≤ isize_max ∧
     protect_with_nonce key
       (part_context c (publication_id part) (part_index part) (total_parts part)) clear nonce
     = Ok (payload part)) ∧
  (∀ gen pid i t, projection_valid p → protect_scalar_part gen key c pid i t p = Ok part →
   publication_id part = pid ∧ part_index part = i ∧ total_parts part = t ∧
   unprotect_scalar_part key c part = Ok p).
Proof.
  split; [|intros gen pid i t Hv; by apply protect_unprotect_part].
  rewrite unprotect_scalar_part_Ok by done. split.
  - intros (Hm & Hne & nonce & clear & Hg & Hp). split; [done|]. split; [done|].
    assert (len clear ≤ isize_max) as Hclear.
    { pose proof Hp as (ct & Hct & _ & Hpay)%protect_with_nonce_Ok.
      apply aead_length in Hct. rewrite Hpay, len_envelope in Hlen. lia. }
    exists nonce, clear. split; [by apply (decode_grammar clear Hclear)|done].
  - intros (Hm & Hne & nonce & clear & Hd & Hclear & Hp). split; [done|]. split; [done|].
    exists nonce, clear. split; [by apply (decode_grammar clear Hclear)|done].
Qed.

Definition ex_protected : result SyncPartError ProtectedSyncPart :=
  protect_scalar_part (Some ex_nonce) ex_key (cid 1) ex_pid 0 1 ex_projection.

Lemma part_protection_exact_witness :
  match ex_protected with
  | Ok part => unprotect_scalar_part ex_key (cid 1) part = Ok ex_projection
  | _ => False
  end.
Proof.
  assert (succeeds ex_protected = true) as Hs by (vm_compute; reflexivity).
  assert (bool_decide (len (default [] (payload <$> result_value ex_protected)) ≤ isize_max) = true)
    as Hlen%bool_decide_eq_true_1 by (vm_compute; reflexivity).
  destruct ex_protected as [part| |] eqn:He; [|discriminate Hs..].
  exact (proj2 (proj2 (proj2 (proj2 (part_protection_exact ex_key (cid 1) part ex_projection Hlen)
    (Some ex_nonce) ex_pid 0 1 ex_projection_valid He)))).
Defined.

(** The associated data a part is authenticated under in a continuum. *)
Definition part_aad (c : ContinuumId) (part : ProtectedSyncPart) : list byte :=
  build_aad (part_context c (publication_id part) (part_index part) (total_parts part)).

(** C33: a part is bound to its place: if one payload is accepted as two parts
    that differ in the continuum, the publication, the index or the total, then
    the two places have different associated data, and the very ciphertext in
    the payload is, under the content key and the payload's nonce, the cipher's
    encryption of an encoding of the first projection under the first place's
    associated data and of the second's under the second's: a forgery. *)
Theorem relocated_part_is_forgery `{AeadLaws} (key : ContentKey) (c c' : ContinuumId)
    (part part' : ProtectedSyncPart) (p p' : ScalarSyncProjection)
    (Hlen : len (payload part) ≤ isize_max) (Hf : part_fits part) (Hf' : part_fits part')
    (Hpay : payload part = payload part') (Hmoved : c ≠ c' ∨ part ≠ part')
    (Hp : unprotect_scalar_part key c part = Ok p)
    (Hp' : unprotect_scalar_part key c' part' = Ok p') :
  part_aad c part ≠ part_aad c' part' ∧
  ∃ nonce ciphertext clear clear', payload part = envelope_of nonce ciphertext ∧
    aead_encrypt (expose_bytes key) nonce (part_aad c part) clear = Some ciphertext ∧
    decode_scalar_projection clear = Ok p ∧
    aead_encrypt (expose_bytes key) nonce (part_aad c' part') clear' = Some ciphertext ∧
    decode_scalar_projection clear' = Ok p'.
Proof.
  apply unprotect_part_clear in Hp as (m & Hm & Hd). apply unprotect_part_clear in Hp' as (m' & Hm' & Hd').
  rewrite <-Hpay in Hm'.
  assert (part_context c (publication_id part) (part_index part) (total_parts part) ≠
    part_context c' (publication_id part') (part_index part') (total_parts part')) as Hctx.
  { intros (Hc & Hpid & Hi & Ht)%part_context_inj; [|apply Hf|apply Hf|apply Hf'|apply Hf'].
    destruct part, part'; cbn in *; subst. by destruct Hmoved. }
  destruct (unprotect_two_contexts key _ _ _ m m' Hlen Hctx Hm Hm') as (nonce & ct & Henv & Haads & He & He').
  split; [done|]. by exists nonce, ct, m, m'.
Qed.

Lemma relocated_part_is_forgery_witness :
  match ex_protected with
  | Ok part => part_aad (cid 1) part ≠ part_aad (cid 2) part ∧
      ∃ nonce ciphertext clear, payload part = envelope_of nonce ciphertext ∧
        aead_encrypt (expose_bytes ex_key) nonce (part_aad (cid 2) part) clear = Some ciphertext ∧
        decode_scalar_projection clear = Ok ex_projection
  | _ => False
  end.
Proof.
  assert (succeeds ex_protected = true) as Hs by (vm_compute; reflexivity).
  assert (bool_decide (len (default [] (payload <$> result_value ex_protected)) ≤ isize_max) = true)
    as Hlen%bool_decide_eq_true_1 by (vm_compute; reflexivity).
  assert (succeeds (part ← ex_protected; unprotect_scalar_part ex_key (cid 1) part) = true) as H1
    by (vm_compute; reflexivity).
  assert (bool_decide (result_value (part ← ex_protected; unprotect_scalar_part ex_key (cid 2) part)
    = Some ex_projection) = true) as H2%bool_decide_eq_true_1%result_value_Some by (vm_compute; reflexivity).
  assert (part_fits (default ex_part (result_value ex_protected))) as Hf.
  { refine (bool_decide_eq_true_1 (_ ∧ _) _). vm_compute. reflexivity. }
  assert (cid 1 ≠ cid 2) as Hc by by_compute.
  destruct ex_protected as [part| |]; [|discriminate Hs..]. cbn [mbind result_bind] in H1, H2.
  apply succeeds_Ok in H1 as [p Hp].
  destruct (relocated_part_is_forgery ex_key (cid 1) (cid 2) part part p ex_projection Hlen Hf Hf
    eq_refl (or_introl Hc) Hp H2) as (Hne & nonce & ct & m & m' & Henv & _ & _ & He' & Hd').
  split; [exact Hne|]. exists nonce, ct, m'. split; [exact Henv|split; [exact He'|exact Hd']].
Defined.
