(* ===== verification/SessionProperties.v ===== *)
(** * Properties of the inbox, the sessions and the record store

    Assembly of multipart publications, the durable session as a state machine
    over a store that may lose power, batches, the foreground gate and the
    protected record store (crates/apc-sync). *)
From Stdlib Require Import Lia NArith Strings.Byte.
From stdpp Require Import base tactics option list gmap numbers.
From S2P Require Import Prelude BTree Bytes Id Error Worklist Scalar Causal Merge ScalarMerge.
From S2P Require Import Durability Reader Projection Codec Crypto Protected Wire Recovery.
From S2P Require Import Transport Session Batch RecordStore SyncProperties.
Local Open Scope N_scope.
#[local] Existing Instance toy_aead.
#[local] Existing Instance toy_aead_laws.

(** ** Multipart publications *)

(** C26: a multipart publication is assembled whatever the order in which its
    parts arrive and however often they are repeated: until the last missing
    part arrives every call returns nothing and no other publication is touched;
    the call that brings it returns the merge of all the parts and forgets the
    publication; and that merge does not depend on the order of the parts. *)
Theorem multipart_assembly_order_irrelevant `{AeadLaws} (key : ContentKey) (c : ContinuumId)
    (inbox : MultipartInbox) (pid : PublicationId) (total : N)
    (parts : gmap N ScalarSyncProjection)
    (l : list (ProtectedSyncPart * ScalarSyncProjection)) (x : ProtectedSyncPart * ScalarSyncProjection)
    (Hinbox : inbox_ok inbox) (Hnew : inbox_pending inbox !! pid = None)
    (Hparts : complete_parts parts total)
    (Hl : ∀ y, y ∈ l ++ [x] → part_of pid total parts y ∧ authentic key c y)
    (Hlast : ∀ y, y ∈ l → part_index y.1 ≠ part_index x.1)
    (Hall : ∀ i, i ∈ dom parts → i ∈ (λ y, part_index y.1) <$> l ++ [x]) :
  ingest_all key c (l ++ [x]).*1 inbox =
    (inbox, ((λ _, Ok None) <$> l) ++
      [projection ← MultipartInbox.assemble parts; Ok (Some projection)]) ∧
  ((∀ i p, parts !! i = Some p → projection_valid p) →
   MultipartInbox.assemble parts ≠ Panic ∧
   ∀ r p ps, MultipartInbox.assemble parts = Ok r →
     (∀ q, q ∈ p :: ps ↔ q ∈ values_asc parts) → merge_all p ps = Ok r).
Proof.
  split.
  { rewrite ingest_all_deliver by (intros y Hy; by apply Hl).
    by apply (deliver_complete inbox pid total); [..|intros y Hy; by apply Hl|done|done]. }
  intros Hval.
  assert (∀ q, q ∈ values_asc parts → ok_projection (ok := valid) q) as Hok.
  { intros q (i & Hi)%elem_of_values_asc k r Hr. by apply (Hval i q Hi k r). }
  unfold MultipartInbox.assemble. destruct (values_asc parts) as [|q qs] eqn:Hv.
  { exfalso. destruct x as [part clear]. destruct (Hl (part, clear)) as [(_ & _ & Hx) _]; [set_solver|].
    assert (clear ∈ values_asc parts) as Hin by (apply elem_of_values_asc; eauto).
    rewrite Hv in Hin. by apply not_elem_of_nil in Hin. }
  split.
  - rewrite map_err_Panic. change (try_fold SyncProjection.merge q qs) with (merge_all q qs).
    apply (merge_all_no_panic (ok := ok_projection (ok := valid))); [apply Hok; left|].
    intros y Hy. apply Hok. by right.
  - intros r p ps Hr%map_err_Ok Hsame.
    apply (merge_all_converges (ok := ok_projection (ok := valid)) q qs); [..|done].
    + apply Hok. left.
    + apply Hok, Hsame. left.
    + intros y Hy. apply Hok. by right.
    + intros y Hy. apply Hok, Hsame. by right.
    + intros y. symmetry. apply Hsame.
Qed.

Definition ex_parts : gmap N ScalarSyncProjection :=
  <[0 := ex_projection]> (<[1 := ex_other_projection]> ∅).

Lemma ex_parts_lookup i p :
  ex_parts !! i = Some p → (i = 0 ∧ p = ex_projection) ∨ (i = 1 ∧ p = ex_other_projection).
Proof.
  unfold ex_parts. rewrite !lookup_insert_Some, lookup_empty. naive_solver.
Qed.

Definition ex_first : result SyncPartError ProtectedSyncPart :=
  protect_scalar_part (Some ex_nonce) ex_key (cid 1) ex_pid 0 2 ex_projection.
Definition ex_second : result SyncPartError ProtectedSyncPart :=
  protect_scalar_part (Some ex_nonce) ex_key (cid 1) ex_pid 1 2 ex_other_projection.

(** A protected part, as the theorems see it. *)
Lemma protected_part_of i p part :
  projection_valid p → ex_parts !! i = Some p →
  len (payload part) ≤ isize_max →
  protect_scalar_part (Some ex_nonce) ex_key (cid 1) ex_pid i 2 p = Ok part →
  part_of ex_pid 2 ex_parts (part, p) ∧ authentic ex_key (cid 1) (part, p).
Proof.
  intros Hv Hi Hlen Hp.
  destruct (protect_unprotect_part _ _ _ _ _ _ _ _ Hv Hlen Hp) as (Hpid & Hidx & Htot & Hu).
  split; [|exact Hu]. split; [exact Hpid|]. split; [exact Htot|]. cbn [fst snd]. by rewrite Hidx.
Qed.

(** The second part arrives first, and twice. *)
Lemma multipart_assembly_order_irrelevant_witness :
  match ex_first, ex_second with
  | Ok first, Ok second =>
      ingest_all ex_key (cid 1) [second; second; first] MultipartInbox.new =
        (MultipartInbox.new, [Ok None; Ok None;
          (projection ← MultipartInbox.assemble ex_parts; Ok (Some projection))]) ∧
      MultipartInbox.assemble ex_parts ≠ Panic
  | _, _ => False
  end.
Proof.
  assert (succeeds ex_first = true) as Hs1 by (vm_compute; reflexivity).
  assert (succeeds ex_second = true) as Hs2 by (vm_compute; reflexivity).
  assert (bool_decide (len (default [] (payload <$> result_value ex_first)) ≤ isize_max) = true)
    as Hlen1%bool_decide_eq_true_1 by (vm_compute; reflexivity).
  assert (bool_decide (len (default [] (payload <$> result_value ex_second)) ≤ isize_max) = true)
    as Hlen2%bool_decide_eq_true_1 by (vm_compute; reflexivity).
  assert (∀ i p, ex_parts !! i = Some p → projection_valid p) as Hval.
  { intros i p [[_ ->]|[_ ->]]%ex_parts_lookup; [exact ex_projection_valid|].
    apply singleton_projection_valid; [discriminate|exact ex_register_valid]. }
  assert (ex_parts !! 0 = Some ex_projection) as H0 by (unfold ex_parts; apply lookup_insert_eq).
  assert (ex_parts !! 1 = Some ex_other_projection) as H1.
  { unfold ex_parts. rewrite lookup_insert_ne by discriminate. apply lookup_insert_eq. }
  destruct ex_first as [first| |] eqn:E1; [|discriminate Hs1..].
  destruct ex_second as [second| |] eqn:E2; [|discriminate Hs2..].
  pose proof (protected_part_of 0 _ first (Hval 0 _ H0) H0 Hlen1 E1) as P1.
  pose proof (protected_part_of 1 _ second (Hval 1 _ H1) H1 Hlen2 E2) as P2.
  pose proof P1 as [(_ & _ & I1) _]. pose proof P2 as [(_ & _ & I2) _].
  assert (part_index first = 0) as J1.
  { apply ex_parts_lookup in I1 as [[? _]|[_ Hn]]; [assumption|].
    exfalso. assert (bool_decide (ex_projection = ex_other_projection) = false)
      as Hb%bool_decide_eq_false_1 by (vm_compute; reflexivity). exact (Hb Hn). }
  assert (part_index second = 1) as J2.
  { apply ex_parts_lookup in I2 as [[_ Hn]|[? _]]; [|assumption].
    exfalso. assert (bool_decide (ex_other_projection = ex_projection) = false)
      as Hb%bool_decide_eq_false_1 by (vm_compute; reflexivity). exact (Hb Hn). }
  assert (complete_parts ex_parts 2) as Hc.
  { split; [vm_compute; reflexivity|].
    intros i [p Hp]%elem_of_dom. apply ex_parts_lookup in Hp as [[-> _]|[-> _]]; reflexivity. }
  destruct (multipart_assembly_order_irrelevant ex_key (cid 1) MultipartInbox.new ex_pid 2 ex_parts
    [(second, ex_other_projection); (second, ex_other_projection)] (first, ex_projection)
    new_inbox_ok (lookup_empty _) Hc) as [Hrun Hmerge].
  - exact (forall_in _ _ (Forall_cons_2 _ _ _ P2 (Forall_cons_2 _ _ _ P2
      (Forall_cons_2 _ _ _ P1 (Forall_nil_2 _))))).
  - assert (part_index second ≠ part_index first) as Hne by (rewrite J1, J2; discriminate).
    apply forall_in. apply Forall_cons_2; [exact Hne|].
    apply Forall_cons_2; [exact Hne|apply Forall_nil_2].
  - intros i [p Hp]%elem_of_dom. cbn [fmap list_fmap app fst]. rewrite J1, J2.
    apply ex_parts_lookup in Hp as [[-> _]|[-> _]].
    + right. right. left.
    + left.
  - split; [exact Hrun|]. exact (proj1 (Hmerge Hval)).
Defined.

(** ** Durable sessions *)

(** C3: crash consistency of a whole session, against the store's contract: from
    a durable record, after any sequence of staging, receiving, reconciling,
    batch reconciling and rebasing, with any outcomes, a power loss leaves the
    caller's record or one persisted since the last acknowledged operation and
    never acknowledged; if the last operation was acknowledged, exactly the
    caller's record. *)
Theorem session_crash_consistent {St C R : Type} `{SyncRecordStoreLaws St}
    `{!TransportCursorCodec C R} (codec : C) (ops : list (session_op R))
    (record : DurableSyncRecord) (store : St)
    (Hstart : in_step record store) (Hst : session_storable codec ops (record, store)) :
  let '((record', store'), unacked) := run_session codec ops (record, store) [] in
  store_ok store' ∧
  (∀ o, recoverable_record store' o → o = Some record' ∨ ∃ next, next ∈ unacked ∧ o = Some next) ∧
  (unacked = [] → in_step record' store').
Proof.
  pose proof (run_session_backed codec ops (record, store) [] Hst) as Hrun.
  destruct (run_session codec ops (record, store) []) as [[record' store'] unacked].
  destruct Hrun as [Hok Hall]; [by apply backed_in_step|].
  split; [done|]. split; [done|]. intros ->. by apply backed_in_step.
Qed.

(** A store whose device answers by a script: whether a write reaches the media,
    and whether it is acknowledged. *)
Record ScriptedStore : Type := ScriptedStore_mk {
  stored : option DurableSyncRecord;
  script : list (bool * bool);
}.

Definition scripted_persist (record : DurableSyncRecord) : stateful ScriptedStore unit unit := λ self,
  match script self with
  | [] => (ScriptedStore_mk (Some record) [], Ok tt)
  | (reached, acked) :: script =>
      (ScriptedStore_mk (if reached || acked then Some record else stored self) script,
       if acked then Ok tt else Err tt)
  end.

#[local] Instance scripted_store : SyncRecordStore ScriptedStore := {|
  StoreError := unit;
  persist := scripted_persist;
|}.

#[local] Instance scripted_store_laws : SyncRecordStoreLaws ScriptedStore.
Proof.
  refine {| store_ok _ := True; storable _ _ := True; recoverable_record self o := o = stored self |}.
  intros self record self' res _ _ Hp. split; [done|]. revert Hp. cbn. unfold scripted_persist.
  destruct (script self) as [|[[] []] script']; intros [= <- <-]; cbn; naive_solver.
Defined.

(** Cursors as plain bytes. *)
#[local] Instance byte_cursor : TransportCursorCodec unit (list byte) := {|
  CursorError := SyncRecoveryError;
  encode _ bytes := TransportCursor.new bytes;
  decode _ cursor := Ok (cursor_bytes cursor);
|}.

Definition ex_start : DurableSyncRecord := DurableSyncRecord.new (b_ "trusted") (Some ex_cursor).

Definition ex_ops : list (session_op (list byte)) :=
  [OpStage (b_ "exposed") ex_pid [b_ "wire"]; OpReceive (b_ "merged") (b_ "R1");
   OpReconcile ex_pid (b_ "reconciled") (b_ "R2")].

(** The receive is written but not acknowledged, the reconciliation fails: the
    caller still holds the staged record, and a restart loads that or the one of
    the receive. *)
Definition ex_store : ScriptedStore :=
  ScriptedStore_mk (Some ex_start) [(true, true); (true, false); (false, false)].

Lemma session_crash_consistent_witness :
  let '((record', store'), unacked) := run_session tt ex_ops (ex_start, ex_store) [] in
  length unacked = 2%nat ∧ stored store' ≠ Some record' ∧
  ∃ next, next ∈ unacked ∧ stored store' = Some next.
Proof.
  assert (in_step ex_start ex_store) as Hstart by (split; [exact I|intros o ->; reflexivity]).
  assert (session_storable tt ex_ops (ex_start, ex_store)) as Hst by (repeat split).
  pose proof (session_crash_consistent tt ex_ops ex_start ex_store Hstart Hst) as Hrun.
  assert (bool_decide (length (run_session tt ex_ops (ex_start, ex_store) []).2 = 2%nat) = true)
    as Hlen%bool_decide_eq_true_1 by (vm_compute; reflexivity).
  assert (bool_decide (stored (run_session tt ex_ops (ex_start, ex_store) []).1.2 =
    Some (run_session tt ex_ops (ex_start, ex_store) []).1.1) = false)
    as Hne%bool_decide_eq_false_1 by (vm_compute; reflexivity).
  destruct (run_session tt ex_ops (ex_start, ex_store) []) as [[record' store'] unacked].
  destruct Hrun as (_ & Hrec & _). split; [exact Hlen|]. split; [exact Hne|].
  destruct (Hrec (stored store') eq_refl) as [Heq|Hex]; [destruct (Hne Heq)|exact Hex].
Defined.

(** C34: a publication is never rewritten in the outbox: whatever operation runs
    and however it ends, an entry that is present before and after is the same;
    it disappears only if the operation names it to be retired; a new entry is
    the one staged or rebased, bound to the cursor it was prepared against and
    with at least one object, none of them empty; an operation that fails leaves
    the whole record unchanged. *)
Theorem outbox_entries_immutable {St C R : Type} `{SyncRecordStore St} `{!TransportCursorCodec C R}
    (codec : C) (op : session_op R) (record : DurableSyncRecord) (store : St) :
  let '((record', _), ok) := run_op codec op (record, store) in
  (ok = false → record' = record) ∧
  (∀ pid e e', outbox record !! pid = Some e → outbox record' !! pid = Some e' → e' = e) ∧
  (∀ pid e, outbox record !! pid = Some e → outbox record' !! pid = None → op_retires op pid) ∧
  (∀ pid e, outbox record !! pid = None → outbox record' !! pid = Some e →
     op_introduces codec op record pid e ∧ objects e ≠ [] ∧ ∀ o, o ∈ objects e → o ≠ []).
Proof.
  assert (∀ pid e, op_introduces codec op record pid e →
    objects e ≠ [] ∧ ∀ o, o ∈ objects e → o ≠ []) as Hobjs.
  { intros pid e He. apply (validate_objects_Ok (objects e) tt). revert He.
    destruct op; cbn; [by intros (-> & -> & ?)|done..|by intros (? & _ & -> & -> & ?)]. }
  rewrite run_op_cases.
  destruct (op_stage codec op record) as [next|] eqn:Hop.
  2:{ split; [done|]. split_and!; intros; naive_solver. }
  apply op_stage_outbox in Hop as (H1 & H2 & H3).
  destruct (persist next store) as [store' res]. destruct (succeeds res).
  - split; [done|]. split; [exact H1|]. split; [exact H2|]. intros pid e He He'.
    specialize (H3 pid e He He'). split; [done|]. by eapply Hobjs.
  - split; [done|]. split_and!; intros; naive_solver.
Qed.

(** Publishing sends exactly what was staged: the transport is called only
    when the publication, or every publication of a non-empty set, is in the
    outbox, all against one cursor, and then with that cursor and all their
    objects, byte for byte and in ascending order of their identities; otherwise
    the call fails before any transport operation. *)
Theorem publication_sends_staged_bytes {Tr C : Type} `{OpaqueTransport Tr}
    `{!TransportCursorCodec C Revision} (record : DurableSyncRecord) (ids : list PublicationId)
    (pid : PublicationId) (codec : C) (tr : Tr) :
  let send {E} (wrap_cursor : CursorError → E) (wrap : TransportError → E) cur objs :=
    expected ← lift_result (map_err wrap_cursor (transpose (decode codec <$> cur)));
    map_err_st wrap (publish expected objs) in
  publish_staged record pid codec tr =
    match outbox record !! pid with
    | Some e => send IoCursor IoTransport (expected_cursor e) (objects e) tr
    | None => (tr, Err (IoRecovery UnknownOutboxPublication))
    end ∧
  let publication_ids : gset PublicationId := list_to_set ids in
  ((∃ cur entries, publication_ids ≠ ∅ ∧
     batch_entries record cur (elements_asc publication_ids) entries ∧
     publish_staged_batch record ids codec tr =
       send PublishCursor PublishTransport cur (mjoin (objects <$> entries)) tr) ∨
   (publication_ids = ∅ ∨
    ¬ ∃ cur entries, batch_entries record cur (elements_asc publication_ids) entries) ∧
   ∃ e, publish_staged_batch record ids codec tr = (tr, Err e)).
Proof.
  cbn zeta. split; [|apply publish_batch_cases].
  unfold publish_staged, decode_cursor. run_st. by destruct (outbox record !! pid).
Qed.

(** The foreground gate: in the background no guarded operation reaches the
    transport, and in the foreground the guard is transparent; leaving and
    entering the foreground changes only the flag. *)
Theorem foreground_gate {Tr : Type} `{OpaqueTransport Tr} (g : ForegroundTransport Tr)
    (known : option Revision) (objs : list (list byte)) :
  let gated {A} (m : stateful Tr TransportError A) : ForegroundTransport Tr * _ :=
    if ForegroundSyncLifecycle.is_foreground g then
      (ForegroundTransport_mk (m (inner g)).1 true, map_err Inner (m (inner g)).2)
    else (g, Err Backgrounded) in
  head (Tr := ForegroundTransport Tr) g = gated head ∧
  fetch_since (Tr := ForegroundTransport Tr) known g = gated (fetch_since known) ∧
  publish (Tr := ForegroundTransport Tr) known objs g = gated (publish known objs) ∧
  (∀ f, head (ForegroundSyncLifecycle.enter_background f) =
    (ForegroundSyncLifecycle.enter_background f, Err Backgrounded)) ∧
  ForegroundSyncLifecycle.is_foreground (ForegroundSyncLifecycle.guard ForegroundSyncLifecycle.new (inner g)) = false.
Proof. cbn zeta. split_and!; [apply gated_call..|done|done]. Qed.

(** ** The protected record store *)

(** C30: the record store keeps the promise sessions rely on, given the backend's
    contract and the cipher's laws: a power loss during or after [persist]
    leaves what could be loaded before or the new record, and once [persist] has
    returned [Ok] every restart that can read the backend authenticates, decodes
    and loads exactly that record. *)
Theorem record_store_crash_safe {B : Type} `{AeadLaws} `{DurabilityLaws B (list byte)}
    (store : ProtectedSyncRecordStore B) (record : DurableSyncRecord)
    (Hok : backend_ok (backend store)) (Hrecord : record_storable record) :
  let '(store', res) := ProtectedSyncRecordStore.persist record store in
  backend_ok (backend store') ∧
  (∀ o, recoverable_store store' o → recoverable_store store o ∨ o = Some record) ∧
  (res = Ok tt → ∀ b ob, may_crash (backend store') b → Durability.load_committed b = Ok ob →
     ProtectedSyncRecordStore.load_committed (ProtectedSyncRecordStore.with_backend b store')
       = Ok (Some record)).
Proof.
  destruct (ProtectedSyncRecordStore.persist record store) as [store' res] eqn:Hp.
  destruct (persist_safe record store store' res Hok Hrecord Hp) as (Hok' & Hrec & _).
  split; [done|]. split; [done|]. intros ->.
  intros b ob Hcrash Hl. by apply (persist_loads record store store' b ob).
Qed.

Definition ex_record_store : ProtectedSyncRecordStore (CrashBackend (list byte)) :=
  ProtectedSyncRecordStore_mk (CrashBackend.with_committed []) ex_key (b_ "continuum-a")
    (λ _, Some ex_nonce).

Lemma ex_record_storable : record_storable ex_record.
Proof.
  split; [exact (proj1 ex_record_ok)|]. split; [exact (proj2 ex_record_ok)|].
  intros clear Hc. assert (bool_decide (PROTECTION_BYTES +
    len (default [] (result_value (encode_durable_sync_record ex_record))) ≤ isize_max) = true)
    as Hlen%bool_decide_eq_true_1 by (vm_compute; reflexivity).
  rewrite Hc in Hlen. exact Hlen.
Qed.

Lemma record_store_crash_safe_witness :
  Forall (λ flag, let store := (ProtectedSyncRecordStore.persist ex_record ex_record_store).1 in
    ProtectedSyncRecordStore.load_committed (ProtectedSyncRecordStore.with_backend
      (CrashBackend.crash flag (backend store)) store) = Ok (Some ex_record)) [true; false].
Proof.
  apply Forall_forall. intros flag _. cbn zeta.
  assert (succeeds (ProtectedSyncRecordStore.persist ex_record ex_record_store).2 = true) as Hs
    by (vm_compute; reflexivity).
  pose proof (record_store_crash_safe ex_record_store ex_record (with_committed_ok [])
    ex_record_storable) as Hsafe.
  destruct (ProtectedSyncRecordStore.persist ex_record ex_record_store) as [store' res].
  apply succeeds_Ok in Hs as [[] Hs]. destruct Hsafe as (_ & _ & Hack).
  exact (Hack Hs (CrashBackend.crash flag (backend store')) _ (ex_intro _ flag eq_refl) eq_refl).
Defined.
