(* ===== verification/FsProperties.v ===== *)
(** * Properties of the filesystem backend

    The snapshot envelope, candidate allocation and the durability of commits on
    a filesystem that may fail at any call and lose power at any moment
    (crates/apc-storage-fs). *)
From Stdlib Require Import Lia NArith Strings.Byte.
From stdpp Require Import base tactics option list gmap numbers.
From S2P Require Import Prelude BTree Bytes Durability FsRecovery Text Fs FsStorage FsLaws FsAllocate.
Local Open Scope N_scope.

(** ** Restarts *)
Section restart.
Implicit Types (b : UnixFsDurabilityBackend) (s : list byte) (o : option (list byte)).

(** No call fails any more. *)
Definition device_works b : Prop := ∀ n, device (filesystem b) n = None.

Lemma fs_backend_ok b : fs_ok (filesystem b) → backend_ok b.
Proof. exact id. Qed.

(** A restart finds a well-formed store and reads the state it commits to. *)
Lemma restart_reads b b' :
  fs_ok (filesystem b) → fs_crash (filesystem b) (filesystem b') →
  fs_ok (filesystem b') ∧ ∃ o, recoverable b o ∧
    (UnixFsDurabilityBackend.load_committed b' = Ok o ∨
     UnixFsDurabilityBackend.load_committed b' = Err (Io OtherKind)) ∧
    (device_works b' → UnixFsDurabilityBackend.load_committed b' = Ok o).
Proof.
  intros Hok Hcrash. destruct b' as [fs' next].
  destruct (restart_loads (filesystem b) fs' next Hok (or_intror Hcrash)) as (Hok' & o & Ho & Hl).
  split; [done|]. exists o. split; [by apply recoverable_rec|exact Hl].
Qed.
End restart.

(** C11: commits on the filesystem backend are atomic and durable.  Whichever
    calls the device fails and wherever a power loss cuts [commit_durable]
    short, a restart finds a well-formed store: it never reports a corrupted
    manifest or record, and reads what could be read before the commit or the new
    state.  Once [commit_durable] has returned [Ok], every restart whose device
    works reads exactly the new state. *)
Theorem fs_commit_crash_safe (b : UnixFsDurabilityBackend) (s : list byte)
    (Hok : fs_ok (filesystem b)) :
  (∀ steps b', fs_crash (filesystem (commit_prefix steps s b).1) (filesystem b') →
    fs_ok (filesystem b') ∧ ∃ o, (recoverable b o ∨ o = Some s) ∧
      (UnixFsDurabilityBackend.load_committed b' = Ok o ∨
       UnixFsDurabilityBackend.load_committed b' = Err (Io OtherKind)) ∧
      (device_works b' → UnixFsDurabilityBackend.load_committed b' = Ok o)) ∧
  ((commit_durable s b).2 = Ok tt →
    ∀ b', fs_crash (filesystem (commit_durable s b).1) (filesystem b') → device_works b' →
      UnixFsDurabilityBackend.load_committed b' = Ok (Some s)).
Proof.
  split.
  - intros steps b' Hcrash. destruct (commit_prefix_safe (B := UnixFsDurabilityBackend) (S := list byte) steps s b (fs_backend_ok b Hok)) as [Hok1 Hrec].
    destruct (restart_reads _ _ Hok1 Hcrash) as (Hok' & o & Ho & Hl). split; [done|].
    exists o. split; [by apply Hrec|done].
  - intros Hack b' Hcrash Hdev.
    pose proof (proj1 (commit_prefix_safe (B := UnixFsDurabilityBackend) (S := list byte) 4 s b
      (fs_backend_ok b Hok)) : fs_ok (filesystem (commit_durable s b).1)) as Hok1.
    destruct (commit_durable s b) as [b1 res] eqn:Hrun. cbn [fst snd] in *. subst res.
    destruct (restart_reads _ _ Hok1 Hcrash) as (_ & o & Ho & _ & Hl). rewrite Hl by done.
    by rewrite (commit_durable_ack (B := UnixFsDurabilityBackend) (S := list byte) _ _ _ (fs_backend_ok b Hok) Hrun o Ho).
Qed.

Definition ex_fs_store (dev : nat → option nat) : UnixFsDurabilityBackend :=
  UnixFsDurabilityBackend_mk (fs_new dev) 0.

Lemma fs_commit_crash_safe_witness :
  let b := ex_fs_store (λ _, None) in
  (commit_durable [x01; x02] b).2 = Ok tt ∧
  ∀ b', fs_crash (filesystem (commit_durable [x01; x02] b).1) (filesystem b') → device_works b' →
    UnixFsDurabilityBackend.load_committed b' = Ok (Some [x01; x02]).
Proof.
  cbn zeta. assert (succeeds (commit_durable [x01; x02] (ex_fs_store (λ _, None))).2 = true) as Hs
    by (vm_compute; reflexivity).
  apply succeeds_Ok in Hs as [[] Hs]. split; [exact Hs|].
  exact (proj2 (fs_commit_crash_safe (ex_fs_store (λ _, None)) _ (fs_new_ok _)) Hs).
Defined.

(** ** Candidates *)

(** The allocation loop always ends, and never truncates an existing file:
    it returns the first free name from the counter on, which it has created
    and moved past; otherwise every name below the last number is taken, or the
    device failed and no name was added. *)
Theorem fs_allocation_total (b : UnixFsDurabilityBackend) :
  let '(b', r) := UnixFsDurabilityBackend.allocate_candidate b in
  let names := dom (objects (filesystem b)) in
  match r with
  | Ok c => ∃ id, next_candidate b ≤ id < u64_max ∧ c = FsCandidate_mk (candidate_name id) ∧
      candidate_name id ∉ names ∧ (∀ k, next_candidate b ≤ k < id → candidate_name k ∈ names) ∧
      next_candidate b' = id + 1 ∧ dom (objects (filesystem b')) = {[candidate_name id]} ∪ names
  | Err CandidateIdExhausted => ∀ k, next_candidate b ≤ k < u64_max → candidate_name k ∈ names
  | Err e => e = Io OtherKind ∧ dom (objects (filesystem b')) = names
  | Panic => False
  end.
Proof.
  pose proof (allocate_candidate_spec b) as Ha. unfold allocated in Ha.
  destruct (UnixFsDurabilityBackend.allocate_candidate b) as [b' [c|e|]]; [|exact Ha..].
  destruct Ha as (id & (H1 & H2 & H3) & H4 & H5). exists id. tauto.
Qed.


(** ** The envelope *)

(** The envelope codec is a bijection: [decode] returns a payload exactly
    on the bytes [encode] gives for it, and never panics on bytes that fit in
    memory; [encode] panics only when the envelope exceeds an allocation. *)
Theorem fs_envelope_exact (payload encoded : list byte) (Hlen : len encoded ≤ isize_max) :
  decode encoded ≠ Panic ∧
  (decode encoded = Ok payload ↔ encode (E := RecoveryDecodeError) payload = Ok encoded) ∧
  (encode (E := RecoveryDecodeError) payload = Panic ↔
   isize_max < HEADER_LEN + len payload + CHECKSUM_LEN).
Proof.
  destruct (decode_spec encoded Hlen) as [H1 H2]. split; [done|]. split; [apply H2|].
  unfold encode, u64_try_from, byte_capacity. pose proof isize_usize. unfold usize_max in *.
  destruct (decide (len payload ≤ u64_max)); cbn; [|split; [lia|done]].
  destruct (decide (HEADER_LEN + len payload + CHECKSUM_LEN ≤ isize_max)); cbn; split; try done; lia.
Qed.

Definition ex_encoded : list byte :=
  envelope [x01; x02] ++ be_bytes 4 (crc32_ieee (envelope [x01; x02])).

Lemma fs_envelope_exact_witness :
  len ex_encoded = 24 ∧ decode ex_encoded = Ok [x01; x02].
Proof.
  assert (bool_decide (len ex_encoded ≤ isize_max) = true) as Hlen%bool_decide_eq_true_1
    by (vm_compute; reflexivity).
  assert (encode (E := RecoveryDecodeError) [x01; x02] = Ok ex_encoded) as Henc
    by (vm_compute; reflexivity).
  split; [vm_compute; reflexivity|].
  exact (proj2 (proj1 (proj2 (fs_envelope_exact [x01; x02] ex_encoded Hlen))) Henc).
Defined.

(** C38: changing any one byte of an envelope, header, length, payload or
    checksum, makes [decode] refuse it. *)
Theorem fs_corruption_detected (payload pre post : list byte) (a b : byte)
    (Hab : a ≠ b) (Henc : encode (E := RecoveryDecodeError) payload = Ok (pre ++ a :: post)) :
  ∃ e, decode (pre ++ b :: post) = Err e.
Proof. by eapply corrupted_byte. Qed.

(** The version's second byte read as a three. *)
Definition ex_rest : list byte :=
  be_bytes 8 1 ++ [x01] ++ be_bytes 4 (crc32_ieee (envelope [x01])).

Lemma fs_corruption_detected_witness :
  ∃ e, decode ((MAGIC ++ [x00]) ++ x03 :: ex_rest) = Err e.
Proof.
  assert (encode (E := RecoveryDecodeError) [x01] = Ok ((MAGIC ++ [x00]) ++ x01 :: ex_rest)) as Henc
    by (vm_compute; reflexivity).
  exact (fs_corruption_detected [x01] (MAGIC ++ [x00]) ex_rest x01 x03
    ltac:(discriminate) Henc).
Defined.
