(* ===== verification/GitHubProperties.v ===== *)
(** * Properties of the GitHub transport

    Fetching and publishing over any API that keeps the laws of a branch, and
    the in-memory branch of the tests as a witness
    (crates/apc-transport-github). *)
From Stdlib Require Import Lia NArith Strings.Byte.
From stdpp Require Import base tactics option list gmap numbers.
From S2P Require Import Prelude Outcome BTree Bytes Text Transport GitHub GitHubLaws GitHubFake.
Local Open Scope N_scope.

(** C25: [fetch_since] never guesses.  Whatever the API answers and whoever else
    commits between the calls, a fetch that reports changes has followed single
    parents from the reported head back to the known one, within the bound, and
    returns exactly the objects those commits add under the object directory,
    in ancestry order, each under its own digest and no path twice; it reports
    no change only when the head is the known one.  On a branch nobody else
    uses, such a range is always returned. *)
Theorem github_fetch_exact {A : Type} `{Sha256} `{GitHubApiLaws A}
    (t : GitHubTransport A) (base : option GitHubCommitOid) (Hok : api_ok (api t)) :
  let '(t', r) := GitHubTransport.fetch_since base t in
  let max := N.to_nat (max_incremental_commits t) in
  api_ok (api t') ∧ commits (repo t) ⊆ commits (repo t') ∧
  match r with
  | Ok (UpToDate h) => h = base
  | Ok (Changed h objects) => ∃ known l, base = Some known ∧ h ≠ known ∧ (length l ≤ max)%nat ∧
      chain (repo t') known h l ∧ publishes (repo t') (reverse l) objects
  | _ => True
  end ∧
  ∀ known h l objects, base = Some known → settled (api t) → branch (repo t) = Some h → h ≠ known →
    chain (repo t) known h l → (length l ≤ max)%nat → publishes (repo t) (reverse l) objects →
    r = Ok (Changed h objects).
Proof.
  pose proof (fetch_sound base t Hok) as Hsound. unfold outcome in Hsound.
  assert (∀ known h l objects, base = Some known → settled (api t) → branch (repo t) = Some h →
    h ≠ known → chain (repo t) known h l → (length l ≤ N.to_nat (max_incremental_commits t))%nat →
    publishes (repo t) (reverse l) objects →
    (GitHubTransport.fetch_since base t).2 = Ok (Changed h objects)) as Hcomplete.
  { intros known h l objects -> Hs Hb Hne Hchain Hlen Hpub.
    by destruct (fetch_complete known h l objects t Hs Hb Hne Hchain Hlen Hpub) as (t' & -> & _). }
  destruct (GitHubTransport.fetch_since base t) as [t' r]. cbn [snd] in Hcomplete. cbn zeta.
  assert (evolves t t') as [[Hok' Hsub] _] by (destruct r; [apply Hsound|exact Hsound..]).
  split; [done|]. split; [done|]. split; [|done]. destruct r as [answer| |]; [|done..].
  by destruct Hsound as [_ Hf].
Qed.

Lemma object_path_digest `{Sha256} a b : object_path a = object_path b → digest a = digest b.
Proof.
  unfold object_path. intros Heq%app_inv_head. apply app_inv_tail, hex_inj in Heq.
  by apply array_bytes_inj.
Qed.

(** C28: a publication round trip.  On a branch nobody else uses, publishing on
    the current head succeeds and the next fetch from the old head returns the
    published objects: only those, none twice, and every object up to one of the
    same digest.  On any other expected head nothing is committed and the
    current head is reported.  And whatever happens, an acknowledged publication
    is one new commit on the expected head that holds the objects. *)
Theorem github_publish_fetch {A : Type} `{Sha256} `{GitHubApiLaws A}
    (t : GitHubTransport A) (k : GitHubCommitOid) (parent : Commit) (objects : list (list byte))
    (Hs : settled (api t)) (Hcan : can_commit (api t)) (Hne : objects ≠ [])
    (Hmax : 1 ≤ max_incremental_commits t) (Hk : commits (repo t) !! k = Some parent)
    (Hnew : ∀ bytes, bytes ∈ objects → files parent !! object_path bytes = None) :
  if decide (branch (repo t) = Some k) then
    ∃ t' h t'' fetched c,
      GitHubTransport.publish (Some k) objects t = (t', Ok (Published h)) ∧
      commits (repo t) !! h = None ∧ commits (repo t') !! h = Some c ∧ parents (info c) = [k] ∧
      GitHubTransport.fetch_since (Some k) t' = (t'', Ok (Changed h fetched)) ∧
      NoDup fetched ∧ (∀ bytes, bytes ∈ fetched → bytes ∈ objects) ∧
      ∀ bytes, bytes ∈ objects → ∃ other, other ∈ fetched ∧ digest other = digest bytes
  else ∃ t', GitHubTransport.publish (Some k) objects t = (t', Ok (Conflict (branch (repo t)))) ∧
    repo t' = repo t.
Proof.
  pose proof (publish_settled k objects t Hs Hne) as Hpub.
  pose proof (publish_sound (Some k) objects t (settled_ok _ Hs)) as Hsound.
  destruct (decide (branch (repo t) = Some k)) as [Hb|Hb].
  2:{ destruct Hpub as (t' & Hrun & _ & Hr & _). by exists t'. }
  destruct (Hpub Hcan) as (t' & h & Hrun & Hs' & Hb'). unfold outcome in Hsound. rewrite Hrun in Hsound.
  destruct Hsound as [[_ Hmax'] Hnewc].
  destruct (Hnewc h eq_refl) as (k' & parent' & c & [= <-] & Hhk & Hk' & Hfresh & Hc & Hon). rewrite Hk in Hk'; injection Hk' as <-.
  destruct (commit_publishes (repo t') objects k parent h c Hc Hon Hnew) as (published & Hperm & Hp).
  assert (chain (repo t') k h [info c]) as Hchain.
  { destruct Hon as (Ho & Hpar & _). eapply chain_commit; [done..|constructor]. }
  destruct (fetch_complete k h [info c] published t' Hs' Hb' Hhk Hchain) as (t'' & Hfetch & _);
    [cbn [length]; rewrite Hmax'; lia|exact Hp|].
  exists t', h, t'', published, c. split; [done|]. split; [done|]. split; [done|]. split; [apply Hon|].
  split; [done|].
  assert (∀ bytes, bytes ∈ published ↔ ∃ path, GitHubTransport.additions_by_path objects !! path = Some bytes)
    as Hin by (intros bytes; rewrite Hperm; apply elem_of_values_asc).
  split; [|split].
  - destruct Hp as [Hnd Hall]. apply (NoDup_fmap_1 object_path).
    assert (object_path <$> published = item_path <$> items [info c]) as ->; [|exact Hnd].
    clear -Hall. revert Hall. generalize (items [info c]). intros l Hall.
    induction Hall as [|i b its bs (_ & Hp & _) _ IH]; [done|].
    by rewrite !fmap_cons, Hp, IH.
  - intros bytes (path & Hpath%additions_by_path_Some)%Hin. apply Hpath.
  - intros bytes [other Hother]%additions_by_path_elem. exists other. split; [apply Hin; eauto|].
    apply additions_by_path_Some in Hother as [Hpath _]. by apply object_path_digest.
Qed.

(** A stand-in for SHA-256: the first bytes of the object. *)
Lemma length_toy_digest (l : list byte) : length (take 32 (l ++ replicate 32 x00)) = 32%nat.
Proof. rewrite length_take, length_app, length_replicate. lia. Qed.
#[local] Instance toy_sha256 : Sha256 := λ l,
  take 32 (l ++ replicate 32 x00) ↾ bool_decide_pack _ (length_toy_digest l).

Definition ex_transport : GitHubTransport FakeGitHubApi := GitHubTransport.new FakeGitHubApi.seeded.
Definition ex_objects : list (list byte) := [b_ "b"; b_ "a"; b_ "b"].

Lemma github_publish_fetch_witness :
  ∃ t' h t'' fetched c,
    GitHubTransport.publish (Some (fake_oid 1)) ex_objects ex_transport = (t', Ok (Published h)) ∧
    commits (repo ex_transport) !! h = None ∧ commits (repo t') !! h = Some c ∧
    parents (info c) = [fake_oid 1] ∧
    GitHubTransport.fetch_since (Some (fake_oid 1)) t' = (t'', Ok (Changed h fetched)) ∧
    NoDup fetched ∧ (∀ bytes, bytes ∈ fetched → bytes ∈ ex_objects) ∧
    ∀ bytes, bytes ∈ ex_objects → ∃ other, other ∈ fetched ∧ digest other = digest bytes.
Proof.
  pose proof (github_publish_fetch ex_transport (fake_oid 1) (Commit_mk (GitHubCommitInfo_mk (fake_oid 1) [] []) ∅)
    ex_objects seeded_settled eq_refl ltac:(discriminate) ltac:(discriminate)
    (lookup_singleton_eq _ _) (λ _ _, lookup_empty _)) as Hpub.
  rewrite decide_True in Hpub by reflexivity. exact Hpub.
Defined.

(** Another device fetches what was published. *)
Definition ex_published : GitHubTransport FakeGitHubApi :=
  (GitHubTransport.publish (Some (fake_oid 1)) ex_objects ex_transport).1.

Lemma ex_published_ok : api_ok (api ex_published).
Proof.
  pose proof (publish_sound (Some (fake_oid 1)) ex_objects ex_transport (settled_ok _ seeded_settled)) as Hp.
  unfold outcome in Hp. unfold ex_published.
  destruct (GitHubTransport.publish _ _ _) as [t' [x|e|]]; [apply Hp|apply Hp..].
Qed.

Lemma github_fetch_exact_witness :
  GitHubTransport.publish (Some (fake_oid 1)) ex_objects ex_transport = (ex_published, Ok (Published (fake_oid 2))) ∧
  let '(t', r) := GitHubTransport.fetch_since (Some (fake_oid 1)) ex_published in
  api_ok (api t') ∧ r = Ok (Changed (fake_oid 2) [b_ "a"; b_ "b"]).
Proof.
  assert ((GitHubTransport.publish (Some (fake_oid 1)) ex_objects ex_transport).2
    = Ok (Published (fake_oid 2))) as Hpub by (vm_compute; reflexivity).
  split.
  { unfold ex_published. destruct (GitHubTransport.publish _ _ _) as [t' r]. cbn in Hpub |- *. by subst r. }
  pose proof (github_fetch_exact ex_published (Some (fake_oid 1)) ex_published_ok) as Hfetch.
  assert ((GitHubTransport.fetch_since (Some (fake_oid 1)) ex_published).2
    = Ok (Changed (fake_oid 2) [b_ "a"; b_ "b"])) as Hr by (vm_compute; reflexivity).
  destruct (GitHubTransport.fetch_since (Some (fake_oid 1)) ex_published) as [t' r].
  split; [exact (proj1 Hfetch)|exact Hr].
Defined.
