(* ===== verification/RuntimeProperties.v ===== *)
(** * Properties of the runtime coordinators

    Publication, reception and recovery of one scalar domain
    (crates/apc-runtime: trusted_state.rs, publication.rs, receive.rs). *)
From Stdlib Require Import Lia NArith Strings.Byte.
From stdpp Require Import base tactics option list gmap numbers.
From S2P Require Import Prelude Outcome BTree Bytes Id Error Worklist Scalar Causal Merge ScalarMerge.
From S2P Require Import Working Finalization Domain Reader RegisterCodec Projection Codec Crypto Protected.
From S2P Require Import Wire Recovery Transport Session TrustedState Publication Receive RuntimeLaws.
From S2P Require Import SyncProperties SessionProperties.
Local Open Scope N_scope.
#[local] Existing Instance toy_aead.
#[local] Existing Instance toy_aead_laws.
#[local] Existing Instance scripted_store.
#[local] Existing Instance scripted_store_laws.
#[local] Existing Instance byte_cursor.

(** ** Publication *)

(** C4: exposure is durable before it is visible.  Staging a prepared handoff is
    all or nothing for the live domain and its record; a power loss during or
    after it leaves the old record or one whose trusted state recovers to the
    domain in which every local revision the publication depends on is marked
    exposed and finalized, and whose outbox holds the prepared objects under the
    old cursor; and once staging has returned [Ok], only the latter. *)
Theorem handoff_staging_crash_safe {T St C : Type} `{!EqDecision T} `{SyncRecordStoreLaws St}
    `{!TrustedStateCodec C (LocalScalarSnapshot T)} `{!TrustedStateLaws C T}
    (codec : C) (prepared : PreparedScalarHandoff) (d : LocalScalarDomain T)
    (record : DurableSyncRecord) (store : St)
    (Hd : domain_ok d) (Hstart : in_step record store)
    (Hfits : ∀ candidate bytes next,
       LocalScalarDomain.handoff (elements_asc (prepared_revision_ids prepared)) d = (candidate, Ok tt) →
       encode_trusted codec (LocalScalarDomain.snapshot candidate) = Ok bytes →
       staged (DurableSyncRecord.prepare_outbox bytes (protected_publication_id (prepared_publication prepared))
         (applied_cursor record) (protected_objects (prepared_publication prepared)) record) = Ok next →
       len bytes ≤ isize_max ∧ storable store next) :
  let pid := protected_publication_id (prepared_publication prepared) in
  let objs := protected_objects (prepared_publication prepared) in
  let exposed_in (next : DurableSyncRecord) (candidate : LocalScalarDomain T) :=
    recover_scalar_domain next codec = Ok candidate ∧
    (∀ x, exposes (causal (working d)) (finalization d) (prepared_revision_ids prepared) x →
       x ∈ exposed_local_ids (finalization candidate) ∧ x ∈ dom (finalized (finalization candidate))) ∧
    outbox next !! pid = Some (DurableOutboxEntry_mk pid (applied_cursor record) objs) ∧
    applied_cursor next = applied_cursor record ∧
    (∀ other, other ≠ pid → outbox next !! other = outbox record !! other) in
  let '((d', (record', store')), res) := stage_prepared_scalar_handoff codec prepared (d, (record, store)) in
  store_ok store' ∧
  (∀ o, recoverable_record store' o →
     o = Some record ∨ ∃ next candidate, o = Some next ∧ exposed_in next candidate) ∧
  match res with
  | Ok _ => in_step record' store' ∧ exposed_in record' d'
  | _ => d' = d ∧ record' = record
  end.
Proof.
  intros pid objs exposed_in. unfold stage_prepared_scalar_handoff. rewrite stage_handoff_eq.
  fold pid objs. set (ids := prepared_revision_ids prepared).
  assert (store_ok store ∧ (∀ o, recoverable_record store o →
    o = Some record ∨ ∃ next candidate, o = Some next ∧ exposed_in next candidate)) as Hnothing.
  { split; [apply Hstart|]. intros o Ho. left. by apply Hstart. }
  destruct (LocalScalarDomain.handoff (elements_asc ids) d) as [candidate [[]|e|]] eqn:Hh;
    [|by split_and!; try apply Hnothing..].
  destruct (domain_handoff_spec d ids candidate Hd Hh) as (Hcand & Hworking & Hfin & Hids & Hexp).
  destruct (encode_trusted codec (LocalScalarDomain.snapshot candidate)) as [bytes|e|] eqn:Henc;
    [|by split_and!; try apply Hnothing..].
  set (stage := λ record, map_err (TransitionRecovery (E := StoreError (St := St)))
    (staged (DurableSyncRecord.prepare_outbox bytes pid (applied_cursor record) objs record))).
  assert (∀ next, stage record = Ok next →
    storable store next ∧ exposed_in next candidate) as Hnext.
  { intros next Hn%map_err_Ok. destruct (Hfits candidate bytes next Hh Henc Hn) as [Hlen Hstore].
    split; [done|]. apply staged_prepare_Ok in Hn as (_ & _ & ->).
    split; [by eapply recover_encoded|]. split; [|split; [|split; [done|]]].
    - intros x [Hf He]%Hexp. by rewrite Hfin.
    - cbn. by rewrite lookup_insert_eq.
    - intros other Hne. cbn. by rewrite lookup_insert_ne. }
  pose proof (swap_after_safe (stage_outbound bytes pid objs)
    (HandoffSync (C := TrustedError (C := C) (S := LocalScalarSnapshot T))) TransitionStore stage candidate d
    record store (stage_outbound_transition bytes pid objs) Hstart (λ next Hn, proj1 (Hnext next Hn))) as Hsafe.
  destruct (swap_after _ _ _ _) as [[d' [record' store']] res]. destruct Hsafe as (Hok & Hrec & Hres).
  split; [done|]. split.
  - intros o Ho. destruct (Hrec o Ho) as [|(next & Hn & ->)]; [by left|right].
    exists next, candidate. split; [done|]. by apply Hnext.
  - destruct res; [|done..]. destruct Hres as (-> & Hn & Hin). split; [done|]. by apply Hnext.
Qed.

(** A title with one sealed and frozen local revision over a received one. *)
Definition ex_title_clean : LocalScalarDomain (list byte) :=
  LocalScalarDomain_mk (WorkingScalar_mk ex_register None) FinalizationLedger.new.
Definition ex_title : LocalScalarDomain (list byte) :=
  run_domain_calls [BeginEpoch (wid 1) (b_ "draft"); SealLocal (rid 9); Finalize (rid 9)] ex_title_clean.

Lemma ex_title_ok : domain_ok ex_title.
Proof.
  apply run_domain_calls_ok.
  - intros c [-> |[-> |[-> |Hc]%elem_of_cons]%elem_of_cons]%elem_of_cons; [exact I..|].
    exfalso. exact (not_elem_of_nil _ Hc).
  - apply domain_reachable_ok. apply (reachable_init ex_register); [apply ex_register_valid|].
    unfold LocalScalarDomain.from_causal, WorkingScalar.from_causal.
    rewrite (proj2 (validate_valid ex_register tt (proj1 ex_register_valid)) ex_register_valid). reflexivity.
Qed.

Definition ex_codec : DevelopmentScalarTrustedStateCodec := DevelopmentScalarTrustedStateCodec_mk.
Definition ex_handoff : PreparedScalarHandoff :=
  PreparedScalarHandoff_mk {[rid 9]} (ProtectedPublication_mk ex_pid [b_ "wire"]).
Definition ex_handed : LocalScalarDomain (list byte) :=
  (LocalScalarDomain.handoff (elements_asc (prepared_revision_ids ex_handoff)) ex_title).1.

(** The size of an encoded snapshot, when there is one. *)
Definition encoding_fits (d : LocalScalarDomain (list byte)) : bool :=
  match encode_local_scalar_snapshot (LocalScalarDomain.snapshot d) with
  | Ok bytes => bool_decide (len bytes ≤ isize_max)
  | _ => true
  end.

Lemma encoding_fits_len d bytes :
  encoding_fits d = true → encode_local_scalar_snapshot (LocalScalarDomain.snapshot d) = Ok bytes →
  len bytes ≤ isize_max.
Proof. unfold encoding_fits. intros Hf He. rewrite He in Hf. by apply bool_decide_eq_true in Hf. Qed.

(** The record reaches the media and its acknowledgement is lost: the live domain
    is unchanged, and a restart finds the exposed revision with its outbox. *)
Lemma handoff_staging_crash_safe_witness :
  let '((d', (record', store')), res) := stage_prepared_scalar_handoff ex_codec ex_handoff
    (ex_title, (ex_start, ScriptedStore_mk (Some ex_start) [(true, false)])) in
  d' = ex_title ∧ ∃ next candidate, stored store' = Some next ∧
    recover_scalar_domain next ex_codec = Ok candidate ∧ rid 9 ∈ exposed_local_ids (finalization candidate).
Proof.
  assert (encoding_fits ex_handed = true) as Hlen by (vm_compute; reflexivity).
  pose proof (handoff_staging_crash_safe ex_codec ex_handoff ex_title ex_start
    (ScriptedStore_mk (Some ex_start) [(true, false)]) ex_title_ok
    (conj I (λ o Ho, Ho))) as Hs.
  assert (bool_decide (stored (stage_prepared_scalar_handoff ex_codec ex_handoff
    (ex_title, (ex_start, ScriptedStore_mk (Some ex_start) [(true, false)]))).1.2.2 = Some ex_start) = false)
    as Hne%bool_decide_eq_false_1 by (vm_compute; reflexivity).
  assert (succeeds (stage_prepared_scalar_handoff ex_codec ex_handoff
    (ex_title, (ex_start, ScriptedStore_mk (Some ex_start) [(true, false)]))).2 = false) as Hres
    by (vm_compute; reflexivity).
  destruct (stage_prepared_scalar_handoff _ _ _) as [[d' [record' store']] res].
  destruct Hs as (_ & Hrec & Hend).
  { intros candidate bytes next Hh He _. split; [|exact I].
    apply (encoding_fits_len candidate); [|exact He].
    pose proof (f_equal fst Hh) as Hc. cbn [fst] in Hc. rewrite <-Hc. exact Hlen. }
  split.
  - destruct res; [discriminate Hres|exact (proj1 Hend)..].
  - destruct (Hrec (stored store') eq_refl) as [Heq|(next & candidate & Hn & Hr & Hx & _)]; [destruct (Hne Heq)|].
    exists next, candidate. split; [exact Hn|]. split; [exact Hr|]. apply Hx. split.
    + by_compute.
    + left. exact (proj2 (elem_of_singleton (C := gset RevisionId) (rid 9) (rid 9)) eq_refl).
Defined.

(** ** Reception *)

(** C5: what is received and the cursor that says so become durable together.
    Committing a received register is all or nothing for the live domain and its
    record; a power loss during or after it leaves the old record or one whose
    cursor is the new head's and whose trusted state recovers to the domain that
    has observed the register, with the old outbox; once it has returned [Ok],
    only the latter, and the call returns the revision that sealed the open
    epoch. *)
Theorem reception_crash_safe {T St TC CC R : Type} `{!EqDecision T} `{SyncRecordStoreLaws St}
    `{!TrustedStateCodec TC (LocalScalarSnapshot T)} `{!TrustedStateLaws TC T} `{!TransportCursorCodec CC R}
    (codec : TC) (cursors : CC) (received : ReceivedScalarState T R) (d : LocalScalarDomain T)
    (record : DurableSyncRecord) (store : St)
    (Hd : domain_ok d) (Hk : keyed (received_remote received)) (Hstart : in_step record store)
    (Hfits : ∀ candidate sealed bytes cursor,
       LocalScalarDomain.observe_remote (received_remote received) (pre_observation_revision_id received) d =
         (candidate, Ok sealed) →
       encode_trusted codec (LocalScalarDomain.snapshot candidate) = Ok bytes →
       encode cursors (received_new_head received) = Ok cursor →
       len bytes ≤ isize_max ∧ storable store (DurableSyncRecord_mk bytes (Some cursor) (outbox record))) :
  let received_in (next : DurableSyncRecord) (candidate : LocalScalarDomain T) sealed :=
    recover_scalar_domain next codec = Ok candidate ∧
    observed d (received_remote received) (pre_observation_revision_id received) sealed candidate ∧
    (∃ cursor, encode cursors (received_new_head received) = Ok cursor ∧ applied_cursor next = Some cursor) ∧
    outbox next = outbox record in
  let '((d', (record', store')), res) :=
    commit_received_scalar_domain codec cursors received (d, (record, store)) in
  store_ok store' ∧
  (∀ o, recoverable_record store' o →
     o = Some record ∨ ∃ next candidate sealed, o = Some next ∧ received_in next candidate sealed) ∧
  match res with
  | Ok sealed => in_step record' store' ∧ received_in record' d' sealed
  | _ => d' = d ∧ record' = record
  end.
Proof.
  intros received_in. rewrite commit_received_domain_eq.
  assert (store_ok store ∧ (∀ o, recoverable_record store o →
    o = Some record ∨ ∃ next candidate sealed, o = Some next ∧ received_in next candidate sealed)) as Hnothing.
  { split; [apply Hstart|]. intros o Ho. left. by apply Hstart. }
  destruct (LocalScalarDomain.observe_remote _ _ d) as [candidate [sealed|e|]] eqn:Hobs;
    [|by split_and!; try apply Hnothing..].
  pose proof (observe_remote_observed _ _ _ _ _ Hd Hk Hobs) as Hcand.
  destruct (encode_trusted codec (LocalScalarDomain.snapshot candidate)) as [bytes|e|] eqn:Henc;
    [|by split_and!; try apply Hnothing..].
  set (stage := λ record, cursor ← map_err (CommitCursor (S := StoreError (St := St)))
      (encode cursors (received_new_head received));
    Ok (DurableSyncRecord.apply_received bytes cursor record)).
  assert (∀ next, stage record = Ok next → storable store next ∧ received_in next candidate sealed) as Hnext.
  { intros next (cursor & Hcursor%map_err_Ok & Hn)%bind_Ok. apply (inj Ok) in Hn as <-.
    destruct (Hfits candidate sealed bytes cursor eq_refl Henc Hcursor) as [Hlen Hstore].
    split; [exact Hstore|]. split; [eapply recover_encoded; [apply Hcand|done..]|].
    split; [done|]. split; [by exists cursor|done]. }
  pose proof (swap_after_safe (commit_received cursors bytes (received_new_head received))
    (ReceiveSync (TE := TrustedError (C := TC) (S := LocalScalarSnapshot T))) CommitStore stage candidate d
    record store (commit_received_transition cursors bytes _) Hstart (λ next Hn, proj1 (Hnext next Hn))) as Hsafe.
  destruct (swap_after _ _ _ _) as [[d' [record' store']] res]. destruct Hsafe as (Hok & Hrec & Hres).
  split; [done|]. split.
  - intros o Ho. destruct (Hrec o Ho) as [|(next & Hn & ->)]; [by left|right].
    exists next, candidate, sealed. split; [done|]. by apply Hnext.
  - destruct res; cbn [mbind result_bind]; [|done..]. destruct Hres as (-> & Hn & Hin). split; [done|]. by apply Hnext.
Qed.

(** A title with an open epoch receives another device's revision. *)
Definition ex_title_open : LocalScalarDomain (list byte) := run_domain_call (BeginEpoch (wid 2) (b_ "mine")) ex_title.
Definition ex_received : ReceivedScalarState (list byte) (list byte) :=
  ReceivedScalarState_mk (assign_all [(rid 12, b_ "theirs")] ex_register) (Some (rid 10)) (b_ "R7").

Lemma ex_title_open_ok : domain_ok ex_title_open.
Proof. apply run_domain_call_ok; [exact I|exact ex_title_ok]. Qed.

Lemma ex_received_valid : valid (received_remote ex_received).
Proof. apply assign_all_valid, ex_register_valid. Qed.

Definition ex_lost_ack : ScriptedStore := ScriptedStore_mk (Some ex_start) [(true, false)].
Definition ex_reception := commit_received_scalar_domain ex_codec tt ex_received (ex_title_open, (ex_start, ex_lost_ack)).

(** The acknowledgement is lost again: the caller still has the open epoch, and a
    restart finds the observed register and the cursor that names it. *)
Lemma reception_crash_safe_witness :
  let '((d', (record', store')), res) := ex_reception in
  d' = ex_title_open ∧ ∃ next candidate, stored store' = Some next ∧
    recover_scalar_domain next ex_codec = Ok candidate ∧ applied_cursor next = Some (TransportCursor_mk (b_ "R7")) ∧
    revisions (received_remote ex_received) ⊆ revisions (causal (working candidate)).
Proof.
  assert (encoding_fits (LocalScalarDomain.observe_remote (received_remote ex_received)
    (pre_observation_revision_id ex_received) ex_title_open).1 = true) as Hlen by (vm_compute; reflexivity).
  pose proof (reception_crash_safe ex_codec tt ex_received ex_title_open ex_start ex_lost_ack
    ex_title_open_ok (proj1 ex_received_valid) (conj I (λ o Ho, Ho))) as Hs.
  assert (bool_decide (stored ex_reception.1.2.2 = Some ex_start) = false)
    as Hne%bool_decide_eq_false_1 by (vm_compute; reflexivity).
  assert (succeeds ex_reception.2 = false) as Hres by (vm_compute; reflexivity).
  unfold ex_reception in *.
  destruct (commit_received_scalar_domain _ _ _ _) as [[d' [record' store']] res].
  destruct Hs as (_ & Hrec & Hend).
  { intros candidate sealed bytes cursor Ho He _. split; [|exact I].
    apply (encoding_fits_len candidate); [|exact He].
    pose proof (f_equal fst Ho) as Hc. cbn [fst] in Hc. rewrite <-Hc. exact Hlen. }
  split.
  - destruct res; [discriminate Hres|exact (proj1 Hend)..].
  - destruct (Hrec (stored store') eq_refl) as [Heq|(next & candidate & sealed & Hn & Hr & Hobs & (cursor & Hc & Hcur) & _)];
      [destruct (Hne Heq)|].
    exists next, candidate. split; [exact Hn|]. split; [exact Hr|]. split; [|exact (proj1 (proj2 (proj2 (proj2 Hobs))))].
    rewrite Hcur. pose proof (inj Ok _ _ Hc) as <-. reflexivity.
Defined.

(** ** The trusted state *)

(** The recovery encoding of a domain is exact: encoding a well-formed domain
    never panics and succeeds iff every length fits its 64-bit field, and the
    bytes recover to that very domain; and whatever bytes are found, decoding
    never panics and returns only snapshots the domain accepts. *)
Theorem trusted_state_exact (encoded : list byte) (d : LocalScalarDomain (list byte))
    (Hlen : len encoded ≤ isize_max) (Hd : domain_ok d) :
  let codec := DevelopmentScalarTrustedStateCodec_mk in
  encode_trusted codec (LocalScalarDomain.snapshot d) ≠ Panic ∧
  (is_ok (encode_trusted codec (LocalScalarDomain.snapshot d)) ↔ snapshot_fits (LocalScalarDomain.snapshot d)) ∧
  (encode_trusted codec (LocalScalarDomain.snapshot d) = Ok encoded →
   ∀ cursor, recover_scalar_domain (DurableSyncRecord.new encoded cursor) codec = Ok d) ∧
  decode_trusted codec encoded ≠ Panic ∧
  (∀ s, decode_trusted codec encoded = Ok s → ∃ d', LocalScalarDomain.restore s = Ok d' ∧
     LocalScalarDomain.snapshot d' = s ∧ working_ok (working d') ∧
     ledger_shape (causal (working d')) (finalization d')).
Proof.
  intros codec. cbn [encode_trusted decode_trusted codec development_scalar_codec].
  destruct (encode_trusted_spec (LocalScalarDomain.snapshot d)) as (Hnp & Hok & Henc); [apply Hd|].
  destruct (decode_trusted_spec encoded Hlen) as [Hnd Hdec].
  split; [exact Hnp|]. split; [|split; [|split; [exact Hnd|]]].
  - rewrite Hok, domain_restore_snapshot by done. split; [by intros [_ ?]|]. intros Hf. split; [by exists d|done].
  - intros He cursor. eapply (recover_encoded codec d); [done|exact He|done|done].
  - intros s Hs%Hdec. destruct Hs as [[d' Hd'] (c & _ & Hs)]. exists d'. split; [done|].
    destruct Hs as (c1 & _ & _ & _ & _ & _ & _ & (l & _ & [Hv _]%from_revisions_Ok) & _).
    apply domain_restore_Ok in Hd' as (-> & ? & ?); [done|apply Hv].
Qed.

Lemma trusted_state_exact_witness :
  ∃ encoded, encode_local_scalar_snapshot (LocalScalarDomain.snapshot ex_title_open) = Ok encoded ∧
    recover_scalar_domain (DurableSyncRecord.new encoded None) DevelopmentScalarTrustedStateCodec_mk = Ok ex_title_open.
Proof.
  assert (encoding_fits ex_title_open = true) as Hfits by (vm_compute; reflexivity).
  assert (succeeds (encode_local_scalar_snapshot (LocalScalarDomain.snapshot ex_title_open)) = true) as Hs
    by (vm_compute; reflexivity).
  destruct (succeeds_Ok _ Hs) as [encoded He]. exists encoded. split; [exact He|].
  exact (proj1 (proj2 (proj2 (trusted_state_exact encoded ex_title_open
    (encoding_fits_len ex_title_open encoded Hfits He) ex_title_open_ok))) He None).
Defined.

(** ** What is published and what is received *)

(** What a handoff prepares is what a peer decodes: preparing succeeds only
    for a nonempty set whose local dependencies are all frozen; it makes one
    object, and that object, opened with the same key, continuum and domain,
    yields a valid register that holds exactly the named revisions and everything
    they depend on, as the publishing domain has them. *)
Theorem prepared_publication_exact `{AeadLaws} (generated : option (byte_array NONCE_BYTES))
    (d : LocalScalarDomain (list byte)) (dk : DomainKey) (c : ContinuumId) (pid : PublicationId)
    (key : ContentKey) (ids : list RevisionId) (prepared : PreparedScalarHandoff)
    (Hd : domain_ok d) (Hdk : dk_domain dk ≠ [])
    (Hp : prepare_scalar_handoff generated d dk c pid key ids = Ok prepared)
    (Hlen : ∀ wire, wire ∈ protected_objects (prepared_publication prepared) → len wire ≤ isize_max) :
  let r := causal (working d) in
  let direct : gset RevisionId := list_to_set ids in
  direct ≠ ∅ ∧ direct ⊆ dom (revisions r) ∧
  (∀ x, exposes r (finalization d) direct x → x ∈ dom (finalized (finalization d))) ∧
  prepared_revision_ids prepared = direct ∧
  protected_publication_id (prepared_publication prepared) = pid ∧
  ∃ wire register, protected_objects (prepared_publication prepared) = [wire] ∧
    decode_single_scalar_domain_object key c dk wire = Ok register ∧ valid register ∧
    ∀ x rev, revisions register !! x = Some rev ↔ revisions r !! x = Some rev ∧ depends_on r direct x.
Proof.
  intros r direct.
  destruct (prepare_Ok _ _ _ _ _ _ _ _ Hd Hp) as (Hne & Hids & Hh & closure & part & wire & Hcl & Hdom & _ & _ & Hpub).
  fold r direct in Hne, Hids, Hh, Hcl, Hdom.
  destruct (prepare_decode _ _ _ _ _ _ _ _ Hd Hdk Hp) as (closure' & wire' & Hcl' & Hobj & Hdec).
  fold r direct in Hcl', Hdec.
  split; [exact Hne|]. split; [exact Hdom|]. split.
  { destruct (LocalScalarDomain.handoff (elements_asc direct) d) as [candidate res] eqn:Hh'. cbn in Hh. subst res.
    destruct (domain_handoff_spec d direct candidate Hd Hh') as (_ & _ & _ & _ & Hexp).
    intros x Hx. by apply Hexp. }
  split; [exact Hids|]. split; [by rewrite Hpub|].
  exists wire', (restricted r closure'). split; [exact Hobj|].
  split; [apply Hdec, Hlen; rewrite Hobj; by left|].
  split; [by eapply restricted_valid; [apply domain_ok_causal|..]|].
  intros x rev. by rewrite restricted_lookup, Hcl'.
Qed.

Definition ex_prepared : result ScalarPublicationPrepareError PreparedScalarHandoff :=
  prepare_scalar_handoff (Some ex_nonce) ex_title ex_domain_key (cid 1) ex_pid ex_key [rid 9].

Lemma prepared_publication_exact_witness :
  match ex_prepared with
  | Ok prepared => ∃ wire register, protected_objects (prepared_publication prepared) = [wire] ∧
      decode_single_scalar_domain_object ex_key (cid 1) ex_domain_key wire = Ok register ∧
      rid 9 ∈ dom (revisions register)
  | _ => False
  end.
Proof.
  assert (succeeds ex_prepared = true) as Hs by (vm_compute; reflexivity).
  assert (match ex_prepared with
    | Ok prepared => forallb (λ wire, bool_decide (len wire ≤ isize_max)) (protected_objects (prepared_publication prepared))
    | _ => true end = true) as Hlen by (vm_compute; reflexivity).
  destruct ex_prepared as [prepared|e|] eqn:Hp; [|discriminate Hs..].
  pose proof (prepared_publication_exact (Some ex_nonce) ex_title ex_domain_key (cid 1) ex_pid ex_key [rid 9] prepared
    ex_title_ok ltac:(discriminate) Hp) as Hexact.
  destruct Hexact as (_ & Hdom & _ & _ & _ & wire & register & Hobj & Hdec & _ & Hreg).
  { intros wire Hin. rewrite forallb_forall in Hlen.
    exact (bool_decide_eq_true_1 _ (Hlen wire (proj1 (list_elem_of_In _ _) Hin))). }
  exists wire, register. split; [exact Hobj|]. split; [exact Hdec|].
  assert (rid 9 ∈ (list_to_set [rid 9] : gset RevisionId)) as Hin by (apply elem_of_list_to_set; left).
  pose proof (Hdom _ Hin) as [rev Hrev]%elem_of_dom.
  apply elem_of_dom. exists rev. apply Hreg. split; [exact Hrev|]. left. exact Hin.
Defined.

(** Decoding a fetched range of one-part publications is decoding each object
    on its own, once: the registers are those of the objects in order of first
    arrival, repetitions are skipped, and the first object that fails is the
    failure of the range. *)
Theorem range_decode_equivalence `{AeadLaws} (key : ContentKey) (c : ContinuumId) (dk : DomainKey)
    (l : list (list byte)) (Hl : ∀ encoded, encoded ∈ l → single_part encoded) :
  decode_complete_scalar_domain_objects key c dk l =
  try_map (decode_single_scalar_domain_object key c dk) (first_seen ∅ l).
Proof.
  pose proof (assemble_range key c dk l [] ∅ Hl) as Ha. unfold decode_complete_scalar_domain_objects.
  destruct (st_for_each _ l _) as [self res]. destruct Ha as [Hinbox Hres]. rewrite Hinbox.
  destruct (try_map _ _) as [registers|e|]; [|by rewrite Hres..]. destruct Hres as [-> ->]. reflexivity.
Qed.

Lemma range_decode_equivalence_witness :
  match ex_prepared with
  | Ok prepared => let wires := protected_objects (prepared_publication prepared) in
      decode_complete_scalar_domain_objects ex_key (cid 1) ex_domain_key (wires ++ wires) =
        try_map (decode_single_scalar_domain_object ex_key (cid 1) ex_domain_key) (first_seen ∅ (wires ++ wires))
  | _ => False
  end.
Proof.
  assert (succeeds ex_prepared = true) as Hs by (vm_compute; reflexivity).
  assert (match ex_prepared with
    | Ok prepared => forallb (λ wire, match decode_protected_sync_part wire with
        | Ok part => bool_decide (part_index part = 0 ∧ total_parts part = 1)
        | _ => true end) (protected_objects (prepared_publication prepared))
    | _ => true end = true) as Hone by (vm_compute; reflexivity).
  destruct ex_prepared as [prepared|e|]; [|discriminate Hs..].
  apply (range_decode_equivalence ex_key (cid 1) ex_domain_key). intros encoded Hin part Hpart.
  rewrite forallb_forall in Hone.
  assert (In encoded (protected_objects (prepared_publication prepared))) as Hin'
    by (apply elem_of_app in Hin as [Hin|Hin]; by apply list_elem_of_In).
  specialize (Hone encoded Hin'). rewrite Hpart in Hone. by apply bool_decide_eq_true_1 in Hone.
Defined.
