(* ===== verification/ResumeProperties.v ===== *)
(** * Properties of catching up and resuming

    One scalar domain and its outbox over any transport and any store
    (crates/apc-runtime: catchup.rs, resume.rs, resume_batch.rs, resume_batch_cycle.rs). *)
From Stdlib Require Import Lia NArith Strings.Byte.
From stdpp Require Import base tactics option list gmap numbers.
From S2P Require Import Prelude Outcome BTree Bytes Id Error Worklist Scalar Causal Merge ScalarMerge.
From S2P Require Import Working Finalization Domain Reader RegisterCodec Projection Codec Crypto Protected.
From S2P Require Import Wire Recovery Transport Session Batch TrustedState Publication Receive Catchup.
From S2P Require Import Resume ResumeSet ResumeBatch SessionRuns RuntimeLaws CatchupLaws ResumeSetLaws ResumeLaws ResumeSingle.
From S2P Require Import GitHub GitHubFake GitHubCursor SyncProperties SessionProperties GitHubProperties RuntimeProperties.
Local Open Scope N_scope.
#[local] Existing Instance toy_aead.
#[local] Existing Instance scripted_store.
#[local] Existing Instance scripted_store_laws.
#[local] Existing Instance toy_sha256.

(** C6: catching up is atomic.  Whatever the transport returns, the live domain
    stays the one its record recovers to and the outbox is untouched.  A pass
    that fails changes neither domain nor record; one that reports [Applied] has
    merged every register of the fetched range into one remote register, and the
    live domain has observed exactly that; one that reports an advance without
    objects has moved only the cursor.  A power loss during or after it leaves
    the old record, or the one in which the state of that observation and the
    cursor of that head are together. *)
Theorem catch_up_atomic `{Aead} {St Tr TC CC : Type} `{SyncRecordStoreLaws St} `{OpaqueTransport Tr}
    `{!TrustedStateCodec TC (LocalScalarSnapshot (list byte))} `{!TrustedStateLaws TC (list byte)}
    `{!TransportCursorCodec CC Revision} (codec : TC) (cursors : CC) (spec : ScalarCatchUpSpec)
    (d : LocalScalarDomain (list byte)) (record : DurableSyncRecord) (store : St) (tr : Tr)
    (Hlive : live codec d record) (Hstart : in_step record store) :
  let '(tr1, fetched) := fetch_from_durable_cursor record cursors tr in
  let pass next := ∃ head objects op, fetched = Ok (Changed head objects) ∧
    receives codec spec d head objects op ∧ op_stage (St := St) cursors op record = Some next in
  let '(((d', (record', store')), tr'), res) :=
    catch_up_single_scalar_domain codec cursors spec ((d, (record, store)), tr) in
  tr' = tr1 ∧ live codec d' record' ∧ outbox record' = outbox record ∧
  ((∀ next, pass next → storable store next) →
   store_ok store' ∧ ∀ o, recoverable_record store' o → o = Some record ∨ ∃ next, pass next ∧ o = Some next) ∧
  match res with
  | Ok (CatchUpUpToDate h) => fetched = Ok (UpToDate h) ∧ d' = d ∧ record' = record ∧ store' = store
  | Ok (CatchUpBaselineUnavailable h) => fetched = Ok (BaselineUnavailable h) ∧ d' = d ∧ record' = record ∧ store' = store
  | Ok (CursorAdvancedWithoutSemanticObjects h) => fetched = Ok (Changed h []) ∧ d' = d ∧ cursor_at cursors h record'
  | Ok (Applied h n ids sealed) => ∃ objects remote,
      fetched = Ok (Changed h objects) ∧ n = length objects ∧ objects ≠ [] ∧ remote_of spec objects remote ∧
      ids = dom (revisions remote) ∧ observed d remote (spec_pre_observation_revision_id spec) sealed d' ∧
      cursor_at cursors h record'
  | _ => d' = d ∧ record' = record
  end.
Proof.
  pose proof (catch_up_step codec cursors spec d record store tr Hlive) as Hstep.
  destruct (catch_up_single_scalar_domain codec cursors spec _) as [[[d' [record' store']] tr'] res].
  destruct (fetch_from_durable_cursor record cursors tr) as [tr1 fetched]. cbn zeta.
  destruct Hstep as (-> & Hlive' & Hout & (ops & Hrun & Hops) & Hres). cbn [fst] in *.
  split; [done|]. split; [done|]. split; [done|]. split.
  - intros Hfits. symmetry in Hrun.
    destruct (run_one_durable (λ op, ∃ head objects, fetched = Ok (Changed head objects) ∧ receives codec spec d head objects op)
      cursors ops record store record' store' Hstart) as [Hok Hall]; [| exact Hrun| |].
    + destruct Hops as [|(op & head & objects & -> & Hf & Hr)]; [by left|right; eauto 10].
    + intros op next (head & objects & Hf & Hr) Hn. apply Hfits. by exists head, objects, op.
    + split; [exact Hok|]. intros o Ho. destruct (Hall o Ho) as [|(op & next & (head & objects & Hf & Hr) & Hn & ->)]; [by left|].
      right. exists next. split; [|done]. by exists head, objects, op.
  - destruct res as [[]|e|]; try done; by destruct Hres as (? & ? & [= -> ->]).
Qed.

(** *** Two devices and a GitHub branch *)

(** The object the publishing device has prepared, and the branch before and
    after it is published. *)
Definition ex_wires : list (list byte) :=
  match ex_prepared with
  | Ok prepared => protected_objects (prepared_publication prepared)
  | _ => []
  end.
Definition ex_branch : GitHubTransport FakeGitHubApi := GitHubTransport.new FakeGitHubApi.seeded.
Definition ex_shared : GitHubTransport FakeGitHubApi :=
  (GitHubTransport.publish (Some (fake_oid 1)) ex_wires ex_branch).1.

Definition ex_cursors : GitHubCursorCodec := GitHubCursorCodec_mk.
Definition ex_spec : ScalarCatchUpSpec := ScalarCatchUpSpec_mk ex_key (cid 1) ex_domain_key None.

(** A device's record at the first commit. *)
Definition ex_root_cursor : option TransportCursor := Some (TransportCursor_mk (as_str (fake_oid 1))).
Definition ex_state (d : LocalScalarDomain (list byte)) : list byte :=
  default [] (result_value (encode_local_scalar_snapshot (LocalScalarDomain.snapshot d))).
Definition ex_record_of (d : LocalScalarDomain (list byte)) (pending : gmap PublicationId DurableOutboxEntry) :
    DurableSyncRecord := DurableSyncRecord_mk (ex_state d) ex_root_cursor pending.
Definition ex_store_of (record : DurableSyncRecord) : ScriptedStore := ScriptedStore_mk (Some record) [].

Lemma ex_live d pending :
  domain_ok d → succeeds (encode_local_scalar_snapshot (LocalScalarDomain.snapshot d)) = true →
  live ex_codec d (ex_record_of d pending).
Proof.
  intros Hd Hs. apply live_encoded; [exact Hd|]. cbn [trusted_state ex_record_of]. unfold ex_state.
  destruct (succeeds_Ok _ Hs) as [bytes Hb]. cbn [encode_trusted development_scalar_codec]. rewrite Hb. reflexivity.
Qed.

(** The receiving device: the title before the draft. *)
Lemma ex_title_clean_ok : domain_ok ex_title_clean.
Proof.
  apply domain_reachable_ok. apply (reachable_init ex_register); [apply ex_register_valid|].
  unfold LocalScalarDomain.from_causal, WorkingScalar.from_causal.
  rewrite (proj2 (validate_valid ex_register tt (proj1 ex_register_valid)) ex_register_valid). reflexivity.
Qed.

Definition ex_caught_up := catch_up_single_scalar_domain ex_codec ex_cursors ex_spec
  ((ex_title_clean, (ex_record_of ex_title_clean ∅, ex_store_of (ex_record_of ex_title_clean ∅))), ex_shared).

Lemma catch_up_atomic_witness :
  let '(((d', (record', store')), tr'), res) := ex_caught_up in
  live ex_codec d' record' ∧ rid 9 ∈ dom (revisions (causal (working d'))) ∧
  cursor_at ex_cursors (fake_oid 2) record'.
Proof.
  assert (succeeds (encode_local_scalar_snapshot (LocalScalarDomain.snapshot ex_title_clean)) = true) as Hs
    by (vm_compute; reflexivity).
  pose proof (catch_up_atomic ex_codec ex_cursors ex_spec ex_title_clean (ex_record_of ex_title_clean ∅)
    (ex_store_of (ex_record_of ex_title_clean ∅)) ex_shared (ex_live ex_title_clean ∅ ex_title_clean_ok Hs)
    (conj I (λ o Ho, Ho))) as Hcatch.
  assert (match ex_caught_up.2 with
    | Ok (Applied h _ ids _) => bool_decide (h = fake_oid 2 ∧ rid 9 ∈ ids)
    | _ => false end = true) as Hres by (vm_compute; reflexivity).
  unfold ex_caught_up in *.
  destruct (fetch_from_durable_cursor _ _ _) as [tr1 fetched].
  destruct (catch_up_single_scalar_domain _ _ _ _) as [[[d' [record' store']] tr'] res].
  destruct Hcatch as (_ & Hlive & _ & _ & Hans). split; [exact Hlive|].
  destruct res as [[|h n ids sealed| |]|e|]; try discriminate Hres.
  apply bool_decide_eq_true_1 in Hres as [-> Hin].
  destruct Hans as (objects & remote & _ & _ & _ & _ & -> & (_ & _ & _ & Hsub & _) & Hcur).
  split; [|exact Hcur]. apply elem_of_dom in Hin as [rev Hrev].
  apply elem_of_dom. exists rev. exact (lookup_weaken _ _ _ _ Hrev Hsub).
Defined.

(** C7: nothing staged is lost.  A pass over the outbox is a run of the durable
    session in which every operation is justified, so an entry is still there
    unchanged, or it is gone and the transport acknowledged its exact staged
    bytes in this pass, or it is one authentic object whose revisions are all in
    the remote register this pass has fetched.  What the report says holds of
    the record; in particular nothing is left after a publication, and nothing
    stale is published or ignored.  Whatever a power loss leaves, a restart
    accepts it. *)
Theorem resume_pass_justified `{Aead} {St Tr TC CC : Type} `{SyncRecordStoreLaws St} `{OpaqueTransport Tr}
    `{!TrustedStateCodec TC (LocalScalarSnapshot (list byte))} `{!TrustedStateLaws TC (list byte)}
    `{!TransportCursorCodec CC Revision} (codec : TC) (cursors : CC) (spec : ScalarCatchUpSpec)
    (d : LocalScalarDomain (list byte)) (record : DurableSyncRecord) (store : St) (tr : Tr)
    (Hlive : live codec d record) :
  let '(tr1, fetched) := fetch_from_durable_cursor record cursors tr in
  let '(((d', (record', store')), tr'), res) :=
    resume_scalar_outbox_set codec cursors spec ((d, (record, store)), tr) in
  live codec d' record' ∧
  (∀ pid, outbox record' !! pid = outbox record !! pid ∨
    outbox record' !! pid = None ∧
    ((∃ ids head, pid ∈ ids ∧ acknowledged cursors record ids tr1 head) ∨
     (∃ head objects remote, fetched = Ok (Changed head objects) ∧ remote_of spec objects remote ∧
       observed_pending spec record (dom (revisions remote)) pid))) ∧
  (∃ ops, (record', store') = run_ops cursors ops (record, store) ∧
    (∀ op, op ∈ ops → justified codec cursors spec d record tr op) ∧
    (in_step record store → session_storable cursors ops (record, store) →
     store_ok store' ∧
     ∀ o, recoverable_record store' o → ∃ found, o = Some found ∧ restorable codec (trusted_state found))) ∧
  match res with
  | Ok report => report_holds cursors spec report record'
  | _ => True
  end.
Proof.
  pose proof (resume_set_step codec cursors spec d record store tr Hlive) as Hstep.
  pose proof (λ op pid, justified_retires codec cursors spec d record tr op pid) as Hretires.
  destruct (resume_scalar_outbox_set codec cursors spec _) as [[[d' [record' store']] tr'] res].
  destruct (fetch_from_durable_cursor record cursors tr) as [tr1 fetched].
  destruct Hstep as (Hlive' & (ops & Hrun & Hops) & Hres). cbn [fst snd] in *.
  split; [done|]. split; [|split; [|done]].
  - intros pid. pose proof (run_ops_outbox cursors ops record store pid
      (λ op Hop, justified_only_retires _ _ _ _ _ _ _ (Hops op Hop))) as Hout.
    rewrite <-Hrun in Hout. cbn [fst] in Hout. destruct Hout as [|(Hnone & op & Hop & Hr)]; [by left|right].
    split; [done|]. by apply (Hretires op pid (Hops op Hop) Hr).
  - exists ops. split; [done|]. split; [done|]. intros Hstart Hst.
    pose proof (run_ops_durable (restorable codec) cursors ops record store Hstart Hst (live_good _ _ Hlive)
      (λ op Hop, justified_restorable _ _ _ _ _ _ _ (proj1 Hlive) (Hops op Hop))) as Hrest.
    by rewrite <-Hrun in Hrest.
Qed.

(** The publishing device after its publication was accepted and the answer lost:
    the entry is still staged at the old cursor, and the pass retires it. *)
Definition ex_staged : gmap PublicationId DurableOutboxEntry :=
  {[ex_pid := DurableOutboxEntry_mk ex_pid ex_root_cursor ex_wires]}.
Definition ex_resumed (tr : GitHubTransport FakeGitHubApi) := resume_scalar_outbox_set ex_codec ex_cursors ex_spec
  ((ex_title, (ex_record_of ex_title ex_staged, ex_store_of (ex_record_of ex_title ex_staged))), tr).

Lemma resume_pass_justified_witness :
  let '(((d', (record', store')), tr'), res) := ex_resumed ex_shared in
  live ex_codec d' record' ∧ outbox record' = ∅.
Proof.
  assert (succeeds (encode_local_scalar_snapshot (LocalScalarDomain.snapshot ex_title)) = true) as Hs
    by (vm_compute; reflexivity).
  pose proof (resume_pass_justified ex_codec ex_cursors ex_spec ex_title (ex_record_of ex_title ex_staged)
    (ex_store_of (ex_record_of ex_title ex_staged)) ex_shared (ex_live ex_title ex_staged ex_title_ok Hs)) as Hpass.
  assert (match (ex_resumed ex_shared).2 with
    | Ok report => match batch_action report with BatchNone => true | _ => false end
    | _ => false end = true) as Hres by (vm_compute; reflexivity).
  unfold ex_resumed in *.
  destruct (fetch_from_durable_cursor _ _ _) as [tr1 fetched].
  destruct (resume_scalar_outbox_set _ _ _ _) as [[[d' [record' store']] tr'] res].
  destruct Hpass as (Hlive & _ & _ & Hans). split; [exact Hlive|].
  destruct res as [report|e|]; [|discriminate Hres..]. cbn [snd] in Hres. unfold report_holds, report_settled in Hans.
  destruct (batch_action report); [exact Hans|discriminate Hres..].
Defined.

(** C20: a foreground cycle is bounded and ends in a settled state: whatever the
    transport answers it is asked to fetch at most twice and to publish at most
    twice, the live domain stays the one its record recovers to, no entry is
    added or changed, there is a second pass exactly when the first met a
    conflict, and the last report holds of the record. *)
Theorem resume_cycle_bounded `{Aead} {St Tr TC CC : Type} `{SyncRecordStore St} `{OpaqueTransport Tr}
    `{!TrustedStateCodec TC (LocalScalarSnapshot (list byte))} `{!TrustedStateLaws TC (list byte)}
    `{!TransportCursorCodec CC Revision} (codec : TC) (cursors : CC) (spec : ScalarCatchUpSpec)
    (d : LocalScalarDomain (list byte)) (record : DurableSyncRecord) (store : St) (tr : Tr)
    (Hlive : live codec d record) :
  let '(((d', (record', store')), tr'), res) :=
    resume_scalar_outbox_set_bounded codec cursors spec ((d, (record, store)), tr) in
  calls_within 2 2 tr tr' ∧ live codec d' record' ∧ outbox record' ⊆ outbox record ∧
  match res with
  | Ok cycle =>
      report_holds cursors spec (default (batch_initial cycle) (batch_post_conflict cycle)) record' ∧
      (is_Some (batch_post_conflict cycle) ↔ ∃ ids h, batch_action (batch_initial cycle) = BatchConflict ids h)
  | _ => True
  end.
Proof.
  pose proof (resume_set_bounded_within codec cursors spec ((d, (record, store)), tr)) as Hcalls.
  pose proof (resume_bounded_keeps (resume_scalar_outbox_set codec cursors spec) (live codec) (report_holds cursors spec)
    d record store tr (resume_set_keeps codec cursors spec) Hlive) as Hkeeps.
  unfold resume_scalar_outbox_set_bounded in *.
  by destruct (resume_bounded _ _) as [[[d' [record' store']] tr'] res].
Qed.

(** The first attempt, on the branch as it was: the staged bytes are published
    and the outbox is empty. *)
Definition ex_cycle := resume_scalar_outbox_set_bounded ex_codec ex_cursors ex_spec
  ((ex_title, (ex_record_of ex_title ex_staged, ex_store_of (ex_record_of ex_title ex_staged))), ex_branch).

Lemma resume_cycle_bounded_witness :
  let '(((d', (record', store')), tr'), res) := ex_cycle in
  calls_within 2 2 ex_branch tr' ∧ outbox record' = ∅ ∧ cursor_at ex_cursors (fake_oid 2) record'.
Proof.
  assert (succeeds (encode_local_scalar_snapshot (LocalScalarDomain.snapshot ex_title)) = true) as Hs
    by (vm_compute; reflexivity).
  pose proof (resume_cycle_bounded ex_codec ex_cursors ex_spec ex_title (ex_record_of ex_title ex_staged)
    (ex_store_of (ex_record_of ex_title ex_staged)) ex_branch (ex_live ex_title ex_staged ex_title_ok Hs)) as Hcycle.
  assert (match ex_cycle.2 with
    | Ok cycle => match batch_action (default (batch_initial cycle) (batch_post_conflict cycle)) with
        | BatchPublishedAndReconciled _ h => bool_decide (h = fake_oid 2) | _ => false end
    | _ => false end = true) as Hres by (vm_compute; reflexivity).
  unfold ex_cycle in *.
  destruct (resume_scalar_outbox_set_bounded _ _ _ _) as [[[d' [record' store']] tr'] res].
  destruct Hcycle as (Hcalls & _ & _ & Hans). split; [exact Hcalls|].
  destruct res as [cycle|e|]; [|discriminate Hres..]. destruct Hans as [Hans _]. cbn [snd] in Hres.
  unfold report_holds, report_settled in Hans.
  destruct (batch_action _) as [| | |ids h|]; try discriminate Hres.
  apply bool_decide_eq_true_1 in Hres as ->. destruct Hans as (_ & Hout & Hcur). split; [exact Hout|exact Hcur].
Defined.

(** C35: the pass over one publication is the pass over a set of one.  With at
    most one entry in the outbox the two make the same calls and leave the same
    domain, record, store and transport, and their answers say the same:
    nothing pending, blocked by the baseline, needs a rebase, observed and
    retired, published and retired, conflict, or the same error.  With more
    entries the pass over one publication refuses, and changes nothing. *)
Theorem resume_single_is_set_of_one `{Aead} {St Tr TC CC : Type} `{SyncRecordStore St} `{OpaqueTransport Tr}
    `{!TrustedStateCodec TC (LocalScalarSnapshot (list byte))} `{!TrustedStateLaws TC (list byte)}
    `{!TransportCursorCodec CC Revision} (codec : TC) (cursors : CC) (spec : ScalarCatchUpSpec)
    (d : LocalScalarDomain (list byte)) (record : DurableSyncRecord) (store : St) (tr : Tr)
    (Hlive : live codec d record) :
  let s := ((d, (record, store)), tr) in
  let '(s1, r1) := resume_single_scalar_domain codec cursors spec s in
  let '(s2, r2) := resume_scalar_outbox_set codec cursors spec s in
  if decide (size (outbox record) ≤ 1)%nat then s1 = s2 ∧ same_answer (first_pending record) r1 r2
  else s1 = s ∧ r1 = Err (MultiplePendingOutboxUnsupported (size (outbox record))).
Proof.
  intros s. destruct (decide (size (outbox record) ≤ 1)%nat) as [Hsize|Hsize].
  - exact (resume_single_set codec cursors spec d record store tr Hlive Hsize).
  - destruct (resume_scalar_outbox_set codec cursors spec s) as [s2 r2].
    unfold resume_single_scalar_domain. rewrite st_get. subst s. cbn [fst snd].
    rewrite decide_True by lia. done.
Qed.

(** The same device and the same staged entry, resumed on its own. *)
Definition ex_resumed_one (tr : GitHubTransport FakeGitHubApi) := resume_single_scalar_domain ex_codec ex_cursors ex_spec
  ((ex_title, (ex_record_of ex_title ex_staged, ex_store_of (ex_record_of ex_title ex_staged))), tr).

Lemma resume_single_is_set_of_one_witness :
  (ex_resumed_one ex_shared).1 = (ex_resumed ex_shared).1 ∧
  same_answer (Some ex_pid) (ex_resumed_one ex_shared).2 (ex_resumed ex_shared).2.
Proof.
  assert (succeeds (encode_local_scalar_snapshot (LocalScalarDomain.snapshot ex_title)) = true) as Hs
    by (vm_compute; reflexivity).
  pose proof (resume_single_is_set_of_one ex_codec ex_cursors ex_spec ex_title (ex_record_of ex_title ex_staged)
    (ex_store_of (ex_record_of ex_title ex_staged)) ex_shared (ex_live ex_title ex_staged ex_title_ok Hs)) as Hsame.
  unfold ex_resumed_one, ex_resumed in *. cbn zeta in Hsame.
  destruct (resume_single_scalar_domain _ _ _ _) as [s1 r1].
  destruct (resume_scalar_outbox_set _ _ _ _) as [s2 r2].
  assert (outbox (ex_record_of ex_title ex_staged) = {[ex_pid := DurableOutboxEntry_mk ex_pid ex_root_cursor ex_wires]})
    as Hout by done.
  rewrite decide_True in Hsame by (rewrite Hout, map_size_singleton; lia).
  by rewrite (first_pending_one _ _ _ Hout) in Hsame.
Defined.
