(* ===== verification/RecoveryProperties.v ===== *)
(** * Properties of the recovery container

    Several scalar domains behind one outbox and one cursor
    (crates/apc-runtime: trusted_state_set.rs, publication_set.rs, receive_set.rs,
    catchup_set.rs, resume_recovery_batch.rs, resume_recovery_cycle.rs,
    foreground_recovery.rs). *)
From Stdlib Require Import Lia NArith Strings.Byte.
From stdpp Require Import base tactics option list gmap numbers.
From S2P Require Import Prelude Outcome BTree Bytes Id Error Worklist Scalar Causal Merge ScalarMerge.
From S2P Require Import Working Finalization Domain Reader RegisterCodec Projection Codec Crypto Protected.
From S2P Require Import Wire Recovery Transport Session Batch TrustedState TrustedStateSet Publication PublicationSet.
From S2P Require Import Receive ReceiveSet Catchup CatchupSet ResumeSet ResumeRecovery ForegroundRecovery.
From S2P Require Import SessionRuns RuntimeLaws CatchupLaws ResumeSetLaws RecoveryLaws CatchupSetLaws.
From S2P Require Import ResumeSingle ResumeRecoveryLaws StagedSends.
From S2P Require Import GitHub GitHubFake GitHubCursor SyncProperties SessionProperties GitHubProperties RuntimeProperties ResumeProperties.
Local Open Scope N_scope.
#[local] Existing Instance toy_aead.
#[local] Existing Instance toy_aead_laws.
#[local] Existing Instance scripted_store.
#[local] Existing Instance scripted_store_laws.
#[local] Existing Instance toy_sha256.

(** ** The container *)

(** C29: a container never holds a snapshot that cannot be restored.  Whatever
    sequence of insertions and replacements a program makes from the empty
    container, restoring any key returns a domain or reports that there is none.
    Each call is all or nothing and touches its own key only; an insertion under a
    present key is refused; and [from_domains] accepts exactly the maps with this
    property. *)
Theorem recovery_container_valid (calls : list recovery_call) :
  let rs := run_recovery_calls calls LocalScalarRecoveryState.new in
  recovery_valid rs ∧
  (∀ k, LocalScalarRecoveryState.restore_domain rs k = Ok None ∧ LocalScalarRecoveryState.get rs k = None ∨
     ∃ s d, LocalScalarRecoveryState.get rs k = Some s ∧ LocalScalarDomain.restore s = Ok d ∧
       LocalScalarRecoveryState.restore_domain rs k = Ok (Some d)) ∧
  (∀ call, let '(rs', ok) := run_recovery_call call rs in
     if ok then is_Some (LocalScalarRecoveryState.get rs' (call_key call)) ∧
       ∀ k, k ≠ call_key call → LocalScalarRecoveryState.get rs' k = LocalScalarRecoveryState.get rs k
     else rs' = rs) ∧
  (∀ k s, is_Some (LocalScalarRecoveryState.get rs k) → run_recovery_call (InsertNew k s) rs = (rs, false)) ∧
  (∀ domains, LocalScalarRecoveryState.from_domains domains = Ok rs ↔ domains = recovery_domains rs).
Proof.
  intros rs. assert (recovery_valid rs) as Hrs.
  { apply run_recovery_calls_valid. intros k s. cbn. by rewrite lookup_empty. }
  split; [done|]. split; [|split; [|split]].
  - intros k. unfold LocalScalarRecoveryState.restore_domain, LocalScalarRecoveryState.get.
    destruct (recovery_domains rs !! k) as [s|] eqn:Hs; [right|by left].
    destruct (Hrs k s Hs) as [d Hd]. exists s, d. cbn. by rewrite Hd.
  - intros call. pose proof (run_recovery_call_cases call rs) as Hc.
    destruct (run_recovery_call call rs) as [rs' []]; [|done]. destruct Hc as (s & _ & _ & ->).
    unfold LocalScalarRecoveryState.get. cbn. rewrite lookup_insert_eq. split; [by exists s|].
    intros k Hne. by rewrite lookup_insert_ne.
  - intros k s [s' Hs]. unfold LocalScalarRecoveryState.get in Hs. cbn. by rewrite insert_new_cases, Hs.
  - intros domains. rewrite from_domains_Ok. destruct rs as [m]. cbn. naive_solver.
Qed.

(** *** A container of two domains *)
Definition ex_notes_key : DomainKey := DomainKey_mk (aid 1) (b_ "notes").
Definition ex_container (title notes : LocalScalarDomain (list byte)) : LocalScalarRecoveryState :=
  run_recovery_calls [InsertNew ex_domain_key (LocalScalarDomain.snapshot title);
    InsertNew ex_notes_key (LocalScalarDomain.snapshot notes)] LocalScalarRecoveryState.new.

Lemma insert_absent k d rs :
  recovery_domains rs !! k = None → domain_ok d →
  (run_recovery_call (InsertNew k (LocalScalarDomain.snapshot d)) rs).1 = with_domain rs k (LocalScalarDomain.snapshot d).
Proof. intros Hk Hd. cbn. by rewrite insert_new_cases, Hk, domain_restore_snapshot. Qed.

Lemma ex_container_eq title notes :
  domain_ok title → domain_ok notes →
  ex_container title notes = with_domain (with_domain LocalScalarRecoveryState.new ex_domain_key
    (LocalScalarDomain.snapshot title)) ex_notes_key (LocalScalarDomain.snapshot notes).
Proof.
  intros Ht Hn. unfold ex_container, run_recovery_calls. cbn [foldl].
  rewrite (insert_absent ex_domain_key) by (done || apply lookup_empty).
  apply insert_absent; [|done]. cbn. by rewrite lookup_insert_ne.
Qed.

Lemma ex_container_ok title notes : domain_ok title → domain_ok notes → recovery_ok (ex_container title notes).
Proof.
  intros Ht Hn. rewrite ex_container_eq by done.
  apply with_domain_ok; [|discriminate|done]. apply with_domain_ok; [apply new_recovery_ok|discriminate|done].
Qed.

(** ** The trusted state *)

(** The recovery encoding of a container is exact: encoding never panics and
    succeeds iff every length fits its 64-bit field, and the bytes decode to that
    very container, domain by domain; and whatever bytes are found, decoding
    never panics and returns only containers whose every snapshot the domain
    accepts, under identifiers [DomainKey::new] accepts. *)
Theorem recovery_codec_exact (encoded : list byte) (rs : LocalScalarRecoveryState)
    (Hlen : len encoded ≤ isize_max) (Hrs : recovery_ok rs) :
  let codec := DevelopmentMultiScalarTrustedStateCodec_mk in
  encode_trusted codec rs ≠ Panic ∧
  (is_ok (encode_trusted codec rs) ↔ recovery_fits rs) ∧
  (encode_trusted codec rs = Ok encoded → decode_trusted codec encoded = Ok rs) ∧
  decode_trusted codec encoded ≠ Panic ∧
  (∀ rs', decode_trusted codec encoded = Ok rs' →
     recovery_valid rs' ∧ ∀ k, k ∈ dom (recovery_domains rs') → dk_domain k ≠ []).
Proof.
  intros codec. cbn [encode_trusted decode_trusted codec development_multi_codec].
  destruct (encode_recovery_spec rs Hrs) as (Hfits & Hnp & Henc).
  destruct (decode_recovery_spec encoded Hlen) as [Hnd Hdec].
  split; [exact Hnp|]. split; [exact Hfits|]. split; [|split; [exact Hnd|]].
  - intros He. by apply Hdec, Henc.
  - intros rs' Hrs'%Hdec. by eapply g_recovery_valid.
Qed.

Definition ex_set_codec : DevelopmentMultiScalarTrustedStateCodec := DevelopmentMultiScalarTrustedStateCodec_mk.
Definition ex_rs : LocalScalarRecoveryState := ex_container ex_title_open ex_title.

Lemma ex_rs_ok : recovery_ok ex_rs.
Proof. apply ex_container_ok; [exact ex_title_open_ok|exact ex_title_ok]. Qed.

(** The size of an encoded container, when there is one. *)
Definition set_fits (rs : LocalScalarRecoveryState) : bool :=
  match encode_multi_scalar_recovery_state rs with
  | Ok bytes => bool_decide (len bytes ≤ isize_max)
  | _ => true
  end.

Lemma set_fits_len rs bytes :
  set_fits rs = true → encode_multi_scalar_recovery_state rs = Ok bytes → len bytes ≤ isize_max.
Proof. unfold set_fits. intros Hf He. rewrite He in Hf. by apply bool_decide_eq_true in Hf. Qed.

Lemma recovery_codec_exact_witness :
  ∃ encoded, encode_multi_scalar_recovery_state ex_rs = Ok encoded ∧
    decode_multi_scalar_recovery_state encoded = Ok ex_rs.
Proof.
  assert (set_fits ex_rs = true) as Hfits by (vm_compute; reflexivity).
  assert (succeeds (encode_multi_scalar_recovery_state ex_rs) = true) as Hs by (vm_compute; reflexivity).
  destruct (succeeds_Ok _ Hs) as [encoded He]. exists encoded. split; [exact He|].
  exact (proj1 (proj2 (proj2 (recovery_codec_exact encoded ex_rs (set_fits_len ex_rs encoded Hfits He) ex_rs_ok))) He).
Defined.

(** ** Publication *)

(** What is prepared from several domains is what a peer, and the device
    itself after a restart, decodes: preparing succeeds only for a selection that
    each domain's own handoff rule accepts; it makes one object, and that object
    opened with the same key and continuum is one projection with exactly the
    selected domains, each holding exactly the selected revisions and everything
    they depend on in that domain. *)
Theorem recovery_prepared_exact `{AeadLaws} {TE TSE SE CE : Type} (generated : option (byte_array NONCE_BYTES))
    (rs : LocalScalarRecoveryState) (c : ContinuumId) (pid : PublicationId) (key : ContentKey)
    (sel : gmap DomainKey (gset RevisionId)) (prepared : PreparedRecoveryHandoff)
    (Hrs : recovery_ok rs) (Hp : prepare_recovery_handoff generated rs c pid key sel = Ok prepared)
    (Hlen : ∀ wire, wire ∈ handoff_objects prepared → len wire ≤ isize_max) :
  sel ≠ ∅ ∧ handoff_revision_ids prepared = sel ∧ handoff_publication_id prepared = pid ∧
  ∃ wire projection, handoff_objects prepared = [wire] ∧
    decode_complete_scalar_projections (TE := TE) (TSE := TSE) (SE := SE) (CE := CE) key c [wire] = Ok [projection] ∧
    decode_pending_recovery_publication key c pid [wire] = Ok projection ∧
    ∀ k, match sel !! k with
         | Some direct => projected (recovery_domains rs !! k) direct (domains projection !! k)
         | None => domains projection !! k = None
         end.
Proof.
  destruct (prepare_recovery_Ok generated rs c pid key sel prepared Hrs Hp)
    as (Hne & Hids & Hpid & projection & part & wire & Hproj & Hpart & Hwire & Hobj).
  split; [exact Hne|]. split; [exact Hids|]. split; [exact Hpid|]. exists wire, projection. split; [exact Hobj|].
  assert (len wire ≤ isize_max) as Hw by (apply Hlen; rewrite Hobj; by left).
  destruct (prepared_decode (TE := TE) (TSE := TSE) (SE := SE) (CE := CE) generated c pid key projection part wire
    (projects_selection_valid _ _ _ Hproj) Hpart Hwire Hw) as [Hpeer Hown]. split; [exact Hpeer|]. split; [exact Hown|].
  intros k. specialize (Hproj k). destruct (sel !! k); [apply Hproj|done].
Qed.

Definition ex_selection : gmap DomainKey (gset RevisionId) :=
  {[ex_domain_key := {[rid 9]}; ex_notes_key := {[rid 2]}]}.
Definition ex_set_prepared : result RecoveryPublicationPrepareError PreparedRecoveryHandoff :=
  prepare_recovery_handoff (Some ex_nonce) (ex_container ex_title ex_title_clean) (cid 1) ex_pid ex_key ex_selection.

Lemma ex_source_ok : recovery_ok (ex_container ex_title ex_title_clean).
Proof. apply ex_container_ok; [exact ex_title_ok|exact ex_title_clean_ok]. Qed.

(** One object carries both domains. *)
Lemma recovery_prepared_exact_witness :
  match ex_set_prepared with
  | Ok prepared => ∃ wire projection, handoff_objects prepared = [wire] ∧
      decode_pending_recovery_publication ex_key (cid 1) ex_pid [wire] = Ok projection ∧
      is_Some (domains projection !! ex_domain_key) ∧ is_Some (domains projection !! ex_notes_key)
  | _ => False
  end.
Proof.
  assert (succeeds ex_set_prepared = true) as Hs by (vm_compute; reflexivity).
  assert (match ex_set_prepared with
    | Ok prepared => forallb (λ wire, bool_decide (len wire ≤ isize_max)) (handoff_objects prepared)
    | _ => true end = true) as Hlen by (vm_compute; reflexivity).
  destruct ex_set_prepared as [prepared|e|] eqn:Hp; [|discriminate Hs..]. unfold ex_set_prepared in Hp.
  pose proof (recovery_prepared_exact (TE := unit) (TSE := unit) (SE := unit) (CE := unit) (Some ex_nonce)
    (ex_container ex_title ex_title_clean) (cid 1) ex_pid ex_key ex_selection prepared ex_source_ok Hp) as Hexact.
  destruct Hexact as (_ & _ & _ & wire & projection & Hobj & _ & Hown & Hproj).
  { intros wire Hin. rewrite forallb_forall in Hlen.
    exact (bool_decide_eq_true_1 _ (Hlen wire (proj1 (list_elem_of_In _ _) Hin))). }
  exists wire, projection. split; [exact Hobj|]. split; [exact Hown|].
  assert (∀ k, is_Some (ex_selection !! k) → is_Some (domains projection !! k)) as Hsome.
  { intros k [direct Hk]. specialize (Hproj k). rewrite Hk in Hproj. destruct Hproj as (d & r & _ & _ & Hr & _). by exists r. }
  split; apply Hsome; unfold ex_selection; [rewrite lookup_insert_eq; by eexists|].
  rewrite lookup_insert_ne by discriminate. rewrite lookup_singleton_eq. by eexists.
Defined.

(** C21: exposing several domains is one durable step.  Staging is all or nothing
    for the live container and its record; a power loss during or after it leaves
    the old record, or one that decodes to the container in which every selected
    domain was handed off and no other changed, with the prepared objects in the
    outbox under the old cursor; once staging has returned [Ok], only the latter. *)
Theorem recovery_staging_crash_safe {St C : Type} `{SyncRecordStoreLaws St}
    `{!TrustedStateCodec C LocalScalarRecoveryState} `{!RecoveryStateLaws C}
    (codec : C) (prepared : PreparedRecoveryHandoff) (rs : LocalScalarRecoveryState)
    (record : DurableSyncRecord) (store : St)
    (Hrs : recovery_ok rs) (Hstart : in_step record store)
    (Hfits : ∀ candidate bytes next,
       st_for_each (expose_domain (St := St) (C := C)) (entries_asc (handoff_revision_ids prepared)) rs = (candidate, Ok tt) →
       encode_trusted codec candidate = Ok bytes →
       staged (DurableSyncRecord.prepare_outbox bytes (handoff_publication_id prepared)
         (applied_cursor record) (handoff_objects prepared) record) = Ok next →
       len bytes ≤ isize_max ∧ storable store next) :
  let pid := handoff_publication_id prepared in
  let exposed_in (next : DurableSyncRecord) (candidate : LocalScalarRecoveryState) :=
    decode_trusted codec (trusted_state next) = Ok candidate ∧
    exposed_selection (handoff_revision_ids prepared) rs candidate ∧
    outbox next = <[pid := DurableOutboxEntry_mk pid (applied_cursor record) (handoff_objects prepared)]> (outbox record) ∧
    applied_cursor next = applied_cursor record in
  let '((rs', (record', store')), res) := stage_prepared_recovery_handoff codec prepared (rs, (record, store)) in
  store_ok store' ∧
  (∀ o, recoverable_record store' o →
     o = Some record ∨ ∃ next candidate, o = Some next ∧ exposed_in next candidate) ∧
  match res with
  | Ok _ => in_step record' store' ∧ exposed_in record' rs' ∧ recovery_ok rs'
  | _ => rs' = rs ∧ record' = record
  end.
Proof.
  intros pid exposed_in. rewrite stage_recovery_eq. fold pid. set (objs := handoff_objects prepared).
  assert (store_ok store ∧ (∀ o, recoverable_record store o →
    o = Some record ∨ ∃ next candidate, o = Some next ∧ exposed_in next candidate)) as Hnothing.
  { split; [apply Hstart|]. intros o Ho. left. by apply Hstart. }
  destruct (st_for_each expose_domain _ rs) as [candidate [[]|e|]] eqn:Hall; [|by split_and!; try apply Hnothing..].
  destruct (expose_all _ _ _ _ Hrs Hall) as [Hok Hsel].
  destruct (encode_trusted codec candidate) as [bytes|e|] eqn:Henc; [|by split_and!; try apply Hnothing..].
  set (stage := λ record, map_err (TransitionRecovery (E := StoreError (St := St)))
    (staged (DurableSyncRecord.prepare_outbox bytes pid (applied_cursor record) objs record))).
  assert (∀ next, stage record = Ok next → storable store next ∧ exposed_in next candidate) as Hnext.
  { intros next Hn%map_err_Ok. destruct (Hfits candidate bytes next eq_refl Henc Hn) as [Hlen Hstore].
    split; [done|]. apply staged_prepare_Ok in Hn as (_ & _ & ->). split; [by eapply recovery_round_trip|]. done. }
  pose proof (swap_after_safe (stage_outbound bytes pid objs)
    (StageSync (C := TrustedError (C := C) (S := LocalScalarRecoveryState))) TransitionStore stage candidate rs
    record store (stage_outbound_transition bytes pid objs) Hstart (λ next Hn, proj1 (Hnext next Hn))) as Hsafe.
  destruct (swap_after _ _ _ _) as [[rs' [record' store']] res]. destruct Hsafe as (Hsok & Hrec & Hres).
  split; [done|]. split.
  - intros o Ho. destruct (Hrec o Ho) as [|(next & Hn & ->)]; [by left|right].
    exists next, candidate. split; [done|]. by apply Hnext.
  - destruct res; [|done..]. destruct Hres as (-> & Hn & Hin). split; [done|]. split; [by apply Hnext|done].
Qed.

Definition ex_set_handoff : PreparedRecoveryHandoff := PreparedRecoveryHandoff_mk ex_selection ex_pid [b_ "wire"].
Definition ex_source : LocalScalarRecoveryState := ex_container ex_title ex_title_clean.
Definition ex_staging := stage_prepared_recovery_handoff ex_set_codec ex_set_handoff (ex_source, (ex_start, ex_lost_ack)).

(** The record reaches the media and its acknowledgement is lost: the caller's
    container is unchanged, and a restart finds both domains handed off. *)
Lemma recovery_staging_crash_safe_witness :
  let '((rs', (record', store')), res) := ex_staging in
  rs' = ex_source ∧ ∃ next candidate, stored store' = Some next ∧
    decode_trusted ex_set_codec (trusted_state next) = Ok candidate ∧
    exposed_selection ex_selection ex_source candidate.
Proof.
  pose proof (recovery_staging_crash_safe ex_set_codec ex_set_handoff ex_source ex_start ex_lost_ack
    ex_source_ok (conj I (λ o Ho, Ho))) as Hs.
  assert (bool_decide (stored ex_staging.1.2.2 = Some ex_start) = false) as Hne%bool_decide_eq_false_1
    by (vm_compute; reflexivity).
  assert (succeeds ex_staging.2 = false) as Hres by (vm_compute; reflexivity).
  unfold ex_staging in *. destruct (stage_prepared_recovery_handoff _ _ _) as [[rs' [record' store']] res].
  destruct Hs as (_ & Hrec & Hend).
  { intros candidate bytes next Hall He _. split; [|exact I].
    apply (set_fits_len candidate); [|exact He].
    assert (set_fits (st_for_each (expose_domain (St := ScriptedStore) (C := DevelopmentMultiScalarTrustedStateCodec))
      (entries_asc ex_selection) ex_source).1 = true) as Hlen by (vm_compute; reflexivity).
    pose proof (f_equal fst Hall) as Hc. cbn [fst handoff_revision_ids ex_set_handoff] in Hc. rewrite <-Hc. exact Hlen. }
  split.
  - destruct res; [discriminate Hres|exact (proj1 Hend)..].
  - destruct (Hrec (stored store') eq_refl) as [Heq|(next & candidate & Hn & Hd & Hsel & _)]; [destruct (Hne Heq)|].
    exists next, candidate. split; [exact Hn|]. split; [exact Hd|exact Hsel].
Defined.

(** ** Reception *)

(** C22: receiving into one domain leaves the others alone.  Committing a received
    register is all or nothing for the live container and its record, and a
    missing domain is refused; a power loss leaves the old record, or one that
    decodes to a container in which the selected domain has observed the register
    and every other snapshot is the one before, together with the cursor of the
    new head and the old outbox; once it has returned [Ok], only the latter. *)
Theorem recovery_reception_isolated {St TC CC R : Type} `{SyncRecordStoreLaws St}
    `{!TrustedStateCodec TC LocalScalarRecoveryState} `{!RecoveryStateLaws TC} `{!TransportCursorCodec CC R}
    (codec : TC) (cursors : CC) (received : ReceivedRecoveryScalarState R) (rs : LocalScalarRecoveryState)
    (record : DurableSyncRecord) (store : St)
    (Hrs : recovery_ok rs) (Hk : keyed (recovery_remote received)) (Hstart : in_step record store)
    (Hfits : ∀ d d' sealed bytes cursor,
       LocalScalarRecoveryState.restore_domain rs (recovery_domain_key received) = Ok (Some d) →
       LocalScalarDomain.observe_remote (recovery_remote received) (recovery_pre_observation_revision_id received) d
         = (d', Ok sealed) →
       encode_trusted codec (with_domain rs (recovery_domain_key received) (LocalScalarDomain.snapshot d')) = Ok bytes →
       encode cursors (recovery_new_head received) = Ok cursor →
       len bytes ≤ isize_max ∧ storable store (DurableSyncRecord_mk bytes (Some cursor) (outbox record))) :
  let k := recovery_domain_key received in
  let received_in (next : DurableSyncRecord) (candidate : LocalScalarRecoveryState) sealed :=
    decode_trusted codec (trusted_state next) = Ok candidate ∧
    (∃ d d', recovery_domains rs !! k = Some (LocalScalarDomain.snapshot d) ∧
       recovery_domains candidate !! k = Some (LocalScalarDomain.snapshot d') ∧
       observed d (recovery_remote received) (recovery_pre_observation_revision_id received) sealed d') ∧
    (∀ other, other ≠ k → recovery_domains candidate !! other = recovery_domains rs !! other) ∧
    cursor_at cursors (recovery_new_head received) next ∧ outbox next = outbox record in
  let '((rs', (record', store')), res) :=
    commit_received_recovery_scalar_domain codec cursors received (rs, (record, store)) in
  store_ok store' ∧
  (∀ o, recoverable_record store' o →
     o = Some record ∨ ∃ next candidate sealed, o = Some next ∧ received_in next candidate sealed) ∧
  match res with
  | Ok sealed => in_step record' store' ∧ received_in record' rs' sealed ∧ recovery_ok rs'
  | _ => rs' = rs ∧ record' = record
  end.
Proof.
  intros k received_in.
  destruct (commit_received_recovery_cases codec cursors received rs (record, store) Hrs Hk)
    as [(r & -> & Hr)|(d & d' & sealed & bytes & Hr & Hd & Hne & Hs & Hobserve & Henc & ->)].
  { split; [apply Hstart|]. split; [intros o Ho; left; by apply Hstart|]. destruct r; [|done..].
    destruct Hr. by eexists. }
  set (stage := λ record, cursor ← map_err (CommitCursor (S := StoreError (St := St)))
      (encode cursors (recovery_new_head received));
    Ok (DurableSyncRecord.apply_received bytes cursor record)).
  pose proof (observe_remote_observed _ _ _ _ _ Hd Hk Hobserve) as Hobs.
  set (candidate := with_domain rs (recovery_domain_key received) (LocalScalarDomain.snapshot d')) in *.
  assert (recovery_ok candidate) as Hok by by apply with_domain_ok; [..|apply Hobs].
  assert (∀ next, stage record = Ok next → storable store next ∧ received_in next candidate sealed) as Hnext.
  { intros next (cursor & Hcursor%map_err_Ok & Hn)%bind_Ok. apply (inj Ok) in Hn as <-.
    destruct (Hfits d d' sealed bytes cursor Hr Hobserve Henc Hcursor) as [Hlen Hstore].
    split; [exact Hstore|]. split; [by eapply recovery_round_trip|].
    split; [|split; [|split; [by exists cursor|done]]].
    - exists d, d'. split; [done|]. cbn. by rewrite lookup_insert_eq.
    - intros other Hother. cbn. by rewrite lookup_insert_ne. }
  pose proof (swap_after_safe (commit_received cursors bytes (recovery_new_head received))
    (RecoveryReceiveSync (TE := TrustedError (C := TC) (S := LocalScalarRecoveryState))) CommitStore stage candidate rs
    record store (commit_received_transition cursors bytes _) Hstart (λ next Hn, proj1 (Hnext next Hn))) as Hsafe.
  destruct (swap_after _ _ _ _) as [[rs' [record' store']] res]. destruct Hsafe as (Hsok & Hrec & Hres).
  split; [done|]. split.
  - intros o Ho. destruct (Hrec o Ho) as [|(next & Hn & ->)]; [by left|right].
    exists next, candidate, sealed. split; [done|]. by apply Hnext.
  - destruct res; cbn [mbind result_bind]; [|done..]. destruct Hres as (-> & Hn & Hin). split; [done|].
    split; [by apply Hnext|done].
Qed.

(** The other device's revision of the title arrives; the notes are elsewhere. *)
Definition ex_set_received : ReceivedRecoveryScalarState (list byte) :=
  ReceivedRecoveryScalarState_mk ex_domain_key (received_remote ex_received) (Some (rid 10)) (b_ "R7").
#[local] Existing Instance byte_cursor.
Definition ex_set_reception :=
  commit_received_recovery_scalar_domain ex_set_codec tt ex_set_received (ex_rs, (ex_start, ex_lost_ack)).

Lemma recovery_reception_isolated_witness :
  let '((rs', (record', store')), res) := ex_set_reception in
  rs' = ex_rs ∧ ∃ next candidate, stored store' = Some next ∧
    decode_trusted ex_set_codec (trusted_state next) = Ok candidate ∧
    recovery_domains candidate !! ex_notes_key = recovery_domains ex_rs !! ex_notes_key ∧
    applied_cursor next = Some (TransportCursor_mk (b_ "R7")).
Proof.
  pose proof (recovery_reception_isolated ex_set_codec tt ex_set_received ex_rs ex_start ex_lost_ack
    ex_rs_ok (proj1 ex_received_valid) (conj I (λ o Ho, Ho))) as Hs.
  assert (bool_decide (stored ex_set_reception.1.2.2 = Some ex_start) = false) as Hne%bool_decide_eq_false_1
    by (vm_compute; reflexivity).
  assert (succeeds ex_set_reception.2 = false) as Hres by (vm_compute; reflexivity).
  unfold ex_set_reception in *.
  destruct (commit_received_recovery_scalar_domain _ _ _ _) as [[rs' [record' store']] res].
  destruct Hs as (_ & Hrec & Hend).
  { intros d d' sealed bytes cursor Hr Ho He _. split; [|exact I].
    apply (set_fits_len (with_domain ex_rs ex_domain_key (LocalScalarDomain.snapshot d'))); [|exact He].
    assert (match LocalScalarRecoveryState.restore_domain ex_rs (recovery_domain_key ex_set_received) with
      | Ok (Some d) => set_fits (with_domain ex_rs ex_domain_key (LocalScalarDomain.snapshot
          (LocalScalarDomain.observe_remote (recovery_remote ex_set_received)
            (recovery_pre_observation_revision_id ex_set_received) d).1))
      | _ => true end = true) as Hlen by (vm_compute; reflexivity).
    rewrite Hr, Ho in Hlen. exact Hlen. }
  split.
  - destruct res; [discriminate Hres|exact (proj1 Hend)..].
  - destruct (Hrec (stored store') eq_refl)
      as [Heq|(next & candidate & sealed & Hn & Hd & _ & Hother & (cursor & Hc & Hcur) & _)]; [destruct (Hne Heq)|].
    exists next, candidate. split; [exact Hn|]. split; [exact Hd|]. split; [apply Hother; discriminate|].
    rewrite Hcur. pose proof (inj Ok _ _ Hc) as <-. reflexivity.
Defined.

(** ** Catching up *)

(** C8: catching up a container is atomic and isolates its domains.  Whatever the
    transport returns, the live container stays the one its record decodes to and
    the outbox is untouched.  A pass that fails changes neither; one that reports
    [RecoveryApplied] has merged, per domain, what the authentic publications of
    the range carry for it; every domain of the range has observed exactly its own
    register, or starts from it when it was unknown, and no other domain changed.
    A power loss leaves the old record, or the one in which the whole container of
    that observation and the cursor of that head are together. *)
Theorem recovery_catch_up_atomic `{Aead} {St Tr TC CC : Type} `{SyncRecordStoreLaws St} `{OpaqueTransport Tr}
    `{!TrustedStateCodec TC LocalScalarRecoveryState} `{!RecoveryStateLaws TC} `{!TransportCursorCodec CC Revision}
    (codec : TC) (cursors : CC) (spec : ScalarRecoveryCatchUpSpec) (rs : LocalScalarRecoveryState)
    (record : DurableSyncRecord) (store : St) (tr : Tr)
    (Hlive : recovery_live codec rs record) (Hstart : in_step record store) :
  let '(tr1, fetched) := fetch_from_durable_cursor record cursors tr in
  let range op := ∃ head objects, fetched = Ok (Changed head objects) ∧
    range_receives (St := St) (Tr := Tr) (CC := CC) codec spec rs head objects op in
  let '(((rs', (record', store')), tr'), res) :=
    catch_up_scalar_recovery_state codec cursors spec ((rs, (record, store)), tr) in
  tr' = tr1 ∧ recovery_live codec rs' record' ∧ outbox record' = outbox record ∧
  ((∀ op next, range op → op_stage (St := St) cursors op record = Some next → storable store next) →
   store_ok store' ∧ ∀ o, recoverable_record store' o →
     o = Some record ∨ ∃ op next, range op ∧ op_stage (St := St) cursors op record = Some next ∧ o = Some next) ∧
  match res with
  | Ok (RecoveryUpToDate h) => fetched = Ok (UpToDate h) ∧ rs' = rs ∧ record' = record ∧ store' = store
  | Ok (RecoveryBaselineUnavailable h) =>
      fetched = Ok (BaselineUnavailable h) ∧ rs' = rs ∧ record' = record ∧ store' = store
  | Ok (RecoveryCursorAdvanced h) => fetched = Ok (Changed h []) ∧ rs' = rs ∧ cursor_at cursors h record'
  | Ok (RecoveryApplied h n ids sealed) => ∃ objects combined,
      fetched = Ok (Changed h objects) ∧ n = length objects ∧ objects ≠ [] ∧
      range_of (St := St) (Tr := Tr) (TC := TC) (CC := CC) spec objects combined ∧
      observed_range (pre_observation_revision_ids spec) combined rs rs' ids sealed ∧ cursor_at cursors h record'
  | _ => rs' = rs ∧ record' = record
  end.
Proof.
  pose proof (recovery_catch_up_step codec cursors spec rs record store tr Hlive) as Hstep.
  destruct (catch_up_scalar_recovery_state codec cursors spec _) as [[[rs' [record' store']] tr'] res].
  destruct (fetch_from_durable_cursor record cursors tr) as [tr1 fetched]. cbn zeta.
  destruct Hstep as (-> & Hlive' & Hout & (ops & Hrun & Hops) & Hres). cbn [fst] in *.
  split; [done|]. split; [done|]. split; [done|]. split.
  - intros Hfits. apply (run_one_durable (λ op, ∃ head objects, fetched = Ok (Changed head objects) ∧
      range_receives codec spec rs head objects op) cursors ops record store record' store' Hstart); [|done|done].
    destruct Hops as [|(op & head & objects & -> & Hf & Hr)]; [by left|right; eauto 10].
  - destruct res as [[h|h n ids sealed|h|h]|e|]; try done; [by destruct Hres as (? & ? & [= -> ->])| | |
      by destruct Hres as (? & ? & [= -> ->])].
    + destruct Hres as (head & objects & -> & -> & -> & Hne & Hcur & combined & Hrange & Hobs).
      exists objects, combined. done.
    + by destruct Hres as (head & objects & -> & -> & -> & -> & Hcur).
Qed.

(** *** Two devices and a GitHub branch *)

(** The objects the publishing device has prepared, and the branch on which they
    are published. *)
Definition ex_set_wires : list (list byte) :=
  match ex_set_prepared with
  | Ok prepared => handoff_objects prepared
  | _ => []
  end.
Definition ex_set_shared : GitHubTransport FakeGitHubApi :=
  (GitHubTransport.publish (Some (fake_oid 1)) ex_set_wires ex_branch).1.
Definition ex_set_spec : ScalarRecoveryCatchUpSpec := ScalarRecoveryCatchUpSpec_mk ex_key (cid 1) ∅.

(** A device's record at the first commit. *)
Definition ex_set_state (rs : LocalScalarRecoveryState) : list byte :=
  default [] (result_value (encode_multi_scalar_recovery_state rs)).
Definition ex_set_record (rs : LocalScalarRecoveryState) (pending : gmap PublicationId DurableOutboxEntry) :
    DurableSyncRecord := DurableSyncRecord_mk (ex_set_state rs) ex_root_cursor pending.

Lemma ex_recovery_live rs pending :
  recovery_ok rs → succeeds (encode_multi_scalar_recovery_state rs) = true →
  recovery_live ex_set_codec rs (ex_set_record rs pending).
Proof.
  intros Hrs Hs. apply recovery_live_encoded; [exact Hrs|]. cbn [trusted_state ex_set_record]. unfold ex_set_state.
  destruct (succeeds_Ok _ Hs) as [bytes Hb]. cbn [encode_trusted development_multi_codec]. rewrite Hb. reflexivity.
Qed.

(** The receiving device knows the title only; the notes arrive for the first
    time. *)
Definition ex_receiver : LocalScalarRecoveryState :=
  run_recovery_calls [InsertNew ex_domain_key (LocalScalarDomain.snapshot ex_title_clean)] LocalScalarRecoveryState.new.
Definition ex_set_caught_up := catch_up_scalar_recovery_state ex_set_codec ex_cursors ex_set_spec
  ((ex_receiver, (ex_set_record ex_receiver ∅, ex_store_of (ex_set_record ex_receiver ∅))), ex_set_shared).

Lemma ex_receiver_ok : recovery_ok ex_receiver.
Proof.
  unfold ex_receiver, run_recovery_calls. cbn [foldl].
  rewrite (insert_absent ex_domain_key) by (apply lookup_empty || exact ex_title_clean_ok).
  apply with_domain_ok; [apply new_recovery_ok|discriminate|exact ex_title_clean_ok].
Qed.

Lemma recovery_catch_up_atomic_witness :
  let '(((rs', (record', store')), tr'), res) := ex_set_caught_up in
  recovery_live ex_set_codec rs' record' ∧ is_Some (recovery_domains rs' !! ex_notes_key) ∧
  cursor_at ex_cursors (fake_oid 2) record'.
Proof.
  assert (succeeds (encode_multi_scalar_recovery_state ex_receiver) = true) as Hs by (vm_compute; reflexivity).
  pose proof (recovery_catch_up_atomic ex_set_codec ex_cursors ex_set_spec ex_receiver (ex_set_record ex_receiver ∅)
    (ex_store_of (ex_set_record ex_receiver ∅)) ex_set_shared (ex_recovery_live ex_receiver ∅ ex_receiver_ok Hs)
    (conj I (λ o Ho, Ho))) as Hcatch.
  assert (match ex_set_caught_up.2 with
    | Ok (RecoveryApplied h _ ids _) => bool_decide (h = fake_oid 2) && match ids !! ex_notes_key with Some _ => true | None => false end
    | _ => false end = true) as Hres by (vm_compute; reflexivity).
  unfold ex_set_caught_up in *.
  destruct (fetch_from_durable_cursor _ _ _) as [tr1 fetched].
  destruct (catch_up_scalar_recovery_state _ _ _ _) as [[[rs' [record' store']] tr'] res].
  destruct Hcatch as (_ & Hlive & _ & _ & Hans). split; [exact Hlive|].
  destruct res as [[|h n ids sealed| |]|e|]; try discriminate Hres.
  apply andb_true_iff in Hres as [Hh%bool_decide_eq_true_1 Hids]. subst h.
  destruct Hans as (objects & combined & _ & _ & _ & _ & Hobs & Hcur). split; [|exact Hcur].
  specialize (Hobs ex_notes_key). destruct (domains combined !! ex_notes_key) as [remote|].
  - destruct Hobs as [[(d & d' & _ & _ & _ & ->)|(_ & _ & d' & _ & _ & ->)] _]; by eexists.
  - destruct Hobs as (_ & Hnone & _). cbn [snd] in Hids. rewrite Hnone in Hids. discriminate Hids.
Defined.

(** ** Resuming *)

(** C9: nothing staged of a container is lost.  A pass over the outbox is a run
    of the durable session in which every operation is justified, so an entry is
    still there unchanged, or it is gone and the transport acknowledged its exact
    staged bytes in this pass, or its objects are one complete authentic
    publication under its own identity whose every revision, in every domain, is
    in the range this pass has fetched.  What the report says holds of the
    record, and whatever a power loss leaves, a restart accepts it. *)
Theorem recovery_resume_justified `{Aead} {St Tr TC CC : Type} `{SyncRecordStoreLaws St} `{OpaqueTransport Tr}
    `{!TrustedStateCodec TC LocalScalarRecoveryState} `{!RecoveryStateLaws TC} `{!TransportCursorCodec CC Revision}
    (codec : TC) (cursors : CC) (spec : ScalarRecoveryResumeSpec) (rs : LocalScalarRecoveryState)
    (record : DurableSyncRecord) (store : St) (tr : Tr)
    (Hlive : recovery_live codec rs record) :
  let '(tr1, fetched) := fetch_from_durable_cursor record cursors tr in
  let '(((rs', (record', store')), tr'), res) :=
    resume_scalar_recovery_outbox_set codec cursors spec ((rs, (record, store)), tr) in
  recovery_live codec rs' record' ∧
  (∀ pid, outbox record' !! pid = outbox record !! pid ∨
    outbox record' !! pid = None ∧
    ((∃ ids head, pid ∈ ids ∧ acknowledged cursors record ids tr1 head) ∨
     (∃ head objs combined ids e, fetched = Ok (Changed head objs) ∧
       range_of (St := St) (Tr := Tr) (TC := TC) (CC := CC) (catch_up_spec_of spec) objs combined ∧
       (∀ k, ids !! k = (λ remote, dom (revisions remote)) <$> domains combined !! k) ∧
       outbox record !! pid = Some e ∧ recovered_publication spec ids pid e))) ∧
  (∃ ops, (record', store') = run_ops cursors ops (record, store) ∧
    (∀ op, op ∈ ops → recovery_justified (St := St) codec cursors spec rs record tr op) ∧
    (in_step record store → session_storable cursors ops (record, store) →
     store_ok store' ∧
     ∀ o, recoverable_record store' o → ∃ found, o = Some found ∧ recoverable codec (trusted_state found))) ∧
  match res with
  | Ok report => recovery_report_holds cursors spec report record'
  | _ => True
  end.
Proof.
  pose proof (recovery_resume_step codec cursors spec rs record store tr Hlive) as Hstep.
  pose proof (λ op pid, recovery_justified_retires (St := St) codec cursors spec rs record tr op pid) as Hretires.
  unfold range_evidence in Hretires.
  destruct (resume_scalar_recovery_outbox_set codec cursors spec _) as [[[rs' [record' store']] tr'] res].
  destruct (fetch_from_durable_cursor record cursors tr) as [tr1 fetched].
  destruct Hstep as (Hlive' & (ops & Hrun & Hops) & Hres). cbn [fst snd] in *.
  split; [done|]. split; [|split; [|done]].
  - intros pid. pose proof (run_ops_outbox cursors ops record store pid
      (λ op Hop, recovery_justified_only_retires _ _ _ _ _ _ _ (Hops op Hop))) as Hout.
    rewrite <-Hrun in Hout. cbn [fst] in Hout. destruct Hout as [|(Hnone & op & Hop & Hr)]; [by left|right].
    split; [done|]. destruct (Hretires op pid (Hops op Hop) Hr) as [Hack|(head & ids & (objs & combined & Hf & Hrange & Hids) & e & He & Hobs)];
      [by left|right]. by exists head, objs, combined, ids, e.
  - exists ops. split; [done|]. split; [done|]. intros Hstart Hst.
    pose proof (run_ops_durable (recoverable codec) cursors ops record store Hstart Hst (live_good _ _ Hlive)
      (λ op Hop, recovery_justified_recoverable _ _ _ _ _ _ _ (Hops op Hop))) as Hrest.
    by rewrite <-Hrun in Hrest.
Qed.

(** The publishing device after its publication was accepted and the answer lost:
    the entry is still staged at the old cursor, and the pass retires it. *)
Definition ex_set_staged : gmap PublicationId DurableOutboxEntry :=
  {[ex_pid := DurableOutboxEntry_mk ex_pid ex_root_cursor ex_set_wires]}.
Definition ex_resume_spec : ScalarRecoveryResumeSpec := ScalarRecoveryResumeSpec_mk ex_key (cid 1) ∅.
Definition ex_set_resumed := resume_scalar_recovery_outbox_set ex_set_codec ex_cursors ex_resume_spec
  ((ex_source, (ex_set_record ex_source ex_set_staged, ex_store_of (ex_set_record ex_source ex_set_staged))),
   ex_set_shared).

Lemma recovery_resume_justified_witness :
  let '(((rs', (record', store')), tr'), res) := ex_set_resumed in
  recovery_live ex_set_codec rs' record' ∧ outbox record' = ∅.
Proof.
  assert (succeeds (encode_multi_scalar_recovery_state ex_source) = true) as Hs by (vm_compute; reflexivity).
  pose proof (recovery_resume_justified ex_set_codec ex_cursors ex_resume_spec ex_source
    (ex_set_record ex_source ex_set_staged) (ex_store_of (ex_set_record ex_source ex_set_staged)) ex_set_shared
    (ex_recovery_live ex_source ex_set_staged ex_source_ok Hs)) as Hpass.
  assert (match ex_set_resumed.2 with
    | Ok report => match batch_action report with BatchNone => true | _ => false end
    | _ => false end = true) as Hres by (vm_compute; reflexivity).
  unfold ex_set_resumed in *.
  destruct (fetch_from_durable_cursor _ _ _) as [tr1 fetched].
  destruct (resume_scalar_recovery_outbox_set _ _ _ _) as [[[rs' [record' store']] tr'] res].
  destruct Hpass as (Hlive & _ & _ & Hans). split; [exact Hlive|].
  destruct res as [report|e|]; [|discriminate Hres..]. cbn [snd] in Hres.
  unfold recovery_report_holds, report_settled in Hans.
  destruct (batch_action report); [exact Hans|discriminate Hres..].
Defined.

(** ** The foreground runtime *)

(** C23: a runtime in the background does nothing, and one in the foreground does
    a bounded amount.  A cycle never changes the lifecycle.  In the background no
    call reaches the inner transport, nothing changes, in memory or durably, and
    the cycle reports that it was backgrounded or that its own cursor does not
    decode.  In the foreground the inner transport is asked to fetch at most twice
    and to publish at most twice, and it is never given anything but the exact
    objects of staged entries, against the cursor they were all staged against;
    the live container stays the one its record decodes to, no entry is added or
    changed, there is a second pass exactly when the first met a conflict, and the
    last report holds of the record. *)
Theorem foreground_recovery_gated `{Aead} {T St TC CC : Type} `{SyncRecordStore St} `{OpaqueTransport T}
    `{!TrustedStateCodec TC LocalScalarRecoveryState} `{!RecoveryStateLaws TC}
    `{!TransportCursorCodec CC (Revision (Tr := T))} (codec : TC) (cursors : CC) (spec : ForegroundRecoveryCycleSpec)
    (self : ForegroundRecoveryRuntime T) (rs : LocalScalarRecoveryState) (record : DurableSyncRecord) (store : St)
    (Hlive : recovery_live codec rs record) :
  let s := ((rs, (record, store)), self) in
  let '(((rs', (record', store')), self'), res) :=
    ForegroundRecoveryRuntime.resume_scalar_recovery codec cursors spec s in
  ForegroundRecoveryRuntime.is_foreground self' = ForegroundRecoveryRuntime.is_foreground self ∧
  if ForegroundRecoveryRuntime.is_foreground self then
    sends_within (staged_send cursors record) 2 2 (inner (transport self)) (inner (transport self')) ∧
    recovery_live codec rs' record' ∧ outbox record' ⊆ outbox record ∧
    match res with
    | Ok cycle =>
        recovery_report_holds (Tr := ForegroundTransport T) cursors
          (ScalarRecoveryResumeSpec_mk (cycle_key spec) (cycle_continuum_id spec) (cycle_pre_observation_revision_ids spec))
          (default (batch_initial cycle) (batch_post_conflict cycle)) record' ∧
        (is_Some (batch_post_conflict cycle) ↔ ∃ ids h, batch_action (batch_initial cycle) = BatchConflict ids h)
    | _ => True
    end
  else
    ((rs', (record', store')), self') = s ∧
    res = match transpose (decode cursors <$> applied_cursor record) with
          | Ok _ => Err (BatchCatchUp (RecoveryIo (IoTransport Backgrounded)))
          | Err e => Err (BatchCatchUp (RecoveryIo (IoCursor e)))
          | Panic => Panic
          end.
Proof.
  intros s. subst s. destruct self as [g]. unfold ForegroundRecoveryRuntime.resume_scalar_recovery, on_field. cbn [fst snd transport].
  set (rspec := ScalarRecoveryResumeSpec_mk _ _ _).
  pose proof (recovery_bounded_sends (Tr := ForegroundTransport T) codec cursors (cycle_key spec) (cycle_continuum_id spec)
    (cycle_pre_observation_revision_ids spec) rs record store g) as [Hf Hcalls]%sends_within_gated.
  pose proof (resume_bounded_keeps (resume_scalar_recovery_outbox_set codec cursors rspec) (recovery_live codec)
    (recovery_report_holds cursors rspec) rs record store g (recovery_resume_keeps codec cursors rspec) Hlive) as Hkeeps.
  unfold resume_scalar_recovery_outbox_set_bounded in *. fold rspec in Hf, Hcalls |- *. cbn [snd] in Hf, Hcalls.
  unfold ForegroundRecoveryRuntime.is_foreground, ForegroundSyncLifecycle.is_foreground. cbn [transport].
  destruct (foreground g) eqn:Hfg.
  - destruct (resume_bounded _ _) as [[[rs' [record' store']] g'] res]. cbn [fst snd transport] in *.
    destruct Hkeeps as (? & ? & ?). by split_and!.
  - clear Hkeeps Hcalls Hf. unfold resume_bounded. rewrite st_bind, recovery_backgrounded by done.
    destruct (transpose _); cbn; by rewrite Hfg.
Qed.

(** The first attempt, on the branch as it was: a new runtime is in the
    background and does nothing, and after it enters the foreground the cycle
    publishes the staged bytes. *)
Definition ex_cycle_spec : ForegroundRecoveryCycleSpec := ForegroundRecoveryCycleSpec_mk ex_key (cid 1) ∅.
Definition ex_runtime : ForegroundRecoveryRuntime (GitHubTransport FakeGitHubApi) := ForegroundRecoveryRuntime.new ex_branch.
Definition ex_staged_record : DurableSyncRecord := ex_set_record ex_source ex_set_staged.
Definition ex_foreground_cycle (self : ForegroundRecoveryRuntime (GitHubTransport FakeGitHubApi)) :=
  ForegroundRecoveryRuntime.resume_scalar_recovery ex_set_codec ex_cursors ex_cycle_spec
    ((ex_source, (ex_staged_record, ex_store_of ex_staged_record)), self).

Lemma foreground_recovery_gated_witness :
  (let '(((rs', (record', store')), self'), res) := ex_foreground_cycle ex_runtime in
   record' = ex_staged_record ∧ self' = ex_runtime) ∧
  (let '(((rs', (record', store')), self'), res) :=
     ex_foreground_cycle (ForegroundRecoveryRuntime.enter_foreground ex_runtime) in
   outbox record' = ∅ ∧ cursor_at ex_cursors (fake_oid 2) record' ∧
   sends_within (staged_send ex_cursors ex_staged_record) 2 2 ex_branch (inner (transport self'))).
Proof.
  assert (succeeds (encode_multi_scalar_recovery_state ex_source) = true) as Hs by (vm_compute; reflexivity).
  pose proof (ex_recovery_live ex_source ex_set_staged ex_source_ok Hs) as Hlive. fold ex_staged_record in Hlive.
  pose proof (λ self : ForegroundRecoveryRuntime (GitHubTransport FakeGitHubApi),
    foreground_recovery_gated ex_set_codec ex_cursors ex_cycle_spec self ex_source
    ex_staged_record (ex_store_of ex_staged_record) Hlive) as Hgate.
  split.
  - specialize (Hgate ex_runtime). cbn zeta in Hgate. unfold ex_foreground_cycle.
    destruct (ForegroundRecoveryRuntime.resume_scalar_recovery _ _ _ _) as [[[rs' [record' store']] self'] res].
    destruct Hgate as (_ & Hsame & _).
    split; [exact (f_equal (λ s, s.1.2.1) Hsame)|exact (f_equal snd Hsame)].
  - specialize (Hgate (ForegroundRecoveryRuntime.enter_foreground ex_runtime)). cbn zeta in Hgate.
    assert (match (ex_foreground_cycle (ForegroundRecoveryRuntime.enter_foreground ex_runtime)).2 with
      | Ok cycle => match batch_action (default (batch_initial cycle) (batch_post_conflict cycle)) with
          | BatchPublishedAndReconciled _ h => bool_decide (h = fake_oid 2) | _ => false end
      | _ => false end = true) as Hres by (vm_compute; reflexivity).
    unfold ex_foreground_cycle in *.
    destruct (ForegroundRecoveryRuntime.resume_scalar_recovery _ _ _ _) as [[[rs' [record' store']] self'] res].
    destruct Hgate as (_ & Hcalls & _ & _ & Hans).
    destruct res as [cycle|e|]; [|discriminate Hres..]. destruct Hans as [Hans _]. cbn [snd] in Hres.
    unfold recovery_report_holds, report_settled in Hans.
    destruct (batch_action _) as [| | |ids h|]; try discriminate Hres.
    apply bool_decide_eq_true_1 in Hres as ->. destruct Hans as (_ & Hout & Hcur).
    split; [exact Hout|]. split; [exact Hcur|exact Hcalls].
Defined.

(** C24: staged work is delivered.  In the foreground, when nothing new is on the
    branch, every entry was staged against the durable cursor, the transport
    accepts the staged objects against that cursor, the cursor of the new head
    encodes and the store acknowledges, one cycle ends with an empty outbox, the
    cursor at the new head, the trusted state as it was, and says so; no second
    pass is made. *)
Theorem foreground_cycle_delivers `{Aead} {T St TC CC : Type} `{SyncRecordStore St} `{OpaqueTransport T}
    `{!TrustedStateCodec TC LocalScalarRecoveryState} `{!TransportCursorCodec CC (Revision (Tr := T))}
    (codec : TC) (cursors : CC) (spec : ForegroundRecoveryCycleSpec) (tr tr1 tr2 : T)
    (rs : LocalScalarRecoveryState) (record : DurableSyncRecord) (store store' : St)
    (known h : option Revision) (entries : list DurableOutboxEntry) (head : Revision) (cursor : TransportCursor)
    (Hpending : outbox record ≠ ∅)
    (Hentries : batch_entries record (applied_cursor record) (elements_asc (dom (outbox record))) entries)
    (Hknown : transpose (decode cursors <$> applied_cursor record) = Ok known)
    (Hfetch : fetch_since known tr = (tr1, Ok (UpToDate h)))
    (Hpublish : publish known (mjoin (objects <$> entries)) tr1 = (tr2, Ok (Published head)))
    (Hcursor : encode cursors head = Ok cursor)
    (Hpersist : persist (DurableSyncRecord_mk (trusted_state record) (Some cursor) ∅) store = (store', Ok tt)) :
  let foreground tr := ForegroundRecoveryRuntime.enter_foreground (ForegroundRecoveryRuntime.new tr) in
  ForegroundRecoveryRuntime.resume_scalar_recovery codec cursors spec ((rs, (record, store)), foreground tr) =
  (((rs, (DurableSyncRecord_mk (trusted_state record) (Some cursor) ∅, store')), foreground tr2),
   Ok (ResumeCycleReport_mk
     (ResumeReport_mk (RecoveryUpToDate h) ∅ (BatchPublishedAndReconciled (dom (outbox record)) head)) None)).
Proof.
  intros foreground. unfold ForegroundRecoveryRuntime.resume_scalar_recovery, on_field. cbn [fst snd transport].
  unfold resume_scalar_recovery_outbox_set_bounded, resume_bounded. rewrite st_bind.
  set (g := λ tr, ForegroundTransport_mk (Tr := T) tr true).
  change (transport (foreground tr)) with (g tr).
  unfold resume_scalar_recovery_outbox_set.
  rewrite (resume_pass_publishes (Tr := ForegroundTransport T) (H0 := foreground_transport) _ cursors _ rs record store (g tr) (RecoveryUpToDate h) (g tr1)
    known entries (g tr2) head cursor store'); try done.
  - by rewrite (foreground_catch_up codec cursors _ rs record store tr tr1 known (Ok (UpToDate h))).
  - unfold g. rewrite foreground_publish. by rewrite Hpublish.
Qed.

Definition ex_set_entry : DurableOutboxEntry := DurableOutboxEntry_mk ex_pid ex_root_cursor ex_set_wires.
Definition ex_known : option (Revision (Tr := GitHubTransport FakeGitHubApi)) := Some (fake_oid 1).
Definition ex_oid_bytes (head : Revision (Tr := GitHubTransport FakeGitHubApi)) : list byte :=
  as_str (head : GitHubCommitOid).

(** The device of the example publishes both domains in one cycle. *)
Lemma foreground_cycle_delivers_witness :
  let '(((rs', (record', store')), self'), res) :=
    ex_foreground_cycle (ForegroundRecoveryRuntime.enter_foreground ex_runtime) in
  rs' = ex_source ∧ outbox record' = ∅ ∧ stored store' = Some record' ∧ succeeds res = true.
Proof.
  assert (match (fetch_since ex_known ex_branch).2 with Ok (UpToDate _) => true | _ => false end = true)
    as Hup by (vm_compute; reflexivity).
  assert (match (publish ex_known (mjoin (objects <$> [ex_set_entry])) (fetch_since ex_known ex_branch).1).2 with
    | Ok (Published head) => bool_decide (ex_oid_bytes head ≠ []) | _ => false end = true)
    as Hpub by (vm_compute; reflexivity).
  destruct (fetch_since ex_known ex_branch) as [tr1 fetched] eqn:Hfetch. cbn [fst snd] in Hup, Hpub.
  destruct fetched as [[h| |]|e|]; try discriminate Hup.
  destruct (publish ex_known _ tr1) as [tr2 published] eqn:Hpublish. cbn [snd] in Hpub.
  destruct published as [[head|]|e|]; try discriminate Hpub. apply bool_decide_eq_true_1 in Hpub.
  assert (encode ex_cursors head = Ok (TransportCursor_mk (ex_oid_bytes head))) as Hcursor.
  { change (GitHubCursorCodec.encode ex_cursors head = Ok (TransportCursor_mk (ex_oid_bytes head))).
    unfold GitHubCursorCodec.encode, TransportCursor.new. rewrite decide_False by exact Hpub. reflexivity. }
  assert (outbox ex_staged_record = {[ex_pid := ex_set_entry]}) as Hout by done.
  assert (batch_entries ex_staged_record (applied_cursor ex_staged_record) (elements_asc (dom (outbox ex_staged_record)))
    [ex_set_entry]) as Hentries.
  { rewrite Hout, dom_singleton_L, elements_asc_one. apply list.Forall2_cons. split; [|constructor].
    rewrite Hout. split; [apply lookup_singleton_eq|reflexivity]. }
  assert (outbox ex_staged_record ≠ ∅) as Hne by (rewrite Hout; apply insert_non_empty).
  pose proof (foreground_cycle_delivers ex_set_codec ex_cursors ex_cycle_spec ex_branch tr1 tr2 ex_source ex_staged_record
    (ex_store_of ex_staged_record) (ScriptedStore_mk (Some (DurableSyncRecord_mk (trusted_state ex_staged_record)
      (Some (TransportCursor_mk (ex_oid_bytes head))) ∅)) []) ex_known h [ex_set_entry] head
    (TransportCursor_mk (ex_oid_bytes head)) Hne Hentries) as Hcycle.
  assert (transpose (decode ex_cursors <$> applied_cursor ex_staged_record) = Ok ex_known) as Hknown
    by (vm_compute; reflexivity).
  specialize (Hcycle Hknown Hfetch Hpublish Hcursor eq_refl). cbn zeta in Hcycle.
  unfold ex_foreground_cycle, ex_runtime. rewrite Hcycle.
  split; [reflexivity|]. split; [reflexivity|]. split; reflexivity.
Defined.

(** ** From one device to another *)

(** C10: what one device prepares is what another one holds.  When a catch-up pass
    is told of exactly the objects of a prepared publication and reports success,
    it has applied them: in every selected domain the receiving device now holds
    every selected revision and everything it depends on, as the publishing
    device has them, and no other domain of the container has changed. *)
Theorem published_selection_arrives `{AeadLaws} {St Tr TC CC : Type} `{SyncRecordStore St} `{OpaqueTransport Tr}
    `{!TrustedStateCodec TC LocalScalarRecoveryState} `{!RecoveryStateLaws TC} `{!TransportCursorCodec CC Revision}
    (generated : option (byte_array NONCE_BYTES)) (sender : LocalScalarRecoveryState) (pid : PublicationId)
    (sel : gmap DomainKey (gset RevisionId)) (prepared : PreparedRecoveryHandoff)
    (codec : TC) (cursors : CC) (spec : ScalarRecoveryCatchUpSpec) (rs : LocalScalarRecoveryState)
    (record : DurableSyncRecord) (store : St) (tr : Tr) (head : Revision)
    (Hsender : recovery_ok sender) (Hlive : recovery_live codec rs record)
    (Hp : prepare_recovery_handoff generated sender (recovery_continuum_id spec) pid (recovery_key spec) sel = Ok prepared)
    (Hlen : ∀ wire, wire ∈ handoff_objects prepared → len wire ≤ isize_max)
    (Hfetch : (fetch_from_durable_cursor record cursors tr).2 = Ok (Changed head (handoff_objects prepared))) :
  let '(((rs', (record', store')), tr'), res) := catch_up_scalar_recovery_state codec cursors spec ((rs, (record, store)), tr) in
  match res with
  | Ok answer => (∃ ids sealed, answer = RecoveryApplied head 1 ids sealed) ∧
      ∀ k, match sel !! k with
           | Some direct => ∃ mine theirs,
               recovery_domains sender !! k = Some (LocalScalarDomain.snapshot mine) ∧
               recovery_domains rs' !! k = Some (LocalScalarDomain.snapshot theirs) ∧ domain_ok theirs ∧
               direct ⊆ dom (revisions (causal (working mine))) ∧
               ∀ x rev, depends_on (causal (working mine)) direct x →
                 revisions (causal (working mine)) !! x = Some rev → revisions (causal (working theirs)) !! x = Some rev
           | None => recovery_domains rs' !! k = recovery_domains rs !! k
           end
  | _ => rs' = rs ∧ record' = record
  end.
Proof.
  destruct (prepare_recovery_Ok generated sender _ pid _ sel prepared Hsender Hp)
    as (_ & _ & _ & projection & part & wire & Hproj & Hpart & Hwire & Hobj).
  assert (len wire ≤ isize_max) as Hw by (apply Hlen; rewrite Hobj; by left).
  pose proof (recovery_catch_up_step codec cursors spec rs record store tr Hlive) as Hstep.
  destruct (catch_up_scalar_recovery_state codec cursors spec _) as [[[rs' [record' store']] tr'] res].
  destruct (fetch_from_durable_cursor record cursors tr) as [tr1 fetched]. cbn [snd] in Hfetch. subst fetched.
  destruct Hstep as (_ & _ & _ & _ & Hres). rewrite Hobj in Hres.
  destruct res as [answer|e|]; [|done..].
  assert (∃ h objects, Ok (Changed head [wire]) = Ok (E := SessionIoError TransportError CursorError) (Changed h objects) ∧
    range_answer (St := St) (Tr := Tr) (TC := TC) cursors spec rs rs' h objects record' answer) as (h & objs & Hsame & Hans)
    by (destruct answer; try done; by destruct Hres as [[=] _]).
  apply (inj Ok) in Hsame. injection Hsame as <- <-. clear Hres.
  destruct answer as [|h' n ids sealed|h'|]; [done| |by destruct Hans as (_ & [=] & _)|done].
  destruct Hans as (-> & -> & _ & _ & combined & (projections & Hdec & Hcarried) & Hobs).
  rewrite (proj1 (prepared_decode generated _ pid _ projection part wire (projects_selection_valid _ _ _ Hproj) Hpart Hwire Hw)) in Hdec.
  apply (inj Ok) in Hdec as <-. split; [by exists ids, sealed|]. intros k.
  specialize (Hproj k). specialize (Hcarried k). specialize (Hobs k). unfold carried in Hcarried. cbn in Hcarried.
  destruct (sel !! k) as [direct|].
  - destruct Hproj as (_ & mine & r & Hmine & _ & Hr & _ & _ & _ & Hdirect & Hrev). rewrite Hr in Hcarried.
    destruct Hcarried as (remote & Hm & Hc). injection Hm as <-. rewrite Hc in Hobs. destruct Hobs as [Hobs _].
    exists mine. destruct Hobs as [(d & d' & _ & _ & (Hok & _ & _ & Hsub & _) & ->)|(_ & _ & d' & Hd' & Hok & ->)]; exists d';
      (split; [done|]); (split; [done|]); (split; [done|]); (split; [done|]); intros x rev Hx Hxr.
    + eapply lookup_weaken; [|exact Hsub]. by apply Hrev.
    + unfold LocalScalarDomain.from_causal in Hd'. apply bind_Ok in Hd' as (w & Hw' & Hd'). apply (inj Ok) in Hd' as <-. cbn.
      unfold WorkingScalar.from_causal in Hw'. apply bind_Ok in Hw' as (? & _ & Hw'). apply (inj Ok) in Hw' as <-. cbn.
      by apply Hrev.
  - rewrite Hproj in Hcarried. rewrite Hcarried in Hobs. apply Hobs.
Qed.

(** The receiving device of the example gets the title's draft and the notes. *)
Lemma published_selection_arrives_witness :
  let '(((rs', _), _), res) := ex_set_caught_up in
  succeeds res = true ∧ ∃ theirs, recovery_domains rs' !! ex_domain_key = Some (LocalScalarDomain.snapshot theirs) ∧
    rid 9 ∈ dom (revisions (causal (working theirs))).
Proof.
  assert (succeeds (encode_multi_scalar_recovery_state ex_receiver) = true) as Hs by (vm_compute; reflexivity).
  assert (succeeds ex_set_prepared = true) as Hprep by (vm_compute; reflexivity).
  assert (match ex_set_prepared with
    | Ok prepared => forallb (λ wire, bool_decide (len wire ≤ isize_max)) (handoff_objects prepared)
    | _ => true end = true) as Hlen by (vm_compute; reflexivity).
  assert (match (fetch_from_durable_cursor (ex_set_record ex_receiver ∅) ex_cursors ex_set_shared).2 with
    | Ok (Changed h objs) => bool_decide (h = fake_oid 2 ∧ objs = ex_set_wires) | _ => false end = true)
    as Hfetch by (vm_compute; reflexivity).
  assert (succeeds ex_set_caught_up.2 = true) as Hres by (vm_compute; reflexivity).
  unfold ex_set_wires in Hfetch.
  destruct ex_set_prepared as [prepared|e|] eqn:Hp; [|discriminate Hprep..]. unfold ex_set_prepared in Hp.
  pose proof (published_selection_arrives (Some ex_nonce) ex_source ex_pid ex_selection prepared ex_set_codec ex_cursors
    ex_set_spec ex_receiver (ex_set_record ex_receiver ∅) (ex_store_of (ex_set_record ex_receiver ∅)) ex_set_shared
    (fake_oid 2) ex_source_ok (ex_recovery_live ex_receiver ∅ ex_receiver_ok Hs) Hp) as Harrives.
  unfold ex_set_caught_up in *.
  destruct (catch_up_scalar_recovery_state _ _ _ _) as [[[rs' [record' store']] tr'] res].
  destruct res as [answer|e|]; [|discriminate Hres..]. split; [reflexivity|].
  destruct Harrives as [_ Hall].
  { intros wire Hin. rewrite forallb_forall in Hlen.
    exact (bool_decide_eq_true_1 _ (Hlen wire (proj1 (list_elem_of_In _ _) Hin))). }
  { destruct (fetch_from_durable_cursor _ _ _) as [tr1 [[|h objs|]|e|]]; try discriminate Hfetch.
    cbn [snd] in *. apply bool_decide_eq_true_1 in Hfetch as [-> ->]. reflexivity. }
  specialize (Hall ex_domain_key). unfold ex_selection in Hall. rewrite lookup_insert_eq in Hall.
  destruct Hall as (mine & theirs & _ & Htheirs & _ & Hdirect & Hrev). exists theirs. split; [exact Htheirs|].
  assert (rid 9 ∈ ({[rid 9]} : gset RevisionId)) as Hin by (apply elem_of_singleton; reflexivity).
  pose proof (Hdirect _ Hin) as [rev Hrid]%elem_of_dom. apply elem_of_dom. exists rev.
  apply Hrev; [by left|exact Hrid].
Defined.

(** *** A spare identity

    The specification's comment says that a pre-observation identity is consumed
    only when its domain is dirty.  One that is supplied for a clean domain is
    not left unused: it fails the whole pass, for every domain of the range. *)
Example spare_identity_fails_pass :
  match (catch_up_scalar_recovery_state ex_set_codec ex_cursors
      (ScalarRecoveryCatchUpSpec_mk ex_key (cid 1) {[ex_domain_key := rid 30]})
      ((ex_receiver, (ex_set_record ex_receiver ∅, ex_store_of (ex_set_record ex_receiver ∅))), ex_set_shared)).2 with
  | Err (RecoveryCatchUpCore (UnexpectedPreObservationRevision _)) => True
  | _ => False
  end.
Proof. vm_compute. exact I. Qed.
