(* ===== verification/ProbeProperties.v ===== *)
(** * Properties of the on-device recovery probe

    The lost-acknowledgement scenario through the native calls, across process
    death and power loss (crates/apc-android-bridge/src/lib.rs, recovery_probe.rs). *)
From Stdlib Require Import Lia NArith Strings.Byte.
From stdpp Require Import base tactics option list gmap numbers.
From S2P Require Import Prelude Outcome BTree Bytes Id Reader Durability Crypto Fs FsStorage FsLaws FsAllocate.
From S2P Require Import Recovery Transport Session RecordStore.
From S2P Require Import Display ProbeRemote RecoveryProbe AndroidBridge ProbeLaws ProbeReopen ProbeResume SyncProperties.
Local Open Scope N_scope.
Import recovery_probe.
#[local] Existing Instance toy_aead.
#[local] Existing Instance toy_aead_laws.





(** The remote's store, as a new process opens it. *)
Definition remote_disk (fs : Fs) : UnixFsDurabilityBackend := UnixFsDurabilityBackend_mk fs 0.
Definition remote_reads (fs : Fs) (state : ProbeRemoteState) : Prop :=
  ProbeTransport.load_state (ProbeTransport_mk (remote_disk fs) Normal) = Ok state.




(** A phone whose devices work, before the first run; its Java strings are
    their bytes. *)
Definition ex_missing : StorePath := StorePath_mk None [].
Definition ex_files : FilesDir := FilesDir_mk ex_missing ex_missing (λ _, None) (λ _, Some ex_nonce).
Lemma ex_missing_untouched : untouched ex_missing.
Proof. intros root [->|Hin]%elem_of_cons; [done|by apply not_elem_of_nil in Hin]. Qed.

(** Absolute paths without links or parents: what counts is the components. *)
Definition path_components (path : list byte) : list (list byte) :=
  foldr (λ b components,
    if decide (b = "/"%byte) then [] :: components else
    match components with
    | component :: components => (b :: component) :: components
    | [] => [[b]]
    end) [[]] path.
#[local] Instance ex_locations : Locations := λ path,
  concat (map (λ component, b_ "/" ++ component)
    (filter (λ component, component ≠ [] ∧ component ≠ b_ ".") (path_components path))).
Definition ex_path : list byte := b_ "/data/files".
(** Another name of the same directory. *)
Definition ex_alias : list byte := b_ "/data/./files/".
Example ex_same_location : location ex_alias = location ex_path.
Proof. vm_compute. reflexivity. Qed.

(** The texts of the errors that the code does not write, and of no error. *)
#[local] Instance ex_texts : ErrorTexts := {|
  io_error_display := λ _, b_ "i/o error";
  stage_error_debug := λ _, b_ "not staged";
  resume_error_debug := λ _, b_ "not resumed";
|}.
#[local] Instance ex_no_error : Display Empty_set := λ error, match error with end.
Definition ex_get_string (files_dir : list byte) : result Empty_set (list byte) := Ok files_dir.

Definition ex_bridge : Bridge := AndroidBridge.enter_foreground (Bridge_mk false (λ _, ex_files)).
Definition ex_native (call : AndroidBridge.native_call (JString := list byte)) : Bridge → Bridge :=
  AndroidBridge.run_native ex_get_string Some call.
Definition ex_directory (bridge : Bridge) : FilesDir := directories bridge (location ex_path).


Lemma ex_lost_ack_staged : succeeds (stage_lost_ack ex_path ex_files).2 = true.
Proof. vm_compute. reflexivity. Qed.





(** C13: a lost acknowledgement is settled by refetching.  Once the scenario has
    been staged from the foreground, the process may die and the power may fail.
    When the next one finds both stores' directories
    and resumes in the foreground, on devices that work, with a
    generator that answers, a cipher that takes messages of up to 64 KiB, and a
    remote that still has the publication, the call answers PASS: it finds the
    publication among the remote's objects, proves that each of its revisions has arrived,
    and retires it without writing to the remote, whose files are as they were.  The
    store is left with a record that every later restart reads, whose cursor is at the accepted head, whose outbox is
    empty, and whose exposure and handoff marks are kept. *)
Theorem lost_ack_reconciled `{AeadLaws} `{ErrorTexts} `{Locations} {JString JniError : Type} `{Display JniError}
    (get_string : JString → result JniError (list byte)) (new_string : list byte → option JString)
    (bridge bridge' : Bridge) (files_dir : JString) (path text : list byte) (fs rfs : Fs) (state : ProbeRemoteState)
    (Hpath : get_string files_dir = Ok path) (Hne : path ≠ []) (Hforeground : lifecycle bridge = true)
    (Hstage : (stage_lost_ack path (directories bridge (location path))).2 = Ok text) :
  let staged := AndroidBridge.run_native get_string new_string (AndroidBridge.StageLostAckProbe files_dir) bridge in
  ∀ (Hprobe : survives (probe_root (directories staged (location path))) (probe_root (directories bridge' (location path))))
    (Hremote : survives (remote_root (directories staged (location path))) (remote_root (directories bridge' (location path))))
    (Hforeground' : lifecycle bridge' = true)
    (Hfs : probe_root (directories bridge' (location path)) = Some fs) (Hworks : healthy fs)
    (Hrfs : remote_root (directories bridge' (location path)) = Some rfs) (Hrworks : healthy rfs)
    (Hreads : remote_reads rfs state) (Haccepted : remote_head state = PROBE_ACCEPTED_HEAD)
    (Hentropy : ∀ n, is_Some (system_entropy (directories bridge' (location path)) n))
    (Hcipher : ∀ key nonce aad m, len m ≤ 2 ^ 16 → is_Some (aead_encrypt key nonce aad m)),
  (AndroidBridge.nativeResumeLostAckProbe get_string new_string files_dir bridge').2 =
    Ok (new_string (b_ "PASS authenticated refetch reconciled lost ACK; no second publish")) ∧
  let resumed := AndroidBridge.run_native get_string new_string (AndroidBridge.ResumeLostAckProbe files_dir) bridge' in
  (∃ dev, remote_root (directories resumed (location path)) = Some (with_device dev rfs)) ∧
  ∃ fs' record, probe_root (directories resumed (location path)) = Some fs' ∧ record_disk u64_max record fs' ∧
    outbox record = ∅ ∧ validate_reconciled_committed record = Ok tt.
Proof.
  intros staged Hprobe Hremote Hforeground' Hfs Hworks Hrfs Hrworks Hreads Haccepted Hentropy Hcipher. unfold staged in *.
  rewrite (native_stage_lost_ack get_string new_string files_dir) in Hprobe, Hremote by done.
  pose proof (staged_resumes path (directories bridge (location path)) text (directories bridge' (location path)) fs rfs state Hstage Hprobe Hremote
    Hfs Hworks Hrfs Hrworks Hreads Haccepted Hentropy Hcipher) as Hresume. unfold works, outcome in Hresume.
  destruct (native_resume get_string new_string files_dir bridge' path Hpath Hne Hforeground') as [Hfiles Hanswer].
  cbn zeta. rewrite Hfiles, Hanswer. clear Hfiles Hanswer.
  destruct (resume_lost_ack (directories bridge' (location path))) as [files [answer|e|]]; [|done..].
  by destruct Hresume as [-> Hdisk].
Qed.

(** The next process, in the foreground, whose devices work. *)
Definition ex_working (files : FilesDir) : FilesDir :=
  FilesDir_mk (StorePath_mk (with_device (λ _, None) <$> probe_root files) (unsynced_past (probe_path files)))
    (StorePath_mk (with_device (λ _, None) <$> remote_root files) (unsynced_past (remote_path files)))
    (λ _, None) (λ _, Some ex_nonce).
Definition ex_next : Bridge :=
  Bridge_mk true (λ path, ex_working (directories (ex_native (AndroidBridge.StageLostAckProbe ex_path) ex_bridge) path)).

Lemma survives_working (root : option Fs) : survives root (with_device (λ _, None) <$> root).
Proof. destruct root as [fs|]; [|exact I]. left. by exists (λ _, None). Qed.

Lemma lost_ack_reconciled_witness :
  succeeds (stage_lost_ack ex_path ex_files).2 = true ∧
  (AndroidBridge.nativeResumeLostAckProbe ex_get_string Some ex_path ex_next).2 =
    Ok (Some (b_ "PASS authenticated refetch reconciled lost ACK; no second publish")).
Proof.
  pose proof ex_lost_ack_staged as Hs. split; [exact Hs|].
  destruct (succeeds_Ok _ Hs) as [text Htext].
  assert (match probe_root (ex_directory ex_next), remote_root (ex_directory ex_next) with
    | Some _, Some rfs => match ProbeTransport.load_state (ProbeTransport_mk (remote_disk rfs) Normal) with
        | Ok state => bool_decide (remote_head state = PROBE_ACCEPTED_HEAD) | _ => false end
    | _, _ => false end = true) as Hr by (vm_compute; reflexivity).
  destruct (probe_root (ex_directory ex_next)) as [fs|] eqn:Hfs; [|discriminate Hr].
  destruct (remote_root (ex_directory ex_next)) as [rfs|] eqn:Hrfs; [|discriminate Hr].
  destruct (ProbeTransport.load_state _) as [state|e|] eqn:Hl; [|discriminate Hr..]. apply bool_decide_eq_true_1 in Hr.
  refine (proj1 (lost_ack_reconciled ex_get_string Some ex_bridge ex_next ex_path ex_path text fs rfs state eq_refl _ eq_refl
    Htext (survives_working _) (survives_working _) eq_refl Hfs _ Hrfs _ Hl Hr _ _)); [discriminate|..].
  - unfold ex_directory, ex_next, probe_root in Hfs. cbn [directories probe_path at_path ex_working] in Hfs. apply fmap_Some in Hfs as (fs0 & _ & ->).
    intros n. reflexivity.
  - unfold ex_directory, ex_next, remote_root in Hrfs. cbn [directories remote_path at_path ex_working] in Hrfs. apply fmap_Some in Hrfs as (fs0 & _ & ->).
    intros n. reflexivity.
  - intros n. by exists ex_nonce.
  - intros key nonce aad m _. eexists. reflexivity.
Defined.

(** ** The staged record *)

(** C14: what the probe has staged is found again.  Once the staging call has
    answered PASS, whatever native calls that do not write there follow, in this
    process or after any number of process deaths and power losses, whatever the
    device answers, the verification call, under any name of the directory, answers
    PASS, or names the call of the device that failed: it never finds a lost cursor,
    exposure mark or outbox entry, a record it cannot authenticate or decode, or a
    store without a record, and the store never runs out of candidate numbers.
    With a device that works it answers PASS.  This is so as long as no power loss
    puts an earlier state of the unsynced parent directory back; if one does, and
    no store had been at the path before the staging, the record may be gone with
    its directory, and the call may say so, but nothing else: where a record is
    left, and the device works, it answers PASS. *)
Theorem staged_probe_survives `{Aead} `{ErrorTexts} `{Locations} {JString JniError : Type} `{Display JniError}
    (get_string : JString → result JniError (list byte)) (new_string : list byte → option JString) (reverts : bool)
    (bridge bridge' : Bridge) (files_dir files_dir' : JString) (path path' text : list byte)
    (Hpath : get_string files_dir = Ok path) (Hne : path ≠ [])
    (Hstage : (stage path (directories bridge (location path))).2 = Ok text)
    (Hlater : bridge_reopens get_string new_string reverts (location path)
      (AndroidBridge.run_native get_string new_string (AndroidBridge.StageRecoveryProbe files_dir) bridge) bridge')
    (Hpath' : get_string files_dir' = Ok path') (Hne' : path' ≠ []) (Hsame : location path' = location path) :
  let store := probe_root (directories bridge' (location path)) in
  let answer := (AndroidBridge.nativeVerifyRecoveryProbe get_string new_string files_dir' bridge').2 in
  let passed := Ok (new_string (b_ "PASS reopened encrypted state; cursor/exposure/outbox intact")) in
  let gone := Ok (new_string (b_ "FAIL no committed recovery probe exists")) in
  let device := b_ "filesystem storage error: " ++ display OtherKind in
  let device_failed :=
    answer = Ok (new_string (b_ "FAIL open durability backend: " ++ device)) ∨
    answer = Ok (new_string (b_ "FAIL load committed record after restart: sync recovery backend error: " ++ device)) in
  (reverts = false →
     (answer = passed ∨ device_failed) ∧ ∃ fs, store = Some fs ∧ fs_ok fs ∧ (healthy fs → answer = passed)) ∧
  (untouched (probe_path (directories bridge (location path))) →
     (answer = passed ∨ answer = gone ∨ device_failed) ∧
     ∀ fs, store = Some fs → fs_ok fs ∧ ((∃ enc, rec fs (Some enc)) → healthy fs → answer = passed)).
Proof.
  cbn zeta. apply bridge_reopens_files in Hlater.
  rewrite (native_stage get_string new_string files_dir) in Hlater by done.
  pose proof (stage_pending path (directories bridge (location path))) as Hstaged. unfold outcome in Hstaged.
  destruct (stage path (directories bridge (location path))) as [files res]. cbn [fst snd] in *. subst res.
  destruct Hstaged as ((fs & Hfs & Hp) & Hclean).
  rewrite (native_verify get_string new_string files_dir' bridge' path'), Hsame by done.
  set (files' := directories bridge' (location path)) in *. split.
  - intros ->. destruct (reopened_pending _ _ _ Hlater Hfs Hp) as (fs' & Hfs' & Hp').
    pose proof (verify_pending files' fs' Hfs' Hp') as Hv. destruct (verify files') as [files2 verdict]. cbn [snd].
    destruct Hv as (_ & Hanswer & Hworks).
    split; [|exists fs'; split; [done|]; split; [by destruct Hp' as (record & [? _] & _)|]; by intros ->%Hworks].
    destruct Hanswer as [->|(error & -> & [-> | ->])]; [by left|right; left|right; right]; reflexivity.
  - intros Hbefore. destruct (reopened_found _ _ _ Hlater) as [Hf _].
    { split; [rewrite Hfs; by left|by apply Hclean]. }
    pose proof (verify_found files' Hf) as Hv. pose proof (verify_pending files') as Hpv.
    destruct (verify files') as [files2 verdict]. cbn [snd]. destruct Hv as [_ Hanswer]. split.
    + destruct Hanswer as [->|(error & -> & [-> |[-> | ->]])];
        [by left|right; left|right; right; left|right; right; right]; reflexivity.
    + intros fs' Hfs'. rewrite Hfs' in Hf. destruct Hf as [Hp'|(Hok & _ & Hnone)].
      * split; [by destruct Hp' as (record & [? _] & _)|]. intros _ Hh. by rewrite (proj2 (proj2 (Hpv fs' Hfs' Hp')) Hh).
      * split; [done|]. by intros (enc & [=]%Hnone).
Qed.

(** The process dies after the staging; the next one, whose device works,
    verifies under the other name. *)
Definition ex_staged : Bridge := ex_native (AndroidBridge.StageRecoveryProbe ex_path) (Bridge_mk false (λ _, ex_files)).
Definition ex_reopened : Bridge := Bridge_mk false (λ path, ex_working (directories ex_staged path)).

Lemma ex_probe_staged : succeeds (stage ex_path ex_files).2 = true.
Proof. vm_compute. reflexivity. Qed.

Lemma working_restarted (files : FilesDir) : restarted false files (ex_working files).
Proof. left. split; (split; [by exists (λ _, None)|reflexivity]). Qed.

Lemma staged_reopens : bridge_reopens ex_get_string Some false (location ex_path) ex_staged ex_reopened.
Proof.
  refine (reopens_new_process ex_get_string Some false (location ex_path) ex_staged ex_reopened _ eq_refl _ (reopens_now _ _ _ _ _)).
  exact (working_restarted (directories ex_staged (location ex_path))).
Qed.

(** The power fails after it, and the disk has not kept the store's directory. *)
Definition ex_lost : Bridge := Bridge_mk false (λ _, ex_files).

Lemma staged_lost : bridge_reopens ex_get_string Some true (location ex_path) ex_staged ex_lost.
Proof.
  apply (reopens_new_process ex_get_string Some true (location ex_path) ex_staged ex_lost); [reflexivity| |constructor].
  right. split; (split; [reflexivity|exists None; split; [|exact I]]).
  - apply elem_of_cons. right.
    assert (match unsynced_past (probe_path (directories ex_staged (location ex_path))) with
      | None :: _ => true | _ => false end = true) as Hhead by (vm_compute; reflexivity).
    cbv iota. destruct (unsynced_past _) as [|[fs|] past]; [discriminate Hhead..|]. left.
  - left.
Qed.

(** The staging call has answered PASS, and the next process finds no record. *)
Example staged_directory_lost :
  succeeds (stage ex_path ex_files).2 = true ∧
  bridge_reopens ex_get_string Some true (location ex_path) ex_staged ex_lost ∧
  (AndroidBridge.nativeVerifyRecoveryProbe ex_get_string Some ex_path ex_lost).2 =
    Ok (Some (b_ "FAIL no committed recovery probe exists")).
Proof. split; [exact ex_probe_staged|]. split; [exact staged_lost|vm_compute; reflexivity]. Qed.

(** The record is found again, unless its directory is gone. *)
Lemma staged_probe_survives_witness :
  succeeds (stage ex_path ex_files).2 = true ∧
  (AndroidBridge.nativeVerifyRecoveryProbe ex_get_string Some ex_alias ex_reopened).2 =
    Ok (Some (b_ "PASS reopened encrypted state; cursor/exposure/outbox intact")) ∧
  let answer := (AndroidBridge.nativeVerifyRecoveryProbe ex_get_string Some ex_path ex_lost).2 in
  answer ≠ Ok (Some (b_ "FAIL committed record lost applied cursor")) ∧
  answer = Ok (Some (b_ "FAIL no committed recovery probe exists")).
Proof.
  pose proof ex_probe_staged as Hs. split; [exact Hs|].
  destruct (succeeds_Ok _ Hs) as [text Htext]. split.
  - destruct (proj1 (staged_probe_survives ex_get_string Some false (Bridge_mk false (λ _, ex_files)) ex_reopened ex_path ex_alias
      ex_path ex_alias text eq_refl ltac:(discriminate) Htext staged_reopens eq_refl ltac:(discriminate) ex_same_location) eq_refl)
      as [_ (fs & Hfs & _ & Hworks)].
    apply Hworks. unfold ex_reopened, probe_root in Hfs. cbn [directories probe_path at_path ex_working] in Hfs.
    apply fmap_Some in Hfs as (fs0 & _ & Heq). rewrite Heq. intros n. reflexivity.
  - cbn zeta. split; [|vm_compute; reflexivity].
    destruct (proj2 (staged_probe_survives ex_get_string Some true (Bridge_mk false (λ _, ex_files)) ex_lost ex_path ex_path
      ex_path ex_path text eq_refl ltac:(discriminate) Htext staged_lost eq_refl ltac:(discriminate) eq_refl) ex_missing_untouched)
      as [[Ha|[Ha|[Ha|Ha]]] _]; rewrite Ha; intros Hno; vm_compute in Hno; discriminate Hno.
Defined.

(** *** A count that cannot be allocated

    The decoder reserves room for the announced number of objects before it
    reads any: a state of 32 bytes can make it panic. *)
Example remote_decoder_capacity_panic :
  decode_remote_state (REMOTE_MAGIC ++ be_bytes 8 1 ++ be_bytes 8 0 ++ be_bytes 8 (2 ^ 59)) = Panic.
Proof. vm_compute. reflexivity. Qed.
