(* ===== verification/WorkerProperties.v ===== *)
(** * Properties of the processes the tests spawn

    Replicas that meet only in files (crates/apc-sync/src/bin/apc-sync-process-worker.rs)
    and a store whose process is killed (crates/apc-storage-fs/src/bin/apc-storage-crash-worker.rs). *)
From Stdlib Require Import Lia NArith Strings.Byte.
From stdpp Require Import base tactics option list gmap numbers relations.
From S2P Require Import Prelude Outcome BTree Bytes Id Scalar Projection Codec Crypto Durability Fs FsStorage FsLaws.
From S2P Require Import SyncWorker CrashWorker SyncProperties.
Local Open Scope N_scope.
Import process_worker.

(** The converged state, evaluated: the two edits are the frontier, and the
    greater identity is on top. *)
Definition converged_check : bool :=
  match converged with
  | Ok bytes =>
      match decode_scalar_projection bytes, body_key (E := Empty_set) with
      | Ok projection, Ok key =>
          match SyncProjection.get projection key with
          | Some register =>
              bool_decide (size (domains projection) = 1%nat) &&
              bool_decide (ScalarRegister.frontier_ids register = {[rid 10; rid 20]}) &&
              bool_decide (ScalarRegister.materialized register = Some (b_ "right"))
          | None => false
          end
      | _, _ => false
      end
  | _ => false
  end.

Lemma converged_decodes :
  ∃ bytes projection key register, converged = Ok bytes ∧ decode_scalar_projection bytes = Ok projection ∧
    body_key = @Ok Empty_set _ key ∧ size (domains projection) = 1%nat ∧ SyncProjection.get projection key = Some register ∧
    ScalarRegister.frontier_ids register = {[rid 10; rid 20]} ∧ ScalarRegister.materialized register = Some (b_ "right").
Proof.
  assert (converged_check = true) as Hc by (vm_compute; reflexivity). unfold converged_check in Hc.
  destruct converged as [bytes|e|]; [|discriminate Hc..].
  destruct (decode_scalar_projection bytes) as [projection|e|] eqn:Hd; [|discriminate Hc..].
  destruct (body_key (E := Empty_set)) as [key|e|]; [|discriminate Hc..].
  destruct (SyncProjection.get projection key) as [register|] eqn:Hg; [|discriminate Hc].
  apply andb_prop in Hc as [[Hs Hf]%andb_prop Hm].
  apply bool_decide_eq_true_1 in Hs, Hf, Hm. by exists bytes, projection, key, register.
Qed.

(** C15: two processes that meet only in files converge.  Whatever runs of the
    worker came before, in any order, cut short at any call, with any nonces, a
    merge that exits with success has written the one byte string both replicas
    come to, which decodes to the register with both edits as its frontier and
    ["right"] on top.  And with a device and a cipher that work, publishing both
    edits and merging on both sides succeeds. *)
Theorem process_exchange_converges `{AeadLaws} (program : list byte) (payload_name result_name : bool → FileName)
    (dev : nat → option nat) (fs : Fs) (Hnames : names_apart payload_name result_name)
    (Hreach : rtc (exchange_step program payload_name result_name) (fs_new dev) fs) :
  let run c generated := main generated (args_of program payload_name result_name c) in
  (∃ bytes projection key register,
    (∀ side generated dev fs', run (Merge side) generated (with_device dev fs) = (fs', Ok tt) →
       file fs' (result_name side) = Some bytes) ∧
    decode_scalar_projection bytes = Ok projection ∧ body_key = @Ok Empty_set _ key ∧
    size (domains projection) = 1%nat ∧ SyncProjection.get projection key = Some register ∧
    ScalarRegister.frontier_ids register = {[rid 10; rid 20]} ∧
    ScalarRegister.materialized register = Some (b_ "right")) ∧
  ((∀ key nonce aad m, len m ≤ 2 ^ 16 → is_Some (aead_encrypt key nonce aad m)) → healthy fs →
   ∀ nonce nonce', ∃ fs1 fs2 fs3 fs4,
     run (Emit true) (Some nonce) fs = (fs1, Ok tt) ∧ run (Emit false) (Some nonce') fs1 = (fs2, Ok tt) ∧
     run (Merge true) None fs2 = (fs3, Ok tt) ∧ run (Merge false) None fs3 = (fs4, Ok tt)).
Proof.
  destruct (exchange_reachable _ _ _ _ _ Hnames (exchange_ok_new payload_name dev) Hreach) as [Hok Hh]. split.
  - destruct converged_decodes as (bytes & projection & key & register & Hb & Hrest).
    exists bytes, projection, key, register. split; [|exact Hrest]. intros side generated dev' fs'.
    rewrite main_command. intros Hrun.
    pose proof (outcome_result _ _ _ _ _ _ (merge_outcome side (payload_name true) (payload_name false) (result_name side)
      (with_device dev' fs) Hok (Hh true) (Hh false)) Hrun) as [_ (bytes' & Hb' & Hf)].
    rewrite Hb in Hb'. by injection Hb' as <-.
  - intros Hcipher Hd nonce nonce'. by apply exchange_succeeds.
Qed.

#[local] Existing Instances toy_aead toy_aead_laws.

Definition ex_payload_name (side : bool) : FileName := if side then b_ "left.payload" else b_ "right.payload".
Definition ex_result_name (side : bool) : FileName := if side then b_ "left.result" else b_ "right.result".
Definition ex_run (c : command) : stateful Fs Empty_set unit :=
  main (Some ex_nonce) (args_of (b_ "worker") ex_payload_name ex_result_name c).

(** A directory on a device that works, once both replicas have published. *)
Definition ex_exchange : Fs := (ex_run (Emit false) (ex_run (Emit true) (fs_new (λ _, None))).1).1.

Lemma process_exchange_converges_witness :
  ∃ bytes projection, decode_scalar_projection bytes = Ok projection ∧
    ∀ side, file (ex_run (Merge side) (with_device (λ _, None) ex_exchange)).1 (ex_result_name side) = Some bytes.
Proof.
  assert (names_apart ex_payload_name ex_result_name) as Hnames.
  { split; [done|]. by intros [|] [|]. }
  assert (rtc (exchange_step (b_ "worker") ex_payload_name ex_result_name) (fs_new (λ _, None)) ex_exchange) as Hreach.
  { eapply rtc_l; [exists (Emit true), (Some ex_nonce), (λ _, None); reflexivity|].
    eapply rtc_l; [|reflexivity]. eexists (Emit false), (Some ex_nonce), _. reflexivity. }
  destruct (proj1 (process_exchange_converges (b_ "worker") ex_payload_name ex_result_name (λ _, None) ex_exchange
    Hnames Hreach)) as (bytes & projection & key & register & Hmerge & Hdec & _).
  exists bytes, projection. split; [exact Hdec|]. intros side. specialize (Hmerge side (Some ex_nonce) (λ _, None)).
  assert (succeeds (ex_run (Merge side) (with_device (λ _, None) ex_exchange)).2 = true) as Hs
    by (destruct side; vm_compute; reflexivity).
  unfold ex_run in *. destruct (main _ _ (with_device _ ex_exchange)) as [fs' res].
  destruct (succeeds_Ok res Hs) as [[] Hres]. subst res. exact (Hmerge fs' eq_refl).
Defined.

(** C16: the kill matrix holds.  Whatever calls the device fails, a worker killed
    where it waits, with or without a power loss, leaves a store from which a
    restart whose device works reads what the test's table expects of its stage:
    the old state, the old or the new one, or the new one.  A worker that exits or
    panics instead leaves the old or the new state, never a third. *)
Theorem crash_worker_matrix (ready : bool) (args : list (list byte)) (fs fs' fs'' : Fs) (old : option (list byte))
    (res : result CrashWorkerError crash_worker.Waiting) (next : N) (Hok : fs_ok fs)
    (Hold : ∀ o, recoverable (UnixFsDurabilityBackend_mk fs next) o → o = old)
    (Hrun : crash_worker.main ready args fs = (fs', res)) (Hkill : restarts fs' fs'') (Hdev : ∀ n, device fs'' n = None) :
  ∃ o, UnixFsDurabilityBackend.load_committed (UnixFsDurabilityBackend_mk fs'' next) = Ok o ∧
  match res with
  | Ok _ => ∃ stage payload expected, args !! 3%nat = Some stage ∧ args !! 4%nat = Some payload ∧
      (stage, expected) ∈ cases ∧
      match expected with
      | Old => o = old
      | OldOrNew => o = old ∨ o = Some payload
      | New => o = Some payload
      end
  | _ => o = old ∨ ∃ payload, args !! 4%nat = Some payload ∧ o = Some payload
  end.
Proof.
  pose proof (outcome_result _ _ _ _ _ _ (worker_outcome ready args fs) Hrun) as Ho.
  assert (∀ b, restarts (filesystem b) fs'' → fs_ok (filesystem b) → ∃ o,
    UnixFsDurabilityBackend.load_committed (UnixFsDurabilityBackend_mk fs'' next) = Ok o ∧ recoverable b o) as Hload.
  { intros b Hr Hb. destruct (restart_loads _ fs'' next Hb Hr) as (_ & o & Ho' & _ & Hl). exists o.
    split; [by apply Hl|by apply recoverable_rec]. }
  assert (∀ dev next' o, recoverable (UnixFsDurabilityBackend_mk (with_device dev fs) next') o → o = old) as Hstart.
  { intros dev next' o Hrec. apply Hold. apply recoverable_rec; [exact Hok|]. by apply recoverable_rec in Hrec. }
  assert (∀ steps payload dev next', args !! 4%nat = Some payload →
    restarts (filesystem (commit_prefix steps payload (UnixFsDurabilityBackend_mk (with_device dev fs) next')).1) fs'' →
    ∃ o, UnixFsDurabilityBackend.load_committed (UnixFsDurabilityBackend_mk fs'' next) = Ok o ∧
      (o = old ∨ ∃ payload, args !! 4%nat = Some payload ∧ o = Some payload)) as Hcut.
  { intros steps payload dev next' Hp Hr.
    pose proof (commit_prefix_safe steps payload (UnixFsDurabilityBackend_mk (with_device dev fs) next') Hok) as [Hok1 _].
    destruct (Hload _ Hr Hok1) as (o & Hl & Hrec). exists o. split; [exact Hl|].
    destruct (prefix_recovers steps payload (UnixFsDurabilityBackend_mk (with_device dev fs) next') old o Hok (Hstart dev next') Hrec) as [-> | ->]; [by left|right; by exists payload]. }
  assert (∀ dev, restarts (with_device dev fs) fs'' →
    ∃ o, UnixFsDurabilityBackend.load_committed (UnixFsDurabilityBackend_mk fs'' next) = Ok o ∧ o = old) as Hsame.
  { intros dev Hr. destruct (Hload (UnixFsDurabilityBackend_mk (with_device dev fs) next) Hr Hok) as (o & Hl & Hrec).
    exists o. split; [exact Hl|by eapply Hstart]. }
  assert (with_device (device fs) fs = fs) as Hfs by by destruct fs.
  destruct res as [w|e|].
  2,3: destruct Ho as [->|[[dev ->]|(payload & steps & dev & next' & Hp & ->)]]; [| |by apply (Hcut steps payload dev next')];
    [rewrite <-Hfs in Hkill|]; apply Hsame in Hkill as (o & Hl & ->); exists old; (split; [exact Hl|by left]).
  - destruct Ho as (stage & payload & expected & steps & dev & next' & b' & Hs & Hp & Hin & Hsteps & -> & Hcalls).
    pose proof (commit_prefix_safe steps payload (UnixFsDurabilityBackend_mk (with_device dev fs) next') Hok) as [Hok1 _].
    rewrite Hcalls in Hok1. destruct (Hload b' Hkill Hok1) as (o & Hl & Hrec). exists o. split; [exact Hl|].
    exists stage, payload, expected. split; [done|]. split; [done|]. split; [done|].
    by eapply (stage_recovers expected steps payload (UnixFsDurabilityBackend_mk (with_device dev fs) next') b' old).
Qed.

Definition ex_worker_args (stage : list byte) : list (list byte) :=
  [b_ "apc-storage-crash-worker"; b_ "store"; b_ "marker"; stage; b_ "new-state"].

Lemma crash_worker_matrix_witness :
  let run stage := crash_worker.main true (ex_worker_args stage) (fs_new (λ _, None)) in
  ∃ o, UnixFsDurabilityBackend.load_committed (UnixFsDurabilityBackend_mk (run (b_ "after-root-sync")).1 0) = Ok o ∧
    ∃ stage payload expected, Some (b_ "after-root-sync") = Some stage ∧ Some (b_ "new-state") = Some payload ∧
      (stage, expected) ∈ cases ∧
      match expected with
      | Old => o = None
      | OldOrNew => o = None ∨ o = Some payload
      | New => o = Some payload
      end.
Proof.
  cbn zeta. set (fs := fs_new (λ _, None)).
  assert (succeeds (crash_worker.main true (ex_worker_args (b_ "after-root-sync")) fs).2 = true) as Hs
    by (vm_compute; reflexivity).
  assert (device (crash_worker.main true (ex_worker_args (b_ "after-root-sync")) fs).1 = λ _, None) as Hd
    by (vm_compute; reflexivity).
  destruct (crash_worker.main true (ex_worker_args (b_ "after-root-sync")) fs) as [fs' res] eqn:Hrun.
  cbn [fst snd] in *. destruct (succeeds_Ok res Hs) as [w Hres]. subst res.
  assert (∀ o, recoverable (UnixFsDurabilityBackend_mk fs 0) o → o = None) as Hold.
  { intros o (R & ->%list_elem_of_singleton & Ho)%recoverable_rec; [|apply fs_new_ok]. exact Ho. }
  assert (restarts fs' fs') as Hkill by (left; exists (device fs'); by destruct fs').
  exact (crash_worker_matrix true (ex_worker_args (b_ "after-root-sync")) fs fs' fs' None (Ok w) 0 (fs_new_ok _) Hold
    Hrun Hkill (λ n, f_equal (λ dev, dev n) Hd)).
Defined.
